(* ===== verification/_CoqProject ===== *)
-Q . S2P
Prelude.v
Handles.v
WaitRegistry.v
Channel.v
Events.v
Vmo.v
Scheduler.v
ProcessExit.v
BootContract.v
Memory.v
AbJournal.v
BootControl.v
UserIpc.v
UserElf.v
UserChild.v
ChildIsolation.v
Gpt.v
Fat32.v
Fat32Volume.v
Scope.v
Acpi.v
Capability.v
SlotUpdate.v
LoaderElf.v
Loader.v
LoaderBoot.v
