(* ===== verification/Prelude.v ===== *)
(** * NagiOS: a verification development for the kernel core and its boot path

    NagiOS is a capability operating system in Rust. A UEFI loader chooses one
    of two system slots, verifies its signed manifest, loads the kernel and hands
    it the boot information (src/loader, src/crates/nagi-slot-manifest,
    src/crates/nagi-bootinfo). The kernel (src/kernel) gives each
    process a table of handles to reference-counted kernel objects; processes
    exchange messages and handles through channels, wait on channels, events and
    timers, share memory objects, and run on a cooperative scheduler. A
    supervisor spawns isolated processes from ELF images, each in page tables of
    its own. The kernel finds its partitions on the disk and a system update
    writes the slot that is not in use as a FAT32 volume (kernel/src/gpt.rs,
    src/crates/nagi-fat32). Services decide what an application may do by a
    permission policy (src/crates/nagi-capability). This development models
    these parts and proves what they promise one another.

    ** Files

    Each file models one part; its definitions have the names of the source.

    - [Prelude] (this file): Rust's results, panics, arrays, integers and bytes,
      with the lemmas, tactics and hints the other files share.
    - [Handles] (kernel/src/handles.rs): rights, the object registry, handle
      tables, transfer tokens, processes.
    - [WaitRegistry] (kernel/src/ipc.rs, wait registrations and wake-ups).
    - [Channel] (kernel/src/ipc.rs, messages, the ring buffer and the channel
      pair with its escrow of moved handles).
    - [Events] (kernel/src/ipc.rs, events, timers, wait items, [wait_many]).
    - [Vmo] (kernel/src/vmo.rs): memory objects and address spaces.
    - [Scheduler] (kernel/src/scheduler.rs): the thread table.
    - [ProcessExit] (kernel/src/process_exit.rs): exit records and waits.
    - [BootContract] (crates/nagi-bootinfo): boot information, boot records with
      their checksum, the firmware clock.
    - [Memory] (kernel/src/memory.rs): page allocator, page tables, the
      identity-mapping check, the bump heap.
    - [AbJournal] (loader/src/ab.rs, loader/src/ab/uefi_store.rs): the A/B boot
      journal over a persistent store.
    - [BootControl] (kernel/src/boot_control.rs): the one-shot gates through
      which the kernel reports a boot and stages an update.
    - [UserIpc] (kernel/src/user_ipc.rs): the manager behind the channel system
      calls, composed of [Handles], [Channel], [WaitRegistry], [Events] and
      [ProcessExit], with its collector of unreachable channels.
    - [UserElf] (kernel/src/user_elf.rs): loading plans from ELF images.
    - [UserChild] (kernel/src/user_child.rs and the helpers of
      kernel/src/user_process.rs it calls): the checks of a plan, the
      construction of an isolated address space, the slots, the checks of user
      pointers.
    - [ChildIsolation]: what the operations of [UserChild] guarantee.
    - [Gpt] (kernel/src/gpt.rs): the search for the partitions of a disk.
    - [Fat32] (crates/nagi-fat32): the formatter of a volume and the reader of
      files in its root directory, over any block device; what reading
      guarantees on any contents.
    - [Fat32Volume]: what [Fat32.format] guarantees.
    - [Scope] (crates/nagi-capability: ids.rs, the scopes of model.rs):
      identifiers, and which scope covers which.
    - [Acpi] (kernel/src/acpi.rs): the processors, found in the firmware's tables.
    - [Capability] (crates/nagi-capability: the grants of model.rs, registry.rs,
      store.rs, evaluator.rs, declaration.rs): the policy document, its stores
      behind an interface, and the evaluator of access requests. Identifiers are
      the strings they wrap.
    - [SlotUpdate] (crates/nagi-slot-manifest): the signed manifests of the system
      slots and the update bundles, read and written.
    - [LoaderElf] (loader/src/elf.rs): loading plans from kernel images.
    - [Loader] (loader/src/main.rs): the loader's main program, composed of
      [AbJournal], [SlotUpdate], [LoaderElf] and [BootContract]; that what it
      enters is verified, whatever the disks answer.
    - [LoaderBoot]: what the main program does on a firmware that keeps its
      promises.

    ** How code becomes definitions

    A struct is a record [t] in a module of its name, an enum an inductive type,
    a method a function that returns its result together with every value it
    changed, on its error paths too. Machine integers are [N] with their
    checked, saturating, wrapping or panicking arithmetic written out; array
    indices are [nat]; arrays are lists of the array's length. [Result] is
    Rust's; [Exec] adds the panic of an index, slice, unwrap or subtraction out
    of range, so a theorem that a call is [Ret _] says that it does not panic.
    [UserIpc] threads its state through a small monad; [UserChild], [Gpt],
    [Fat32] and [Loader] use the [Proc] of this file.
    [let?], [let!] and [let*] are the question mark on results, the sequencing of
    code that may panic, and both.

    Loops are structural over the array or range they walk, with ten exceptions
    that take fuel. [WaitRegistry.notify_loop] restarts its scan when it removes
    a registration, and has fuel for one scan per registration
    ([notify_fuel]). [UserIpc.mark_loop] has the number of channels plus one:
    each round but the last marks a channel. [Channel.drain_queue] has the length
    of the queue plus one, [Memory.identity_loop] the pages of the range,
    [Fat32.read_clusters], [Loader.read_loop] and [Loader.read_init_loop] the
    bytes of the file plus one, [Scope.digits] the binary digits of the number,
    [SlotUpdate.Writer.decimal_loop] one round more than its array has places,
    [Acpi.madt_loop] the bytes of the table. Each has a lemma that its fuel is
    enough, so that the callers compute a result.

    What is not under src/ is a parameter: the firmware's variable services and
    memory map, physical memory ([read]), the addresses of statics ([Layout]).
    So are the block devices behind [Gpt] and [Fat32], which may fail at any
    access, and for [Gpt] may also change their contents, the store behind
    [Capability], the signature scheme and the hash function of [SlotUpdate], and
    the boot services of the firmware, with its files, behind [Loader].
    What the code relies on of them is a named hypothesis, with a concrete
    instance in an example module.

    ** What is proved

    - Handles: a handle that left its table never resolves again, a released
      object never validates again; counts equal the references held through
      every sequence of operations; moving a handle only attenuates its rights.
    - Channels: sending and receiving never panic and are all or nothing; the
      ring buffer refines a bounded queue; references are conserved through
      every interleaving of two processes' operations; draining terminates and
      releases the escrow.
    - Waiting: no wake-up between the check and the wait is missed; [notify]
      wakes exactly the matching waiters; the registry never overflows; the
      readiness reported is that of the first ready item; a timer fires once.
    - Memory objects: mappings stay aligned, disjoint and counted; rights of a
      mapping are at most those of the handle; reads return what was written.
    - Scheduler and exits: the thread table's invariant in every reachable state,
      round-robin fairness, the hand-over of exit codes to joiners; the exit
      table refines a map from processes to their status, delivered once.
    - Physical memory: pages are never handed out twice; the identity check
      agrees with the four-level page walk; heap blocks are disjoint; page
      tables are maps.
    - Boot: the journal refines an atomic state under interrupted writes, with
      a bounded number of trial boots; records and bytes determine each other
      and a changed byte is rejected; the gates write at most once under every
      interleaving of their atomic accesses; the clock conversion is the
      Gregorian calendar.
    - Loader: if it enters a kernel, whatever the disks answer, then the image in
      memory and the initial program are pinned by a manifest signed with the
      trusted key, without a rollback on a trial; its decision promotes, stages
      and begins only as the journal, the records of the kernel and the signed
      manifests allow, also when the firmware fails, and exactly so when it does
      not; a slot that is signed and whole is entered. The journal is one that
      holds a state: the first update on an empty one is [first_update].
    - Updates: a manifest's text is canonical; a bundle is accepted exactly if its
      lengths add up, its manifest is signed and its payloads are pinned; what the
      release tools sign is accepted.
    - User IPC: through every run of the manager the registry counts exactly the
      references held by all processes, spaces and queued messages; collection
      terminates and frees exactly the unreachable channels; an exit leaves no
      garbage.
    - Loading: the parsers of the kernel and of the loader accept exactly the
      images of their specification and panic on none.
    - Isolation: by the processor's walk of the tables that are built, user code
      of a spawned process reaches its own image and stack pages with the rights
      of their segments, and nothing else; through every sequence of spawns and
      releases slots are unique, isolated, and erased when free; the kernel's
      checks of user pointers agree with what the process itself may access.
    - Processors: discovery reads inside the memory map only, accepts exactly the
      tables of its specification and panics on none; the topology it returns.
    - Disks: the search returns exactly the partitions of a valid table, and
      disjoint ranges inside the disk whatever the disk answers; files of a
      formatted volume are read back; an interrupted format leaves no
      half-written volume that opens; reading ends inside the volume, without a
      panic, on any contents; each write is a whole sector of the volume.
    - Permissions: a path covers by whole segments; a check allows exactly what
      an active grant allows and no active grant denies, and fails closed on a
      faulty store; an issued grant takes effect; over every sequence of calls a
      one-shot grant allows once, an allowed request traces to a grant that was
      not revoked, and the document stays valid and keeps its grants.

    ** Not modelled

    - The init process's address space (kernel/src/user_process.rs apart from the
      helpers above), the system call entry and dispatch (syscall.rs), start-up
      (main.rs, m4.rs), processor tables, interrupts and multiprocessor start
      (cpu_tables.rs, interrupts.rs, smp.rs): assembly, model-specific registers
      and raw pointers to statics.
    - Device code (virtio.rs, net.rs, audio.rs, input.rs, display.rs, random.rs): memory-mapped registers and DMA rings shared with a device.
    - The JSON form of policy documents and declarations.
    - What the loader prints, and the loader as built without slot boot control or
      with the acceptance fixture, which stages System B by itself.
    - The remaining crates, the user programs, services, applications and tools:
      outside the kernel's trusted core, not translated.
    - Stores by user code to its own pages: the state of a slot is what the
      kernel's operations make it. Memory orderings of atomic accesses other
      than sequential consistency. *)

From Stdlib Require Import ZifyNat ZifyN.
From stdpp Require Import prelude.

#[export] Set Warnings "-clear-no-such-hyp".

(** ** Results and panics

    Rust's [Result] is [Result]; [Exec] is the outcome of code that indexes an
    array, slices, unwraps or subtracts without a guard: [Panic] is the Rust
    panic, so that a theorem that a function returns [Ret _] is a proof that
    it does not panic. *)

Inductive Result (T E : Type) : Type :=
| Ok (value : T)
| Err (error : E).
Arguments Ok {_ _} _.
Arguments Err {_ _} _.

Inductive Exec (A : Type) : Type :=
| Ret (value : A)
| Panic.
Arguments Ret {_} _.
Arguments Panic {_}.

#[export] Instance Result_eq_dec {T E} `{EqDecision T, EqDecision E} :
  EqDecision (Result T E).
Proof. solve_decision. Defined.

Definition is_ok {T E} (r : Result T E) : bool :=
  match r with Ok _ => true | Err _ => false end.

Definition map_err {T E F} (f : E -> F) (r : Result T E) : Result T F :=
  match r with Ok t => Ok t | Err e => Err (f e) end.

Definition ok_or {T E} (o : option T) (e : E) : Result T E :=
  match o with Some t => Ok t | None => Err e end.

Declare Scope nagi_scope.
Delimit Scope nagi_scope with nagi.

(** [let? x := r in k] is Rust's [let x = r?; k] on a pure [Result];
    [let! x := e in k] sequences computations that may panic. *)
Notation "'let?' x ':=' r 'in' k" :=
  (match r with Ok x => k | Err e => Err e end)
  (at level 10, x pattern, r at level 200, k at level 200) : nagi_scope.

Notation "'let!' x ':=' r 'in' k" :=
  (match r with Ret x => k | Panic => Panic end)
  (at level 10, x pattern, r at level 200, k at level 200) : nagi_scope.

(** [let* x := m in k] is [?] on the result of code that may also panic. *)
Definition try {A B E} (m : Exec (Result A E)) (k : A -> Exec (Result B E))
  : Exec (Result B E) :=
  match m with
  | Ret (Ok x) => k x
  | Ret (Err e) => Ret (Err e)
  | Panic => Panic
  end.

Notation "'let*' x ':=' m 'in' k" := (try m (fun x => k))
  (at level 10, x pattern, m at level 200, k at level 200) : nagi_scope.

(** [array[i]]: an out-of-range index panics. *)
Definition index {A} (l : list A) (i : nat) : Exec A :=
  match l !! i with Some x => Ret x | None => Panic end.

(** [array[i] = x]: an out-of-range index panics. *)
Definition store {A} (l : list A) (i : nat) (x : A) : Exec (list A) :=
  if decide (i < length l)%nat then Ret (<[i := x]> l) else Panic.

(** [array[..n]]: a length past the end panics. *)
Definition slice_to {A} (l : list A) (n : nat) : Exec (list A) :=
  if decide (n <= length l)%nat then Ret (take n l) else Panic.

(** [array[start..start + n]] and copying into it: a range past the end panics. *)
Definition slice {A} (l : list A) (start n : nat) : Exec (list A) :=
  if decide (start + n <= length l)%nat then Ret (take n (drop start l)) else Panic.

Definition copy_into {A} (l : list A) (start : nat) (source : list A) : Exec (list A) :=
  if decide (start + length source <= length l)%nat
  then Ret (take start l ++ source ++ drop (start + length source) l) else Panic.

(** ** Code with a state

    A method on [&mut self], or code on a [&mut S], that may fail or panic. *)

Definition Proc (S E T : Type) : Type := S -> Exec (Result T E * S).

Module Proc.
Section proc.
Context {S E : Type}.

Definition ret {T} (x : T) : Proc S E T := fun s => Ret (Ok x, s).
Definition fail {T} (e : E) : Proc S E T := fun s => Ret (Err e, s).
Definition bind {T U} (m : Proc S E T) (k : T -> Proc S E U) : Proc S E U := fun s =>
  match m s with
  | Panic => Panic
  | Ret (Err e, s) => Ret (Err e, s)
  | Ret (Ok x, s) => k x s
  end.
Definition lift {T} (r : Result T E) : Proc S E T := fun s => Ret (r, s).
Definition exec {T} (e : Exec (Result T E)) : Proc S E T := fun s =>
  match e with Panic => Panic | Ret r => Ret (r, s) end.

(** [for x in xs { f(x)?; }] *)
Fixpoint for_each {A} (xs : list A) (f : A -> Proc S E unit) : Proc S E unit :=
  match xs with
  | [] => ret tt
  | x :: xs => bind (f x) (fun _ => for_each xs f)
  end.
End proc.
End Proc.

Notation "'do' x ':=' m 'in' k" := (Proc.bind m (fun x => k))
  (at level 10, x pattern, m at level 200, k at level 200) : nagi_scope.

(** An [[Option<T>; n]] whose first entries are [xs] and the others [None]. *)
Definition padded {A} (n : nat) (xs : list A) : list (option A) :=
  (Some <$> xs) ++ replicate (n - length xs) None.

(** ** Machine integers

    A [u8], [u16], [u32], [u64] or [usize] is an [N] below its bound; the
    checked, saturating and wrapping operations are written out. *)

Definition U8_MAX : N := 255.
Definition U32_MAX : N := 4294967295.
Definition U64_MAX : N := 18446744073709551615.

Definition as_u32 (n : N) : N := (n mod (U32_MAX + 1))%N.

Definition u64_checked_add (a b : N) : option N :=
  if decide (a + b <= U64_MAX)%N then Some (a + b)%N else None.

Definition u64_checked_mul (a b : N) : option N :=
  if decide (a * b <= U64_MAX)%N then Some (a * b)%N else None.

Definition u64_saturating_add (a b : N) : N := N.min (a + b) U64_MAX.

Definition u64_wrapping_add (a b : N) : N := ((a + b) mod (U64_MAX + 1))%N.

Definition u32_checked_add (a b : N) : option N :=
  if decide (a + b <= U32_MAX)%N then Some (a + b)%N else None.

Definition u32_checked_mul (a b : N) : option N :=
  if decide (a * b <= U32_MAX)%N then Some (a * b)%N else None.

(** [a.div_ceil(b)] *)
Definition div_ceil (a b : N) : N := (a / b + (if decide (a mod b = 0) then 0 else 1))%N.

Definition u32_saturating_add (a b : N) : N := N.min (a + b) U32_MAX.

(** [a + b], [a - b] and [a * b] on [u64] and [usize]: overflow panics. *)
Definition u64_add (a b : N) : Exec N :=
  if decide (a + b <= U64_MAX)%N then Ret (a + b)%N else Panic.

Definition u64_sub (a b : N) : Exec N :=
  if decide (b <= a)%N then Ret (a - b)%N else Panic.

(** The length of the longest slice: [isize::MAX] bytes. *)
Definition ISIZE_MAX : N := 9223372036854775807.

Definition is_multiple_of (a b : N) : bool :=
  if decide (b = 0)%N then bool_decide (a = 0%N) else bool_decide (a mod b = 0)%N.

(** [to_le_bytes] of a [8 * k]-bit word, and [from_le_bytes]. *)
Fixpoint to_le_bytes (k : nat) (n : N) : list N :=
  match k with
  | O => []
  | S k => (n mod 256)%N :: to_le_bytes k (n / 256)%N
  end.

Fixpoint from_le_bytes (bytes : list N) : N :=
  match bytes with
  | [] => 0%N
  | b :: bytes => (b + 256 * from_le_bytes bytes)%N
  end.

Definition is_byte (b : N) : Prop := (b < 256)%N.

(** [array[start..start + len].copy_from_slice(source)] and [array[start..start + n]]
    for offsets the code fixes inside the array. *)
Definition put (start : nat) (source bytes : list N) : list N :=
  take start bytes ++ source ++ drop (start + length source) bytes.

Definition sub_bytes (bytes : list N) (start n : nat) : list N := take n (drop start bytes).

Definition byte_at (bytes : list N) (i : nat) : N := nth i bytes 0%N.

(** [slice::from_raw_parts(address, count)] *)
Definition memory_bytes (memory : N -> N) (address : N) (count : nat) : list N :=
  (fun i => memory (address + N.of_nat i)%N) <$> seq 0 count.

(** ** Counting the entries of an array that satisfy a predicate *)

Definition count_of {A} (P : A -> Prop) `{forall x, Decision (P x)}
  (l : list A) : nat := length (filter P l).

(** The sum of a measure over an array. *)
Definition sum_by {A} (f : A -> N) (l : list A) : N := foldr (fun x n => f x + n)%N 0%N l.

(** ** Tactics *)

Lemma not_or_split (P Q : Prop) : ~ (P \/ Q) -> ~ P /\ ~ Q.
Proof. tauto. Qed.

Lemma not_or_and (P Q : Prop) : ~ (P \/ Q) <-> ~ P /\ ~ Q.
Proof. tauto. Qed.

(** Turn a refuted guard into the facts the code relies on after it. *)
Ltac undec :=
  repeat match goal with
  | H : ~ (_ \/ _) |- _ => apply not_or_split in H as [? ?]
  | H : ~ (_ <> _) |- _ => apply dec_stable in H
  end.

(** Case analysis on every [match] and [decide] in reach, with the resulting
    equations simplified. *)
Ltac crush_match :=
  repeat (case_decide || case_match); simplify_eq/=; undec.

(** Two results of the same call are equal. *)
Ltac same_result :=
  repeat match goal with
  | H1 : ?x = Ok ?a, H2 : ?x = Ok ?b |- _ =>
      assert_fails (unify a b); rewrite H1 in H2; simplify_eq
  | H1 : ?x = Ret ?a, H2 : ?x = Ret ?b |- _ =>
      assert_fails (unify a b); rewrite H1 in H2; simplify_eq
  end; simplify_eq.

(** [lia] on goals with divisions and remainders. *)
Ltac div_lia := zify; Z.to_euclidean_division_equations; lia.

Create HintDb nagi.

(** ** Generic lemmas *)

Section count_of.
Context {A : Type} (P : A -> Prop) `{!forall x, Decision (P x)}.
Implicit Types (l : list A) (x y : A).

Lemma count_of_nil : count_of P [] = 0.
Proof. done. Qed.

Lemma count_of_cons x l :
  count_of P (x :: l) = (if decide (P x) then 1 else 0) + count_of P l.
Proof. unfold count_of. rewrite filter_cons. by case_decide. Qed.

Lemma count_of_app l1 l2 : count_of P (l1 ++ l2) = count_of P l1 + count_of P l2.
Proof. unfold count_of. by rewrite filter_app, length_app. Qed.

Lemma count_of_le_length l : count_of P l <= length l.
Proof. apply length_filter. Qed.

(** Overwriting one entry moves the count by that entry's own contribution. *)
Lemma count_of_insert l i x y :
  l !! i = Some x ->
  count_of P (<[i := y]> l) + (if decide (P x) then 1 else 0) =
  count_of P l + (if decide (P y) then 1 else 0).
Proof.
  intros Hi. rewrite <-(take_drop_middle l i x Hi) at 2.
  rewrite insert_take_drop by (by eapply lookup_lt_Some).
  rewrite !count_of_app, !count_of_cons. lia.
Qed.

Lemma count_of_replicate_false n x : ~ P x -> count_of P (replicate n x) = 0.
Proof.
  intros Hx. induction n as [|n IH]; [done|].
  simpl. rewrite count_of_cons, IH. by case_decide.
Qed.

Lemma count_of_zero l : count_of P l = 0 <-> Forall (fun x => ~ P x) l.
Proof.
  induction l as [|x l IH]; [by split|].
  rewrite count_of_cons, Forall_cons, <-IH. case_decide; naive_solver lia.
Qed.

Lemma count_of_pos l i x : l !! i = Some x -> P x -> 0 < count_of P l.
Proof.
  intros Hi Hx. destruct (decide (count_of P l = 0)) as [H0|]; [|lia].
  apply count_of_zero in H0. by apply (Forall_lookup_1 _ _ _ _ H0 Hi) in Hx.
Qed.

Lemma count_of_exists l : 0 < count_of P l -> exists i x, l !! i = Some x /\ P x.
Proof.
  intros Hpos. destruct (list_find P l) as [[i x]|] eqn:E.
  - apply list_find_Some in E. naive_solver.
  - apply list_find_None in E. apply count_of_zero in E. lia.
Qed.
End count_of.

Lemma count_of_ext {A} (P Q : A -> Prop) `{!forall x, Decision (P x), !forall x, Decision (Q x)} l :
  Forall (fun x => P x <-> Q x) l -> count_of P l = count_of Q l.
Proof.
  induction 1 as [|x l Hx _ IH]; [done|].
  rewrite !count_of_cons, IH. do 2 case_decide; naive_solver.
Qed.

Lemma sum_by_app {A} (f : A -> N) l1 l2 : sum_by f (l1 ++ l2) = (sum_by f l1 + sum_by f l2)%N.
Proof. unfold sum_by. induction l1 as [|x l1 IH]; simpl; [done|]. rewrite IH. lia. Qed.

(** Overwriting one entry moves the sum by that entry's own contribution. *)
Lemma sum_by_insert {A} (f : A -> N) l i x y :
  l !! i = Some x -> (sum_by f (<[i := y]> l) + f x = sum_by f l + f y)%N.
Proof.
  intros Hi. rewrite <-(take_drop_middle l i x Hi) at 2.
  rewrite insert_take_drop by (by eapply lookup_lt_Some).
  rewrite !sum_by_app. unfold sum_by. simpl. lia.
Qed.

Lemma sum_by_ge {A} (f : A -> N) l i x : l !! i = Some x -> (f x <= sum_by f l)%N.
Proof.
  intros Hi. rewrite <-(take_drop_middle l i x Hi), sum_by_app. unfold sum_by. simpl. lia.
Qed.

(** [list_find] on an array whose searched entry has been found keeps its
    place in the array. *)
Lemma list_find_lookup {A} (P : A -> Prop) `{!forall x, Decision (P x)} l i x :
  list_find P l = Some (i, x) -> l !! i = Some x.
Proof. intros (?&?&?)%list_find_Some. done. Qed.

Lemma list_find_holds {A} (P : A -> Prop) `{!forall x, Decision (P x)} l i x :
  list_find P l = Some (i, x) -> P x.
Proof. intros (?&?&?)%list_find_Some. done. Qed.

Lemma Forall_insert_slot {A} (P : A -> Prop) l i x :
  Forall P l -> P x -> Forall P (<[i := x]> l).
Proof. intros. by apply Forall_insert. Qed.

Lemma index_Ret {A} (l : list A) i x : index l i = Ret x <-> l !! i = Some x.
Proof. unfold index. case_match; naive_solver. Qed.

Lemma store_Ret {A} (l : list A) i x : (i < length l)%nat -> store l i x = Ret (<[i := x]> l).
Proof. intros. unfold store. by rewrite decide_True. Qed.

Lemma slice_to_Ret {A} (l : list A) n : (n <= length l)%nat -> slice_to l n = Ret (take n l).
Proof. intros. unfold slice_to. by rewrite decide_True. Qed.

Lemma copy_into_Ret {A} (l source : list A) start :
  (start + length source <= length l)%nat ->
  copy_into l start source = Ret (take start l ++ source ++ drop (start + length source) l).
Proof. intros. unfold copy_into. by rewrite decide_True. Qed.

Lemma try_value {A B E} (x : A) (k : A -> Exec (Result B E)) : try (Ret (Ok x)) k = k x.
Proof. done. Qed.

Lemma try_Ok {A B E} (m : Exec (Result A E)) (k : A -> Exec (Result B E)) y :
  try m k = Ret (Ok y) <-> exists x, m = Ret (Ok x) /\ k x = Ret (Ok y).
Proof. destruct m as [[x|e]|]; simpl; naive_solver. Qed.

Lemma try_returns {A B E} (m : Exec (Result A E)) (k : A -> Exec (Result B E)) :
  m <> Panic -> (forall x, m = Ret (Ok x) -> k x <> Panic) -> try m k <> Panic.
Proof. destruct m as [[x|e]|]; simpl; auto. Qed.

(** What a procedure leaves behind: [Q] when it succeeds, [F] when it fails; in
    both cases it does not panic. *)
Definition yields {S E T} (m : Proc S E T) (s : S) (Q : T -> S -> Prop) (F : E -> S -> Prop) : Prop :=
  exists r s', m s = Ret (r, s') /\ match r with Ok x => Q x s' | Err e => F e s' end.

(** It succeeds. *)
Definition runs {S E T} (m : Proc S E T) (s : S) (Q : T -> S -> Prop) : Prop :=
  exists x s', m s = Ret (Ok x, s') /\ Q x s'.

(** It does not panic. *)
Definition total {S E T} (m : Proc S E T) : Prop := forall s, yields m s (fun _ _ => True) (fun _ _ => True).

Create HintDb total.

Section procedures.
Context {S E : Type}.
Implicit Types (s : S) (e : E).

Lemma runs_ret {T} (x : T) s (Q : T -> S -> Prop) : Q x s -> runs (E := E) (Proc.ret x) s Q.
Proof. intros. by exists x, s. Qed.

Lemma runs_bind {T U} (m : Proc S E T) (k : T -> Proc S E U) s Q Q' :
  runs m s Q -> (forall x s', Q x s' -> runs (k x) s' Q') -> runs (Proc.bind m k) s Q'.
Proof.
  intros (x&s'&Hm&HQ) Hk. destruct (Hk x s' HQ) as (y&s''&Hr&HQ').
  exists y, s''. unfold Proc.bind. by rewrite Hm.
Qed.

Lemma runs_lift {T} (x : T) s (Q : T -> S -> Prop) : Q x s -> runs (E := E) (Proc.lift (Ok x)) s Q.
Proof. intros. by exists x, s. Qed.

(** A loop keeps an invariant of the part of the list it has done. *)
Lemma runs_for_each {A} (f : A -> Proc S E unit) (I : list A -> S -> Prop) xs s :
  I [] s ->
  (forall pre x post s, xs = pre ++ x :: post -> I pre s -> runs (f x) s (fun _ => I (pre ++ [x]))) ->
  runs (Proc.for_each xs f) s (fun _ => I xs).
Proof.
  intros H0 Hstep.
  assert (Hgen : forall post pre s, xs = pre ++ post -> I pre s ->
    runs (Proc.for_each post f) s (fun _ => I xs)).
  { induction post as [|x post IH]; intros pre s' Hxs HI.
    - rewrite app_nil_r in Hxs. subst. by apply runs_ret.
    - cbn [Proc.for_each]. eapply runs_bind; [by eapply Hstep|]. intros [] s'' HI'.
      apply (IH (pre ++ [x])); [by rewrite <-(assoc_L (++))|done]. }
  by apply (Hgen xs []).
Qed.

Lemma yields_ret {T} (x : T) s (Q : T -> S -> Prop) (F : E -> S -> Prop) :
  Q x s -> yields (Proc.ret x) s Q F.
Proof. intros. by exists (Ok x), s. Qed.

Lemma yields_fail {T} e s (Q : T -> S -> Prop) (F : E -> S -> Prop) :
  F e s -> yields (Proc.fail e) s Q F.
Proof. intros. by exists (Err e), s. Qed.

Lemma yields_bind {T U} (m : Proc S E T) (k : T -> Proc S E U) s Q Q' F :
  yields m s Q F -> (forall x s', Q x s' -> yields (k x) s' Q' F) -> yields (Proc.bind m k) s Q' F.
Proof.
  intros ([x|e]&s'&Hm&HQ) Hk.
  - destruct (Hk x s' HQ) as (r&s''&Hr&HQ'). exists r, s''. unfold Proc.bind. by rewrite Hm.
  - exists (Err e), s'. unfold Proc.bind. by rewrite Hm.
Qed.

Lemma yields_lift {T} (r : Result T E) s (Q : T -> S -> Prop) (F : E -> S -> Prop) :
  match r with Ok x => Q x s | Err e => F e s end -> yields (Proc.lift r) s Q F.
Proof. intros. by exists r, s. Qed.

Lemma yields_mono {T} (m : Proc S E T) s (Q Q' : T -> S -> Prop) (F F' : E -> S -> Prop) :
  yields m s Q F -> (forall x s', Q x s' -> Q' x s') -> (forall e s', F e s' -> F' e s') ->
  yields m s Q' F'.
Proof. intros ([x|e]&s'&Hm&HQ) H1 H2; eexists _, s'; (split; [done|]); naive_solver. Qed.

Lemma total_ret {T} (x : T) : total (S := S) (E := E) (Proc.ret x).
Proof. intros s. by apply yields_ret. Qed.

Lemma total_fail {T} (e : E) : total (S := S) (T := T) (Proc.fail e).
Proof. intros s. by apply yields_fail. Qed.

Lemma total_lift {T} (r : Result T E) : total (S := S) (Proc.lift r).
Proof. intros s. apply yields_lift. by destruct r. Qed.

Lemma total_bind {T U} (m : Proc S E T) (k : T -> Proc S E U) :
  total m -> (forall x, total (k x)) -> total (Proc.bind m k).
Proof. intros Hm Hk s. eapply yields_bind; [apply Hm|]. intros x s' _. apply Hk. Qed.

(** What is known of a run of it is that run. *)
Lemma total_run {T} (m : Proc S E T) s :
  total m -> yields m s (fun x s' => m s = Ret (Ok x, s')) (fun e s' => m s = Ret (Err e, s')).
Proof. intros Hm. destruct (Hm s) as (r&s'&Hr&_). exists r, s'. split; [done|]. by destruct r. Qed.

(** Two accounts of one run, the second also of how it fails. *)
Lemma yields_both {T} (m : Proc S E T) s (Q1 Q2 : T -> S -> Prop) (F1 F2 : E -> S -> Prop) :
  yields m s Q1 F1 -> yields m s Q2 F2 -> yields m s (fun x s' => Q1 x s' /\ Q2 x s') F2.
Proof. intros ([x|e]&s'&Hm&HQ1) (r&s''&Hm'&HQ2); rewrite Hm in Hm'; simplify_eq; by eexists _, _. Qed.

(** A step whose outcome is known. *)
Lemma yields_step {T U} (m : Proc S E T) (k : T -> Proc S E U) s x s' Q F :
  m s = Ret (Ok x, s') -> yields (k x) s' Q F -> yields (Proc.bind m k) s Q F.
Proof. intros Hm (r&s''&Hr&HQ). exists r, s''. unfold Proc.bind. by rewrite Hm. Qed.

Lemma yields_exec {T} (e : Exec (Result T E)) s (Q : T -> S -> Prop) (F : E -> S -> Prop) r :
  e = Ret r -> match r with Ok x => Q x s | Err e => F e s end -> yields (Proc.exec e) s Q F.
Proof. intros -> Hr. by exists r, s. Qed.

Lemma yields_for_each {A} (f : A -> Proc S E unit) (I : list A -> S -> Prop) (F : E -> S -> Prop) xs s :
  I [] s ->
  (forall pre x post s, xs = pre ++ x :: post -> I pre s -> yields (f x) s (fun _ => I (pre ++ [x])) F) ->
  yields (Proc.for_each xs f) s (fun _ => I xs) F.
Proof.
  intros H0 Hstep.
  assert (Hgen : forall post pre s, xs = pre ++ post -> I pre s ->
    yields (Proc.for_each post f) s (fun _ => I xs) F).
  { induction post as [|x post IH]; intros pre s' Hxs HI.
    - rewrite app_nil_r in Hxs. subst. by apply yields_ret.
    - cbn [Proc.for_each]. eapply yields_bind; [by eapply Hstep|]. intros [] s'' HI'.
      apply (IH (pre ++ [x])); [by rewrite Hxs, <-(assoc_L (++))|done]. }
  by apply (Hgen xs []).
Qed.
End procedures.
#[export] Hint Resolve total_ret total_fail total_lift total_bind : total.

(** Case analysis down to calls that are known not to panic. *)
Ltac solve_total :=
  repeat (cbn beta zeta; match goal with
  | |- total (Proc.bind _ _) => apply total_bind; [|intros ?]
  | |- total (match ?x with _ => _ end) => destruct x
  | |- total _ => solve [auto with total nocore]
  end).

(** Procedures up to what they do. *)
Definition peq {S E T} (m m' : Proc S E T) : Prop := forall s, m s = m' s.

#[global] Instance peq_equiv S E T : Equivalence (@peq S E T).
Proof. split; [done|by intros m m' Hm s|]. intros m1 m2 m3 H12 H23 s. by rewrite H12. Qed.

#[global] Instance bind_proper S E T U :
  Proper (peq ==> pointwise_relation T peq ==> peq) (@Proc.bind S E T U).
Proof.
  intros m m' Hm k k' Hk s. unfold Proc.bind. rewrite Hm. destruct (m' s) as [[[x|e] s']|]; [apply Hk|done|done].
Qed.

Section procedure_equations.
Context {S E : Type}.

Lemma bind_assoc {T U V} (m : Proc S E T) (k : T -> Proc S E U) (k' : U -> Proc S E V) :
  peq (Proc.bind (Proc.bind m k) k') (Proc.bind m (fun x => Proc.bind (k x) k')).
Proof. intros s. unfold Proc.bind. destruct (m s) as [[[x|e] s']|]; done. Qed.

Lemma bind_done (m : Proc S E unit) : peq (Proc.bind m (fun _ => Proc.ret tt)) m.
Proof. intros s. unfold Proc.bind, Proc.ret. by destruct (m s) as [[[[]|e] s']|]. Qed.

Lemma for_each_app {A} (xs ys : list A) (f : A -> Proc S E unit) :
  peq (Proc.for_each (xs ++ ys) f) (Proc.bind (Proc.for_each xs f) (fun _ => Proc.for_each ys f)).
Proof.
  induction xs as [|x xs IH]; [done|]. cbn [app Proc.for_each]. rewrite bind_assoc.
  apply bind_proper; [done|]. intros _. apply IH.
Qed.

Lemma for_each_ext {A} (xs : list A) (f f' : A -> Proc S E unit) :
  (forall x, x ∈ xs -> peq (f x) (f' x)) -> peq (Proc.for_each xs f) (Proc.for_each xs f').
Proof.
  induction xs as [|x xs IH]; [done|]. intros Hf. cbn [Proc.for_each].
  apply bind_proper; [by apply Hf, list_elem_of_here|]. intros _.
  apply IH. intros y Hy. by apply Hf, list_elem_of_further.
Qed.

Lemma for_each_fmap {A B} (h : A -> B) (xs : list A) (f : B -> Proc S E unit) :
  peq (Proc.for_each (h <$> xs) f) (Proc.for_each xs (fun x => f (h x))).
Proof.
  induction xs as [|x xs IH]; [done|]. cbn. apply bind_proper; [done|]. by intros _.
Qed.

Lemma for_each_mbind {A B} (h : A -> list B) (xs : list A) (f : B -> Proc S E unit) :
  peq (Proc.for_each (xs ≫= h) f) (Proc.for_each xs (fun x => Proc.for_each (h x) f)).
Proof.
  induction xs as [|x xs IH]; [done|]. cbn [mbind list_bind Proc.for_each]. rewrite for_each_app.
  apply bind_proper; [done|]. by intros _.
Qed.
End procedure_equations.

(** An early return of an error. *)
Lemma guard_Ok {A E} (P : Prop) `{Decision P} (e : E) (k : Exec (Result A E)) y :
  (if decide P then Ret (Err e) else k) = Ret (Ok y) <-> ~ P /\ k = Ret (Ok y).
Proof. case_decide; naive_solver. Qed.

Lemma guard_iff {A E} (P Q : Prop) `{Decision P} (e : E) (k : Exec (Result A E)) y :
  (~ P <-> Q) -> (if decide P then Ret (Err e) else k) = Ret (Ok y) <-> Q /\ k = Ret (Ok y).
Proof. intros HPQ. rewrite guard_Ok. by rewrite HPQ. Qed.

Lemma reject_Ok {A E} (b : bool) (e : E) (k : Exec (Result A E)) y :
  (if negb b then Ret (Err e) else k) = Ret (Ok y) <-> b = true /\ k = Ret (Ok y).
Proof. destruct b; naive_solver. Qed.

Lemma guard_returns {A E} (P : Prop) `{Decision P} (e : E) (k : Exec (Result A E)) :
  (~ P -> k <> Panic) -> (if decide P then Ret (Err e) else k) <> Panic.
Proof. case_decide; auto. Qed.

Lemma div_ceil_spec a b : b <> 0%N -> (a <= div_ceil a b * b < a + b)%N.
Proof.
  intros Hb. unfold div_ceil. pose proof (N.div_mod a b Hb). pose proof (N.mod_lt a b Hb).
  case_decide; nia.
Qed.

(** Writing the first position past a prefix extends the prefix. *)
Lemma take_insert_end {A} (l : list A) n x :
  (n < length l)%nat -> take (S n) (<[n := x]> l) = take n l ++ [x].
Proof.
  intros Hn. erewrite take_S_r by (by apply list_lookup_insert_eq).
  by rewrite take_insert_ge by lia.
Qed.

Section padded.
Context {A : Type} (n : nat).
Implicit Types (xs : list A) (x : A).

Lemma padded_length xs : (length xs <= n)%nat -> length (padded n xs) = n.
Proof. intros. unfold padded. rewrite length_app, length_fmap, length_replicate. lia. Qed.

Lemma padded_lookup xs i x : xs !! i = Some x -> padded n xs !! i = Some (Some x).
Proof.
  intros Hi. unfold padded. rewrite lookup_app_l, list_lookup_fmap, Hi; [done|].
  rewrite length_fmap. by eapply lookup_lt_Some.
Qed.

Lemma padded_take xs : take (length xs) (padded n xs) = Some <$> xs.
Proof. unfold padded. by rewrite take_app_length' by (by rewrite length_fmap). Qed.

Lemma padded_insert xs x :
  (length xs < n)%nat -> <[length xs := Some x]> (padded n xs) = padded n (xs ++ [x]).
Proof.
  intros Hlt. unfold padded.
  rewrite insert_app_r_alt by (by rewrite length_fmap).
  rewrite length_fmap, Nat.sub_diag, fmap_app, length_app; simpl.
  replace (n - length xs) with (S (n - (length xs + 1))) by lia.
  by rewrite <-(assoc_L (++)).
Qed.

Lemma padded_store xs x :
  (length xs < n)%nat -> store (padded n xs) (length xs) (Some x) = Ret (padded n (xs ++ [x])).
Proof. intros. rewrite store_Ret, padded_insert by (rewrite ?padded_length; lia). done. Qed.

Lemma padded_omap xs : omap id (padded n xs) = xs.
Proof.
  unfold padded. rewrite omap_app.
  replace (omap id (replicate (n - length xs) (@None A))) with (@nil A)
    by (induction (n - length xs); done).
  rewrite app_nil_r. induction xs as [|x xs IH]; csimpl; [done|]. by rewrite IH.
Qed.
End padded.

#[export] Hint Resolve list_find_lookup Forall_insert_slot : nagi.

(** ** Byte strings *)

Section le_bytes.
Open Scope N_scope.

Lemma to_le_bytes_length k n : length (to_le_bytes k n) = k.
Proof. revert n. induction k as [|k IH]; intros n; simpl; [done|]. by rewrite IH. Qed.

Lemma to_le_bytes_are_bytes k n : Forall is_byte (to_le_bytes k n).
Proof.
  revert n. induction k as [|k IH]; intros n; simpl; constructor; [|done].
  by apply N.mod_lt.
Qed.

Lemma from_to_le_bytes k n : n < 256 ^ N.of_nat k -> from_le_bytes (to_le_bytes k n) = n.
Proof.
  revert n. induction k as [|k IH]; intros n Hn; cbn [to_le_bytes from_le_bytes].
  - change (256 ^ N.of_nat 0) with 1 in Hn. lia.
  - rewrite IH; [rewrite N.add_comm; symmetry; apply N.Div0.div_mod|].
    rewrite Nat2N.inj_succ, N.pow_succ_r' in Hn. by apply N.Div0.div_lt_upper_bound.
Qed.

Lemma to_from_le_bytes bytes :
  Forall is_byte bytes -> to_le_bytes (length bytes) (from_le_bytes bytes) = bytes.
Proof.
  induction 1 as [|b bytes Hb _ IH]; [done|]. cbn [length to_le_bytes from_le_bytes].
  rewrite (N.mul_comm 256), N.Div0.mod_add, N.mod_small, N.div_add, N.div_small by done.
  by rewrite N.add_0_l, IH.
Qed.

Lemma from_le_bytes_bound bytes :
  Forall is_byte bytes -> from_le_bytes bytes < 256 ^ N.of_nat (length bytes).
Proof.
  induction 1 as [|b bytes Hb _ IH]; [done|]. cbn [length from_le_bytes].
  rewrite Nat2N.inj_succ, N.pow_succ_r'. unfold is_byte in Hb. lia.
Qed.

Lemma from_le_bytes_inj bs1 bs2 :
  Forall is_byte bs1 -> Forall is_byte bs2 -> length bs1 = length bs2 ->
  from_le_bytes bs1 = from_le_bytes bs2 -> bs1 = bs2.
Proof.
  intros H1 H2 Hl He. rewrite <-(to_from_le_bytes bs1), <-(to_from_le_bytes bs2) by done.
  by rewrite Hl, He.
Qed.
End le_bytes.

(** ** Bit masks *)

Lemma land_ones_lt (a n : N) : (N.land a (N.ones n) < 2 ^ n)%N.
Proof. rewrite N.land_ones. apply N.mod_lt. apply N.pow_nonzero. lia. Qed.

(** [a] is contained in [b] as a bit set. *)
Definition bits_subset (a b : N) : Prop := N.land b a = a.

Lemma bits_subset_spec a b :
  bits_subset a b <-> forall i, N.testbit a i = true -> N.testbit b i = true.
Proof.
  unfold bits_subset. split.
  - intros H i Hi. rewrite <-H, N.land_spec in Hi. by apply andb_prop in Hi as [? ?].
  - intros H. apply N.bits_inj. intros i. rewrite N.land_spec.
    destruct (N.testbit a i) eqn:E; [by rewrite (H _ E)|by rewrite andb_false_r].
Qed.

Lemma bits_subset_refl a : bits_subset a a.
Proof. apply N.land_diag. Qed.

Lemma bits_subset_trans a b c : bits_subset a b -> bits_subset b c -> bits_subset a c.
Proof. rewrite !bits_subset_spec. auto. Qed.

#[export] Instance bits_subset_preorder : PreOrder bits_subset.
Proof.
  split; [exact bits_subset_refl|].
  intros a b c. apply bits_subset_trans.
Qed.

#[export] Hint Resolve bits_subset_refl bits_subset_trans : nagi.

(** Buffers written in place. *)
Lemma put_length start (source bytes : list N) :
  (start + length source <= length bytes)%nat -> length (put start source bytes) = length bytes.
Proof. intros Hl. unfold put. rewrite !length_app, length_take, length_drop. lia. Qed.

Lemma put_bytes start source bytes :
  Forall is_byte source -> Forall is_byte bytes -> Forall is_byte (put start source bytes).
Proof.
  intros Hs Hb. unfold put. apply Forall_app. split; [by apply Forall_take|].
  apply Forall_app. split; [done|by apply Forall_drop].
Qed.

Lemma put_0 source bytes : put 0 source bytes = source ++ drop (length source) bytes.
Proof. done. Qed.

Lemma sub_bytes_put_before start source bytes offset n :
  (offset + n <= start)%nat -> (start <= length bytes)%nat ->
  sub_bytes (put start source bytes) offset n = sub_bytes bytes offset n.
Proof.
  intros Ho Hs. unfold sub_bytes, put. rewrite drop_app_le by (rewrite length_take; lia).
  rewrite take_app_le by (rewrite length_drop, length_take; lia).
  by rewrite skipn_firstn_comm, take_take, Nat.min_l by lia.
Qed.

Lemma sub_bytes_put start source bytes :
  (start <= length bytes)%nat -> sub_bytes (put start source bytes) start (length source) = source.
Proof.
  intros Hs. unfold sub_bytes, put. rewrite drop_app_length' by (rewrite length_take; lia).
  by apply take_app_length.
Qed.

Lemma put_app k source (pre bytes : list N) :
  put (length pre + k) source (pre ++ bytes) = pre ++ put k source bytes.
Proof.
  unfold put. rewrite take_app_add, <-(assoc_L (++)), <-Nat.add_assoc, drop_app_add. done.
Qed.

Lemma slice_sub (bytes : list N) start n :
  (start + n <= length bytes)%nat -> slice bytes start n = Ret (sub_bytes bytes start n).
Proof. intros Hl. unfold slice. by rewrite decide_True. Qed.

Lemma index_byte (bytes : list N) i : (i < length bytes)%nat -> index bytes i = Ret (byte_at bytes i).
Proof.
  intros Hi. apply index_Ret. unfold byte_at. rewrite nth_lookup.
  by destruct (lookup_lt_is_Some_2 bytes i Hi) as [b ->].
Qed.

Lemma sub_bytes_sub bytes a n b m :
  (b + m <= n)%nat -> sub_bytes (sub_bytes bytes a n) b m = sub_bytes bytes (a + b) m.
Proof.
  intros Hb. unfold sub_bytes. rewrite skipn_firstn_comm, take_take, drop_drop. f_equal. lia.
Qed.

Lemma byte_at_sub bytes a n b : (b < n)%nat -> byte_at (sub_bytes bytes a n) b = byte_at bytes (a + b).
Proof.
  intros Hb. unfold byte_at, sub_bytes. rewrite !nth_lookup, lookup_take_lt by done. by rewrite lookup_drop.
Qed.

Lemma sub_bytes_app bytes a n m :
  sub_bytes bytes a (n + m) = sub_bytes bytes a n ++ sub_bytes bytes (a + n) m.
Proof.
  unfold sub_bytes. rewrite <-drop_drop. generalize (drop a bytes). clear. intros l.
  rewrite <-(take_drop n (take (n + m) l)), take_take, skipn_firstn_comm. do 2 f_equal; lia.
Qed.

Lemma sub_bytes_put_after start source bytes offset n :
  (start + length source <= offset)%nat -> (start <= length bytes)%nat ->
  sub_bytes (put start source bytes) offset n = sub_bytes bytes offset n.
Proof.
  intros Ho Hs. unfold sub_bytes, put. rewrite drop_app_ge by (rewrite length_take; lia).
  rewrite length_take_le, drop_app_ge, drop_drop by lia. do 2 f_equal. lia.
Qed.

Lemma copy_into_put (bytes : list N) start source :
  (start + length source <= length bytes)%nat -> copy_into bytes start source = Ret (put start source bytes).
Proof. intros Hl. unfold copy_into. by rewrite decide_True. Qed.

(** Bytes that are in memory one by one. *)
Lemma memory_bytes_eq (memory : N -> N) (start : N) (bytes : list N) :
  (forall i, (i < length bytes)%nat -> memory (start + N.of_nat i)%N = byte_at bytes i) ->
  memory_bytes memory start (length bytes) = bytes.
Proof.
  intros Hm. unfold memory_bytes. apply list_eq. intros i. rewrite list_lookup_fmap.
  destruct (decide (i < length bytes)%nat) as [Hi|Hi].
  - rewrite lookup_seq_lt by done. cbn. rewrite Hm by done. unfold byte_at. rewrite nth_lookup.
    by destruct (lookup_lt_is_Some_2 bytes i Hi) as [x ->].
  - rewrite lookup_seq_ge, lookup_ge_None_2 by lia. done.
Qed.

Lemma memory_bytes_length memory address n : length (memory_bytes memory address n) = n.
Proof. unfold memory_bytes. by rewrite length_fmap, length_seq. Qed.

Lemma memory_bytes_prefix memory address n m :
  (n <= m)%nat -> take n (memory_bytes memory address m) = memory_bytes memory address n.
Proof. intros Hn. unfold memory_bytes. rewrite <-fmap_take, take_seq. by rewrite Nat.min_l. Qed.

Lemma sub_memory_bytes memory address n m start k :
  (start + k <= n)%nat -> (n <= m)%nat ->
  sub_bytes (memory_bytes memory address m) start k = sub_bytes (memory_bytes memory address n) start k.
Proof.
  intros Hk Hn. unfold sub_bytes. rewrite <-(memory_bytes_prefix memory address n m) by done.
  rewrite skipn_firstn_comm, take_take. f_equal. lia.
Qed.

(** Blocks of the same length, one after the other. *)
Lemma blocks_length {A} n (es : list (list A)) :
  Forall (fun e => length e = n) es -> length (mjoin es) = (n * length es)%nat.
Proof.
  induction 1 as [|e es He _ IH]; [cbn; lia|]. change (mjoin (e :: es)) with (e ++ mjoin es).
  rewrite length_app, He, IH. cbn [length]. lia.
Qed.

Lemma blocks_replicate {A} n k (x : A) : mjoin (replicate k (replicate n x)) = replicate (n * k) x.
Proof.
  induction k as [|k IH]; [by rewrite Nat.mul_0_r|].
  change (mjoin (replicate (S k) (replicate n x))) with (replicate n x ++ mjoin (replicate k (replicate n x))).
  rewrite IH, <-replicate_add. f_equal. lia.
Qed.
