(* ===== verification/Handles.v ===== *)
(** * Kernel objects, rights and handle tables (kernel/src/handles.rs)

    [ObjectRegistry] is the reference-counted table of kernel objects,
    [HandleTable] a process's table of capabilities.  Both are arrays of slots
    with a generation counter: an identifier names a slot and the generation
    it was issued for.  A mutating method returns its [Result] together with
    the state it leaves behind, on its error paths too. *)

From stdpp Require Import prelude.
From S2P Require Import Prelude.

Local Open Scope N_scope.
Local Open Scope nagi_scope.

(** ** Rights *)

Module Rights.
Record t := mk { bits : N }.

#[global] Instance eq_dec : EqDecision t.
Proof. solve_decision. Defined.

Definition READ := mk 1.
Definition WRITE := mk 2.
Definition MAP := mk 4.
Definition TRANSFER := mk 8.
Definition CONTROL := mk 16.
Definition DUPLICATE := mk 32.
Definition WAIT := mk 64.
Definition SIGNAL := mk 128.
Definition EXECUTE := mk 256.

Definition empty := mk 0.

Definition bitor (self rhs : t) : t := mk (N.lor (bits self) (bits rhs)).

(** [const KNOWN] of [from_bits]. *)
Definition KNOWN : N :=
  bits (bitor (bitor (bitor (bitor (bitor (bitor (bitor (bitor
    READ WRITE) MAP) TRANSFER) CONTROL) DUPLICATE) WAIT) SIGNAL) EXECUTE).

(** [bits & !KNOWN == 0] on 32-bit words. *)
Definition from_bits (b : N) : option t :=
  if decide (N.land b (N.lxor KNOWN U32_MAX) = 0) then Some (mk b) else None.

Definition contains (self required : t) : bool :=
  bool_decide (N.land (bits self) (bits required) = bits required).

Definition is_subset_of (self available : t) : bool := contains available self.
End Rights.

(** ** Objects *)

Module ObjectKind.
Inductive t := Process | AddressSpace | Vmo | Channel | ChannelEndpoint | Event | Timer.

#[global] Instance eq_dec : EqDecision t.
Proof. solve_decision. Defined.
End ObjectKind.

Module ObjectId.
Record t := mk { slot : N; generation : N; kind : ObjectKind.t }.

#[global] Instance eq_dec : EqDecision t.
Proof. solve_decision. Defined.
End ObjectId.

Module HandleError.
Inductive t :=
| Invalid | Stale | Closed | WrongType | RightsMissing | TableFull | ReceiverFull
| GenerationExhausted | ObjectTableFull | ObjectReferenceOverflow.

#[global] Instance eq_dec : EqDecision t.
Proof. solve_decision. Defined.
End HandleError.

Module ObjectSlot.
Record t := mk {
  generation : N;
  kind : option ObjectKind.t;
  references : N;
  retired : bool
}.

Definition EMPTY := mk 1 None 0 false.
End ObjectSlot.

(** ** The object registry *)

Module ObjectRegistry.
Record t := mk { slots : list ObjectSlot.t }.

Definition new (n : nat) : t := mk (replicate n ObjectSlot.EMPTY).

Definition free_slot (s : ObjectSlot.t) : Prop :=
  ObjectSlot.kind s = None /\ ObjectSlot.retired s = false.

#[global] Instance free_slot_dec s : Decision (free_slot s).
Proof. unfold free_slot. apply _. Defined.

Definition create (self : t) (kind : ObjectKind.t) : Result ObjectId.t HandleError.t * t :=
  match list_find free_slot (slots self) with
  | None => (Err HandleError.ObjectTableFull, self)
  | Some (index, slot) =>
      let g := ObjectSlot.generation slot in
      (Ok (ObjectId.mk (as_u32 (N.of_nat index)) g kind),
       mk (<[index := ObjectSlot.mk g (Some kind) 1 (ObjectSlot.retired slot)]> (slots self)))
  end.

(** [object_slot] and [object_slot_mut]: the slot and its index. *)
Definition object_slot (self : t) (object : ObjectId.t)
  : Result (nat * ObjectSlot.t) HandleError.t :=
  if decide (ObjectId.generation object = 0) then Err HandleError.Invalid
  else
    let index := N.to_nat (ObjectId.slot object) in
    match slots self !! index with
    | None => Err HandleError.Invalid
    | Some slot =>
        if decide (ObjectSlot.generation slot <> ObjectId.generation object
                   \/ ObjectSlot.kind slot <> Some (ObjectId.kind object))
        then Err HandleError.Stale
        else Ok (index, slot)
    end.

Definition retain (self : t) (object : ObjectId.t) : Result unit HandleError.t * t :=
  match object_slot self object with
  | Err e => (Err e, self)
  | Ok (i, slot) =>
      if decide (ObjectSlot.references slot = U32_MAX)
      then (Err HandleError.ObjectReferenceOverflow, self)
      else
        (Ok tt,
         mk (<[i := ObjectSlot.mk (ObjectSlot.generation slot) (ObjectSlot.kind slot)
                      (ObjectSlot.references slot + 1) (ObjectSlot.retired slot)]>
             (slots self)))
  end.

(** The slot a release leaves behind. *)
Definition released (slot : ObjectSlot.t) : ObjectSlot.t :=
  let references := ObjectSlot.references slot - 1 in
  if decide (references = 0) then
    if decide (ObjectSlot.generation slot = U32_MAX)
    then ObjectSlot.mk (ObjectSlot.generation slot) None references true
    else ObjectSlot.mk (ObjectSlot.generation slot + 1) None references
           (ObjectSlot.retired slot)
  else ObjectSlot.mk (ObjectSlot.generation slot) (ObjectSlot.kind slot) references
         (ObjectSlot.retired slot).

Definition release (self : t) (object : ObjectId.t) : Result unit HandleError.t * t :=
  match object_slot self object with
  | Err e => (Err e, self)
  | Ok (i, slot) =>
      if decide (ObjectSlot.references slot = 0) then (Err HandleError.Stale, self)
      else (Ok tt, mk (<[i := released slot]> (slots self)))
  end.

Definition validate (self : t) (object : ObjectId.t) (expected : ObjectKind.t)
  : Result unit HandleError.t :=
  if decide (ObjectId.kind object <> expected) then Err HandleError.WrongType
  else
    match slots self !! N.to_nat (ObjectId.slot object) with
    | None => Err HandleError.Invalid
    | Some slot =>
        if decide (ObjectSlot.generation slot <> ObjectId.generation object
                   \/ ObjectSlot.kind slot <> Some expected)
        then Err HandleError.Stale
        else Ok tt
    end.

Definition reference_count (self : t) (object : ObjectId.t) : Result N HandleError.t :=
  let? (_, slot) := object_slot self object in
  Ok (ObjectSlot.references slot).

(** Well-formed slots: a live slot has a positive count, a free one none, and
    only a slot whose last generation was used up is retired. *)
Definition slot_wf (s : ObjectSlot.t) : Prop :=
  1 <= ObjectSlot.generation s <= U32_MAX
  /\ ObjectSlot.references s <= U32_MAX
  /\ (ObjectSlot.kind s = None <-> ObjectSlot.references s = 0)
  /\ (ObjectSlot.retired s = true ->
      ObjectSlot.kind s = None /\ ObjectSlot.generation s = U32_MAX).

Definition wf (self : t) : Prop :=
  Forall slot_wf (slots self) /\ N.of_nat (length (slots self)) <= U32_MAX + 1.

(** The number of references the registry counts for an object; 0 for an
    identifier that is not live. *)
Definition refs (self : t) (object : ObjectId.t) : N :=
  match object_slot self object with
  | Ok (_, slot) => ObjectSlot.references slot
  | Err _ => 0
  end.

(** [expired r o]: the slot has moved past the generation of [o]. *)
Definition expired (r : t) (o : ObjectId.t) : Prop :=
  exists s, slots r !! N.to_nat (ObjectId.slot o) = Some s
    /\ (ObjectId.generation o < ObjectSlot.generation s
        \/ ObjectId.generation o = ObjectSlot.generation s /\ ObjectSlot.retired s = true).

(** The operations, as a language of requests. *)
Inductive op :=
| Create (kind : ObjectKind.t)
| Retain (object : ObjectId.t)
| Release (object : ObjectId.t).

Definition run_op (self : t) (o : op) : t :=
  match o with
  | Create k => (create self k).2
  | Retain x => (retain self x).2
  | Release x => (release self x).2
  end.

Definition run_ops : t -> list op -> t := foldl run_op.
End ObjectRegistry.

(** ** Handles *)

Module Handle.
Record t := mk { raw : N }.

#[global] Instance eq_dec : EqDecision t.
Proof. solve_decision. Defined.

Definition SLOT_MASK : N := U32_MAX.

Definition new (slot : nat) (generation : N) : t :=
  mk (N.lor (N.shiftl generation 32) (N.of_nat slot)).

Definition from_raw (r : N) : t := mk r.

Definition slot (self : t) : N := as_u32 (N.land (raw self) SLOT_MASK).

Definition generation (self : t) : N := as_u32 (N.shiftr (raw self) 32).
End Handle.

Module Capability.
Record t := mk { object : ObjectId.t; rights : Rights.t }.

#[global] Instance eq_dec : EqDecision t.
Proof. solve_decision. Defined.
End Capability.

Module TransferToken.
Record t := mk { capability : Capability.t }.

#[global] Instance eq_dec : EqDecision t.
Proof. solve_decision. Defined.
End TransferToken.

Module HandleSlot.
Record t := mk { generation : N; capability : option Capability.t }.

Definition EMPTY := mk 1 None.
End HandleSlot.

(** ** Handle tables *)

Module HandleTable.
Record t := mk { slots : list HandleSlot.t }.

Definition new (n : nat) : t := mk (replicate n HandleSlot.EMPTY).

(** A slot a capability can be installed in. *)
Definition installable (s : HandleSlot.t) : Prop :=
  HandleSlot.capability s = None /\ HandleSlot.generation s <> U32_MAX.

#[global] Instance installable_dec s : Decision (installable s).
Proof. unfold installable. apply _. Defined.

Definition install_capability (self : t) (object : ObjectId.t) (rights : Rights.t)
  : Result Handle.t HandleError.t * t :=
  match list_find installable (slots self) with
  | None =>
      (if decide (Exists (fun s => HandleSlot.capability s = None) (slots self))
       then Err HandleError.GenerationExhausted else Err HandleError.TableFull, self)
  | Some (index, slot) =>
      (Ok (Handle.new index (HandleSlot.generation slot)),
       mk (<[index := HandleSlot.mk (HandleSlot.generation slot)
                        (Some (Capability.mk object rights))]> (slots self)))
  end.

(** [slot] and [slot_mut]: the slot and its index. *)
Definition slot (self : t) (handle : Handle.t) : Result (nat * HandleSlot.t) HandleError.t :=
  let index := N.to_nat (Handle.slot handle) in
  match slots self !! index with
  | None => Err HandleError.Invalid
  | Some s =>
      if decide (Handle.generation handle = 0
                 \/ HandleSlot.generation s <> Handle.generation handle)
      then Err HandleError.Stale
      else Ok (index, s)
  end.

Definition entry (self : t) (registry : ObjectRegistry.t) (handle : Handle.t)
  : Result Capability.t HandleError.t :=
  let? (_, s) := slot self handle in
  let? capability := ok_or (HandleSlot.capability s) HandleError.Closed in
  let? _ := ObjectRegistry.validate registry (Capability.object capability)
              (ObjectId.kind (Capability.object capability)) in
  Ok capability.

Definition insert (self : t) (registry : ObjectRegistry.t) (object : ObjectId.t)
  (rights : Rights.t) : Result Handle.t HandleError.t * t * ObjectRegistry.t :=
  match ObjectRegistry.retain registry object with
  | (Err e, registry) => (Err e, self, registry)
  | (Ok _, registry) =>
      match install_capability self object rights with
      | (Ok handle, self) => (Ok handle, self, registry)
      | (Err error, self) =>
          (Err error, self, (ObjectRegistry.release registry object).2)
      end
  end.

Definition resolve (self : t) (registry : ObjectRegistry.t) (handle : Handle.t)
  : Result ObjectId.t HandleError.t :=
  let? capability := entry self registry handle in
  Ok (Capability.object capability).

Definition rights (self : t) (registry : ObjectRegistry.t) (handle : Handle.t)
  : Result Rights.t HandleError.t :=
  let? capability := entry self registry handle in
  Ok (Capability.rights capability).

(** The visitor is called on the object of every live capability, in slot
    order; [S] is the state it mutates. *)
Definition visit_objects {S} (self : t) (visitor : S -> ObjectId.t -> S) (s0 : S) : S :=
  foldl (fun s slot =>
    match HandleSlot.capability slot with
    | Some capability => visitor s (Capability.object capability)
    | None => s
    end) s0 (slots self).

Definition require (self : t) (registry : ObjectRegistry.t) (handle : Handle.t)
  (expected : ObjectKind.t) (required : Rights.t) : Result ObjectId.t HandleError.t :=
  let? e := entry self registry handle in
  if decide (ObjectId.kind (Capability.object e) <> expected)
  then Err HandleError.WrongType
  else if negb (Rights.contains (Capability.rights e) required)
  then Err HandleError.RightsMissing
  else Ok (Capability.object e).

Definition close (self : t) (registry : ObjectRegistry.t) (handle : Handle.t)
  : Result unit HandleError.t * t * ObjectRegistry.t :=
  match slot self handle with
  | Err e => (Err e, self, registry)
  | Ok (i, s) =>
      match HandleSlot.capability s with
      | None => (Err HandleError.Closed, self, registry)
      | Some capability =>
          if decide (HandleSlot.generation s = U32_MAX)
          then (Err HandleError.GenerationExhausted, self, registry)
          else
            match ObjectRegistry.release registry (Capability.object capability) with
            | (Err e, registry) => (Err e, self, registry)
            | (Ok _, registry) =>
                (Ok tt, mk (<[i := HandleSlot.mk (HandleSlot.generation s + 1) None]>
                              (slots self)), registry)
            end
      end
  end.

Fixpoint close_all_slots (ss : list HandleSlot.t) (registry : ObjectRegistry.t)
  : list HandleSlot.t * ObjectRegistry.t :=
  match ss with
  | [] => ([], registry)
  | s :: ss =>
      match HandleSlot.capability s with
      | None =>
          let '(ss', registry) := close_all_slots ss registry in (s :: ss', registry)
      | Some capability =>
          let registry :=
            (ObjectRegistry.release registry (Capability.object capability)).2 in
          let s' := HandleSlot.mk (u32_saturating_add (HandleSlot.generation s) 1) None in
          let '(ss', registry) := close_all_slots ss registry in (s' :: ss', registry)
      end
  end.

Definition close_all (self : t) (registry : ObjectRegistry.t) : t * ObjectRegistry.t :=
  let '(ss, registry) := close_all_slots (slots self) registry in (mk ss, registry).

Definition check_move (self : t) (registry : ObjectRegistry.t) (handle : Handle.t)
  (requested : Rights.t) : Result unit HandleError.t :=
  let? capability := entry self registry handle in
  if negb (Rights.contains (Capability.rights capability) Rights.TRANSFER)
     || negb (Rights.is_subset_of requested (Capability.rights capability))
  then Err HandleError.RightsMissing
  else
    let? (_, s) := slot self handle in
    if decide (HandleSlot.generation s = U32_MAX)
    then Err HandleError.GenerationExhausted
    else Ok tt.

Definition begin_move (self : t) (registry : ObjectRegistry.t) (handle : Handle.t)
  (requested : Rights.t) : Result TransferToken.t HandleError.t * t :=
  match check_move self registry handle requested with
  | Err e => (Err e, self)
  | Ok _ =>
      match slot self handle with
      | Err e => (Err e, self)
      | Ok (i, s) =>
          match HandleSlot.capability s with
          | None => (Err HandleError.Closed, self)
          | Some capability =>
              if decide (HandleSlot.generation s = U32_MAX)
              then (Err HandleError.GenerationExhausted, self)
              else
                (Ok (TransferToken.mk
                       (Capability.mk (Capability.object capability) requested)),
                 mk (<[i := HandleSlot.mk (HandleSlot.generation s + 1) None]> (slots self)))
          end
      end
  end.

(** [token : &mut Option<TransferToken>] is threaded through. *)
Definition install_token (self : t) (registry : ObjectRegistry.t)
  (token : option TransferToken.t)
  : Result Handle.t HandleError.t * t * option TransferToken.t :=
  match token with
  | None => (Err HandleError.Stale, self, token)
  | Some tok =>
      let capability := TransferToken.capability tok in
      match ObjectRegistry.validate registry (Capability.object capability)
              (ObjectId.kind (Capability.object capability)) with
      | Err e => (Err e, self, token)
      | Ok _ =>
          match install_capability self (Capability.object capability)
                  (Capability.rights capability) with
          | (Err e, self) => (Err e, self, token)
          | (Ok handle, self) => (Ok handle, self, None)
          end
      end
  end.

Definition rollback_install (self : t) (handle : Handle.t) : option TransferToken.t * t :=
  match slot self handle with
  | Err _ => (None, self)
  | Ok (i, s) =>
      match HandleSlot.capability s with
      | None => (None, self)
      | Some capability =>
          if decide (HandleSlot.generation s = U32_MAX) then (None, self)
          else
            (Some (TransferToken.mk capability),
             mk (<[i := HandleSlot.mk (HandleSlot.generation s + 1) None]> (slots self)))
      end
  end.

Definition has_capacity (self : t) (additional : nat) : bool :=
  bool_decide (additional <= count_of installable (slots self))%nat.

Definition slot_wf (s : HandleSlot.t) : Prop :=
  1 <= HandleSlot.generation s <= U32_MAX
  /\ (HandleSlot.generation s = U32_MAX -> HandleSlot.capability s = None).

Definition wf (self : t) : Prop :=
  Forall slot_wf (slots self) /\ N.of_nat (length (slots self)) <= U32_MAX + 1.

(** How many capabilities of the table name [object]. *)
Definition slot_holds (object : ObjectId.t) (s : HandleSlot.t) : Prop :=
  Capability.object <$> HandleSlot.capability s = Some object.

#[global] Instance slot_holds_dec object s : Decision (slot_holds object s).
Proof. unfold slot_holds. apply _. Defined.

Definition holds (self : t) (object : ObjectId.t) : N :=
  N.of_nat (count_of (slot_holds object) (slots self)).

(** The slot [close_all] leaves behind. *)
Definition closed_slot (s : HandleSlot.t) : HandleSlot.t :=
  match HandleSlot.capability s with
  | None => s
  | Some _ => HandleSlot.mk (u32_saturating_add (HandleSlot.generation s) 1) None
  end.

(** [spent self h]: the slot of [h] has moved past the generation of [h], or
    has used up its last generation. *)
Definition spent (self : t) (h : Handle.t) : Prop :=
  exists s, slots self !! N.to_nat (Handle.slot h) = Some s
    /\ (Handle.generation h < HandleSlot.generation s \/ U32_MAX <= HandleSlot.generation s).

(** The ways a handle that named a capability leaves the table. *)
Definition invalidates (self : t) (h : Handle.t) (self' : t) : Prop :=
  (exists r r', close self r h = (Ok tt, self', r'))
  \/ (exists r requested token, begin_move self r h requested = (Ok token, self'))
  \/ (exists token, rollback_install self h = (Some token, self'))
  \/ (exists r c, entry self r h = Ok c /\ self' = (close_all self r).1).

(** The operations on one table, each at the registry of its own moment:
    between two of them the rest of the kernel may change the registry. *)
Inductive op :=
| Insert (registry : ObjectRegistry.t) (object : ObjectId.t) (rights : Rights.t)
| Close (registry : ObjectRegistry.t) (handle : Handle.t)
| CloseAll (registry : ObjectRegistry.t)
| BeginMove (registry : ObjectRegistry.t) (handle : Handle.t) (requested : Rights.t)
| InstallToken (registry : ObjectRegistry.t) (token : option TransferToken.t)
| RollbackInstall (handle : Handle.t).

Definition run_op (self : t) (x : op) : t :=
  match x with
  | Insert r o rt => (insert self r o rt).1.2
  | Close r h => (close self r h).1.2
  | CloseAll r => (close_all self r).1
  | BeginMove r h rt => (begin_move self r h rt).2
  | InstallToken r tok => (install_token self r tok).1.2
  | RollbackInstall h => (rollback_install self h).2
  end.

Definition run_ops : t -> list op -> t := foldl run_op.
End HandleTable.

(** ** Processes *)

Module ProcessState.
Inductive t := Running | Exited.
End ProcessState.

Module Process.
Record t := mk {
  id : N;
  address_space : ObjectId.t;
  handles : HandleTable.t;
  state : ProcessState.t
}.

Definition new (n : nat) (id : N) (address_space : ObjectId.t) : t :=
  mk id address_space (HandleTable.new n) ProcessState.Running.

Definition set_handles (self : t) (h : HandleTable.t) : t :=
  mk (id self) (address_space self) h (state self).
End Process.

(** 1 when the two identifiers are the same, as a summand. *)
Definition same (a b : ObjectId.t) : N := if decide (a = b) then 1 else 0.

(** ** Capability flow

    One table with the registry and the tokens in flight: the part of the
    system a sequence of table operations can change. *)

Module Flow.
Record t := mk {
  table : HandleTable.t;
  registry : ObjectRegistry.t;
  escrow : list TransferToken.t
}.

Inductive op :=
| Insert (object : ObjectId.t) (rights : Rights.t)
| Close (handle : Handle.t)
| CloseAll
| BeginMove (handle : Handle.t) (requested : Rights.t)
| InstallToken (index : nat)
| RollbackInstall (handle : Handle.t).

Definition run_op (self : t) (x : op) : t :=
  match x with
  | Insert o rt =>
      let '(_, table, registry) := HandleTable.insert (table self) (registry self) o rt in
      mk table registry (escrow self)
  | Close h =>
      let '(_, table, registry) := HandleTable.close (table self) (registry self) h in
      mk table registry (escrow self)
  | CloseAll =>
      let '(table, registry) := HandleTable.close_all (table self) (registry self) in
      mk table registry (escrow self)
  | BeginMove h rt =>
      match HandleTable.begin_move (table self) (registry self) h rt with
      | (Ok token, table) => mk table (registry self) (token :: escrow self)
      | (Err _, table) => mk table (registry self) (escrow self)
      end
  | InstallToken k =>
      match escrow self !! k with
      | None => self
      | Some token =>
          match HandleTable.install_token (table self) (registry self) (Some token) with
          | (_, table, None) => mk table (registry self) (delete k (escrow self))
          | (_, table, Some _) => mk table (registry self) (escrow self)
          end
      end
  | RollbackInstall h =>
      match HandleTable.rollback_install (table self) h with
      | (Some token, table) => mk table (registry self) (token :: escrow self)
      | (None, table) => mk table (registry self) (escrow self)
      end
  end.

Definition run_ops : t -> list op -> t := foldl run_op.

Definition token_object (token : TransferToken.t) : ObjectId.t :=
  Capability.object (TransferToken.capability token).

Definition escrowed (tokens : list TransferToken.t) (object : ObjectId.t) : N :=
  N.of_nat (count_of (fun token => token_object token = object) tokens).

(** Every reference the registry counts is a capability of the table, a token
    in flight, or one of the [external] references held elsewhere. *)
Definition accounted (external : ObjectId.t -> N) (self : t) : Prop :=
  HandleTable.wf (table self) /\ ObjectRegistry.wf (registry self)
  /\ forall o, ObjectRegistry.refs (registry self) o =
       HandleTable.holds (table self) o + escrowed (escrow self) o + external o.
End Flow.

(** ** Theory of the object registry *)

Section registry.
Import ObjectRegistry.
Implicit Types (r : ObjectRegistry.t) (o : ObjectId.t) (s : ObjectSlot.t).

Lemma object_slot_Ok r o i s :
  object_slot r o = Ok (i, s) <->
  ObjectId.generation o <> 0 /\ i = N.to_nat (ObjectId.slot o)
  /\ slots r !! i = Some s /\ ObjectSlot.generation s = ObjectId.generation o
  /\ ObjectSlot.kind s = Some (ObjectId.kind o).
Proof.
  unfold object_slot. split.
  - intros H. crush_match; done.
  - intros (?&->&Hs&?&?). rewrite decide_False by done. rewrite Hs.
    rewrite decide_False by naive_solver. done.
Qed.

(** Two identifiers of one slot that are both current are equal. *)
Lemma object_slot_inj r o1 o2 i s1 s2 :
  object_slot r o1 = Ok (i, s1) -> object_slot r o2 = Ok (i, s2) -> o1 = o2.
Proof.
  rewrite !object_slot_Ok. intros (?&?&?&?&?) (?&?&?&?&?).
  destruct o1, o2; simplify_eq/=. f_equal; lia.
Qed.

Lemma object_slot_insert_ne l i s o :
  i <> N.to_nat (ObjectId.slot o) ->
  object_slot (mk (<[i := s]> l)) o = object_slot (mk l) o.
Proof. intros. unfold object_slot. simpl. by rewrite list_lookup_insert_ne. Qed.

Lemma refs_insert_ne l i s o :
  i <> N.to_nat (ObjectId.slot o) -> refs (mk (<[i := s]> l)) o = refs (mk l) o.
Proof. intros. unfold refs. by rewrite object_slot_insert_ne. Qed.

(** Overwriting a slot with one of the same generation and kind changes the
    count of the one identifier it is current for; of no other identifier. *)
Lemma refs_insert_other r i s s' o o' :
  object_slot r o = Ok (i, s) -> o' <> o ->
  ObjectSlot.kind s' = None \/
    ObjectSlot.generation s' = ObjectSlot.generation s /\ ObjectSlot.kind s' = ObjectSlot.kind s ->
  refs (mk (<[i := s']> (slots r))) o' = refs r o'.
Proof.
  intros Ho Hne Hs'. destruct r as [l]; simpl in *.
  destruct (decide (i = N.to_nat (ObjectId.slot o'))) as [->|]; [|by apply refs_insert_ne].
  assert (refs (mk l) o' = 0) as ->.
  { unfold refs. destruct (object_slot _ o') as [[j u]|] eqn:E; [|done].
    destruct Hne. pose proof E as (_&->&_)%object_slot_Ok.
    by eapply object_slot_inj. }
  unfold refs. destruct (object_slot _ o') as [[j u]|] eqn:E; [|done].
  destruct Hne. apply object_slot_Ok in Ho as (?&Hi&Hl&?&?).
  apply object_slot_Ok in E as (?&->&Hu&?&?). simpl in *.
  rewrite list_lookup_insert_eq in Hu by (by eapply lookup_lt_Some).
  simplify_eq. destruct Hs' as [?|[? ?]]; [congruence|].
  destruct o, o'; simpl in *. f_equal; [lia|congruence..].
Qed.

Lemma refs_insert_same r i s s' o :
  object_slot r o = Ok (i, s) ->
  ObjectSlot.generation s' = ObjectSlot.generation s ->
  ObjectSlot.kind s' = ObjectSlot.kind s ->
  refs (mk (<[i := s']> (slots r))) o = ObjectSlot.references s'.
Proof.
  intros (?&?&?&?&?)%object_slot_Ok ??. unfold refs.
  enough (object_slot (mk (<[i := s']> (slots r))) o = Ok (i, s')) as -> by done.
  apply object_slot_Ok; simpl. split_and!; [done..| |congruence|congruence].
  apply list_lookup_insert_eq. by eapply lookup_lt_Some.
Qed.

Lemma refs_object_slot r o i s :
  object_slot r o = Ok (i, s) -> refs r o = ObjectSlot.references s.
Proof. unfold refs. by intros ->. Qed.

Lemma wf_slot r i s : wf r -> slots r !! i = Some s -> slot_wf s.
Proof. intros [H _] Hi. by eapply Forall_lookup_1. Qed.

Lemma wf_insert r i s : wf r -> slot_wf s -> wf (mk (<[i := s]> (slots r))).
Proof.
  intros [H ?] ?. split; simpl; [by apply Forall_insert_slot|by rewrite length_insert].
Qed.

Lemma registry_new_wf n : N.of_nat n <= U32_MAX + 1 -> wf (new n).
Proof.
  intros. split; simpl; [|by rewrite length_replicate].
  apply Forall_replicate. unfold slot_wf, U32_MAX; simpl. naive_solver lia.
Qed.

Lemma released_wf s :
  slot_wf s -> ObjectSlot.references s <> 0 -> slot_wf (released s).
Proof.
  unfold slot_wf, released. intros (?&?&Hk&Hr) Hne.
  assert (ObjectSlot.retired s = false) as Hret.
  { destruct (ObjectSlot.retired s); [naive_solver|done]. }
  repeat case_decide; simpl; rewrite ?Hret; split_and!; try done; try naive_solver lia.
Qed.

Lemma create_wf r k : wf r -> wf (create r k).2.
Proof.
  intros Hwf. unfold create.
  destruct (list_find _ _) as [[i s]|] eqn:E; [simpl|done].
  apply wf_insert; [done|]. apply list_find_Some in E as (Hi&[Hk Hret]&_).
  apply (wf_slot r) in Hi as (?&?&?&?); [|done].
  unfold slot_wf; simpl. rewrite Hret. unfold U32_MAX in *. naive_solver lia.
Qed.

Lemma retain_wf r o : wf r -> wf (retain r o).2.
Proof.
  intros Hwf. unfold retain. crush_match; try done.
  match goal with H : object_slot _ _ = _ |- _ => apply object_slot_Ok in H as (?&?&Hs&?&?) end.
  apply wf_insert; [done|]. apply (wf_slot r) in Hs as (?&?&?&?); [|done].
  unfold slot_wf; simpl. split_and!; try done; try lia. naive_solver lia.
Qed.

Lemma release_wf r o : wf r -> wf (release r o).2.
Proof.
  intros Hwf. unfold release. crush_match; try done.
  match goal with H : object_slot _ _ = _ |- _ => apply object_slot_Ok in H as (?&?&Hs&?&?) end.
  apply wf_insert; [done|]. apply released_wf; [by eapply wf_slot|done].
Qed.

(** The registry counts exactly the references its operations hand out. *)
Lemma refs_create r k o r' :
  wf r -> create r k = (Ok o, r') ->
  refs r o = 0 /\ refs r' o = 1 /\ (forall o', o' <> o -> refs r' o' = refs r o').
Proof.
  unfold create. intros Hwf Hc.
  destruct (list_find _ _) as [[i s]|] eqn:E; simplify_eq/=.
  apply list_find_Some in E as (Hi&[Hk Hret]&_).
  pose proof (wf_slot _ _ _ Hwf Hi) as (?&_).
  assert (as_u32 (N.of_nat i) = N.of_nat i) as ->.
  { apply N.mod_small. destruct Hwf as [_ ?]. apply lookup_lt_Some in Hi. lia. }
  set (o := ObjectId.mk _ _ _).
  assert (forall o', N.to_nat (ObjectId.slot o') = i -> refs r o' = 0) as Hfree.
  { intros o' <-. unfold refs. destruct (object_slot r o') as [[j u]|] eqn:E; [|done].
    apply object_slot_Ok in E as (?&->&?&?&?). congruence. }
  assert (forall l x, slots (mk l) !! i = Some x -> refs (mk l) o =
    if decide (ObjectSlot.generation x = ObjectSlot.generation s
               /\ ObjectSlot.kind x = Some k) then ObjectSlot.references x else 0) as Hrefs.
  { intros l x Hl. unfold refs, object_slot; simpl in *. rewrite Nat2N.id, Hl.
    repeat case_decide; undec; naive_solver lia. }
  split_and!.
  - apply Hfree; simpl. lia.
  - erewrite Hrefs by (simpl; apply list_lookup_insert_eq; by eapply lookup_lt_Some).
    by rewrite decide_True.
  - intros o' Hne. destruct (decide (i = N.to_nat (ObjectId.slot o'))) as [Heq|];
      [|by destruct r; apply refs_insert_ne].
    rewrite (Hfree o') by done. unfold refs.
    destruct (object_slot _ o') as [[j u]|] eqn:E; [|done]. destruct Hne.
    apply object_slot_Ok in E as (?&->&Hu&?&?); simpl in *. rewrite <-Heq in Hu.
    rewrite list_lookup_insert_eq in Hu by (by eapply lookup_lt_Some).
    simplify_eq/=. destruct o'; simpl in *. subst o. f_equal; [lia|congruence].
Qed.

Lemma refs_new n o : refs (new n) o = 0.
Proof.
  unfold refs. destruct (object_slot (new n) o) as [[i s]|] eqn:E; [|done].
  apply object_slot_Ok in E as (_&_&Hi&_&Hk). simpl in Hi.
  apply lookup_replicate in Hi as [-> _]. done.
Qed.

(** Creating an object adds its one reference. *)
Lemma refs_created r k o r' x :
  wf r -> create r k = (Ok o, r') ->
  refs r' x = (if decide (o = x) then 1 else 0) + refs r x.
Proof.
  intros Hwf (?&?&Ho)%refs_create; [|done].
  case_decide as Hx; [subst; lia|]. rewrite Ho by congruence. lia.
Qed.

Lemma refs_retain r o r' :
  retain r o = (Ok tt, r') ->
  0 < ObjectId.generation o /\ refs r' o = refs r o + 1
  /\ (forall o', o' <> o -> refs r' o' = refs r o').
Proof.
  unfold retain. intros Hr.
  destruct (object_slot r o) as [[i s]|] eqn:E; [case_decide|]; simplify_eq/=.
  split; [apply object_slot_Ok in E as (?&_); lia|]. split.
  - erewrite refs_insert_same by done. by erewrite refs_object_slot.
  - intros o' ?. eapply refs_insert_other; eauto.
Qed.

Lemma refs_release r o r' :
  wf r -> release r o = (Ok tt, r') ->
  refs r o = refs r' o + 1 /\ (forall o', o' <> o -> refs r' o' = refs r o').
Proof.
  unfold release. intros Hwf Hr.
  destruct (object_slot r o) as [[i s]|] eqn:E; [case_decide|]; simplify_eq/=.
  pose proof E as (Hg&Hi&Hs&Hgen&Hkind)%object_slot_Ok.
  split.
  - erewrite (refs_object_slot r) by done. unfold released.
    destruct (decide (ObjectSlot.references s - 1 = 0)).
    + enough (refs _ o = 0) as -> by lia. unfold refs, object_slot.
      rewrite decide_False by done. simpl. rewrite <-Hi.
      rewrite list_lookup_insert_eq by (by eapply lookup_lt_Some).
      rewrite decide_True; [done|right]. by case_decide.
    + erewrite refs_insert_same by done. simpl. lia.
  - intros o' ?. eapply refs_insert_other; [done..|]. unfold released.
    repeat case_decide; simpl; auto.
Qed.

Lemma release_Ok r o : 0 < refs r o -> exists r', release r o = (Ok tt, r').
Proof.
  unfold refs, release. intros. destruct (object_slot r o) as [[i s]|]; [|lia].
  rewrite decide_False by lia. eauto.
Qed.

Lemma retain_Err r o e r' : retain r o = (Err e, r') -> r' = r.
Proof. unfold retain. intros. crush_match; done. Qed.

Lemma release_Err r o e r' : release r o = (Err e, r') -> r' = r.
Proof. unfold release. intros. crush_match; done. Qed.

Lemma validate_Ok r o k :
  validate r o k = Ok tt <->
  ObjectId.kind o = k /\ exists s, slots r !! N.to_nat (ObjectId.slot o) = Some s
    /\ ObjectSlot.generation s = ObjectId.generation o /\ ObjectSlot.kind s = Some k.
Proof.
  unfold validate. split.
  - intros. crush_match; eauto.
  - intros (->&s&->&?&?). rewrite decide_False by naive_solver.
    rewrite decide_False by naive_solver. done.
Qed.

(** An identifier validates exactly when references to its object exist. *)
Lemma validate_refs r o :
  wf r -> validate r o (ObjectId.kind o) = Ok tt <-> 0 < refs r o.
Proof.
  intros Hwf. rewrite validate_Ok. split.
  - intros (_&s&Hs&Hg&Hk). pose proof (wf_slot _ _ _ Hwf Hs) as (?&_&Hiff&_).
    assert (object_slot r o = Ok (N.to_nat (ObjectId.slot o), s)) as Ho.
    { apply object_slot_Ok. split_and!; try done. lia. }
    erewrite refs_object_slot by done.
    destruct (decide (ObjectSlot.references s = 0)); [|lia]. naive_solver.
  - unfold refs. destruct (object_slot r o) as [[i s]|] eqn:E; [|lia].
    apply object_slot_Ok in E as (?&->&?&?&?). eauto.
Qed.

Lemma expired_validate r o k : wf r -> expired r o -> validate r o k <> Ok tt.
Proof.
  intros Hwf (s&Hs&Hx) (Hkd&s'&Hs'&Hg&Hk)%validate_Ok. simplify_eq.
  pose proof (wf_slot _ _ _ Hwf Hs) as (_&_&_&Hret). naive_solver lia.
Qed.

(** Every update of a slot the operations make keeps [expired]. *)
Lemma expired_insert r o i s s' :
  slots r !! i = Some s ->
  ObjectSlot.generation s <= ObjectSlot.generation s' ->
  (ObjectSlot.retired s = true -> ObjectSlot.retired s' = true) ->
  expired r o -> expired (mk (<[i := s']> (slots r))) o.
Proof.
  intros Hi Hg Hret (u&Hu&Hx). destruct (decide (i = N.to_nat (ObjectId.slot o))) as [->|].
  - simplify_eq. exists s'; simpl. rewrite list_lookup_insert_eq by (by eapply lookup_lt_Some).
    split; [done|]. destruct Hx as [|[? ?]]; [left; lia|].
    destruct (decide (ObjectId.generation o < ObjectSlot.generation s')); [auto|right].
    split; [lia|auto].
  - exists u; simpl. by rewrite list_lookup_insert_ne.
Qed.

Lemma expired_run_op r o x : expired r o -> expired (run_op r x) o.
Proof.
  intros Hx. destruct x as [k|o'|o']; simpl.
  - unfold create. destruct (list_find _ _) as [[i s]|] eqn:E; [simpl|done].
    apply list_find_lookup in E. eapply expired_insert; [done|simpl; lia|done|done].
  - unfold retain. destruct (object_slot r o') as [[i s]|] eqn:E; [case_decide|]; try done.
    apply object_slot_Ok in E as (?&?&?&?&?). eapply expired_insert; [done|simpl; lia|done|done].
  - unfold release. destruct (object_slot r o') as [[i s]|] eqn:E; [case_decide|]; try done.
    apply object_slot_Ok in E as (?&?&?&?&?). simpl.
    eapply expired_insert; [done|..|done]; unfold released; repeat case_decide; simpl; lia || done.
Qed.

Lemma run_op_wf r x : wf r -> wf (run_op r x).
Proof. intros. destruct x; simpl; auto using create_wf, retain_wf, release_wf. Qed.

Lemma expired_run_ops r o xs : wf r -> expired r o -> wf (run_ops r xs) /\ expired (run_ops r xs) o.
Proof.
  revert r. induction xs as [|x xs IH]; intros r ??; [done|].
  apply IH; [by apply run_op_wf|by apply expired_run_op].
Qed.

(** Releasing the last reference expires the identifier. *)
Lemma release_last_expired r o r' :
  wf r -> release r o = (Ok tt, r') -> refs r' o = 0 -> expired r' o.
Proof.
  intros Hwf Hr H0. pose proof (refs_release _ _ _ Hwf Hr) as [H1 _].
  unfold release in Hr. destruct (object_slot r o) as [[i s]|] eqn:E;
    [case_decide|]; simplify_eq/=.
  erewrite refs_object_slot in H1 by done. rewrite H0 in H1.
  apply object_slot_Ok in E as (?&->&?&?&?).
  eexists. simpl. rewrite list_lookup_insert_eq by (by eapply lookup_lt_Some).
  split; [done|]. unfold released. rewrite decide_True by lia.
  case_decide; simpl; [right; split; [congruence|done]|left; lia].
Qed.
End registry.

#[export] Hint Resolve create_wf retain_wf release_wf registry_new_wf : nagi.

(** ** Theory of handles *)

Lemma U32_MAX_ones : U32_MAX = N.ones 32.
Proof. done. Qed.

Lemma handle_slot_new i g :
  N.of_nat i <= U32_MAX -> Handle.slot (Handle.new i g) = N.of_nat i.
Proof.
  intros Hi. unfold Handle.slot, Handle.new, Handle.SLOT_MASK, as_u32; simpl.
  rewrite U32_MAX_ones, N.land_lor_distr_l, !N.land_ones, N.shiftl_mul_pow2, N.Div0.mod_mul.
  change (N.ones 32 + 1) with (2 ^ 32). rewrite N.lor_0_l, N.Div0.mod_mod.
  apply N.mod_small. unfold U32_MAX in Hi. lia.
Qed.

Lemma handle_generation_new i g :
  N.of_nat i <= U32_MAX -> g <= U32_MAX -> Handle.generation (Handle.new i g) = g.
Proof.
  intros Hi Hg. unfold Handle.generation, Handle.new, as_u32; simpl.
  rewrite N.shiftr_lor, N.shiftr_shiftl_l, N.sub_diag, N.shiftl_0_r by lia.
  rewrite (N.shiftr_div_pow2 (N.of_nat i)), N.div_small, N.lor_0_r.
  - apply N.mod_small. lia.
  - unfold U32_MAX in Hi. lia.
Qed.

(** A 64-bit handle value is determined by its slot and its generation. *)
Lemma handle_ext h1 h2 :
  Handle.raw h1 <= U64_MAX -> Handle.raw h2 <= U64_MAX ->
  Handle.slot h1 = Handle.slot h2 -> Handle.generation h1 = Handle.generation h2 -> h1 = h2.
Proof.
  destruct h1 as [a], h2 as [b]. unfold Handle.slot, Handle.generation, as_u32, Handle.SLOT_MASK.
  simpl. rewrite U32_MAX_ones, !N.land_ones, !N.shiftr_div_pow2.
  change (N.ones 32 + 1) with (2 ^ 32). rewrite !N.Div0.mod_mod.
  unfold U64_MAX. intros Ha Hb Hs Hg. f_equal.
  rewrite !N.mod_small in Hg by (apply N.Div0.div_lt_upper_bound; lia).
  rewrite (N.div_mod a (2 ^ 32)), (N.div_mod b (2 ^ 32)) by done. congruence.
Qed.

(** ** Theory of handle tables *)

Section table.
Import HandleTable.
Implicit Types (t : HandleTable.t) (r : ObjectRegistry.t) (h : Handle.t)
  (s : HandleSlot.t) (o : ObjectId.t) (c : Capability.t).

Lemma table_slot_Ok t h i s :
  slot t h = Ok (i, s) <->
  i = N.to_nat (Handle.slot h) /\ slots t !! i = Some s
  /\ Handle.generation h <> 0 /\ HandleSlot.generation s = Handle.generation h.
Proof.
  unfold slot. split.
  - intros H. crush_match; done.
  - intros (->&->&?&?). rewrite decide_False by naive_solver. done.
Qed.

Lemma entry_Ok t r h c :
  entry t r h = Ok c <->
  exists i s, slot t h = Ok (i, s) /\ HandleSlot.capability s = Some c
    /\ ObjectRegistry.validate r (Capability.object c)
         (ObjectId.kind (Capability.object c)) = Ok tt.
Proof.
  unfold entry, ok_or. split.
  - intros H. destruct (slot t h) as [[i s]|] eqn:?; [|done].
    destruct (HandleSlot.capability s) as [c'|] eqn:?; [|done].
    destruct (ObjectRegistry.validate _ _ _) as [[]|] eqn:?; simplify_eq. eauto 6.
  - intros (i&s&->&->&->). done.
Qed.

Lemma table_wf_slot t i s : wf t -> slots t !! i = Some s -> slot_wf s.
Proof. intros [H _] Hi. by eapply Forall_lookup_1. Qed.

Lemma table_wf_insert t i s : wf t -> slot_wf s -> wf (mk (<[i := s]> (slots t))).
Proof.
  intros [H ?] ?. split; simpl; [by apply Forall_insert_slot|by rewrite length_insert].
Qed.

Lemma table_new_wf n : N.of_nat n <= U32_MAX + 1 -> wf (new n).
Proof.
  intros. split; simpl; [|by rewrite length_replicate].
  apply Forall_replicate. unfold slot_wf, U32_MAX; simpl. naive_solver lia.
Qed.

(** What a successful installation does. *)
Lemma install_capability_Ok t o rt h t' :
  wf t -> install_capability t o rt = (Ok h, t') ->
  exists i s, slots t !! i = Some s /\ installable s
    /\ h = Handle.new i (HandleSlot.generation s)
    /\ Handle.slot h = N.of_nat i /\ Handle.generation h = HandleSlot.generation s
    /\ t' = mk (<[i := HandleSlot.mk (HandleSlot.generation s)
                         (Some (Capability.mk o rt))]> (slots t)).
Proof.
  unfold install_capability. intros Hwf H.
  destruct (list_find _ _) as [[i s]|] eqn:E; simplify_eq/=; [|by case_decide].
  apply list_find_Some in E as (Hi&Hinst&_).
  pose proof (table_wf_slot _ _ _ Hwf Hi) as [? _].
  assert (N.of_nat i <= U32_MAX).
  { destruct Hwf as [_ ?]. apply lookup_lt_Some in Hi. lia. }
  exists i, s. split_and!; try done.
  - by apply handle_slot_new.
  - apply handle_generation_new; lia.
Qed.

Lemma install_capability_Err t o rt e t' : install_capability t o rt = (Err e, t') -> t' = t.
Proof. unfold install_capability. intros. crush_match; done. Qed.

(** Room for one more capability is all an installation needs. *)
Lemma install_capability_total t o rt :
  (0 < count_of installable (slots t))%nat ->
  exists h t', install_capability t o rt = (Ok h, t').
Proof.
  intros Hc. unfold install_capability.
  destruct (list_find _ _) as [[i s]|] eqn:E; [eauto|].
  apply list_find_None, (count_of_zero installable) in E. lia.
Qed.

(** The slot update that closing, moving and rolling back share. *)
Lemma vacated_wf t i s :
  wf t -> slots t !! i = Some s -> HandleSlot.generation s <> U32_MAX ->
  wf (mk (<[i := HandleSlot.mk (HandleSlot.generation s + 1) None]> (slots t))).
Proof.
  intros Hwf Hi Hne. apply table_wf_insert; [done|].
  pose proof (table_wf_slot _ _ _ Hwf Hi) as [? _]. split; simpl; [lia|done].
Qed.

Lemma installed_wf t i s c :
  wf t -> slots t !! i = Some s -> installable s ->
  wf (mk (<[i := HandleSlot.mk (HandleSlot.generation s) (Some c)]> (slots t))).
Proof.
  intros Hwf Hi [_ Hne]. apply table_wf_insert; [done|].
  pose proof (table_wf_slot _ _ _ Hwf Hi) as [? _]. split; simpl; [lia|done].
Qed.

Lemma install_capability_wf t o rt : wf t -> wf (install_capability t o rt).2.
Proof.
  intros Hwf. destruct (install_capability t o rt) as [[h|e] t'] eqn:E; simpl.
  - eapply install_capability_Ok in E as (i&s&?&?&_&_&_&->); [|done]. by apply installed_wf.
  - by apply install_capability_Err in E as ->.
Qed.

Lemma insert_wf t r o rt : wf t -> wf (insert t r o rt).1.2.
Proof.
  intros Hwf. unfold insert. destruct (ObjectRegistry.retain r o) as [[[]|e] r1]; [|done].
  pose proof (install_capability_wf t o rt Hwf).
  by destruct (install_capability t o rt) as [[h|e] t'].
Qed.

Lemma close_wf t r h : wf t -> wf (close t r h).1.2.
Proof.
  intros Hwf. unfold close. destruct (slot t h) as [[i s]|] eqn:E; [|done].
  apply table_slot_Ok in E as (->&?&?&?). crush_match; try done. by apply vacated_wf.
Qed.

Lemma begin_move_wf t r h rt : wf t -> wf (begin_move t r h rt).2.
Proof.
  intros Hwf. unfold begin_move. destruct (check_move t r h rt); [|done].
  destruct (slot t h) as [[i s]|] eqn:E; [|done].
  apply table_slot_Ok in E as (->&?&?&?). crush_match; try done. by apply vacated_wf.
Qed.

Lemma install_token_wf t r tok : wf t -> wf (install_token t r tok).1.2.
Proof.
  intros Hwf. unfold install_token. destruct tok as [tok|]; [|done].
  destruct (ObjectRegistry.validate _ _ _); [|done].
  pose proof (install_capability_wf t (Capability.object (TransferToken.capability tok))
    (Capability.rights (TransferToken.capability tok)) Hwf).
  by destruct (install_capability _ _ _) as [[h|e] t'].
Qed.

Lemma rollback_install_wf t h : wf t -> wf (rollback_install t h).2.
Proof.
  intros Hwf. unfold rollback_install. destruct (slot t h) as [[i s]|] eqn:E; [|done].
  apply table_slot_Ok in E as (->&?&?&?). crush_match; try done. by apply vacated_wf.
Qed.

(** [close_all] vacates every slot and releases one reference per capability. *)
Lemma close_all_slots_fst ss r : (close_all_slots ss r).1 = closed_slot <$> ss.
Proof.
  revert r. induction ss as [|s ss IH]; intros r; [done|]. simpl. unfold closed_slot at 1.
  destruct (HandleSlot.capability s) as [c|];
    [specialize (IH (ObjectRegistry.release r (Capability.object c)).2)|specialize (IH r)];
    destruct (close_all_slots _ _); simpl in *; by rewrite IH.
Qed.

Lemma close_all_table t r : (close_all t r).1 = mk (closed_slot <$> slots t).
Proof.
  unfold close_all. pose proof (close_all_slots_fst (slots t) r) as H.
  destruct (close_all_slots _ _); simpl in *. by rewrite H.
Qed.

Lemma closed_slot_generation s : slot_wf s -> HandleSlot.generation s <= HandleSlot.generation (closed_slot s).
Proof.
  unfold closed_slot, u32_saturating_add. intros [? _].
  destruct (HandleSlot.capability s); simpl; lia.
Qed.

Lemma closed_slot_wf s : slot_wf s -> slot_wf (closed_slot s).
Proof.
  unfold closed_slot, u32_saturating_add. intros Hs.
  destruct (HandleSlot.capability s) eqn:E; [|done].
  destruct Hs as [? _]. split; simpl; [lia|done].
Qed.

Lemma close_all_wf t r : wf t -> wf (close_all t r).1.
Proof.
  intros [Hwf ?]. rewrite close_all_table. split; simpl; [|by rewrite length_fmap].
  apply Forall_fmap. eapply Forall_impl; [done|]. apply closed_slot_wf.
Qed.

Lemma table_run_op_wf t x : wf t -> wf (run_op t x).
Proof.
  intros. destruct x; simpl; auto using close_all_wf, insert_wf, close_wf, begin_move_wf,
    install_token_wf, rollback_install_wf.
Qed.

(** No operation lowers a slot's generation. *)
Lemma generation_insert t i j s s' s0 :
  slots t !! i = Some s -> HandleSlot.generation s <= HandleSlot.generation s' ->
  slots t !! j = Some s0 ->
  exists s1, slots (mk (<[i := s']> (slots t))) !! j = Some s1
    /\ HandleSlot.generation s0 <= HandleSlot.generation s1.
Proof.
  intros Hi ? Hj. simpl. destruct (decide (i = j)) as [->|].
  - rewrite list_lookup_insert_eq by (by eapply lookup_lt_Some). simplify_eq. eauto.
  - rewrite list_lookup_insert_ne by done. eauto with lia.
Qed.

Lemma install_capability_generation t o rt j s0 :
  wf t -> slots t !! j = Some s0 ->
  exists s1, slots (install_capability t o rt).2 !! j = Some s1
    /\ HandleSlot.generation s0 <= HandleSlot.generation s1.
Proof.
  intros Hwf Hj. destruct (install_capability t o rt) as [[h|e] t'] eqn:E; simpl.
  - eapply install_capability_Ok in E as (i&s&?&?&_&_&_&->); [|done].
    eapply generation_insert; [done|simpl; lia|done].
  - apply install_capability_Err in E as ->. eauto with lia.
Qed.

Lemma run_op_generation t x j s0 :
  wf t -> slots t !! j = Some s0 ->
  exists s1, slots (run_op t x) !! j = Some s1
    /\ HandleSlot.generation s0 <= HandleSlot.generation s1.
Proof.
  intros Hwf Hj.
  assert (exists s1, slots t !! j = Some s1
    /\ HandleSlot.generation s0 <= HandleSlot.generation s1) as Hsame by eauto with lia.
  destruct x as [r o rt|r h|r|r h rt|r tok|h]; simpl.
  - unfold insert. destruct (ObjectRegistry.retain r o) as [[[]|] ?]; [|done].
    pose proof (install_capability_generation t o rt j s0 Hwf Hj).
    by destruct (install_capability t o rt) as [[]].
  - unfold close. destruct (slot t h) as [[i s]|] eqn:E; [|done].
    apply table_slot_Ok in E as (->&?&?&?). crush_match; try done;
    (eapply generation_insert; [done|simpl; lia|done]).
  - rewrite close_all_table. simpl. rewrite list_lookup_fmap, Hj. simpl.
    eexists; split; [done|]. apply closed_slot_generation. by eapply table_wf_slot.
  - unfold begin_move. destruct (check_move t r h rt); [|done].
    destruct (slot t h) as [[i s]|] eqn:E; [|done].
    apply table_slot_Ok in E as (->&?&?&?). crush_match; try done;
    (eapply generation_insert; [done|simpl; lia|done]).
  - unfold install_token. destruct tok as [tok|]; [|done].
    destruct (ObjectRegistry.validate _ _ _); [|done].
    pose proof (install_capability_generation t (Capability.object (TransferToken.capability tok))
      (Capability.rights (TransferToken.capability tok)) j s0 Hwf Hj).
    by destruct (install_capability _ _ _) as [[]].
  - unfold rollback_install. destruct (slot t h) as [[i s]|] eqn:E; [|done].
    apply table_slot_Ok in E as (->&?&?&?). crush_match; try done;
    (eapply generation_insert; [done|simpl; lia|done]).
Qed.

Lemma spent_run_ops t h xs :
  wf t -> spent t h -> wf (run_ops t xs) /\ spent (run_ops t xs) h.
Proof.
  revert t. induction xs as [|x xs IH]; intros t Hwf Hsp; [done|]. simpl.
  apply IH; [by apply table_run_op_wf|]. destruct Hsp as (s&Hs&?).
  destruct (run_op_generation t x _ _ Hwf Hs) as (s'&?&?).
  exists s'. split; [done|lia].
Qed.

Lemma spent_entry t r h c : wf t -> spent t h -> entry t r h <> Ok c.
Proof.
  intros Hwf (s&Hs&Hsp) (i&s'&Hsl&Hc&_)%entry_Ok.
  apply table_slot_Ok in Hsl as (->&Hs'&?&?). simplify_eq.
  pose proof (table_wf_slot _ _ _ Hwf Hs) as [? Hnone].
  assert (HandleSlot.generation s = U32_MAX) by lia. naive_solver.
Qed.

(** The update that closing, moving and rolling back share spends the handle. *)
Lemma vacated_spent t h i s :
  slot t h = Ok (i, s) ->
  spent (mk (<[i := HandleSlot.mk (HandleSlot.generation s + 1) None]> (slots t))) h.
Proof.
  intros (->&Hs&?&?)%table_slot_Ok. eexists; simpl.
  rewrite list_lookup_insert_eq by (by eapply lookup_lt_Some). split; [done|simpl; lia].
Qed.

(** What a successful close, move or rollback does. *)
Lemma close_Ok t r h t' r' :
  close t r h = (Ok tt, t', r') ->
  exists i s c, slot t h = Ok (i, s) /\ HandleSlot.capability s = Some c
    /\ HandleSlot.generation s <> U32_MAX
    /\ ObjectRegistry.release r (Capability.object c) = (Ok tt, r')
    /\ t' = mk (<[i := HandleSlot.mk (HandleSlot.generation s + 1) None]> (slots t)).
Proof.
  unfold close. intros H. destruct (slot t h) as [[i s]|] eqn:?; [|done].
  destruct (HandleSlot.capability s) as [c|] eqn:?; [|done]. case_decide; [done|].
  destruct (ObjectRegistry.release _ _) as [[[]|] ?] eqn:?; simplify_eq. eauto 10.
Qed.

Lemma begin_move_Ok t r h rt tok t' :
  begin_move t r h rt = (Ok tok, t') ->
  exists i s c, slot t h = Ok (i, s) /\ HandleSlot.capability s = Some c
    /\ check_move t r h rt = Ok tt
    /\ HandleSlot.generation s <> U32_MAX
    /\ tok = TransferToken.mk (Capability.mk (Capability.object c) rt)
    /\ t' = mk (<[i := HandleSlot.mk (HandleSlot.generation s + 1) None]> (slots t)).
Proof.
  unfold begin_move. intros H. destruct (check_move t r h rt) as [[]|] eqn:?; [|done].
  destruct (slot t h) as [[i s]|] eqn:?; [|done].
  destruct (HandleSlot.capability s) as [c|] eqn:?; [|done]. case_decide; simplify_eq.
  eauto 10.
Qed.

Lemma check_move_Ok t r h rt :
  check_move t r h rt = Ok tt <->
  exists i s c, slot t h = Ok (i, s) /\ HandleSlot.capability s = Some c
    /\ entry t r h = Ok c
    /\ Rights.contains (Capability.rights c) Rights.TRANSFER = true
    /\ Rights.contains (Capability.rights c) rt = true
    /\ HandleSlot.generation s <> U32_MAX.
Proof.
  unfold check_move, Rights.is_subset_of. split.
  - intros H. destruct (entry t r h) as [c|] eqn:E; [|done].
    pose proof E as (i&s&Hsl&Hc&_)%entry_Ok. rewrite Hsl in H.
    destruct (Rights.contains _ Rights.TRANSFER) eqn:?, (Rights.contains _ rt) eqn:?;
      simplify_eq/=. case_decide; [done|]. eauto 10.
  - intros (i&s&c&->&_&->&->&->&?). simpl. by rewrite decide_False.
Qed.

Lemma begin_move_total t r h rt :
  check_move t r h rt = Ok tt -> exists tok t', begin_move t r h rt = (Ok tok, t').
Proof.
  intros H. unfold begin_move. rewrite H.
  apply check_move_Ok in H as (i&s&c&->&->&_&_&_&?). rewrite decide_False by done. eauto.
Qed.
End table.

#[export] Hint Resolve insert_wf close_wf begin_move_wf install_token_wf
  rollback_install_wf table_new_wf install_capability_wf : nagi.

(** ** Theory of the capability flow *)

Section flow.
Import HandleTable.
Implicit Types (t : HandleTable.t) (r : ObjectRegistry.t) (h : Handle.t)
  (s : HandleSlot.t) (o : ObjectId.t) (c : Capability.t).

Lemma slot_holds_Some o s c :
  HandleSlot.capability s = Some c -> slot_holds o s <-> Capability.object c = o.
Proof. unfold slot_holds. intros ->. simpl. naive_solver. Qed.

Lemma slot_holds_None o s : HandleSlot.capability s = None -> ~ slot_holds o s.
Proof. unfold slot_holds. by intros ->. Qed.

Lemma holds_install t i s c o :
  slots t !! i = Some s -> HandleSlot.capability s = None ->
  holds (mk (<[i := HandleSlot.mk (HandleSlot.generation s) (Some c)]> (slots t))) o
  = holds t o + same (Capability.object c) o.
Proof.
  intros Hi Hs. unfold holds; simpl.
  pose proof (count_of_insert (slot_holds o) (slots t) i s
    (HandleSlot.mk (HandleSlot.generation s) (Some c)) Hi) as H.
  unfold same. pose proof (slot_holds_None o s Hs).
  pose proof (slot_holds_Some o (HandleSlot.mk (HandleSlot.generation s) (Some c)) c eq_refl).
  repeat case_decide; naive_solver lia.
Qed.

Lemma holds_vacate t i s c g o :
  slots t !! i = Some s -> HandleSlot.capability s = Some c ->
  holds t o = holds (mk (<[i := HandleSlot.mk g None]> (slots t))) o
              + same (Capability.object c) o.
Proof.
  intros Hi Hs. unfold holds; simpl.
  pose proof (count_of_insert (slot_holds o) (slots t) i s (HandleSlot.mk g None) Hi) as H.
  unfold same. pose proof (slot_holds_Some o s c Hs).
  pose proof (slot_holds_None o (HandleSlot.mk g None) eq_refl).
  repeat case_decide; naive_solver lia.
Qed.

Lemma escrowed_cons tok toks o :
  Flow.escrowed (tok :: toks) o =
  same (Flow.token_object tok) o + Flow.escrowed toks o.
Proof. unfold same, Flow.escrowed. rewrite count_of_cons. case_decide; lia. Qed.

Lemma escrowed_delete toks k tok o :
  toks !! k = Some tok ->
  Flow.escrowed toks o =
  same (Flow.token_object tok) o + Flow.escrowed (delete k toks) o.
Proof.
  intros Hk. rewrite delete_take_drop. rewrite <-(take_drop_middle toks k tok Hk) at 1.
  unfold same, Flow.escrowed. rewrite !count_of_app, count_of_cons. case_decide; lia.
Qed.

(** A release in a registry whose counts leave room for it. *)
Lemma release_accounted r o (rest : ObjectId.t -> N) :
  ObjectRegistry.wf r ->
  (forall o', ObjectRegistry.refs r o' = same o o' + rest o') ->
  ObjectRegistry.wf (ObjectRegistry.release r o).2
  /\ forall o', ObjectRegistry.refs (ObjectRegistry.release r o).2 o' = rest o'.
Proof.
  intros Hwf Hr. split; [by apply release_wf|].
  destruct (release_Ok r o) as [r' Hrel].
  { rewrite Hr. unfold same. rewrite decide_True by done. lia. }
  rewrite Hrel; simpl. apply refs_release in Hrel as [H1 H2]; [|done].
  intros o'. specialize (Hr o'). unfold same in Hr. case_decide; subst; [lia|]. rewrite H2 by done. lia.
Qed.

Lemma close_all_slots_accounted ss r (rest : ObjectId.t -> N) :
  ObjectRegistry.wf r ->
  (forall o, ObjectRegistry.refs r o = N.of_nat (count_of (slot_holds o) ss) + rest o) ->
  ObjectRegistry.wf (close_all_slots ss r).2
  /\ forall o, ObjectRegistry.refs (close_all_slots ss r).2 o = rest o.
Proof.
  revert r. induction ss as [|s ss IH]; intros r Hwf Hr; simpl.
  { split; [done|]. intros o. rewrite Hr. by rewrite count_of_nil. }
  destruct (HandleSlot.capability s) as [c|] eqn:Hc.
  - edestruct (release_accounted r (Capability.object c)) as [Hwf' Hr']; [done| |].
    { intros o. rewrite Hr, count_of_cons.
      instantiate (1 := fun o => N.of_nat (count_of (slot_holds o) ss) + rest o). simpl.
      unfold same. pose proof (slot_holds_Some o s c Hc). repeat case_decide; naive_solver lia. }
    specialize (IH _ Hwf' Hr'). by destruct (close_all_slots _ _).
  - assert (forall o, ObjectRegistry.refs r o
      = N.of_nat (count_of (slot_holds o) ss) + rest o) as Hr'.
    { intros o. rewrite Hr, count_of_cons, decide_False; [done|by apply slot_holds_None]. }
    specialize (IH _ Hwf Hr'). by destruct (close_all_slots _ _).
Qed.

Lemma table_new_holds n o : holds (new n) o = 0.
Proof.
  unfold holds, new; simpl.
  rewrite count_of_replicate_false; [done|]. by apply slot_holds_None.
Qed.

Lemma holds_closed t o : holds (mk (closed_slot <$> slots t)) o = 0.
Proof.
  unfold holds; simpl. enough (count_of (slot_holds o) (closed_slot <$> slots t) = 0%nat) by lia.
  apply count_of_zero, Forall_fmap, Forall_true. intros s. unfold slot_holds, closed_slot; simpl.
  destruct (HandleSlot.capability s) eqn:E; simpl; [done|by rewrite E].
Qed.

Lemma accounted_insert t r o rt ext :
  wf t -> ObjectRegistry.wf r ->
  (forall x, ObjectRegistry.refs r x = holds t x + ext x) ->
  (forall x, ObjectRegistry.refs (insert t r o rt).2 x = holds (insert t r o rt).1.2 x + ext x)
  /\ ObjectRegistry.wf (insert t r o rt).2.
Proof.
  intros Ht Hr Hacc. unfold insert.
  pose proof (retain_wf r o Hr) as Hwf'.
  destruct (ObjectRegistry.retain r o) as [[[]|e] r1] eqn:E; simpl in Hwf'; last first.
  { by apply retain_Err in E as ->. }
  apply refs_retain in E as (_&Hsame&Hother).
  destruct (install_capability t o rt) as [[h|e] t'] eqn:E; simpl.
  - split; [|done]. eapply install_capability_Ok in E as (i&s&Hi&[Hs _]&_&_&_&->); [|done].
    intros x. rewrite (holds_install _ _ _ _ _ Hi Hs); simpl.
    unfold same. case_decide; subst; [rewrite Hsame|rewrite Hother by done]; rewrite Hacc; lia.
  - apply install_capability_Err in E as ->.
    destruct (release_accounted r1 o (fun x => holds t x + ext x)); [done| |done].
    intros x. unfold same. case_decide; subst; [rewrite Hsame|rewrite Hother by done]; rewrite Hacc; lia.
Qed.

Lemma accounted_run_insert ext st o rt :
  Flow.accounted ext st -> Flow.accounted ext (Flow.run_op st (Flow.Insert o rt)).
Proof.
  destruct st as [t r esc]. intros (Ht&Hr&Hacc); simpl in *.
  pose proof (insert_wf t r o rt Ht).
  edestruct (accounted_insert t r o rt (fun x => Flow.escrowed esc x + ext x)) as [H1 H2];
    [done..|intros x; rewrite Hacc; lia|].
  destruct (insert t r o rt) as [[res t'] r']; simpl in *. split_and!; [done..|].
  intros x. simpl. rewrite H1. lia.
Qed.

Lemma accounted_run_close ext st h :
  Flow.accounted ext st -> Flow.accounted ext (Flow.run_op st (Flow.Close h)).
Proof.
  destruct st as [t r esc]. intros (Ht&Hr&Hacc); simpl in *.
  pose proof (close_wf t r h Ht).
  destruct (close t r h) as [[[[]|e] t'] r'] eqn:E; simpl in *.
  - apply close_Ok in E as (i&s&c&Hsl&Hc&_&Hrel&->).
    apply table_slot_Ok in Hsl as (_&Hi&_&_).
    destruct (release_accounted r (Capability.object c)
      (fun x => holds (mk (<[i := HandleSlot.mk (HandleSlot.generation s + 1) None]> (slots t))) x
         + Flow.escrowed esc x + ext x)) as [Hw Hx]; [done| |].
    { intros x. rewrite Hacc. rewrite (holds_vacate _ _ _ _ (HandleSlot.generation s + 1) x Hi Hc). lia. }
    rewrite Hrel in Hw, Hx. split_and!; done.
  - assert (t' = t /\ r' = r) as [-> ->]; [|by split_and!].
    unfold close in E. crush_match; try done.
    by match goal with H : ObjectRegistry.release _ _ = _ |- _ => apply release_Err in H as -> end.
Qed.

Lemma accounted_run_close_all ext st :
  Flow.accounted ext st -> Flow.accounted ext (Flow.run_op st Flow.CloseAll).
Proof.
  destruct st as [t r esc]. intros (Ht&Hr&Hacc); simpl in *.
  pose proof (close_all_wf t r Ht). rewrite (close_all_table t r) in *.
  destruct (close_all_slots_accounted (slots t) r (fun x => Flow.escrowed esc x + ext x))
    as [Hw Hx]; [done| |].
  { intros x. rewrite Hacc. unfold holds. lia. }
  pose proof (close_all_table t r) as Htab. unfold close_all in *.
  destruct (close_all_slots (slots t) r) as [ss r']; simpl in *. rewrite Htab.
  split_and!; [done..|]. intros x; simpl. rewrite Hx, holds_closed. lia.
Qed.

Lemma accounted_run_begin_move ext st h rt :
  Flow.accounted ext st -> Flow.accounted ext (Flow.run_op st (Flow.BeginMove h rt)).
Proof.
  destruct st as [t r esc]. intros (Ht&Hr&Hacc); simpl in *.
  pose proof (begin_move_wf t r h rt Ht).
  destruct (begin_move t r h rt) as [[tok|e] t'] eqn:E; simpl in *.
  - apply begin_move_Ok in E as (i&s&c&Hsl&Hc&_&_&->&->).
    apply table_slot_Ok in Hsl as (_&Hi&_&_). split_and!; [done..|]. intros x; simpl.
    rewrite Hacc, escrowed_cons. unfold Flow.token_object; simpl.
    rewrite (holds_vacate _ _ _ _ (HandleSlot.generation s + 1) x Hi Hc). lia.
  - assert (t' = t) as -> by (unfold begin_move in E; by crush_match). by split_and!.
Qed.

Lemma accounted_run_install_token ext st k :
  Flow.accounted ext st -> Flow.accounted ext (Flow.run_op st (Flow.InstallToken k)).
Proof.
  destruct st as [t r esc]. intros (Ht&Hr&Hacc); simpl in *.
  destruct (esc !! k) as [tok|] eqn:Hk; [|by split_and!].
  pose proof (install_token_wf t r (Some tok) Ht). unfold install_token in *.
  destruct (ObjectRegistry.validate _ _ _); [|by split_and!].
  destruct (install_capability _ _ _) as [[h|e] t'] eqn:E; simpl in *.
  - eapply install_capability_Ok in E as (i&s&Hi&[Hs _]&_&_&_&->); [|done].
    split_and!; [done..|]. intros x; simpl.
    rewrite (holds_install _ _ _ _ _ Hi Hs), Hacc, (escrowed_delete _ _ _ _ Hk). simpl.
    unfold Flow.token_object. lia.
  - apply install_capability_Err in E as ->. by split_and!.
Qed.

Lemma accounted_run_rollback_install ext st h :
  Flow.accounted ext st -> Flow.accounted ext (Flow.run_op st (Flow.RollbackInstall h)).
Proof.
  destruct st as [t r esc]. intros (Ht&Hr&Hacc); simpl in *.
  pose proof (rollback_install_wf t h Ht). unfold rollback_install in *.
  destruct (slot t h) as [[i s]|] eqn:E; [|by split_and!].
  apply table_slot_Ok in E as (_&Hi&_&_).
  destruct (HandleSlot.capability s) as [c|] eqn:Hc; [|by split_and!].
  case_decide; [by split_and!|]. simpl in *. split_and!; [done..|]. intros x; simpl.
  rewrite Hacc, escrowed_cons. unfold Flow.token_object; simpl.
  rewrite (holds_vacate _ _ _ _ (HandleSlot.generation s + 1) x Hi Hc). lia.
Qed.

Lemma accounted_run_op ext st x :
  Flow.accounted ext st -> Flow.accounted ext (Flow.run_op st x).
Proof.
  destruct x; auto using accounted_run_insert, accounted_run_close, accounted_run_close_all,
    accounted_run_begin_move, accounted_run_install_token, accounted_run_rollback_install.
Qed.

Lemma accounted_run_ops ext st xs :
  Flow.accounted ext st -> Flow.accounted ext (Flow.run_ops st xs).
Proof.
  revert st. induction xs as [|x xs IH]; intros st H; [done|].
  by apply IH, accounted_run_op.
Qed.
End flow.

(** ** Properties *)

Section properties.
Implicit Types (t : HandleTable.t) (r : ObjectRegistry.t) (h : Handle.t) (o : ObjectId.t).

Lemma invalidates_wf t h t' :
  HandleTable.wf t -> HandleTable.invalidates t h t' -> HandleTable.wf t'.
Proof.
  intros Hwf [(r&r'&H)|[(r&rt&tok&H)|[(tok&H)|(r&c&_&->)]]].
  - pose proof (close_wf t r h Hwf) as W. by rewrite H in W.
  - pose proof (begin_move_wf t r h rt Hwf) as W. by rewrite H in W.
  - pose proof (rollback_install_wf t h Hwf) as W. by rewrite H in W.
  - by apply close_all_wf.
Qed.

Lemma invalidates_spent t h t' :
  HandleTable.wf t -> HandleTable.invalidates t h t' -> HandleTable.spent t' h.
Proof.
  intros Hwf [(r&r'&H)|[(r&rt&tok&H)|[(tok&H)|(r&c&H&->)]]].
  - apply close_Ok in H as (i&s&c&?&_&_&_&->). by apply vacated_spent.
  - apply begin_move_Ok in H as (i&s&c&?&_&_&_&_&->). by apply vacated_spent.
  - unfold HandleTable.rollback_install in H.
    destruct (HandleTable.slot t h) as [[i s]|] eqn:?; [|done].
    destruct (HandleSlot.capability s); [|done]. case_decide; simplify_eq.
    by apply vacated_spent.
  - apply entry_Ok in H as (i&s&Hsl&Hc&_). apply table_slot_Ok in Hsl as (->&Hs&?&?).
    rewrite close_all_table. exists (HandleTable.closed_slot s); simpl.
    rewrite list_lookup_fmap, Hs. split; [done|].
    unfold HandleTable.closed_slot, u32_saturating_add. rewrite Hc; simpl. lia.
Qed.

(** C14: Once a handle has left its table (by a close, by a move into escrow, by
    the rollback of an installation or by the exit of its process), no sequence
    of later operations on the table, at whatever states of the registry, makes
    the same handle value resolve again: slots are reused, handles are not. *)
Theorem stale_handle_never_resolves t h t' xs r :
  HandleTable.wf t -> HandleTable.invalidates t h t' ->
  is_ok (HandleTable.resolve (HandleTable.run_ops t' xs) r h) = false.
Proof.
  intros Hwf Hinv. destruct (spent_run_ops t' h xs) as [Hwf' Hsp];
    [eauto using invalidates_wf|eauto using invalidates_spent|].
  unfold HandleTable.resolve. destruct (HandleTable.entry _ r h) eqn:E; [|done].
  by destruct (spent_entry _ _ _ _ Hwf' Hsp E).
Qed.

(** Once the last reference to an object is released, its identifier never
    validates again, whatever objects are created, retained and released. *)
Theorem released_object_never_validates r o r' xs k :
  ObjectRegistry.wf r -> ObjectRegistry.release r o = (Ok tt, r') ->
  ObjectRegistry.refs r' o = 0 ->
  is_ok (ObjectRegistry.validate (ObjectRegistry.run_ops r' xs) o k) = false.
Proof.
  intros Hwf Hrel H0. pose proof (release_wf r o Hwf) as Hwf'. rewrite Hrel in Hwf'.
  destruct (expired_run_ops r' o xs) as [Hw Hx];
    [done|eauto using release_last_expired|].
  destruct (ObjectRegistry.validate _ o k) as [[]|] eqn:E; [|done].
  by destruct (expired_validate _ _ _ Hw Hx E).
Qed.

(** C15: Reference counts are exact.  If every reference the registry counts is
    a capability of the table, a token in escrow or an external reference, then
    this stays so through every sequence of inserts, closes, process exits,
    moves, installs and rollbacks, the failing ones included; and so every
    capability in the table and in escrow names a live object. *)
Theorem reference_counts_exact (external : ObjectId.t -> N) (st : Flow.t) xs :
  Flow.accounted external st ->
  let st' := Flow.run_ops st xs in
  Flow.accounted external st'
  /\ (forall i s c, HandleTable.slots (Flow.table st') !! i = Some s ->
        HandleSlot.capability s = Some c ->
        ObjectRegistry.validate (Flow.registry st') (Capability.object c)
          (ObjectId.kind (Capability.object c)) = Ok tt)
  /\ (forall token, token ∈ Flow.escrow st' ->
        ObjectRegistry.validate (Flow.registry st') (Flow.token_object token)
          (ObjectId.kind (Flow.token_object token)) = Ok tt).
Proof.
  intros Hacc st'. pose proof (accounted_run_ops external st xs Hacc) as H.
  change (Flow.accounted external st') in H. split; [done|]. destruct H as (Ht&Hr&Ha). split.
  - intros i s c Hi Hc. apply validate_refs; [done|]. rewrite Ha.
    enough (0 < HandleTable.holds (Flow.table st') (Capability.object c)) by lia.
    unfold HandleTable.holds. enough (0 < count_of (HandleTable.slot_holds (Capability.object c))
      (HandleTable.slots (Flow.table st')))%nat by lia.
    eapply count_of_pos; [done|]. by apply (slot_holds_Some _ _ c).
  - intros token [k Hk]%list_elem_of_lookup. apply validate_refs; [done|]. rewrite Ha.
    rewrite (escrowed_delete _ _ _ _ Hk). unfold same. rewrite decide_True by done. lia.
Qed.

(** What installing a token adds to a table. *)
Lemma install_token_Ok t r tok h t' tok' :
  HandleTable.wf t -> HandleTable.install_token t r (Some tok) = (Ok h, t', tok') ->
  tok' = None /\ HandleTable.entry t' r h = Ok (TransferToken.capability tok).
Proof.
  unfold HandleTable.install_token. intros Hwf H.
  destruct (ObjectRegistry.validate _ _ _) as [[]|] eqn:Hv; [|done].
  destruct (HandleTable.install_capability _ _ _) as [[]] eqn:E; simplify_eq.
  split; [done|].
  eapply install_capability_Ok in E as (i&s&Hi&_&_&Hsl&Hg&->); [|done].
  pose proof (table_wf_slot _ _ _ Hwf Hi) as [? _].
  apply entry_Ok. exists i, (HandleSlot.mk (HandleSlot.generation s)
    (Some (TransferToken.capability tok))).
  split_and!; [|done..]. apply table_slot_Ok. rewrite Hsl, Nat2N.id, Hg; simpl.
  destruct (TransferToken.capability tok); simpl.
  rewrite list_lookup_insert_eq by (by eapply lookup_lt_Some). split_and!; try done. lia.
Qed.

(** A move between tables transfers one capability and can only attenuate
    it: the source had the [TRANSFER] right and every right the receiver gets,
    the source handle is gone, the token is used up, and the new handle names
    the same object with exactly the requested rights. *)
Theorem move_attenuates_rights t r h requested tok t' u h' u' tok' :
  HandleTable.wf t -> HandleTable.wf u ->
  HandleTable.begin_move t r h requested = (Ok tok, t') ->
  HandleTable.install_token u r (Some tok) = (Ok h', u', tok') ->
  exists c, HandleTable.entry t r h = Ok c
    /\ bits_subset (Rights.bits Rights.TRANSFER) (Rights.bits (Capability.rights c))
    /\ bits_subset (Rights.bits requested) (Rights.bits (Capability.rights c))
    /\ is_ok (HandleTable.entry t' r h) = false
    /\ tok' = None
    /\ HandleTable.entry u' r h' = Ok (Capability.mk (Capability.object c) requested).
Proof.
  intros Ht Hu Hmove Hinst.
  assert (HandleTable.invalidates t h t') as Hinv by (right; left; eauto).
  apply begin_move_Ok in Hmove as (i&s&c&Hsl&Hc&Hchk&_&->&_).
  apply check_move_Ok in Hchk as (i'&s'&c'&Hsl'&Hc'&He&HT&HR&_). same_result.
  apply install_token_Ok in Hinst as [-> Hh']; [|done].
  exists c. split_and!; [done|..|done|done].
  - unfold Rights.contains in HT. by apply bool_decide_eq_true in HT.
  - unfold Rights.contains in HR. by apply bool_decide_eq_true in HR.
  - destruct (HandleTable.entry t' r h) eqn:E; [|done].
    by destruct (spent_entry _ _ _ _ (invalidates_wf _ _ _ Ht Hinv)
      (invalidates_spent _ _ _ Ht Hinv) E).
Qed.

(** Insertion round trip.  The handle [insert] returns was not in use, it
    resolves to the object and the rights inserted, one reference is added, and
    every other handle of the table keeps its capability. *)
Theorem insert_entry_roundtrip t r o rights h t' r' :
  HandleTable.wf t -> ObjectRegistry.wf r ->
  HandleTable.insert t r o rights = (Ok h, t', r') ->
  is_ok (HandleTable.entry t r h) = false
  /\ HandleTable.entry t' r' h = Ok (Capability.mk o rights)
  /\ ObjectRegistry.refs r' o = ObjectRegistry.refs r o + 1
  /\ (forall h' c, HandleTable.entry t r h' = Ok c -> HandleTable.entry t' r' h' = Ok c).
Proof.
  intros Ht Hr Hins. unfold HandleTable.insert in Hins.
  pose proof (retain_wf r o Hr) as Hwf'.
  destruct (ObjectRegistry.retain r o) as [[[]|] r1] eqn:Hret; [|done]. simpl in Hwf'.
  apply refs_retain in Hret as (_&Hsame&Hother).
  destruct (HandleTable.install_capability t o rights) as [[]] eqn:E; simplify_eq.
  eapply install_capability_Ok in E as (i&s&Hi&[Hfree _]&_&Hsl&Hg&->); [|done].
  pose proof (table_wf_slot _ _ _ Ht Hi) as [? _].
  assert (forall x, 0 < ObjectRegistry.refs r x -> 0 < ObjectRegistry.refs r' x) as Hmono.
  { intros x ?. destruct (decide (x = o)) as [->|]; [lia|]. by rewrite Hother. }
  split_and!; [|..|done|].
  - destruct (HandleTable.entry t r h) eqn:E; [|done].
    apply entry_Ok in E as (j&u&(->&Hu&_)%table_slot_Ok&Hc&_).
    rewrite Hsl, Nat2N.id in Hu. by simplify_eq.
  - apply entry_Ok. exists i, (HandleSlot.mk (HandleSlot.generation s)
      (Some (Capability.mk o rights))). split_and!; [|done|].
    + apply table_slot_Ok. rewrite Hsl, Nat2N.id, Hg; simpl.
      rewrite list_lookup_insert_eq by (by eapply lookup_lt_Some). split_and!; try done. lia.
    + simpl. apply validate_refs; [done|]. lia.
  - intros h' c (j&u&(->&Hu&?&?)%table_slot_Ok&Hc&Hv)%entry_Ok.
    apply entry_Ok. exists (N.to_nat (Handle.slot h')), u. split_and!; [|done|].
    + apply table_slot_Ok; simpl. split_and!; try done.
      rewrite list_lookup_insert_ne; [done|]. intros ->. by simplify_eq.
    + apply validate_refs; [done|]. apply Hmono. by apply validate_refs.
Qed.
End properties.

(** ** Witnesses *)

Module HandlesExample.
Definition r0 := ObjectRegistry.new 2.
Definition o0 := ObjectId.mk 0 1 ObjectKind.Vmo.
Definition r1 := (ObjectRegistry.create r0 ObjectKind.Vmo).2.
Definition rw := Rights.bitor (Rights.bitor Rights.READ Rights.WRITE) Rights.TRANSFER.
Definition t0 := HandleTable.new 2.
Definition t1 := (HandleTable.insert t0 r1 o0 rw).1.2.
Definition r2 := (HandleTable.insert t0 r1 o0 rw).2.
Definition h0 := Handle.new 0 1.
Definition t2 := (HandleTable.close t1 r2 h0).1.2.
Definition moved := (HandleTable.begin_move t1 r2 h0 Rights.READ).2.
Definition token := TransferToken.mk (Capability.mk o0 Rights.READ).
Definition u1 := (HandleTable.install_token t0 r2 (Some token)).1.2.

Lemma t0_wf : HandleTable.wf t0.
Proof. by apply table_new_wf. Qed.

Lemma t1_wf : HandleTable.wf t1.
Proof. apply insert_wf, t0_wf. Qed.

Lemma r1_wf : ObjectRegistry.wf r1.
Proof. apply create_wf. by apply registry_new_wf. Qed.

Lemma stale_handle_never_resolves_witness :
  is_ok (HandleTable.resolve
    (HandleTable.run_ops t2 [HandleTable.Insert r2 o0 Rights.READ]) r2 h0) = false.
Proof.
  apply (stale_handle_never_resolves t1 h0); [exact t1_wf|].
  left. exists r2, (HandleTable.close t1 r2 h0).2. vm_compute. reflexivity.
Defined.

Lemma released_object_never_validates_witness :
  is_ok (ObjectRegistry.validate
    (ObjectRegistry.run_ops (ObjectRegistry.release r1 o0).2
       [ObjectRegistry.Create ObjectKind.Vmo]) o0 ObjectKind.Vmo) = false.
Proof.
  apply (released_object_never_validates r1 o0); [exact r1_wf|vm_compute; reflexivity..].
Defined.

Lemma reference_counts_exact_witness :
  Flow.accounted (fun o => same o0 o)
    (Flow.run_ops (Flow.mk t0 r1 [])
       [Flow.Insert o0 rw; Flow.BeginMove h0 Rights.READ; Flow.InstallToken 0]).
Proof.
  apply (reference_counts_exact (fun o => same o0 o) (Flow.mk t0 r1 [])).
  split_and!; [exact t0_wf|exact r1_wf|]. intros o.
  change (ObjectRegistry.refs r1 o = same o0 o).
  edestruct (refs_create r0 ObjectKind.Vmo o0 r1) as (_&H1&H2); [by apply registry_new_wf|done|].
  unfold same. case_decide; subst; [by rewrite H1|]. rewrite H2 by done.
  unfold ObjectRegistry.refs, ObjectRegistry.object_slot. simpl.
  case_decide; [done|]. by destruct (N.to_nat (ObjectId.slot o)) as [|[|n]]; simpl;
    rewrite ?decide_True by auto.
Defined.

Lemma move_attenuates_rights_witness :
  exists c, HandleTable.entry t1 r2 h0 = Ok c
    /\ bits_subset (Rights.bits Rights.TRANSFER) (Rights.bits (Capability.rights c))
    /\ bits_subset (Rights.bits Rights.READ) (Rights.bits (Capability.rights c))
    /\ is_ok (HandleTable.entry moved r2 h0) = false
    /\ None = @None TransferToken.t
    /\ HandleTable.entry u1 r2 h0 = Ok (Capability.mk (Capability.object c) Rights.READ).
Proof.
  apply (move_attenuates_rights t1 r2 h0 Rights.READ token moved t0 h0 u1 None);
    [exact t1_wf|exact t0_wf|vm_compute; reflexivity..].
Defined.

Lemma insert_entry_roundtrip_witness :
  is_ok (HandleTable.entry t0 r1 h0) = false
  /\ HandleTable.entry t1 r2 h0 = Ok (Capability.mk o0 rw)
  /\ ObjectRegistry.refs r2 o0 = ObjectRegistry.refs r1 o0 + 1
  /\ (forall h' c, HandleTable.entry t0 r1 h' = Ok c -> HandleTable.entry t1 r2 h' = Ok c).
Proof.
  apply (insert_entry_roundtrip t0 r1 o0 rw h0 t1 r2);
    [exact t0_wf|exact r1_wf|vm_compute; reflexivity].
Defined.
End HandlesExample.
