(* ===== verification/WaitRegistry.v ===== *)
(** * The wait registry (kernel/src/ipc.rs, signals to [WaitRegistry])

    A bounded table of wait registrations and a bounded table of pending
    wake-ups.  [WaitRegistry.notify] turns the registrations of every waiter
    interested in an object's signals into one wake-up each. *)

From stdpp Require Import prelude.
From S2P Require Import Prelude Handles.

Local Open Scope N_scope.
Local Open Scope nagi_scope.

Definition MAX_WAIT_ITEMS : nat := 8.
Definition MAX_WAIT_WAKEUPS : nat := MAX_WAIT_ITEMS.

Module Signals.
Record t := mk { bits : N }.

#[global] Instance eq_dec : EqDecision t.
Proof. solve_decision. Defined.

Definition READABLE := mk 1.
Definition WRITABLE := mk 2.
Definition PEER_CLOSED := mk 4.
Definition SIGNALED := mk 8.
Definition FIRED := mk 16.

Definition empty := mk 0.

Definition intersects (self other : t) : bool :=
  bool_decide (N.land (bits self) (bits other) <> 0).

Definition bitor (self rhs : t) : t := mk (N.lor (bits self) (bits rhs)).
End Signals.

Module WaitOutcome.
Record t := mk { index : nat; observed : Signals.t }.
End WaitOutcome.

Module WaitError.
Inductive t := Empty | TooMany | Blocked | Invalid | Stale | WrongType | RightsMissing.

#[global] Instance eq_dec : EqDecision t.
Proof. solve_decision. Defined.

Definition from (error : HandleError.t) : t :=
  match error with
  | HandleError.RightsMissing => RightsMissing
  | HandleError.WrongType => WrongType
  | HandleError.Invalid | HandleError.ObjectTableFull => Invalid
  | _ => Stale
  end.
End WaitError.

Module WaiterState.
Inductive t := Runnable | Blocked.
End WaiterState.

Module Waiter.
Record t := mk {
  id : N;
  epoch : N;
  state : WaiterState.t;
  wake : option WaitOutcome.t
}.

Definition new (id : N) : t := mk id 0 WaiterState.Runnable None.

Definition is_runnable (self : t) : bool :=
  match state self with WaiterState.Runnable => true | WaiterState.Blocked => false end.

Definition take_outcome (self : t) : option WaitOutcome.t * t :=
  (wake self, mk (id self) (epoch self) (state self) None).

Definition set_state (self : t) (s : WaiterState.t) : t :=
  mk (id self) (epoch self) s (wake self).
End Waiter.

Module WaitRegistration.
Record t := mk {
  waiter_id : N;
  epoch : N;
  object : ObjectId.t;
  interests : Signals.t;
  index : nat
}.
End WaitRegistration.

Module WaitWake.
Record t := mk { waiter_id : N; epoch : N; outcome : WaitOutcome.t }.
End WaitWake.

Module WokenWaiters.
Record t := mk { ids : list N; length : nat }.

Definition new : t := mk (replicate MAX_WAIT_WAKEUPS 0) 0.

Definition iter (self : t) : list N := take (length self) (ids self).
End WokenWaiters.

Module WaitRegistry.
Record t := mk {
  registrations : list (option WaitRegistration.t);
  wakeups : list (option WaitWake.t)
}.

Definition new : t := mk (replicate MAX_WAIT_ITEMS None) (replicate MAX_WAIT_WAKEUPS None).

(** A waiter at one of its epochs. *)
Definition key : Type := N * N.
Definition registration_key (r : WaitRegistration.t) : key :=
  (WaitRegistration.waiter_id r, WaitRegistration.epoch r).
Definition wake_key (w : WaitWake.t) : key := (WaitWake.waiter_id w, WaitWake.epoch w).

(** [registration.object == object && registration.interests.intersects(signals)] *)
Definition matches (object : ObjectId.t) (signals : Signals.t) (r : WaitRegistration.t) : Prop :=
  WaitRegistration.object r = object
  /\ Signals.intersects (WaitRegistration.interests r) signals = true.

#[global] Instance matches_dec o s r : Decision (matches o s r).
Proof. unfold matches. apply _. Defined.

(** [entry.is_some_and(|entry| key of entry == k)] is what a loop clears. *)
Definition clear_if {A} (p : A -> bool) (entries : list (option A)) : list (option A) :=
  (fun entry => match entry with
                | Some a => if p a then None else Some a
                | None => None
                end) <$> entries.

Definition has_key {A} (keyof : A -> key) (k : key) (a : A) : bool := bool_decide (keyof a = k).

(** [self.wakeups.iter().flatten().any(..)] *)
Definition already_queued (self : t) (k : key) : bool :=
  bool_decide (Exists (fun e => wake_key <$> e = Some k) (wakeups self)).

(** The [while] loop of [notify]; [None] is running out of fuel. *)
Fixpoint notify_loop (fuel : nat) (self : t) (object : ObjectId.t) (signals : Signals.t)
  (registration_index : nat) (notified : bool) : option (bool * t) :=
  match fuel with
  | O => None
  | S fuel =>
      match registrations self !! registration_index with
      | None => Some (notified, self)
      | Some None => notify_loop fuel self object signals (S registration_index) notified
      | Some (Some registration) =>
          if decide (~ matches object signals registration)
          then notify_loop fuel self object signals (S registration_index) notified
          else
            let k := registration_key registration in
            let cleared := clear_if (has_key registration_key k) (registrations self) in
            if already_queued self k then
              notify_loop fuel (mk cleared (wakeups self)) object signals 0 notified
            else
              match list_find (fun wake => wake = None) (wakeups self) with
              | None => notify_loop fuel self object signals (S registration_index) notified
              | Some (slot, _) =>
                  let wake :=
                    WaitWake.mk (WaitRegistration.waiter_id registration)
                      (WaitRegistration.epoch registration)
                      (WaitOutcome.mk (WaitRegistration.index registration) signals) in
                  notify_loop fuel (mk cleared (<[slot := Some wake]> (wakeups self)))
                    object signals 0 true
              end
      end
  end.

Definition occupied_entries {A} (l : list (option A)) : nat := count_of is_Some l.

(** Every restart of the scan clears a registration, and a scan passes each
    entry once. *)
Definition notify_fuel (self : t) : nat :=
  S (S (occupied_entries (registrations self)) * S (length (registrations self))).

Definition notify (self : t) (object : ObjectId.t) (signals : Signals.t) : bool * t :=
  match notify_loop (notify_fuel self) self object signals 0 false with
  | Some result => result
  | None => (false, self)
  end.

Definition clear_for_waiter (self : t) (waiter_id : N) : t :=
  mk (clear_if (fun r => bool_decide (WaitRegistration.waiter_id r = waiter_id))
        (registrations self)) (wakeups self).

Definition clear_wakeup_for_waiter (self : t) (waiter_id : N) : t :=
  mk (registrations self)
     (clear_if (fun w => bool_decide (WaitWake.waiter_id w = waiter_id)) (wakeups self)).

Definition cancel (self : t) (waiter : Waiter.t) : t :=
  mk (clear_if (has_key registration_key (Waiter.id waiter, Waiter.epoch waiter))
        (registrations self)) (wakeups self).

Definition cancel_waiter (self : t) (waiter_id : N) : t :=
  clear_wakeup_for_waiter (clear_for_waiter self waiter_id) waiter_id.

(** [self.registrations.iter().filter(is_some).count() + self.wakeups...] *)
Definition occupied (self : t) : nat :=
  occupied_entries (registrations self) + occupied_entries (wakeups self).

(** The [for (index, item) in items.iter().enumerate()] loop of [register],
    from position [index]; an item is the object and the interests it names. *)
Fixpoint register_items (self : t) (waiter : Waiter.t)
  (items : list (ObjectId.t * Signals.t)) (index : nat) : Result unit WaitError.t * t :=
  match items with
  | [] => (Ok tt, self)
  | (object, interests) :: items =>
      match list_find (fun slot => slot = None) (registrations self) with
      | None => (Err WaitError.TooMany, clear_for_waiter self (Waiter.id waiter))
      | Some (slot, _) =>
          register_items
            (mk (<[slot := Some (WaitRegistration.mk (Waiter.id waiter) (Waiter.epoch waiter)
                                   object interests index)]> (registrations self))
                (wakeups self)) waiter items (S index)
      end
  end.

Definition register (self : t) (waiter : Waiter.t) (items : list (ObjectId.t * Signals.t))
  : Result unit WaitError.t * t * Waiter.t :=
  let self := clear_for_waiter self (Waiter.id waiter) in
  let self := clear_wakeup_for_waiter self (Waiter.id waiter) in
  if decide (MAX_WAIT_WAKEUPS < occupied self + length items)%nat
  then (Err WaitError.TooMany, self, waiter)
  else
    let waiter := Waiter.mk (Waiter.id waiter) (u64_wrapping_add (Waiter.epoch waiter) 1)
                    (Waiter.state waiter) (Waiter.wake waiter) in
    match register_items self waiter items 0 with
    | (Err e, self) => (Err e, self, waiter)
    | (Ok _, self) => (Ok tt, self, Waiter.set_state waiter WaiterState.Blocked)
    end.

(** The loop of [take_woken_waiters] over the taken wake-ups. *)
Fixpoint take_woken_loop (wakes : list (option WaitWake.t)) (woken : WokenWaiters.t)
  : Exec WokenWaiters.t :=
  match wakes with
  | [] => Ret woken
  | None :: wakes => take_woken_loop wakes woken
  | Some wakeup :: wakes =>
      if decide (WaitWake.waiter_id wakeup ∈ WokenWaiters.iter woken)
      then take_woken_loop wakes woken
      else
        let! ids := store (WokenWaiters.ids woken) (WokenWaiters.length woken)
                      (WaitWake.waiter_id wakeup) in
        take_woken_loop wakes (WokenWaiters.mk ids (S (WokenWaiters.length woken)))
  end.

Definition take_woken_waiters (self : t) : Exec (WokenWaiters.t * t) :=
  let! woken := take_woken_loop (wakeups self) WokenWaiters.new in
  Ret (woken, mk (registrations self) (const None <$> wakeups self)).

(** [Waiter::sync] *)
Definition sync (self : t) (waiter : Waiter.t) : bool * Waiter.t * t :=
  match list_find (fun e => wake_key <$> e = Some (Waiter.id waiter, Waiter.epoch waiter))
          (wakeups self) with
  | None => (false, waiter, self)
  | Some (index, wake) =>
      (true,
       Waiter.mk (Waiter.id waiter) (Waiter.epoch waiter) WaiterState.Runnable
         (WaitWake.outcome <$> wake),
       mk (registrations self) (<[index := None]> (wakeups self)))
  end.

(** The capacity invariant: the arrays have their declared lengths and every
    registration still has a wake-up slot to turn into. *)
Definition wf (self : t) : Prop :=
  length (registrations self) = MAX_WAIT_ITEMS
  /\ length (wakeups self) = MAX_WAIT_WAKEUPS
  /\ (occupied self <= MAX_WAIT_WAKEUPS)%nat.

Definition registered (self : t) (r : WaitRegistration.t) : Prop :=
  Some r ∈ registrations self.

Definition queued (self : t) (w : WaitWake.t) : Prop := Some w ∈ wakeups self.

(** The operations, as a language of requests. *)
Inductive op :=
| Notify (object : ObjectId.t) (signals : Signals.t)
| Register (waiter : Waiter.t) (items : list (ObjectId.t * Signals.t))
| Cancel (waiter : Waiter.t)
| CancelWaiter (waiter_id : N)
| TakeWoken
| Sync (waiter : Waiter.t).

Definition run_op (self : t) (x : op) : Exec t :=
  match x with
  | Notify o s => Ret (notify self o s).2
  | Register w items => Ret (register self w items).1.2
  | Cancel w => Ret (cancel self w)
  | CancelWaiter id => Ret (cancel_waiter self id)
  | TakeWoken => let! (_, self) := take_woken_waiters self in Ret self
  | Sync w => Ret (sync self w).2
  end.

Fixpoint run_ops (self : t) (xs : list op) : Exec t :=
  match xs with
  | [] => Ret self
  | x :: xs => let! self := run_op self x in run_ops self xs
  end.

(** No waiter has two pending wake-ups for one epoch. *)
Definition wakes_distinct (self : t) : Prop :=
  forall i j w w', wakeups self !! i = Some (Some w) -> wakeups self !! j = Some (Some w') ->
    wake_key w = wake_key w' -> i = j.

(** The scan of [notify] has found nothing to do before position [i]. *)
Definition scanned (object : ObjectId.t) (signals : Signals.t) (self : t) (i : nat) : Prop :=
  forall j r, (j < i)%nat -> registrations self !! j = Some (Some r) -> ~ matches object signals r.

(** What [notify object signals] makes of a registry. *)
Record notified_from (object : ObjectId.t) (signals : Signals.t) (before after : t) : Prop := {
  (* the registrations of the waiters that matched are gone, the others stay *)
  nf_registered r :
    registered after r <->
    registered before r /\
    (forall r', registered before r' -> matches object signals r' ->
                registration_key r' <> registration_key r);
  (* no wake-up is lost *)
  nf_queued_before w : queued before w -> queued after w;
  nf_woken r :
    registered before r -> matches object signals r ->
    exists w, queued after w /\ wake_key w = registration_key r;
  (* no wake-up is spurious *)
  nf_justified w :
    queued after w ->
    queued before w \/
    exists r, registered before r /\ matches object signals r /\
      wake_key w = registration_key r /\
      WaitWake.outcome w = WaitOutcome.mk (WaitRegistration.index r) signals;
  nf_distinct : wakes_distinct before -> wakes_distinct after
}.
End WaitRegistry.

(** ** Theory *)

Section clear_if.
Import WaitRegistry.
Context {A : Type} (p : A -> bool).
Implicit Types (l : list (option A)) (a : A).

Lemma lookup_clear_if l i a :
  clear_if p l !! i = Some (Some a) <-> l !! i = Some (Some a) /\ p a = false.
Proof.
  unfold clear_if. rewrite list_lookup_fmap. destruct (l !! i) as [[b|]|]; simpl; [|naive_solver..].
  destruct (p b) eqn:E; naive_solver congruence.
Qed.

Lemma elem_of_clear_if l a : Some a ∈ clear_if p l <-> Some a ∈ l /\ p a = false.
Proof.
  rewrite !list_elem_of_lookup. setoid_rewrite lookup_clear_if. naive_solver.
Qed.

Lemma length_clear_if l : length (clear_if p l) = length l.
Proof. apply length_fmap. Qed.

Lemma occupied_cons (e : option A) l :
  occupied_entries (e :: l) = ((if e is Some _ then 1 else 0) + occupied_entries l)%nat.
Proof.
  unfold occupied_entries. rewrite count_of_cons. case_decide as H; destruct e; try done.
  destruct H. eauto.
Qed.

Lemma occupied_clear_if_le l : (occupied_entries (clear_if p l) <= occupied_entries l)%nat.
Proof.
  induction l as [|[a|] l IH]; [done|simpl; rewrite !occupied_cons..].
  - destruct (p a); lia.
  - done.
Qed.

Lemma occupied_clear_if_lt l a :
  Some a ∈ l -> p a = true -> (occupied_entries (clear_if p l) < occupied_entries l)%nat.
Proof.
  induction l as [|e l IH]; [by intros ?%not_elem_of_nil|].
  intros [<-|Hin]%elem_of_cons Hp; simpl; rewrite !occupied_cons.
  - rewrite Hp. pose proof (occupied_clear_if_le l). lia.
  - specialize (IH Hin Hp). destruct e as [b|]; [destruct (p b)|]; lia.
Qed.

End clear_if.

Section occupied.
Import WaitRegistry.
Context {A : Type}.
Implicit Types (l : list (option A)).

Lemma occupied_insert_Some l i a :
  l !! i = Some None ->
  occupied_entries (<[i := Some a]> l) = S (occupied_entries l).
Proof.
  intros Hi. pose proof (count_of_insert is_Some l i None (Some a) Hi) as H.
  rewrite decide_False in H by (by intros [? ?]). rewrite decide_True in H by eauto.
  unfold occupied_entries. lia.
Qed.

Lemma occupied_le_length l : (occupied_entries l <= length l)%nat.
Proof. apply count_of_le_length. Qed.

Lemma occupied_free l :
  (occupied_entries l < length l)%nat ->
  exists i, list_find (fun e => e = None) l = Some (i, None).
Proof.
  intros Hlt. destruct (list_find _ l) as [[i e]|] eqn:E.
  - pose proof (list_find_holds _ _ _ _ E) as He. simpl in He. subst. eauto.
  - apply list_find_None in E. exfalso.
    enough (occupied_entries l = length l) by lia. clear Hlt.
    induction l as [|[a|] l IH]; [done|..]; apply Forall_cons in E as [? ?].
    + rewrite occupied_cons. simpl. auto.
    + done.
Qed.
End occupied.

Lemma elem_of_insert_Some {A} (l : list (option A)) i a b :
  l !! i = Some None -> Some b ∈ <[i := Some a]> l <-> b = a \/ Some b ∈ l.
Proof.
  intros Hi. rewrite !list_elem_of_lookup. split.
  - intros [j Hj]. destruct (decide (i = j)) as [->|].
    + rewrite list_lookup_insert_eq in Hj by (by eapply lookup_lt_Some). naive_solver.
    + rewrite list_lookup_insert_ne in Hj by done. eauto.
  - intros [->|[j Hj]].
    + exists i. apply list_lookup_insert_eq. by eapply lookup_lt_Some.
    + exists j. rewrite list_lookup_insert_ne; [done|]. intros ->. by simplify_eq.
Qed.

Section notify.
Import WaitRegistry.
Implicit Types (self : WaitRegistry.t) (o : ObjectId.t) (s : Signals.t)
  (r : WaitRegistration.t) (w : WaitWake.t).

Lemma already_queued_spec self k :
  already_queued self k = true <-> exists w, queued self w /\ wake_key w = k.
Proof.
  unfold already_queued, queued. rewrite bool_decide_eq_true, Exists_exists. split.
  - intros ([w|]&?&?); simplify_eq/=. eauto.
  - intros (w&?&<-). exists (Some w). by split.
Qed.

(** Handling one waiter, then the rest. *)
Lemma notified_from_step o s self self1 after r0 :
  registered self r0 -> matches o s r0 ->
  registrations self1 =
    clear_if (has_key registration_key (registration_key r0)) (registrations self) ->
  (forall w, queued self w -> queued self1 w) ->
  (exists w, queued self1 w /\ wake_key w = registration_key r0) ->
  (forall w, queued self1 w -> queued self w \/
     wake_key w = registration_key r0 /\
     WaitWake.outcome w = WaitOutcome.mk (WaitRegistration.index r0) s) ->
  (wakes_distinct self -> wakes_distinct self1) ->
  notified_from o s self1 after -> notified_from o s self after.
Proof.
  intros Hr0 Hm Hregs Hkeep (w0&Hw0&Hk0) Hnew Hdist [R Q W J D].
  assert (forall r, registered self1 r <->
    registered self r /\ registration_key r <> registration_key r0) as Hreg1.
  { intros r. unfold registered. rewrite Hregs, elem_of_clear_if. unfold has_key.
    by rewrite bool_decide_eq_false. }
  split.
  - intros r. rewrite R. setoid_rewrite Hreg1. split.
    + intros ((Hr&Hne)&Hall). split; [done|]. intros r' Hr' Hm'.
      destruct (decide (registration_key r' = registration_key r0)); [congruence|]. eauto.
    + intros (Hr&Hall). pose proof (Hall r0 Hr0 Hm).
      split; [split; [done|congruence]|]. intros r' [? _] ?. auto.
  - auto.
  - intros r Hr Hmr. destruct (decide (registration_key r = registration_key r0)) as [->|].
    + eauto.
    + apply W; [|done]. by apply Hreg1.
  - intros w Hw. destruct (J w Hw) as [Hw1|(r&Hr&Hmr&?&?)].
    + destruct (Hnew w Hw1) as [?|[? ?]]; [by left|]. right. eauto.
    + right. apply Hreg1 in Hr as [? _]. eauto.
  - auto.
Qed.

Lemma wakes_distinct_insert self i w regs :
  wakeups self !! i = Some None -> already_queued self (wake_key w) = false ->
  wakes_distinct self -> wakes_distinct (mk regs (<[i := Some w]> (wakeups self))).
Proof.
  intros Hi Hnq Hd j1 j2 w1 w2; simpl.
  assert (forall j v, wakeups self !! j = Some (Some v) -> wake_key v <> wake_key w) as Hne.
  { intros j v Hj Hk. apply not_true_iff_false in Hnq. destruct Hnq.
    apply already_queued_spec. exists v. split; [|done]. by eapply list_elem_of_lookup_2. }
  rewrite !list_lookup_insert. intros H1 H2 Hk.
  repeat case_decide; destruct_and?; simplify_eq; try done.
  all: first [eapply Hd; [done..|unfold wake_key; congruence]
             |exfalso; eapply Hne; [done|unfold wake_key; congruence]].
Qed.

Lemma scanned_S o s self i :
  scanned o s self i ->
  (forall r, registrations self !! i = Some (Some r) -> ~ matches o s r) ->
  scanned o s self (S i).
Proof.
  intros Hs Hi j r Hj Hr. destruct (decide (j = i)) as [->|]; [by apply Hi|].
  eapply Hs; [|done]. lia.
Qed.

Lemma scanned_all o s self i :
  scanned o s self i -> (length (registrations self) <= i)%nat -> notified_from o s self self.
Proof.
  intros Hs Hi.
  assert (forall r, registered self r -> ~ matches o s r) as Hnone.
  { intros r [j Hj]%list_elem_of_lookup. eapply Hs; [|done]. apply lookup_lt_Some in Hj. lia. }
  split; [|auto|by intros r ? []%Hnone|auto|done].
  intros r. split; [|by intros []]. intros ?. split; [done|]. by intros r' Hr' []%Hnone.
Qed.

(** Queueing a wake-up for [r] and clearing its waiter is one step. *)
Lemma notified_from_queue o s self after r slot :
  registered self r -> matches o s r -> wakeups self !! slot = Some None ->
  already_queued self (registration_key r) = false ->
  notified_from o s
    (mk (clear_if (has_key registration_key (registration_key r)) (registrations self))
        (<[slot := Some (WaitWake.mk (WaitRegistration.waiter_id r) (WaitRegistration.epoch r)
                           (WaitOutcome.mk (WaitRegistration.index r) s))]> (wakeups self)))
    after ->
  notified_from o s self after.
Proof.
  intros Hreg Hm Hslot Hq. set (w := WaitWake.mk _ _ _).
  apply (notified_from_step o s self _ after r); auto; unfold queued; simpl.
  - intros w' ?. apply elem_of_insert_Some; auto.
  - exists w. split; [apply elem_of_insert_Some; auto|done].
  - intros w' [->|?]%elem_of_insert_Some; auto.
  - intros. by apply wakes_distinct_insert.
Qed.

(** The loop of [notify] ends, and does what [notified_from] says. *)
Lemma notify_loop_spec o s fuel self i notified :
  wf self -> (i <= length (registrations self))%nat -> scanned o s self i ->
  (occupied_entries (registrations self) * S (length (registrations self))
     + (length (registrations self) - i) < fuel)%nat ->
  exists b after, notify_loop fuel self o s i notified = Some (b, after)
    /\ wf after /\ notified_from o s self after.
Proof.
  revert self i notified. induction fuel as [|fuel IH]; intros self i notified Hwf Hi Hpre Hf; [lia|].
  pose proof Hwf as (Hlr&Hlw&Hocc). simpl.
  destruct (registrations self !! i) as [[r|]|] eqn:Hri; last first.
  { apply lookup_ge_None in Hri. exists notified, self. eauto using scanned_all. }
  { apply lookup_lt_Some in Hri as ?. apply IH; [done|lia| |lia].
    apply scanned_S; [done|]. congruence. }
  case_decide as Hm.
  { apply lookup_lt_Some in Hri as ?. apply IH; [done|lia| |lia].
    apply scanned_S; [done|]. congruence. }
  assert (registered self r) as Hreg by (by eapply list_elem_of_lookup_2).
  set (p := has_key registration_key (registration_key r)).
  assert (p r = true) as Hk by (by apply bool_decide_eq_true).
  pose proof (occupied_clear_if_lt p _ _ Hreg Hk) as Hlt.
  pose proof (length_clear_if p (registrations self)) as Hlen.
  set (cleared := clear_if p (registrations self)) in *.
  destruct (already_queued self (registration_key r)) eqn:Hq.
  - destruct (IH (mk cleared (wakeups self)) 0%nat notified) as (b&after&Hrun&Hwf'&Hnf);
      [|simpl; lia|by intros ? ? ?%Nat.nlt_0_r|simpl; rewrite Hlen; nia|].
    { split_and!; simpl; [by rewrite Hlen|done|]. unfold occupied in *; simpl. lia. }
    exists b, after. split_and!; [done..|].
    apply (notified_from_step o s self (mk cleared (wakeups self)) after r); auto.
    by apply already_queued_spec in Hq.
  - destruct (occupied_free (wakeups self)) as [slot Hslot].
    { unfold occupied in Hocc. unfold MAX_WAIT_WAKEUPS, MAX_WAIT_ITEMS in *. lia. }
    rewrite Hslot. apply list_find_lookup in Hslot.
    set (w := WaitWake.mk _ _ _).
    destruct (IH (mk cleared (<[slot := Some w]> (wakeups self))) 0%nat true)
      as (b&after&Hrun&Hwf'&Hnf);
      [|simpl; lia|by intros ? ? ?%Nat.nlt_0_r|simpl; rewrite Hlen; nia|].
    { split_and!; simpl; [by rewrite Hlen|by rewrite length_insert|].
      unfold occupied in *; simpl. rewrite occupied_insert_Some by done. lia. }
    exists b, after. split_and!; [done..|]. by eapply notified_from_queue.
Qed.

Lemma notify_spec o s self :
  wf self ->
  exists b after, notify_loop (notify_fuel self) self o s 0 false = Some (b, after)
    /\ notify self o s = (b, after) /\ wf after /\ notified_from o s self after.
Proof.
  intros Hwf. destruct (notify_loop_spec o s (notify_fuel self) self 0 false)
    as (b&after&Hrun&?&?); [done|lia|by intros ? ? ?%Nat.nlt_0_r|unfold notify_fuel; lia|].
  exists b, after. split_and!; [done| |done|done]. unfold notify. by rewrite Hrun.
Qed.

Lemma notify_wf o s self : wf self -> wf (notify self o s).2.
Proof. intros Hwf. by destruct (notify_spec o s self Hwf) as (?&?&_&->&?&_). Qed.
End notify.

Section registry_ops.
Import WaitRegistry.
Implicit Types (self : WaitRegistry.t) (waiter : Waiter.t).

Lemma clear_registrations_wf self p :
  wf self -> wf (mk (clear_if p (registrations self)) (wakeups self)).
Proof.
  intros (?&?&?). pose proof (occupied_clear_if_le p (registrations self)).
  split_and!; simpl; [by rewrite length_clear_if|done|]. unfold occupied in *; simpl. lia.
Qed.

Lemma clear_wakeups_wf self p :
  wf self -> wf (mk (registrations self) (clear_if p (wakeups self))).
Proof.
  intros (?&?&?). pose proof (occupied_clear_if_le p (wakeups self)).
  split_and!; simpl; [done|by rewrite length_clear_if|]. unfold occupied in *; simpl. lia.
Qed.

Lemma wait_new_wf : wf new.
Proof. split_and!; vm_compute; [done..|]. lia. Qed.

Lemma cancel_waiter_wf self id : wf self -> wf (cancel_waiter self id).
Proof. intros. by apply clear_wakeups_wf, clear_registrations_wf. Qed.

(** The registrations the loop of [register] adds. *)
Lemma register_items_spec self waiter items k :
  length (registrations self) = MAX_WAIT_ITEMS ->
  (occupied_entries (registrations self) + length items <= MAX_WAIT_ITEMS)%nat ->
  exists self', register_items self waiter items k = (Ok tt, self')
    /\ wakeups self' = wakeups self
    /\ length (registrations self') = MAX_WAIT_ITEMS
    /\ occupied_entries (registrations self')
       = (occupied_entries (registrations self) + length items)%nat
    /\ forall r, registered self' r <-> registered self r \/
         exists j o s, items !! j = Some (o, s) /\
           r = WaitRegistration.mk (Waiter.id waiter) (Waiter.epoch waiter) o s (k + j).
Proof.
  revert self k. induction items as [|[o s] items IH]; intros self k Hlen Hocc; simpl in *.
  { exists self. split_and!; try done. intros r. split; [by left|].
    intros [?|(j&?&?&?&_)]; [done|]. by destruct j. }
  destruct (occupied_free (registrations self)) as [slot Hslot]; [lia|]. rewrite Hslot.
  apply list_find_lookup in Hslot.
  set (r0 := WaitRegistration.mk _ _ _ _ _).
  destruct (IH (mk (<[slot := Some r0]> (registrations self)) (wakeups self)) (S k))
    as (self'&Hrun&Hw&Hl&Ho&Hr); simpl;
    [by rewrite length_insert|rewrite occupied_insert_Some by done; lia|].
  exists self'. split_and!; [done..| |].
  - rewrite Ho; simpl. rewrite occupied_insert_Some by done. lia.
  - intros r. rewrite Hr. unfold registered; simpl. rewrite elem_of_insert_Some by done. split.
    + intros [[->|?]|(j&o'&s'&?&->)]; [right|by left|right].
      * exists 0%nat, o, s. split; [done|]. subst r0. f_equal. lia.
      * exists (S j), o', s'. split; [done|]. f_equal. lia.
    + intros [?|([|j]&o'&s'&?&->)]; [by auto|..].
      * left; left. simplify_eq/=. subst r0. f_equal. lia.
      * right. exists j, o', s'. split; [done|]. f_equal. lia.
Qed.

(** What a successful registration leaves: one registration per item and
    nothing older of this waiter; the other waiters are untouched. *)
Lemma register_spec self waiter items res self' waiter' :
  wf self -> register self waiter items = (res, self', waiter') ->
  wf self' /\ Waiter.id waiter' = Waiter.id waiter /\
  (forall r, WaitRegistration.waiter_id r <> Waiter.id waiter ->
     registered self' r <-> registered self r) /\
  (forall w, queued self' w <-> queued self w /\ WaitWake.waiter_id w <> Waiter.id waiter) /\
  match res with
  | Err e => e = WaitError.TooMany /\ waiter' = waiter
  | Ok _ =>
      Waiter.state waiter' = WaiterState.Blocked
      /\ Waiter.epoch waiter' = u64_wrapping_add (Waiter.epoch waiter) 1
      /\ forall r, WaitRegistration.waiter_id r = Waiter.id waiter ->
         registered self' r <-> exists j o s, items !! j = Some (o, s) /\
           r = WaitRegistration.mk (Waiter.id waiter') (Waiter.epoch waiter') o s j
  end.
Proof.
  intros Hwf Hrun. unfold register in Hrun. cbv zeta in Hrun.
  pose proof (cancel_waiter_wf self (Waiter.id waiter) Hwf) as Hwf1.
  change (clear_wakeup_for_waiter _ _) with (cancel_waiter self (Waiter.id waiter)) in Hrun.
  set (self1 := cancel_waiter self (Waiter.id waiter)) in *.
  assert (forall r, registered self1 r <->
    registered self r /\ WaitRegistration.waiter_id r <> Waiter.id waiter) as Hreg1.
  { intros r. unfold registered; simpl. by rewrite elem_of_clear_if, bool_decide_eq_false. }
  assert (forall w, queued self1 w <->
    queued self w /\ WaitWake.waiter_id w <> Waiter.id waiter) as Hq1.
  { intros w. unfold queued; simpl. by rewrite elem_of_clear_if, bool_decide_eq_false. }
  case_decide as Hocc.
  { simplify_eq. split_and!; try done. intros r ?. rewrite Hreg1. naive_solver. }
  destruct Hwf1 as (Hl&Hlw&_). unfold occupied in Hocc.
  set (waiter1 := Waiter.mk _ _ _ _) in Hrun.
  destruct (register_items_spec self1 waiter1 items 0) as (self2&Hitems&Hw&Hl2&Ho&Hr2);
    [done|unfold MAX_WAIT_WAKEUPS in Hocc; lia|].
  rewrite Hitems in Hrun. simplify_eq/=.
  split_and!; try done.
  - split_and!; [done|by rewrite Hw|]. unfold occupied. rewrite Ho, Hw. lia.
  - intros r Hne. rewrite Hr2, Hreg1. split; [|naive_solver].
    intros [[? _]|(j&o&s&_&->)]; [done|]. by destruct Hne.
  - intros w. unfold queued. rewrite Hw. apply Hq1.
  - intros r Hid. rewrite Hr2, Hreg1. simpl. naive_solver.
Qed.

(** The loop of [take_woken_waiters] stays inside its array and collects every
    waiter once. *)
Lemma take_woken_loop_spec wakes woken :
  length (WokenWaiters.ids woken) = MAX_WAIT_WAKEUPS ->
  (WokenWaiters.length woken + length wakes <= MAX_WAIT_WAKEUPS)%nat ->
  NoDup (WokenWaiters.iter woken) ->
  exists woken', take_woken_loop wakes woken = Ret woken'
    /\ NoDup (WokenWaiters.iter woken')
    /\ forall id, id ∈ WokenWaiters.iter woken' <->
         id ∈ WokenWaiters.iter woken \/ exists w, Some w ∈ wakes /\ WaitWake.waiter_id w = id.
Proof.
  revert woken. induction wakes as [|[w|] wakes IH]; intros woken Hlen Hle Hnd; simpl in *.
  - exists woken. split_and!; [done..|]. intros id. split; [by left|].
    intros [?|(w&[]%not_elem_of_nil&_)]. done.
  - case_decide as Hin.
    + destruct (IH woken) as (woken'&?&?&Hids); [done|lia|done|]. exists woken'.
      split_and!; [done..|]. intros id. rewrite Hids. setoid_rewrite elem_of_cons. naive_solver.
    + unfold store. rewrite decide_True by (unfold MAX_WAIT_WAKEUPS, MAX_WAIT_ITEMS in *; lia).
      set (woken1 := WokenWaiters.mk _ _).
      assert (WokenWaiters.iter woken1 = WokenWaiters.iter woken ++ [WaitWake.waiter_id w]) as Hit.
      { apply take_insert_end. unfold MAX_WAIT_WAKEUPS, MAX_WAIT_ITEMS in *. lia. }
      destruct (IH woken1) as (woken'&?&?&Hids); [by subst woken1; simpl; rewrite length_insert
        |simpl; lia|rewrite Hit; apply NoDup_app; split_and!; [done|set_solver|apply NoDup_singleton]|].
      exists woken'. split_and!; [done..|]. intros id. rewrite Hids, Hit. set_solver.
  - destruct (IH woken) as (woken'&?&?&Hids); [done|lia|done|]. exists woken'.
    split_and!; [done..|]. intros id. rewrite Hids. setoid_rewrite elem_of_cons. naive_solver.
Qed.

Lemma cleared_wakeups_wf self :
  wf self -> wf (mk (registrations self) (const None <$> wakeups self)).
Proof.
  intros (?&?&?). split_and!; simpl; [done|by rewrite length_fmap|].
  unfold occupied in *; simpl.
  enough (occupied_entries (const None <$> wakeups self : list (option WaitWake.t)) = 0%nat) by lia.
  apply count_of_zero, Forall_fmap, Forall_true. by intros ? [? ?].
Qed.

Lemma take_woken_spec self :
  wf self ->
  exists woken, take_woken_waiters self =
    Ret (woken, mk (registrations self) (const None <$> wakeups self))
    /\ NoDup (WokenWaiters.iter woken)
    /\ forall id, id ∈ WokenWaiters.iter woken <->
         exists w, queued self w /\ WaitWake.waiter_id w = id.
Proof.
  intros (_&Hlw&_). destruct (take_woken_loop_spec (wakeups self) WokenWaiters.new)
    as (woken&Hrun&?&Hids); [done|simpl; lia|constructor|].
  exists woken. unfold take_woken_waiters. rewrite Hrun. split_and!; [done..|].
  intros id. rewrite Hids. unfold WokenWaiters.iter at 1; simpl.
  split; [|by right]. intros [[]%not_elem_of_nil|?]. done.
Qed.

Lemma sync_wf self waiter : wf self -> wf (sync self waiter).2.
Proof.
  intros (?&?&?). unfold sync. destruct (list_find _ _) as [[i e]|] eqn:E; [simpl|done].
  pose proof (list_find_lookup _ _ _ _ E) as Hi.
  pose proof (count_of_insert is_Some (wakeups self) i e None Hi) as Hc.
  rewrite (decide_False (P := is_Some None)) in Hc by (by intros [? ?]).
  split_and!; simpl; [done|by rewrite length_insert|].
  unfold occupied, occupied_entries in *; simpl. lia.
Qed.

Lemma register_wf self waiter items : wf self -> wf (register self waiter items).1.2.
Proof.
  intros Hwf. destruct (register self waiter items) as [[res self'] waiter'] eqn:E.
  by eapply register_spec in E as [? _].
Qed.

Lemma wait_run_op_total self x : wf self -> exists self', run_op self x = Ret self' /\ wf self'.
Proof.
  intros Hwf. destruct x as [o s|w items|w|id| |w]; simpl.
  - eauto using notify_wf.
  - eauto using register_wf.
  - eexists; split; [done|]. by apply clear_registrations_wf.
  - eauto using cancel_waiter_wf.
  - destruct (take_woken_spec self Hwf) as (woken&->&_). eauto using cleared_wakeups_wf.
  - eauto using sync_wf.
Qed.
End registry_ops.

#[export] Hint Resolve notify_wf cancel_waiter_wf register_wf sync_wf wait_new_wf : nagi.

(** ** Properties *)

(** The registry stays within its two arrays.  From an empty registry every
    sequence of notifications, registrations, cancellations, syncs and
    collections runs without a panic, and afterwards each registration still
    has a free wake-up slot to turn into. *)
Theorem wait_registry_capacity xs :
  exists self, WaitRegistry.run_ops WaitRegistry.new xs = Ret self /\ WaitRegistry.wf self.
Proof.
  generalize wait_new_wf. generalize WaitRegistry.new.
  induction xs as [|x xs IH]; intros self Hwf; simpl; [eauto|].
  destruct (wait_run_op_total self x Hwf) as (self'&->&?). auto.
Qed.

(** No lost and no spurious wake-ups.  On a well-formed registry the scan of
    [notify] ends; every waiter with a registration for the object and signals
    then has a wake-up queued and no registration left, every other registration
    and every wake-up queued before is kept, a new wake-up carries the index of a
    matching registration and the signals, and no waiter has two wake-ups. *)
Theorem notify_no_lost_wakeups self object signals :
  WaitRegistry.wf self ->
  exists notified after,
    WaitRegistry.notify_loop (WaitRegistry.notify_fuel self) self object signals 0 false
      = Some (notified, after)
    /\ WaitRegistry.notify self object signals = (notified, after)
    /\ WaitRegistry.notified_from object signals self after.
Proof.
  intros Hwf. destruct (notify_spec object signals self Hwf) as (b&after&?&?&_&?). eauto.
Qed.

(** Collecting the wake-ups returns every woken waiter exactly once, never
    overruns the result array, and leaves no wake-up behind. *)
Theorem take_woken_exact self :
  WaitRegistry.wf self ->
  exists woken after, WaitRegistry.take_woken_waiters self = Ret (woken, after)
    /\ NoDup (WokenWaiters.iter woken)
    /\ (forall id, id ∈ WokenWaiters.iter woken <->
          exists w, WaitRegistry.queued self w /\ WaitWake.waiter_id w = id)
    /\ (forall w, ~ WaitRegistry.queued after w)
    /\ WaitRegistry.registrations after = WaitRegistry.registrations self.
Proof.
  intros Hwf. destruct (take_woken_spec self Hwf) as (woken&?&?&?).
  exists woken, (WaitRegistry.mk (WaitRegistry.registrations self)
                   (const None <$> WaitRegistry.wakeups self)).
  split_and!; [done..| |done]. intros w. unfold WaitRegistry.queued; simpl.
  by intros (?&?&_)%list_elem_of_fmap.
Qed.

(** ** Witnesses *)

Module WaitExample.
Definition event := ObjectId.mk 3 1 ObjectKind.Event.
Definition waiter := Waiter.new 7.
Definition armed :=
  (WaitRegistry.register WaitRegistry.new waiter [(event, Signals.SIGNALED)]).1.2.

Lemma armed_wf : WaitRegistry.wf armed.
Proof. apply register_wf, wait_new_wf. Qed.

Lemma notify_no_lost_wakeups_witness :
  WaitRegistry.registered armed (WaitRegistration.mk 7 1 event Signals.SIGNALED 0)
  /\ exists notified after,
    WaitRegistry.notify_loop (WaitRegistry.notify_fuel armed) armed event Signals.SIGNALED 0 false
      = Some (notified, after)
    /\ WaitRegistry.notify armed event Signals.SIGNALED = (notified, after)
    /\ WaitRegistry.notified_from event Signals.SIGNALED armed after.
Proof.
  split; [left|]. apply (notify_no_lost_wakeups armed event Signals.SIGNALED armed_wf).
Defined.

Definition woken := (WaitRegistry.notify armed event Signals.SIGNALED).2.

Lemma take_woken_exact_witness :
  exists w after, WaitRegistry.take_woken_waiters woken = Ret (w, after)
    /\ NoDup (WokenWaiters.iter w)
    /\ (forall id, id ∈ WokenWaiters.iter w <->
          exists x, WaitRegistry.queued woken x /\ WaitWake.waiter_id x = id)
    /\ (forall x, ~ WaitRegistry.queued after x)
    /\ WaitRegistry.registrations after = WaitRegistry.registrations woken.
Proof. apply (take_woken_exact woken). apply notify_wf, armed_wf. Defined.
End WaitExample.
