(* ===== verification/Channel.v ===== *)
(** * Channels (kernel/src/ipc.rs, [ChannelError] to [ChannelPair])

    Outgoing and received messages, the ring buffer [Queue], and the channel
    pair that moves a message and the capabilities it carries from one process
    to another through escrowed transfer tokens. *)

From stdpp Require Import prelude.
From S2P Require Import Prelude Handles WaitRegistry.

Local Open Scope N_scope.
Local Open Scope nagi_scope.

Definition MAX_QUEUE : nat := 8.
Definition MAX_INLINE_PAYLOAD : nat := 128.
Definition MAX_TRANSFER_HANDLES : nat := 4.

Module ChannelError.
Inductive t :=
| InvalidEndpoint | Stale | RightsMissing | QueueFull | Empty | MessageTooLarge
| TooManyTransfers | DuplicateTransfer | ReceiverFull | ObjectStale.

#[global] Instance eq_dec : EqDecision t.
Proof. solve_decision. Defined.

Definition from (error : HandleError.t) : t :=
  match error with
  | HandleError.Stale | HandleError.Closed | HandleError.Invalid => Stale
  | HandleError.WrongType => InvalidEndpoint
  | HandleError.RightsMissing => RightsMissing
  | HandleError.TableFull | HandleError.ReceiverFull => ReceiverFull
  | _ => ObjectStale
  end.
End ChannelError.

Module MessageHeader.
Record t := mk {
  protocol_id : N;
  version : N;
  request_id : N;
  opcode : N;
  flags : N
}.
End MessageHeader.

Module HandleDisposition.
Record t := mk { source : Handle.t; rights : Rights.t }.
End HandleDisposition.

Module OutgoingMessage.
Record t := mk {
  header : MessageHeader.t;
  payload : list N;
  payload_len : nat;
  transfers : list (option HandleDisposition.t);
  transfer_count : nat
}.

Definition new (header : MessageHeader.t) : t :=
  mk header (replicate MAX_INLINE_PAYLOAD 0) 0 (replicate MAX_TRANSFER_HANDLES None) 0.

Definition set_payload (self : t) (bytes : list N) : Result unit ChannelError.t * t :=
  if decide (MAX_INLINE_PAYLOAD < length bytes)%nat
  then (Err ChannelError.MessageTooLarge, self)
  else (Ok tt, mk (header self) (bytes ++ drop (length bytes) (payload self)) (length bytes)
                 (transfers self) (transfer_count self)).

Definition add_transfer (self : t) (source : Handle.t) (rights : Rights.t)
  : Result unit ChannelError.t * t :=
  match transfers self !! transfer_count self with
  | None => (Err ChannelError.TooManyTransfers, self)
  | Some _ =>
      (Ok tt, mk (header self) (payload self) (payload_len self)
                (<[transfer_count self := Some (HandleDisposition.mk source rights)]>
                   (transfers self))
                (S (transfer_count self)))
  end.

(** The dispositions a message carries. *)
Definition dispositions (self : t) : list HandleDisposition.t :=
  omap id (take (transfer_count self) (transfers self)).

(** What [new], [set_payload] and [add_transfer] maintain: [ds] are the
    dispositions added, in order. *)
Definition carries (self : t) (ds : list HandleDisposition.t) : Prop :=
  length (payload self) = MAX_INLINE_PAYLOAD
  /\ (payload_len self <= MAX_INLINE_PAYLOAD)%nat
  /\ transfer_count self = length ds
  /\ transfers self = padded MAX_TRANSFER_HANDLES ds
  /\ (length ds <= MAX_TRANSFER_HANDLES)%nat
  /\ Forall (fun d => Handle.raw (HandleDisposition.source d) <= U64_MAX) ds.
End OutgoingMessage.

Module ReceivedMessage.
Record t := mk {
  sender_process_id : N;
  header : MessageHeader.t;
  payload_bytes : list N;
  payload_len : nat;
  handles : list (option Handle.t);
  handle_count : nat
}.

Definition payload (self : t) : Exec (list N) := slice_to (payload_bytes self) (payload_len self).

Definition handle (self : t) (index : nat) : option Handle.t :=
  mjoin (handles self !! index).
End ReceivedMessage.

Module QueuedMessage.
Record t := mk {
  sender_process_id : N;
  header : MessageHeader.t;
  payload : list N;
  payload_len : nat;
  tokens : list (option TransferToken.t);
  token_count : nat
}.

Definition set_tokens (self : t) (toks : list (option TransferToken.t)) : t :=
  mk (sender_process_id self) (header self) (payload self) (payload_len self) toks
     (token_count self).

(** The message holds exactly the tokens [toks]. *)
Definition escrows (self : t) (toks : list TransferToken.t) : Prop :=
  length (payload self) = MAX_INLINE_PAYLOAD
  /\ (payload_len self <= MAX_INLINE_PAYLOAD)%nat
  /\ token_count self = length toks
  /\ (length toks <= MAX_TRANSFER_HANDLES)%nat
  /\ tokens self = padded MAX_TRANSFER_HANDLES toks.

(** The tokens in escrow in a message. *)
Definition escrow (self : t) : list TransferToken.t := omap id (tokens self).
End QueuedMessage.

Module Queue.
Record t := mk {
  entries : list (option QueuedMessage.t);
  head : nat;
  tail : nat;
  length : nat
}.

Definition new : t := mk (replicate MAX_QUEUE None) 0 0 0.

Definition push (self : t) (message : QueuedMessage.t)
  : Exec (Result unit ChannelError.t * t) :=
  if decide (length self = MAX_QUEUE) then Ret (Err ChannelError.QueueFull, self)
  else
    let! entries := store (entries self) (tail self) (Some message) in
    Ret (Ok tt, mk entries (head self) ((tail self + 1) mod MAX_QUEUE)%nat (length self + 1)%nat).

Definition peek (self : t) : Exec (option QueuedMessage.t) := index (entries self) (head self).

(** [token_mut] as a read of the slot it borrows ... *)
Definition token_mut (self : t) (i : nat) : Exec (option (option TransferToken.t)) :=
  let! entry := index (entries self) (head self) in
  Ret (match entry with
       | None => None
       | Some message => QueuedMessage.tokens message !! i
       end).

(** ... and as a write through the borrow. *)
Definition set_token (self : t) (i : nat) (token : option TransferToken.t) : t :=
  mk (alter (fmap (fun message =>
        QueuedMessage.set_tokens message (<[i := token]> (QueuedMessage.tokens message))))
        (head self) (entries self))
     (head self) (tail self) (length self).

Definition pop (self : t) : Exec (option QueuedMessage.t * t) :=
  let! entry := index (entries self) (head self) in
  match entry with
  | None => Ret (None, self)
  | Some message =>
      if decide (length self = 0)%nat then Panic
      else
        Ret (Some message,
             mk (<[head self := None]> (entries self)) ((head self + 1) mod MAX_QUEUE)%nat
                (tail self) (length self - 1)%nat)
  end.

Definition is_readable (self : t) : bool := bool_decide (length self <> 0%nat).

(** The ring buffer [self] holds the messages [ms], oldest first. *)
Definition represents (self : t) (ms : list QueuedMessage.t) : Prop :=
  List.length (entries self) = MAX_QUEUE
  /\ (head self < MAX_QUEUE)%nat
  /\ length self = List.length ms
  /\ (List.length ms <= MAX_QUEUE)%nat
  /\ tail self = ((head self + List.length ms) mod MAX_QUEUE)%nat
  /\ forall i, (i < MAX_QUEUE)%nat ->
       entries self !! ((head self + i) mod MAX_QUEUE)%nat = Some (ms !! i).

(** The operations, and the bounded FIFO they are to implement. *)
Inductive op := Push (message : QueuedMessage.t) | Pop | Peek.

Inductive answer :=
| Pushed (result : Result unit ChannelError.t)
| Popped (message : option QueuedMessage.t)
| Peeked (message : option QueuedMessage.t).

Definition run_op (self : t) (x : op) : Exec (answer * t) :=
  match x with
  | Push m => let! (r, self) := push self m in Ret (Pushed r, self)
  | Pop => let! (m, self) := pop self in Ret (Popped m, self)
  | Peek => let! m := peek self in Ret (Peeked m, self)
  end.

Fixpoint run_ops (self : t) (xs : list op) : Exec (list answer * t) :=
  match xs with
  | [] => Ret ([], self)
  | x :: xs =>
      let! (a, self) := run_op self x in
      let! (l, self) := run_ops self xs in
      Ret (a :: l, self)
  end.

Definition fifo_op (ms : list QueuedMessage.t) (x : op) : answer * list QueuedMessage.t :=
  match x with
  | Push m =>
      if decide (List.length ms = MAX_QUEUE) then (Pushed (Err ChannelError.QueueFull), ms)
      else (Pushed (Ok tt), ms ++ [m])
  | Pop => (Popped (List.head ms), List.tl ms)
  | Peek => (Peeked (List.head ms), ms)
  end.

Fixpoint fifo_ops (ms : list QueuedMessage.t) (xs : list op)
  : list answer * list QueuedMessage.t :=
  match xs with
  | [] => ([], ms)
  | x :: xs =>
      let '(a, ms) := fifo_op ms x in
      let '(l, ms) := fifo_ops ms xs in
      (a :: l, ms)
  end.
End Queue.

Module ChannelPair.
Record t := mk {
  object : ObjectId.t;
  endpoint_a : ObjectId.t;
  endpoint_b : ObjectId.t;
  queues : list Queue.t
}.

Definition set_queues (self : t) (qs : list Queue.t) : t :=
  mk (object self) (endpoint_a self) (endpoint_b self) qs.

Definition new (object endpoint_a endpoint_b : ObjectId.t) : Result t ChannelError.t :=
  if decide (ObjectId.kind object <> ObjectKind.Channel
             \/ ObjectId.kind endpoint_a <> ObjectKind.ChannelEndpoint
             \/ ObjectId.kind endpoint_b <> ObjectKind.ChannelEndpoint
             \/ endpoint_a = endpoint_b)
  then Err ChannelError.InvalidEndpoint
  else Ok (mk object endpoint_a endpoint_b [Queue.new; Queue.new]).

Definition install_endpoints (self : t) (registry : ObjectRegistry.t)
  (process_a process_b : Process.t) (rights : Rights.t)
  : Result (Handle.t * Handle.t) ChannelError.t * ObjectRegistry.t * Process.t * Process.t :=
  match HandleTable.insert (Process.handles process_a) registry (endpoint_a self) rights with
  | (Err e, ta, registry) =>
      (Err (ChannelError.from e), registry, Process.set_handles process_a ta, process_b)
  | (Ok a, ta, registry) =>
      match HandleTable.insert (Process.handles process_b) registry (endpoint_b self) rights with
      | (Ok b, tb, registry) =>
          (Ok (a, b), registry, Process.set_handles process_a ta, Process.set_handles process_b tb)
      | (Err error, tb, registry) =>
          match HandleTable.close ta registry a with
          | (Err e, ta, registry) =>
              (Err (ChannelError.from e), registry, Process.set_handles process_a ta,
               Process.set_handles process_b tb)
          | (Ok _, ta, registry) =>
              (Err (ChannelError.from error), registry, Process.set_handles process_a ta,
               Process.set_handles process_b tb)
          end
      end
  end.

Definition object_id (self : t) : ObjectId.t := object self.

(** [for token in ..iter().flatten() { if let Err(error) = registry.release(..) }] *)
Fixpoint release_tokens (tokens : list (option TransferToken.t)) (registry : ObjectRegistry.t)
  (first_error : option ChannelError.t) : option ChannelError.t * ObjectRegistry.t :=
  match tokens with
  | [] => (first_error, registry)
  | None :: tokens => release_tokens tokens registry first_error
  | Some token :: tokens =>
      match ObjectRegistry.release registry
              (Capability.object (TransferToken.capability token)) with
      | (Ok _, registry) => release_tokens tokens registry first_error
      | (Err error, registry) =>
          release_tokens tokens registry
            (match first_error with
             | None => Some (ChannelError.from error)
             | Some _ => first_error
             end)
      end
  end.

(** [while let Some(message) = queue.pop()]; [None] is running out of fuel. *)
Fixpoint drain_queue (fuel : nat) (queue : Queue.t) (registry : ObjectRegistry.t)
  (first_error : option ChannelError.t)
  : option (Exec (option ChannelError.t * Queue.t * ObjectRegistry.t)) :=
  match fuel with
  | O => None
  | S fuel =>
      match Queue.pop queue with
      | Panic => Some Panic
      | Ret (None, queue) => Some (Ret (first_error, queue, registry))
      | Ret (Some message, queue) =>
          match slice_to (QueuedMessage.tokens message) (QueuedMessage.token_count message) with
          | Panic => Some Panic
          | Ret tokens =>
              let '(first_error, registry) := release_tokens tokens registry first_error in
              drain_queue fuel queue registry first_error
          end
      end
  end.

Fixpoint drain_queues (qs : list Queue.t) (registry : ObjectRegistry.t)
  (first_error : option ChannelError.t)
  : option (Exec (option ChannelError.t * list Queue.t * ObjectRegistry.t)) :=
  match qs with
  | [] => Some (Ret (first_error, [], registry))
  | queue :: qs =>
      match drain_queue (S (Queue.length queue)) queue registry first_error with
      | None => None
      | Some Panic => Some Panic
      | Some (Ret (first_error, queue, registry)) =>
          match drain_queues qs registry first_error with
          | None => None
          | Some Panic => Some Panic
          | Some (Ret (first_error, qs, registry)) =>
              Some (Ret (first_error, queue :: qs, registry))
          end
      end
  end.

Definition drain (self : t) (registry : ObjectRegistry.t)
  : option (Exec (Result unit ChannelError.t * t * ObjectRegistry.t)) :=
  match drain_queues (queues self) registry None with
  | None => None
  | Some Panic => Some Panic
  | Some (Ret (first_error, qs, registry)) =>
      Some (Ret (match first_error with None => Ok tt | Some e => Err e end,
                 set_queues self qs, registry))
  end.

Fixpoint visit_messages {S} (entries : list (option QueuedMessage.t))
  (visitor : S -> ObjectId.t -> S) (s : S) : Exec S :=
  match entries with
  | [] => Ret s
  | None :: entries => visit_messages entries visitor s
  | Some queued :: entries =>
      let! tokens := slice_to (QueuedMessage.tokens queued) (QueuedMessage.token_count queued) in
      visit_messages entries visitor
        (foldl (fun s token => visitor s (Capability.object (TransferToken.capability token)))
           s (omap id tokens))
  end.

Definition visit_escrow_objects {S} (self : t) (visitor : S -> ObjectId.t -> S) (s : S) : Exec S :=
  visit_messages (queues self ≫= Queue.entries) visitor s.

Definition queue_for_sender (self : t) (endpoint : ObjectId.t) : Result nat ChannelError.t :=
  if decide (endpoint = endpoint_a self) then Ok 0%nat
  else if decide (endpoint = endpoint_b self) then Ok 1%nat
  else Err ChannelError.InvalidEndpoint.

Definition queue_for_receiver (self : t) (endpoint : ObjectId.t) : Result nat ChannelError.t :=
  if decide (endpoint = endpoint_a self) then Ok 1%nat
  else if decide (endpoint = endpoint_b self) then Ok 0%nat
  else Err ChannelError.InvalidEndpoint.

(** The inner loop [for later in 0..first] of [send]. *)
Fixpoint check_duplicates (transfers : list (option HandleDisposition.t)) (source : Handle.t)
  (laters : list nat) : Exec (Result unit ChannelError.t) :=
  match laters with
  | [] => Ret (Ok tt)
  | later :: laters =>
      let! entry := index transfers later in
      match entry with
      | None => Ret (Err ChannelError.ObjectStale)
      | Some later_disposition =>
          if decide (source = HandleDisposition.source later_disposition)
          then Ret (Err ChannelError.DuplicateTransfer)
          else check_duplicates transfers source laters
      end
  end.

(** The loop [for first in 0..message.transfer_count] of [send]. *)
Fixpoint check_transfers (table : HandleTable.t) (registry : ObjectRegistry.t)
  (transfers : list (option HandleDisposition.t)) (firsts : list nat)
  : Exec (Result unit ChannelError.t) :=
  match firsts with
  | [] => Ret (Ok tt)
  | first :: firsts =>
      let! entry := index transfers first in
      match entry with
      | None => Ret (Err ChannelError.ObjectStale)
      | Some d =>
          let! duplicates := check_duplicates transfers (HandleDisposition.source d) (seq 0 first) in
          match duplicates with
          | Err e => Ret (Err e)
          | Ok _ =>
              match HandleTable.check_move table registry (HandleDisposition.source d)
                      (HandleDisposition.rights d) with
              | Err e => Ret (Err (ChannelError.from e))
              | Ok _ => check_transfers table registry transfers firsts
              end
          end
      end
  end.

(** The loop [for index in 0..message.transfer_count] of [send]. *)
Fixpoint move_transfers (table : HandleTable.t) (registry : ObjectRegistry.t)
  (transfers : list (option HandleDisposition.t)) (tokens : list (option TransferToken.t))
  (indices : list nat)
  : Exec (Result (list (option TransferToken.t)) ChannelError.t * HandleTable.t) :=
  match indices with
  | [] => Ret (Ok tokens, table)
  | i :: indices =>
      let! entry := index transfers i in
      match entry with
      | None => Ret (Err ChannelError.ObjectStale, table)
      | Some d =>
          match HandleTable.begin_move table registry (HandleDisposition.source d)
                  (HandleDisposition.rights d) with
          | (Err e, table) => Ret (Err (ChannelError.from e), table)
          | (Ok token, table) =>
              let! tokens := store tokens i (Some token) in
              move_transfers table registry transfers tokens indices
          end
      end
  end.

Definition receiver_endpoint (self : t) (endpoint_object : ObjectId.t) : ObjectId.t :=
  if decide (endpoint_object = endpoint_a self) then endpoint_b self else endpoint_a self.

Definition send (self : t) (registry : ObjectRegistry.t) (sender : Process.t)
  (endpoint : Handle.t) (message : OutgoingMessage.t) (waiters : WaitRegistry.t)
  : Exec (Result unit ChannelError.t * t * Process.t * WaitRegistry.t) :=
  match HandleTable.require (Process.handles sender) registry endpoint
          ObjectKind.ChannelEndpoint Rights.WRITE with
  | Err e => Ret (Err (ChannelError.from e), self, sender, waiters)
  | Ok endpoint_object =>
  match queue_for_sender self endpoint_object with
  | Err e => Ret (Err e, self, sender, waiters)
  | Ok queue_index =>
  let! queue := index (queues self) queue_index in
  if decide (Queue.length queue = MAX_QUEUE)
  then Ret (Err ChannelError.QueueFull, self, sender, waiters)
  else
  let transfers := OutgoingMessage.transfers message in
  let count := OutgoingMessage.transfer_count message in
  let! checked := check_transfers (Process.handles sender) registry transfers (seq 0 count) in
  match checked with
  | Err e => Ret (Err e, self, sender, waiters)
  | Ok _ =>
  let! (moved, table) := move_transfers (Process.handles sender) registry transfers
                           (replicate MAX_TRANSFER_HANDLES None) (seq 0 count) in
  let sender := Process.set_handles sender table in
  match moved with
  | Err e => Ret (Err e, self, sender, waiters)
  | Ok tokens =>
  let queued := QueuedMessage.mk (Process.id sender) (OutgoingMessage.header message)
                  (OutgoingMessage.payload message) (OutgoingMessage.payload_len message)
                  tokens count in
  let! (result, queue) := Queue.push queue queued in
  let! qs := store (queues self) queue_index queue in
  Ret (result, set_queues self qs, sender,
       if is_ok result
       then (WaitRegistry.notify waiters (receiver_endpoint self endpoint_object)
               Signals.READABLE).2
       else waiters)
  end
  end
  end
  end.

(** The loop of [rollback_receive] over [handles.iter_mut().enumerate().take(count)];
    the array itself is a local of [receive] that is dropped afterwards. *)
Fixpoint rollback_handles (table : HandleTable.t) (queue : Queue.t)
  (handles : list (option Handle.t)) (i : nat)
  : Exec (Result unit ChannelError.t * HandleTable.t * Queue.t) :=
  match handles with
  | [] => Ret (Ok tt, table, queue)
  | None :: handles => rollback_handles table queue handles (S i)
  | Some handle :: handles =>
      let! token_slot := Queue.token_mut queue i in
      match token_slot with
      | None | Some (Some _) => Ret (Err ChannelError.ObjectStale, table, queue)
      | Some None =>
          match HandleTable.rollback_install table handle with
          | (None, table) => Ret (Err ChannelError.ObjectStale, table, queue)
          | (Some token, table) =>
              rollback_handles table (Queue.set_token queue i (Some token)) handles (S i)
          end
      end
  end.

Definition rollback_receive (table : HandleTable.t) (queue : Queue.t)
  (handles : list (option Handle.t)) (count : nat)
  : Exec (Result unit ChannelError.t * HandleTable.t * Queue.t) :=
  rollback_handles table queue (take count handles) 0.

(** [self.rollback_receive(..)?; return Err(error)] *)
Definition roll_back_with {T} (table : HandleTable.t) (queue : Queue.t)
  (handles : list (option Handle.t)) (count : nat) (error : ChannelError.t)
  : Exec (Result T ChannelError.t * HandleTable.t * Queue.t) :=
  let! (result, table, queue) := rollback_receive table queue handles count in
  Ret (match result with Ok _ => Err error | Err e => Err e end, table, queue).

(** The validation loop of [receive]. *)
Fixpoint validate_tokens (registry : ObjectRegistry.t) (tokens : list (option TransferToken.t))
  : Result unit ChannelError.t :=
  match tokens with
  | [] => Ok tt
  | None :: tokens => validate_tokens registry tokens
  | Some token :: tokens =>
      let object := Capability.object (TransferToken.capability token) in
      match ObjectRegistry.validate registry object (ObjectId.kind object) with
      | Err e => Err (ChannelError.from e)
      | Ok _ => validate_tokens registry tokens
      end
  end.

(** The loop [for index in 0..token_count] of [receive]. *)
Fixpoint install_tokens (table : HandleTable.t) (registry : ObjectRegistry.t) (queue : Queue.t)
  (handles : list (option Handle.t)) (indices : list nat)
  : Exec (Result (list (option Handle.t)) ChannelError.t * HandleTable.t * Queue.t) :=
  match indices with
  | [] => Ret (Ok handles, table, queue)
  | i :: indices =>
      let! peeked := Queue.peek queue in
      let! missing := match peeked with
                      | None => Ret true
                      | Some queued =>
                          let! token := index (QueuedMessage.tokens queued) i in
                          Ret (bool_decide (token = None))
                      end in
      if missing then roll_back_with table queue handles i ChannelError.ObjectStale
      else
        let! slot := Queue.token_mut queue i in
        match slot with
        | None => Panic
        | Some token_slot =>
            match HandleTable.install_token table registry token_slot with
            | (Ok handle, table, token) =>
                let! handles := store handles i (Some handle) in
                install_tokens table registry (Queue.set_token queue i token) handles indices
            | (Err error, table, token) =>
                roll_back_with table (Queue.set_token queue i token) handles i
                  (ChannelError.from error)
            end
        end
  end.

Definition receive (self : t) (registry : ObjectRegistry.t) (receiver : Process.t)
  (endpoint : Handle.t)
  : Exec (Result (option ReceivedMessage.t) ChannelError.t * t * Process.t) :=
  match HandleTable.require (Process.handles receiver) registry endpoint
          ObjectKind.ChannelEndpoint Rights.READ with
  | Err e => Ret (Err (ChannelError.from e), self, receiver)
  | Ok endpoint_object =>
  match queue_for_receiver self endpoint_object with
  | Err e => Ret (Err e, self, receiver)
  | Ok queue_index =>
  let! queue := index (queues self) queue_index in
  let! peeked := Queue.peek queue in
  match peeked with
  | None => Ret (Ok None, self, receiver)
  | Some queued =>
  let token_count := QueuedMessage.token_count queued in
  if negb (HandleTable.has_capacity (Process.handles receiver) token_count)
  then Ret (Err ChannelError.ReceiverFull, self, receiver)
  else
  let! tokens := slice_to (QueuedMessage.tokens queued) token_count in
  match validate_tokens registry tokens with
  | Err e => Ret (Err e, self, receiver)
  | Ok _ =>
  let! (installed, table, queue) :=
    install_tokens (Process.handles receiver) registry queue
      (replicate MAX_TRANSFER_HANDLES None) (seq 0 token_count) in
  let finish result table queue :=
    let! qs := store (queues self) queue_index queue in
    Ret (result, set_queues self qs, Process.set_handles receiver table) in
  match installed with
  | Err e => finish (Err e) table queue
  | Ok handles =>
  let! (popped, queue) := Queue.pop queue in
  match popped with
  | None =>
      let! (result, table, queue) :=
        roll_back_with table queue handles token_count ChannelError.Empty in
      finish result table queue
  | Some _ =>
      finish
        (Ok (Some (ReceivedMessage.mk (QueuedMessage.sender_process_id queued)
                     (QueuedMessage.header queued) (QueuedMessage.payload queued)
                     (QueuedMessage.payload_len queued) handles token_count)))
        table queue
  end
  end
  end
  end
  end
  end.

Definition readiness (self : t) (endpoint : ObjectId.t) : Exec (Result Signals.t ChannelError.t) :=
  match queue_for_receiver self endpoint with
  | Err e => Ret (Err e)
  | Ok queue_index =>
      let! queue := index (queues self) queue_index in
      Ret (Ok (if Queue.is_readable queue
               then Signals.bitor Signals.WRITABLE Signals.READABLE
               else Signals.WRITABLE))
  end.

(** The pair is well formed and its queues hold the messages [ms0] (sent by
    endpoint a) and [ms1] (sent by endpoint b). *)
Definition holds_messages (self : t) (ms0 ms1 : list QueuedMessage.t) : Prop :=
  ObjectId.kind (endpoint_a self) = ObjectKind.ChannelEndpoint
  /\ ObjectId.kind (endpoint_b self) = ObjectKind.ChannelEndpoint
  /\ endpoint_a self <> endpoint_b self
  /\ (exists q0 q1, queues self = [q0; q1]
        /\ Queue.represents q0 ms0 /\ Queue.represents q1 ms1)
  /\ Forall (fun m => exists toks, QueuedMessage.escrows m toks) (ms0 ++ ms1).

(** The tokens in escrow in a list of messages. *)
Definition escrow_of (ms : list QueuedMessage.t) : list TransferToken.t :=
  ms ≫= QueuedMessage.escrow.
End ChannelPair.

(** ** Two processes on a channel *)

Module ChannelSystem.
Record t := mk {
  process_a : Process.t;
  process_b : Process.t;
  registry : ObjectRegistry.t;
  channel : ChannelPair.t;
  waiters : WaitRegistry.t
}.

(** A message as its sender composes it. *)
Fixpoint add_transfers (message : OutgoingMessage.t) (ds : list HandleDisposition.t)
  : Result OutgoingMessage.t ChannelError.t :=
  match ds with
  | [] => Ok message
  | d :: ds =>
      match OutgoingMessage.add_transfer message (HandleDisposition.source d)
              (HandleDisposition.rights d) with
      | (Err e, _) => Err e
      | (Ok _, message) => add_transfers message ds
      end
  end.

Definition compose (header : MessageHeader.t) (payload : list N)
  (ds : list HandleDisposition.t) : Result OutgoingMessage.t ChannelError.t :=
  match OutgoingMessage.set_payload (OutgoingMessage.new header) payload with
  | (Err e, _) => Err e
  | (Ok _, message) => add_transfers message ds
  end.

Inductive who := A | B.

Definition process (self : t) (w : who) : Process.t :=
  match w with A => process_a self | B => process_b self end.

Definition set_process (self : t) (w : who) (p : Process.t) : t :=
  match w with
  | A => mk p (process_b self) (registry self) (channel self) (waiters self)
  | B => mk (process_a self) p (registry self) (channel self) (waiters self)
  end.

Definition set_registry (self : t) (r : ObjectRegistry.t) : t :=
  mk (process_a self) (process_b self) r (channel self) (waiters self).

Definition set_channel (self : t) (c : ChannelPair.t) : t :=
  mk (process_a self) (process_b self) (registry self) c (waiters self).

Definition set_waiters (self : t) (w : WaitRegistry.t) : t :=
  mk (process_a self) (process_b self) (registry self) (channel self) w.

Inductive op :=
| Send (w : who) (endpoint : Handle.t) (header : MessageHeader.t) (payload : list N)
    (ds : list HandleDisposition.t)
| Receive (w : who) (endpoint : Handle.t)
| InstallEndpoints (rights : Rights.t)
| Close (w : who) (handle : Handle.t)
| Exit (w : who)
| Drain.

(** A [Handle] is a [u64]. *)
Definition op_ok (x : op) : Prop :=
  match x with
  | Send _ _ _ _ ds => Forall (fun d => Handle.raw (HandleDisposition.source d) <= U64_MAX) ds
  | _ => True
  end.

Definition run_op (self : t) (x : op) : Exec t :=
  match x with
  | Send w endpoint header payload ds =>
      match compose header payload ds with
      | Err _ => Ret self
      | Ok message =>
          let! (_, c, p, ws) := ChannelPair.send (channel self) (registry self) (process self w)
                                  endpoint message (waiters self) in
          Ret (set_waiters (set_channel (set_process self w p) c) ws)
      end
  | Receive w endpoint =>
      let! (_, c, p) := ChannelPair.receive (channel self) (registry self) (process self w)
                          endpoint in
      Ret (set_channel (set_process self w p) c)
  | InstallEndpoints rights =>
      let '(_, r, pa, pb) := ChannelPair.install_endpoints (channel self) (registry self)
                               (process_a self) (process_b self) rights in
      Ret (set_registry (set_process (set_process self A pa) B pb) r)
  | Close w handle =>
      let '(_, table, r) := HandleTable.close (Process.handles (process self w)) (registry self)
                              handle in
      Ret (set_registry (set_process self w (Process.set_handles (process self w) table)) r)
  | Exit w =>
      let '(table, r) := HandleTable.close_all (Process.handles (process self w))
                           (registry self) in
      Ret (set_registry (set_process self w (Process.set_handles (process self w) table)) r)
  | Drain =>
      match ChannelPair.drain (channel self) (registry self) with
      | Some (Ret (_, c, r)) => Ret (set_registry (set_channel self c) r)
      | Some Panic | None => Panic
      end
  end.

Fixpoint run_ops (self : t) (xs : list op) : Exec t :=
  match xs with
  | [] => Ret self
  | x :: xs => let! self := run_op self x in run_ops self xs
  end.

(** Every reference the registry counts is a handle of one of the processes, a
    token in a queued message, or one of [external]. *)
Definition accounted (external : ObjectId.t -> N) (self : t) : Prop :=
  HandleTable.wf (Process.handles (process_a self))
  /\ HandleTable.wf (Process.handles (process_b self))
  /\ ObjectRegistry.wf (registry self)
  /\ WaitRegistry.wf (waiters self)
  /\ exists ms0 ms1, ChannelPair.holds_messages (channel self) ms0 ms1
     /\ forall o, ObjectRegistry.refs (registry self) o
          = HandleTable.holds (Process.handles (process_a self)) o
            + (HandleTable.holds (Process.handles (process_b self)) o
               + (Flow.escrowed (ChannelPair.escrow_of (ms0 ++ ms1)) o + external o)).
End ChannelSystem.

(** ** Specifications *)

(** The sources of [ds] leave the table [t], becoming the tokens [toks]. *)
Inductive moves (r : ObjectRegistry.t)
  : HandleTable.t -> list HandleDisposition.t -> list TransferToken.t -> HandleTable.t -> Prop :=
| moves_nil t : moves r t [] [] t
| moves_cons t d tok t1 ds toks t2 :
    HandleTable.begin_move t r (HandleDisposition.source d) (HandleDisposition.rights d)
      = (Ok tok, t1) ->
    moves r t1 ds toks t2 -> moves r t (d :: ds) (tok :: toks) t2.

(** The tokens [toks] are installed in the table [t] as the handles [hs]. *)
Inductive installs (r : ObjectRegistry.t)
  : HandleTable.t -> list TransferToken.t -> list Handle.t -> HandleTable.t -> Prop :=
| installs_nil t : installs r t [] [] t
| installs_cons t tok h t1 toks hs t2 :
    HandleTable.install_token t r (Some tok) = (Ok h, t1, None) ->
    installs r t1 toks hs t2 -> installs r t (tok :: toks) (h :: hs) t2.

(** What one moved capability looks like: it could be moved with the rights
    asked for, and the token names its object with these rights. *)
Definition moved_as (t : HandleTable.t) (r : ObjectRegistry.t) (d : HandleDisposition.t)
  (tok : TransferToken.t) : Prop :=
  exists c, HandleTable.entry t r (HandleDisposition.source d) = Ok c
    /\ bits_subset (Rights.bits Rights.TRANSFER) (Rights.bits (Capability.rights c))
    /\ bits_subset (Rights.bits (HandleDisposition.rights d)) (Rights.bits (Capability.rights c))
    /\ tok = TransferToken.mk
               (Capability.mk (Capability.object c) (HandleDisposition.rights d)).

(** The object a token names is live. *)
Definition live_token (r : ObjectRegistry.t) (tok : TransferToken.t) : Prop :=
  ObjectRegistry.validate r (Flow.token_object tok) (ObjectId.kind (Flow.token_object tok)) = Ok tt.

(** The registry counts the handles of one table and [rest]. *)
Definition balanced (t : HandleTable.t) (r : ObjectRegistry.t) (rest : ObjectId.t -> N) : Prop :=
  HandleTable.wf t /\ ObjectRegistry.wf r
  /\ forall o, ObjectRegistry.refs r o = HandleTable.holds t o + rest o.

(** The messages of queue [k] of a pair. *)
Definition side (k : nat) (ms0 ms1 : list QueuedMessage.t) : list QueuedMessage.t :=
  match k with O => ms0 | S _ => ms1 end.

(** ** The ring buffer is a bounded FIFO *)

Section queue.
Import Queue.
Implicit Types (q : t) (ms : list QueuedMessage.t).

Lemma ring_inj h i j :
  (i < MAX_QUEUE)%nat -> (j < MAX_QUEUE)%nat ->
  ((h + i) mod MAX_QUEUE = (h + j) mod MAX_QUEUE)%nat -> i = j.
Proof. unfold MAX_QUEUE. intros. div_lia. Qed.

Lemma ring_lt h : (h mod MAX_QUEUE < MAX_QUEUE)%nat.
Proof. unfold MAX_QUEUE. intros. div_lia. Qed.

Lemma ring_zero h : (h < MAX_QUEUE)%nat -> ((h + 0) mod MAX_QUEUE = h)%nat.
Proof. unfold MAX_QUEUE. intros. div_lia. Qed.

Lemma ring_next h i : (((h + 1) mod MAX_QUEUE + i) mod MAX_QUEUE = (h + S i) mod MAX_QUEUE)%nat.
Proof. unfold MAX_QUEUE. intros. div_lia. Qed.

Lemma ring_last h n : (((h + n) mod MAX_QUEUE + 1) mod MAX_QUEUE = (h + (n + 1)) mod MAX_QUEUE)%nat.
Proof. unfold MAX_QUEUE. intros. div_lia. Qed.

Lemma queue_new_represents : represents new [].
Proof.
  unfold represents, new; cbn [entries head tail length].
  split_and!; [done|unfold MAX_QUEUE; lia|done|unfold MAX_QUEUE; cbn; lia|done|].
  intros i Hi. rewrite lookup_nil. apply lookup_replicate. auto using ring_lt.
Qed.

Lemma represents_head q ms : represents q ms -> entries q !! head q = Some (List.head ms).
Proof.
  intros (?&Hh&_&_&_&Hent). specialize (Hent 0%nat ltac:(unfold MAX_QUEUE; lia)).
  rewrite ring_zero in Hent by done. rewrite Hent. by destruct ms.
Qed.

Lemma peek_spec q ms : represents q ms -> peek q = Ret (List.head ms).
Proof. intros H. apply index_Ret. by apply represents_head. Qed.

Lemma push_full q ms m :
  represents q ms -> List.length ms = MAX_QUEUE -> push q m = Ret (Err ChannelError.QueueFull, q).
Proof. intros (_&_&Hlen&_) Hfull. unfold push. rewrite decide_True; [done|congruence]. Qed.

Lemma push_spec q ms m :
  represents q ms -> List.length ms <> MAX_QUEUE ->
  exists q', push q m = Ret (Ok tt, q') /\ represents q' (ms ++ [m]).
Proof.
  intros (Hl&Hh&Hlen&Hle&Htail&Hent) Hfull. unfold push.
  rewrite decide_False by congruence.
  rewrite store_Ret by (rewrite Hl, Htail; apply ring_lt).
  eexists; split; [done|]. unfold represents.
  cbn [entries head tail length]. rewrite length_insert, length_app; cbn [List.length].
  split_and!; [done|done|lia|lia|by rewrite Htail, ring_last|].
  intros i Hi. destruct (decide (i = List.length ms)) as [->|Hne].
  - rewrite Htail, list_lookup_insert_eq by (rewrite Hl; apply ring_lt).
    by rewrite lookup_app_r, Nat.sub_diag by lia.
  - rewrite Htail, list_lookup_insert_ne.
    + rewrite Hent by done. f_equal. destruct (decide (i < List.length ms)%nat).
      * by rewrite lookup_app_l.
      * rewrite !lookup_ge_None_2; [done|rewrite length_app; simpl; lia|lia].
    + intros E. apply ring_inj in E; lia.
Qed.

Lemma pop_nil q : represents q [] -> pop q = Ret (None, q).
Proof. intros H%represents_head. unfold pop, index. by rewrite H. Qed.

Lemma pop_cons q m ms :
  represents q (m :: ms) -> exists q', pop q = Ret (Some m, q') /\ represents q' ms.
Proof.
  intros Hrep. pose proof (represents_head _ _ Hrep) as Hd.
  destruct Hrep as (Hl&Hh&Hlen&Hle&Htail&Hent). cbn [List.length List.head] in *.
  unfold pop, index. rewrite Hd. rewrite decide_False by lia.
  eexists; split; [done|]. unfold represents.
  cbn [entries head tail length]. rewrite length_insert.
  split_and!; [done|apply ring_lt|lia|lia|by rewrite Htail, ring_next|].
  intros i Hi. rewrite ring_next. destruct (decide (S i < MAX_QUEUE)%nat) as [Hlt|Hge].
  - rewrite list_lookup_insert_ne; [by rewrite Hent|].
    intros E. rewrite <-(ring_zero (head q)) in E at 1 by done.
    apply ring_inj in E; lia.
  - replace ((head q + S i) mod MAX_QUEUE)%nat with (head q) by (unfold MAX_QUEUE in *; div_lia).
    rewrite list_lookup_insert_eq by lia. by rewrite lookup_ge_None_2 by lia.
Qed.

Lemma token_mut_spec q m ms i :
  represents q (m :: ms) -> token_mut q i = Ret (QueuedMessage.tokens m !! i).
Proof. intros H%represents_head. unfold token_mut, index. by rewrite H. Qed.

Lemma set_token_spec q m ms i tok :
  represents q (m :: ms) ->
  represents (set_token q i tok)
    (QueuedMessage.set_tokens m (<[i := tok]> (QueuedMessage.tokens m)) :: ms).
Proof.
  intros Hrep. pose proof (represents_head _ _ Hrep) as Hd.
  destruct Hrep as (Hl&Hh&Hlen&Hle&Htail&Hent). unfold represents.
  cbn [set_token entries head tail length List.length List.head] in *. rewrite length_alter. split_and!; [done..|].
  intros [|i'] Hi.
  - rewrite ring_zero by done. by rewrite list_lookup_alter_eq, Hd.
  - rewrite list_lookup_alter_ne; [by rewrite Hent|].
    intros E. rewrite <-(ring_zero (head q)) in E at 1 by done.
    apply ring_inj in E; lia.
Qed.

Lemma run_op_fifo q ms x :
  represents q ms ->
  exists q', run_op q x = Ret ((fifo_op ms x).1, q') /\ represents q' (fifo_op ms x).2.
Proof.
  intros Hrep. destruct x as [m| |]; simpl.
  - case_decide as Hfull.
    + rewrite (push_full q ms m) by done. eauto.
    + destruct (push_spec q ms m Hrep Hfull) as (q'&->&?). eauto.
  - destruct ms as [|m ms]; simpl.
    + rewrite pop_nil by done. eauto.
    + destruct (pop_cons q m ms Hrep) as (q'&->&?). eauto.
  - rewrite (peek_spec q ms) by done. eauto.
Qed.
End queue.

(** ** Moving capabilities out of and into a table *)

Section moving.
Implicit Types (t : HandleTable.t) (r : ObjectRegistry.t).

Lemma contains_subset a b : Rights.contains a b = true -> bits_subset (Rights.bits b) (Rights.bits a).
Proof. unfold Rights.contains. by intros ?%bool_decide_eq_true. Qed.

(** Emptying one slot leaves the entries of the other slots alone. *)
Lemma entry_vacated_ne t r h i g :
  N.to_nat (Handle.slot h) <> i ->
  HandleTable.entry (HandleTable.mk (<[i := HandleSlot.mk g None]> (HandleTable.slots t))) r h
  = HandleTable.entry t r h.
Proof.
  intros Hne. unfold HandleTable.entry, HandleTable.slot; cbn [HandleTable.slots].
  by rewrite list_lookup_insert_ne by done.
Qed.

Lemma entry_vacated t r h i g c :
  HandleTable.entry (HandleTable.mk (<[i := HandleSlot.mk g None]> (HandleTable.slots t))) r h
    = Ok c ->
  HandleTable.entry t r h = Ok c.
Proof.
  destruct (decide (N.to_nat (Handle.slot h) = i)) as [<-|Hne].
  - intros (j&s&(->&Hs&_)%table_slot_Ok&Hc&_)%entry_Ok. cbn [HandleTable.slots] in Hs.
    rewrite list_lookup_insert in Hs. case_decide as Hlt; simplify_eq/=.
    apply lookup_lt_Some in Hs. by destruct Hlt.
  - by rewrite entry_vacated_ne.
Qed.

(** Two distinct handles that both resolve lie in distinct slots. *)
Lemma live_slots_distinct t h1 h2 i1 s1 i2 s2 :
  Handle.raw h1 <= U64_MAX -> Handle.raw h2 <= U64_MAX -> h1 <> h2 ->
  HandleTable.slot t h1 = Ok (i1, s1) -> HandleTable.slot t h2 = Ok (i2, s2) -> i1 <> i2.
Proof.
  intros ?? Hne (->&Hs1&_&Hg1)%table_slot_Ok (->&Hs2&_&Hg2)%table_slot_Ok Heq.
  rewrite Heq in Hs1. simplify_eq. apply Hne, handle_ext; congruence.
Qed.

Lemma check_move_vacated t r h i g rt :
  N.to_nat (Handle.slot h) <> i ->
  HandleTable.check_move (HandleTable.mk (<[i := HandleSlot.mk g None]> (HandleTable.slots t)))
    r h rt = HandleTable.check_move t r h rt.
Proof.
  intros Hne. unfold HandleTable.check_move. rewrite entry_vacated_ne by done.
  unfold HandleTable.slot; cbn [HandleTable.slots]. by rewrite list_lookup_insert_ne by done.
Qed.

Lemma begin_move_other t r h rt tok t' h' rt' :
  Handle.raw h <= U64_MAX -> Handle.raw h' <= U64_MAX -> h' <> h ->
  HandleTable.begin_move t r h rt = (Ok tok, t') ->
  HandleTable.check_move t r h' rt' = Ok tt -> HandleTable.check_move t' r h' rt' = Ok tt.
Proof.
  intros ??? (i&s&c&Hs&_&_&_&_&->)%begin_move_Ok Hck.
  rewrite check_move_vacated; [done|].
  apply check_move_Ok in Hck as (i'&s'&c'&Hs'&_).
  pose proof Hs' as (Hi'&_)%table_slot_Ok. subst i'.
  eapply (live_slots_distinct t h' h); eauto.
Qed.

Lemma begin_move_moved_as t r d tok t' :
  HandleTable.begin_move t r (HandleDisposition.source d) (HandleDisposition.rights d)
    = (Ok tok, t') -> moved_as t r d tok.
Proof.
  intros (i&s&c&Hs&Hc&Hck&_&->&_)%begin_move_Ok.
  apply check_move_Ok in Hck as (i'&s'&c'&Hs'&Hc'&He&?&?&_). same_result.
  exists c. split_and!; auto using contains_subset.
Qed.

Lemma moved_as_before t r h rt tok t' d tok' :
  HandleTable.begin_move t r h rt = (Ok tok, t') -> moved_as t' r d tok' -> moved_as t r d tok'.
Proof.
  intros (i&s&c&_&_&_&_&_&->)%begin_move_Ok (c'&He&?&?&?).
  exists c'. eauto using entry_vacated.
Qed.

Lemma moves_moved_as r t ds toks t' : moves r t ds toks t' -> Forall2 (moved_as t r) ds toks.
Proof.
  induction 1 as [|t d tok t1 ds toks t2 Hm _ IH]; constructor.
  - eauto using begin_move_moved_as.
  - eapply Forall2_impl; [done|]. eauto using moved_as_before.
Qed.

Lemma moves_run_ops r t ds toks t' :
  moves r t ds toks t' ->
  t' = HandleTable.run_ops t
         ((fun d => HandleTable.BeginMove r (HandleDisposition.source d) (HandleDisposition.rights d))
            <$> ds).
Proof.
  induction 1 as [|t d tok t1 ds toks t2 Hm _ IH]; [done|]. simpl. by rewrite Hm.
Qed.

Lemma moves_wf r t ds toks t' : HandleTable.wf t -> moves r t ds toks t' -> HandleTable.wf t'.
Proof.
  intros Hwf Hm. induction Hm as [|t d tok t1 ds toks t2 Hm _ IH]; [done|]. apply IH.
  pose proof (begin_move_wf t r (HandleDisposition.source d) (HandleDisposition.rights d) Hwf) as H.
  by rewrite Hm in H.
Qed.

Lemma spent_not_ok t r h :
  HandleTable.wf t -> HandleTable.spent t h -> is_ok (HandleTable.entry t r h) = false.
Proof.
  intros ? Hs. destruct (HandleTable.entry t r h) eqn:He; [|done].
  by eapply spent_entry in He.
Qed.

(** The source handles are dead after the move. *)
Lemma moves_spent r t ds toks t' d :
  HandleTable.wf t -> moves r t ds toks t' -> d ∈ ds ->
  is_ok (HandleTable.entry t' r (HandleDisposition.source d)) = false.
Proof.
  intros Hwf Hm. induction Hm as [|t d' tok t1 ds toks t2 Hb Hm IH];
    [by intros ?%not_elem_of_nil|].
  pose proof (begin_move_wf t r (HandleDisposition.source d') (HandleDisposition.rights d') Hwf)
    as Hwf1. rewrite Hb in Hwf1; simpl in Hwf1.
  intros [->|?]%elem_of_cons; [|auto].
  apply begin_move_Ok in Hb as (i&s&c&Hs&_&_&_&_&Ht1).
  assert (HandleTable.spent t1 (HandleDisposition.source d')) as Hsp
    by (subst t1; by apply vacated_spent).
  rewrite (moves_run_ops _ _ _ _ _ Hm).
  destruct (spent_run_ops t1 (HandleDisposition.source d')
    ((fun d => HandleTable.BeginMove r (HandleDisposition.source d)
                 (HandleDisposition.rights d)) <$> ds) Hwf1 Hsp) as [? ?].
  by apply spent_not_ok.
Qed.

Lemma moves_other r t ds toks t' h c :
  moves r t ds toks t' -> Handle.raw h <= U64_MAX ->
  Forall (fun d => Handle.raw (HandleDisposition.source d) <= U64_MAX
                   /\ HandleDisposition.source d <> h) ds ->
  HandleTable.entry t r h = Ok c -> HandleTable.entry t' r h = Ok c.
Proof.
  intros Hm ?. induction Hm as [|t d tok t1 ds toks t2 Hb Hm IH]; [done|].
  intros [[??] ?]%Forall_cons He. apply IH; [done|].
  apply begin_move_Ok in Hb as (i&s&c'&Hs&_&_&_&_&->).
  rewrite entry_vacated_ne; [done|].
  apply entry_Ok in He as (j&s'&Hs'&_). pose proof Hs' as (->&_)%table_slot_Ok.
  eapply (live_slots_distinct t h (HandleDisposition.source d)); eauto.
Qed.

Lemma moves_accounted r t ds toks t' o :
  moves r t ds toks t' ->
  HandleTable.holds t o = HandleTable.holds t' o + Flow.escrowed toks o.
Proof.
  induction 1 as [t|t d tok t1 ds toks t2 Hb _ IH].
  - unfold Flow.escrowed. rewrite count_of_nil. lia.
  - apply begin_move_Ok in Hb as (i&s&c&(->&Hs&_)%table_slot_Ok&Hc&_&_&->&->).
    rewrite (holds_vacate t _ s c (HandleSlot.generation s + 1) o Hs Hc), IH, escrowed_cons.
    unfold Flow.token_object; simpl. lia.
Qed.

Lemma moves_length r t ds toks t' : moves r t ds toks t' -> length toks = length ds.
Proof. induction 1; simpl; congruence. Qed.

(** Handles that pass the checks of [send] can all be moved. *)
Lemma moves_total r t ds :
  Forall (fun d => Handle.raw (HandleDisposition.source d) <= U64_MAX) ds ->
  NoDup (HandleDisposition.source <$> ds) ->
  Forall (fun d => HandleTable.check_move t r (HandleDisposition.source d)
                     (HandleDisposition.rights d) = Ok tt) ds ->
  exists toks t', moves r t ds toks t'.
Proof.
  revert t. induction ds as [|d ds IH]; intros t Hraw Hnd Hck; [eauto using moves_nil|].
  apply Forall_cons in Hraw as [? Hraw]. apply Forall_cons in Hck as [Hd Hck].
  rewrite fmap_cons in Hnd. apply NoDup_cons in Hnd as [Hnin Hnd].
  destruct (begin_move_total _ _ _ _ Hd) as (tok&t1&Hm).
  destruct (IH t1) as (toks&t'&?); [done|done| |eauto using moves_cons].
  rewrite Forall_forall in Hck, Hraw |- *. intros d' Hin.
  eapply begin_move_other; [| | |done|by apply Hck]; [done|by apply Hraw|].
  intros Heq. apply Hnin. rewrite <-Heq. by apply list_elem_of_fmap_2.
Qed.
End moving.

Section installing.
Implicit Types (t : HandleTable.t) (r : ObjectRegistry.t).

(** A successful install fills a vacant slot. *)
Lemma install_token_slot t r tok h t' tok' :
  HandleTable.wf t -> HandleTable.install_token t r (Some tok) = (Ok h, t', tok') ->
  exists i s, HandleTable.slots t !! i = Some s /\ HandleTable.installable s
    /\ t' = HandleTable.mk (<[i := HandleSlot.mk (HandleSlot.generation s)
                                     (Some (TransferToken.capability tok))]> (HandleTable.slots t)).
Proof.
  intros Hwf. unfold HandleTable.install_token. destruct tok as [[o rt]]; simpl.
  destruct (ObjectRegistry.validate _ _ _); [|done].
  destruct (HandleTable.install_capability t o rt) as [[h0|e] t0] eqn:E; [|done].
  intros. simplify_eq. apply install_capability_Ok in E as (i&s&?&?&_&_&_&->); eauto 10.
Qed.

Lemma entry_installed t r h i s c c' :
  HandleTable.slots t !! i = Some s -> HandleTable.installable s ->
  HandleTable.entry t r h = Ok c ->
  HandleTable.entry (HandleTable.mk (<[i := HandleSlot.mk (HandleSlot.generation s) (Some c')]>
                                       (HandleTable.slots t))) r h = Ok c.
Proof.
  intros Hi [Hnone _] He. apply entry_Ok in He as (j&s'&(->&Hj&?&?)%table_slot_Ok&Hc&Hv).
  apply entry_Ok. eexists _, s'. split; [|done]. apply table_slot_Ok. split_and!; [done| |done..].
  cbn [HandleTable.slots]. rewrite list_lookup_insert_ne; [done|]. intros ->.
  congruence.
Qed.

Lemma install_token_entry t r tok h t' tok' h' c :
  HandleTable.wf t -> HandleTable.install_token t r (Some tok) = (Ok h, t', tok') ->
  HandleTable.entry t r h' = Ok c -> HandleTable.entry t' r h' = Ok c.
Proof.
  intros Hwf (i&s&?&?&->)%install_token_slot ?; [|done]. by apply entry_installed.
Qed.

Lemma install_token_result t r tok h t' tok' :
  HandleTable.wf t -> HandleTable.install_token t r (Some tok) = (Ok h, t', tok') ->
  HandleTable.wf t' /\ tok' = None /\ HandleTable.entry t' r h = Ok (TransferToken.capability tok).
Proof.
  intros Hwf Hi. destruct (install_token_Ok _ _ _ _ _ _ Hwf Hi).
  pose proof (install_token_wf t r (Some tok) Hwf) as Hwf'. by rewrite Hi in Hwf'.
Qed.

Lemma installs_wf r t toks hs t' : HandleTable.wf t -> installs r t toks hs t' -> HandleTable.wf t'.
Proof.
  intros Hwf Hi. induction Hi as [|t tok h t1 toks hs t2 Hi _ IH]; [done|].
  by apply install_token_result in Hi as [? _]; auto.
Qed.

Lemma installs_keep r t toks hs t' h c :
  HandleTable.wf t -> installs r t toks hs t' ->
  HandleTable.entry t r h = Ok c -> HandleTable.entry t' r h = Ok c.
Proof.
  intros Hwf Hi He. induction Hi as [|t tok h' t1 toks hs t2 Hi _ IH]; [done|].
  apply IH; [by apply install_token_result in Hi as [? _]|]. by eapply install_token_entry.
Qed.

(** Each installed handle resolves to the capability of its token. *)
Lemma installs_entries r t toks hs t' :
  HandleTable.wf t -> installs r t toks hs t' ->
  Forall2 (fun tok h => HandleTable.entry t' r h = Ok (TransferToken.capability tok)) toks hs.
Proof.
  intros Hwf Hi. induction Hi as [|t tok h t1 toks hs t2 Hi Hr IH]; constructor.
  - apply install_token_result in Hi as (?&_&?); [|done]. by eapply installs_keep.
  - apply IH. by apply install_token_result in Hi as [? _].
Qed.

Lemma installs_accounted r t toks hs t' o :
  HandleTable.wf t -> installs r t toks hs t' ->
  HandleTable.holds t' o = HandleTable.holds t o + Flow.escrowed toks o.
Proof.
  intros Hwf Hi. induction Hi as [t|t tok h t1 toks hs t2 Hi Hr IH].
  - unfold Flow.escrowed. rewrite count_of_nil. lia.
  - rewrite IH by (by apply install_token_result in Hi as [? _]).
    apply install_token_slot in Hi as (i&s&Hs&[Hn _]&->); [|done].
    rewrite (holds_install t i s _ o Hs Hn), escrowed_cons. unfold Flow.token_object. lia.
Qed.

Lemma installs_length r t toks hs t' : installs r t toks hs t' -> length hs = length toks.
Proof. induction 1; simpl; congruence. Qed.

(** A live object and a vacant slot are all an install needs. *)
Lemma install_token_total t r tok :
  HandleTable.wf t -> (0 < count_of HandleTable.installable (HandleTable.slots t))%nat ->
  ObjectRegistry.validate r (Flow.token_object tok) (ObjectId.kind (Flow.token_object tok)) = Ok tt ->
  exists h t', HandleTable.install_token t r (Some tok) = (Ok h, t', None)
    /\ HandleTable.wf t'
    /\ count_of HandleTable.installable (HandleTable.slots t)
       = S (count_of HandleTable.installable (HandleTable.slots t')).
Proof.
  intros Hwf Hcap Hv.
  destruct (install_capability_total t (Flow.token_object tok)
    (Capability.rights (TransferToken.capability tok)) Hcap) as (h&t'&Hi).
  exists h, t'. assert (HandleTable.install_token t r (Some tok) = (Ok h, t', None)) as Hit.
  { unfold HandleTable.install_token. unfold Flow.token_object in *. by rewrite Hv, Hi. }
  split_and!; [done|by eapply install_token_result in Hit as [? _]|].
  apply install_token_slot in Hit as (i&s&Hs&Hin&->); [|done]. cbn [HandleTable.slots].
  pose proof (count_of_insert HandleTable.installable (HandleTable.slots t) i s
    (HandleSlot.mk (HandleSlot.generation s) (Some (TransferToken.capability tok))) Hs) as Hc.
  rewrite decide_True in Hc by done.
  rewrite decide_False in Hc by (by intros [? _]). lia.
Qed.
End installing.

(** ** Sending *)

Section sending.
Import ChannelPair.
Implicit Types (ds : list HandleDisposition.t) (t : HandleTable.t) (r : ObjectRegistry.t).

Lemma lookup_in_range {A} (l : list A) i :
  (i < length l)%nat -> exists x, l !! i = Some x.
Proof. apply lookup_lt_is_Some_2. Qed.

Lemma check_duplicates_spec ds h laters :
  Forall (fun j => (j < length ds)%nat) laters ->
  exists res, check_duplicates (padded MAX_TRANSFER_HANDLES ds) h laters = Ret res
    /\ (res = Ok tt -> forall j d, j ∈ laters -> ds !! j = Some d ->
                       h <> HandleDisposition.source d).
Proof.
  induction laters as [|j laters IH]; intros Hall; simpl.
  { eexists; split; [done|]. by intros _ j d ?%not_elem_of_nil. }
  apply Forall_cons in Hall as [Hj Hall].
  destruct (lookup_in_range ds j Hj) as [d Hd].
  unfold index. rewrite (padded_lookup _ _ _ _ Hd). case_decide as Heq; [by eexists|].
  destruct (IH Hall) as (res&->&Hres). exists res. split; [done|].
  intros Hok j' d' [->|Hin]%elem_of_cons Hd'; [congruence|eauto].
Qed.

Lemma check_transfers_spec t r ds firsts :
  Forall (fun i => (i < length ds)%nat) firsts ->
  exists res, check_transfers t r (padded MAX_TRANSFER_HANDLES ds) firsts = Ret res
    /\ (res = Ok tt -> forall i d, i ∈ firsts -> ds !! i = Some d ->
          HandleTable.check_move t r (HandleDisposition.source d) (HandleDisposition.rights d) = Ok tt
          /\ forall j d', (j < i)%nat -> ds !! j = Some d' ->
               HandleDisposition.source d <> HandleDisposition.source d').
Proof.
  induction firsts as [|i firsts IH]; intros Hall; simpl.
  { eexists; split; [done|]. by intros _ i d ?%not_elem_of_nil. }
  apply Forall_cons in Hall as [Hi Hall].
  destruct (lookup_in_range ds i Hi) as [d Hd].
  unfold index. rewrite (padded_lookup _ _ _ _ Hd).
  destruct (check_duplicates_spec ds (HandleDisposition.source d) (seq 0 i)) as (dup&->&Hdup).
  { apply Forall_forall. intros j ?%elem_of_seq. lia. }
  destruct dup as [[]|e]; [|by eexists].
  destruct (HandleTable.check_move _ _ _ _) as [[]|e] eqn:Hck; [|by eexists].
  destruct (IH Hall) as (res&->&Hres). exists res. split; [done|].
  intros Hok i' d' [->|Hin]%elem_of_cons Hd'; [simplify_eq|by eauto].
  split; [done|]. intros j d'' Hj ?. eapply Hdup; [done| |done]. apply elem_of_seq. lia.
Qed.

(** A message that passes the checks can have all its handles moved. *)
Lemma checked_moves t r ds :
  Forall (fun d => Handle.raw (HandleDisposition.source d) <= U64_MAX) ds ->
  check_transfers t r (padded MAX_TRANSFER_HANDLES ds) (seq 0 (length ds)) = Ret (Ok tt) ->
  exists toks t', moves r t ds toks t'.
Proof.
  intros Hraw Hck.
  destruct (check_transfers_spec t r ds (seq 0 (length ds))) as (res&Hres&Hall).
  { apply Forall_forall. intros j ?%elem_of_seq. lia. }
  same_result. specialize (Hall eq_refl).
  assert (forall i d, ds !! i = Some d -> i ∈ seq 0 (length ds)) as Hin.
  { intros i d ?%lookup_lt_Some. apply elem_of_seq. lia. }
  apply moves_total; [done| |].
  - apply NoDup_alt. intros i j h Hi Hj. rewrite list_lookup_fmap in Hi, Hj.
    destruct (ds !! i) as [di|] eqn:Ei, (ds !! j) as [dj|] eqn:Ej; simplify_eq/=.
    destruct (Hall _ _ (Hin _ _ Ei) Ei) as [_ Hi'], (Hall _ _ (Hin _ _ Ej) Ej) as [_ Hj'].
    destruct (decide (i < j)%nat); [by edestruct Hj'|].
    destruct (decide (j < i)%nat); [by edestruct Hi'|lia].
  - apply Forall_lookup. intros i d Hi. by apply (Hall i d); eauto.
Qed.

Lemma move_transfers_spec r t ds toks t' transfers pre :
  moves r t ds toks t' ->
  (forall i d, ds !! i = Some d -> transfers !! (length pre + i)%nat = Some (Some d)) ->
  (length pre + length ds <= MAX_TRANSFER_HANDLES)%nat ->
  move_transfers t r transfers (padded MAX_TRANSFER_HANDLES pre) (seq (length pre) (length ds))
  = Ret (Ok (padded MAX_TRANSFER_HANDLES (pre ++ toks)), t').
Proof.
  intros Hm. revert pre. induction Hm as [t|t d tok t1 ds toks t2 Hb _ IH];
    intros pre Htr Hle; simpl in *; [by rewrite app_nil_r|].
  pose proof (Htr 0%nat d eq_refl) as H0. rewrite Nat.add_0_r in H0.
  unfold index. rewrite H0, Hb, padded_store by lia.
  specialize (IH (pre ++ [tok])). rewrite length_app, Nat.add_1_r in IH.
  rewrite IH; [by rewrite <-(assoc_L (++))| |simpl; lia].
  intros i d' Hd'. rewrite <-(Htr (S i) d' Hd'). f_equal. lia.
Qed.

Lemma pair_queue self ms0 ms1 k :
  holds_messages self ms0 ms1 -> (k < 2)%nat ->
  exists q, index (queues self) k = Ret q /\ Queue.represents q (side k ms0 ms1).
Proof.
  intros (_&_&_&(q0&q1&Hq&?&?)&_) Hk. setoid_rewrite index_Ret. rewrite Hq.
  destruct k as [|[|k]]; simpl; [by eauto..|lia].
Qed.

Lemma pair_store self ms0 ms1 k q ms :
  holds_messages self ms0 ms1 -> (k < 2)%nat -> Queue.represents q ms ->
  Forall (fun m => exists toks, QueuedMessage.escrows m toks) ms ->
  exists qs, store (queues self) k q = Ret qs
    /\ holds_messages (set_queues self qs) (match k with O => ms | _ => ms0 end)
         (match k with O => ms1 | _ => ms end).
Proof.
  intros (?&?&?&(q0&q1&Hq&?&?)&[??]%Forall_app) Hk ??. rewrite Hq.
  eexists; split; [by apply store_Ret|].
  destruct k as [|[|k]]; [| |lia]; (split_and!; [done..|by eexists _, _|by apply Forall_app]).
Qed.

Lemma queue_for_sender_Ok self eo k :
  queue_for_sender self eo = Ok k ->
  (k < 2)%nat /\ (k = 0%nat /\ eo = endpoint_a self \/ k = 1%nat /\ eo = endpoint_b self).
Proof. unfold queue_for_sender. intros. crush_match; auto with lia. Qed.

Lemma queue_for_receiver_Ok self eo k :
  queue_for_receiver self eo = Ok k ->
  (k < 2)%nat /\ (k = 1%nat /\ eo = endpoint_a self \/ k = 0%nat /\ eo = endpoint_b self).
Proof. unfold queue_for_receiver. intros. crush_match; auto with lia. Qed.

Lemma side_escrows self ms0 ms1 k :
  holds_messages self ms0 ms1 ->
  Forall (fun m => exists toks, QueuedMessage.escrows m toks) (side k ms0 ms1).
Proof. intros (_&_&_&_&[??]%Forall_app). by destruct k. Qed.

(** Sending runs without a panic; an error changes nothing, and success is the
    move of all the capabilities and one more message in the queue. *)
Lemma send_spec self r sender endpoint message ds waiters ms0 ms1 :
  holds_messages self ms0 ms1 -> OutgoingMessage.carries message ds ->
  exists res self' sender' waiters',
    send self r sender endpoint message waiters = Ret (res, self', sender', waiters')
    /\ match res with
       | Err _ => self' = self /\ sender' = sender /\ waiters' = waiters
       | Ok _ => exists eo toks table' m,
           HandleTable.require (Process.handles sender) r endpoint ObjectKind.ChannelEndpoint
             Rights.WRITE = Ok eo
           /\ moves r (Process.handles sender) ds toks table'
           /\ sender' = Process.set_handles sender table'
           /\ m = QueuedMessage.mk (Process.id sender) (OutgoingMessage.header message)
                    (OutgoingMessage.payload message) (OutgoingMessage.payload_len message)
                    (padded MAX_TRANSFER_HANDLES toks) (length toks)
           /\ QueuedMessage.escrows m toks
           /\ waiters' = (WaitRegistry.notify waiters (receiver_endpoint self eo)
                            Signals.READABLE).2
           /\ endpoint_a self' = endpoint_a self /\ endpoint_b self' = endpoint_b self
           /\ (eo = endpoint_a self /\ holds_messages self' (ms0 ++ [m]) ms1
               \/ eo = endpoint_b self /\ holds_messages self' ms0 (ms1 ++ [m]))
       end.
Proof.
  intros Hch (Hpl&Hple&Hcount&Htr&Hlen&Hraw). unfold send.
  destruct (HandleTable.require _ _ _ _ _) as [eo|e] eqn:Hreq; [|by do 4 eexists].
  destruct (queue_for_sender self eo) as [k|e] eqn:Hk; [|by do 4 eexists].
  apply queue_for_sender_Ok in Hk as [Hk2 Hk].
  destruct (pair_queue _ _ _ k Hch Hk2) as (q&Hq&Hrep). rewrite Hq.
  pose proof Hrep as (_&_&Hqlen&_). rewrite Hqlen.
  case_decide as Hfull; [by do 4 eexists|].
  rewrite Hcount, Htr.
  destruct (check_transfers_spec (Process.handles sender) r ds (seq 0 (length ds)))
    as (checked&Hck&_).
  { apply Forall_forall. intros j ?%elem_of_seq. lia. }
  rewrite Hck. destruct checked as [[]|e]; [|by do 4 eexists].
  destruct (checked_moves _ _ _ Hraw Hck) as (toks&t'&Hm).
  pose proof (moves_length _ _ _ _ _ Hm) as Htl.
  pose proof (move_transfers_spec _ _ _ _ _ (padded MAX_TRANSFER_HANDLES ds) [] Hm) as Hmv.
  change (padded MAX_TRANSFER_HANDLES []) with
    (replicate MAX_TRANSFER_HANDLES (@None TransferToken.t)) in Hmv.
  cbn [app length] in Hmv. rewrite Hmv; [|intros i d; apply padded_lookup|done].
  set (m := QueuedMessage.mk _ _ _ _ _ _).
  assert (QueuedMessage.escrows m toks) as Hesc by (split_and!; simpl; [done|done|congruence|lia|done]).
  destruct (push_spec q _ m Hrep Hfull) as (q'&->&Hrep').
  destruct (pair_store self ms0 ms1 k q' _ Hch Hk2 Hrep') as (qs&->&Hch').
  { apply Forall_app. split; [by eapply side_escrows|]. apply Forall_singleton. eauto. }
  do 4 eexists. split; [done|]. exists eo, toks, t', m.
  split_and!; try done; [by subst m; rewrite Htl|].
  destruct Hk as [[-> ->]|[-> ->]]; simpl in *; auto.
Qed.
End sending.

(** ** Receiving *)

Section receiving.
Import ChannelPair.
Implicit Types (t : HandleTable.t) (r : ObjectRegistry.t).

Lemma validate_tokens_Ok r toks :
  validate_tokens r (Some <$> toks) = Ok tt <-> Forall (live_token r) toks.
Proof.
  induction toks as [|tok toks IH]; csimpl; [by split|].
  rewrite Forall_cons, <-IH. unfold live_token, Flow.token_object.
  destruct (ObjectRegistry.validate _ _ _) as [[]|e]; naive_solver.
Qed.

Lemma install_tokens_spec r t rest queue m ms hs :
  HandleTable.wf t ->
  (length rest <= count_of HandleTable.installable (HandleTable.slots t))%nat ->
  Forall (live_token r) rest ->
  Queue.represents queue (m :: ms) ->
  (forall i tok, rest !! i = Some tok ->
     QueuedMessage.tokens m !! (length hs + i)%nat = Some (Some tok)) ->
  (length hs + length rest <= MAX_TRANSFER_HANDLES)%nat ->
  exists hs' t' queue' m',
    install_tokens t r queue (padded MAX_TRANSFER_HANDLES hs) (seq (length hs) (length rest))
      = Ret (Ok (padded MAX_TRANSFER_HANDLES (hs ++ hs')), t', queue')
    /\ installs r t rest hs' t' /\ Queue.represents queue' (m' :: ms).
Proof.
  revert t queue m hs. induction rest as [|tok rest IH];
    intros t queue m hs Hwf Hcap Hlive Hrep Htok Hle; simpl in *.
  { exists [], t, queue, m. rewrite app_nil_r. auto using installs_nil. }
  apply Forall_cons in Hlive as [Hv Hlive].
  pose proof (Htok 0%nat tok eq_refl) as H0. rewrite Nat.add_0_r in H0.
  rewrite (peek_spec _ _ Hrep). cbn [List.head]. unfold index. rewrite H0.
  rewrite bool_decide_eq_false_2 by done. rewrite (token_mut_spec _ _ _ _ Hrep), H0.
  destruct (install_token_total t r tok Hwf) as (h&t1&Hi&Hwf1&Hcnt); [lia|done|].
  rewrite Hi, padded_store by lia.
  pose proof (set_token_spec _ _ _ (length hs) None Hrep) as Hrep1.
  specialize (IH t1 _ _ (hs ++ [h]) Hwf1 ltac:(lia) Hlive Hrep1).
  rewrite length_app, Nat.add_1_r in IH.
  destruct IH as (hs'&t'&queue'&m'&Hrun&Hins&Hrep').
  - intros i tok' Hi'. cbn [QueuedMessage.set_tokens QueuedMessage.tokens].
    rewrite list_lookup_insert_ne by lia. rewrite <-(Htok (S i) tok' Hi'). f_equal. lia.
  - lia.
  - exists (h :: hs'), t', queue', m'. rewrite Hrun, <-(assoc_L (++)).
    eauto using installs_cons.
Qed.

(** Receiving runs without a panic and never needs its rollback; only a
    delivered message changes the channel or the receiver. *)
Lemma receive_spec self r receiver endpoint ms0 ms1 :
  holds_messages self ms0 ms1 -> HandleTable.wf (Process.handles receiver) ->
  exists res self' receiver',
    receive self r receiver endpoint = Ret (res, self', receiver')
    /\ match res with
       | Err _ => self' = self /\ receiver' = receiver
       | Ok None =>
           self' = self /\ receiver' = receiver /\
           exists eo k,
             HandleTable.require (Process.handles receiver) r endpoint ObjectKind.ChannelEndpoint
               Rights.READ = Ok eo
             /\ queue_for_receiver self eo = Ok k /\ side k ms0 ms1 = []
       | Ok (Some received) => exists eo toks hs table' m,
           HandleTable.require (Process.handles receiver) r endpoint ObjectKind.ChannelEndpoint
             Rights.READ = Ok eo
           /\ QueuedMessage.escrows m toks
           /\ installs r (Process.handles receiver) toks hs table'
           /\ receiver' = Process.set_handles receiver table'
           /\ received =
                ReceivedMessage.mk (QueuedMessage.sender_process_id m) (QueuedMessage.header m)
                  (QueuedMessage.payload m) (QueuedMessage.payload_len m)
                  (padded MAX_TRANSFER_HANDLES hs) (length toks)
           /\ endpoint_a self' = endpoint_a self /\ endpoint_b self' = endpoint_b self
           /\ (eo = endpoint_a self /\
                 (exists ms1', ms1 = m :: ms1' /\ holds_messages self' ms0 ms1')
               \/ eo = endpoint_b self /\
                 (exists ms0', ms0 = m :: ms0' /\ holds_messages self' ms0' ms1))
       end.
Proof.
  intros Hch Hwf. unfold receive.
  destruct (HandleTable.require _ _ _ _ _) as [eo|e] eqn:Hreq; [|by do 3 eexists].
  destruct (queue_for_receiver self eo) as [k|e] eqn:Hqk; [|by do 3 eexists].
  pose proof Hqk as [Hk2 Hk]%queue_for_receiver_Ok.
  destruct (pair_queue _ _ _ k Hch Hk2) as (q&Hq&Hrep). rewrite Hq, (peek_spec _ _ Hrep).
  pose proof (side_escrows _ _ _ k Hch) as Hesc.
  destruct (side k ms0 ms1) as [|m ms] eqn:Hms; cbn [List.head].
  { do 3 eexists. split; [done|]. split_and!; eauto. }
  apply Forall_cons in Hesc as [(toks&Hm) Hesc]. pose proof Hm as (_&_&Htc&Htl&Htoks).
  destruct (HandleTable.has_capacity _ _) eqn:Hcap; cbn [negb]; [|by do 3 eexists].
  apply bool_decide_eq_true in Hcap. rewrite Htc in Hcap |- *.
  rewrite slice_to_Ret by (by rewrite Htoks, padded_length). rewrite Htoks, padded_take.
  destruct (validate_tokens r _) as [[]|e] eqn:Hv; [|by do 3 eexists].
  apply validate_tokens_Ok in Hv.
  destruct (install_tokens_spec r (Process.handles receiver) toks q m ms []) as
    (hs&t'&q1&m'&Hrun&Hins&Hrep1); [done..| |done|].
  { intros i tok ?. rewrite Htoks. by apply padded_lookup. }
  change (padded MAX_TRANSFER_HANDLES []) with
    (replicate MAX_TRANSFER_HANDLES (@None Handle.t)) in Hrun.
  cbn [app length] in Hrun. rewrite Hrun.
  destruct (pop_cons _ _ _ Hrep1) as (q2&->&Hrep2).
  destruct (pair_store self ms0 ms1 k q2 _ Hch Hk2 Hrep2 Hesc) as (qs&->&Hch').
  do 3 eexists. split; [done|]. exists eo, toks, hs, t', m.
  split_and!; try done.
  destruct Hk as [[-> ->]|[-> ->]]; simpl in *; subst; eauto.
Qed.
End receiving.

(** ** Draining, and the account of every reference *)

Section draining.
Import ChannelPair.
Implicit Types (r : ObjectRegistry.t) (rest : ObjectId.t -> N).

Lemma escrowed_app l1 l2 o :
  Flow.escrowed (l1 ++ l2) o = Flow.escrowed l1 o + Flow.escrowed l2 o.
Proof. unfold Flow.escrowed. rewrite count_of_app. lia. Qed.

Lemma escrow_of_app ms ms' : escrow_of (ms ++ ms') = escrow_of ms ++ escrow_of ms'.
Proof. apply bind_app. Qed.

Lemma escrow_of_cons m toks ms :
  QueuedMessage.escrows m toks -> escrow_of (m :: ms) = toks ++ escrow_of ms.
Proof.
  intros (_&_&_&_&Ht). unfold escrow_of; csimpl. unfold QueuedMessage.escrow.
  by rewrite Ht, padded_omap.
Qed.

Lemma escrow_of_singleton m toks : QueuedMessage.escrows m toks -> escrow_of [m] = toks.
Proof. intros H. rewrite (escrow_of_cons _ _ _ H). apply app_nil_r. Qed.

Lemma release_tokens_spec toks r rest :
  ObjectRegistry.wf r ->
  (forall o, ObjectRegistry.refs r o = Flow.escrowed toks o + rest o) ->
  exists r', release_tokens (Some <$> toks) r None = (None, r')
    /\ ObjectRegistry.wf r' /\ forall o, ObjectRegistry.refs r' o = rest o.
Proof.
  revert r. induction toks as [|tok toks IH]; intros r Hwf Hrefs; csimpl; [by eauto|].
  destruct (release_Ok r (Flow.token_object tok)) as (r1&Hr1).
  { rewrite Hrefs, escrowed_cons. unfold same. rewrite decide_True by done. lia. }
  unfold Flow.token_object in Hr1. rewrite Hr1.
  destruct (release_accounted r (Flow.token_object tok)
    (fun o => Flow.escrowed toks o + rest o) Hwf) as [Hwf1 Hrefs1].
  { intros o. rewrite Hrefs, escrowed_cons. lia. }
  unfold Flow.token_object in Hwf1, Hrefs1. rewrite Hr1 in Hwf1, Hrefs1. by apply IH.
Qed.

Lemma drain_queue_spec fuel queue ms r rest :
  Queue.represents queue ms ->
  Forall (fun m => exists toks, QueuedMessage.escrows m toks) ms ->
  ObjectRegistry.wf r ->
  (forall o, ObjectRegistry.refs r o = Flow.escrowed (escrow_of ms) o + rest o) ->
  (length ms < fuel)%nat ->
  exists queue' r', drain_queue fuel queue r None = Some (Ret (None, queue', r'))
    /\ Queue.represents queue' [] /\ ObjectRegistry.wf r'
    /\ forall o, ObjectRegistry.refs r' o = rest o.
Proof.
  revert queue r fuel. induction ms as [|m ms IH];
    intros queue r [|fuel] Hrep Hesc Hwf Hrefs Hfuel; simpl in Hfuel; try lia; simpl.
  - rewrite (pop_nil _ Hrep). eauto 10.
  - apply Forall_cons in Hesc as [(toks&Hm) Hesc].
    destruct (pop_cons _ _ _ Hrep) as (queue'&->&Hrep').
    rewrite (escrow_of_cons _ _ _ Hm) in Hrefs. destruct Hm as (_&_&Htc&Htl&Htoks).
    rewrite Htoks, Htc, slice_to_Ret, padded_take by (by rewrite padded_length).
    destruct (release_tokens_spec toks r (fun o => Flow.escrowed (escrow_of ms) o + rest o) Hwf)
      as (r1&->&Hwf1&Hrefs1).
    { intros o. rewrite Hrefs, escrowed_app. lia. }
    apply IH; [done|done|done|done|lia].
Qed.

(** Draining ends, reports no error, empties both queues and releases exactly
    the references the queued tokens held. *)
Lemma drain_spec self ms0 ms1 r rest :
  holds_messages self ms0 ms1 -> ObjectRegistry.wf r ->
  (forall o, ObjectRegistry.refs r o = Flow.escrowed (escrow_of (ms0 ++ ms1)) o + rest o) ->
  exists self' r', drain self r = Some (Ret (Ok tt, self', r'))
    /\ holds_messages self' [] [] /\ ObjectRegistry.wf r'
    /\ endpoint_a self' = endpoint_a self /\ endpoint_b self' = endpoint_b self
    /\ forall o, ObjectRegistry.refs r' o = rest o.
Proof.
  intros (Ha&Hb&Hab&(q0&q1&Hq&Hrep0&Hrep1)&[Hesc0 Hesc1]%Forall_app) Hwf Hrefs.
  unfold drain. rewrite Hq. cbn [drain_queues].
  destruct (drain_queue_spec (S (Queue.length q0)) q0 ms0 r
    (fun o => Flow.escrowed (escrow_of ms1) o + rest o)) as (q0'&r1&->&Hr0&Hwf1&Hrefs1); try done.
  { intros o. rewrite Hrefs, escrow_of_app, escrowed_app. lia. }
  { destruct Hrep0 as (_&_&->&_). lia. }
  destruct (drain_queue_spec (S (Queue.length q1)) q1 ms1 r1 rest)
    as (q1'&r2&->&Hr1&Hwf2&Hrefs2); try done.
  { destruct Hrep1 as (_&_&->&_). lia. }
  do 2 eexists. split; [done|]. split_and!; try done. split_and!; [done..|by eexists _, _|done].
Qed.

Lemma balanced_flow t r rest : balanced t r rest <-> Flow.accounted rest (Flow.mk t r []).
Proof.
  unfold balanced, Flow.accounted, Flow.escrowed, count_of; simpl.
  split; (intros (?&?&H); split_and!; [done..|]; intros o; rewrite H; lia).
Qed.

Lemma balanced_insert t r rest o rt res t' r' :
  balanced t r rest -> HandleTable.insert t r o rt = (res, t', r') -> balanced t' r' rest.
Proof.
  intros Hbal%balanced_flow E. apply balanced_flow.
  pose proof (accounted_run_op _ _ (Flow.Insert o rt) Hbal) as H. simpl in H. by rewrite E in H.
Qed.

Lemma balanced_close t r rest h res t' r' :
  balanced t r rest -> HandleTable.close t r h = (res, t', r') -> balanced t' r' rest.
Proof.
  intros Hbal%balanced_flow E. apply balanced_flow.
  pose proof (accounted_run_op _ _ (Flow.Close h) Hbal) as H. simpl in H. by rewrite E in H.
Qed.

Lemma balanced_close_all t r rest t' r' :
  balanced t r rest -> HandleTable.close_all t r = (t', r') -> balanced t' r' rest.
Proof.
  intros Hbal%balanced_flow E. apply balanced_flow.
  pose proof (accounted_run_op _ _ Flow.CloseAll Hbal) as H. simpl in H. by rewrite E in H.
Qed.

(** The references of one table count towards the rest of another. *)
Lemma balanced_swap t u r rest :
  HandleTable.wf u ->
  balanced t r (fun o => HandleTable.holds u o + rest o) ->
  balanced u r (fun o => HandleTable.holds t o + rest o).
Proof. intros ? (?&?&H). split_and!; [done..|]. intros o. rewrite H. lia. Qed.
End draining.

Section system.
Import ChannelSystem.
Implicit Types (st : t) (external : ObjectId.t -> N).

Lemma outgoing_new_carries header : OutgoingMessage.carries (OutgoingMessage.new header) [].
Proof. split_and!; simpl; try done; unfold MAX_INLINE_PAYLOAD, MAX_TRANSFER_HANDLES; lia. Qed.

Lemma set_payload_carries m bytes ds m' :
  OutgoingMessage.carries m ds -> OutgoingMessage.set_payload m bytes = (Ok tt, m') ->
  OutgoingMessage.carries m' ds /\ OutgoingMessage.payload_len m' = length bytes
  /\ take (length bytes) (OutgoingMessage.payload m') = bytes.
Proof.
  intros (Hp&?&?&?&?&?). unfold OutgoingMessage.set_payload. case_decide; intros; simplify_eq/=.
  split_and!; simpl; try done; [split_and!; simpl; try done; [|lia]|by rewrite take_app_length].
  rewrite length_app, length_drop. lia.
Qed.

Lemma add_transfer_carries m source rights ds m' :
  OutgoingMessage.carries m ds -> Handle.raw source <= U64_MAX ->
  OutgoingMessage.add_transfer m source rights = (Ok tt, m') ->
  OutgoingMessage.carries m' (ds ++ [HandleDisposition.mk source rights]).
Proof.
  intros (?&?&Hc&Ht&Hle&?) Hraw. unfold OutgoingMessage.add_transfer. rewrite Hc, Ht.
  destruct (padded _ ds !! length ds) as [e|] eqn:E; [|done]. intros; simplify_eq/=.
  apply lookup_lt_Some in E. rewrite padded_length in E by done.
  split_and!; simpl; try done.
  - rewrite length_app; simpl. lia.
  - by rewrite padded_insert.
  - rewrite length_app; simpl. lia.
  - by apply Forall_app_2; [|apply Forall_singleton].
Qed.

Lemma add_transfers_carries m pre ds m' :
  OutgoingMessage.carries m pre ->
  Forall (fun d => Handle.raw (HandleDisposition.source d) <= U64_MAX) ds ->
  add_transfers m ds = Ok m' -> OutgoingMessage.carries m' (pre ++ ds).
Proof.
  revert m pre. induction ds as [|[src rt] ds IH]; intros m pre Hm Hraw; simpl.
  { intros. simplify_eq. by rewrite app_nil_r. }
  apply Forall_cons in Hraw as [? Hraw].
  destruct (OutgoingMessage.add_transfer m src rt) as [[[]|e] m1] eqn:E; [|done]. intros Hrun.
  replace (pre ++ HandleDisposition.mk src rt :: ds)
    with ((pre ++ [HandleDisposition.mk src rt]) ++ ds) by (by rewrite <-(assoc_L (++))).
  eapply IH; [|done|done]. by eapply add_transfer_carries.
Qed.

Lemma compose_carries header payload ds m :
  Forall (fun d => Handle.raw (HandleDisposition.source d) <= U64_MAX) ds ->
  compose header payload ds = Ok m -> OutgoingMessage.carries m ds.
Proof.
  intros Hraw. unfold compose.
  destruct (OutgoingMessage.set_payload _ _) as [[[]|e] m1] eqn:E; [|done].
  eapply set_payload_carries in E as [? _]; [|apply outgoing_new_carries].
  by apply (add_transfers_carries m1 []).
Qed.

Lemma accounted_send external st w endpoint header payload ds :
  op_ok (Send w endpoint header payload ds) -> accounted external st ->
  exists st', run_op st (Send w endpoint header payload ds) = Ret st' /\ accounted external st'.
Proof.
  intros Hok Hacc. simpl. destruct (compose header payload ds) as [m|e] eqn:Hm; [|eauto].
  apply compose_carries in Hm; [|done].
  destruct Hacc as (Hwa&Hwb&Hr&Hws&ms0&ms1&Hch&Hrefs).
  destruct (send_spec (channel st) (registry st) (process st w) endpoint m ds (waiters st)
    ms0 ms1 Hch Hm) as (res&c'&p'&ws'&->&Hres).
  eexists; split; [done|]. destruct res as [u|e].
  2: { destruct Hres as (->&->&->). destruct w; (split_and!; simpl; try done; by eexists _, _). }
  destruct Hres as (eo&toks&t'&qm&_&Hmv&->&_&Hesc&->&_&_&Hside).
  assert (HandleTable.wf (Process.handles (process st w))) as Hwp by (by destruct w).
  pose proof (moves_wf _ _ _ _ _ Hwp Hmv) as Hwt.
  pose proof (fun o => moves_accounted _ _ _ _ _ o Hmv) as Hmoved.
  destruct w; simpl in *; (split_and!; simpl; [done|done|done|by apply notify_wf|]);
    destruct Hside as [[_ Hch']|[_ Hch']]; eexists _, _; (split; [done|]); intros o;
    rewrite Hrefs, Hmoved, !escrow_of_app, !escrowed_app, (escrow_of_singleton _ _ Hesc);
    lia.
Qed.

Lemma accounted_receive external st w endpoint :
  accounted external st ->
  exists st', run_op st (Receive w endpoint) = Ret st' /\ accounted external st'.
Proof.
  intros (Hwa&Hwb&Hr&Hws&ms0&ms1&Hch&Hrefs). simpl.
  assert (HandleTable.wf (Process.handles (process st w))) as Hwp by (by destruct w).
  destruct (receive_spec (channel st) (registry st) (process st w) endpoint ms0 ms1 Hch Hwp)
    as (res&c'&p'&->&Hres).
  eexists; split; [done|]. destruct res as [[received|]|e].
  2: { destruct Hres as (->&->&_). destruct w; (split_and!; simpl; try done; by eexists _, _). }
  2: { destruct Hres as (->&->). destruct w; (split_and!; simpl; try done; by eexists _, _). }
  destruct Hres as (eo&toks&hs&t'&qm&_&Hesc&Hins&->&_&_&_&Hside).
  pose proof (installs_wf _ _ _ _ _ Hwp Hins) as Hwt.
  pose proof (fun o => installs_accounted _ _ _ _ _ o Hwp Hins) as Hinst.
  destruct w; simpl in *; (split_and!; simpl; try done);
    destruct Hside as [(_&ms'&->&Hch')|(_&ms'&->&Hch')]; eexists _, _; (split; [done|]); intros o;
    rewrite Hrefs, Hinst, !escrow_of_app, !escrowed_app, (escrow_of_cons _ _ _ Hesc), escrowed_app;
    lia.
Qed.

(** The account seen from process [w]. *)
Lemma accounted_balanced external st w :
  accounted external st ->
  exists ms0 ms1, ChannelPair.holds_messages (channel st) ms0 ms1
    /\ balanced (Process.handles (process st w)) (registry st) (fun o =>
         HandleTable.holds (Process.handles (process st (match w with A => B | B => A end))) o
         + (Flow.escrowed (ChannelPair.escrow_of (ms0 ++ ms1)) o + external o)).
Proof.
  intros (Hwa&Hwb&Hr&Hws&ms0&ms1&Hch&Hrefs). exists ms0, ms1. split; [done|].
  destruct w; (split_and!; [done..|]); intros o; rewrite Hrefs; simpl; lia.
Qed.

Lemma balanced_accounted external st w table r ms0 ms1 :
  accounted external st -> ChannelPair.holds_messages (channel st) ms0 ms1 ->
  balanced table r (fun o =>
    HandleTable.holds (Process.handles (process st (match w with A => B | B => A end))) o
    + (Flow.escrowed (ChannelPair.escrow_of (ms0 ++ ms1)) o + external o)) ->
  accounted external
    (set_registry (set_process st w (Process.set_handles (process st w) table)) r).
Proof.
  intros (Hwa&Hwb&_&Hws&_) Hch (Hwt&Hr&Hrefs).
  destruct w; (split_and!; simpl; try done); exists ms0, ms1; (split; [done|]);
    intros o; rewrite Hrefs; simpl; lia.
Qed.

Lemma install_endpoints_balanced c r pa pb rights rest res r' pa' pb' :
  HandleTable.wf (Process.handles pb) ->
  balanced (Process.handles pa) r (fun o => HandleTable.holds (Process.handles pb) o + rest o) ->
  ChannelPair.install_endpoints c r pa pb rights = (res, r', pa', pb') ->
  HandleTable.wf (Process.handles pb')
  /\ balanced (Process.handles pa') r' (fun o => HandleTable.holds (Process.handles pb') o + rest o).
Proof.
  intros Hwb Hbal. unfold ChannelPair.install_endpoints.
  destruct (HandleTable.insert (Process.handles pa) _ _ _) as [[[a|e] ta] r1] eqn:Ea;
    eapply balanced_insert in Ea; try done; [|by intros; simplify_eq/=].
  pose proof Ea as [Hwa _]. apply balanced_swap in Ea; [|done].
  destruct (HandleTable.insert (Process.handles pb) _ _ _) as [[[b|e] tb] r2] eqn:Eb;
    eapply balanced_insert in Eb; try done; pose proof Eb as [Hwb' _];
    apply balanced_swap in Eb; try done; [by intros; simplify_eq/=|].
  destruct (HandleTable.close ta r2 a) as [[[u|e'] ta'] r3] eqn:Ec;
    eapply balanced_close in Ec; try done; intros; by simplify_eq/=.
Qed.

Lemma accounted_install_endpoints external st rights :
  accounted external st ->
  exists st', run_op st (InstallEndpoints rights) = Ret st' /\ accounted external st'.
Proof.
  intros Hacc. pose proof Hacc as (_&Hwb&_&Hws&_). simpl.
  destruct (accounted_balanced _ _ A Hacc) as (ms0&ms1&Hch&Hbal). simpl in Hbal.
  destruct (ChannelPair.install_endpoints _ _ _ _ _) as [[[res r'] pa'] pb'] eqn:E.
  destruct (install_endpoints_balanced (channel st) (registry st) (process_a st) (process_b st)
    rights (fun o => Flow.escrowed (ChannelPair.escrow_of (ms0 ++ ms1)) o + external o)
    res r' pa' pb' Hwb Hbal E) as (?&?&?&Hrefs).
  eexists; split; [done|]. split_and!; simpl; try done.
  exists ms0, ms1. split; [done|exact Hrefs].
Qed.

Lemma accounted_close external st w handle :
  accounted external st ->
  exists st', run_op st (Close w handle) = Ret st' /\ accounted external st'.
Proof.
  intros Hacc. simpl. destruct (HandleTable.close _ _ _) as [[res table] r] eqn:E.
  eexists; split; [done|].
  destruct (accounted_balanced _ _ w Hacc) as (ms0&ms1&Hch&Hbal).
  eapply balanced_accounted; [done|done|]. by eapply balanced_close.
Qed.

Lemma accounted_exit external st w :
  accounted external st ->
  exists st', run_op st (Exit w) = Ret st' /\ accounted external st'.
Proof.
  intros Hacc. simpl. destruct (HandleTable.close_all _ _) as [table r] eqn:E.
  eexists; split; [done|].
  destruct (accounted_balanced _ _ w Hacc) as (ms0&ms1&Hch&Hbal).
  eapply balanced_accounted; [done|done|]. by eapply balanced_close_all.
Qed.

Lemma accounted_drain external st :
  accounted external st -> exists st', run_op st Drain = Ret st' /\ accounted external st'.
Proof.
  intros (Hwa&Hwb&Hr&Hws&ms0&ms1&Hch&Hrefs). simpl.
  destruct (drain_spec (channel st) ms0 ms1 (registry st) (fun o =>
    HandleTable.holds (Process.handles (process_a st)) o
    + (HandleTable.holds (Process.handles (process_b st)) o + external o)) Hch Hr)
    as (c'&r'&->&Hch'&Hr'&_&_&Hrefs').
  { intros o. rewrite Hrefs. lia. }
  eexists; split; [done|]. split_and!; simpl; try done. exists [], []. split; [done|].
  intros o. rewrite Hrefs'. unfold Flow.escrowed, count_of; simpl. lia.
Qed.

Lemma accounted_system_op external st x :
  op_ok x -> accounted external st ->
  exists st', run_op st x = Ret st' /\ accounted external st'.
Proof.
  destruct x; eauto using accounted_send, accounted_receive, accounted_install_endpoints,
    accounted_close, accounted_exit, accounted_drain.
Qed.
End system.

(** ** Properties *)

(** Capabilities are conserved by a channel.  Through every sequence of
    sends, receives, endpoint installs, closes, process exits and drains by two
    processes nothing panics, and the registry's count of an object stays the
    number of its handles, of its tokens in queued messages and of its external
    references: no message leaks, duplicates or forges a capability. *)
Theorem channel_conserves_references external st xs :
  ChannelSystem.accounted external st -> Forall ChannelSystem.op_ok xs ->
  exists st', ChannelSystem.run_ops st xs = Ret st' /\ ChannelSystem.accounted external st'.
Proof.
  intros Hacc Hok. revert st Hacc. induction Hok as [|x xs Hx _ IH]; intros st Hacc; simpl; [eauto|].
  destruct (accounted_system_op external st x Hx Hacc) as (st'&->&?). auto.
Qed.


(** Receiving delivers the oldest message or nothing.  It never panics and
    never needs its rollback; unless a message is delivered the channel and the
    receiver are unchanged; a delivered message is the oldest one sent by the
    peer, with the sender id the kernel recorded, and each of its handles
    resolves to the capability that was in escrow, none of the receiver's other
    handles being disturbed. *)
Theorem receive_delivers_oldest self r receiver endpoint ms0 ms1 :
  ChannelPair.holds_messages self ms0 ms1 -> HandleTable.wf (Process.handles receiver) ->
  exists res self' receiver',
    ChannelPair.receive self r receiver endpoint = Ret (res, self', receiver')
    /\ match res with
       | Err _ | Ok None => self' = self /\ receiver' = receiver
       | Ok (Some received) => exists m toks hs,
           QueuedMessage.escrows m toks
           /\ ((exists ms, ms1 = m :: ms /\ ChannelPair.holds_messages self' ms0 ms)
               \/ (exists ms, ms0 = m :: ms /\ ChannelPair.holds_messages self' ms ms1))
           /\ received =
                ReceivedMessage.mk (QueuedMessage.sender_process_id m) (QueuedMessage.header m)
                  (QueuedMessage.payload m) (QueuedMessage.payload_len m)
                  (padded MAX_TRANSFER_HANDLES hs) (length toks)
           /\ Forall2 (fun tok h => HandleTable.entry (Process.handles receiver') r h
                                    = Ok (TransferToken.capability tok)) toks hs
           /\ (forall h c, HandleTable.entry (Process.handles receiver) r h = Ok c ->
                 HandleTable.entry (Process.handles receiver') r h = Ok c)
       end.
Proof.
  intros Hch Hwf. destruct (receive_spec self r receiver endpoint ms0 ms1 Hch Hwf)
    as (res&self'&receiver'&Hrun&Hres).
  do 3 eexists. split; [done|]. destruct res as [[received|]|e]; [|naive_solver..].
  destruct Hres as (eo&toks&hs&t'&m&_&Hesc&Hins&->&->&_&_&Hside).
  exists m, toks, hs. split_and!; [done|naive_solver|done|by eapply installs_entries|].
  intros h c. by eapply installs_keep.
Qed.

(** The ring buffer is a bounded first-in first-out queue.  From an empty
    queue every sequence of pushes, pops and peeks runs without a panic and
    answers exactly as a list of at most [MAX_QUEUE] messages would. *)
Theorem queue_refines_fifo xs :
  exists q, Queue.run_ops Queue.new xs = Ret ((Queue.fifo_ops [] xs).1, q)
    /\ Queue.represents q (Queue.fifo_ops [] xs).2.
Proof.
  generalize queue_new_represents. generalize Queue.new as q, (@nil QueuedMessage.t) as ms.
  induction xs as [|x xs IH]; intros q ms Hrep; simpl; [eauto|].
  destruct (run_op_fifo q ms x Hrep) as (q1&->&Hrep1).
  destruct (Queue.fifo_op ms x) as [a ms1]; simpl in *.
  destruct (IH q1 ms1 Hrep1) as (q2&->&Hrep2). destruct (Queue.fifo_ops ms1 xs); simpl in *. eauto.
Qed.

(** Draining a channel ends, reports no error, leaves both queues empty and
    gives back exactly the references its queued tokens held. *)
Theorem drain_releases_escrow self ms0 ms1 r (rest : ObjectId.t -> N) :
  ChannelPair.holds_messages self ms0 ms1 -> ObjectRegistry.wf r ->
  (forall o, ObjectRegistry.refs r o
     = Flow.escrowed (ChannelPair.escrow_of (ms0 ++ ms1)) o + rest o) ->
  exists self' r', ChannelPair.drain self r = Some (Ret (Ok tt, self', r'))
    /\ ChannelPair.holds_messages self' [] []
    /\ forall o, ObjectRegistry.refs r' o = rest o.
Proof.
  intros Hch Hr Hrefs. destruct (drain_spec self ms0 ms1 r rest Hch Hr Hrefs)
    as (self'&r'&?&?&_&_&_&?). eauto.
Qed.

(** ** Witnesses *)

Module ChannelExample.
Definition oc := ObjectId.mk 0 1 ObjectKind.Channel.
Definition oa := ObjectId.mk 1 1 ObjectKind.ChannelEndpoint.
Definition ob := ObjectId.mk 2 1 ObjectKind.ChannelEndpoint.
Definition ov := ObjectId.mk 3 1 ObjectKind.Vmo.
Definition space := ObjectId.mk 4 1 ObjectKind.AddressSpace.
Definition kinds := [ObjectKind.Channel; ObjectKind.ChannelEndpoint; ObjectKind.ChannelEndpoint;
                     ObjectKind.Vmo; ObjectKind.AddressSpace].
Definition created (n : nat) : ObjectRegistry.t :=
  foldl (fun r k => (ObjectRegistry.create r k).2) (ObjectRegistry.new 5) (take n kinds).
Definition registry0 := created 5.
Definition all_rights := Rights.mk 511.
Definition header := MessageHeader.mk 1 1 7 2 0.
Definition channel0 := ChannelPair.mk oc oa ob [Queue.new; Queue.new].

(** Process 1 holds the memory object of handle [vmo]. *)
Definition table0 := (HandleTable.insert (HandleTable.new 4) registry0 ov all_rights).1.2.
Definition registry1 := (HandleTable.insert (HandleTable.new 4) registry0 ov all_rights).2.
Definition vmo := Handle.new 0 1.
Definition process1 := Process.mk 1 space table0 ProcessState.Running.
Definition process2 := Process.new 4 2 space.
Definition system0 := ChannelSystem.mk process1 process2 registry1 channel0 WaitRegistry.new.
Definition external (o : ObjectId.t) : N :=
  same oc o + (same oa o + (same ob o + (same ov o + same space o))).

(** Install the endpoints, send the memory object read-only, receive it, and
    tear everything down. *)
Definition script :=
  [ChannelSystem.InstallEndpoints all_rights;
   ChannelSystem.Send ChannelSystem.A (Handle.new 1 1) header [1; 2; 3]
     [HandleDisposition.mk vmo Rights.READ];
   ChannelSystem.Receive ChannelSystem.B (Handle.new 0 1);
   ChannelSystem.Exit ChannelSystem.A;
   ChannelSystem.Drain].

Lemma channel0_holds : ChannelPair.holds_messages channel0 [] [].
Proof.
  split_and!; [done..|by eexists _, _; split_and!; auto using queue_new_represents|constructor].
Qed.

Lemma created_wf n : ObjectRegistry.wf (created n).
Proof.
  unfold created. generalize (take n kinds). intros ks.
  assert (ObjectRegistry.wf (ObjectRegistry.new 5)) as H by (by apply registry_new_wf).
  revert H. generalize (ObjectRegistry.new 5). induction ks as [|k ks IH]; intros r H; [done|].
  apply IH. by apply create_wf.
Qed.

Lemma registry0_refs o : ObjectRegistry.refs registry0 o = external o.
Proof.
  rewrite (refs_created (created 4) ObjectKind.AddressSpace space) by (done || apply created_wf).
  rewrite (refs_created (created 3) ObjectKind.Vmo ov) by (done || apply created_wf).
  rewrite (refs_created (created 2) ObjectKind.ChannelEndpoint ob) by (done || apply created_wf).
  rewrite (refs_created (created 1) ObjectKind.ChannelEndpoint oa) by (done || apply created_wf).
  rewrite (refs_created (created 0) ObjectKind.Channel oc) by (done || apply created_wf).
  change (created 0) with (ObjectRegistry.new 5). rewrite (refs_new 5 o). unfold external, same. lia.
Qed.

Lemma table0_balanced : balanced table0 registry1 external.
Proof.
  apply (balanced_insert (HandleTable.new 4) registry0 external ov all_rights (Ok vmo));
    [|by vm_compute]. split_and!; [by apply table_new_wf|apply (created_wf 5)|].
  intros o. rewrite table_new_holds, registry0_refs. lia.
Qed.

Lemma system0_accounted : ChannelSystem.accounted external system0.
Proof.
  destruct table0_balanced as (?&?&Hrefs).
  split_and!; simpl; try done; [by apply table_new_wf|apply wait_new_wf|].
  exists [], []. split; [exact channel0_holds|]. intros o. simpl.
  rewrite Hrefs, (table_new_holds 4). unfold Flow.escrowed, count_of; simpl. lia.
Qed.

Lemma channel_conserves_references_witness :
  exists st, ChannelSystem.run_ops system0 script = Ret st
    /\ ChannelSystem.accounted external st.
Proof.
  apply (channel_conserves_references external system0 script system0_accounted).
  repeat constructor; by vm_compute.
Defined.

(** The system after the first [n] steps of the script. *)
Definition after (n : nat) : ChannelSystem.t :=
  match ChannelSystem.run_ops system0 (take n script) with Ret st => st | Panic => system0 end.

Definition token := TransferToken.mk (Capability.mk ov Rights.READ).
Definition disposition := HandleDisposition.mk vmo Rights.READ.
Definition message :=
  OutgoingMessage.mk header ([1; 2; 3] ++ replicate 125 0) 3
    (padded MAX_TRANSFER_HANDLES [disposition]) 1.
Definition queued :=
  QueuedMessage.mk 1 header ([1; 2; 3] ++ replicate 125 0) 3
    (padded MAX_TRANSFER_HANDLES [token]) 1.
Definition queue1 := Queue.mk (Some queued :: replicate 7 None) 0 1 1.
Definition channel1 := ChannelPair.mk oc oa ob [queue1; Queue.new].

Lemma message_carries : OutgoingMessage.carries message [disposition].
Proof.
  split_and!; try done; [unfold MAX_INLINE_PAYLOAD; simpl; lia|
    unfold MAX_TRANSFER_HANDLES; simpl; lia|by repeat constructor].
Qed.

Lemma queued_escrows : QueuedMessage.escrows queued [token].
Proof.
  split_and!; try done; [unfold MAX_INLINE_PAYLOAD|unfold MAX_TRANSFER_HANDLES]; simpl; lia.
Qed.

Lemma queue1_represents : Queue.represents queue1 [queued].
Proof.
  unfold Queue.represents. split_and!; try done; [unfold MAX_QUEUE; simpl; lia..|].
  intros i Hi. unfold MAX_QUEUE in *. do 8 (destruct i as [|i]; [done|]). lia.
Qed.

Lemma channel1_holds : ChannelPair.holds_messages channel1 [queued] [].
Proof.
  split_and!; [done..| |by repeat constructor; exists [token]; apply queued_escrows].
  eexists _, _. split_and!; auto using queue_new_represents, queue1_represents.
Qed.

Lemma table_wf_dec (t : HandleTable.t) :
  forallb (fun s => (1 <=? HandleSlot.generation s)
                    && (HandleSlot.generation s <? U32_MAX)) (HandleTable.slots t) = true ->
  (length (HandleTable.slots t) <= 8)%nat -> HandleTable.wf t.
Proof.
  intros Hall Hlen. split; [|unfold U32_MAX; lia].
  apply Forall_forall. intros s Hs. rewrite forallb_forall in Hall.
  specialize (Hall s ltac:(by apply list_elem_of_In)).
  apply andb_prop in Hall as [?%N.leb_le ?%N.ltb_lt]. split; [lia|]. intros. lia.
Qed.


Lemma receive_delivers_oldest_witness :
  let receiver := ChannelSystem.process_b (after 2) in
  let r := ChannelSystem.registry (after 2) in
  exists res self' receiver',
    ChannelPair.receive channel1 r receiver (Handle.new 0 1) = Ret (res, self', receiver')
    /\ match res with
       | Err _ | Ok None => self' = channel1 /\ receiver' = receiver
       | Ok (Some received) => exists m toks hs,
           QueuedMessage.escrows m toks
           /\ ((exists ms, [] = m :: ms /\ ChannelPair.holds_messages self' [queued] ms)
               \/ (exists ms, [queued] = m :: ms /\ ChannelPair.holds_messages self' ms []))
           /\ received =
                ReceivedMessage.mk (QueuedMessage.sender_process_id m) (QueuedMessage.header m)
                  (QueuedMessage.payload m) (QueuedMessage.payload_len m)
                  (padded MAX_TRANSFER_HANDLES hs) (length toks)
           /\ Forall2 (fun tok h => HandleTable.entry (Process.handles receiver') r h
                                    = Ok (TransferToken.capability tok)) toks hs
           /\ (forall h c, HandleTable.entry (Process.handles receiver) r h = Ok c ->
                 HandleTable.entry (Process.handles receiver') r h = Ok c)
       end.
Proof.
  apply receive_delivers_oldest; [exact channel1_holds|].
  apply table_wf_dec; [by vm_compute|]. vm_compute. lia.
Defined.

Lemma drain_releases_escrow_witness :
  exists self' r', ChannelPair.drain channel1 registry1 = Some (Ret (Ok tt, self', r'))
    /\ ChannelPair.holds_messages self' [] []
    /\ forall o, ObjectRegistry.refs r' o
         = HandleTable.holds table0 o + (same oc o + (same oa o + (same ob o + same space o))).
Proof.
  apply (drain_releases_escrow channel1 [queued] [] registry1 (fun o =>
    HandleTable.holds table0 o + (same oc o + (same oa o + (same ob o + same space o))))
    channel1_holds); [apply table0_balanced|].
  intros o. destruct table0_balanced as (_&_&->). rewrite app_nil_r.
  rewrite (escrow_of_singleton _ _ queued_escrows), escrowed_cons. unfold external.
  change (Flow.token_object token) with ov. unfold Flow.escrowed, count_of; simpl. lia.
Defined.
End ChannelExample.
