(* ===== verification/Events.v ===== *)
(** * Events, timers and waiting (kernel/src/ipc.rs, [WaitSource] to the end)

    Wait items over channels, events and timers, [wait_many], and the
    operations of a process on its events and timers. *)

From stdpp Require Import prelude.
From S2P Require Import Prelude Handles WaitRegistry Channel.

Local Open Scope N_scope.
Local Open Scope nagi_scope.

Module Event.
Record t := mk { object : ObjectId.t; signaled : bool }.

Definition new (object : ObjectId.t) : t := mk object false.

Definition signal (self : t) (waiters : WaitRegistry.t) : t * WaitRegistry.t :=
  (mk (object self) true, (WaitRegistry.notify waiters (object self) Signals.SIGNALED).2).

Definition clear (self : t) : t := mk (object self) false.
End Event.

Module Timer.
Record t := mk { object : ObjectId.t; deadline : option N; fired : bool }.

Definition new (object : ObjectId.t) : t := mk object None false.

Definition arm (self : t) (now duration : N) : Result unit WaitError.t * t :=
  match u64_checked_add now duration with
  | None => (Err WaitError.TooMany, self)
  | Some d => (Ok tt, mk (object self) (Some d) false)
  end.

(** [self.deadline.is_some_and(|deadline| now >= deadline)] *)
Definition expired (self : t) (now : N) : bool :=
  match deadline self with Some d => bool_decide (d <= now) | None => false end.

Definition poll (self : t) (now : N) (waiters : WaitRegistry.t) : t * WaitRegistry.t :=
  if negb (fired self) && expired self now
  then (mk (object self) (deadline self) true,
        (WaitRegistry.notify waiters (object self) Signals.FIRED).2)
  else (self, waiters).
End Timer.

Module WaitSource.
Inductive t :=
| Channel (channel : ChannelPair.t) (object : ObjectId.t)
| Event (event : Event.t)
| Timer (timer : Timer.t) (now : N).
End WaitSource.

Module WaitItem.
Record t := mk {
  source : WaitSource.t;
  object : ObjectId.t;
  interests : Signals.t;
  observed : Signals.t
}.

Definition channel (channel : ChannelPair.t) (object : ObjectId.t) (interests : Signals.t) : t :=
  mk (WaitSource.Channel channel object) object interests Signals.empty.

Definition event (event : Event.t) (interests : Signals.t) : t :=
  mk (WaitSource.Event event) (Event.object event) interests Signals.empty.

Definition timer (timer : Timer.t) (now : N) (interests : Signals.t) : t :=
  mk (WaitSource.Timer timer now) (Timer.object timer) interests Signals.empty.

Definition refresh (self : t) : Exec t :=
  let! observed :=
    match source self with
    | WaitSource.Channel channel object =>
        let! signals := ChannelPair.readiness channel object in
        Ret (match signals with Ok s => s | Err _ => Signals.empty end)
    | WaitSource.Event event =>
        Ret (if Event.signaled event then Signals.SIGNALED else Signals.empty)
    | WaitSource.Timer timer now =>
        Ret (if Timer.fired timer || Timer.expired timer now
             then Signals.FIRED else Signals.empty)
    end in
  Ret (mk (source self) (object self) (interests self) observed).

(** [item.observed.intersects(item.interests)] *)
Definition satisfied (self : t) : bool := Signals.intersects (observed self) (interests self).

Definition is_ready (self : t) : Exec (bool * t) :=
  let! self := refresh self in Ret (satisfied self, self).

(** A channel item looks at a pair with both its queues. *)
Definition source_ok (self : t) : Prop :=
  match source self with
  | WaitSource.Channel channel _ => length (ChannelPair.queues channel) = 2%nat
  | _ => True
  end.
End WaitItem.

(** [for item in items.iter_mut() { item.refresh(); }] *)
Fixpoint refresh_all (items : list WaitItem.t) : Exec (list WaitItem.t) :=
  match items with
  | [] => Ret []
  | item :: items =>
      let! item := WaitItem.refresh item in
      let! items := refresh_all items in
      Ret (item :: items)
  end.

(** [items.iter().enumerate().find(..)] *)
Definition find_ready (items : list WaitItem.t) : option (nat * WaitItem.t) :=
  list_find (fun item => WaitItem.satisfied item = true) items.

(** What [WaitRegistry::register] reads of an item. *)
Definition interest_of (item : WaitItem.t) : ObjectId.t * Signals.t :=
  (WaitItem.object item, WaitItem.interests item).

Definition wait_many (registry : WaitRegistry.t) (waiter : Waiter.t) (items : list WaitItem.t)
  : Exec (Result WaitOutcome.t WaitError.t * WaitRegistry.t * Waiter.t * list WaitItem.t) :=
  if decide (items = [] :> list WaitItem.t)
  then Ret (Err WaitError.Empty, registry, waiter, items)
  else if decide (MAX_WAIT_ITEMS < length items)%nat
  then Ret (Err WaitError.TooMany, registry, waiter, items)
  else
    let waiter := (Waiter.take_outcome waiter).2 in
    let! items := refresh_all items in
    match find_ready items with
    | Some (index, item) =>
        Ret (Ok (WaitOutcome.mk index (WaitItem.observed item)),
             WaitRegistry.cancel registry waiter,
             Waiter.set_state waiter WaiterState.Runnable, items)
    | None =>
        match WaitRegistry.register registry waiter (interest_of <$> items) with
        | (Err error, registry, waiter) =>
            Ret (Err error, registry, Waiter.set_state waiter WaiterState.Runnable, items)
        | (Ok _, registry, waiter) =>
            let! items := refresh_all items in
            match find_ready items with
            | Some (index, item) =>
                Ret (Ok (WaitOutcome.mk index (WaitItem.observed item)),
                     WaitRegistry.cancel registry waiter,
                     Waiter.set_state waiter WaiterState.Runnable, items)
            | None => Ret (Err WaitError.Blocked, registry, waiter, items)
            end
        end
    end.

Definition wait (registry : WaitRegistry.t) (waiter : Waiter.t) (item : WaitItem.t)
  : Exec (Result WaitOutcome.t WaitError.t * WaitRegistry.t * Waiter.t) :=
  let! (result, registry, waiter, _) := wait_many registry waiter [item] in
  Ret (result, registry, waiter).

(** ** Wait items and operations through a process's handles *)

Definition channel_wait_item (self : ChannelPair.t) (endpoint : ObjectId.t)
  (interests : Signals.t) : Exec (Result WaitItem.t ChannelError.t) :=
  let! signals := ChannelPair.readiness self endpoint in
  Ret (let? _ := signals in Ok (WaitItem.channel self endpoint interests)).

Definition channel_wait_item_for_process (self : ChannelPair.t) (registry : ObjectRegistry.t)
  (process : Process.t) (endpoint : Handle.t) (interests : Signals.t)
  : Exec (Result WaitItem.t ChannelError.t) :=
  match HandleTable.require (Process.handles process) registry endpoint
          ObjectKind.ChannelEndpoint Rights.WAIT with
  | Err e => Ret (Err (ChannelError.from e))
  | Ok endpoint_object => channel_wait_item self endpoint_object interests
  end.

(** [self.handles.require(..).map_err(WaitError::from)?; if object != expected ..] *)
Definition require_object (process : Process.t) (registry : ObjectRegistry.t) (handle : Handle.t)
  (kind : ObjectKind.t) (rights : Rights.t) (expected : ObjectId.t) : Result unit WaitError.t :=
  let? object := map_err WaitError.from
                   (HandleTable.require (Process.handles process) registry handle kind rights) in
  if decide (object <> expected) then Err WaitError.Stale else Ok tt.

Definition event_wait_item_for_process (self : Event.t) (registry : ObjectRegistry.t)
  (process : Process.t) (handle : Handle.t) (interests : Signals.t)
  : Result WaitItem.t WaitError.t :=
  let? _ := require_object process registry handle ObjectKind.Event Rights.WAIT
              (Event.object self) in
  Ok (WaitItem.event self interests).

Definition timer_wait_item_for_process (self : Timer.t) (registry : ObjectRegistry.t)
  (process : Process.t) (handle : Handle.t) (now : N) (interests : Signals.t)
  : Result WaitItem.t WaitError.t :=
  let? _ := require_object process registry handle ObjectKind.Timer Rights.WAIT
              (Timer.object self) in
  Ok (WaitItem.timer self now interests).

Definition signal_event (self : Process.t) (registry : ObjectRegistry.t) (handle : Handle.t)
  (event : Event.t) (waiters : WaitRegistry.t)
  : Result unit WaitError.t * Event.t * WaitRegistry.t :=
  match require_object self registry handle ObjectKind.Event Rights.SIGNAL (Event.object event) with
  | Err e => (Err e, event, waiters)
  | Ok _ => let '(event, waiters) := Event.signal event waiters in (Ok tt, event, waiters)
  end.

Definition clear_event (self : Process.t) (registry : ObjectRegistry.t) (handle : Handle.t)
  (event : Event.t) : Result unit WaitError.t * Event.t :=
  match require_object self registry handle ObjectKind.Event Rights.SIGNAL (Event.object event) with
  | Err e => (Err e, event)
  | Ok _ => (Ok tt, Event.clear event)
  end.

Definition arm_timer (self : Process.t) (registry : ObjectRegistry.t) (handle : Handle.t)
  (timer : Timer.t) (now duration : N) : Result unit WaitError.t * Timer.t :=
  match require_object self registry handle ObjectKind.Timer Rights.CONTROL
          (Timer.object timer) with
  | Err e => (Err e, timer)
  | Ok _ => Timer.arm timer now duration
  end.

Definition poll_timer (self : Process.t) (registry : ObjectRegistry.t) (handle : Handle.t)
  (timer : Timer.t) (now : N) (waiters : WaitRegistry.t)
  : Result unit WaitError.t * Timer.t * WaitRegistry.t :=
  match require_object self registry handle ObjectKind.Timer Rights.CONTROL
          (Timer.object timer) with
  | Err e => (Err e, timer, waiters)
  | Ok _ => let '(timer, waiters) := Timer.poll timer now waiters in (Ok tt, timer, waiters)
  end.

(** ** Specifications *)

(** The signals a source shows, without the mechanism of reading them. *)
Definition shows (item : WaitItem.t) : Signals.t :=
  match WaitItem.refresh item with Ret item => WaitItem.observed item | Panic => Signals.empty end.

Definition ready (item : WaitItem.t) : bool :=
  Signals.intersects (shows item) (WaitItem.interests item).

(** The waiter will be woken for [object] or has been already: it has a
    registration for it, or a wake-up is queued for its current epoch. *)
Definition awaits (registry : WaitRegistry.t) (waiter : Waiter.t) (object : ObjectId.t)
  (interests : Signals.t) : Prop :=
  (exists index, WaitRegistry.registered registry
     (WaitRegistration.mk (Waiter.id waiter) (Waiter.epoch waiter) object interests index))
  \/ exists wake, WaitRegistry.queued registry wake
       /\ WaitRegistry.wake_key wake = (Waiter.id waiter, Waiter.epoch waiter).

(** An operation that leaves the waiter [id] alone: a notification, or an
    operation of another waiter. *)
Definition spares (id : N) (x : WaitRegistry.op) : Prop :=
  match x with
  | WaitRegistry.Notify _ _ => True
  | WaitRegistry.Register w _ | WaitRegistry.Cancel w | WaitRegistry.Sync w => Waiter.id w <> id
  | WaitRegistry.CancelWaiter id' => id' <> id
  | WaitRegistry.TakeWoken => False
  end.

(** An item after [refresh]. *)
Definition refreshed (item : WaitItem.t) : WaitItem.t :=
  WaitItem.mk (WaitItem.source item) (WaitItem.object item) (WaitItem.interests item) (shows item).

(** A timer polled at each of the times in turn. *)
Definition poll_at (state : Timer.t * WaitRegistry.t) (times : list N) : Timer.t * WaitRegistry.t :=
  foldl (fun '(timer, waiters) now => Timer.poll timer now waiters) state times.

(** ** Theory *)

Section waiting.
Implicit Types (items : list WaitItem.t) (registry : WaitRegistry.t) (waiter : Waiter.t).

Lemma refresh_spec item : WaitItem.source_ok item -> WaitItem.refresh item = Ret (refreshed item).
Proof.
  unfold refreshed, shows, WaitItem.source_ok, WaitItem.refresh.
  destruct (WaitItem.source item) as [c o| |]; [|done..]. intros Hlen.
  unfold ChannelPair.readiness, ChannelPair.queue_for_receiver, index.
  destruct (ChannelPair.queues c) as [|q0 [|q1 [|]]]; try done. by repeat case_decide.
Qed.

Lemma refreshed_ok item : WaitItem.source_ok item -> WaitItem.source_ok (refreshed item).
Proof. done. Qed.

Lemma refreshed_idemp item : refreshed (refreshed item) = refreshed item.
Proof. done. Qed.

Lemma refresh_all_spec items :
  Forall WaitItem.source_ok items -> refresh_all items = Ret (refreshed <$> items).
Proof.
  induction 1 as [|item items Hok _ IH]; [done|]. simpl. by rewrite refresh_spec, IH.
Qed.

Lemma refreshed_all_ok items :
  Forall WaitItem.source_ok items -> Forall WaitItem.source_ok (refreshed <$> items).
Proof. intros H. apply Forall_fmap. eapply Forall_impl; [done|]. apply refreshed_ok. Qed.

Lemma interest_of_refreshed items : interest_of <$> (refreshed <$> items) = interest_of <$> items.
Proof. by rewrite <-list_fmap_compose. Qed.

Lemma find_ready_Some items i item :
  find_ready (refreshed <$> items) = Some (i, item) ->
  exists item0, items !! i = Some item0 /\ item = refreshed item0 /\ ready item0 = true
    /\ forall j item', (j < i)%nat -> items !! j = Some item' -> ready item' = false.
Proof.
  intros (Hi&Hs&Hlow)%list_find_Some. rewrite list_lookup_fmap in Hi.
  destruct (items !! i) as [item0|] eqn:Hi0; simplify_eq/=. exists item0. split_and!; try done.
  intros j item' Hj Hlt. apply not_true_is_false. intros Hr.
  apply (Hlow j (refreshed item')); [|done|done]. by rewrite list_lookup_fmap, Hlt.
Qed.

Lemma find_ready_None items :
  find_ready (refreshed <$> items) = None -> Forall (fun item => ready item = false) items.
Proof.
  intros H%list_find_None. rewrite Forall_fmap in H.
  eapply Forall_impl; [done|]. intros item ?. by apply not_true_is_false.
Qed.

Lemma cancel_wf registry waiter :
  WaitRegistry.wf registry -> WaitRegistry.wf (WaitRegistry.cancel registry waiter).
Proof. apply clear_registrations_wf. Qed.

(** Waiting on well-formed items, in full. *)
Lemma wait_many_spec registry waiter items :
  WaitRegistry.wf registry -> Forall WaitItem.source_ok items ->
  (0 < length items <= MAX_WAIT_ITEMS)%nat ->
  exists res registry' waiter',
    wait_many registry waiter items = Ret (res, registry', waiter', refreshed <$> items)
    /\ WaitRegistry.wf registry' /\ Waiter.id waiter' = Waiter.id waiter
    /\ match res with
       | Ok outcome => exists item,
           items !! WaitOutcome.index outcome = Some item /\ ready item = true
           /\ WaitOutcome.observed outcome = shows item
           /\ (forall j item', (j < WaitOutcome.index outcome)%nat -> items !! j = Some item' ->
                 ready item' = false)
           /\ Waiter.is_runnable waiter' = true
       | Err e => Forall (fun item => ready item = false) items
           /\ (e = WaitError.TooMany /\ Waiter.is_runnable waiter' = true
               \/ e = WaitError.Blocked /\ Waiter.is_runnable waiter' = false
                  /\ forall j item, items !! j = Some item ->
                       WaitRegistry.registered registry'
                         (WaitRegistration.mk (Waiter.id waiter') (Waiter.epoch waiter')
                            (WaitItem.object item) (WaitItem.interests item) j))
       end.
Proof.
  intros Hwf Hok [Hpos Hle]. unfold wait_many.
  rewrite decide_False by (by destruct items; simpl in *; [lia|]).
  rewrite decide_False by lia. cbv zeta. rewrite refresh_all_spec by done.
  destruct (find_ready (refreshed <$> items)) as [[i item]|] eqn:Hf.
  { apply find_ready_Some in Hf as (item0&Hi&->&Hr&Hlow).
    do 3 eexists. split; [done|]. split_and!; [by apply cancel_wf|done|].
    exists item0. by split_and!. }
  destruct (WaitRegistry.register _ _ _) as [[[u|e] registry1] waiter1] eqn:Hreg;
    apply register_spec in Hreg as (Hwf1&Hid&_&_&Hreg); try done; simpl in Hid.
  2: { destruct Hreg as [-> ->]. do 3 eexists. split; [done|].
       split_and!; [done|done|by apply find_ready_None|by left]. }
  rewrite refresh_all_spec by (by apply refreshed_all_ok).
  replace (refreshed <$> (refreshed <$> items)) with (refreshed <$> items)
    by (by rewrite <-list_fmap_compose). rewrite Hf.
  do 3 eexists. split; [done|]. split_and!; [done|done|by apply find_ready_None|].
  right. destruct Hreg as (Hst&_&Hreg). split_and!; [done|by unfold Waiter.is_runnable; rewrite Hst|].
  intros j item Hj. apply Hreg; [done|].
  exists j, (WaitItem.object item), (WaitItem.interests item). split; [|done].
  by rewrite interest_of_refreshed, list_lookup_fmap, Hj.
Qed.

(** A pending wake-up survives what other waiters do. *)
Lemma awaits_notify registry waiter object interests o s :
  WaitRegistry.wf registry -> awaits registry waiter object interests ->
  awaits (WaitRegistry.notify registry o s).2 waiter object interests.
Proof.
  intros Hwf Haw. destruct (notify_spec o s registry Hwf) as (b&after&_&->&_&Hnf). simpl.
  destruct Haw as [(index&Hr)|(w&Hq&Hk)];
    [|right; exists w; eauto using WaitRegistry.nf_queued_before].
  set (r := WaitRegistration.mk _ _ _ _ _) in Hr.
  destruct (decide (Exists (fun r' => WaitRegistry.matches o s r'
    /\ WaitRegistry.registration_key r' = WaitRegistry.registration_key r)
    (omap id (WaitRegistry.registrations registry)))) as [Hex|Hnex].
  - apply Exists_exists in Hex as (r'&(e&Hin&He)%list_elem_of_omap&Hm&Hk).
    simpl in He. subst e. right.
    destruct (WaitRegistry.nf_woken _ _ _ _ Hnf r' Hin Hm) as (w&?&Hw).
    exists w. split; [done|]. by rewrite Hw, Hk.
  - left. exists index. apply (WaitRegistry.nf_registered _ _ _ _ Hnf). split; [done|].
    intros r' Hin Hm Hk. apply Hnex, Exists_exists. exists r'.
    split; [|done]. apply list_elem_of_omap. by exists (Some r').
Qed.

Lemma awaits_clear registry waiter object interests registry' :
  (forall r, WaitRegistration.waiter_id r = Waiter.id waiter ->
     WaitRegistry.registered registry r -> WaitRegistry.registered registry' r) ->
  (forall w, WaitWake.waiter_id w = Waiter.id waiter ->
     WaitRegistry.queued registry w -> WaitRegistry.queued registry' w) ->
  awaits registry waiter object interests -> awaits registry' waiter object interests.
Proof.
  intros Hr Hq [(index&?)|(w&?&Hk)]; [left; eauto|].
  right. exists w. split; [|done]. apply Hq; [|done]. by injection Hk.
Qed.

Lemma awaits_run_op registry waiter object interests x registry' :
  WaitRegistry.wf registry -> spares (Waiter.id waiter) x ->
  WaitRegistry.run_op registry x = Ret registry' ->
  awaits registry waiter object interests -> awaits registry' waiter object interests.
Proof.
  intros Hwf Hsp Hrun. destruct x as [o s|w items|w|id| |w]; simpl in Hrun, Hsp; simplify_eq.
  - by apply awaits_notify.
  - destruct (WaitRegistry.register registry w items) as [[res reg'] w'] eqn:E; simpl.
    apply register_spec in E as (_&_&Hreg&Hq&_); [|done].
    apply awaits_clear; [intros r ? ?; apply Hreg; congruence|].
    intros wk ? ?. apply Hq. split; congruence.
  - apply awaits_clear; [|done]. intros r ? ?. unfold WaitRegistry.registered; simpl.
    apply elem_of_clear_if. split; [done|]. apply bool_decide_eq_false. intros [=]. congruence.
  - apply awaits_clear; intros r ? ?; unfold WaitRegistry.registered, WaitRegistry.queued; simpl;
      apply elem_of_clear_if; (split; [done|]); apply bool_decide_eq_false; congruence.
  - done.
  - apply awaits_clear; unfold WaitRegistry.sync; destruct (list_find _ _) as [[i e]|] eqn:E;
      try done. intros wk Hid Hin. unfold WaitRegistry.queued in *; simpl.
    pose proof (list_find_holds _ _ _ _ E) as Hk. apply list_find_lookup in E.
    apply list_elem_of_lookup in Hin as [j Hj]. apply list_elem_of_lookup. exists j.
    rewrite list_lookup_insert_ne; [done|]. intros ->.
    unfold WaitRegistry.wake_key in *. simplify_eq/=. congruence.
Qed.

Lemma awaits_run_ops registry waiter object interests xs registry' :
  WaitRegistry.wf registry -> Forall (spares (Waiter.id waiter)) xs ->
  WaitRegistry.run_ops registry xs = Ret registry' ->
  awaits registry waiter object interests ->
  WaitRegistry.wf registry' /\ awaits registry' waiter object interests.
Proof.
  intros Hwf Hsp. revert registry Hwf. induction Hsp as [|x xs Hx _ IH];
    intros registry Hwf Hrun Haw; simpl in Hrun; [by simplify_eq|].
  destruct (wait_run_op_total registry x Hwf) as (registry1&Hx1&Hwf1). rewrite Hx1 in Hrun.
  eapply IH; [done|done|]. eapply (awaits_run_op registry _ _ _ x); eauto.
Qed.

(** A queued wake-up is what [sync] looks for. *)
Lemma sync_queued registry waiter wake :
  WaitRegistry.queued registry wake ->
  WaitRegistry.wake_key wake = (Waiter.id waiter, Waiter.epoch waiter) ->
  exists waiter' registry', WaitRegistry.sync registry waiter = (true, waiter', registry')
    /\ Waiter.is_runnable waiter' = true /\ is_Some (Waiter.wake waiter').
Proof.
  intros Hq Hk. unfold WaitRegistry.sync. destruct (list_find _ _) as [[i e]|] eqn:E.
  - do 2 eexists. split; [done|]. split; [done|]. simpl. apply list_find_holds in E.
    destruct e; simplify_eq/=; eauto.
  - apply list_find_None in E. rewrite Forall_forall in E.
    destruct (E (Some wake)); [done|]. simpl. by rewrite Hk.
Qed.

Lemma poll_early timer waiters now d :
  Timer.deadline timer = Some d -> now < d -> Timer.poll timer now waiters = (timer, waiters).
Proof.
  intros Hd Hlt. unfold Timer.poll, Timer.expired.
  rewrite Hd, bool_decide_eq_false_2 by lia. by rewrite andb_false_r.
Qed.

Lemma poll_fired timer waiters now :
  Timer.fired timer = true -> Timer.poll timer now waiters = (timer, waiters).
Proof. intros Hf. unfold Timer.poll. by rewrite Hf. Qed.

Lemma poll_at_unchanged timer waiters times :
  Forall (fun now => Timer.poll timer now waiters = (timer, waiters)) times ->
  poll_at (timer, waiters) times = (timer, waiters).
Proof. unfold poll_at. induction 1 as [|now times Hp _ IH]; simpl; [done|]. by rewrite Hp. Qed.
End waiting.

(** ** Properties *)

(** C17: No wake-up is missed.  Once [wait_many] has blocked a waiter on some
    items, then whatever notifications and operations of other waiters come in
    between, a notification of an item's object with a signal the item is
    interested in lets the waiter's next [sync] find its wake-up and makes it
    runnable. *)
Theorem no_missed_wakeup registry waiter items registry1 waiter1 items1 xs registry2 j item signals :
  WaitRegistry.wf registry -> Forall WaitItem.source_ok items ->
  wait_many registry waiter items = Ret (Err WaitError.Blocked, registry1, waiter1, items1) ->
  items !! j = Some item -> Signals.intersects (WaitItem.interests item) signals = true ->
  Forall (spares (Waiter.id waiter)) xs -> WaitRegistry.run_ops registry1 xs = Ret registry2 ->
  exists waiter2 registry3,
    WaitRegistry.sync (WaitRegistry.notify registry2 (WaitItem.object item) signals).2 waiter1
      = (true, waiter2, registry3)
    /\ Waiter.is_runnable waiter2 = true /\ is_Some (Waiter.wake waiter2).
Proof.
  intros Hwf Hok Hwait Hj Hsig Hsp Hrun.
  destruct (decide (0 < length items <= MAX_WAIT_ITEMS)%nat) as [Hlen|Hlen].
  2: { unfold wait_many in Hwait. destruct items as [|item0 items]; [done|].
       rewrite decide_False, decide_True in Hwait by (done || (simpl in *; lia)). done. }
  destruct (wait_many_spec registry waiter items Hwf Hok Hlen) as (res&reg&wtr&Hw&Hwf1&Hid&Hres).
  rewrite Hw in Hwait. injection Hwait as Heq1 Heq2 Heq3 _. subst res reg wtr. destruct Hres as [_ [[? _]|(_&_&Hreg)]]; [done|].
  rewrite <-Hid in Hsp.
  destruct (awaits_run_ops registry1 waiter1 (WaitItem.object item) (WaitItem.interests item)
    xs registry2 Hwf1 Hsp Hrun) as [Hwf2 Haw]; [left; eauto|].
  destruct (notify_spec (WaitItem.object item) signals registry2 Hwf2) as (b&after&_&->&_&Hnf).
  destruct Haw as [(index&Hr)|(w&Hq&Hk)].
  - destruct (WaitRegistry.nf_woken _ _ _ _ Hnf _ Hr) as (w&Hq&Hk); [by split|].
    by eapply sync_queued.
  - eapply sync_queued; [by eapply WaitRegistry.nf_queued_before|done].
Qed.

(** [wait_many] returns the first ready item or blocks.  On one to
    [MAX_WAIT_ITEMS] items it never panics; it reports the item of least index
    whose source shows a signal of interest, with the signals shown; when it
    reports an error no item is ready, and when it blocks the waiter has one
    registration for every item. *)
Theorem wait_many_first_ready registry waiter items :
  WaitRegistry.wf registry -> Forall WaitItem.source_ok items ->
  (0 < length items <= MAX_WAIT_ITEMS)%nat ->
  exists res registry' waiter' items',
    wait_many registry waiter items = Ret (res, registry', waiter', items')
    /\ WaitRegistry.wf registry'
    /\ match res with
       | Ok outcome => exists item,
           items !! WaitOutcome.index outcome = Some item /\ ready item = true
           /\ WaitOutcome.observed outcome = shows item
           /\ (forall j item', (j < WaitOutcome.index outcome)%nat -> items !! j = Some item' ->
                 ready item' = false)
           /\ Waiter.is_runnable waiter' = true
       | Err e => Forall (fun item => ready item = false) items
           /\ (e = WaitError.TooMany /\ Waiter.is_runnable waiter' = true
               \/ e = WaitError.Blocked /\ Waiter.is_runnable waiter' = false
                  /\ forall j item, items !! j = Some item ->
                       WaitRegistry.registered registry'
                         (WaitRegistration.mk (Waiter.id waiter') (Waiter.epoch waiter')
                            (WaitItem.object item) (WaitItem.interests item) j))
       end.
Proof.
  intros Hwf Hok Hlen.
  destruct (wait_many_spec registry waiter items Hwf Hok Hlen) as (res&reg'&w'&?&?&_&?). eauto 10.
Qed.

(** A timer fires exactly once.  Arming refuses a deadline past the end of
    the 64-bit clock and changes nothing then; an armed timer is untouched by
    the polls before its deadline, notifies its waiters at the first poll that
    reaches it, and never again until it is armed anew. *)
Theorem timer_fires_once timer now duration early time late waiters :
  match Timer.arm timer now duration with
  | (Err _, timer') => U64_MAX < now + duration /\ timer' = timer
  | (Ok _, timer') =>
      Forall (fun t => t < now + duration) early -> now + duration <= time ->
      poll_at (timer', waiters) early = (timer', waiters)
      /\ poll_at (timer', waiters) (early ++ time :: late)
         = (Timer.mk (Timer.object timer) (Some (now + duration)) true,
            (WaitRegistry.notify waiters (Timer.object timer) Signals.FIRED).2)
  end.
Proof.
  unfold Timer.arm, u64_checked_add. case_decide as Hle; [|split; [lia|done]].
  intros Hearly Htime. set (armed := Timer.mk _ _ _).
  assert (poll_at (armed, waiters) early = (armed, waiters)) as He.
  { apply poll_at_unchanged. eapply Forall_impl; [done|]. intros t Ht. by eapply poll_early. }
  split; [done|]. unfold poll_at in *. rewrite foldl_app, He. simpl.
  unfold Timer.poll at 2, Timer.expired; simpl. rewrite bool_decide_eq_true_2 by done; simpl.
  apply poll_at_unchanged, Forall_true. intros t. by apply poll_fired.
Qed.

(** ** Witnesses *)

Module EventsExample.
Definition event := Event.new (ObjectId.mk 3 1 ObjectKind.Event).
Definition timer := Timer.new (ObjectId.mk 4 1 ObjectKind.Timer).
Definition items := [WaitItem.event event Signals.SIGNALED; WaitItem.timer timer 0 Signals.FIRED].
Definition waiter := Waiter.new 7.
Definition blocked := match wait_many WaitRegistry.new waiter items with
                      | Ret (_, registry, waiter, items) => (registry, waiter, items)
                      | Panic => (WaitRegistry.new, waiter, items)
                      end.

(** Another waiter registers and an unrelated object is notified in between. *)
Definition meanwhile :=
  [WaitRegistry.Register (Waiter.new 8) [(Event.object event, Signals.SIGNALED)];
   WaitRegistry.Notify (ObjectId.mk 9 1 ObjectKind.Event) Signals.SIGNALED].
Definition registry2 := match WaitRegistry.run_ops blocked.1.1 meanwhile with
                        | Ret registry => registry
                        | Panic => WaitRegistry.new
                        end.

Lemma items_ok : Forall WaitItem.source_ok items.
Proof. by repeat constructor. Qed.

Lemma no_missed_wakeup_witness :
  exists waiter2 registry3,
    WaitRegistry.sync (WaitRegistry.notify registry2 (Event.object event) Signals.SIGNALED).2
      blocked.1.2 = (true, waiter2, registry3)
    /\ Waiter.is_runnable waiter2 = true /\ is_Some (Waiter.wake waiter2).
Proof.
  apply (no_missed_wakeup WaitRegistry.new waiter items blocked.1.1 blocked.1.2 blocked.2 meanwhile
    registry2 0 (WaitItem.event event Signals.SIGNALED) Signals.SIGNALED);
    [apply wait_new_wf|apply items_ok|by vm_compute|done|done| |by vm_compute].
  repeat constructor. done.
Defined.

Lemma wait_many_first_ready_witness :
  exists res registry' waiter' items',
    wait_many WaitRegistry.new waiter items = Ret (res, registry', waiter', items')
    /\ WaitRegistry.wf registry'
    /\ match res with
       | Ok outcome => exists item,
           items !! WaitOutcome.index outcome = Some item /\ ready item = true
           /\ WaitOutcome.observed outcome = shows item
           /\ (forall j item', (j < WaitOutcome.index outcome)%nat -> items !! j = Some item' ->
                 ready item' = false)
           /\ Waiter.is_runnable waiter' = true
       | Err e => Forall (fun item => ready item = false) items
           /\ (e = WaitError.TooMany /\ Waiter.is_runnable waiter' = true
               \/ e = WaitError.Blocked /\ Waiter.is_runnable waiter' = false
                  /\ forall j item, items !! j = Some item ->
                       WaitRegistry.registered registry'
                         (WaitRegistration.mk (Waiter.id waiter') (Waiter.epoch waiter')
                            (WaitItem.object item) (WaitItem.interests item) j))
       end.
Proof.
  apply wait_many_first_ready; [apply wait_new_wf|apply items_ok|].
  unfold MAX_WAIT_ITEMS; simpl; lia.
Defined.

Definition armed := Timer.mk (Timer.object timer) (Some 15) false.

Lemma timer_fires_once_witness :
  Timer.arm timer 10 5 = (Ok tt, armed)
  /\ poll_at (armed, WaitRegistry.new) [11; 12] = (armed, WaitRegistry.new)
  /\ poll_at (armed, WaitRegistry.new) ([11; 12] ++ 15 :: [16])
     = (Timer.mk (Timer.object timer) (Some 15) true,
        (WaitRegistry.notify WaitRegistry.new (Timer.object timer) Signals.FIRED).2).
Proof.
  assert (Timer.arm timer 10 5 = (Ok tt, armed)) as E by (vm_compute; reflexivity).
  split; [exact E|].
  pose proof (timer_fires_once timer 10 5 [11; 12] 15 [16] WaitRegistry.new) as H.
  rewrite E in H. apply H; [repeat constructor|]; lia.
Defined.
End EventsExample.
