(* ===== verification/Vmo.v ===== *)
(** * Memory objects and address spaces (kernel/src/vmo.rs)

    A [Vmo] is a bounded byte store; an [AddressSpace] is a bounded table of
    page-aligned, pairwise disjoint mappings of such objects, each of which
    keeps a reference to its object. *)

From stdpp Require Import prelude.
From S2P Require Import Prelude Handles.

Local Open Scope N_scope.
Local Open Scope nagi_scope.

Definition PAGE_SIZE : N := 4096.
Definition MAX_VMO_BYTES : N := 16384.
Definition MAX_MAPPINGS : nat := 32.
Definition USER_ADDRESS_LIMIT : N := 0x800000000000.

Module VmoKind.
Inductive t := Anonymous | Shared.
End VmoKind.

Module VmoError.
Inductive t :=
| InvalidObject | InvalidSize | InvalidAddress | Unaligned | OutOfBounds | RightsMissing
| Overlap | NotMapped | MappingTableFull.

#[global] Instance eq_dec : EqDecision t.
Proof. solve_decision. Defined.
End VmoError.

Definition handle_to_vmo_error (error : HandleError.t) : VmoError.t :=
  match error with
  | HandleError.RightsMissing => VmoError.RightsMissing
  | _ => VmoError.InvalidObject
  end.

Definition validate_range (virtual_start length : N) : Result unit VmoError.t :=
  if bool_decide (virtual_start = 0) || negb (is_multiple_of virtual_start PAGE_SIZE)
     || bool_decide (length = 0) || negb (is_multiple_of length PAGE_SIZE)
  then Err VmoError.Unaligned
  else
    match u64_checked_add virtual_start length with
    | None => Err VmoError.InvalidAddress
    | Some e => if decide (USER_ADDRESS_LIMIT < e) then Err VmoError.InvalidAddress else Ok tt
    end.

Definition ranges_overlap (first_start first_length second_start second_length : N) : bool :=
  let first_end := u64_saturating_add first_start first_length in
  let second_end := u64_saturating_add second_start second_length in
  bool_decide (first_start < second_end) && bool_decide (second_start < first_end).

Module Vmo.
Record t := mk {
  object : ObjectId.t;
  kind : VmoKind.t;
  size : N;
  backing : list N
}.

Definition new (object : ObjectId.t) (size : N) (kind : VmoKind.t) : Result t VmoError.t :=
  if decide (ObjectId.kind object <> ObjectKind.Vmo) then Err VmoError.InvalidObject
  else if bool_decide (size = 0) || negb (is_multiple_of size PAGE_SIZE)
          || bool_decide (MAX_VMO_BYTES < size)
  then Err VmoError.InvalidSize
  else Ok (mk object kind size (replicate (N.to_nat MAX_VMO_BYTES) 0)).

Definition anonymous (object : ObjectId.t) (size : N) : Result t VmoError.t :=
  new object size VmoKind.Anonymous.

Definition shared (object : ObjectId.t) (size : N) : Result t VmoError.t :=
  new object size VmoKind.Shared.

(** [offset.checked_add(length)] against the size; [usize] is 64 bits wide. *)
Definition check_bounds (self : t) (offset length : N) : Result nat VmoError.t :=
  match u64_checked_add offset length with
  | None => Err VmoError.OutOfBounds
  | Some e => if decide (size self < e) then Err VmoError.OutOfBounds
              else Ok (N.to_nat offset)
  end.

(** Reading into a buffer of [length] bytes. *)
Definition read (self : t) (offset : N) (length : nat) : Exec (Result (list N) VmoError.t) :=
  match check_bounds self offset (N.of_nat length) with
  | Err e => Ret (Err e)
  | Ok start => let! bytes := slice (backing self) start length in Ret (Ok bytes)
  end.

Definition write (self : t) (offset : N) (source : list N) : Exec (Result unit VmoError.t * t) :=
  match check_bounds self offset (N.of_nat (length source)) with
  | Err e => Ret (Err e, self)
  | Ok start =>
      let! backing := copy_into (backing self) start source in
      Ret (Ok tt, mk (object self) (kind self) (size self) backing)
  end.

Definition wf (self : t) : Prop :=
  N.of_nat (length (backing self)) = MAX_VMO_BYTES /\ size self <= MAX_VMO_BYTES.
End Vmo.

Module Mapping.
Record t := mk {
  vmo_object : ObjectId.t;
  virtual_start : N;
  offset : N;
  length : N;
  rights : Rights.t;
  max_rights : Rights.t
}.
End Mapping.

Module MappingRequest.
Record t := mk { virtual_start : N; offset : N; length : N; rights : Rights.t }.
End MappingRequest.

Module AddressSpace.
Record t := mk { object : ObjectId.t; mappings : list (option Mapping.t) }.

Definition new (object : ObjectId.t) : t := mk object (replicate MAX_MAPPINGS None).

(** The mapping of an entry overlaps the requested range. *)
Definition entry_overlaps (request : MappingRequest.t) (entry : option Mapping.t) : Prop :=
  match entry with
  | Some m => ranges_overlap (MappingRequest.virtual_start request) (MappingRequest.length request)
                (Mapping.virtual_start m) (Mapping.length m) = true
  | None => False
  end.

#[global] Instance entry_overlaps_dec request entry : Decision (entry_overlaps request entry).
Proof. unfold entry_overlaps. destruct entry; apply _. Defined.

Definition map (self : t) (registry : ObjectRegistry.t) (vmo_capability : ObjectId.t)
  (vmo : Vmo.t) (capability_rights : Rights.t) (request : MappingRequest.t)
  : Result unit VmoError.t * t * ObjectRegistry.t :=
  let fail e := (Err e, self, registry) in
  if decide (vmo_capability <> Vmo.object vmo \/ ObjectId.kind vmo_capability <> ObjectKind.Vmo
             \/ is_ok (ObjectRegistry.validate registry vmo_capability ObjectKind.Vmo) = false)
  then fail VmoError.InvalidObject
  else if negb (Rights.contains capability_rights Rights.MAP)
          || negb (Rights.is_subset_of (MappingRequest.rights request) capability_rights)
  then fail VmoError.RightsMissing
  else
    match validate_range (MappingRequest.virtual_start request) (MappingRequest.length request) with
    | Err e => fail e
    | Ok _ =>
        if negb (is_multiple_of (MappingRequest.offset request) PAGE_SIZE)
           || negb (is_multiple_of (MappingRequest.length request) PAGE_SIZE)
        then fail VmoError.OutOfBounds
        else
          match u64_checked_add (MappingRequest.offset request) (MappingRequest.length request) with
          | None => fail VmoError.OutOfBounds
          | Some e =>
              if decide (Vmo.size vmo < e) then fail VmoError.OutOfBounds
              else if decide (Exists (entry_overlaps request) (mappings self))
              then fail VmoError.Overlap
              else
                match list_find (fun slot => slot = None) (mappings self) with
                | None => fail VmoError.MappingTableFull
                | Some (slot, _) =>
                    match ObjectRegistry.retain registry (Vmo.object vmo) with
                    | (Err _, registry) => (Err VmoError.InvalidObject, self, registry)
                    | (Ok _, registry) =>
                        (Ok tt,
                         mk (object self)
                           (<[slot := Some (Mapping.mk (Vmo.object vmo)
                                (MappingRequest.virtual_start request)
                                (MappingRequest.offset request) (MappingRequest.length request)
                                (MappingRequest.rights request) (MappingRequest.rights request))]>
                              (mappings self)),
                         registry)
                    end
                end
          end
    end.

(** [slot.is_some_and(|mapping| mapping.virtual_start == virtual_start)] *)
Definition starts_at (virtual_start : N) (entry : option Mapping.t) : Prop :=
  Mapping.virtual_start <$> entry = Some virtual_start.

#[global] Instance starts_at_dec start entry : Decision (starts_at start entry).
Proof. unfold starts_at. apply _. Defined.

Definition unmap (self : t) (registry : ObjectRegistry.t) (virtual_start : N)
  : Result Mapping.t VmoError.t * t * ObjectRegistry.t :=
  match list_find (starts_at virtual_start) (mappings self) with
  | Some (slot, Some mapping) =>
      match ObjectRegistry.release registry (Mapping.vmo_object mapping) with
      | (Err _, registry) => (Err VmoError.InvalidObject, self, registry)
      | (Ok _, registry) =>
          (Ok mapping, mk (object self) (<[slot := None]> (mappings self)), registry)
      end
  | _ => (Err VmoError.NotMapped, self, registry)
  end.

Definition protect (self : t) (virtual_start : N) (rights : Rights.t)
  : Result unit VmoError.t * t :=
  match list_find (starts_at virtual_start) (mappings self) with
  | Some (slot, Some m) =>
      if negb (Rights.is_subset_of rights (Mapping.max_rights m))
      then (Err VmoError.RightsMissing, self)
      else
        (Ok tt,
         mk (object self)
           (<[slot := Some (Mapping.mk (Mapping.vmo_object m) (Mapping.virtual_start m)
                              (Mapping.offset m) (Mapping.length m) rights rights)]>
              (mappings self)))
  | _ => (Err VmoError.NotMapped, self)
  end.

Definition mapping (self : t) (virtual_start : N) : option Mapping.t :=
  match list_find (starts_at virtual_start) (mappings self) with
  | Some (_, m) => m
  | None => None
  end.
End AddressSpace.

(** ** The operations of a process *)

Definition owns_address_space (self : Process.t) (registry : ObjectRegistry.t)
  (address_space : AddressSpace.t) : bool :=
  bool_decide (AddressSpace.object address_space = Process.address_space self)
  && is_ok (ObjectRegistry.validate registry (Process.address_space self) ObjectKind.AddressSpace).

Definition map_vmo (self : Process.t) (registry : ObjectRegistry.t)
  (address_space : AddressSpace.t) (handle : Handle.t) (vmo : Vmo.t)
  (request : MappingRequest.t) : Result unit VmoError.t * AddressSpace.t * ObjectRegistry.t :=
  if negb (owns_address_space self registry address_space)
  then (Err VmoError.InvalidObject, address_space, registry)
  else
    match HandleTable.require (Process.handles self) registry handle ObjectKind.Vmo Rights.MAP with
    | Err e => (Err (handle_to_vmo_error e), address_space, registry)
    | Ok object =>
        match HandleTable.rights (Process.handles self) registry handle with
        | Err e => (Err (handle_to_vmo_error e), address_space, registry)
        | Ok rights => AddressSpace.map address_space registry object vmo rights request
        end
    end.

(** [.is_none_or(|mapping| mapping.vmo_object != object)] *)
Definition maps_other (address_space : AddressSpace.t) (virtual_start : N) (object : ObjectId.t)
  : bool :=
  match AddressSpace.mapping address_space virtual_start with
  | None => true
  | Some m => bool_decide (Mapping.vmo_object m <> object)
  end.

Definition unmap_vmo (self : Process.t) (registry : ObjectRegistry.t)
  (address_space : AddressSpace.t) (handle : Handle.t) (virtual_start : N)
  : Result Mapping.t VmoError.t * AddressSpace.t * ObjectRegistry.t :=
  if negb (owns_address_space self registry address_space)
  then (Err VmoError.InvalidObject, address_space, registry)
  else
    match HandleTable.require (Process.handles self) registry handle ObjectKind.Vmo Rights.MAP with
    | Err e => (Err (handle_to_vmo_error e), address_space, registry)
    | Ok object =>
        if maps_other address_space virtual_start object
        then (Err VmoError.InvalidObject, address_space, registry)
        else AddressSpace.unmap address_space registry virtual_start
    end.

Definition protect_vmo (self : Process.t) (registry : ObjectRegistry.t)
  (address_space : AddressSpace.t) (handle : Handle.t) (virtual_start : N) (rights : Rights.t)
  : Result unit VmoError.t * AddressSpace.t :=
  if negb (owns_address_space self registry address_space)
  then (Err VmoError.InvalidObject, address_space)
  else
    match HandleTable.require (Process.handles self) registry handle ObjectKind.Vmo Rights.MAP with
    | Err e => (Err (handle_to_vmo_error e), address_space)
    | Ok object =>
        if maps_other address_space virtual_start object
        then (Err VmoError.InvalidObject, address_space)
        else AddressSpace.protect address_space virtual_start rights
    end.

Definition read_vmo (self : Process.t) (registry : ObjectRegistry.t) (handle : Handle.t)
  (vmo : Vmo.t) (offset : N) (length : nat) : Exec (Result (list N) VmoError.t) :=
  match HandleTable.require (Process.handles self) registry handle ObjectKind.Vmo Rights.READ with
  | Err e => Ret (Err (handle_to_vmo_error e))
  | Ok object =>
      if decide (object <> Vmo.object vmo) then Ret (Err VmoError.InvalidObject)
      else Vmo.read vmo offset length
  end.

Definition write_vmo (self : Process.t) (registry : ObjectRegistry.t) (handle : Handle.t)
  (vmo : Vmo.t) (offset : N) (source : list N) : Exec (Result unit VmoError.t * Vmo.t) :=
  match HandleTable.require (Process.handles self) registry handle ObjectKind.Vmo Rights.WRITE with
  | Err e => Ret (Err (handle_to_vmo_error e), vmo)
  | Ok object =>
      if decide (object <> Vmo.object vmo) then Ret (Err VmoError.InvalidObject, vmo)
      else Vmo.write vmo offset source
  end.

(** ** Specifications *)

(** A page-aligned, non-empty user range. *)
Definition user_range (start length : N) : Prop :=
  0 < start /\ start mod PAGE_SIZE = 0 /\ 0 < length /\ length mod PAGE_SIZE = 0
  /\ start + length <= USER_ADDRESS_LIMIT.

Definition disjoint (m1 m2 : Mapping.t) : Prop :=
  Mapping.virtual_start m1 + Mapping.length m1 <= Mapping.virtual_start m2
  \/ Mapping.virtual_start m2 + Mapping.length m2 <= Mapping.virtual_start m1.

Definition mapping_wf (m : Mapping.t) : Prop :=
  user_range (Mapping.virtual_start m) (Mapping.length m)
  /\ Mapping.offset m mod PAGE_SIZE = 0
  /\ Mapping.rights m = Mapping.max_rights m.

(** The invariant of an address space. *)
Definition space_wf (self : AddressSpace.t) : Prop :=
  length (AddressSpace.mappings self) = MAX_MAPPINGS
  /\ (forall i m, AddressSpace.mappings self !! i = Some (Some m) -> mapping_wf m)
  /\ (forall i j m1 m2, AddressSpace.mappings self !! i = Some (Some m1) ->
        AddressSpace.mappings self !! j = Some (Some m2) -> i <> j -> disjoint m1 m2).

(** The entry of an address space that maps an object. *)
Definition maps_object (o : ObjectId.t) (entry : option Mapping.t) : Prop :=
  Mapping.vmo_object <$> entry = Some o.

#[global] Instance maps_object_dec o entry : Decision (maps_object o entry).
Proof. unfold maps_object. apply _. Defined.

(** The references an address space holds to an object. *)
Definition mapped (self : AddressSpace.t) (o : ObjectId.t) : N :=
  N.of_nat (count_of (maps_object o) (AddressSpace.mappings self)).

(** The registry counts the mappings of an address space and [rest]. *)
Definition space_accounted (rest : ObjectId.t -> N) (self : AddressSpace.t)
  (registry : ObjectRegistry.t) : Prop :=
  ObjectRegistry.wf registry
  /\ forall o, ObjectRegistry.refs registry o = mapped self o + rest o.

(** The mapping a request asks for. *)
Definition requested (vmo : Vmo.t) (q : MappingRequest.t) : Mapping.t :=
  Mapping.mk (Vmo.object vmo) (MappingRequest.virtual_start q) (MappingRequest.offset q)
    (MappingRequest.length q) (MappingRequest.rights q) (MappingRequest.rights q).

Module MapOps.
Inductive op :=
| Map (process : Process.t) (handle : Handle.t) (vmo : Vmo.t) (request : MappingRequest.t)
| Unmap (process : Process.t) (handle : Handle.t) (virtual_start : N)
| Protect (process : Process.t) (handle : Handle.t) (virtual_start : N) (rights : Rights.t).

Definition run_op (state : AddressSpace.t * ObjectRegistry.t) (x : op)
  : AddressSpace.t * ObjectRegistry.t :=
  let '(self, registry) := state in
  match x with
  | Map p h vmo request => let '(_, self, registry) := map_vmo p registry self h vmo request in
                           (self, registry)
  | Unmap p h start => let '(_, self, registry) := unmap_vmo p registry self h start in
                       (self, registry)
  | Protect p h start rights => ((protect_vmo p registry self h start rights).2, registry)
  end.

Definition run_ops : AddressSpace.t * ObjectRegistry.t -> list op
  -> AddressSpace.t * ObjectRegistry.t := foldl run_op.
End MapOps.

(** ** Theory *)

Section bytes.
Implicit Types (self : Vmo.t).

Lemma check_bounds_Ok self offset length start :
  Vmo.check_bounds self offset length = Ok start ->
  start = N.to_nat offset /\ offset + length <= Vmo.size self.
Proof.
  unfold Vmo.check_bounds, u64_checked_add. intros. crush_match. split; [done|lia].
Qed.

Lemma slice_Ret {A} (l : list A) start n :
  (start + n <= length l)%nat -> slice l start n = Ret (take n (drop start l)).
Proof. intros. unfold slice. by rewrite decide_True. Qed.

(** The byte at position [i] after the copy. *)
Lemma lookup_copied {A} (l source : list A) start i :
  (start + length source <= length l)%nat ->
  (take start l ++ source ++ drop (start + length source) l) !! i
  = if decide (start <= i < start + length source)%nat then source !! (i - start)%nat else l !! i.
Proof.
  intros Hle. case_decide as Hi.
  - rewrite lookup_app_r by (rewrite length_take; lia).
    rewrite lookup_app_l by (rewrite length_take; lia). f_equal. rewrite length_take. lia.
  - destruct (decide (i < start)%nat).
    + rewrite lookup_app_l by (rewrite length_take; lia). by rewrite lookup_take_lt.
    + rewrite !lookup_app_r by (rewrite ?length_take; lia).
      rewrite lookup_drop, length_take. f_equal. lia.
Qed.
End bytes.

Section ranges.
Lemma is_multiple_of_page n : is_multiple_of n PAGE_SIZE = true <-> n mod PAGE_SIZE = 0.
Proof. unfold is_multiple_of. rewrite decide_False by done. apply bool_decide_eq_true. Qed.

Lemma validate_range_Ok start length :
  validate_range start length = Ok tt <-> user_range start length.
Proof.
  unfold validate_range, u64_checked_add, user_range.
  rewrite <-!is_multiple_of_page. unfold USER_ADDRESS_LIMIT, U64_MAX.
  destruct (is_multiple_of start _), (is_multiple_of length _);
    repeat (case_bool_decide || case_decide); simpl; try case_decide; split;
    intros; simplify_eq; try lia; try naive_solver lia; split_and!; lia || done.
Qed.

(** Below the user limit the saturating sums are exact. *)
Lemma ranges_overlap_false s1 l1 s2 l2 :
  s1 + l1 <= USER_ADDRESS_LIMIT -> s2 + l2 <= USER_ADDRESS_LIMIT ->
  ranges_overlap s1 l1 s2 l2 = false <-> s1 + l1 <= s2 \/ s2 + l2 <= s1.
Proof.
  unfold USER_ADDRESS_LIMIT, ranges_overlap, u64_saturating_add, U64_MAX. intros.
  rewrite !N.min_l by lia. repeat case_bool_decide; simpl; split; intros; try done; lia.
Qed.
End ranges.

Section mapping.
Import AddressSpace.
Implicit Types (self : t) (r : ObjectRegistry.t).

Lemma map_Ok self r cap vmo rights q self' r' :
  map self r cap vmo rights q = (Ok tt, self', r') ->
  cap = Vmo.object vmo
  /\ Rights.contains rights Rights.MAP = true
  /\ bits_subset (Rights.bits (MappingRequest.rights q)) (Rights.bits rights)
  /\ user_range (MappingRequest.virtual_start q) (MappingRequest.length q)
  /\ MappingRequest.offset q mod PAGE_SIZE = 0
  /\ MappingRequest.offset q + MappingRequest.length q <= Vmo.size vmo
  /\ Forall (fun e => ~ entry_overlaps q e) (mappings self)
  /\ exists slot, mappings self !! slot = Some None
     /\ ObjectRegistry.retain r (Vmo.object vmo) = (Ok tt, r')
     /\ self' = mk (object self) (<[slot := Some (requested vmo q)]> (mappings self)).
Proof.
  unfold map. intros H.
  case_decide as Hobj; [done|]. undec.
  destruct (Rights.contains rights Rights.MAP) eqn:Hmap; [|done].
  destruct (Rights.is_subset_of _ _) eqn:Hsub; [|done]. cbn [negb orb] in H.
  destruct (validate_range _ _) as [[]|] eqn:Hrange; [|done].
  destruct (is_multiple_of (MappingRequest.offset q) _) eqn:Hoff; [|done].
  destruct (is_multiple_of (MappingRequest.length q) _) eqn:Hlen; [|done]. cbn [negb orb] in H.
  unfold u64_checked_add in H. case_decide; [|done]. case_decide; [done|].
  case_decide as Hov; [done|].
  destruct (list_find _ _) as [[slot e]|] eqn:Hfind; [|done].
  destruct (ObjectRegistry.retain _ _) as [[[]|e'] r1] eqn:Hret; [|done]. simplify_eq.
  pose proof (list_find_holds _ _ _ _ Hfind) as He. simpl in He. subst e.
  apply list_find_lookup in Hfind.
  split_and!; try done.
  - by apply bool_decide_eq_true in Hsub.
  - by apply validate_range_Ok.
  - by apply is_multiple_of_page.
  - lia.
  - by apply Forall_Exists_neg.
  - eauto.
Qed.

Lemma map_Err self r cap vmo rights q e self' r' :
  map self r cap vmo rights q = (Err e, self', r') -> self' = self /\ r' = r.
Proof.
  unfold map. intros. crush_match; eauto using retain_Err.
Qed.

Lemma starts_at_find self start slot e :
  list_find (starts_at start) (mappings self) = Some (slot, e) ->
  exists m, e = Some m /\ mappings self !! slot = Some (Some m) /\ Mapping.virtual_start m = start.
Proof.
  intros H. pose proof (list_find_holds _ _ _ _ H) as He. apply list_find_lookup in H.
  unfold starts_at in He. destruct e as [m|]; simplify_eq/=. eauto.
Qed.

Lemma unmap_Ok self r start m self' r' :
  unmap self r start = (Ok m, self', r') ->
  exists slot, mappings self !! slot = Some (Some m) /\ Mapping.virtual_start m = start
    /\ ObjectRegistry.release r (Mapping.vmo_object m) = (Ok tt, r')
    /\ self' = mk (object self) (<[slot := None]> (mappings self)).
Proof.
  unfold unmap. destruct (list_find _ _) as [[slot e]|] eqn:E; [|done].
  apply starts_at_find in E as (m0&->&Hm&Hs).
  destruct (ObjectRegistry.release _ _) as [[[]|] r1] eqn:Hr; [|done]. intros. simplify_eq. eauto.
Qed.

Lemma unmap_Err self r start e self' r' :
  unmap self r start = (Err e, self', r') -> self' = self /\ r' = r.
Proof.
  unfold unmap. intros. crush_match; eauto using release_Err.
Qed.

Lemma protect_Ok self start rights self' :
  protect self start rights = (Ok tt, self') ->
  exists slot m, mappings self !! slot = Some (Some m) /\ Mapping.virtual_start m = start
    /\ bits_subset (Rights.bits rights) (Rights.bits (Mapping.max_rights m))
    /\ self' = mk (object self)
         (<[slot := Some (Mapping.mk (Mapping.vmo_object m) (Mapping.virtual_start m)
                            (Mapping.offset m) (Mapping.length m) rights rights)]>
            (mappings self)).
Proof.
  unfold protect. destruct (list_find _ _) as [[slot e]|] eqn:E; [|done].
  apply starts_at_find in E as (m0&->&Hm&Hs).
  destruct (Rights.is_subset_of _ _) eqn:Hsub; [|done]. intros. simplify_eq/=.
  apply bool_decide_eq_true in Hsub. eauto 10.
Qed.

Lemma protect_Err self start rights e self' :
  protect self start rights = (Err e, self') -> self' = self.
Proof. unfold protect. intros. crush_match; done. Qed.

(** Overwriting one entry keeps the invariant when the new mapping is well
    formed and disjoint from the others. *)
Lemma space_wf_insert self slot e :
  space_wf self ->
  (forall m, e = Some m -> mapping_wf m
     /\ forall j m', j <> slot -> mappings self !! j = Some (Some m') -> disjoint m m') ->
  space_wf (mk (object self) (<[slot := e]> (mappings self))).
Proof.
  intros (Hlen&Hwf&Hdis) He. split_and!; simpl.
  - by rewrite length_insert.
  - intros i m [(<-&->&_)|(?&?)]%list_lookup_insert_Some; [by apply He|eauto].
  - intros i j m1 m2 H1 H2 Hij.
    apply list_lookup_insert_Some in H1 as [(<-&->&_)|(?&?)];
      apply list_lookup_insert_Some in H2 as [(<-&E&_)|(?&?)]; try done.
    + by eapply He.
    + subst e. destruct (He m2 eq_refl) as [_ Hd].
      destruct (Hd i m1) as [?|?]; [done|done|by right|by left].
    + eauto.
Qed.

Lemma space_new_wf object : space_wf (new object).
Proof.
  split_and!; [done| |].
  - intros i m Hm. unfold new in Hm. cbn [mappings] in Hm. by apply lookup_replicate in Hm as [? _].
  - intros i j m1 m2 Hm. unfold new in Hm. cbn [mappings] in Hm.
    by apply lookup_replicate in Hm as [? _].
Qed.

Lemma map_space_wf self r cap vmo rights q :
  space_wf self -> space_wf (map self r cap vmo rights q).1.2.
Proof.
  intros Hwf. destruct (map self r cap vmo rights q) as [[[[]|e] self'] r'] eqn:E; simpl.
  2: { by apply map_Err in E as [-> _]. }
  apply map_Ok in E as (_&_&_&Hrange&Hoff&_&Hov&slot&Hslot&_&->).
  apply space_wf_insert; [done|]. intros m [= <-]. split; [done|].
  intros j m' Hj Hm'. rewrite Forall_forall in Hov.
  specialize (Hov (Some m') ltac:(by eapply list_elem_of_lookup_2)). simpl in Hov.
  destruct Hwf as (_&Hmwf&_). destruct (Hmwf j m' Hm') as [Hrange' _].
  apply not_true_is_false in Hov.
  apply ranges_overlap_false in Hov; [done|apply Hrange|apply Hrange'].
Qed.

Lemma unmap_space_wf self r start : space_wf self -> space_wf (unmap self r start).1.2.
Proof.
  intros Hwf. destruct (unmap self r start) as [[[m|e] self'] r'] eqn:E; simpl.
  - apply unmap_Ok in E as (slot&_&_&_&->). by apply space_wf_insert.
  - by apply unmap_Err in E as [-> _].
Qed.

Lemma protect_space_wf self start rights : space_wf self -> space_wf (protect self start rights).2.
Proof.
  intros Hwf. destruct (protect self start rights) as [[[]|e] self'] eqn:E; simpl.
  2: { by apply protect_Err in E as ->. }
  apply protect_Ok in E as (slot&m&Hm&_&_&->). apply space_wf_insert; [done|].
  intros m0 [= <-]. destruct Hwf as (_&Hmwf&Hdis). split; [by destruct (Hmwf _ _ Hm) as (?&?&_)|].
  intros j m' Hj Hm'. by apply (Hdis slot j m m').
Qed.

(** Replacing an entry moves the reference count of one object at most. *)
Lemma mapped_insert self slot e e' o :
  mappings self !! slot = Some e ->
  mapped (mk (object self) (<[slot := e']> (mappings self))) o
    + (if decide (maps_object o e) then 1 else 0)
  = mapped self o + (if decide (maps_object o e') then 1 else 0).
Proof.
  intros Hs. pose proof (count_of_insert (maps_object o) (mappings self) slot e e' Hs) as H.
  unfold mapped; simpl. repeat case_decide; lia.
Qed.

Lemma maps_object_Some o m :
  (if decide (maps_object o (Some m)) then 1 else 0) = same (Mapping.vmo_object m) o.
Proof. unfold maps_object, same; simpl. repeat case_decide; naive_solver. Qed.

Lemma maps_object_None o : (if decide (maps_object o None) then 1 else 0) = 0.
Proof. by rewrite decide_False by done. Qed.

Lemma mapped_new object o : mapped (new object) o = 0.
Proof.
  unfold mapped, new. cbn [mappings]. rewrite count_of_replicate_false; [done|].
  by intros ?.
Qed.

Lemma map_space_accounted rest self r cap vmo rights q :
  space_accounted rest self r ->
  space_accounted rest (map self r cap vmo rights q).1.2 (map self r cap vmo rights q).2.
Proof.
  intros [Hr Hrefs]. pose proof (retain_wf r (Vmo.object vmo) Hr) as Hr'.
  destruct (map self r cap vmo rights q) as [[[[]|e] self'] r'] eqn:E; simpl.
  2: { by apply map_Err in E as [-> ->]. }
  apply map_Ok in E as (_&_&_&_&_&_&_&slot&Hslot&Hret&->). rewrite Hret in Hr'.
  split; [done|]. intros o. apply refs_retain in Hret as (_&Hv&Hother).
  pose proof (mapped_insert self slot None (Some (requested vmo q)) o Hslot) as Hm.
  rewrite maps_object_None, maps_object_Some in Hm. simpl in Hm. unfold same in Hm.
  case_decide as Ho; [subst o; rewrite Hv, Hrefs|rewrite Hother, Hrefs by congruence]; lia.
Qed.

Lemma unmap_space_accounted rest self r start :
  space_accounted rest self r ->
  space_accounted rest (unmap self r start).1.2 (unmap self r start).2.
Proof.
  intros [Hr Hrefs]. destruct (unmap self r start) as [[[m|e] self'] r'] eqn:E; simpl.
  2: { by apply unmap_Err in E as [-> ->]. }
  apply unmap_Ok in E as (slot&Hslot&_&Hrel&->).
  pose proof (release_wf r (Mapping.vmo_object m) Hr) as Hr'. rewrite Hrel in Hr'.
  split; [done|]. intros o. apply refs_release in Hrel as (Hv&Hother); [|done].
  pose proof (mapped_insert self slot (Some m) None o Hslot) as Hm.
  rewrite maps_object_None, maps_object_Some in Hm. unfold same in Hm.
  case_decide as Ho; [subst o; rewrite Hrefs in Hv|rewrite Hother, Hrefs by congruence]; lia.
Qed.

Lemma protect_mapped self start rights o : mapped (protect self start rights).2 o = mapped self o.
Proof.
  destruct (protect self start rights) as [[[]|e] self'] eqn:E; simpl.
  2: { by apply protect_Err in E as ->. }
  apply protect_Ok in E as (slot&m&Hm&_&_&->).
  set (m' := Mapping.mk _ _ _ _ _ _).
  pose proof (mapped_insert self slot (Some m) (Some m') o Hm) as H.
  rewrite !maps_object_Some in H. simpl in H. lia.
Qed.

(** Each operation of a process is one of the three, or nothing. *)
Lemma map_vmo_cases p r self h vmo q res self' r' :
  map_vmo p r self h vmo q = (res, self', r') ->
  (exists rights, HandleTable.entry (Process.handles p) r h
                  = Ok (Capability.mk (Vmo.object vmo) rights)
     /\ map self r (Vmo.object vmo) vmo rights q = (res, self', r'))
  \/ is_ok res = false /\ self' = self /\ r' = r.
Proof.
  unfold map_vmo. destruct (owns_address_space _ _ _); [|intros; simplify_eq/=; auto]. cbn [negb].
  unfold HandleTable.require, HandleTable.rights.
  destruct (HandleTable.entry _ _ _) as [[o rt]|e] eqn:He; [|intros; simplify_eq/=; auto].
  cbn [Capability.object Capability.rights].
  case_decide; [intros; simplify_eq/=; auto|].
  destruct (Rights.contains rt Rights.MAP); [|intros; simplify_eq/=; auto]. cbn [negb].
  intros Hmap. destruct res as [[]|e]; [left|right; by apply map_Err in Hmap].
  pose proof Hmap as (Ho&_)%map_Ok. subst o. eauto.
Qed.

Lemma unmap_vmo_cases p r self h start res self' r' :
  unmap_vmo p r self h start = (res, self', r') ->
  unmap self r start = (res, self', r') \/ self' = self /\ r' = r.
Proof. unfold unmap_vmo. intros. crush_match; auto. Qed.

Lemma protect_vmo_cases p r self h start rights res self' :
  protect_vmo p r self h start rights = (res, self') ->
  protect self start rights = (res, self') \/ is_ok res = false /\ self' = self.
Proof. unfold protect_vmo. intros. crush_match; auto. Qed.

Lemma map_op_preserves rest st x :
  space_wf st.1 -> space_accounted rest st.1 st.2 ->
  space_wf (MapOps.run_op st x).1
  /\ space_accounted rest (MapOps.run_op st x).1 (MapOps.run_op st x).2.
Proof.
  destruct st as [self r]. intros Hwf Hacc. simpl in *.
  destruct x as [p h vmo q|p h start|p h start rights]; simpl.
  - destruct (map_vmo p r self h vmo q) as [[res self'] r'] eqn:E. simpl.
    apply map_vmo_cases in E as [(rt&_&E)|(_&->&->)]; [|done].
    pose proof (map_space_wf self r (Vmo.object vmo) vmo rt q Hwf) as H1.
    pose proof (map_space_accounted rest self r (Vmo.object vmo) vmo rt q Hacc) as H2.
    by rewrite E in H1, H2.
  - destruct (unmap_vmo p r self h start) as [[res self'] r'] eqn:E. simpl.
    apply unmap_vmo_cases in E as [E|[-> ->]]; [|done].
    pose proof (unmap_space_wf self r start Hwf) as H1.
    pose proof (unmap_space_accounted rest self r start Hacc) as H2.
    by rewrite E in H1, H2.
  - destruct (protect_vmo p r self h start rights) as [res self'] eqn:E. simpl.
    apply protect_vmo_cases in E as [E|[_ ->]]; [|done].
    pose proof (protect_space_wf self start rights Hwf) as H1. rewrite E in H1.
    split; [done|]. destruct Hacc as [Hr Hrefs]. split; [done|]. intros o.
    pose proof (protect_mapped self start rights o) as H2. rewrite E in H2. simpl in H2.
    by rewrite H2.
Qed.
End mapping.

(** ** Properties *)

(** C36: The address-space invariant.  Through every sequence of maps, unmaps
    and protects by any processes the mappings stay page aligned, below the
    user limit and pairwise disjoint, and the registry counts one reference for
    each mapping of an object, so a mapped object cannot be freed. *)
Theorem address_space_invariant (rest : ObjectId.t -> N) st xs :
  space_wf st.1 -> space_accounted rest st.1 st.2 ->
  let st' := MapOps.run_ops st xs in
  space_wf st'.1 /\ space_accounted rest st'.1 st'.2
  /\ forall i m, AddressSpace.mappings st'.1 !! i = Some (Some m) ->
       ObjectRegistry.validate st'.2 (Mapping.vmo_object m)
         (ObjectId.kind (Mapping.vmo_object m)) = Ok tt.
Proof.
  intros Hwf Hacc st'.
  assert (space_wf st'.1 /\ space_accounted rest st'.1 st'.2) as [Hwf' [Hr' Hrefs']].
  { subst st'. revert st Hwf Hacc. induction xs as [|x xs IH]; intros st Hwf Hacc; [done|].
    simpl. destruct (map_op_preserves rest st x Hwf Hacc). by apply IH. }
  split_and!; [done|done|]. intros i m Hm. apply validate_refs; [done|]. rewrite Hrefs'.
  unfold mapped. pose proof (count_of_pos (maps_object (Mapping.vmo_object m))
    (AddressSpace.mappings st'.1) i (Some m) Hm ltac:(done)). lia.
Qed.

(** A mapping never exceeds the handle it was made with.  A successful
    [map_vmo] went through a handle of this very object with the MAP right and
    every right requested, stays inside the object, and adds exactly the
    requested mapping; a successful [protect_vmo] only takes rights away from
    the mapping it changes; failures change nothing. *)
Theorem mapping_rights_attenuate p r self h vmo q start rights :
  (match map_vmo p r self h vmo q with
   | (Ok _, self', _) => exists held slot,
       HandleTable.entry (Process.handles p) r h = Ok (Capability.mk (Vmo.object vmo) held)
       /\ Rights.contains held Rights.MAP = true
       /\ bits_subset (Rights.bits (MappingRequest.rights q)) (Rights.bits held)
       /\ MappingRequest.offset q + MappingRequest.length q <= Vmo.size vmo
       /\ AddressSpace.mappings self !! slot = Some None
       /\ AddressSpace.mappings self'
          = <[slot := Some (requested vmo q)]> (AddressSpace.mappings self)
   | (Err _, self', r') => self' = self /\ r' = r
   end)
  /\ match protect_vmo p r self h start rights with
     | (Ok _, self') => exists slot m m',
         AddressSpace.mappings self !! slot = Some (Some m)
         /\ Mapping.virtual_start m = start
         /\ AddressSpace.mappings self' = <[slot := Some m']> (AddressSpace.mappings self)
         /\ Mapping.rights m' = rights
         /\ bits_subset (Rights.bits (Mapping.max_rights m')) (Rights.bits (Mapping.max_rights m))
         /\ Mapping.vmo_object m' = Mapping.vmo_object m
     | (Err _, self') => self' = self
     end.
Proof.
  split.
  - destruct (map_vmo p r self h vmo q) as [[res self'] r'] eqn:E.
    apply map_vmo_cases in E as [(held&He&Hm)|(Hres&->&->)]; [|by destruct res].
    destruct res as [[]|e]; [|by apply map_Err in Hm].
    apply map_Ok in Hm as (_&?&?&_&_&?&_&slot&?&_&->). exists held, slot. by split_and!.
  - destruct (protect_vmo p r self h start rights) as [res self'] eqn:E.
    apply protect_vmo_cases in E as [E|[Hres ->]]; [|by destruct res].
    destruct res as [[]|e]; [|by apply protect_Err in E].
    apply protect_Ok in E as (slot&m&?&?&?&->). do 3 eexists. split_and!; done.
Qed.

(** Reads and writes stay inside the object and round-trip.  They never
    panic; out of bounds they report an error and change nothing; a write is
    read back at its offset, and every byte outside its range is kept. *)
Theorem vmo_write_read self offset source :
  Vmo.wf self ->
  (Vmo.size self < offset + N.of_nat (length source) /\
     Vmo.write self offset source = Ret (Err VmoError.OutOfBounds, self) /\
     Vmo.read self offset (length source) = Ret (Err VmoError.OutOfBounds))
  \/ exists self',
     offset + N.of_nat (length source) <= Vmo.size self
     /\ Vmo.write self offset source = Ret (Ok tt, self')
     /\ Vmo.wf self'
     /\ Vmo.read self' offset (length source) = Ret (Ok source)
     /\ (forall i, (i < N.to_nat offset \/ N.to_nat offset + length source <= i)%nat ->
           Vmo.backing self' !! i = Vmo.backing self !! i).
Proof.
  intros [Hlen Hsize]. unfold Vmo.write, Vmo.read.
  assert (Vmo.check_bounds self offset (N.of_nat (length source)) =
    if decide (Vmo.size self < offset + N.of_nat (length source))
    then Err VmoError.OutOfBounds else Ok (N.to_nat offset)) as ->.
  { unfold Vmo.check_bounds, u64_checked_add, MAX_VMO_BYTES, U64_MAX in *.
    repeat case_decide; done || lia. }
  case_decide as Hb; [by left|right].
  assert (N.to_nat offset + length source <= length (Vmo.backing self))%nat as Hfit by lia.
  rewrite copy_into_Ret by done. eexists. split_and!; [lia|done| | |].
  - split; simpl; [|done]. rewrite !length_app, length_take, length_drop. lia.
  - unfold Vmo.check_bounds, u64_checked_add, MAX_VMO_BYTES, U64_MAX in *. simpl.
    rewrite decide_True by lia. rewrite decide_False by lia.
    rewrite slice_Ret by (rewrite !length_app, length_take, length_drop; lia).
    rewrite drop_app_length' by (rewrite length_take; lia). by rewrite take_app_length.
  - intros i Hi. simpl. rewrite lookup_copied by done. by rewrite decide_False by lia.
Qed.

(** ** Witnesses *)

Module VmoExample.
Definition ov := ObjectId.mk 0 1 ObjectKind.Vmo.
Definition os := ObjectId.mk 1 1 ObjectKind.AddressSpace.
Definition registry1 := (ObjectRegistry.create (ObjectRegistry.new 2) ObjectKind.Vmo).2.
Definition registry0 := (ObjectRegistry.create registry1 ObjectKind.AddressSpace).2.
Definition memory := Vmo.mk ov VmoKind.Anonymous 8192 (replicate (N.to_nat MAX_VMO_BYTES) 0).
Definition inserted := HandleTable.insert (HandleTable.new 2) registry0 ov (Rights.mk 7).
Definition process := Process.mk 1 os inserted.1.2 ProcessState.Running.
Definition request := MappingRequest.mk 4096 0 8192 (Rights.mk 3).
Definition space0 := AddressSpace.new os.
Definition held (o : ObjectId.t) : N := same ov o + (same ov o + same os o).

Definition script :=
  [MapOps.Map process (Handle.new 0 1) memory request;
   MapOps.Protect process (Handle.new 0 1) 4096 Rights.READ].

Lemma registry0_accounted : space_accounted held space0 inserted.2.
Proof.
  assert (ObjectRegistry.wf (ObjectRegistry.new 2)) as H0 by (by apply registry_new_wf).
  assert (ObjectRegistry.wf registry1) as H1 by (by apply create_wf).
  assert (ObjectRegistry.wf registry0) as H2 by (by apply create_wf).
  split; [by apply (retain_wf registry0 ov)|]. intros o.
  destruct (refs_retain registry0 ov inserted.2) as (_&Hv&Hother); [by vm_compute|].
  pose proof (refs_created registry1 ObjectKind.AddressSpace os registry0 o H1 eq_refl) as Hs.
  pose proof (refs_created (ObjectRegistry.new 2) ObjectKind.Vmo ov registry1 o H0 eq_refl) as Hc.
  unfold space0. rewrite mapped_new.
  rewrite refs_new in Hc. unfold held, same.
  destruct (decide (ov = o)) as [<-|]; [rewrite Hv|rewrite Hother by congruence]; lia.
Qed.

Lemma address_space_invariant_witness :
  let st' := MapOps.run_ops (space0, inserted.2) script in
  space_wf st'.1 /\ space_accounted held st'.1 st'.2
  /\ forall i m, AddressSpace.mappings st'.1 !! i = Some (Some m) ->
       ObjectRegistry.validate st'.2 (Mapping.vmo_object m)
         (ObjectId.kind (Mapping.vmo_object m)) = Ok tt.
Proof.
  apply (address_space_invariant held (space0, inserted.2) script); [|exact registry0_accounted].
  apply space_new_wf.
Defined.

Lemma vmo_write_read_witness :
  (Vmo.size memory < 4095 + N.of_nat (length [1; 2; 3]) /\
     Vmo.write memory 4095 [1; 2; 3] = Ret (Err VmoError.OutOfBounds, memory) /\
     Vmo.read memory 4095 (length [1; 2; 3]) = Ret (Err VmoError.OutOfBounds))
  \/ exists self',
     4095 + N.of_nat (length [1; 2; 3]) <= Vmo.size memory
     /\ Vmo.write memory 4095 [1; 2; 3] = Ret (Ok tt, self')
     /\ Vmo.wf self'
     /\ Vmo.read self' 4095 (length [1; 2; 3]) = Ret (Ok [1; 2; 3])
     /\ (forall i, (i < N.to_nat 4095 \/ N.to_nat 4095 + length [1; 2; 3] <= i)%nat ->
           Vmo.backing self' !! i = Vmo.backing memory !! i).
Proof.
  apply (vmo_write_read memory 4095 [1; 2; 3]).
  split; [|by vm_compute]. unfold memory. cbn [Vmo.backing]. rewrite length_replicate. apply N2Nat.id.
Defined.
End VmoExample.
