(* ===== verification/Scheduler.v ===== *)
(** * The cooperative thread table (kernel/src/scheduler.rs)

    A fixed number of thread slots, the thread that runs and the round-robin
    cursor.  [COUNT] is [BOOTSTRAP_USER_THREAD_COUNT], which is 64 or 32
    depending on the build; the theorems hold for every count up to 255.
    Thread numbers ([u8]) are [nat]; [NO_THREAD] is 255. *)

From stdpp Require Import prelude.
From S2P Require Import Prelude.

Local Open Scope nagi_scope.

Definition BLOCKED : nat := 0.
Definition RUNNABLE : nat := 1.
Definition RUNNING : nat := 2.
Definition DONE : nat := 3.

Definition wake_transition (state : nat) : option nat :=
  if decide (state = BLOCKED) then Some RUNNABLE else None.

Definition scheduler_dispatch_counts_are_fair (task_zero task_one : N) : bool :=
  bool_decide (0 < task_zero)%N && bool_decide (0 < task_one)%N
  && bool_decide (N.max task_zero task_one - N.min task_zero task_one <= 1)%N.

Definition M3_TASK_FRAME_WORDS : nat := 20.
Definition FRAME_ARG_CPU : nat := 9.
Definition FRAME_ARG_TASK : nat := 10.
Definition FRAME_RIP : nat := 15.
Definition FRAME_CS : nat := 16.
Definition FRAME_RFLAGS : nat := 17.
Definition FRAME_RSP : nat := 18.
Definition FRAME_SS : nat := 19.

Definition m3_initial_task_frame (cpu task entry code_selector stack_selector stack_top : N)
  : Exec (list N) :=
  let frame := replicate M3_TASK_FRAME_WORDS 0%N in
  let! frame := store frame FRAME_ARG_CPU cpu in
  let! frame := store frame FRAME_ARG_TASK task in
  let! frame := store frame FRAME_RIP entry in
  let! frame := store frame FRAME_CS code_selector in
  let! frame := store frame FRAME_RFLAGS 0x202%N in
  let! frame := store frame FRAME_RSP stack_top in
  store frame FRAME_SS stack_selector.

Definition NO_THREAD : nat := 255.
Definition INIT_PROCESS_ID : N := 1.

Module UserThreadState.
Inductive t :=
| Empty
| Runnable
| Running
| Sleeping (wake_at : N)
| ChannelBlocked
| JoinBlocked (target : nat)
| Zombie (exit_code : N).

#[global] Instance eq_dec : EqDecision t.
Proof. solve_decision. Defined.
End UserThreadState.

Module ThreadSlot.
Record t := mk {
  state : UserThreadState.t;
  joiner : nat;
  detached : bool;
  owner : N
}.

Definition EMPTY : t := mk UserThreadState.Empty NO_THREAD false INIT_PROCESS_ID.

Definition set_state (self : t) (s : UserThreadState.t) : t :=
  mk s (joiner self) (detached self) (owner self).

Definition set_joiner (self : t) (j : nat) : t :=
  mk (state self) j (detached self) (owner self).

Definition set_detached (self : t) : t := mk (state self) (joiner self) true (owner self).
End ThreadSlot.

Module JoinOutcome.
Inductive t := Completed (code : N) | Blocked | Invalid.
End JoinOutcome.

Module ExitOutcome.
Record t := mk { next_thread : option nat; woken_joiner : option (nat * N) }.
End ExitOutcome.

Module BootstrapUserThreads.
Record t := mk { slots : list ThreadSlot.t; current : nat; cursor : nat }.

Section table.
Context (COUNT : nat).

Definition new : t :=
  mk (<[0 := ThreadSlot.set_state ThreadSlot.EMPTY UserThreadState.Running]>
        (replicate COUNT ThreadSlot.EMPTY)) 0 0.

Definition set_slots (self : t) (ss : list ThreadSlot.t) : t := mk ss (current self) (cursor self).

(** [self.slots[i] = slot] *)
Definition put (self : t) (i : nat) (slot : ThreadSlot.t) : Exec t :=
  let! ss := store (slots self) i slot in Ret (set_slots self ss).

Definition state (self : t) (thread : nat) : option UserThreadState.t :=
  ThreadSlot.state <$> slots self !! thread.

Definition owner (self : t) (thread : nat) : option N :=
  match slots self !! thread with
  | None => None
  | Some slot => if decide (ThreadSlot.state slot <> UserThreadState.Empty)
                 then Some (ThreadSlot.owner slot) else None
  end.

Definition current_owner (self : t) : Exec N :=
  let! slot := index (slots self) (current self) in Ret (ThreadSlot.owner slot).

(** The slots a search may take, in its order: [self.slots[id].state == wanted]. *)
Fixpoint find_state (self : t) (wanted : UserThreadState.t) (ids : list nat) : Exec (option nat) :=
  match ids with
  | [] => Ret None
  | id :: ids =>
      let! slot := index (slots self) id in
      if decide (ThreadSlot.state slot = wanted) then Ret (Some id)
      else find_state self wanted ids
  end.

Definition allocate_for_process (self : t) (owner : N) : Exec (option nat * t) :=
  let! found := find_state self UserThreadState.Empty (seq 1 (COUNT - 1)) in
  match found with
  | None => Ret (None, self)
  | Some id =>
      let! self := put self id (ThreadSlot.mk UserThreadState.Runnable
                                  (ThreadSlot.joiner ThreadSlot.EMPTY)
                                  (ThreadSlot.detached ThreadSlot.EMPTY) owner) in
      Ret (Some (id mod 256), self)
  end.

Definition allocate (self : t) : Exec (option nat * t) :=
  let! owner := current_owner self in allocate_for_process self owner.

Definition wake_slot (now : N) (slot : ThreadSlot.t) : ThreadSlot.t :=
  match ThreadSlot.state slot with
  | UserThreadState.Sleeping wake_at =>
      if decide (wake_at <= now)%N then ThreadSlot.set_state slot UserThreadState.Runnable else slot
  | _ => slot
  end.

Definition wake_expired (self : t) (now : N) : t := set_slots self (wake_slot now <$> slots self).

(** [self.slots[id].state = Running; self.current = id; self.cursor = id] *)
Definition dispatch (self : t) (id : nat) : Exec t :=
  let! slot := index (slots self) id in
  let! self := put self id (ThreadSlot.set_state slot UserThreadState.Running) in
  Ret (mk (slots self) (id mod 256) (id mod 256)).

Definition select_round_robin (self : t) : Exec (option nat * t) :=
  let! found := find_state self UserThreadState.Runnable
                  ((fun offset => (cursor self + offset) mod COUNT) <$> seq 1 COUNT) in
  match found with
  | None => Ret (None, self)
  | Some id => let! self := dispatch self id in Ret (Some (id mod 256), self)
  end.

Definition select_runnable_prefer (self : t) (now : N) (preferred : option nat)
  : Exec (option nat * t) :=
  let self := wake_expired self now in
  match preferred with
  | Some thread =>
      match slots self !! thread with
      | None => Ret (None, self)
      | Some slot =>
          if decide (ThreadSlot.state slot = UserThreadState.Runnable)
          then let! self := dispatch self thread in Ret (Some thread, self)
          else select_round_robin self
      end
  | None => select_round_robin self
  end.

Definition select_runnable (self : t) (now : N) : Exec (option nat * t) :=
  select_runnable_prefer self now None.

(** [slot.state != Empty && slot.owner == owner] *)
Definition owned_by (owner : N) (slot : ThreadSlot.t) : Prop :=
  ThreadSlot.state slot <> UserThreadState.Empty /\ ThreadSlot.owner slot = owner.

#[global] Instance owned_by_dec owner slot : Decision (owned_by owner slot).
Proof. unfold owned_by. apply _. Defined.

Definition exit_process (self : t) (owner : N) (now : N) : Exec (option (option nat) * t) :=
  if decide (owner = INIT_PROCESS_ID) then Ret (None, self)
  else
    let removed := bool_decide (Exists (owned_by owner) (slots self)) in
    let self :=
      set_slots self ((fun slot => if decide (owned_by owner slot) then ThreadSlot.EMPTY else slot)
                        <$> slots self) in
    if negb removed then Ret (None, self)
    else
      let! slot := index (slots self) (current self) in
      if decide (ThreadSlot.state slot = UserThreadState.Empty)
      then let! (next, self) := select_runnable self now in Ret (Some next, self)
      else Ret (Some (Some (current self)), self).

Definition discard_unstarted (self : t) (thread : nat) : bool * t :=
  match slots self !! thread with
  | None => (false, self)
  | Some slot =>
      if decide (ThreadSlot.state slot <> UserThreadState.Runnable
                 \/ ThreadSlot.joiner slot <> NO_THREAD)
      then (false, self)
      else (true, set_slots self (<[thread := ThreadSlot.EMPTY]> (slots self)))
  end.

(** The shape of [yield_current] and [sleep_current]: leave the running state
    and select another thread. *)
Definition leave_running (self : t) (s : UserThreadState.t) (now : N) : Exec (option nat * t) :=
  let! slot := index (slots self) (current self) in
  if decide (ThreadSlot.state slot <> UserThreadState.Running) then Ret (None, self)
  else
    let! self := put self (current self) (ThreadSlot.set_state slot s) in
    select_runnable self now.

Definition yield_current (self : t) (now : N) : Exec (option nat * t) :=
  leave_running self UserThreadState.Runnable now.

Definition sleep_current (self : t) (wake_at now : N) : Exec (option nat * t) :=
  leave_running self (UserThreadState.Sleeping wake_at) now.

Definition block_current_on_channel (self : t) : Exec (bool * t) :=
  let! slot := index (slots self) (current self) in
  if decide (ThreadSlot.state slot <> UserThreadState.Running) then Ret (false, self)
  else
    let! self := put self (current self)
                   (ThreadSlot.set_state slot UserThreadState.ChannelBlocked) in
    Ret (true, self).

Definition wake_channel_waiter (self : t) (thread : nat) : bool * t :=
  match slots self !! thread with
  | None => (false, self)
  | Some slot =>
      if decide (ThreadSlot.state slot <> UserThreadState.ChannelBlocked) then (false, self)
      else (true, set_slots self (<[thread := ThreadSlot.set_state slot UserThreadState.Runnable]>
                                    (slots self)))
  end.

Definition abort_current_channel_wait (self : t) : Exec (bool * t) :=
  let! slot := index (slots self) (current self) in
  if decide (ThreadSlot.state slot <> UserThreadState.ChannelBlocked) then Ret (false, self)
  else
    let! self := put self (current self) (ThreadSlot.set_state slot UserThreadState.Running) in
    Ret (true, self).

Definition join_current (self : t) (target : nat) (now : N) : Exec (JoinOutcome.t * t) :=
  let caller := current self in
  if decide (target = 0 \/ target = caller \/ COUNT <= target) then Ret (JoinOutcome.Invalid, self)
  else
    let! target_slot := index (slots self) target in
    let! caller_slot := index (slots self) caller in
    if decide (ThreadSlot.owner target_slot <> ThreadSlot.owner caller_slot)
    then Ret (JoinOutcome.Invalid, self)
    else
      let taken := ThreadSlot.detached target_slot
                   || bool_decide (ThreadSlot.joiner target_slot <> NO_THREAD) in
      match ThreadSlot.state target_slot with
      | UserThreadState.Empty => Ret (JoinOutcome.Invalid, self)
      | UserThreadState.Zombie exit_code =>
          if taken then Ret (JoinOutcome.Invalid, self)
          else
            let! self := put self target ThreadSlot.EMPTY in
            Ret (JoinOutcome.Completed exit_code, self)
      | _ =>
          if taken then Ret (JoinOutcome.Invalid, self)
          else if decide (ThreadSlot.state caller_slot <> UserThreadState.Running)
          then Ret (JoinOutcome.Invalid, self)
          else
            let! self := put self target (ThreadSlot.set_joiner target_slot caller) in
            let! caller_slot := index (slots self) caller in
            let! self := put self caller
                           (ThreadSlot.set_state caller_slot (UserThreadState.JoinBlocked target)) in
            let! (_, self) := select_runnable self now in
            Ret (JoinOutcome.Blocked, self)
      end.

Definition abort_blocked_join (self : t) : Exec (option nat * t) :=
  let! slot := index (slots self) (current self) in
  match ThreadSlot.state slot with
  | UserThreadState.JoinBlocked target =>
      let! target_slot := index (slots self) target in
      let! self := (if decide (ThreadSlot.joiner target_slot = current self)
                    then put self target (ThreadSlot.set_joiner target_slot NO_THREAD)
                    else Ret self) in
      let! slot := index (slots self) (current self) in
      let! self := put self (current self) (ThreadSlot.set_state slot UserThreadState.Running) in
      Ret (Some (current self), self)
  | _ => Ret (None, self)
  end.

Definition detach (self : t) (target : nat) : Exec (bool * t) :=
  if decide (target = 0 \/ COUNT <= target) then Ret (false, self)
  else
    let! caller_owner := current_owner self in
    let! slot := index (slots self) target in
    if decide (ThreadSlot.state slot = UserThreadState.Empty
               \/ ThreadSlot.joiner slot <> NO_THREAD
               \/ ThreadSlot.owner slot <> caller_owner)
    then Ret (false, self)
    else
      let! self := put self target
                     (match ThreadSlot.state slot with
                      | UserThreadState.Zombie _ => ThreadSlot.EMPTY
                      | _ => ThreadSlot.set_detached slot
                      end) in
      Ret (true, self).

Definition exit_current (self : t) (exit_code now : N) : Exec (option ExitOutcome.t * t) :=
  let thread := current self in
  if decide (thread = 0) then Ret (None, self)
  else
    let! slot := index (slots self) thread in
    if decide (ThreadSlot.state slot <> UserThreadState.Running) then Ret (None, self)
    else
      let joiner := ThreadSlot.joiner slot in
      let! self :=
        (if decide (joiner <> NO_THREAD) then
           let! self := put self thread ThreadSlot.EMPTY in
           let! joiner_slot := index (slots self) joiner in
           if decide (ThreadSlot.state joiner_slot = UserThreadState.JoinBlocked thread)
           then put self joiner (ThreadSlot.set_state joiner_slot UserThreadState.Runnable)
           else Ret self
         else if ThreadSlot.detached slot then put self thread ThreadSlot.EMPTY
         else put self thread (ThreadSlot.set_state slot (UserThreadState.Zombie exit_code))) in
      let preferred := if decide (joiner <> NO_THREAD) then Some joiner else None in
      let! (next_thread, self) := select_runnable_prefer self now preferred in
      Ret (Some (ExitOutcome.mk next_thread
                   (if decide (joiner <> NO_THREAD) then Some (joiner, exit_code) else None)),
           self).

(** [.filter_map(..).min()] *)
Definition ticks_until_wake (self : t) (now : N) : option N :=
  foldr (fun slot least =>
    match ThreadSlot.state slot with
    | UserThreadState.Sleeping wake_at =>
        let ticks := (wake_at - now)%N in
        Some (match least with Some l => N.min ticks l | None => ticks end)
    | _ => least
    end) None (slots self).
End table.
End BootstrapUserThreads.

(** ** Specifications *)

Definition joining (s : ThreadSlot.t) : Prop :=
  exists target, ThreadSlot.state s = UserThreadState.JoinBlocked target.

(** Neither free nor waiting to be reaped. *)
Definition live (s : ThreadSlot.t) : Prop :=
  ThreadSlot.state s <> UserThreadState.Empty
  /\ forall code, ThreadSlot.state s <> UserThreadState.Zombie code.

(** No thread is running: the state in which a selection is made. *)
Definition idle (ss : list ThreadSlot.t) : Prop :=
  forall i s, ss !! i = Some s -> ThreadSlot.state s <> UserThreadState.Running.

(** The invariant of the thread table. *)
Record table_wf (COUNT : nat) (self : BootstrapUserThreads.t) : Prop := {
  tw_length : length (BootstrapUserThreads.slots self) = COUNT;
  tw_current : BootstrapUserThreads.current self < COUNT;
  tw_cursor : BootstrapUserThreads.cursor self < COUNT;
  (* only the current thread runs *)
  tw_running i s :
    BootstrapUserThreads.slots self !! i = Some s ->
    ThreadSlot.state s = UserThreadState.Running -> i = BootstrapUserThreads.current self;
  (* a recorded joiner waits for this very thread, which is alive and of the
     same process *)
  tw_joiner i s :
    BootstrapUserThreads.slots self !! i = Some s -> ThreadSlot.joiner s <> NO_THREAD ->
    live s /\ exists sj, BootstrapUserThreads.slots self !! ThreadSlot.joiner s = Some sj
      /\ ThreadSlot.state sj = UserThreadState.JoinBlocked i
      /\ ThreadSlot.owner sj = ThreadSlot.owner s;
  (* a thread that waits to join is recorded with its target *)
  tw_joining i s target :
    BootstrapUserThreads.slots self !! i = Some s ->
    ThreadSlot.state s = UserThreadState.JoinBlocked target ->
    target <> i /\
    exists st, BootstrapUserThreads.slots self !! target = Some st /\ ThreadSlot.joiner st = i;
  (* slot 0 is the bootstrap thread of init *)
  tw_init s :
    BootstrapUserThreads.slots self !! 0 = Some s ->
    live s /\ ThreadSlot.owner s = INIT_PROCESS_ID
}.

(** The slots left when a process is removed. *)
Definition without (owner : N) (ss : list ThreadSlot.t) : list ThreadSlot.t :=
  (fun slot => if decide (BootstrapUserThreads.owned_by owner slot) then ThreadSlot.EMPTY else slot) <$> ss.

Module ThreadOps.
Inductive op :=
| Allocate
| AllocateForProcess (owner : N)
| ExitProcess (owner now : N)
| DiscardUnstarted (thread : nat)
| Yield (now : N)
| Sleep (wake_at now : N)
| BlockOnChannel
| WakeChannelWaiter (thread : nat)
| AbortChannelWait
| Join (target : nat) (now : N)
| AbortJoin
| Detach (target : nat)
| Exit (exit_code now : N)
| WakeExpired (now : N)
| Select (now : N).

(** What the system-call layer respects: only a thread it has just allocated,
    never slot 0, is discarded, and a selection follows the current thread's
    leaving the running state. *)
Definition op_ok (self : BootstrapUserThreads.t) (x : op) : Prop :=
  match x with
  | DiscardUnstarted thread => thread <> 0
  | Select _ => idle (BootstrapUserThreads.slots self)
  | _ => True
  end.

Definition run_op (COUNT : nat) (self : BootstrapUserThreads.t) (x : op)
  : Exec BootstrapUserThreads.t :=
  match x with
  | Allocate => let! (_, self) := BootstrapUserThreads.allocate COUNT self in Ret self
  | AllocateForProcess owner =>
      let! (_, self) := BootstrapUserThreads.allocate_for_process COUNT self owner in Ret self
  | ExitProcess owner now =>
      let! (_, self) := BootstrapUserThreads.exit_process COUNT self owner now in Ret self
  | DiscardUnstarted thread => Ret (BootstrapUserThreads.discard_unstarted self thread).2
  | Yield now => let! (_, self) := BootstrapUserThreads.yield_current COUNT self now in Ret self
  | Sleep wake_at now =>
      let! (_, self) := BootstrapUserThreads.sleep_current COUNT self wake_at now in Ret self
  | BlockOnChannel =>
      let! (_, self) := BootstrapUserThreads.block_current_on_channel self in Ret self
  | WakeChannelWaiter thread => Ret (BootstrapUserThreads.wake_channel_waiter self thread).2
  | AbortChannelWait =>
      let! (_, self) := BootstrapUserThreads.abort_current_channel_wait self in Ret self
  | Join target now =>
      let! (_, self) := BootstrapUserThreads.join_current COUNT self target now in Ret self
  | AbortJoin => let! (_, self) := BootstrapUserThreads.abort_blocked_join self in Ret self
  | Detach target => let! (_, self) := BootstrapUserThreads.detach COUNT self target in Ret self
  | Exit exit_code now =>
      let! (_, self) := BootstrapUserThreads.exit_current COUNT self exit_code now in Ret self
  | WakeExpired now => Ret (BootstrapUserThreads.wake_expired self now)
  | Select now => let! (_, self) := BootstrapUserThreads.select_runnable COUNT self now in Ret self
  end.

(** The tables the kernel can reach. *)
Inductive reachable (COUNT : nat) : BootstrapUserThreads.t -> Prop :=
| reachable_new : reachable COUNT (BootstrapUserThreads.new COUNT)
| reachable_step self x self' :
    reachable COUNT self -> op_ok self x -> run_op COUNT self x = Ret self' ->
    reachable COUNT self'.
End ThreadOps.

(** A change of one slot that touches no join. *)
Definition plain (i : nat) (s s' : ThreadSlot.t) : Prop :=
  (ThreadSlot.joiner s' = ThreadSlot.joiner s /\ ThreadSlot.state s' = ThreadSlot.state s
   /\ ThreadSlot.owner s' = ThreadSlot.owner s)
  \/ (ThreadSlot.joiner s' = ThreadSlot.joiner s /\ ~ joining s /\ ~ joining s'
   /\ (ThreadSlot.joiner s <> NO_THREAD -> live s' /\ ThreadSlot.owner s' = ThreadSlot.owner s)
   /\ (i = 0 -> live s' /\ ThreadSlot.owner s' = ThreadSlot.owner s)).

(** How many slots the cursor still passes before it reaches thread [j]. *)
Definition distance (COUNT cursor j : nat) : nat :=
  if decide (cursor < j) then j - cursor - 1 else j + COUNT - cursor - 1.

(** What a selection after [wake_expired] does. *)
Definition selected (w : BootstrapUserThreads.t) (res : option nat)
  (self' : BootstrapUserThreads.t) : Prop :=
  match res with
  | None => self' = w
      /\ forall i s, BootstrapUserThreads.slots w !! i = Some s ->
           ThreadSlot.state s <> UserThreadState.Runnable
  | Some id => exists s, BootstrapUserThreads.slots w !! id = Some s
      /\ ThreadSlot.state s = UserThreadState.Runnable
      /\ self' = BootstrapUserThreads.mk
           (<[id := ThreadSlot.set_state s UserThreadState.Running]>
              (BootstrapUserThreads.slots w)) id id
  end.

(** The current thread yields at each of the times in turn. *)
Fixpoint yields (COUNT : nat) (self : BootstrapUserThreads.t) (times : list N)
  : Exec BootstrapUserThreads.t :=
  match times with
  | [] => Ret self
  | now :: times =>
      let! (_, self) := BootstrapUserThreads.yield_current COUNT self now in
      yields COUNT self times
  end.

(** ** Theory *)

Section threads.
Import BootstrapUserThreads.
Context (COUNT : nat) (Hcount : 0 < COUNT <= 255).
Implicit Types (self : t) (s : ThreadSlot.t).

Lemma wf_pointwise self ss cur csr :
  table_wf COUNT self -> length ss = COUNT -> cur < COUNT -> csr < COUNT ->
  (forall i s', ss !! i = Some s' -> ThreadSlot.state s' = UserThreadState.Running -> i = cur) ->
  (forall i s', ss !! i = Some s' -> exists s, slots self !! i = Some s /\ plain i s s') ->
  table_wf COUNT (mk ss cur csr).
Proof.
  intros Hwf Hlen Hcur Hcsr Hrun Hplain.
  assert (forall i s, slots self !! i = Some s -> exists s', ss !! i = Some s' /\ plain i s s') as Hfwd.
  { intros i s Hi. destruct (lookup_lt_is_Some_2 ss i) as [s' Hs'].
    { rewrite Hlen, <-(tw_length _ _ Hwf). by eapply lookup_lt_Some. }
    destruct (Hplain i s' Hs') as (s0&?&?). simplify_eq. eauto. }
  split; simpl; try done.
  - intros i s' Hi Hj. destruct (Hplain i s' Hi) as (s&Hs&Hp).
    assert (ThreadSlot.joiner s' = ThreadSlot.joiner s) as Hjj by (by destruct Hp as [[? _]|[? _]]).
    rewrite Hjj in Hj |- *. destruct (tw_joiner _ _ Hwf i s Hs Hj) as (Hlive&sj&Hsj&Hst&How).
    assert (live s' /\ ThreadSlot.owner s' = ThreadSlot.owner s) as [Hl Ho].
    { destruct Hp as [(_&Hst'&->)|(_&_&_&Hk&_)]; [|auto]. unfold live. by rewrite Hst'. }
    split; [done|]. destruct (Hfwd _ _ Hsj) as (sj'&Hsj'&[(_&Hst'&Ho')|(_&Hnj&_)]).
    + exists sj'. split_and!; congruence.
    + destruct Hnj. by eexists.
  - intros i s' target Hi Hst. destruct (Hplain i s' Hi) as (s&Hs&[(_&Hst'&_)|(_&_&Hnj&_)]).
    2: { destruct Hnj. by eexists. }
    rewrite Hst' in Hst.
    destruct (tw_joining _ _ Hwf i s target Hs Hst) as (Hne&st&Hst0&Hji). split; [done|].
    destruct (Hfwd _ _ Hst0) as (st'&?&Hp). exists st'. split; [done|].
    destruct Hp as [[-> _]|[-> _]]; done.
  - intros s' Hs'. destruct (Hplain 0 s' Hs') as (s&Hs&Hp).
    destruct (tw_init _ _ Hwf s Hs) as [Hl Ho].
    destruct Hp as [(_&Hst'&Ho')|(_&_&_&_&Hk)].
    + split; [|congruence]. unfold live. by rewrite Hst'.
    + destruct (Hk eq_refl). split; congruence.
Qed.

Lemma insert_pointwise self i s s' j t' :
  slots self !! i = Some s -> plain i s s' ->
  <[i := s']> (slots self) !! j = Some t' ->
  exists t0, slots self !! j = Some t0 /\ plain j t0 t'.
Proof.
  intros Hi Hp [(<-&->&_)|(?&?)]%list_lookup_insert_Some; [eauto|].
  exists t'. split; [done|]. by left.
Qed.

(** Changing one slot without touching a join keeps the invariant. *)
Lemma wf_insert_plain self i s s' :
  table_wf COUNT self -> slots self !! i = Some s -> plain i s s' ->
  (ThreadSlot.state s' = UserThreadState.Running -> i = current self) ->
  table_wf COUNT (set_slots self (<[i := s']> (slots self))).
Proof.
  intros Hwf Hi Hp Hrun. apply (wf_pointwise self); try apply Hwf.
  - by rewrite length_insert, (tw_length _ _ Hwf).
  - intros j t' [(<-&->&_)|(?&?)]%list_lookup_insert_Some; [done|by eapply Hwf].
  - intros j t'. by eapply insert_pointwise.
Qed.

Lemma put_Ret self i s s' :
  slots self !! i = Some s -> put self i s' = Ret (set_slots self (<[i := s']> (slots self))).
Proof. intros Hi%lookup_lt_Some. unfold put. by rewrite store_Ret. Qed.

Lemma current_slot self :
  table_wf COUNT self ->
  exists s, slots self !! current self = Some s /\ index (slots self) (current self) = Ret s.
Proof.
  intros Hwf. destruct (lookup_lt_is_Some_2 (slots self) (current self)) as [s Hs].
  { rewrite (tw_length _ _ Hwf). apply Hwf. }
  exists s. split; [done|]. by apply index_Ret.
Qed.

Lemma not_joining s : (forall target, ThreadSlot.state s <> UserThreadState.JoinBlocked target) -> ~ joining s.
Proof. intros H [target ?]. by eapply H. Qed.

(** A running thread may take any live state that is not a join. *)
Lemma plain_set_state i s st :
  ~ joining s -> (forall target, st <> UserThreadState.JoinBlocked target) ->
  st <> UserThreadState.Empty -> (forall code, st <> UserThreadState.Zombie code) ->
  plain i s (ThreadSlot.set_state s st).
Proof.
  intros Hs Hj He Hz. right. split_and!; try done. by apply not_joining.
Qed.

Lemma wake_slot_plain now i s : plain i s (wake_slot now s).
Proof.
  unfold wake_slot. destruct (ThreadSlot.state s) eqn:E; try by left.
  case_decide; [|by left]. apply plain_set_state; try done.
  intros [target Ht]. congruence.
Qed.

Lemma wake_slot_running now s :
  ThreadSlot.state (wake_slot now s) = UserThreadState.Running ->
  ThreadSlot.state s = UserThreadState.Running.
Proof. unfold wake_slot. destruct (ThreadSlot.state s) eqn:E; try case_decide; by rewrite ?E. Qed.

Lemma wake_expired_wf self now : table_wf COUNT self -> table_wf COUNT (wake_expired self now).
Proof.
  intros Hwf. apply (wf_pointwise self); try apply Hwf.
  - by rewrite length_fmap, (tw_length _ _ Hwf).
  - intros i s' Hi Hr. rewrite list_lookup_fmap in Hi.
    destruct (slots self !! i) as [s|] eqn:Hs; simplify_eq/=.
    apply wake_slot_running in Hr. by eapply Hwf.
  - intros i s' Hi. rewrite list_lookup_fmap in Hi.
    destruct (slots self !! i) as [s|] eqn:Hs; simplify_eq/=. eauto using wake_slot_plain.
Qed.

Lemma wake_expired_idle self now : idle (slots self) -> idle (slots (wake_expired self now)).
Proof.
  intros Hidle i s' Hi Hr. simpl in Hi. rewrite list_lookup_fmap in Hi.
  destruct (slots self !! i) as [s|] eqn:Hs; simplify_eq/=.
  apply wake_slot_running in Hr. by eapply Hidle.
Qed.

(** The search for a slot in some state, over slots that exist. *)
Lemma find_state_spec self wanted ids :
  Forall (fun id => id < length (slots self)) ids ->
  exists res, find_state self wanted ids = Ret res
    /\ match res with
       | None => forall i s, i ∈ ids -> slots self !! i = Some s -> ThreadSlot.state s <> wanted
       | Some id => exists pre post s, ids = pre ++ id :: post
           /\ slots self !! id = Some s /\ ThreadSlot.state s = wanted
           /\ forall i s', i ∈ pre -> slots self !! i = Some s' -> ThreadSlot.state s' <> wanted
       end.
Proof.
  induction 1 as [|id ids Hid _ IH]; simpl.
  { eexists; split; [done|]. by intros i s ?%not_elem_of_nil. }
  destruct (lookup_lt_is_Some_2 _ _ Hid) as [s Hs]. unfold index. rewrite Hs.
  case_decide as Hst.
  { eexists; split; [done|]. exists [], ids, s. split_and!; try done.
    by intros i s' ?%not_elem_of_nil. }
  destruct IH as (res&->&Hres). exists res. split; [done|]. destruct res as [id'|].
  - destruct Hres as (pre&post&s'&->&?&?&Hpre). exists (id :: pre), post, s'. split_and!; try done.
    intros i s'' [->|?]%elem_of_cons ?; [congruence|eauto].
  - intros i s' [->|?]%elem_of_cons ?; [congruence|eauto].
Qed.

Lemma mod_wrap x : x < 2 * COUNT -> x mod COUNT = if decide (x < COUNT) then x else x - COUNT.
Proof.
  intros Hx. case_decide; [by apply Nat.mod_small|].
  replace x with ((x - COUNT) + 1 * COUNT) at 1 by lia.
  rewrite Nat.Div0.mod_add. apply Nat.mod_small. lia.
Qed.

Lemma distance_lt csr j : csr < COUNT -> j < COUNT -> distance COUNT csr j < COUNT.
Proof. unfold distance. intros. case_decide; lia. Qed.

(** The slot at offset [S k] from the cursor is the one at distance [k]. *)
Lemma ring_distance csr j k :
  csr < COUNT -> j < COUNT -> k < COUNT ->
  (csr + S k) mod COUNT = j <-> k = distance COUNT csr j.
Proof.
  unfold distance. intros. rewrite mod_wrap by lia. repeat case_decide; lia.
Qed.

Lemma ring_in_range csr : Forall (fun id => id < COUNT) ((fun o => (csr + o) mod COUNT) <$> seq 1 COUNT).
Proof. apply Forall_fmap, Forall_true. intros o. simpl. apply Nat.mod_upper_bound. lia. Qed.

Lemma dispatch_spec self id s :
  slots self !! id = Some s -> id < COUNT ->
  dispatch self id
  = Ret (mk (<[id := ThreadSlot.set_state s UserThreadState.Running]> (slots self)) id id).
Proof.
  intros Hs Hid. unfold dispatch, index. rewrite Hs, (put_Ret _ _ _ _ Hs).
  by rewrite Nat.mod_small by lia.
Qed.

Lemma dispatch_wf self id s :
  table_wf COUNT self -> idle (slots self) -> slots self !! id = Some s ->
  ThreadSlot.state s = UserThreadState.Runnable ->
  table_wf COUNT (mk (<[id := ThreadSlot.set_state s UserThreadState.Running]> (slots self)) id id).
Proof.
  intros Hwf Hidle Hs Hst. pose proof (lookup_lt_Some _ _ _ Hs) as Hid.
  rewrite (tw_length _ _ Hwf) in Hid. apply (wf_pointwise self); try done.
  - by rewrite length_insert, (tw_length _ _ Hwf).
  - intros i s' [(<-&<-&_)|(?&Hi)]%list_lookup_insert_Some Hr; [done|]. by destruct (Hidle i s').
  - intros i s'. eapply insert_pointwise; [done|]. apply plain_set_state; try done.
    intros [target ?]. congruence.
Qed.

(** The round-robin search finds the runnable thread nearest to the cursor. *)
Lemma select_round_robin_spec self :
  table_wf COUNT self ->
  exists res self', select_round_robin COUNT self = Ret (res, self') /\ selected self res self'
    /\ match res with
       | None => True
       | Some id => forall j s, slots self !! j = Some s ->
           ThreadSlot.state s = UserThreadState.Runnable ->
           distance COUNT (cursor self) id <= distance COUNT (cursor self) j
       end.
Proof.
  intros Hwf. pose proof (tw_cursor _ _ Hwf) as Hcsr. unfold select_round_robin.
  destruct (find_state_spec self UserThreadState.Runnable
    ((fun o => (cursor self + o) mod COUNT) <$> seq 1 COUNT)) as (res&->&Hres).
  { rewrite (tw_length _ _ Hwf). apply ring_in_range. }
  assert (forall j s, slots self !! j = Some s -> j < COUNT) as Hlt.
  { intros j s ?%lookup_lt_Some. by rewrite <-(tw_length _ _ Hwf). }
  destruct res as [id|].
  - destruct Hres as (pre&post&s&Hids&Hs&Hst&Hpre).
    rewrite (dispatch_spec self id s Hs) by eauto.
    do 2 eexists. rewrite Nat.mod_small by (apply Hlt in Hs; lia). split; [done|].
    split; [by exists s|]. intros j sj Hj Hjst.
    apply fmap_app_inv in Hids as (o1&o2&->&Ho2&Hseq).
    symmetry in Ho2. apply fmap_cons_inv in Ho2 as (o&o3&Ho&->&->).
    (* position of id in the ring *)
    assert (o = S (length o1)) as Hoo.
    { assert (seq 1 COUNT !! length o1 = Some o) as Hl by (rewrite Hseq; by apply list_lookup_middle).
      apply lookup_seq in Hl as [? ?]. lia. }
    assert (length o1 < COUNT) as Hlo.
    { rewrite <-(length_seq COUNT 1), Hseq, length_app. simpl. lia. }
    subst o. symmetry in Ho. apply ring_distance in Ho; eauto. rewrite <-Ho.
    destruct (decide (length o1 <= distance COUNT (cursor self) j)) as [|Hn]; [done|].
    destruct (Hpre j sj); [|done|done].
    apply list_elem_of_fmap. exists (S (distance COUNT (cursor self) j)). split.
    + symmetry. apply ring_distance; eauto using distance_lt.
    + apply list_elem_of_lookup. exists (distance COUNT (cursor self) j).
      rewrite <-(lookup_app_l o1 (S (length o1) :: o3)) by lia. rewrite <-Hseq.
      apply lookup_seq. split; [lia|]. eauto using distance_lt.
  - do 2 eexists. split; [done|]. split; [|done]. split; [done|]. intros i s Hi.
    apply (Hres i s); [|done]. apply list_elem_of_fmap.
    exists (S (distance COUNT (cursor self) i)). split.
    + symmetry. apply ring_distance; eauto using distance_lt.
    + apply elem_of_seq. specialize (distance_lt (cursor self) i Hcsr (Hlt _ _ Hi)). lia.
Qed.

Lemma selected_wf w res self' :
  table_wf COUNT w -> idle (slots w) -> selected w res self' -> table_wf COUNT self'.
Proof.
  intros Hwf Hidle. destruct res as [id|]; simpl.
  - intros (s&?&?&->). by apply dispatch_wf.
  - by intros [-> _].
Qed.

(** A selection from an idle table, whatever thread is preferred. *)
Lemma select_prefer_spec self now preferred :
  table_wf COUNT self -> idle (slots self) ->
  (forall thread, preferred = Some thread -> thread < COUNT) ->
  exists res self', select_runnable_prefer COUNT self now preferred = Ret (res, self')
    /\ selected (wake_expired self now) res self' /\ table_wf COUNT self'.
Proof.
  intros Hwf Hidle Hpref.
  pose proof (wake_expired_wf self now Hwf) as Hww.
  pose proof (wake_expired_idle self now Hidle) as Hwi.
  assert (exists res self', select_round_robin COUNT (wake_expired self now) = Ret (res, self')
    /\ selected (wake_expired self now) res self' /\ table_wf COUNT self') as Hrr.
  { destruct (select_round_robin_spec _ Hww) as (res&self'&->&Hsel&_).
    do 2 eexists. split; [done|]. split; [done|]. by apply (selected_wf _ res self' Hww). }
  unfold select_runnable_prefer. cbv zeta. destruct preferred as [thread|]; [|done].
  destruct (lookup_lt_is_Some_2 (slots (wake_expired self now)) thread) as [s Hs].
  { rewrite (tw_length _ _ Hww). auto. }
  rewrite Hs. case_decide as Hst; [|done].
  rewrite (dispatch_spec _ _ _ Hs) by auto. do 2 eexists. split; [done|].
  split; [by exists s|]. by apply dispatch_wf.
Qed.

Lemma select_spec self now :
  table_wf COUNT self -> idle (slots self) ->
  exists res self', select_runnable COUNT self now = Ret (res, self')
    /\ selected (wake_expired self now) res self' /\ table_wf COUNT self'.
Proof. intros. by apply select_prefer_spec. Qed.

(** Once the current thread has left the running state none is running. *)
Lemma idle_insert ss cur s' :
  (forall i s, ss !! i = Some s -> ThreadSlot.state s = UserThreadState.Running -> i = cur) ->
  ThreadSlot.state s' <> UserThreadState.Running -> idle (<[cur := s']> ss).
Proof.
  intros Hrun Hs' i s [(<-&<-&_)|(Hne&Hi)]%list_lookup_insert_Some; [done|].
  intros Hr. apply Hne. symmetry. by eapply Hrun.
Qed.

Lemma left_running_idle self s' :
  table_wf COUNT self -> ThreadSlot.state s' <> UserThreadState.Running ->
  idle (<[current self := s']> (slots self)).
Proof. intros Hwf. apply idle_insert, Hwf. Qed.

Lemma leave_running_ok self st now :
  table_wf COUNT self -> st <> UserThreadState.Running ->
  (forall target, st <> UserThreadState.JoinBlocked target) ->
  st <> UserThreadState.Empty -> (forall code, st <> UserThreadState.Zombie code) ->
  exists res self', leave_running COUNT self st now = Ret (res, self') /\ table_wf COUNT self'.
Proof.
  intros Hwf Hr Hj He Hz. unfold leave_running.
  destruct (current_slot self Hwf) as (s&Hs&->). case_decide as Hst; [eauto|]. undec.
  rewrite (put_Ret _ _ _ _ Hs).
  assert (table_wf COUNT (set_slots self (<[current self := ThreadSlot.set_state s st]> (slots self))))
    as Hwf'.
  { apply (wf_insert_plain self _ s); try done. apply plain_set_state; try done.
    apply not_joining. congruence. }
  destruct (select_spec _ now Hwf') as (res&self'&->&_&?); [by apply left_running_idle|eauto].
Qed.

Lemma empty_slot_unjoined self i s :
  table_wf COUNT self -> slots self !! i = Some s ->
  ThreadSlot.state s = UserThreadState.Empty -> ThreadSlot.joiner s = NO_THREAD.
Proof.
  intros Hwf Hs He. destruct (decide (ThreadSlot.joiner s = NO_THREAD)) as [|Hn]; [done|].
  by destruct (tw_joiner _ _ Hwf i s Hs Hn) as [[? _] _].
Qed.

Lemma allocate_for_process_ok self owner :
  table_wf COUNT self ->
  exists res self', allocate_for_process COUNT self owner = Ret (res, self')
    /\ table_wf COUNT self'
    /\ match res with
       | None => self' = self /\ forall i s, 0 < i -> slots self !! i = Some s ->
           ThreadSlot.state s <> UserThreadState.Empty
       | Some id => 0 < id /\ state self id = Some UserThreadState.Empty
           /\ slots self' = <[id := ThreadSlot.mk UserThreadState.Runnable NO_THREAD false owner]>
                              (slots self)
       end.
Proof.
  intros Hwf. unfold allocate_for_process.
  destruct (find_state_spec self UserThreadState.Empty (seq 1 (COUNT - 1))) as (res&->&Hres).
  { rewrite (tw_length _ _ Hwf). apply Forall_forall. intros i ?%elem_of_seq. lia. }
  destruct res as [id|].
  - destruct Hres as (pre&post&s&Hids&Hs&He&_).
    assert (0 < id < COUNT) as Hid.
    { assert (id ∈ seq 1 (COUNT - 1)) as ?%elem_of_seq by (rewrite Hids; set_solver). lia. }
    rewrite (put_Ret _ _ _ _ Hs). do 2 eexists. split; [done|].
    rewrite Nat.mod_small by lia. split.
    + apply (wf_insert_plain self _ s); try done. right. split_and!.
      * simpl. by rewrite (empty_slot_unjoined _ _ _ Hwf Hs He).
      * apply not_joining. congruence.
      * by apply not_joining.
      * intros []. by rewrite (empty_slot_unjoined _ _ _ Hwf Hs He).
      * lia.
    + split_and!; [lia| |done]. unfold state. by rewrite Hs; simpl; rewrite He.
  - do 2 eexists. split; [done|]. split; [done|]. split; [done|]. intros i s Hi Hs.
    apply (Hres i s); [|done]. apply elem_of_seq. apply lookup_lt_Some in Hs.
    rewrite (tw_length _ _ Hwf) in Hs. lia.
Qed.

Lemma discard_ok self thread :
  table_wf COUNT self -> thread <> 0 -> table_wf COUNT (discard_unstarted self thread).2.
Proof.
  intros Hwf Hne. unfold discard_unstarted. destruct (slots self !! thread) as [s|] eqn:Hs; [|done].
  case_decide as Hg; [done|]. undec. simpl. apply (wf_insert_plain self _ s); try done.
  right. split_and!; try done; apply not_joining; [congruence|done].
Qed.

Lemma set_current_ok self s st :
  table_wf COUNT self -> slots self !! current self = Some s -> ~ joining s ->
  (forall target, st <> UserThreadState.JoinBlocked target) ->
  st <> UserThreadState.Empty -> (forall code, st <> UserThreadState.Zombie code) ->
  table_wf COUNT (set_slots self (<[current self := ThreadSlot.set_state s st]> (slots self))).
Proof. intros. apply (wf_insert_plain self _ s); try done. by apply plain_set_state. Qed.

Lemma block_ok self :
  table_wf COUNT self ->
  exists res self', block_current_on_channel self = Ret (res, self') /\ table_wf COUNT self'.
Proof.
  intros Hwf. unfold block_current_on_channel.
  destruct (current_slot self Hwf) as (s&Hs&->). case_decide; [eauto|]. undec.
  rewrite (put_Ret _ _ _ _ Hs). do 2 eexists. split; [done|].
  apply set_current_ok; try done. apply not_joining. congruence.
Qed.

Lemma abort_channel_ok self :
  table_wf COUNT self ->
  exists res self', abort_current_channel_wait self = Ret (res, self') /\ table_wf COUNT self'.
Proof.
  intros Hwf. unfold abort_current_channel_wait.
  destruct (current_slot self Hwf) as (s&Hs&->). case_decide; [eauto|]. undec.
  rewrite (put_Ret _ _ _ _ Hs). do 2 eexists. split; [done|].
  apply set_current_ok; try done. apply not_joining. congruence.
Qed.

Lemma wake_channel_ok self thread :
  table_wf COUNT self -> table_wf COUNT (wake_channel_waiter self thread).2.
Proof.
  intros Hwf. unfold wake_channel_waiter. destruct (slots self !! thread) as [s|] eqn:Hs; [|done].
  case_decide; [done|]. undec. simpl. apply (wf_insert_plain self _ s); try done.
  apply plain_set_state; try done. apply not_joining. congruence.
Qed.

Lemma detach_ok self target :
  table_wf COUNT self ->
  exists res self', detach COUNT self target = Ret (res, self') /\ table_wf COUNT self'.
Proof.
  intros Hwf. unfold detach. case_decide as Hg; [eauto|]. undec. unfold current_owner.
  destruct (current_slot self Hwf) as (sc&Hsc&->).
  destruct (lookup_lt_is_Some_2 (slots self) target) as [s Hs]; [rewrite (tw_length _ _ Hwf); lia|].
  unfold index. rewrite Hs. case_decide as Hg'; [eauto|]. undec.
  rewrite (put_Ret _ _ _ _ Hs). do 2 eexists. split; [done|].
  set (s' := match ThreadSlot.state s with UserThreadState.Zombie _ => _ | _ => _ end).
  assert ((exists code, ThreadSlot.state s = UserThreadState.Zombie code) /\ s' = ThreadSlot.EMPTY
    \/ s' = ThreadSlot.set_detached s) as [[[code Hz] Heq]|Heq].
  { subst s'. destruct (ThreadSlot.state s); eauto. }
  - rewrite Heq. apply (wf_insert_plain self _ s); try done. right.
    split_and!; try done; [apply not_joining; congruence|by apply not_joining].
  - rewrite Heq. apply (wf_insert_plain self _ s); try done; [by left|].
    exact (tw_running _ _ Hwf target s Hs).
Qed.

(** Undoing the join of thread [j] on thread [i]: [i] loses its joiner (and may
    be freed when it is not itself joining), and [j] goes on. *)
Lemma wf_unlink self i s s' j sj st :
  table_wf COUNT self -> slots self !! i = Some s -> ThreadSlot.joiner s = j ->
  slots self !! j = Some sj -> ThreadSlot.state sj = UserThreadState.JoinBlocked i -> i <> j ->
  (s' = ThreadSlot.set_joiner s NO_THREAD
   \/ ~ joining s /\ s' = ThreadSlot.EMPTY /\ i <> 0) ->
  (forall target, st <> UserThreadState.JoinBlocked target) ->
  st <> UserThreadState.Empty -> (forall code, st <> UserThreadState.Zombie code) ->
  (st = UserThreadState.Running -> j = current self) ->
  table_wf COUNT (set_slots self
    (<[j := ThreadSlot.set_state sj st]> (<[i := s']> (slots self)))).
Proof.
  intros Hwf Hs Hj Hsj Hstj Hij Hs' Hnj Hne Hnz Hrun.
  set (ss := <[j := _]> _).
  assert (forall k sk, ss !! k = Some sk ->
    k = j /\ sk = ThreadSlot.set_state sj st \/ k = i /\ sk = s'
    \/ k <> i /\ k <> j /\ slots self !! k = Some sk) as Hback.
  { intros k sk [(<-&<-&_)|(?&Hk)]%list_lookup_insert_Some; [by left|].
    apply list_lookup_insert_Some in Hk as [(<-&<-&_)|(?&?)]; naive_solver. }
  assert (ss !! j = Some (ThreadSlot.set_state sj st)) as Hssj.
  { apply list_lookup_insert_eq. rewrite length_insert. by eapply lookup_lt_Some. }
  assert (ss !! i = Some s') as Hssi.
  { subst ss. rewrite list_lookup_insert_ne by done. apply list_lookup_insert_eq.
    by eapply lookup_lt_Some. }
  assert (forall k sk, k <> i -> k <> j -> slots self !! k = Some sk -> ss !! k = Some sk) as Hother.
  { intros. subst ss. by rewrite !list_lookup_insert_ne by done. }
  (* a thread that joins another than [i] is found as before *)
  assert (forall k sk target, slots self !! k = Some sk ->
    ThreadSlot.state sk = UserThreadState.JoinBlocked target -> target <> i ->
    exists sk', ss !! k = Some sk' /\ ThreadSlot.state sk' = ThreadSlot.state sk
      /\ ThreadSlot.owner sk' = ThreadSlot.owner sk) as Hjoins.
  { intros k sk target Hk Hst Hti. destruct (decide (k = j)) as [->|]; [congruence|].
    destruct (decide (k = i)) as [->|]; [|eauto]. simplify_eq.
    exists s'. split; [done|]. destruct Hs' as [->|[Hnj' _]]; [done|]. destruct Hnj'. by eexists. }
  split; simpl; try apply Hwf.
  - subst ss. by rewrite !length_insert, (tw_length _ _ Hwf).
  - intros k sk Hk Hr. destruct (Hback k sk Hk) as [[-> ->]|[[-> ->]|(?&?&?)]]; [auto| |by eapply Hwf].
    destruct Hs' as [->|(_&->&_)]; [|done]. by eapply Hwf.
  - intros k sk Hk Hjk.
    assert (k <> i) as Hki.
    { intros ->. rewrite Hssi in Hk. simplify_eq. by destruct Hs' as [->|(_&->&_)]. }
    assert (exists sk0, slots self !! k = Some sk0 /\ ThreadSlot.joiner sk0 = ThreadSlot.joiner sk
      /\ ThreadSlot.owner sk0 = ThreadSlot.owner sk /\ (live sk0 -> live sk)) as (sk0&Hk0&Hj0&Ho0&Hl0).
    { destruct (Hback k sk Hk) as [[-> ->]|[[-> ->]|(?&?&?)]]; [|done|by eexists].
      exists sj. split_and!; try done. }
    rewrite <-Hj0 in Hjk |- *. destruct (tw_joiner _ _ Hwf k sk0 Hk0 Hjk) as (Hl&sjk&Hsjk&Hst&Ho).
    split; [auto|]. destruct (Hjoins _ _ k Hsjk Hst Hki) as (sk'&?&?&?).
    exists sk'. split_and!; congruence.
  - intros k sk target Hk Hst.
    assert (exists sk0, slots self !! k = Some sk0 /\ k <> j
      /\ ThreadSlot.state sk0 = UserThreadState.JoinBlocked target) as (sk0&Hk0&Hkj&Hst0).
    { destruct (Hback k sk Hk) as [[-> ->]|[[-> ->]|(?&?&?)]]; [by edestruct Hnj| |eauto].
      destruct Hs' as [->|(_&->&_)]; [|done]. by exists s. }
    destruct (tw_joining _ _ Hwf k sk0 target Hk0 Hst0) as (?&st'&Htgt&Hjt). split; [done|].
    destruct (decide (target = i)) as [->|]; [congruence|].
    destruct (decide (target = j)) as [->|]; [|by eauto].
    exists (ThreadSlot.set_state sj st). split; [done|]. simpl. congruence.
  - intros s0 Hs0. destruct (Hback 0 s0 Hs0) as [[Hj0 ->]|[[Hi0 ->]|(?&?&?)]].
    + rewrite <-Hj0 in Hsj. destruct (tw_init _ _ Hwf sj Hsj) as [_ ?]. done.
    + destruct Hs' as [->|(_&_&?)]; [|done]. rewrite <-Hi0 in Hs. exact (tw_init _ _ Hwf s Hs).
    + by apply (tw_init _ _ Hwf).
Qed.

(** The running thread [c] joins the live, unjoined thread [i] of its process. *)
Lemma wf_link self c sc i s :
  table_wf COUNT self -> slots self !! c = Some sc ->
  ThreadSlot.state sc = UserThreadState.Running ->
  slots self !! i = Some s -> live s -> ThreadSlot.joiner s = NO_THREAD -> i <> c ->
  ThreadSlot.owner s = ThreadSlot.owner sc ->
  table_wf COUNT (set_slots self
    (<[c := ThreadSlot.set_state sc (UserThreadState.JoinBlocked i)]>
       (<[i := ThreadSlot.set_joiner s c]> (slots self)))).
Proof.
  intros Hwf Hsc Hrun Hs Hlive Hunj Hic How.
  set (ss := <[c := _]> _).
  assert (c < COUNT) as Hc by (rewrite <-(tw_length _ _ Hwf); by eapply lookup_lt_Some).
  assert (forall k sk, ss !! k = Some sk ->
    k = c /\ sk = ThreadSlot.set_state sc (UserThreadState.JoinBlocked i)
    \/ k = i /\ sk = ThreadSlot.set_joiner s c
    \/ k <> i /\ k <> c /\ slots self !! k = Some sk) as Hback.
  { intros k sk [(<-&<-&_)|(?&Hk)]%list_lookup_insert_Some; [by left|].
    apply list_lookup_insert_Some in Hk as [(<-&<-&_)|(?&?)]; naive_solver. }
  assert (ss !! c = Some (ThreadSlot.set_state sc (UserThreadState.JoinBlocked i))) as Hssc.
  { apply list_lookup_insert_eq. rewrite length_insert. by eapply lookup_lt_Some. }
  assert (ss !! i = Some (ThreadSlot.set_joiner s c)) as Hssi.
  { subst ss. rewrite list_lookup_insert_ne by done. apply list_lookup_insert_eq.
    by eapply lookup_lt_Some. }
  assert (forall k sk, slots self !! k = Some sk -> joining sk ->
    exists sk', ss !! k = Some sk' /\ ThreadSlot.state sk' = ThreadSlot.state sk
      /\ ThreadSlot.owner sk' = ThreadSlot.owner sk) as Hjoins.
  { intros k sk Hk [tgt Ht]. destruct (decide (k = c)) as [->|]; [congruence|].
    destruct (decide (k = i)) as [->|]; [simplify_eq; by eexists|].
    exists sk. subst ss. by rewrite !list_lookup_insert_ne by done. }
  split; simpl; try apply Hwf.
  - subst ss. by rewrite !length_insert, (tw_length _ _ Hwf).
  - intros k sk Hk Hr. destruct (Hback k sk Hk) as [[-> ->]|[[-> ->]|(?&?&?)]]; [done|..];
      by eapply Hwf.
  - intros k sk Hk Hjk. destruct (decide (k = i)) as [->|Hki].
    { rewrite Hssi in Hk. simplify_eq. split; [done|]. simpl. eexists. split; [done|]. done. }
    assert (exists sk0, slots self !! k = Some sk0 /\ ThreadSlot.joiner sk0 = ThreadSlot.joiner sk
      /\ ThreadSlot.owner sk0 = ThreadSlot.owner sk /\ (live sk0 -> live sk)) as (sk0&Hk0&Hj0&Ho0&Hl0).
    { destruct (Hback k sk Hk) as [[-> ->]|[[-> ->]|(?&?&?)]]; [by exists sc|done|by eexists]. }
    rewrite <-Hj0 in Hjk |- *. destruct (tw_joiner _ _ Hwf k sk0 Hk0 Hjk) as (Hl&sjk&Hsjk&Hst&Ho).
    split; [auto|]. destruct (Hjoins _ _ Hsjk) as (sk'&?&?&?); [by eexists|].
    exists sk'. split_and!; congruence.
  - intros k sk target Hk Hst. destruct (decide (k = c)) as [->|Hkc].
    { rewrite Hssc in Hk. simplify_eq/=. split; [done|]. by eexists. }
    assert (exists sk0, slots self !! k = Some sk0
      /\ ThreadSlot.state sk0 = UserThreadState.JoinBlocked target) as (sk0&Hk0&Hst0).
    { destruct (Hback k sk Hk) as [[-> ->]|[[-> ->]|(?&?&?)]]; [done|by exists s|by eexists]. }
    destruct (tw_joining _ _ Hwf k sk0 target Hk0 Hst0) as (?&st'&Htgt&Hjt). split; [done|].
    assert (k < COUNT) by (rewrite <-(tw_length _ _ Hwf); by eapply lookup_lt_Some).
    destruct (decide (target = i)) as [->|].
    { simplify_eq. rewrite Hunj in *. unfold NO_THREAD in *. lia. }
    destruct (decide (target = c)) as [->|].
    { eexists. split; [done|]. simpl. congruence. }
    exists st'. subst ss. by rewrite !list_lookup_insert_ne by done.
  - intros s0 Hs0. destruct (Hback 0 s0 Hs0) as [[Hc0 ->]|[[Hi0 ->]|(?&?&?)]].
    + rewrite <-Hc0 in Hsc. by destruct (tw_init _ _ Hwf sc Hsc) as [_ ?].
    + rewrite <-Hi0 in Hs. exact (tw_init _ _ Hwf s Hs).
    + by apply (tw_init _ _ Hwf).
Qed.

(** The blocking end of [join_current]. *)
Lemma join_block_ok self target s sc now :
  table_wf COUNT self -> slots self !! target = Some s -> slots self !! current self = Some sc ->
  ThreadSlot.state sc = UserThreadState.Running -> live s -> ThreadSlot.joiner s = NO_THREAD ->
  target <> current self -> ThreadSlot.owner s = ThreadSlot.owner sc ->
  exists res self',
    (let! linked := put self target (ThreadSlot.set_joiner s (current self)) in
     let! caller_slot := index (slots linked) (current self) in
     let! blocked := put linked (current self)
                       (ThreadSlot.set_state caller_slot (UserThreadState.JoinBlocked target)) in
     let! (_, switched) := select_runnable COUNT blocked now in
     Ret (JoinOutcome.Blocked, switched)) = Ret (res, self') /\ table_wf COUNT self'.
Proof.
  intros Hwf Hs Hsc Hr Hlive Hj Hne Ho.
  pose proof (wf_link self (current self) sc target s Hwf Hsc Hr Hs Hlive Hj Hne Ho) as Hwf'.
  rewrite (put_Ret _ _ _ _ Hs).
  set (self1 := set_slots self _).
  assert (slots self1 !! current self = Some sc) as Hsc1.
  { subst self1. simpl. by rewrite list_lookup_insert_ne. }
  unfold index. rewrite Hsc1. change (current self1) with (current self).
  rewrite (put_Ret _ _ _ _ Hsc1).
  destruct (select_spec _ now Hwf') as (res&self'&Hsel&_&?).
  { simpl. apply idle_insert; [|done].
    intros i si [(<-&<-&_)|(?&?)]%list_lookup_insert_Some;
      [exact (tw_running _ _ Hwf target s Hs)|by eapply Hwf]. }
  exists JoinOutcome.Blocked, self'. change (select_runnable COUNT _ now) with
    (select_runnable COUNT (set_slots self
    (<[current self := ThreadSlot.set_state sc (UserThreadState.JoinBlocked target)]>
       (<[target := ThreadSlot.set_joiner s (current self)]> (slots self)))) now).
  by rewrite Hsel.
Qed.

Lemma join_ok self target now :
  table_wf COUNT self ->
  exists res self', join_current COUNT self target now = Ret (res, self') /\ table_wf COUNT self'.
Proof.
  intros Hwf. unfold join_current. cbv zeta. case_decide as Hg; [eauto|].
  apply not_or_split in Hg as [H0 [Hne Hlt]%not_or_split].
  destruct (lookup_lt_is_Some_2 (slots self) target) as [s Hs]; [rewrite (tw_length _ _ Hwf); lia|].
  replace (index (slots self) target) with (Ret s) by (symmetry; by apply index_Ret).
  destruct (current_slot self Hwf) as (sc&Hsc&->). case_decide as Ho; [eauto|]. undec.
  destruct (ThreadSlot.detached s || bool_decide (ThreadSlot.joiner s <> NO_THREAD)) eqn:Ht;
    [destruct (ThreadSlot.state s); eauto|].
  apply orb_false_iff in Ht as [_ Hj%bool_decide_eq_false]. undec.
  destruct (ThreadSlot.state s) as [| | | | | |code] eqn:Hst; [eauto|..|];
    try (case_decide as Hr; [eauto|undec; apply (join_block_ok self target s sc now); try done;
      unfold live; by rewrite Hst]).
  rewrite (put_Ret _ _ _ _ Hs). do 2 eexists. split; [done|].
  apply (wf_insert_plain self _ s); try done. right.
  split_and!; try done; [apply not_joining; congruence|by apply not_joining].
Qed.

Lemma abort_join_ok self :
  table_wf COUNT self ->
  exists res self', abort_blocked_join self = Ret (res, self') /\ table_wf COUNT self'.
Proof.
  intros Hwf. unfold abort_blocked_join. destruct (current_slot self Hwf) as (s&Hs&->).
  destruct (ThreadSlot.state s) as [| | | | |target|] eqn:Hst; eauto.
  destruct (tw_joining _ _ Hwf _ s target Hs Hst) as (Hne&st&Htgt&Hj).
  replace (index (slots self) target) with (Ret st) by (symmetry; by apply index_Ret).
  rewrite decide_True by done. rewrite (put_Ret _ _ _ _ Htgt). set (self1 := set_slots self _).
  assert (slots self1 !! current self1 = Some s) as Hs1.
  { subst self1. simpl. by rewrite list_lookup_insert_ne. }
  unfold index. rewrite Hs1, (put_Ret _ _ _ _ Hs1). do 2 eexists. split; [done|].
  apply (wf_unlink self target st _ (current self) s); try done. by left.
Qed.

(** A runnable preferred thread is the one selected. *)
Lemma select_preferred self now j sj :
  table_wf COUNT self -> slots self !! j = Some sj ->
  ThreadSlot.state sj = UserThreadState.Runnable ->
  select_runnable_prefer COUNT self now (Some j)
  = Ret (Some j, mk (<[j := ThreadSlot.set_state sj UserThreadState.Running]>
                       (wake_slot now <$> slots self)) j j).
Proof.
  intros Hwf Hj Hst. unfold select_runnable_prefer. cbv zeta.
  assert (slots (wake_expired self now) !! j = Some sj) as Hj'.
  { simpl. rewrite list_lookup_fmap, Hj. simpl. unfold wake_slot. by rewrite Hst. }
  rewrite Hj', decide_True by done. rewrite (dispatch_spec _ _ _ Hj'); [done|].
  rewrite <-(tw_length _ _ Hwf). by eapply lookup_lt_Some.
Qed.

(** A selection leaves alone the slots that are neither asleep nor runnable. *)
Lemma selected_keeps self now res self' i s :
  selected (wake_expired self now) res self' -> slots self !! i = Some s ->
  ThreadSlot.state s <> UserThreadState.Runnable ->
  (forall wake_at, ThreadSlot.state s <> UserThreadState.Sleeping wake_at) ->
  slots self' !! i = Some s.
Proof.
  intros Hsel Hi Hr Hsl.
  assert (slots (wake_expired self now) !! i = Some s) as Hi'.
  { simpl. rewrite list_lookup_fmap, Hi. simpl. unfold wake_slot.
    destruct (ThreadSlot.state s) eqn:E; try done. by edestruct Hsl. }
  destruct res as [id|]; simpl in Hsel; [|by destruct Hsel as [-> _]].
  destruct Hsel as (sid&Hid&Hst&->). simpl in *.
  rewrite list_lookup_insert_ne; [done|]. intros ->. congruence.
Qed.

Lemma exit_current_spec self code now :
  table_wf COUNT self ->
  exists res self', exit_current COUNT self code now = Ret (res, self') /\ table_wf COUNT self'
    /\ match res with
       | None => self' = self
       | Some out => exists s, slots self !! current self = Some s
           /\ ThreadSlot.state s = UserThreadState.Running
           /\ if decide (ThreadSlot.joiner s = NO_THREAD)
              then ExitOutcome.woken_joiner out = None
                   /\ state self' (current self)
                      = Some (if ThreadSlot.detached s then UserThreadState.Empty
                              else UserThreadState.Zombie code)
              else out = ExitOutcome.mk (Some (ThreadSlot.joiner s))
                           (Some (ThreadSlot.joiner s, code))
                   /\ current self' = ThreadSlot.joiner s
                   /\ state self' (ThreadSlot.joiner s) = Some UserThreadState.Running
                   /\ state self' (current self) = Some UserThreadState.Empty
       end.
Proof.
  intros Hwf. unfold exit_current. cbv zeta. case_decide as H0; [by do 2 eexists|].
  destruct (current_slot self Hwf) as (s&Hs&->). case_decide as Hr; [by do 2 eexists|]. undec.
  assert (~ joining s) as Hnj by (apply not_joining; congruence).
  destruct (decide (ThreadSlot.joiner s = NO_THREAD)) as [Hj|Hj].
  - rewrite !(decide_False (P := ThreadSlot.joiner s <> NO_THREAD)) by (intros H; by apply H).
    set (s' := if ThreadSlot.detached s then ThreadSlot.EMPTY
               else ThreadSlot.set_state s (UserThreadState.Zombie code)).
    replace (if ThreadSlot.detached s then put self (current self) ThreadSlot.EMPTY
             else put self (current self) (ThreadSlot.set_state s (UserThreadState.Zombie code)))
      with (put self (current self) s') by (subst s'; by destruct (ThreadSlot.detached s)).
    rewrite (put_Ret _ _ _ _ Hs).
    assert (ThreadSlot.state s' = if ThreadSlot.detached s then UserThreadState.Empty
                                  else UserThreadState.Zombie code) as Hst'.
    { subst s'. by destruct (ThreadSlot.detached s). }
    assert (table_wf COUNT (set_slots self (<[current self := s']> (slots self)))) as Hwf'.
    { apply (wf_insert_plain self _ s); try done. right.
      split_and!; try done; [by subst s'; destruct (ThreadSlot.detached s)|].
      apply not_joining. rewrite Hst'. by destruct (ThreadSlot.detached s). }
    destruct (select_prefer_spec _ now None Hwf') as (res&self'&->&Hsel&Hwf''); [|done|].
    { apply left_running_idle; [done|]. rewrite Hst'. by destruct (ThreadSlot.detached s). }
    do 2 eexists. split; [done|]. split; [done|]. exists s. split_and!; try done.
    rewrite decide_True by done. split; [done|]. unfold state.
    rewrite (selected_keeps _ _ _ _ (current self) s' Hsel);
      [simpl; by rewrite Hst'|simpl; apply list_lookup_insert_eq; by eapply lookup_lt_Some|..];
      rewrite Hst'; by destruct (ThreadSlot.detached s).
  - rewrite !(decide_True (P := ThreadSlot.joiner s <> NO_THREAD)) by done.
    destruct (tw_joiner _ _ Hwf _ s Hs Hj) as (_&sj&Hsj&Hstj&_).
    assert (current self <> ThreadSlot.joiner s) as Hne by congruence.
    rewrite (put_Ret _ _ _ _ Hs). set (self1 := set_slots self _).
    assert (slots self1 !! ThreadSlot.joiner s = Some sj) as Hsj1.
    { subst self1. simpl. by rewrite list_lookup_insert_ne. }
    replace (index (slots self1) (ThreadSlot.joiner s)) with (Ret sj)
      by (symmetry; by apply index_Ret).
    rewrite decide_True by done. rewrite (put_Ret _ _ _ _ Hsj1).
    assert (table_wf COUNT (set_slots self1
      (<[ThreadSlot.joiner s := ThreadSlot.set_state sj UserThreadState.Runnable]> (slots self1))))
      as Hwf' by (apply (wf_unlink self (current self) s ThreadSlot.EMPTY _ sj); try done; by right).
    erewrite select_preferred; [|done|simpl; apply list_lookup_insert_eq;
      rewrite length_insert; by eapply lookup_lt_Some|done].
    do 2 eexists. split; [done|]. split.
    + apply (dispatch_wf (wake_expired (set_slots self1 _) now)); try done.
      * by apply wake_expired_wf.
      * apply wake_expired_idle. simpl. intros i si [(<-&<-&_)|(?&Hi)]%list_lookup_insert_Some; [done|].
        apply list_lookup_insert_Some in Hi as [(<-&<-&_)|(?&Hi)]; [done|].
        intros Hri. by apply (tw_running _ _ Hwf) in Hi.
      * simpl. rewrite list_lookup_fmap, list_lookup_insert_eq; [done|].
        rewrite length_insert. by eapply lookup_lt_Some.
    + exists s. split_and!; try done. rewrite decide_False by done. unfold state. simpl.
      split_and!; try done.
      * rewrite list_lookup_insert_eq; [done|]. rewrite length_fmap, !length_insert.
        by eapply lookup_lt_Some.
      * rewrite list_lookup_insert_ne by done.
        rewrite list_lookup_fmap, list_lookup_insert_ne, list_lookup_insert_eq; [done| |done].
        by eapply lookup_lt_Some.
Qed.

Lemma lookup_without owner ss i s' :
  without owner ss !! i = Some s' ->
  exists s, ss !! i = Some s /\ (owned_by owner s /\ s' = ThreadSlot.EMPTY
                               \/ ~ owned_by owner s /\ s' = s).
Proof.
  unfold without. rewrite list_lookup_fmap. destruct (ss !! i) as [s|]; [|done]. simpl.
  intros [= <-]. exists s. split; [done|]. case_decide; auto.
Qed.

Lemma lookup_without_kept owner ss i s :
  ss !! i = Some s -> ~ owned_by owner s -> without owner ss !! i = Some s.
Proof. intros Hi Hn. unfold without. rewrite list_lookup_fmap, Hi. simpl. by rewrite decide_False. Qed.

(** No surviving thread waits on a removed one: joins stay within a process. *)
Lemma without_wf self owner :
  table_wf COUNT self -> owner <> INIT_PROCESS_ID ->
  table_wf COUNT (set_slots self (without owner (slots self))).
Proof.
  intros Hwf Hinit. split; simpl; try apply Hwf.
  - unfold without. by rewrite length_fmap, (tw_length _ _ Hwf).
  - intros i s' (s&Hs&[[_ ->]|[_ ->]])%lookup_without Hr; [done|]. by eapply Hwf.
  - intros i s' (s&Hs&[[_ ->]|[Hn ->]])%lookup_without Hj; [done|].
    destruct (tw_joiner _ _ Hwf i s Hs Hj) as (Hl&sj&Hsj&Hst&Ho). split; [done|].
    exists sj. split; [|done]. apply lookup_without_kept; [done|]. intros [_ ?]. apply Hn.
    split; [apply Hl|congruence].
  - intros i s' target (s&Hs&[[_ ->]|[Hn ->]])%lookup_without Hst; [done|].
    destruct (tw_joining _ _ Hwf i s target Hs Hst) as (?&st&Htgt&Hj). split; [done|].
    exists st. split; [|done]. apply lookup_without_kept; [done|]. intros [? Ho]. apply Hn.
    assert (ThreadSlot.joiner st <> NO_THREAD) as Hjn.
    { apply lookup_lt_Some in Hs. rewrite (tw_length _ _ Hwf) in Hs. unfold NO_THREAD. lia. }
    destruct (tw_joiner _ _ Hwf target st Htgt Hjn) as (_&sj&Hsj&_&Ho').
    rewrite Hj, Hs in Hsj. simplify_eq. split; [congruence|congruence].
  - intros s' (s&Hs&Hc)%lookup_without. destruct (tw_init _ _ Hwf s Hs) as [Hl Ho].
    destruct Hc as [[[_ ?] _]|[_ ->]]; [congruence|done].
Qed.

Lemma without_none owner ss : ~ Exists (owned_by owner) ss -> without owner ss = ss.
Proof.
  intros Hn. apply list_eq. intros i. destruct (ss !! i) as [s|] eqn:Hi.
  - apply lookup_without_kept; [done|]. intros Ho. apply Hn, Exists_exists.
    exists s. split; [by eapply list_elem_of_lookup_2|done].
  - unfold without. by rewrite list_lookup_fmap, Hi.
Qed.

(** A selection creates no thread and moves none to another process. *)
Lemma selected_owned self now res self' owner i s :
  selected (wake_expired self now) res self' -> slots self' !! i = Some s -> owned_by owner s ->
  exists s0, slots self !! i = Some s0 /\ owned_by owner s0.
Proof.
  intros Hsel Hi Hown.
  assert (exists s1, slots (wake_expired self now) !! i = Some s1 /\ owned_by owner s1)
    as (s1&Hs1&Ho1).
  { destruct res as [id|]; simpl in Hsel; [|destruct Hsel as [-> _]; eauto].
    destruct Hsel as (sid&Hid&Hst&->). simpl in Hi.
    apply list_lookup_insert_Some in Hi as [(<-&<-&_)|(?&?)]; [|eauto].
    exists sid. split; [done|]. split; [congruence|]. apply Hown. }
  simpl in Hs1. rewrite list_lookup_fmap in Hs1.
  destruct (slots self !! i) as [s0|]; simplify_eq/=. exists s0. split; [done|].
  unfold wake_slot in Ho1. destruct (ThreadSlot.state s0) eqn:E; try done.
  destruct Ho1 as [_ Ho]. split; [congruence|]. by case_decide.
Qed.

Lemma exit_process_spec self owner now :
  table_wf COUNT self ->
  exists res self', exit_process COUNT self owner now = Ret (res, self') /\ table_wf COUNT self'
    /\ match res with
       | None => self' = self /\ (owner = INIT_PROCESS_ID
                                 \/ forall i s, slots self !! i = Some s -> ~ owned_by owner s)
       | Some next => owner <> INIT_PROCESS_ID
           /\ (forall i s, slots self' !! i = Some s -> ~ owned_by owner s)
           /\ (forall i s, slots self !! i = Some s -> ~ owned_by owner s ->
                 ThreadSlot.state s <> UserThreadState.Runnable ->
                 (forall wake_at, ThreadSlot.state s <> UserThreadState.Sleeping wake_at) ->
                 slots self' !! i = Some s)
       end.
Proof.
  intros Hwf. unfold exit_process. case_decide as Hinit; [by do 2 eexists; eauto|]. cbv zeta.
  fold (without owner (slots self)). pose proof (without_wf self owner Hwf Hinit) as Hwf'.
  case_bool_decide as Hex; cbn [negb].
  2: { rewrite (without_none _ _ Hex). do 2 eexists. split; [done|].
       replace (set_slots self (slots self)) with self by (by destruct self).
       split_and!; [done|done|right]. intros i s Hi Ho. apply Hex, Exists_exists.
       exists s. split; [by eapply list_elem_of_lookup_2|done]. }
  assert (forall i s, without owner (slots self) !! i = Some s -> ~ owned_by owner s) as Hgone.
  { intros i s (s0&_&[[_ ->]|[? ->]])%lookup_without; [|done]. by intros [? _]. }
  destruct (current_slot _ Hwf') as (sc&Hsc&->). case_decide as He.
  - destruct (select_spec _ now Hwf') as (res&self'&->&Hsel&Hwf'').
    { intros i s Hi Hr. pose proof (tw_running _ _ Hwf' i s Hi Hr). subst i. congruence. }
    do 2 eexists. split; [done|]. split_and!; [done|done|..].
    + intros i s Hi Ho. destruct (selected_owned _ _ _ _ _ _ _ Hsel Hi Ho) as (s0&Hs0&?).
      by apply (Hgone i s0).
    + intros i s Hi Hn Hr Hsl. eapply selected_keeps; try done. by apply lookup_without_kept.
  - do 2 eexists. split; [done|]. split_and!; [done|done|done|].
    intros i s Hi Hn _ _. by apply lookup_without_kept.
Qed.

Lemma thread_op_ok self x :
  table_wf COUNT self -> ThreadOps.op_ok self x ->
  exists self', ThreadOps.run_op COUNT self x = Ret self' /\ table_wf COUNT self'.
Proof.
  intros Hwf Hok. destruct x as [|o|o now|th|now|wk now| |th| |tg now| |tg|code now|now|now]; simpl in *.
  - unfold allocate, current_owner. destruct (current_slot self Hwf) as (s&_&->).
    destruct (allocate_for_process_ok self (ThreadSlot.owner s) Hwf) as (?&?&->&?&_). eauto.
  - destruct (allocate_for_process_ok self o Hwf) as (?&?&->&?&_). eauto.
  - destruct (exit_process_spec self o now Hwf) as (?&?&->&?&_). eauto.
  - eauto using discard_ok.
  - unfold yield_current. destruct (leave_running_ok self UserThreadState.Runnable now Hwf) as (?&?&->&?); eauto.
  - unfold sleep_current. destruct (leave_running_ok self (UserThreadState.Sleeping wk) now Hwf) as (?&?&->&?); eauto.
  - destruct (block_ok self Hwf) as (?&?&->&?). eauto.
  - eauto using wake_channel_ok.
  - destruct (abort_channel_ok self Hwf) as (?&?&->&?). eauto.
  - destruct (join_ok self tg now Hwf) as (?&?&->&?). eauto.
  - destruct (abort_join_ok self Hwf) as (?&?&->&?). eauto.
  - destruct (detach_ok self tg Hwf) as (?&?&->&?). eauto.
  - destruct (exit_current_spec self code now Hwf) as (?&?&->&?&_). eauto.
  - eauto using wake_expired_wf.
  - destruct (select_spec self now Hwf Hok) as (?&?&->&_&?). eauto.
Qed.

Lemma threads_new_wf : table_wf COUNT (new COUNT).
Proof.
  assert (forall i s, slots (new COUNT) !! i = Some s ->
    i = 0 /\ s = ThreadSlot.set_state ThreadSlot.EMPTY UserThreadState.Running
    \/ s = ThreadSlot.EMPTY /\ i <> 0) as Hl.
  { intros i s [(<-&<-&_)|(?&[-> _]%lookup_replicate)]%list_lookup_insert_Some; auto. }
  split; simpl; try lia.
  - by rewrite length_insert, length_replicate.
  - intros i s [[-> ->]|[-> ?]]%Hl Hr; done.
  - intros i s [[-> ->]|[-> ?]]%Hl Hj; done.
  - intros i s target [[-> ->]|[-> ?]]%Hl Hj; done.
  - intros s [[_ ->]|[_ ?]]%Hl; done.
Qed.

(** Yielding: the current thread becomes runnable, the nearest runnable thread
    runs, and every other runnable thread gets nearer to the cursor. *)
Lemma yield_spec self now sc :
  table_wf COUNT self -> slots self !! current self = Some sc ->
  ThreadSlot.state sc = UserThreadState.Running ->
  exists id self', yield_current COUNT self now = Ret (Some id, self') /\ table_wf COUNT self'
    /\ current self' = id /\ cursor self' = id
    /\ state self' id = Some UserThreadState.Running
    /\ forall j, state self j = Some UserThreadState.Runnable -> j <> id ->
         state self' j = Some UserThreadState.Runnable
         /\ distance COUNT id j < distance COUNT (cursor self) j.
Proof.
  intros Hwf Hsc Hst. unfold yield_current, leave_running, index. rewrite Hsc.
  rewrite decide_False by (intros H; by apply H). rewrite (put_Ret _ _ _ _ Hsc).
  set (self1 := set_slots self _).
  assert (table_wf COUNT self1) as Hwf1.
  { apply set_current_ok; try done. apply not_joining. congruence. }
  assert (idle (slots self1)) as Hidle1 by (by apply left_running_idle).
  pose proof (wake_expired_wf self1 now Hwf1) as Hww.
  pose proof (wake_expired_idle self1 now Hidle1) as Hwi.
  unfold select_runnable, select_runnable_prefer. cbv zeta.
  assert (forall j, state self1 j = Some UserThreadState.Runnable ->
    exists s, slots (wake_expired self1 now) !! j = Some s
      /\ ThreadSlot.state s = UserThreadState.Runnable) as Hkeep.
  { intros j Hj. unfold state in Hj. destruct (slots self1 !! j) as [s|] eqn:Hs; simplify_eq/=.
    exists s. rewrite list_lookup_fmap. unfold self1 in Hs. simpl in Hs. rewrite Hs. simpl.
    unfold wake_slot. by rewrite Hj. }
  destruct (select_round_robin_spec _ Hww) as (res&self'&->&Hsel&Hnear).
  pose proof (selected_wf _ _ _ Hww Hwi Hsel) as Hwf'. destruct res as [id|].
  2: { destruct Hsel as [_ Hnone]. destruct (Hkeep (current self)) as (s&Hs&Hr).
       { unfold state. simpl. by rewrite list_lookup_insert_eq by (by eapply lookup_lt_Some). }
       by destruct (Hnone _ _ Hs). }
  destruct Hsel as (s&Hid&Hidst&Heq). exists id, self'.
  split_and!; [done|done|by subst self'..| |].
  { subst self'. unfold state. simpl. rewrite list_lookup_insert_eq; [done|].
    by eapply lookup_lt_Some. }
  intros j Hj Hne.
  assert (j <> current self) as Hjc.
  { intros ->. unfold state in Hj. rewrite Hsc in Hj. simplify_eq/=. congruence. }
  destruct (Hkeep j) as (sj&Hsj&Hsjr).
  { unfold state in *. simpl. by rewrite list_lookup_insert_ne. }
  split.
  - subst self'. unfold state. cbn [slots]. rewrite list_lookup_insert_ne by done.
    rewrite Hsj. simpl. by rewrite Hsjr.
  - specialize (Hnear j sj Hsj Hsjr). change (cursor (wake_expired self1 now)) with (cursor self) in Hnear.
    apply lookup_lt_Some in Hid, Hsj. rewrite (tw_length _ _ Hww) in Hid, Hsj.
    pose proof (tw_cursor _ _ Hwf). unfold distance in *. repeat case_decide; lia.
Qed.

(** Within [distance + 1] yields of the running threads, thread [j] runs. *)
Lemma yields_reach self j times :
  table_wf COUNT self -> state self (current self) = Some UserThreadState.Running ->
  state self j = Some UserThreadState.Runnable ->
  distance COUNT (cursor self) j < length times ->
  exists k self', k <= S (distance COUNT (cursor self) j) /\ k <= length times
    /\ yields COUNT self (take k times) = Ret self'
    /\ current self' = j /\ state self' j = Some UserThreadState.Running.
Proof.
  remember (distance COUNT (cursor self) j) as d eqn:Hd. revert self times Hd.
  induction d as [d IH] using lt_wf_ind. intros self times Hd Hwf Hcur Hj Hlen.
  destruct times as [|now times]; simpl in Hlen; [lia|].
  unfold state in Hcur. destruct (slots self !! current self) as [sc|] eqn:Hsc; simplify_eq/=.
  destruct (yield_spec self now sc Hwf Hsc Hcur) as (id&self1&Hy&Hwf1&Hc1&Hcs1&Hr1&Hrest).
  destruct (decide (j = id)) as [->|Hne].
  { exists 1, self1. simpl. rewrite Hy. split_and!; done || lia. }
  destruct (Hrest j Hj Hne) as [Hj1 Hlt].
  destruct (IH (distance COUNT (cursor self1) j)) with (self := self1) (times := times)
    as (k&self'&?&?&Hrun&?&?); try done; rewrite ?Hcs1, ?Hc1; try done; try lia.
  exists (S k), self'. rewrite Hcs1 in *. split_and!; try done; try lia.
  simpl. by rewrite Hy.
Qed.
End threads.

Section sleeping.
Import BootstrapUserThreads.

(** The delay of the earliest sleeper, over a list of slots. *)
Lemma least_delay now ss :
  match foldr (fun slot least =>
    match ThreadSlot.state slot with
    | UserThreadState.Sleeping wake_at =>
        let ticks := (wake_at - now)%N in
        Some (match least with Some l => N.min ticks l | None => ticks end)
    | _ => least
    end) None ss with
  | None => Forall (fun s => forall wake_at, ThreadSlot.state s <> UserThreadState.Sleeping wake_at) ss
  | Some k =>
      Exists (fun s => exists wake_at, ThreadSlot.state s = UserThreadState.Sleeping wake_at
                         /\ (wake_at - now)%N = k) ss
      /\ Forall (fun s => forall wake_at, ThreadSlot.state s = UserThreadState.Sleeping wake_at ->
                            (k <= wake_at - now)%N) ss
  end.
Proof.
  induction ss as [|s ss IH]; simpl; [done|]. destruct (foldr _ None ss) as [l|].
  - destruct IH as [He Ha].
    destruct (ThreadSlot.state s) as [| | |wake_at| | |] eqn:E;
      try (split; [by right|constructor; [intros; congruence|done]]).
    destruct (decide (wake_at - now <= l)%N) as [Hl|Hl].
    + rewrite N.min_l by done. split; [left; eauto|]. constructor.
      * intros w Hw. simplify_eq. congruence || (rewrite E in Hw; simplify_eq; lia).
      * eapply Forall_impl; [done|]. simpl. intros s' Hs' w Hw. specialize (Hs' w Hw). lia.
    + rewrite N.min_r by lia. split; [by right|]. constructor; [|done].
      intros w Hw. rewrite E in Hw. simplify_eq. lia.
  - destruct (ThreadSlot.state s) as [| | |wake_at| | |] eqn:E;
      try (constructor; [intros; congruence|done]).
    split; [left; eauto|]. constructor; [intros w Hw; rewrite E in Hw; simplify_eq; lia|].
    eapply Forall_impl; [done|]. simpl. intros s' Hs' w Hw. by destruct (Hs' w).
Qed.

Lemma wake_slot_early now s :
  (forall wake_at, ThreadSlot.state s = UserThreadState.Sleeping wake_at -> (now < wake_at)%N) ->
  wake_slot now s = s.
Proof.
  intros H. unfold wake_slot. destruct (ThreadSlot.state s) as [| | |w| | |]; try done.
  rewrite decide_False; [done|]. specialize (H w eq_refl). lia.
Qed.
End sleeping.

(** ** Properties *)

(** C18: The thread table never panics and keeps its invariant.  In every table
    the kernel can reach, at most the current thread runs, every recorded
    joiner is blocked on exactly that thread of its own process and every
    joining thread is recorded with its target, slot 0 stays the live bootstrap
    thread of init, and every operation runs without an index panic. *)
Theorem thread_table_invariant COUNT self x :
  0 < COUNT <= 255 -> ThreadOps.reachable COUNT self -> ThreadOps.op_ok self x ->
  table_wf COUNT self /\ exists self', ThreadOps.run_op COUNT self x = Ret self'.
Proof.
  intros Hc Hr Hok.
  assert (table_wf COUNT self) as Hwf.
  { clear x Hok. induction Hr as [|self x self' _ IH Hok Hrun]; [by apply threads_new_wf|].
    destruct (thread_op_ok COUNT Hc self x IH Hok) as (?&?&?). same_result. done. }
  destruct (thread_op_ok COUNT Hc self x Hwf Hok) as (self'&?&_). eauto.
Qed.

(** Round-robin is fair.  While threads only yield, a runnable thread runs
    after at most as many yields as there are slots between the cursor and it,
    whatever the clock reads and whichever sleepers wake up meanwhile. *)
Theorem round_robin_fair COUNT self j times :
  0 < COUNT <= 255 -> table_wf COUNT self ->
  BootstrapUserThreads.state self (BootstrapUserThreads.current self)
    = Some UserThreadState.Running ->
  BootstrapUserThreads.state self j = Some UserThreadState.Runnable ->
  length times = COUNT ->
  exists k self', k <= S (distance COUNT (BootstrapUserThreads.cursor self) j)
    /\ k <= COUNT
    /\ yields COUNT self (take k times) = Ret self'
    /\ BootstrapUserThreads.current self' = j
    /\ BootstrapUserThreads.state self' j = Some UserThreadState.Running.
Proof.
  intros Hc Hwf Hcur Hj Hlen.
  destruct (yields_reach COUNT Hc self j times Hwf Hcur Hj) as (k&self'&?&?&?&?&?).
  { rewrite Hlen. apply distance_lt; [done|apply Hwf|].
    unfold BootstrapUserThreads.state in Hj.
    destruct (BootstrapUserThreads.slots self !! j) eqn:E; [|done].
    apply lookup_lt_Some in E. by rewrite (tw_length _ _ Hwf) in E. }
  exists k, self'. split_and!; try done. lia.
Qed.

(** An exit code reaches its joiner exactly once.  When the current thread
    exits, a waiting joiner is named with the exit code, runs next, and the
    exited slot is free; without a joiner nobody is woken, and the slot keeps
    the code for a later join, or is free at once if the thread was detached. *)
Theorem exit_hands_code_to_joiner COUNT self code now :
  0 < COUNT <= 255 -> table_wf COUNT self ->
  exists res self', BootstrapUserThreads.exit_current COUNT self code now = Ret (res, self')
    /\ match res with
       | None => self' = self
       | Some out => exists s,
           BootstrapUserThreads.slots self !! BootstrapUserThreads.current self = Some s
           /\ ThreadSlot.state s = UserThreadState.Running
           /\ if decide (ThreadSlot.joiner s = NO_THREAD)
              then ExitOutcome.woken_joiner out = None
                   /\ BootstrapUserThreads.state self' (BootstrapUserThreads.current self)
                      = Some (if ThreadSlot.detached s then UserThreadState.Empty
                              else UserThreadState.Zombie code)
              else out = ExitOutcome.mk (Some (ThreadSlot.joiner s))
                           (Some (ThreadSlot.joiner s, code))
                   /\ BootstrapUserThreads.current self' = ThreadSlot.joiner s
                   /\ BootstrapUserThreads.state self' (ThreadSlot.joiner s)
                      = Some UserThreadState.Running
                   /\ BootstrapUserThreads.state self' (BootstrapUserThreads.current self)
                      = Some UserThreadState.Empty
       end.
Proof.
  intros Hc Hwf. destruct (exit_current_spec COUNT Hc self code now Hwf) as (res&self'&?&_&?). eauto.
Qed.

(** Removing a process removes exactly its threads.  Init is never removed;
    afterwards no thread of the process is left, no surviving thread waits to
    join a removed one, and the threads of other processes that are neither
    runnable nor asleep are untouched. *)
Theorem exit_process_exact COUNT self owner now :
  0 < COUNT <= 255 -> table_wf COUNT self ->
  exists res self', BootstrapUserThreads.exit_process COUNT self owner now = Ret (res, self')
    /\ table_wf COUNT self'
    /\ match res with
       | None => self' = self /\ (owner = INIT_PROCESS_ID
           \/ forall i s, BootstrapUserThreads.slots self !! i = Some s ->
                ~ BootstrapUserThreads.owned_by owner s)
       | Some next => owner <> INIT_PROCESS_ID
           /\ (forall i s, BootstrapUserThreads.slots self' !! i = Some s ->
                 ~ BootstrapUserThreads.owned_by owner s)
           /\ (forall i s, BootstrapUserThreads.slots self !! i = Some s ->
                 ~ BootstrapUserThreads.owned_by owner s ->
                 ThreadSlot.state s <> UserThreadState.Runnable ->
                 (forall wake_at, ThreadSlot.state s <> UserThreadState.Sleeping wake_at) ->
                 BootstrapUserThreads.slots self' !! i = Some s)
       end.
Proof.
  intros Hc Hwf. destruct (exit_process_spec COUNT Hc self owner now Hwf) as (res&self'&?&?&?). eauto.
Qed.

(** Waiting [ticks_until_wake] ticks wakes the earliest sleeper and waiting
    any less wakes nobody; it is [None] exactly when no thread sleeps. *)
Theorem ticks_until_wake_exact self now :
  match BootstrapUserThreads.ticks_until_wake self now with
  | None => forall i s wake_at, BootstrapUserThreads.slots self !! i = Some s ->
      ThreadSlot.state s <> UserThreadState.Sleeping wake_at
  | Some k =>
      (exists i s wake_at, BootstrapUserThreads.slots self !! i = Some s
         /\ ThreadSlot.state s = UserThreadState.Sleeping wake_at
         /\ BootstrapUserThreads.state (BootstrapUserThreads.wake_expired self (now + k)) i
            = Some UserThreadState.Runnable)
      /\ forall t, (t < now + k)%N -> (0 < k)%N -> BootstrapUserThreads.wake_expired self t = self
  end.
Proof.
  pose proof (least_delay now (BootstrapUserThreads.slots self)) as H.
  unfold BootstrapUserThreads.ticks_until_wake. destruct (foldr _ None _) as [k|].
  - destruct H as [He Ha]. split.
    + apply Exists_exists in He as (s&Hin&w&Hst&Hk). apply list_elem_of_lookup in Hin as [i Hi].
      exists i, s, w. split_and!; [done|done|]. unfold BootstrapUserThreads.state. simpl.
      rewrite list_lookup_fmap, Hi. simpl. unfold BootstrapUserThreads.wake_slot.
      rewrite Hst, decide_True by lia. done.
    + intros t Ht Hk. destruct self as [ss cur csr]. unfold BootstrapUserThreads.wake_expired,
        BootstrapUserThreads.set_slots; simpl in *. f_equal.
      rewrite <-(list_fmap_id ss) at 2. apply list_fmap_ext. intros i s Hi. simpl.
      apply wake_slot_early. intros w Hw. rewrite Forall_lookup in Ha.
      specialize (Ha i s Hi w Hw). lia.
  - intros i s w Hi. rewrite Forall_lookup in H. by apply (H i s).
Qed.

(** ** Witnesses *)

Module SchedulerExample.
Definition start := BootstrapUserThreads.new 4.
Definition force (e : Exec BootstrapUserThreads.t) : BootstrapUserThreads.t :=
  match e with Ret self => self | Panic => start end.

(** Two more threads of init; the bootstrap thread joins the first. *)
Definition two := force (ThreadOps.run_op 4 (force (ThreadOps.run_op 4 start ThreadOps.Allocate))
                           ThreadOps.Allocate).
Definition joined := force (ThreadOps.run_op 4 two (ThreadOps.Join 1 0)).

Lemma count_ok : 0 < 4 <= 255.
Proof. lia. Qed.

Lemma two_reachable : ThreadOps.reachable 4 two.
Proof.
  apply (ThreadOps.reachable_step 4 (force (ThreadOps.run_op 4 start ThreadOps.Allocate))
    ThreadOps.Allocate); [|done|by vm_compute].
  by apply (ThreadOps.reachable_step 4 start ThreadOps.Allocate); [constructor|..].
Qed.

Lemma two_wf : table_wf 4 two.
Proof.
  destruct (thread_op_ok 4 count_ok start ThreadOps.Allocate) as (t1&H1&Hwf1);
    [by apply threads_new_wf; apply count_ok|done|].
  destruct (thread_op_ok 4 count_ok t1 ThreadOps.Allocate Hwf1) as (t2&H2&Hwf2); [done|].
  replace two with t2; [done|]. unfold two. rewrite H1. cbn [force]. by rewrite H2.
Qed.

Lemma thread_table_invariant_witness :
  table_wf 4 two /\ exists self', ThreadOps.run_op 4 two (ThreadOps.Join 1 0) = Ret self'.
Proof. apply (thread_table_invariant 4 two (ThreadOps.Join 1 0) count_ok two_reachable). done. Defined.

Lemma round_robin_fair_witness :
  exists k self', k <= S (distance 4 (BootstrapUserThreads.cursor two) 2)
    /\ k <= 4
    /\ yields 4 two (take k [0; 1; 2; 3]%N) = Ret self'
    /\ BootstrapUserThreads.current self' = 2
    /\ BootstrapUserThreads.state self' 2 = Some UserThreadState.Running.
Proof. apply (round_robin_fair 4 two 2 [0; 1; 2; 3]%N count_ok two_wf); reflexivity. Defined.

Lemma joined_wf : table_wf 4 joined.
Proof.
  destruct (thread_op_ok 4 count_ok two (ThreadOps.Join 1 0) two_wf) as (t1&H1&Hwf1); [done|].
  replace joined with t1; [done|]. unfold joined. by rewrite H1.
Qed.

Lemma exit_hands_code_to_joiner_witness :
  exists res self', BootstrapUserThreads.exit_current 4 joined 7 0 = Ret (res, self')
    /\ match res with
       | None => self' = joined
       | Some out => exists s,
           BootstrapUserThreads.slots joined !! BootstrapUserThreads.current joined = Some s
           /\ ThreadSlot.state s = UserThreadState.Running
           /\ if decide (ThreadSlot.joiner s = NO_THREAD)
              then ExitOutcome.woken_joiner out = None
                   /\ BootstrapUserThreads.state self' (BootstrapUserThreads.current joined)
                      = Some (if ThreadSlot.detached s then UserThreadState.Empty
                              else UserThreadState.Zombie 7)
              else out = ExitOutcome.mk (Some (ThreadSlot.joiner s))
                           (Some (ThreadSlot.joiner s, 7%N))
                   /\ BootstrapUserThreads.current self' = ThreadSlot.joiner s
                   /\ BootstrapUserThreads.state self' (ThreadSlot.joiner s)
                      = Some UserThreadState.Running
                   /\ BootstrapUserThreads.state self' (BootstrapUserThreads.current joined)
                      = Some UserThreadState.Empty
       end.
Proof. apply (exit_hands_code_to_joiner 4 joined 7 0 count_ok joined_wf). Defined.

Definition foreign := force (ThreadOps.run_op 4 two (ThreadOps.AllocateForProcess 9)).

Lemma foreign_wf : table_wf 4 foreign.
Proof.
  destruct (thread_op_ok 4 count_ok two (ThreadOps.AllocateForProcess 9) two_wf) as (t1&H1&Hwf1);
    [done|]. replace foreign with t1; [done|]. unfold foreign. by rewrite H1.
Qed.

Lemma exit_process_exact_witness :
  exists res self', BootstrapUserThreads.exit_process 4 foreign 9 0 = Ret (res, self')
    /\ table_wf 4 self'
    /\ match res with
       | None => self' = foreign /\ (9%N = INIT_PROCESS_ID
           \/ forall i s, BootstrapUserThreads.slots foreign !! i = Some s ->
                ~ BootstrapUserThreads.owned_by 9 s)
       | Some next => 9%N <> INIT_PROCESS_ID
           /\ (forall i s, BootstrapUserThreads.slots self' !! i = Some s ->
                 ~ BootstrapUserThreads.owned_by 9 s)
           /\ (forall i s, BootstrapUserThreads.slots foreign !! i = Some s ->
                 ~ BootstrapUserThreads.owned_by 9 s ->
                 ThreadSlot.state s <> UserThreadState.Runnable ->
                 (forall wake_at, ThreadSlot.state s <> UserThreadState.Sleeping wake_at) ->
                 BootstrapUserThreads.slots self' !! i = Some s)
       end.
Proof. apply (exit_process_exact 4 foreign 9 0 count_ok foreign_wf). Defined.
End SchedulerExample.
