(* ===== verification/ProcessExit.v ===== *)
(** * Exit records and waits for isolated processes (kernel/src/process_exit.rs)

    The table of live isolated processes with the thread that waits for each,
    and of the exit records not consumed yet.  An abstract table, a map from
    process ids to their status, says what it promises. *)

From stdpp Require Import prelude.
From S2P Require Import Prelude.

Local Open Scope nagi_scope.

Definition FIRST_ISOLATED_PROCESS_ID : N := 2.
Definition MAX_EXIT_RECORDS : nat := 4.
Definition MAX_LIVE_PROCESSES : nat := 2.

Module ExitKind.
Inductive t := Exited | Faulted (vector : N).
End ExitKind.

Module ExitRecord.
Record t := mk { process_id : N; code : N; kind : ExitKind.t }.
End ExitRecord.

Module WaitOutcome.
Inductive t := Ready (record : ExitRecord.t) | Blocked | Invalid.
End WaitOutcome.

Module ExitTableError.
Inductive t := RecordsFull | IdsExhausted | AlreadyLive.

#[global] Instance eq_dec : EqDecision t.
Proof. solve_decision. Defined.
End ExitTableError.

Module ExitTable.
(** A live process is its id with the thread waiting for it. *)
Record t := mk {
  next_process_id : N;
  live : list (option (N * option nat));
  records : list (option ExitRecord.t)
}.

Definition new : t :=
  mk FIRST_ISOLATED_PROCESS_ID (replicate MAX_LIVE_PROCESSES None)
     (replicate MAX_EXIT_RECORDS None).

Definition live_count (self : t) : nat := count_of is_Some (live self).

Definition free_records (self : t) : nat := count_of (fun slot => slot = None) (records self).

Definition reserve (self : t) : Result N ExitTableError.t :=
  if decide (live_count self = MAX_LIVE_PROCESSES) then Err ExitTableError.AlreadyLive
  else if decide (free_records self < live_count self + 1) then Err ExitTableError.RecordsFull
  else if decide (next_process_id self = U32_MAX) then Err ExitTableError.IdsExhausted
  else Ok (next_process_id self).

Definition commit_spawn (self : t) (process_id : N) : bool * t :=
  if decide (process_id <> next_process_id self \/ reserve self <> Ok process_id)
  then (false, self)
  else
    match list_find (fun slot => slot = None) (live self) with
    | None => (false, self)
    | Some (slot, _) =>
        (true, mk (next_process_id self + 1) (<[slot := Some (process_id, None)]> (live self))
                 (records self))
    end.

(** [slot.is_some_and(|(live, _)| live == process_id)] *)
Definition names (process_id : N) (slot : option (N * option nat)) : Prop :=
  fst <$> slot = Some process_id.

#[global] Instance names_dec process_id slot : Decision (names process_id slot).
Proof. unfold names. apply _. Defined.

(** [slot.is_some_and(|record| record.process_id == process_id)] *)
Definition records_exit (process_id : N) (slot : option ExitRecord.t) : Prop :=
  ExitRecord.process_id <$> slot = Some process_id.

#[global] Instance records_exit_dec process_id slot : Decision (records_exit process_id slot).
Proof. unfold records_exit. apply _. Defined.

(** [*waiter == Some(thread)] *)
Definition waits (thread : nat) (slot : option (N * option nat)) : Prop :=
  snd <$> slot = Some (Some thread).

#[global] Instance waits_dec thread slot : Decision (waits thread slot).
Proof. unfold waits. apply _. Defined.

Definition is_live (self : t) (process_id : N) : bool :=
  bool_decide (Exists (names process_id) (live self)).

Definition record_exit (self : t) (process_id code : N) (kind : ExitKind.t) : option nat * t :=
  match list_find (names process_id) (live self) with
  | Some (i, Some (_, waiter)) =>
      (waiter,
       mk (next_process_id self) (<[i := None]> (live self))
          (match list_find (fun slot => slot = None) (records self) with
           | Some (slot, _) =>
               <[slot := Some (ExitRecord.mk process_id code kind)]> (records self)
           | None => records self
           end))
  | _ => (None, self)
  end.

Definition wait (self : t) (process_id : N) (thread : nat) : WaitOutcome.t * t :=
  match list_find (records_exit process_id) (records self) with
  | Some (slot, Some record) =>
      (WaitOutcome.Ready record,
       mk (next_process_id self) (live self) (<[slot := None]> (records self)))
  | _ =>
      if decide (Exists (waits thread) (live self)) then (WaitOutcome.Invalid, self)
      else
        match list_find (names process_id) (live self) with
        | Some (slot, Some (pid, None)) =>
            (WaitOutcome.Blocked,
             mk (next_process_id self) (<[slot := Some (pid, Some thread)]> (live self))
                (records self))
        | _ => (WaitOutcome.Invalid, self)
        end
  end.

Definition cancel_wait (self : t) (thread : nat) : bool * t :=
  match list_find (waits thread) (live self) with
  | Some (slot, Some (pid, _)) =>
      (true, mk (next_process_id self) (<[slot := Some (pid, None)]> (live self)) (records self))
  | _ => (false, self)
  end.
End ExitTable.

(** ** The abstract table *)

Inductive Status := Live (waiter : option nat) | Exited (record : ExitRecord.t).

Module ExitOps.
Inductive op :=
| Spawn
| RecordExit (process_id code : N) (kind : ExitKind.t)
| Wait (process_id : N) (thread : nat)
| CancelWait (thread : nat).

Inductive answer :=
| Spawned (result : Result N ExitTableError.t)
| Woke (thread : option nat)
| Waited (outcome : WaitOutcome.t)
| Cancelled (found : bool).

(** A spawn is [reserve] followed by [commit_spawn] of the reserved id. *)
Definition run_op (self : ExitTable.t) (x : op) : answer * ExitTable.t :=
  match x with
  | Spawn =>
      match ExitTable.reserve self with
      | Err e => (Spawned (Err e), self)
      | Ok id => let '(ok, self) := ExitTable.commit_spawn self id in
                 (Spawned (if ok : bool then Ok id else Err ExitTableError.AlreadyLive), self)
      end
  | RecordExit id code kind =>
      let '(w, self) := ExitTable.record_exit self id code kind in (Woke w, self)
  | Wait id thread => let '(o, self) := ExitTable.wait self id thread in (Waited o, self)
  | CancelWait thread => let '(b, self) := ExitTable.cancel_wait self thread in (Cancelled b, self)
  end.

Fixpoint run_ops (self : ExitTable.t) (xs : list op) : list answer * ExitTable.t :=
  match xs with
  | [] => ([], self)
  | x :: xs =>
      let '(a, self) := run_op self x in
      let '(l, self) := run_ops self xs in
      (a :: l, self)
  end.

(** What each operation promises in terms of the status of the processes. *)
Inductive spec (m : N -> option Status) : op -> answer -> (N -> option Status) -> Prop :=
| spec_spawn id m' :
    m id = None -> m' id = Some (Live None) -> (forall j, j <> id -> m' j = m j) ->
    spec m Spawn (Spawned (Ok id)) m'
| spec_spawn_refused e m' :
    (forall j, m' j = m j) -> spec m Spawn (Spawned (Err e)) m'
| spec_exit id code kind w m' :
    m id = Some (Live w) -> m' id = Some (Exited (ExitRecord.mk id code kind)) ->
    (forall j, j <> id -> m' j = m j) ->
    spec m (RecordExit id code kind) (Woke w) m'
| spec_exit_unknown id code kind m' :
    (forall w, m id <> Some (Live w)) -> (forall j, m' j = m j) ->
    spec m (RecordExit id code kind) (Woke None) m'
| spec_ready id thread r m' :
    m id = Some (Exited r) -> m' id = None -> (forall j, j <> id -> m' j = m j) ->
    spec m (Wait id thread) (Waited (WaitOutcome.Ready r)) m'
| spec_block id thread m' :
    m id = Some (Live None) -> (forall j, m j <> Some (Live (Some thread))) ->
    m' id = Some (Live (Some thread)) -> (forall j, j <> id -> m' j = m j) ->
    spec m (Wait id thread) (Waited WaitOutcome.Blocked) m'
| spec_invalid id thread m' :
    m id = None \/ (exists w, m id = Some (Live (Some w)))
      \/ (exists w, m id = Some (Live w)) /\ (exists j, m j = Some (Live (Some thread))) ->
    (forall j, m' j = m j) ->
    spec m (Wait id thread) (Waited WaitOutcome.Invalid) m'
| spec_cancel id thread m' :
    m id = Some (Live (Some thread)) -> m' id = Some (Live None) ->
    (forall j, j <> id -> m' j = m j) ->
    spec m (CancelWait thread) (Cancelled true) m'
| spec_cancel_none thread m' :
    (forall j, m j <> Some (Live (Some thread))) -> (forall j, m' j = m j) ->
    spec m (CancelWait thread) (Cancelled false) m'.

Inductive spec_run (m : N -> option Status) : list op -> list answer -> (N -> option Status) -> Prop :=
| spec_run_nil m' : (forall j, m' j = m j) -> spec_run m [] [] m'
| spec_run_cons x a m1 xs l m2 :
    spec m x a m1 -> spec_run m1 xs l m2 -> spec_run m (x :: xs) (a :: l) m2.
End ExitOps.

(** The status of a process in the concrete table. *)
Definition status (self : ExitTable.t) (id : N) : option Status :=
  match list_find (ExitTable.names id) (ExitTable.live self) with
  | Some (_, Some (_, w)) => Some (Live w)
  | _ =>
      match list_find (ExitTable.records_exit id) (ExitTable.records self) with
      | Some (_, Some r) => Some (Exited r)
      | _ => None
      end
  end.

(** The invariant: ids name one process each and are below the next one, no
    thread waits twice, and every live process has a record slot kept. *)
Record exit_wf (self : ExitTable.t) : Prop := {
  ew_live_length : length (ExitTable.live self) = MAX_LIVE_PROCESSES;
  ew_records_length : length (ExitTable.records self) = MAX_EXIT_RECORDS;
  ew_next : (FIRST_ISOLATED_PROCESS_ID <= ExitTable.next_process_id self <= U32_MAX)%N;
  ew_live_below i id w :
    ExitTable.live self !! i = Some (Some (id, w)) -> (id < ExitTable.next_process_id self)%N;
  ew_records_below i r :
    ExitTable.records self !! i = Some (Some r) ->
    (ExitRecord.process_id r < ExitTable.next_process_id self)%N;
  ew_live_unique i j id w w' :
    ExitTable.live self !! i = Some (Some (id, w)) ->
    ExitTable.live self !! j = Some (Some (id, w')) -> i = j;
  ew_records_unique i j r r' :
    ExitTable.records self !! i = Some (Some r) -> ExitTable.records self !! j = Some (Some r') ->
    ExitRecord.process_id r = ExitRecord.process_id r' -> i = j;
  ew_disjoint i j id w r :
    ExitTable.live self !! i = Some (Some (id, w)) ->
    ExitTable.records self !! j = Some (Some r) -> ExitRecord.process_id r <> id;
  ew_waiter_unique i j id id' thread :
    ExitTable.live self !! i = Some (Some (id, Some thread)) ->
    ExitTable.live self !! j = Some (Some (id', Some thread)) -> i = j;
  ew_reserved : ExitTable.live_count self <= ExitTable.free_records self
}.

(** ** Theory *)

Section exits.
Import ExitTable.
Implicit Types (self : t).

Lemma find_names self id i e :
  list_find (names id) (live self) = Some (i, e) ->
  exists w, e = Some (id, w) /\ live self !! i = Some (Some (id, w)).
Proof.
  intros H. pose proof (list_find_holds _ _ _ _ H) as He. apply list_find_lookup in H.
  unfold names in He. destruct e as [[id' w]|]; simplify_eq/=. eauto.
Qed.

Lemma find_names_None self id :
  list_find (names id) (live self) = None -> forall i w, live self !! i <> Some (Some (id, w)).
Proof.
  intros H%list_find_None i w Hi. rewrite Forall_lookup in H. by apply (H i _ Hi).
Qed.

Lemma find_records self id i e :
  list_find (records_exit id) (records self) = Some (i, e) ->
  exists r, e = Some r /\ records self !! i = Some (Some r) /\ ExitRecord.process_id r = id.
Proof.
  intros H. pose proof (list_find_holds _ _ _ _ H) as He. apply list_find_lookup in H.
  unfold records_exit in He. destruct e as [r|]; simplify_eq/=. eauto.
Qed.

Lemma find_records_None self id :
  list_find (records_exit id) (records self) = None ->
  forall i r, records self !! i = Some (Some r) -> ExitRecord.process_id r <> id.
Proof.
  intros H%list_find_None i r Hi Hr. rewrite Forall_lookup in H. apply (H i _ Hi).
  unfold records_exit. simpl. by rewrite Hr.
Qed.

Lemma find_waits self thread i e :
  list_find (waits thread) (live self) = Some (i, e) ->
  exists id, e = Some (id, Some thread) /\ live self !! i = Some (Some (id, Some thread)).
Proof.
  intros H. pose proof (list_find_holds _ _ _ _ H) as He. apply list_find_lookup in H.
  unfold waits in He. destruct e as [[id w]|]; simplify_eq/=. eauto.
Qed.

Lemma status_Live self id w :
  exit_wf self ->
  status self id = Some (Live w) <-> exists i, live self !! i = Some (Some (id, w)).
Proof.
  intros Hwf. unfold status. destruct (list_find (names id) _) as [[i e]|] eqn:E.
  - apply find_names in E as (w0&->&Hi). split; [intros; simplify_eq; eauto|].
    intros [j Hj]. pose proof (ew_live_unique _ Hwf i j id w0 w Hi Hj). by simplify_eq.
  - pose proof (find_names_None _ _ E) as Hn. split; [|intros [i Hi]; by apply Hn in Hi].
    by repeat case_match.
Qed.

Lemma status_Exited self id r :
  exit_wf self ->
  status self id = Some (Exited r) <->
  exists i, records self !! i = Some (Some r) /\ ExitRecord.process_id r = id.
Proof.
  intros Hwf. unfold status. destruct (list_find (names id) _) as [[i e]|] eqn:E.
  - apply find_names in E as (w0&->&Hi). split; [done|].
    intros (j&Hj&Hr). by destruct (ew_disjoint _ Hwf i j id w0 r Hi Hj).
  - destruct (list_find (records_exit id) _) as [[i e]|] eqn:Er.
    + apply find_records in Er as (r0&->&Hi&Hr0). split; [intros; simplify_eq; eauto|].
      intros (j&Hj&Hr). pose proof (ew_records_unique _ Hwf i j r0 r Hi Hj ltac:(congruence)).
      by simplify_eq.
    + pose proof (find_records_None _ _ Er) as Hn. split; [done|]. intros (i&Hi&Hr).
      by apply Hn in Hi.
Qed.

(** Two tables agree on a process when they hold the same entries for it. *)
Lemma status_eq self self' id :
  exit_wf self -> exit_wf self' ->
  (forall w, (exists i, live self' !! i = Some (Some (id, w))) <->
             (exists i, live self !! i = Some (Some (id, w)))) ->
  (forall r, ExitRecord.process_id r = id ->
     (exists i, records self' !! i = Some (Some r)) <-> (exists i, records self !! i = Some (Some r))) ->
  status self' id = status self id.
Proof.
  intros Hwf Hwf' Hl Hr.
  assert (forall s, status self' id = Some s <-> status self id = Some s) as H.
  { intros [w|r]; [by rewrite !status_Live|]. rewrite !status_Exited by done.
    split; intros (i&?&?); edestruct (Hr r) as [? ?]; naive_solver. }
  destruct (status self' id) as [s|] eqn:E; [by symmetry; apply H|].
  destruct (status self id) as [s|] eqn:E'; [|done]. by apply (H s).
Qed.

(** The count of live entries and of free record slots after one write. *)
Lemma live_count_insert self i e e' recs next :
  live self !! i = Some e ->
  live_count (mk next (<[i := e']> (live self)) recs) + (if e is Some _ then 1 else 0)
  = live_count self + (if e' is Some _ then 1 else 0).
Proof.
  intros Hi. pose proof (count_of_insert is_Some (live self) i e e' Hi) as H.
  assert (forall x : option (N * option nat),
    (if decide (is_Some x) then 1 else 0) = if x is Some _ then 1 else 0) as Hd.
  { intros [x|]; [by rewrite decide_True by eauto|by rewrite decide_False by (by intros [? ?])]. }
  rewrite !Hd in H. exact H.
Qed.

Lemma free_records_insert self i e e' lv next :
  records self !! i = Some e ->
  free_records (mk next lv (<[i := e']> (records self))) + (if e is Some _ then 0 else 1)
  = free_records self + (if e' is Some _ then 0 else 1).
Proof.
  intros Hi. pose proof (count_of_insert (fun s => s = None) (records self) i e e' Hi) as H.
  unfold free_records. cbn [records]. destruct e, e'; repeat case_decide; try done; lia.
Qed.

Lemma exit_new_wf : exit_wf new.
Proof.
  split; simpl; try done.
  all: try (intros i; intros; by destruct i as [|[|[|[|]]]]).
  vm_compute. lia.
Qed.

Lemma find_free {A} (l : list (option A)) i e :
  list_find (fun slot => slot = None) l = Some (i, e) -> l !! i = Some None.
Proof.
  intros H. pose proof (list_find_holds _ _ _ _ H) as He. simpl in He. subst e.
  by apply list_find_lookup in H.
Qed.

(** An entry of an array after one write. *)
Lemma entry_insert {A} (l : list (option A)) i e j a :
  <[i := e]> l !! j = Some (Some a) ->
  j = i /\ e = Some a \/ j <> i /\ l !! j = Some (Some a).
Proof. intros [(<-&<-&_)|(?&?)]%list_lookup_insert_Some; auto. Qed.

Lemma entry_insert_eq {A} (l : list (option A)) i e0 e :
  l !! i = Some e0 -> <[i := e]> l !! i = Some e.
Proof. intros H%lookup_lt_Some. by apply list_lookup_insert_eq. Qed.

Lemma entry_insert_ne {A} (l : list (option A)) i e j x :
  l !! j = Some x -> j <> i -> <[i := e]> l !! j = Some x.
Proof. intros H ?. by rewrite list_lookup_insert_ne. Qed.

Lemma reserve_Ok self id :
  reserve self = Ok id ->
  id = next_process_id self /\ live_count self < free_records self
  /\ next_process_id self <> U32_MAX.
Proof. unfold reserve. intros. crush_match. split_and!; [done|lia|done]. Qed.

Lemma commit_spawn_ok self id :
  exit_wf self -> reserve self = Ok id ->
  match commit_spawn self id with
  | (ok, self') => exit_wf self'
      /\ (ok = true -> status self id = None /\ status self' id = Some (Live None)
          /\ forall j, j <> id -> status self' j = status self j)
      /\ (ok = false -> self' = self)
  end.
Proof.
  intros Hwf Hres. pose proof Hres as (->&Hfree&Hmax)%reserve_Ok.
  unfold commit_spawn. case_decide; [by split_and!|].
  destruct (list_find _ _) as [[slot e]|] eqn:E; [|by split_and!]. apply find_free in E.
  set (self' := mk _ _ _). assert (exit_wf self') as Hwf'.
  { pose proof (ew_next _ Hwf). split; simpl; try apply Hwf.
    - by rewrite length_insert, (ew_live_length _ Hwf).
    - unfold U32_MAX in *. lia.
    - intros i id w [[-> [= <- <-]]|[? Hi]]%entry_insert; [lia|].
      apply (ew_live_below _ Hwf) in Hi. lia.
    - intros i r Hi%(ew_records_below _ Hwf). lia.
    - intros i j id w w' [[-> [= <- <-]]|[? Hi]]%entry_insert [[-> [= <-]]|[? Hj]]%entry_insert;
        try done; [apply (ew_live_below _ Hwf) in Hj; lia
                  |apply (ew_live_below _ Hwf) in Hi; lia|by eapply (ew_live_unique _ Hwf)].
    - intros i j id w r [[-> [= <- <-]]|[? Hi]]%entry_insert Hj; [|by eapply (ew_disjoint _ Hwf)].
      apply (ew_records_below _ Hwf) in Hj. lia.
    - intros i j id id' th [[_ ?]|[? Hi]]%entry_insert [[_ ?]|[? Hj]]%entry_insert; try done.
      by eapply (ew_waiter_unique _ Hwf).
    - pose proof (live_count_insert self slot None (Some (next_process_id self, None))
        (records self) (next_process_id self + 1) E) as Hc. simpl in Hc.
      change (live_count self' <= free_records self). subst self'. lia. }
  split_and!; [done| |done]. intros _. split_and!.
  - destruct (status self (next_process_id self)) as [[w|r]|] eqn:Es; [..|done].
    + apply status_Live in Es as [i Hi]; [|done]. apply (ew_live_below _ Hwf) in Hi. lia.
    + apply status_Exited in Es as (i&Hi&Hr); [|done]. apply (ew_records_below _ Hwf) in Hi. lia.
  - apply status_Live; [done|]. exists slot. by eapply entry_insert_eq.
  - intros j Hj. apply status_eq; try done. intros w. split; intros [i Hi]; exists i.
    + by apply entry_insert in Hi as [[_ [=]]|[_ ?]].
    + apply entry_insert_ne; [done|]. congruence.
Qed.

Lemma record_exit_ok self id code kind :
  exit_wf self ->
  match record_exit self id code kind with
  | (w, self') => exit_wf self'
      /\ (status self id = Some (Live w)
          /\ status self' id = Some (Exited (ExitRecord.mk id code kind))
          /\ (forall j, j <> id -> status self' j = status self j)
          \/ w = None /\ self' = self /\ forall w', status self id <> Some (Live w'))
  end.
Proof.
  intros Hwf. unfold record_exit. destruct (list_find (names id) _) as [[i e]|] eqn:E.
  2: { split; [done|]. right. split_and!; try done. intros w' [j Hj]%status_Live; [|done].
       by apply (find_names_None _ _ E) in Hj. }
  apply find_names in E as (w&->&Hi).
  pose proof (fun lv nx => live_count_insert self i (Some (id, w)) None lv nx Hi) as Hc. simpl in Hc.
  pose proof (ew_reserved _ Hwf) as Hres.
  destruct (list_find _ (records self)) as [[slot e]|] eqn:E.
  2: { apply list_find_None in E. apply (count_of_zero (fun s => s = None)) in E.
       unfold free_records in Hres. specialize (Hc (records self) 0%N). lia. }
  apply find_free in E. set (r := ExitRecord.mk id code kind). set (self' := mk _ _ _).
  assert (exit_wf self') as Hwf'.
  { split; simpl; try apply Hwf.
    - by rewrite length_insert, (ew_live_length _ Hwf).
    - by rewrite length_insert, (ew_records_length _ Hwf).
    - intros k id' w' [[_ ?]|[_ Hk]]%entry_insert; [done|]. by eapply (ew_live_below _ Hwf).
    - intros k r' [[_ [= <-]]|[_ Hk]]%entry_insert; [|by eapply (ew_records_below _ Hwf)].
      by apply (ew_live_below _ Hwf) in Hi.
    - intros k l id' w1 w2 [[_ ?]|[_ Hk]]%entry_insert [[_ ?]|[_ Hl]]%entry_insert; try done.
      by eapply (ew_live_unique _ Hwf).
    - intros k l r1 r2 [[-> [= <-]]|[_ Hk]]%entry_insert [[-> [= <-]]|[_ Hl]]%entry_insert Heq;
        try done; [by edestruct (ew_disjoint _ Hwf i l)|by edestruct (ew_disjoint _ Hwf i k)
                  |by eapply (ew_records_unique _ Hwf)].
    - intros k l id' w' r' [[_ ?]|[Hne Hk]]%entry_insert [[-> [= <-]]|[_ Hl]]%entry_insert;
        try done; [|by eapply (ew_disjoint _ Hwf)]. simpl. intros <-. apply Hne.
      by eapply (ew_live_unique _ Hwf).
    - intros k l id1 id2 th [[_ ?]|[_ Hk]]%entry_insert [[_ ?]|[_ Hl]]%entry_insert; try done.
      by eapply (ew_waiter_unique _ Hwf).
    - pose proof (free_records_insert self slot None (Some r) (<[i := None]> (live self))
        (next_process_id self) E) as Hf. simpl in Hf.
      specialize (Hc (<[slot := Some r]> (records self)) (next_process_id self)).
      subst self'. lia. }
  split; [done|]. left. split_and!.
  - apply status_Live; eauto.
  - apply status_Exited; [done|]. exists slot. split; [|done]. by eapply entry_insert_eq.
  - intros j Hj. apply status_eq; try done.
    + intros w'. split; intros [k Hk]; exists k.
      * by apply entry_insert in Hk as [[_ ?]|[_ ?]].
      * apply entry_insert_ne; [done|]. congruence.
    + intros r' Hr'. split; intros [k Hk]; exists k.
      * apply entry_insert in Hk as [[_ [= <-]]|[_ ?]]; [|done]. by destruct Hj.
      * apply entry_insert_ne; [done|]. congruence.
Qed.

(** Changing the waiter of a live process. *)
Lemma set_waiter_ok self i id w w' :
  exit_wf self -> live self !! i = Some (Some (id, w)) ->
  (forall thread, w' = Some thread ->
     forall j id', live self !! j <> Some (Some (id', Some thread))) ->
  let self' := mk (next_process_id self) (<[i := Some (id, w')]> (live self)) (records self) in
  exit_wf self' /\ status self' id = Some (Live w')
  /\ forall j, j <> id -> status self' j = status self j.
Proof.
  intros Hwf Hi Hw self'. assert (exit_wf self') as Hwf'.
  { split; simpl; try apply Hwf.
    - by rewrite length_insert, (ew_live_length _ Hwf).
    - intros k id' w1 [[_ [= <- <-]]|[_ Hk]]%entry_insert; by eapply (ew_live_below _ Hwf).
    - intros k l id' w1 w2 [[-> [= <- <-]]|[_ Hk]]%entry_insert [[-> [= <-]]|[_ Hl]]%entry_insert;
        try done; by eapply (ew_live_unique _ Hwf).
    - intros k l id' w1 r [[_ [= <- <-]]|[_ Hk]]%entry_insert; by eapply (ew_disjoint _ Hwf).
    - intros k l id1 id2 th [[-> [= <- Hth]]|[_ Hk]]%entry_insert
        [[-> [= <- Hth']]|[_ Hl]]%entry_insert; try done;
        [by destruct (Hw th Hth l id2)|by destruct (Hw th Hth' k id1)
        |by eapply (ew_waiter_unique _ Hwf)].
    - pose proof (live_count_insert self i (Some (id, w)) (Some (id, w')) (records self)
        (next_process_id self) Hi) as Hc. simpl in Hc. pose proof (ew_reserved _ Hwf).
      change (free_records self') with (free_records self). subst self'. lia. }
  split_and!; [done|apply status_Live; [done|]; exists i; by eapply entry_insert_eq|].
  intros j Hj. apply status_eq; try done. intros w1. split; intros [k Hk]; exists k.
  - by apply entry_insert in Hk as [[_ [=]]|[_ ?]].
  - apply entry_insert_ne; [done|]. congruence.
Qed.

(** Consuming the exit record of a process. *)
Lemma consume_ok self i r :
  exit_wf self -> records self !! i = Some (Some r) ->
  let self' := mk (next_process_id self) (live self) (<[i := None]> (records self)) in
  exit_wf self' /\ status self' (ExitRecord.process_id r) = None
  /\ forall j, j <> ExitRecord.process_id r -> status self' j = status self j.
Proof.
  intros Hwf Hi self'. assert (exit_wf self') as Hwf'.
  { split; simpl; try apply Hwf.
    - by rewrite length_insert, (ew_records_length _ Hwf).
    - intros k r' [[_ ?]|[_ Hk]]%entry_insert; [done|]. by eapply (ew_records_below _ Hwf).
    - intros k l r1 r2 [[_ ?]|[_ Hk]]%entry_insert [[_ ?]|[_ Hl]]%entry_insert; try done.
      by eapply (ew_records_unique _ Hwf).
    - intros k l id w r' Hk [[_ ?]|[_ Hl]]%entry_insert; [done|]. by eapply (ew_disjoint _ Hwf).
    - pose proof (free_records_insert self i (Some r) None (live self) (next_process_id self) Hi)
        as Hf. simpl in Hf. pose proof (ew_reserved _ Hwf).
      change (live_count self') with (live_count self). subst self'. lia. }
  split_and!; [done|..].
  - destruct (status self' _) as [[w|r']|] eqn:E; [..|done].
    + apply status_Live in E as [k Hk]; [|done]. simpl in Hk.
      by destruct (ew_disjoint _ Hwf _ _ _ _ _ Hk Hi).
    + apply status_Exited in E as (k&Hk&Hr); [|done]. simpl in Hk.
      apply entry_insert in Hk as [[_ ?]|[Hne Hk]]; [done|].
      by destruct Hne; eapply (ew_records_unique _ Hwf).
  - intros j Hj. apply status_eq; try done. intros r' Hr'. split; intros [k Hk]; exists k.
    + by apply entry_insert in Hk as [[_ ?]|[_ ?]].
    + apply entry_insert_ne; [done|]. congruence.
Qed.

Lemma not_waiting self thread :
  exit_wf self -> ~ Exists (waits thread) (live self) ->
  forall j, status self j <> Some (Live (Some thread)).
Proof.
  intros Hwf Hn j [i Hi]%status_Live; [|done]. apply Hn, Exists_exists.
  exists (Some (j, Some thread)). split; [by eapply list_elem_of_lookup_2|done].
Qed.

Lemma wait_ok self id thread :
  exit_wf self ->
  match wait self id thread with
  | (o, self') => exit_wf self'
      /\ ExitOps.spec (status self) (ExitOps.Wait id thread) (ExitOps.Waited o) (status self')
  end.
Proof.
  intros Hwf. unfold wait. destruct (list_find (records_exit id) _) as [[i e]|] eqn:E.
  { apply find_records in E as (r&->&Hi&<-).
    destruct (consume_ok self i r Hwf Hi) as (?&?&?). split; [done|].
    apply ExitOps.spec_ready; try done. apply status_Exited; eauto. }
  pose proof (find_records_None _ _ E) as Hnr.
  case_decide as Hex.
  { split; [done|]. apply ExitOps.spec_invalid; [|done].
    apply Exists_exists in Hex as ([[id' w]|]&Hin&Hw); [|done]. unfold waits in Hw. simplify_eq/=.
    apply list_elem_of_lookup in Hin as [k Hk].
    destruct (status self id) as [[w|r]|] eqn:Es; [|
      by apply status_Exited in Es as (j&Hj&?); [apply Hnr in Hj|]|by left].
    right; right. split; [eauto|]. exists id'. apply status_Live; eauto. }
  pose proof (not_waiting _ _ Hwf Hex) as Hnw.
  destruct (list_find (names id) _) as [[i e]|] eqn:El.
  - apply find_names in El as (w&->&Hi). destruct w as [w|].
    + split; [done|]. apply ExitOps.spec_invalid; [|done]. right; left. exists w.
      apply status_Live; eauto.
    + destruct (set_waiter_ok self i id None (Some thread) Hwf Hi) as (?&?&?).
      { intros th [= <-] j id' Hj. apply (Hnw id'). apply status_Live; eauto. }
      split; [done|]. apply ExitOps.spec_block; try done. apply status_Live; eauto.
  - split; [done|]. apply ExitOps.spec_invalid; [|done]. left.
    destruct (status self id) as [[w|r]|] eqn:Es; [..|done].
    + apply status_Live in Es as [k Hk]; [|done]. by apply (find_names_None _ _ El) in Hk.
    + by apply status_Exited in Es as (j&Hj&?); [apply Hnr in Hj|].
Qed.

Lemma cancel_wait_ok self thread :
  exit_wf self ->
  match cancel_wait self thread with
  | (b, self') => exit_wf self'
      /\ ExitOps.spec (status self) (ExitOps.CancelWait thread) (ExitOps.Cancelled b) (status self')
  end.
Proof.
  intros Hwf. unfold cancel_wait. destruct (list_find (waits thread) _) as [[i e]|] eqn:E.
  - apply find_waits in E as (id&->&Hi).
    destruct (set_waiter_ok self i id (Some thread) None Hwf Hi) as (?&?&?); [done|].
    split; [done|]. apply (ExitOps.spec_cancel _ id); try done. apply status_Live; eauto.
  - split; [done|]. apply ExitOps.spec_cancel_none; [|done]. apply not_waiting; [done|].
    apply list_find_None in E. intros Hex. apply Exists_exists in Hex as (x&Hin&Hx).
    rewrite Forall_forall in E. by apply (E x).
Qed.

(** Every operation keeps the invariant and does what the abstract table says. *)
Lemma exit_op_ok self x :
  exit_wf self ->
  exit_wf (ExitOps.run_op self x).2
  /\ ExitOps.spec (status self) x (ExitOps.run_op self x).1 (status (ExitOps.run_op self x).2).
Proof.
  intros Hwf. destruct x as [|id code kind|id thread|thread]; simpl.
  - destruct (reserve self) as [id|e] eqn:E; [|split; [done|by apply ExitOps.spec_spawn_refused]].
    pose proof (commit_spawn_ok self id Hwf E) as H.
    destruct (commit_spawn self id) as [[] self']; simpl; destruct H as (?&Ht&Hf).
    + destruct Ht as (?&?&?); [done|]. split; [done|]. by apply ExitOps.spec_spawn.
    + rewrite Hf by done. split; [done|]. by apply ExitOps.spec_spawn_refused.
  - pose proof (record_exit_ok self id code kind Hwf) as H.
    destruct (record_exit self id code kind) as [w self']; simpl.
    destruct H as [? [(?&?&?)|(->&->&?)]]; (split; [done|]).
    + by apply ExitOps.spec_exit.
    + by apply ExitOps.spec_exit_unknown.
  - pose proof (wait_ok self id thread Hwf). by destruct (wait self id thread).
  - pose proof (cancel_wait_ok self thread Hwf). by destruct (cancel_wait self thread).
Qed.

Lemma exit_ops_ok self xs :
  exit_wf self ->
  exit_wf (ExitOps.run_ops self xs).2
  /\ ExitOps.spec_run (status self) xs (ExitOps.run_ops self xs).1
       (status (ExitOps.run_ops self xs).2).
Proof.
  revert self. induction xs as [|x xs IH]; intros self Hwf; simpl.
  { split; [done|]. by constructor. }
  destruct (exit_op_ok self x Hwf) as [Hwf1 Hs]. destruct (ExitOps.run_op self x) as [a self1].
  destruct (IH self1 Hwf1) as [? ?]. destruct (ExitOps.run_ops self1 xs) as [l self2].
  split; [done|]. by econstructor.
Qed.

(** The record of an exited process stays until somebody waits for it. *)
Lemma exited_stays m xs l m' id r :
  ExitOps.spec_run m xs l m' -> m id = Some (Exited r) ->
  Forall (fun x => match x with ExitOps.Wait id' _ => id' <> id | _ => True end) xs ->
  m' id = Some (Exited r).
Proof.
  induction 1 as [m m' Heq|m x a m1 xs l m2 Hs _ IH]; intros Hm Hall; [by rewrite Heq|].
  apply Forall_cons in Hall as [Hx Hall]. apply IH; [|done].
  destruct Hs as [id' m1 ? ? Ho|e m1 Ho|id' c k w m1 ? ? Ho|id' c k m1 ? Ho|id' th r' m1 ? ? Ho
    |id' th m1 ? ? ? Ho|id' th m1 ? Ho|id' th m1 ? ? Ho|th m1 ? Ho];
    try (by rewrite Ho); (rewrite Ho; [done|]); congruence.
Qed.

Lemma run_op_next self x :
  (next_process_id self <= next_process_id (ExitOps.run_op self x).2)%N
  /\ forall j, (ExitOps.run_op self x).1 = ExitOps.Spawned (Ok j) -> j = next_process_id self.
Proof.
  destruct x as [|id code kind|id thread|thread]; simpl.
  - destruct (reserve self) as [id|e] eqn:E; [|simpl; split; [lia|done]].
    apply reserve_Ok in E as (->&_). unfold commit_spawn.
    repeat case_match; simplify_eq/=; split; done || lia || (intros; by simplify_eq).
  - unfold record_exit. repeat case_match; simplify_eq/=; split; done || lia.
  - unfold wait. repeat case_match; simplify_eq/=; split; done || lia.
  - unfold cancel_wait. repeat case_match; simplify_eq/=; split; done || lia.
Qed.

(** An id that names nothing and is below the next one is never used again. *)
Lemma retired_stays self xs id :
  exit_wf self -> status self id = None -> (id < next_process_id self)%N ->
  status (ExitOps.run_ops self xs).2 id = None.
Proof.
  revert self. induction xs as [|x xs IH]; intros self Hwf Hn Hlt; [done|]. simpl.
  destruct (exit_op_ok self x Hwf) as [Hwf1 Hs], (run_op_next self x) as [Hle Hj].
  destruct (ExitOps.run_op self x) as [a self1]. simpl in *.
  specialize (IH self1 Hwf1). destruct (ExitOps.run_ops self1 xs) as [l self2]. simpl in *.
  apply IH; [|lia]. inversion Hs; subst; try congruence;
    match goal with
    | Ho : forall j, status self1 j = status self j |- _ => by rewrite Ho
    | Ho : forall j, j <> ?k -> status self1 j = status self j |- _ =>
        rewrite Ho; [done|]; congruence || (intros ->; specialize (Hj _ eq_refl); lia)
    end.
Qed.
End exits.

(** ** Properties *)

(** C37: The exit table is the abstract table.  Every sequence of spawns, exits,
    waits and cancelled waits on an empty table keeps the invariant and answers
    as a map from process ids to their status: a spawn takes an id that names
    nothing, an exit turns a live process into its record and names the waiter
    to wake, a wait consumes a record, blocks on a live process nobody waits
    for, or is refused, and no process but the one named changes. *)
Theorem exit_table_refines xs :
  exit_wf (ExitOps.run_ops ExitTable.new xs).2
  /\ ExitOps.spec_run (status ExitTable.new) xs (ExitOps.run_ops ExitTable.new xs).1
       (status (ExitOps.run_ops ExitTable.new xs).2).
Proof. apply exit_ops_ok, exit_new_wf. Qed.

(** No exit status is dropped and none is delivered twice.  When a live
    process exits, a wait for it after any operations other than a wait for it
    yields exactly its id, code and kind; from then on, whatever is spawned,
    every further wait for this id is refused. *)
Theorem exit_status_delivered_once self id w code kind xs thread ys thread' :
  exit_wf self -> status self id = Some (Live w) ->
  Forall (fun x => match x with ExitOps.Wait id' _ => id' <> id | _ => True end) xs ->
  let exited := (ExitTable.record_exit self id code kind).2 in
  let later := (ExitOps.run_ops exited xs).2 in
  let consumed := (ExitTable.wait later id thread).2 in
  (ExitTable.record_exit self id code kind).1 = w
  /\ (ExitTable.wait later id thread).1 = WaitOutcome.Ready (ExitRecord.mk id code kind)
  /\ (ExitTable.wait (ExitOps.run_ops consumed ys).2 id thread').1 = WaitOutcome.Invalid.
Proof.
  intros Hwf Hlive Hxs exited later consumed.
  pose proof (record_exit_ok self id code kind Hwf) as H. subst exited.
  destruct (ExitTable.record_exit self id code kind) as [w0 exited]; simpl in *.
  destruct H as [Hwf1 [(Hl&He&_)|(_&_&Hn)]]; [|by destruct (Hn w)].
  rewrite Hlive in Hl. simplify_eq.
  destruct (exit_ops_ok exited xs Hwf1) as [Hwf2 Hrun]. fold later in Hwf2, Hrun.
  pose proof (exited_stays _ _ _ _ _ _ Hrun He Hxs) as Hlater.
  assert (id < ExitTable.next_process_id later)%N as Hlt.
  { apply status_Exited in Hlater as (i&Hi&_); [|done]. by apply (ew_records_below _ Hwf2) in Hi. }
  pose proof (wait_ok later id thread Hwf2) as H.
  destruct (run_op_next later (ExitOps.Wait id thread)) as [Hle _]. simpl in Hle. subst consumed.
  destruct (ExitTable.wait later id thread) as [o consumed]; simpl in *.
  destruct H as [Hwf3 Hs]. split; [done|].
  assert (o = WaitOutcome.Ready (ExitRecord.mk id code kind) /\ status consumed id = None)
    as [-> Hnone] by (inversion Hs; subst; naive_solver).
  split; [done|].
  pose proof (retired_stays consumed ys id Hwf3 Hnone ltac:(lia)) as Hret.
  destruct (exit_ops_ok consumed ys Hwf3) as [Hwf4 _].
  pose proof (wait_ok (ExitOps.run_ops consumed ys).2 id thread' Hwf4) as H.
  destruct (ExitTable.wait _ id thread') as [o' ?]; simpl. destruct H as [_ Hs'].
  inversion Hs'; subst; congruence || done.
Qed.

(** ** Witnesses *)

Module ProcessExitExample.
Definition started := (ExitOps.run_ops ExitTable.new [ExitOps.Spawn; ExitOps.Wait 2 5]).2.

Lemma exit_status_delivered_once_witness :
  let exited := (ExitTable.record_exit started 2 7 ExitKind.Exited).2 in
  let later := (ExitOps.run_ops exited [ExitOps.Spawn; ExitOps.Wait 3 5]).2 in
  let consumed := (ExitTable.wait later 2 6).2 in
  (ExitTable.record_exit started 2 7 ExitKind.Exited).1 = Some 5
  /\ (ExitTable.wait later 2 6).1 = WaitOutcome.Ready (ExitRecord.mk 2 7 ExitKind.Exited)
  /\ (ExitTable.wait (ExitOps.run_ops consumed [ExitOps.Spawn]).2 2 6).1 = WaitOutcome.Invalid.
Proof.
  apply (exit_status_delivered_once started 2 (Some 5)).
  - apply exit_ops_ok, exit_new_wf.
  - by vm_compute.
  - repeat constructor. done.
Defined.
End ProcessExitExample.
