(* ===== verification/BootContract.v ===== *)
(** * The boot contract (crates/nagi-bootinfo/src/lib.rs)

    What the loader hands to the kernel: the boot information and its
    validation, the one-shot readiness and staging records with their checksum,
    and the conversion of the firmware clock. The firmware's memory map is read
    through a parameter [read], the descriptor at an address. *)

From stdpp Require Import prelude.
From S2P Require Import Prelude.

Local Open Scope N_scope.
Local Open Scope nagi_scope.

Definition BOOT_INFO_MAGIC : N := 0x4E414749424F4F54.
Definition BOOT_INFO_VERSION : N := 5.
Definition REALTIME_UNAVAILABLE_NS : N := U64_MAX.
Definition BOOT_READY_RECORD_SIZE : nat := 20.
Definition BOOT_STAGE_RECORD_SIZE : nat := 20.
Definition BOOT_CONTROL_UPDATE_STAGEABLE : N := 1.
Definition EFI_RUNTIME_SERVICES_CODE : N := 5.
Definition EFI_MEMORY_RUNTIME : N := 0x8000000000000000.
Definition DESCRIPTOR_PAGE_SIZE : N := 4096.
Definition MAX_MEMORY_MAP_DESCRIPTORS : N := 4096.

(** ** The firmware clock *)

Module FirmwareDateTime.
Record t := mk {
  year : N;
  month : N;
  day : N;
  hour : N;
  minute : N;
  second : N;
  nanosecond : N;
  time_zone : option Z;
  daylight_flags : N
}.
End FirmwareDateTime.

Definition is_leap_year (year : N) : bool :=
  bool_decide (year mod 4 = 0)
  && (bool_decide (year mod 100 <> 0) || bool_decide (year mod 400 = 0)).

Definition days_before_year (year : N) : N :=
  let year := year - 1 in
  let epoch_year := 1969 in
  year * 365 + year / 4 - year / 100 + year / 400
  - (epoch_year * 365 + epoch_year / 4 - epoch_year / 100 + epoch_year / 400).

Definition common_year_days : list N := [0; 31; 59; 90; 120; 151; 181; 212; 243; 273; 304; 334].

(** [month - 1] is in range after the caller's checks. *)
Definition days_before_month (year month : N) : N :=
  nth (N.to_nat (month - 1)) common_year_days 0
  + (if bool_decide (2 < month) && is_leap_year year then 1 else 0).

Definition month_days (year month : N) : option N :=
  if decide (month ∈ [1; 3; 5; 7; 8; 10; 12]) then Some 31
  else if decide (month ∈ [4; 6; 9; 11]) then Some 30
  else if decide (month = 2) then Some (if is_leap_year year then 29 else 28)
  else None.

Definition I64_MAX : N := 9223372036854775807.

(** [i64::try_from(seconds)] and [checked_sub]: the subtrahend is a 16-bit
    number of minutes times 60, so the difference is at least [i64::MIN]. *)
Definition utc_seconds (seconds : N) (offset_seconds : Z) : option N :=
  if decide (seconds <= I64_MAX) then
    let utc := (Z.of_N seconds - offset_seconds)%Z in
    if decide (utc <= Z.of_N I64_MAX)%Z then
      if decide (0 <= utc)%Z then Some (Z.to_N utc) else None
    else None
  else None.

Definition firmware_time_to_unix_ns (time : FirmwareDateTime.t) : N :=
  let 'FirmwareDateTime.mk year month day hour minute second nanosecond time_zone daylight_flags :=
    time in
  if bool_decide (~ (1970 <= year /\ year <= 9999)
             \/ ~ (1 <= month /\ month <= 12)
             \/ 23 < hour \/ 59 < minute \/ 59 < second \/ 999999999 < nanosecond
             \/ daylight_flags <> 0)
     || match time_zone with
        | Some offset => bool_decide (~ (-1440 <= offset /\ offset <= 1440)%Z)
        | None => false
        end
  then REALTIME_UNAVAILABLE_NS
  else
    match month_days year month with
    | None => REALTIME_UNAVAILABLE_NS
    | Some month_days =>
        if decide (day = 0 \/ month_days < day) then REALTIME_UNAVAILABLE_NS
        else
          let days := days_before_year year + days_before_month year month + (day - 1) in
          let seconds := days * 86400 + hour * 3600 + minute * 60 + second in
          let offset_seconds := (default 0 time_zone * 60)%Z in
          match utc_seconds seconds offset_seconds with
          | None => REALTIME_UNAVAILABLE_NS
          | Some seconds =>
              match u64_checked_mul seconds 1000000000 with
              | None => REALTIME_UNAVAILABLE_NS
              | Some nanoseconds =>
                  default REALTIME_UNAVAILABLE_NS (u64_checked_add nanoseconds nanosecond)
              end
          end
    end.

(** ** What the loader passes on *)

Module MemoryMapInfo.
Record t := mk { address : N; entry_count : N; entry_size : N; entry_version : N }.
End MemoryMapInfo.

Module MemoryMapEntry.
Record t := mk {
  memory_type : N;
  physical_start : N;
  virtual_start : N;
  page_count : N;
  attributes : N
}.
Definition SIZE : N := 40.
End MemoryMapEntry.

Module FramebufferInfo.
Record t := mk {
  address : N;
  byte_size : N;
  width : N;
  height : N;
  pixels_per_scanline : N;
  pixel_format : N
}.
End FramebufferInfo.

Module InitImageInfo.
Record t := mk { address : N; size : N }.
End InitImageInfo.

Module BootControlInfo.
Record t := mk {
  set_variable_address : N;
  journal_generation : N;
  slot : N;
  attempt : N;
  flags : N;
  reserved : list N
}.

Definition is_empty (self : t) : bool :=
  bool_decide (set_variable_address self = 0)
  && bool_decide (journal_generation self = 0)
  && bool_decide (slot self = 0)
  && bool_decide (attempt self = 0)
  && bool_decide (flags self = 0)
  && bool_decide (reserved self = replicate 5 0).

Definition is_trial (self : t) : bool :=
  bool_decide (set_variable_address self <> 0)
  && bool_decide (journal_generation self <> 0)
  && bool_decide (slot self <= 1)
  && bool_decide (1 <= attempt self)
  && bool_decide (attempt self <= 3)
  && bool_decide (flags self = 0)
  && bool_decide (reserved self = replicate 5 0).

Definition is_update_stageable (self : t) : bool :=
  bool_decide (set_variable_address self <> 0)
  && bool_decide (slot self <= 1)
  && bool_decide (attempt self = 0)
  && bool_decide (flags self = BOOT_CONTROL_UPDATE_STAGEABLE)
  && bool_decide (reserved self = replicate 5 0).

Definition is_valid (self : t) : bool := is_empty self || is_trial self || is_update_stageable self.
End BootControlInfo.

(** ** Checksums *)

Definition u32_wrapping_sub (a b : N) : N := (a + (U32_MAX + 1) - b) mod (U32_MAX + 1).

Definition crc32_bit (crc : N) : N :=
  let mask := u32_wrapping_sub 0 (N.land crc 1) in
  N.lxor (N.shiftr crc 1) (N.land 0xedb88320 mask).

Definition crc32_byte (crc byte : N) : N := Nat.iter 8 crc32_bit (N.lxor crc byte).

Definition crc32 (bytes : list N) : N :=
  N.lxor U32_MAX (fold_left crc32_byte bytes U32_MAX).

(** ** The one-shot records *)

Module BootStageRecord.
Record t := mk { slot : N; journal_generation : N }.

Definition MAGIC : list N := [78; 66; 83; 84].
Definition VERSION : N := 1.

Definition encode (self : t) : option (list N) :=
  if decide (1 < slot self) then None
  else
    let bytes := replicate BOOT_STAGE_RECORD_SIZE 0 in
    let bytes := put 0 MAGIC bytes in
    let bytes := put 4 [VERSION] bytes in
    let bytes := put 5 [slot self] bytes in
    let bytes := put 8 (to_le_bytes 8 (journal_generation self)) bytes in
    let checksum := crc32 (sub_bytes bytes 0 16) in
    Some (put 16 (to_le_bytes 4 checksum) bytes).

Definition decode (bytes : list N) : option t :=
  if decide (length bytes <> BOOT_STAGE_RECORD_SIZE
             \/ sub_bytes bytes 0 4 <> MAGIC
             \/ byte_at bytes 4 <> VERSION
             \/ sub_bytes bytes 6 2 <> [0; 0]
             \/ crc32 (sub_bytes bytes 0 16) <> from_le_bytes (sub_bytes bytes 16 4))
  then None
  else
    let record := mk (byte_at bytes 5) (from_le_bytes (sub_bytes bytes 8 8)) in
    (fun _ => record) <$> encode record.
End BootStageRecord.

Module BootReadyRecord.
Record t := mk { slot : N; attempt : N; journal_generation : N }.

Definition MAGIC : list N := [78; 66; 82; 68].
Definition VERSION : N := 1.

Definition encode (self : t) : option (list N) :=
  if decide (1 < slot self \/ ~ (1 <= attempt self /\ attempt self <= 3)
             \/ journal_generation self = 0)
  then None
  else
    let bytes := replicate BOOT_READY_RECORD_SIZE 0 in
    let bytes := put 0 MAGIC bytes in
    let bytes := put 4 [VERSION] bytes in
    let bytes := put 5 [slot self] bytes in
    let bytes := put 6 [attempt self] bytes in
    let bytes := put 8 (to_le_bytes 8 (journal_generation self)) bytes in
    let checksum := crc32 (sub_bytes bytes 0 16) in
    Some (put 16 (to_le_bytes 4 checksum) bytes).

Definition decode (bytes : list N) : option t :=
  if decide (length bytes <> BOOT_READY_RECORD_SIZE
             \/ sub_bytes bytes 0 4 <> MAGIC
             \/ byte_at bytes 4 <> VERSION
             \/ byte_at bytes 7 <> 0
             \/ crc32 (sub_bytes bytes 0 16) <> from_le_bytes (sub_bytes bytes 16 4))
  then None
  else
    let record := mk (byte_at bytes 5) (byte_at bytes 6) (from_le_bytes (sub_bytes bytes 8 8)) in
    (fun _ => record) <$> encode record.
End BootReadyRecord.

(** The layout both formats share: a payload followed by its checksum. *)
Definition sealed (payload : list N) : list N := payload ++ to_le_bytes 4 (crc32 payload).

Definition stage_payload (r : BootStageRecord.t) : list N :=
  BootStageRecord.MAGIC ++ [BootStageRecord.VERSION; BootStageRecord.slot r; 0; 0]
  ++ to_le_bytes 8 (BootStageRecord.journal_generation r).

Definition ready_payload (r : BootReadyRecord.t) : list N :=
  BootReadyRecord.MAGIC
  ++ [BootReadyRecord.VERSION; BootReadyRecord.slot r; BootReadyRecord.attempt r; 0]
  ++ to_le_bytes 8 (BootReadyRecord.journal_generation r).

(** ** The boot information *)

Module BootInfoError.
Inductive t :=
  | Null | BadMagic | UnsupportedVersion | BadSize | MissingMemoryMap | BadMemoryMapStride
  | MissingFramebuffer | MissingAcpi | MissingInitImage | InvalidBootControl.
End BootInfoError.

Module BootInfo.
Record t := mk {
  magic : N;
  version : N;
  size : N;
  memory_map : MemoryMapInfo.t;
  framebuffer : FramebufferInfo.t;
  acpi_rsdp : N;
  init_image : InitImageInfo.t;
  realtime_epoch_ns : N;
  boot_control : BootControlInfo.t
}.

(** [size_of::<BootInfo>()] *)
Definition SIZE : N := 136.

Definition new : t :=
  mk BOOT_INFO_MAGIC BOOT_INFO_VERSION SIZE (MemoryMapInfo.mk 0 0 0 0)
    (FramebufferInfo.mk 0 0 0 0 0 0) 0 (InitImageInfo.mk 0 0) REALTIME_UNAVAILABLE_NS
    (BootControlInfo.mk 0 0 0 0 0 (replicate 5 0)).

Definition validate (self : t) : Result unit BootInfoError.t :=
  if decide (magic self <> BOOT_INFO_MAGIC) then Err BootInfoError.BadMagic
  else if decide (version self <> BOOT_INFO_VERSION) then Err BootInfoError.UnsupportedVersion
  else if decide (size self <> SIZE) then Err BootInfoError.BadSize
  else if decide (MemoryMapInfo.address (memory_map self) = 0
                  \/ MemoryMapInfo.entry_count (memory_map self) = 0)
  then Err BootInfoError.MissingMemoryMap
  else if decide (MemoryMapInfo.entry_size (memory_map self) < MemoryMapEntry.SIZE
                  \/ N.land (MemoryMapInfo.entry_size (memory_map self)) 7 <> 0)
  then Err BootInfoError.BadMemoryMapStride
  else if decide (FramebufferInfo.address (framebuffer self) = 0
                  \/ FramebufferInfo.byte_size (framebuffer self) = 0
                  \/ FramebufferInfo.width (framebuffer self) = 0
                  \/ FramebufferInfo.height (framebuffer self) = 0
                  \/ FramebufferInfo.pixels_per_scanline (framebuffer self)
                     < FramebufferInfo.width (framebuffer self))
  then Err BootInfoError.MissingFramebuffer
  else if decide (acpi_rsdp self = 0) then Err BootInfoError.MissingAcpi
  else if negb (BootControlInfo.is_valid (boot_control self))
  then Err BootInfoError.InvalidBootControl
  else Ok tt.

Definition validate_for_user_bootstrap (self : t) : Result unit BootInfoError.t :=
  let? _ := validate self in
  if decide (InitImageInfo.address (init_image self) = 0
             \/ InitImageInfo.size (init_image self) = 0)
  then Err BootInfoError.MissingInitImage else Ok tt.

(** The loop over the descriptors of [boot_control_writer_is_runtime_code]. *)
Fixpoint writer_loop (read : N -> MemoryMapEntry.t) (base stride writer_address : N)
  (indices : list nat) : bool :=
  match indices with
  | [] => false
  | i :: indices =>
      match u64_checked_mul (N.of_nat i) stride with
      | None => false
      | Some offset =>
          match u64_checked_add base offset with
          | None => false
          | Some address =>
              let descriptor := read address in
              let continue := writer_loop read base stride writer_address indices in
              if decide (MemoryMapEntry.memory_type descriptor <> EFI_RUNTIME_SERVICES_CODE
                         \/ N.land (MemoryMapEntry.attributes descriptor) EFI_MEMORY_RUNTIME = 0)
              then continue
              else
                match u64_checked_mul (MemoryMapEntry.page_count descriptor)
                        DESCRIPTOR_PAGE_SIZE with
                | None => continue
                | Some length =>
                    match u64_checked_add (MemoryMapEntry.physical_start descriptor) length with
                    | None => continue
                    | Some e =>
                        if decide (MemoryMapEntry.physical_start descriptor <= writer_address
                                   /\ writer_address < e)
                        then true else continue
                    end
                end
          end
      end
  end.

Definition boot_control_writer_is_runtime_code (read : N -> MemoryMapEntry.t) (self : t) : bool :=
  let map := memory_map self in
  if negb (BootControlInfo.is_trial (boot_control self)
           || BootControlInfo.is_update_stageable (boot_control self))
     || bool_decide (MemoryMapInfo.address map = 0)
     || bool_decide (MemoryMapInfo.entry_count map = 0)
     || bool_decide (MAX_MEMORY_MAP_DESCRIPTORS < MemoryMapInfo.entry_count map)
     || bool_decide (MemoryMapInfo.entry_size map < MemoryMapEntry.SIZE)
     || bool_decide (N.land (MemoryMapInfo.entry_size map) 7 <> 0)
  then false
  else
    writer_loop read (MemoryMapInfo.address map) (MemoryMapInfo.entry_size map)
      (BootControlInfo.set_variable_address (boot_control self))
      (seq 0 (N.to_nat (MemoryMapInfo.entry_count map))).
End BootInfo.

(** ** The calendar, counted day by day *)

Definition year_length (year : N) : N := if is_leap_year year then 366 else 365.

(** The days of [n] years from 1970. *)
Fixpoint days_of_years (n : nat) : N :=
  match n with
  | O => 0
  | S n => days_of_years n + year_length (1970 + N.of_nat n)
  end.

(** The days of the first [n] months of a year. *)
Fixpoint days_of_months (year : N) (n : nat) : N :=
  match n with
  | O => 0
  | S n => days_of_months year n + default 0 (month_days year (N.of_nat n + 1))
  end.

Definition valid_time (time : FirmwareDateTime.t) : Prop :=
  let 'FirmwareDateTime.mk year month day hour minute second nanosecond time_zone flags := time in
  1970 <= year <= 9999 /\ 1 <= month <= 12
  /\ 1 <= day <= default 0 (month_days year month)
  /\ hour <= 23 /\ minute <= 59 /\ second <= 59 /\ nanosecond <= 999999999 /\ flags = 0
  /\ (-1440 <= default 0%Z time_zone <= 1440)%Z.

#[global] Instance valid_time_dec time : Decision (valid_time time).
Proof. destruct time. unfold valid_time. apply _. Defined.

(** Seconds since the epoch in UTC, by the calendar. *)
Definition calendar_seconds (time : FirmwareDateTime.t) : Z :=
  let 'FirmwareDateTime.mk year month day hour minute second _ time_zone _ := time in
  (Z.of_N ((days_of_years (N.to_nat (year - 1970)) + days_of_months year (N.to_nat (month - 1))
            + (day - 1)) * 86400 + hour * 3600 + minute * 60 + second)
   - default 0 time_zone * 60)%Z.

(** The clock value the kernel can be given: a valid date, not before the
    epoch, whose nanoseconds fit a [u64]. *)
Definition representable (time : FirmwareDateTime.t) : Prop :=
  valid_time time
  /\ (0 <= calendar_seconds time
      /\ calendar_seconds time * 1000000000 + Z.of_N (FirmwareDateTime.nanosecond time)
         <= Z.of_N U64_MAX)%Z.

(** ** Runtime code *)

(** The descriptor is runtime code and covers [address], without overflow. *)
Definition runtime_code_at (descriptor : MemoryMapEntry.t) (address : N) : Prop :=
  MemoryMapEntry.memory_type descriptor = EFI_RUNTIME_SERVICES_CODE
  /\ N.land (MemoryMapEntry.attributes descriptor) EFI_MEMORY_RUNTIME <> 0
  /\ MemoryMapEntry.physical_start descriptor
     + MemoryMapEntry.page_count descriptor * DESCRIPTOR_PAGE_SIZE <= U64_MAX
  /\ MemoryMapEntry.physical_start descriptor <= address
  /\ address < MemoryMapEntry.physical_start descriptor
               + MemoryMapEntry.page_count descriptor * DESCRIPTOR_PAGE_SIZE.

#[global] Instance runtime_code_at_dec descriptor address :
  Decision (runtime_code_at descriptor address).
Proof. unfold runtime_code_at. apply _. Defined.

(** [None] is the null pointer. *)
Definition boot_info_from_ptr (ptr : option BootInfo.t) : Result BootInfo.t BootInfoError.t :=
  match ptr with
  | None => Err BootInfoError.Null
  | Some info => let? _ := BootInfo.validate info in Ok info
  end.

(** ** The checksum detects a changed byte *)

Section crc.
Implicit Types (crc byte : N) (bytes : list N).

Lemma lt_pow2_bits a n : a < 2 ^ n <-> forall i, n <= i -> N.testbit a i = false.
Proof.
  split.
  - intros Ha i Hi. rewrite <-(N.mod_small _ _ Ha), <-N.land_ones, N.land_spec.
    by rewrite N.ones_spec_high, andb_false_r.
  - intros H. replace a with (N.land a (N.ones n)); [apply land_ones_lt|].
    apply N.bits_inj. intros i. rewrite N.land_spec.
    destruct (decide (n <= i)); [by rewrite H|].
    rewrite N.ones_spec_low by lia. apply andb_true_r.
Qed.

Lemma lxor_lt a b n : a < 2 ^ n -> b < 2 ^ n -> N.lxor a b < 2 ^ n.
Proof.
  rewrite !lt_pow2_bits. intros Ha Hb i Hi. by rewrite N.lxor_spec, Ha, Hb.
Qed.

Lemma crc32_bit_eq crc :
  crc32_bit crc = if N.testbit crc 0 then N.lxor (N.shiftr crc 1) 0xedb88320 else N.shiftr crc 1.
Proof.
  unfold crc32_bit. change 1 with (N.ones 1) at 2. rewrite N.land_ones.
  change (2 ^ 1) with 2. rewrite N.bit0_odd, <-N.bit0_mod, N.bit0_odd.
  destruct (N.odd crc); [done|]. apply N.lxor_0_r.
Qed.

Lemma crc32_bit_lt crc : crc < 2 ^ 32 -> crc32_bit crc < 2 ^ 32.
Proof.
  intros Hc. assert (Hs : N.shiftr crc 1 < 2 ^ 32).
  { apply lt_pow2_bits. intros i Hi. rewrite N.shiftr_spec'.
    apply (proj1 (lt_pow2_bits _ _) Hc). lia. }
  rewrite crc32_bit_eq. case_match; [by apply lxor_lt|done].
Qed.

(** Bit 31 of the result is the bit shifted out, so a step loses nothing. *)
Lemma crc32_bit_inj c1 c2 :
  c1 < 2 ^ 32 -> c2 < 2 ^ 32 -> crc32_bit c1 = crc32_bit c2 -> c1 = c2.
Proof.
  intros H1 H2 Heq.
  assert (Htop : forall c, c < 2 ^ 32 -> N.testbit (crc32_bit c) 31 = N.testbit c 0).
  { intros c Hc. assert (Hb : N.testbit c 32 = false) by (apply (proj1 (lt_pow2_bits _ _) Hc); done).
    rewrite crc32_bit_eq. destruct (N.testbit c 0).
    - rewrite N.lxor_spec, N.shiftr_spec'. by change (31 + 1) with 32; rewrite Hb.
    - by rewrite N.shiftr_spec'. }
  assert (H0 : N.testbit c1 0 = N.testbit c2 0) by (rewrite <-!Htop by done; by rewrite Heq).
  rewrite !crc32_bit_eq, <-H0 in Heq.
  assert (Hs : N.shiftr c1 1 = N.shiftr c2 1).
  { destruct (N.testbit c1 0); [|done]. apply (f_equal (fun x => N.lxor x 0xedb88320)) in Heq.
    by rewrite !N.lxor_assoc, N.lxor_nilpotent, !N.lxor_0_r in Heq. }
  apply N.bits_inj. intros i. destruct (decide (i = 0)) as [->|]; [done|].
  replace i with (i - 1 + 1) by lia. rewrite <-!N.shiftr_spec'. by rewrite Hs.
Qed.

Lemma crc32_bits_lt n crc : crc < 2 ^ 32 -> Nat.iter n crc32_bit crc < 2 ^ 32.
Proof. intros. by apply Nat.iter_invariant; [intros; apply crc32_bit_lt|]. Qed.

Lemma crc32_bits_inj n c1 c2 :
  c1 < 2 ^ 32 -> c2 < 2 ^ 32 -> Nat.iter n crc32_bit c1 = Nat.iter n crc32_bit c2 -> c1 = c2.
Proof.
  intros H1 H2. induction n as [|n IH]; [done|]. rewrite !Nat.iter_succ. intros Heq.
  apply IH. apply crc32_bit_inj; [by apply crc32_bits_lt..|done].
Qed.

Lemma is_byte_u32 b : is_byte b -> b < 2 ^ 32.
Proof. unfold is_byte. lia. Qed.

Lemma lxor_byte_lt crc byte : crc < 2 ^ 32 -> is_byte byte -> N.lxor crc byte < 2 ^ 32.
Proof. intros. apply lxor_lt; auto using is_byte_u32. Qed.

Lemma crc32_byte_lt crc byte : crc < 2 ^ 32 -> is_byte byte -> crc32_byte crc byte < 2 ^ 32.
Proof. intros. by apply crc32_bits_lt, lxor_byte_lt. Qed.

Lemma crc32_byte_inj c1 c2 b1 b2 :
  c1 < 2 ^ 32 -> c2 < 2 ^ 32 -> is_byte b1 -> is_byte b2 ->
  crc32_byte c1 b1 = crc32_byte c2 b2 -> N.lxor c1 b1 = N.lxor c2 b2.
Proof. intros ???? Heq. eapply crc32_bits_inj; [..|exact Heq]; by apply lxor_byte_lt. Qed.

Lemma lxor_cancel_r a b c : N.lxor a c = N.lxor b c -> a = b.
Proof.
  intros H%(f_equal (fun x => N.lxor x c)).
  by rewrite !N.lxor_assoc, N.lxor_nilpotent, !N.lxor_0_r in H.
Qed.

Lemma crc32_fold_lt bytes : forall crc,
  crc < 2 ^ 32 -> Forall is_byte bytes -> fold_left crc32_byte bytes crc < 2 ^ 32.
Proof.
  induction bytes as [|b bytes IH]; intros crc Hc; simpl; [done|].
  intros [? ?]%Forall_cons. apply IH; [by apply crc32_byte_lt|done].
Qed.

Lemma crc32_fold_inj bytes : forall c1 c2,
  c1 < 2 ^ 32 -> c2 < 2 ^ 32 -> Forall is_byte bytes ->
  fold_left crc32_byte bytes c1 = fold_left crc32_byte bytes c2 -> c1 = c2.
Proof.
  induction bytes as [|b bytes IH]; intros c1 c2 H1 H2; simpl; [done|].
  intros [Hb ?]%Forall_cons Heq. apply (lxor_cancel_r _ _ b).
  apply crc32_byte_inj; [done..|]. apply IH; [by apply crc32_byte_lt..|done|done].
Qed.

Lemma crc32_lt bytes : Forall is_byte bytes -> crc32 bytes < 2 ^ 32.
Proof. intros. apply lxor_lt; [done|]. by apply crc32_fold_lt. Qed.

(** Changing one byte of a message changes its checksum. *)
Lemma crc32_detects bytes i b b' :
  Forall is_byte bytes -> is_byte b' -> bytes !! i = Some b -> b' <> b ->
  crc32 (<[i := b']> bytes) <> crc32 bytes.
Proof.
  intros Hall Hb' Hi Hne Heq.
  assert (Hb : is_byte b) by (by eapply (Forall_lookup_1 _ _ _ _ Hall)).
  assert (Hpre : Forall is_byte (take i bytes)) by (by apply Forall_take).
  assert (Hpost : Forall is_byte (drop (S i) bytes)) by (by apply Forall_drop).
  unfold crc32 in Heq. rewrite !(N.lxor_comm U32_MAX) in Heq. apply lxor_cancel_r in Heq.
  rewrite insert_take_drop in Heq by (by eapply lookup_lt_Some).
  rewrite <-(take_drop_middle bytes i b Hi) in Heq at 3.
  rewrite !fold_left_app in Heq. simpl in Heq.
  assert (Hmid := crc32_fold_lt (take i bytes) U32_MAX eq_refl Hpre).
  apply crc32_fold_inj in Heq; [|by apply crc32_byte_lt..|done].
  apply crc32_byte_inj in Heq; [|done..]. rewrite !(N.lxor_comm (fold_left _ _ _)) in Heq.
  by apply lxor_cancel_r in Heq.
Qed.

(** A sealed payload with one byte changed no longer matches its checksum. *)
Lemma sealed_corrupt payload i b b' :
  Forall is_byte payload -> is_byte b' -> sealed payload !! i = Some b -> b' <> b ->
  let n := length payload in
  let bytes := <[i := b']> (sealed payload) in
  crc32 (sub_bytes bytes 0 n) <> from_le_bytes (sub_bytes bytes n 4).
Proof.
  intros Hp Hb' Hi Hne n bytes. subst n bytes. unfold sub_bytes, sealed. rewrite drop_0.
  assert (Hcrc : from_le_bytes (to_le_bytes 4 (crc32 payload)) = crc32 payload)
    by (apply from_to_le_bytes; change (256 ^ N.of_nat 4) with (2 ^ 32); by apply crc32_lt).
  assert (H4 : length (to_le_bytes 4 (crc32 payload)) = 4%nat) by apply to_le_bytes_length.
  unfold sealed in Hi. destruct (decide (i < length payload)%nat) as [Hlt|Hge].
  - rewrite lookup_app_l in Hi by done. rewrite insert_app_l by done.
    rewrite take_app_length', drop_app_length', take_ge by (rewrite ?length_insert; lia).
    rewrite Hcrc. by eapply crc32_detects.
  - apply Nat.nlt_ge in Hge. rewrite lookup_app_r in Hi by done.
    rewrite (insert_app_r_alt _ _ i) by done.
    rewrite take_app_length, drop_app_length, take_ge by (rewrite ?length_insert; lia).
    rewrite <-Hcrc at 1. intros Heq.
    apply from_le_bytes_inj in Heq; [| | |by rewrite length_insert].
    + assert (Hnew := list_lookup_insert_eq _ _ b' (lookup_lt_Some _ _ _ Hi)).
      rewrite <-Heq in Hnew. congruence.
    + apply to_le_bytes_are_bytes.
    + apply Forall_insert_slot; [apply to_le_bytes_are_bytes|done].
Qed.
End crc.

(** ** Records *)

Section records.
Implicit Types (bytes payload : list N).

Lemma sealed_payload payload n :
  length payload = n -> sub_bytes (sealed payload) 0 n = payload.
Proof. intros <-. unfold sub_bytes, sealed. rewrite drop_0. apply take_app_length. Qed.

Lemma sealed_checksum payload n :
  length payload = n -> Forall is_byte payload ->
  from_le_bytes (sub_bytes (sealed payload) n 4) = crc32 payload.
Proof.
  intros <- Hp. unfold sub_bytes, sealed. rewrite drop_app_length, take_ge.
  - apply from_to_le_bytes. change (256 ^ N.of_nat 4) with (2 ^ 32). by apply crc32_lt.
  - by rewrite to_le_bytes_length.
Qed.

(** Bytes whose last four match the checksum of the others are sealed. *)
Lemma unseal bytes n :
  length bytes = (n + 4)%nat -> Forall is_byte bytes ->
  crc32 (sub_bytes bytes 0 n) = from_le_bytes (sub_bytes bytes n 4) ->
  bytes = sealed (sub_bytes bytes 0 n).
Proof.
  intros Hl Hb Hc. unfold sealed. rewrite Hc.
  assert (H4 : length (sub_bytes bytes n 4) = 4%nat)
    by (unfold sub_bytes; rewrite length_take, length_drop; lia).
  rewrite <-H4 at 1. rewrite to_from_le_bytes by (by apply Forall_take, Forall_drop).
  unfold sub_bytes. rewrite drop_0, (take_ge (drop n bytes)) by (rewrite length_drop; lia).
  symmetry. apply take_drop.
Qed.

Lemma stage_encode_eq r :
  BootStageRecord.encode r =
  if decide (1 < BootStageRecord.slot r) then None else Some (sealed (stage_payload r)).
Proof. reflexivity. Qed.

Lemma ready_encode_eq r :
  BootReadyRecord.encode r =
  if decide (1 < BootReadyRecord.slot r
             \/ ~ (1 <= BootReadyRecord.attempt r /\ BootReadyRecord.attempt r <= 3)
             \/ BootReadyRecord.journal_generation r = 0)
  then None else Some (sealed (ready_payload r)).
Proof. reflexivity. Qed.

Lemma stage_payload_bytes r :
  BootStageRecord.slot r <= 1 -> Forall is_byte (stage_payload r).
Proof.
  intros Hs. unfold stage_payload, is_byte. apply Forall_app. split; [by repeat constructor|].
  apply Forall_app. split; [|apply to_le_bytes_are_bytes].
  repeat constructor. eapply N.le_lt_trans; [exact Hs|done].
Qed.

Lemma ready_payload_bytes r :
  BootReadyRecord.slot r <= 1 -> BootReadyRecord.attempt r <= 3 -> Forall is_byte (ready_payload r).
Proof.
  intros Hs Ha. unfold ready_payload, is_byte. apply Forall_app. split; [by repeat constructor|].
  apply Forall_app. split; [|apply to_le_bytes_are_bytes].
  repeat constructor; eapply N.le_lt_trans; [exact Hs|done|exact Ha|done].
Qed.

Lemma u64_le_bytes n : n <= U64_MAX -> from_le_bytes (to_le_bytes 8 n) = n.
Proof. intros. apply from_to_le_bytes. change (256 ^ N.of_nat 8) with (U64_MAX + 1). lia. Qed.

Lemma stage_decode_encode r bytes :
  BootStageRecord.journal_generation r <= U64_MAX ->
  BootStageRecord.encode r = Some bytes -> BootStageRecord.decode bytes = Some r.
Proof.
  intros Hg He. rewrite stage_encode_eq in He. case_decide as Hs; [done|]. simplify_eq.
  unfold BootStageRecord.decode.
  rewrite (sealed_payload _ 16), (sealed_checksum _ 16) by (done || apply stage_payload_bytes; lia).
  rewrite decide_False by (intros H; by repeat destruct H as [H|H]).
  change (byte_at (sealed (stage_payload r)) 5) with (BootStageRecord.slot r).
  change (sub_bytes (sealed (stage_payload r)) 8 8)
    with (to_le_bytes 8 (BootStageRecord.journal_generation r)).
  rewrite u64_le_bytes by done. destruct r as [slot generation]. rewrite stage_encode_eq.
  by rewrite decide_False.
Qed.

Lemma ready_decode_encode r bytes :
  BootReadyRecord.journal_generation r <= U64_MAX ->
  BootReadyRecord.encode r = Some bytes -> BootReadyRecord.decode bytes = Some r.
Proof.
  intros Hg He. rewrite ready_encode_eq in He. case_decide as Hs; [done|]. simplify_eq.
  unfold BootReadyRecord.decode.
  rewrite (sealed_payload _ 16), (sealed_checksum _ 16) by (done || apply ready_payload_bytes; lia).
  rewrite decide_False by (intros H; by repeat destruct H as [H|H]).
  change (byte_at (sealed (ready_payload r)) 5) with (BootReadyRecord.slot r).
  change (byte_at (sealed (ready_payload r)) 6) with (BootReadyRecord.attempt r).
  change (sub_bytes (sealed (ready_payload r)) 8 8)
    with (to_le_bytes 8 (BootReadyRecord.journal_generation r)).
  rewrite u64_le_bytes by done. destruct r as [slot attempt generation]. rewrite ready_encode_eq.
  by rewrite decide_False.
Qed.

(** The payload of a record, field by field. *)
Lemma sixteen_bytes bytes :
  length bytes = 20%nat ->
  sub_bytes bytes 0 16 =
  sub_bytes bytes 0 4 ++ [byte_at bytes 4; byte_at bytes 5; byte_at bytes 6; byte_at bytes 7]
  ++ sub_bytes bytes 8 8.
Proof. intros Hl. by do 20 (destruct bytes as [|? bytes]; [done|]). Qed.

Lemma le_word_bytes bytes :
  length bytes = 20%nat -> Forall is_byte bytes ->
  to_le_bytes 8 (from_le_bytes (sub_bytes bytes 8 8)) = sub_bytes bytes 8 8.
Proof.
  intros Hl Hb. assert (H8 : length (sub_bytes bytes 8 8) = 8%nat)
    by (unfold sub_bytes; rewrite length_take, length_drop; lia).
  rewrite <-H8 at 1. apply to_from_le_bytes. by apply Forall_take, Forall_drop.
Qed.

Lemma stage_encode_decode r bytes :
  Forall is_byte bytes ->
  BootStageRecord.decode bytes = Some r -> BootStageRecord.encode r = Some bytes.
Proof.
  intros Hb. unfold BootStageRecord.decode. case_decide as Hg; [done|]. undec.
  destruct (BootStageRecord.encode _) as [out|] eqn:He; [|done]. intros [= <-].
  rewrite stage_encode_eq in *. case_decide; [done|]. f_equal.
  rewrite (unseal bytes 16) at 3 by done. f_equal. unfold stage_payload. simpl BootStageRecord.slot.
  cbn [BootStageRecord.journal_generation]. rewrite le_word_bytes, sixteen_bytes by done.
  assert (H67 : [byte_at bytes 6; byte_at bytes 7] = [0; 0]).
  { rewrite <-H2. do 8 (destruct bytes as [|? bytes]; [done|]). done. }
  by simplify_eq; rewrite H0, H1, H5, H6.
Qed.

Lemma ready_encode_decode r bytes :
  Forall is_byte bytes ->
  BootReadyRecord.decode bytes = Some r -> BootReadyRecord.encode r = Some bytes.
Proof.
  intros Hb. unfold BootReadyRecord.decode. case_decide as Hg; [done|]. undec.
  destruct (BootReadyRecord.encode _) as [out|] eqn:He; [|done]. intros [= <-].
  rewrite ready_encode_eq in *. case_decide; [done|]. f_equal.
  rewrite (unseal bytes 16) at 4 by done. f_equal. unfold ready_payload.
  cbn [BootReadyRecord.slot BootReadyRecord.attempt BootReadyRecord.journal_generation].
  rewrite le_word_bytes, sixteen_bytes by done.
  by rewrite H0, H1, H2.
Qed.

(** A readiness or staging record and its twenty bytes determine each
    other: decoding accepts exactly the bytes encoding produces. *)
Theorem boot_records_roundtrip bytes ready stage :
  Forall is_byte bytes ->
  BootReadyRecord.journal_generation ready <= U64_MAX ->
  BootStageRecord.journal_generation stage <= U64_MAX ->
  (BootReadyRecord.decode bytes = Some ready <-> BootReadyRecord.encode ready = Some bytes)
  /\ (BootStageRecord.decode bytes = Some stage <-> BootStageRecord.encode stage = Some bytes).
Proof.
  intros Hb Hr Hs. split; split.
  - by apply ready_encode_decode.
  - by apply ready_decode_encode.
  - by apply stage_encode_decode.
  - by apply stage_decode_encode.
Qed.

(** Changing any one byte of an encoded record, checksum included, makes
    the loader reject it. *)
Theorem corrupt_record_rejected bytes i b b' :
  bytes !! i = Some b -> is_byte b' -> b' <> b ->
  (forall ready, BootReadyRecord.encode ready = Some bytes ->
     BootReadyRecord.decode (<[i := b']> bytes) = None)
  /\ (forall stage, BootStageRecord.encode stage = Some bytes ->
     BootStageRecord.decode (<[i := b']> bytes) = None).
Proof.
  intros Hi Hb' Hne. split; intros r He.
  - rewrite ready_encode_eq in He. case_decide; [done|]. simplify_eq.
    unfold BootReadyRecord.decode. rewrite decide_True; [done|]. do 4 right.
    eapply (sealed_corrupt (ready_payload r)); [apply ready_payload_bytes; lia|done..].
  - rewrite stage_encode_eq in He. case_decide; [done|]. simplify_eq.
    unfold BootStageRecord.decode. rewrite decide_True; [done|]. do 4 right.
    eapply (sealed_corrupt (stage_payload r)); [apply stage_payload_bytes; lia|done..].
Qed.
End records.

(** ** The clock *)

Lemma div_step d y :
  d <> 0 -> 1 <= y -> y / d = (y - 1) / d + (if decide (y mod d = 0) then 1 else 0).
Proof.
  intros Hd Hy. assert (Hdm := N.Div0.div_mod y d). assert (Hlt := N.mod_lt y d Hd).
  revert Hdm Hlt. generalize (y / d), (y mod d). intros q r Hdm Hlt. case_decide as Hr.
  - subst r. assert (Hq : q <> 0) by nia.
    replace (y - 1) with (d - 1 + (q - 1) * d) by nia.
    rewrite N.div_add, N.div_small by (done || lia). lia.
  - replace (y - 1) with (r - 1 + q * d) by nia.
    rewrite N.div_add, N.div_small by (done || lia). lia.
Qed.

Lemma multiple_divides y a b : a <> 0 -> b <> 0 -> y mod (a * b) = 0 -> y mod a = 0.
Proof.
  intros Ha Hb H. apply N.Div0.div_exact in H. rewrite H, <-N.mul_assoc, N.mul_comm.
  apply N.Div0.mod_mul.
Qed.

Lemma leap_step y :
  1 <= y ->
  y / 4 - y / 100 + y / 400 =
  (y - 1) / 4 - (y - 1) / 100 + (y - 1) / 400 + (if is_leap_year y then 1 else 0).
Proof.
  intros Hy. unfold is_leap_year.
  assert (H4 := div_step 4 y). assert (H100 := div_step 100 y). assert (H400 := div_step 400 y).
  rewrite H4, H100, H400 by done. clear H4 H100 H400.
  assert (Hle : (y - 1) / 100 <= (y - 1) / 4) by (apply N.div_le_compat_l; lia).
  assert (H1 := multiple_divides y 4 25). assert (H2 := multiple_divides y 100 4).
  revert Hle H1 H2. change (4 * 25) with 100. change (100 * 4) with 400.
  generalize ((y - 1) / 4), ((y - 1) / 100), ((y - 1) / 400), (y mod 4), (y mod 100), (y mod 400).
  intros a b c r4 r100 r400 Hle H1 H2.
  repeat case_decide; repeat case_bool_decide; simpl; try lia; exfalso; naive_solver.
Qed.

(** Days before a year, without the epoch's share. *)
Lemma days_before_year_step y :
  1970 <= y -> days_before_year (y + 1) = days_before_year y + year_length y.
Proof.
  intros Hy. unfold days_before_year, year_length. replace (y + 1 - 1) with y by lia.
  assert (Hs := leap_step y ltac:(lia)).
  assert (Hle1 : y / 100 <= y / 4) by (apply N.div_le_compat_l; lia).
  assert (Hle2 : (y - 1) / 100 <= (y - 1) / 4) by (apply N.div_le_compat_l; lia).
  assert (Hm4 : 1969 / 4 <= (y - 1) / 4) by (apply N.Div0.div_le_mono; lia).
  assert (Hm400 : 1969 / 400 <= (y - 1) / 400) by (apply N.Div0.div_le_mono; lia).
  assert (Hm100 : 25 * ((y - 1) / 100) <= (y - 1) / 4)
    by (change 100 with (4 * 25); rewrite <-N.Div0.div_div; apply N.Div0.mul_div_le).
  change (1969 * 365 + 1969 / 4 - 1969 / 100 + 1969 / 400) with 719162.
  change (1969 / 4) with 492 in Hm4. change (1969 / 400) with 4 in Hm400.
  revert Hs Hle1 Hle2 Hm4 Hm400 Hm100.
  generalize (y / 4), (y / 100), (y / 400), ((y - 1) / 4), ((y - 1) / 100), ((y - 1) / 400).
  intros. destruct (is_leap_year y); lia.
Qed.

Lemma days_before_year_spec n : days_before_year (1970 + N.of_nat n) = days_of_years n.
Proof.
  induction n as [|n IH]; [done|]. cbn [days_of_years].
  rewrite <-IH, <-days_before_year_step by lia. f_equal. lia.
Qed.

(** The table of the month starts agrees with the month lengths. *)
Lemma days_before_month_spec year month :
  1 <= month <= 12 -> days_before_month year month = days_of_months year (N.to_nat (month - 1)).
Proof.
  intros Hm. assert (Hin : month ∈ N.of_nat <$> seq 1 12).
  { apply list_elem_of_fmap. exists (N.to_nat month). split; [lia|]. apply elem_of_seq. lia. }
  clear Hm. revert month Hin. apply Forall_forall. unfold days_before_month.
  destruct (is_leap_year year) eqn:E; repeat constructor.
  all: match goal with |- context [days_of_months ?y ?n] =>
         let v := eval vm_compute in n in change n with v end.
  all: cbn [days_of_months]; unfold month_days; rewrite ?E; reflexivity.
Qed.

Lemma days_of_years_bound n : days_of_years n <= 366 * N.of_nat n.
Proof.
  induction n as [|n IH]; [done|]. cbn [days_of_years]. unfold year_length.
  destruct (is_leap_year _); lia.
Qed.

Lemma days_of_months_bound year n : days_of_months year n <= 31 * N.of_nat n.
Proof.
  induction n as [|n IH]; [done|]. cbn [days_of_months]. unfold month_days.
  repeat case_decide; simpl; try (destruct (is_leap_year _)); lia.
Qed.

Lemma month_days_bound year month len : month_days year month = Some len -> len <= 31.
Proof. unfold month_days. repeat case_decide; try case_match; intros; simplify_eq; lia. Qed.

(** A valid time is a calendar date in range, so the machine arithmetic is exact. *)
Lemma firmware_time_valid time :
  valid_time time ->
  firmware_time_to_unix_ns time =
  if decide (0 <= calendar_seconds time
             /\ calendar_seconds time * 1000000000 + Z.of_N (FirmwareDateTime.nanosecond time)
                <= Z.of_N U64_MAX)%Z
  then Z.to_N (calendar_seconds time) * 1000000000 + FirmwareDateTime.nanosecond time
  else REALTIME_UNAVAILABLE_NS.
Proof.
  destruct time as [year month day hour minute second ns tz flags].
  intros (Hy&Hm&Hd&Hh&Hmi&Hs&Hns&->&Htz). cbn [calendar_seconds FirmwareDateTime.nanosecond].
  unfold firmware_time_to_unix_ns.
  rewrite bool_decide_eq_false_2 by lia. cbn [orb].
  replace (match tz with Some _ => _ | None => _ end) with false
    by (destruct tz; [symmetry; apply bool_decide_eq_false_2; simpl in Htz; lia|done]).
  destruct (month_days year month) as [len|] eqn:Hlen; [|simpl in Hd; lia]. simpl in Hd.
  rewrite (decide_False (P := day = 0 \/ len < day)) by lia.
  rewrite <-days_before_month_spec by lia.
  assert (Hdy := days_before_year_spec (N.to_nat (year - 1970))).
  replace (1970 + N.of_nat (N.to_nat (year - 1970))) with year in Hdy by lia. rewrite Hdy.
  assert (Hby := days_of_years_bound (N.to_nat (year - 1970))).
  assert (Hbm := days_of_months_bound year (N.to_nat (month - 1))).
  rewrite <-days_before_month_spec in Hbm by lia.
  assert (Hday : day <= 31).
  { apply month_days_bound in Hlen. lia. }
  set (secs := _ * 86400 + _ + _ + _).
  assert (Hsecs : secs <= 300000000000) by (unfold secs; lia).
  assert (Hoff : (-86400 <= default 0 tz * 60 <= 86400)%Z) by lia.
  clearbody secs. revert Hoff. generalize (default 0%Z tz * 60)%Z. intros off Hoff.
  unfold utc_seconds, u64_checked_mul, u64_checked_add, I64_MAX, U64_MAX.
  rewrite decide_True by lia. rewrite decide_True by lia.
  repeat case_decide; simpl; lia || done.
Qed.

Lemma firmware_time_invalid time :
  ~ valid_time time -> firmware_time_to_unix_ns time = REALTIME_UNAVAILABLE_NS.
Proof.
  destruct time as [year month day hour minute second ns tz flags]. intros Hinv.
  unfold firmware_time_to_unix_ns.
  case_bool_decide as Hg; [done|]. cbn [orb].
  assert (Htz : match tz with
                | Some offset => bool_decide (~ (-1440 <= offset /\ offset <= 1440)%Z)
                | None => false end = false -> (-1440 <= default 0%Z tz <= 1440)%Z).
  { destruct tz as [offset|]; simpl; [|lia]. intros H%bool_decide_eq_false. lia. }
  destruct (match tz with Some _ => _ | None => _ end); [done|]. specialize (Htz eq_refl).
  destruct (month_days year month) as [len|] eqn:Hlen; [|done].
  destruct (decide (day = 0 \/ len < day)) as [|Hday]; [done|].
  destruct Hinv. unfold valid_time. rewrite Hlen. change (default 0 (Some len)) with len. lia.
Qed.

(** The firmware clock is converted exactly as the Gregorian calendar,
    counted day by day from 1970, says; a time that is invalid, before the epoch
    or beyond 64 bits of nanoseconds gives the unavailable value. *)
Theorem firmware_time_calendar time :
  (representable time ->
   firmware_time_to_unix_ns time =
   Z.to_N (calendar_seconds time) * 1000000000 + FirmwareDateTime.nanosecond time)
  /\ (~ representable time -> firmware_time_to_unix_ns time = REALTIME_UNAVAILABLE_NS).
Proof.
  split.
  - intros [Hv Hfit]. rewrite firmware_time_valid by done. by rewrite decide_True.
  - intros Hn. destruct (decide (valid_time time)) as [Hv|]; [|by apply firmware_time_invalid].
    rewrite firmware_time_valid by done. case_decide; [by destruct Hn|done].
Qed.

(** ** The boot-control writer *)

Lemma writer_loop_spec read base stride writer n : forall k,
  BootInfo.writer_loop read base stride writer (seq k n) = true <->
  exists i, (k <= i < k + n)%nat /\ base + N.of_nat i * stride <= U64_MAX
    /\ runtime_code_at (read (base + N.of_nat i * stride)) writer.
Proof.
  induction n as [|n IH]; intros k; cbn [seq BootInfo.writer_loop].
  { split; [done|]. intros (i&Hi&_). lia. }
  unfold u64_checked_mul at 1, u64_checked_add at 1.
  assert (Hmono : forall i, (k <= i)%nat -> N.of_nat k * stride <= N.of_nat i * stride)
    by (intros; apply N.mul_le_mono_r; lia).
  case_decide as Hm; [|split; [done|]; intros (i&Hi&Hb&_);
    specialize (Hmono i ltac:(lia)); lia].
  case_decide as Ha; [|split; [done|]; intros (i&Hi&Hb&_);
    specialize (Hmono i ltac:(lia)); lia].
  set (d := read _). set (continue := BootInfo.writer_loop _ _ _ _ _).
  transitivity (runtime_code_at d writer \/ continue = true).
  - unfold runtime_code_at, u64_checked_mul, u64_checked_add.
    repeat case_decide; naive_solver lia.
  - subst continue. rewrite (IH (S k)). split.
    + intros [Hd|(i&Hi&Hr)]; [exists k|exists i]; (split; [lia|done]).
    + intros (i&Hi&Hb&Hd). destruct (decide (i = k)) as [->|]; [by left|].
      right. exists i. split; [lia|done].
Qed.

(** The kernel accepts the firmware's variable writer exactly when the boot
    is a trial or may stage an update, the memory map is well formed, and some
    reachable descriptor of it is runtime code that covers the writer. *)
Theorem writer_is_runtime_code read info :
  let map := BootInfo.memory_map info in
  let control := BootInfo.boot_control info in
  BootInfo.boot_control_writer_is_runtime_code read info = true <->
  (BootControlInfo.is_trial control = true \/ BootControlInfo.is_update_stageable control = true)
  /\ MemoryMapInfo.address map <> 0
  /\ MemoryMapInfo.entry_count map <= MAX_MEMORY_MAP_DESCRIPTORS
  /\ MemoryMapEntry.SIZE <= MemoryMapInfo.entry_size map
  /\ MemoryMapInfo.entry_size map mod 8 = 0
  /\ exists i, i < MemoryMapInfo.entry_count map
       /\ MemoryMapInfo.address map + i * MemoryMapInfo.entry_size map <= U64_MAX
       /\ runtime_code_at (read (MemoryMapInfo.address map + i * MemoryMapInfo.entry_size map))
            (BootControlInfo.set_variable_address control).
Proof.
  intros map control. unfold BootInfo.boot_control_writer_is_runtime_code.
  fold map control. change 7 with (N.ones 3). rewrite N.land_ones. change (2 ^ 3) with 8.
  destruct (BootControlInfo.is_trial control || BootControlInfo.is_update_stageable control)
    eqn:Hc; cbn [negb orb].
  2: { apply orb_false_elim in Hc as [-> ->]. naive_solver. }
  apply orb_true_iff in Hc.
  do 5 (case_bool_decide; cbn [orb];
    [split; [done|]; intros (_&?&?&?&?&i&?&_); undec; lia|]).
  rewrite writer_loop_spec. undec. split.
  - intros (i&Hi&Hb&Hr). split_and!; try done; [lia..|].
    exists (N.of_nat i). split; [lia|done].
  - intros (_&_&_&_&_&i&Hi&Hb&Hr). exists (N.to_nat i). rewrite N2Nat.id. split; [lia|done].
Qed.

(** ** Concrete records *)

Module BootContractExample.
Definition ready : BootReadyRecord.t := BootReadyRecord.mk 1 2 7.
Definition stage : BootStageRecord.t := BootStageRecord.mk 1 7.

Definition ready_bytes : list N := default [] (BootReadyRecord.encode ready).

Lemma boot_records_roundtrip_witness :
  BootReadyRecord.encode ready = Some ready_bytes
  /\ BootReadyRecord.decode ready_bytes = Some ready
  /\ BootStageRecord.decode ready_bytes = None.
Proof.
  assert (Hb : Forall is_byte ready_bytes) by (vm_compute; repeat constructor).
  assert (He : BootReadyRecord.encode ready = Some ready_bytes) by (vm_compute; reflexivity).
  pose proof (boot_records_roundtrip ready_bytes ready stage Hb ltac:(done) ltac:(done)) as [H _].
  split; [exact He|]. split; [apply H, He|]. vm_compute. reflexivity.
Defined.

Lemma corrupt_record_rejected_witness :
  ready_bytes !! 5%nat = Some 1 /\ BootReadyRecord.decode (<[5%nat := 0]> ready_bytes) = None.
Proof.
  assert (Hi : ready_bytes !! 5%nat = Some 1) by (vm_compute; reflexivity).
  pose proof (corrupt_record_rejected ready_bytes 5 1 0 Hi ltac:(done) ltac:(done)) as [H _].
  split; [exact Hi|]. apply (H ready). vm_compute. reflexivity.
Defined.

(** 2024-02-29 12:00:00 UTC *)
Lemma leap_day :
  firmware_time_to_unix_ns (FirmwareDateTime.mk 2024 2 29 12 0 0 0 (Some 0%Z) 0)
  = 1709208000000000000.
Proof. vm_compute. reflexivity. Qed.
End BootContractExample.
