(* ===== verification/Memory.v ===== *)
(** * Physical memory (kernel/src/memory.rs)

    The page allocator over the firmware's memory map, page tables and their
    entries, the check that a range is identity mapped, and the bump heap.
    Physical memory is read through a parameter [read]: a memory-map descriptor or
    a page-table word at an address. *)

From stdpp Require Import prelude.
From S2P Require Import Prelude.
From S2P Require Import BootContract.

Local Open Scope N_scope.
Local Open Scope nagi_scope.

Definition PAGE_SIZE : N := 4096.
Definition PAGE_TABLE_ENTRIES : nat := 512.
Definition PAGE_TABLE_ADDRESS_MASK : N := 0x000ffffffffff000.
Definition HUGE_PAGE_FLAG : N := 128.
Definition CONVENTIONAL_MEMORY_TYPE : N := 7.
Definition MAX_RANGES : nat := 128.
Definition MAX_FREED_PAGES : nat := 128.

Module PageRange.
Record t := mk { start : N; next : N; end_ : N }.
Definition empty : t := mk 0 0 0.
End PageRange.

Module AllocatorError.
Inductive t := InvalidBootInfo | InvalidMemoryMap | AddressOverflow | TooManyRanges.
End AllocatorError.

Module PageAllocator.
Record t := mk {
  ranges : list PageRange.t;
  range_count : nat;
  freed : list N;
  freed_count : nat
}.

Definition empty : t :=
  mk (replicate MAX_RANGES PageRange.empty) 0 (replicate MAX_FREED_PAGES 0) 0.

(** The body of the loop of [from_boot_info] on one entry. *)
Definition add_entry (allocator : t) (entry : MemoryMapEntry.t)
  : Exec (Result t AllocatorError.t) :=
  if decide (MemoryMapEntry.memory_type entry <> CONVENTIONAL_MEMORY_TYPE
             \/ MemoryMapEntry.page_count entry = 0)
  then Ret (Ok allocator)
  else if decide (MemoryMapEntry.physical_start entry mod PAGE_SIZE <> 0)
  then Ret (Err AllocatorError.InvalidMemoryMap)
  else
    match u64_checked_mul (MemoryMapEntry.page_count entry) PAGE_SIZE with
    | None => Ret (Err AllocatorError.AddressOverflow)
    | Some bytes =>
        match u64_checked_add (MemoryMapEntry.physical_start entry) bytes with
        | None => Ret (Err AllocatorError.AddressOverflow)
        | Some e =>
            if decide (range_count allocator = MAX_RANGES)
            then Ret (Err AllocatorError.TooManyRanges)
            else
              let! ranges := store (ranges allocator) (range_count allocator)
                               (PageRange.mk (MemoryMapEntry.physical_start entry)
                                  (MemoryMapEntry.physical_start entry) e) in
              Ret (Ok (mk ranges (S (range_count allocator)) (freed allocator)
                         (freed_count allocator)))
        end
    end.

(** [for index in 0..entry_count]; [read_entry offset] is the entry at that
    offset of the memory map. *)
Fixpoint add_entries (read_entry : N -> MemoryMapEntry.t) (entry_size : N) (allocator : t)
  (indices : list nat) : Exec (Result t AllocatorError.t) :=
  match indices with
  | [] => Ret (Ok allocator)
  | i :: indices =>
      match u64_checked_mul (N.of_nat i) entry_size with
      | None => Ret (Err AllocatorError.AddressOverflow)
      | Some offset =>
          let! added := add_entry allocator (read_entry offset) in
          match added with
          | Err e => Ret (Err e)
          | Ok allocator => add_entries read_entry entry_size allocator indices
          end
      end
  end.

(** [read address] is the descriptor at that address. *)
Definition from_boot_info (read : N -> MemoryMapEntry.t) (info : BootInfo.t)
  : Exec (Result t AllocatorError.t) :=
  let map := BootInfo.memory_map info in
  let entry_size := MemoryMapInfo.entry_size map in
  match BootInfo.validate info with
  | Err _ => Ret (Err AllocatorError.InvalidBootInfo)
  | Ok _ =>
  if bool_decide (entry_size < MemoryMapEntry.SIZE) || negb (is_multiple_of entry_size 8)
  then Ret (Err AllocatorError.InvalidMemoryMap)
  else
    let! added := add_entries (fun offset => read (MemoryMapInfo.address map + offset)) entry_size
                    empty (seq 0 (N.to_nat (MemoryMapInfo.entry_count map))) in
    match added with
    | Err e => Ret (Err e)
    | Ok allocator =>
        if decide (range_count allocator = 0)%nat
        then Ret (Err AllocatorError.InvalidMemoryMap)
        else Ret (Ok allocator)
    end
  end.

Definition from_single_range (start page_count : N) : Exec (option t) :=
  match u64_checked_mul page_count PAGE_SIZE with
  | None => Ret None
  | Some bytes =>
      match u64_checked_add start bytes with
      | None => Ret None
      | Some e =>
          if bool_decide (page_count = 0) || negb (is_multiple_of start PAGE_SIZE) then Ret None
          else
            let! ranges := store (ranges empty) 0 (PageRange.mk start start e) in
            Ret (Some (mk ranges 1 (freed empty) (freed_count empty)))
      end
  end.

(** [for range in &mut self.ranges[..self.range_count]]: take the next page of
    the first range that satisfies the condition. *)
Definition bump (self : t) (P : PageRange.t -> Prop) `{forall r, Decision (P r)}
  : Exec (option N * t) :=
  let! used := slice_to (ranges self) (range_count self) in
  match list_find P used with
  | None => Ret (None, self)
  | Some (i, r) =>
      Ret (Some (PageRange.next r),
           mk (<[i := PageRange.mk (PageRange.start r) (PageRange.next r + PAGE_SIZE)
                        (PageRange.end_ r)]> (ranges self))
              (range_count self) (freed self) (freed_count self))
  end.

Definition allocate_page (self : t) : Exec (option N * t) :=
  if decide (freed_count self <> 0)%nat then
    let count := (freed_count self - 1)%nat in
    let! page := index (freed self) count in
    Ret (Some page, mk (ranges self) (range_count self) (freed self) count)
  else bump self (fun r => PageRange.next r < PageRange.end_ r).

Definition allocate_page_below (self : t) (upper_exclusive : N) : Exec (option N * t) :=
  let! position :=
    (if decide (freed_count self <> 0)%nat then
       let! used := slice_to (freed self) (freed_count self) in
       Ret (fst <$> list_find (fun page => page < upper_exclusive) used)
     else Ret None) in
  match position with
  | Some position =>
      let last := (freed_count self - 1)%nat in
      let! page := index (freed self) position in
      let! moved := index (freed self) last in
      let! freed := store (freed self) position moved in
      Ret (Some page, mk (ranges self) (range_count self) freed last)
  | None =>
      bump self (fun r => PageRange.next r < PageRange.end_ r
                          /\ PageRange.next r < upper_exclusive)
  end.

Definition handed_out (page : N) (r : PageRange.t) : Prop :=
  PageRange.start r <= page /\ page < PageRange.next r.

#[global] Instance handed_out_dec page r : Decision (handed_out page r).
Proof. unfold handed_out. apply _. Defined.

Definition free_page (self : t) (page : N) : Exec (bool * t) :=
  if negb (is_multiple_of page PAGE_SIZE) then Ret (false, self) else
  let! used := slice_to (ranges self) (range_count self) in
  if negb (bool_decide (Exists (handed_out page) used)) then Ret (false, self)
  else
    let! freed_pages := slice_to (freed self) (freed_count self) in
    if bool_decide (page ∈ freed_pages) || bool_decide (freed_count self = MAX_FREED_PAGES)
    then Ret (false, self)
    else
      let! freed := store (freed self) (freed_count self) page in
      Ret (true, mk (ranges self) (range_count self) freed (S (freed_count self))).
End PageAllocator.

(** ** Page tables *)

Module PageTableEntry.
Record t := mk { raw : N }.

Definition PRESENT : N := 1.
Definition WRITABLE : N := 2.
Definition USER : N := 4.
Definition NO_EXECUTE : N := 0x8000000000000000.

Definition new (physical_address flags : N) : option t :=
  if decide (N.land physical_address (PAGE_SIZE - 1) <> 0 \/ 2 ^ 52 <= physical_address)
  then None else Some (mk (N.lor physical_address flags)).

Definition is_present (self : t) : bool := bool_decide (N.land (raw self) PRESENT <> 0).
End PageTableEntry.

Module PageTable.
Record t := mk { entries : list N }.

Definition empty : t := mk (replicate PAGE_TABLE_ENTRIES 0).

Definition replace_empty (self : t) (i : nat) (raw : N) : bool * t :=
  match entries self !! i with
  | None => (false, self)
  | Some slot => if decide (slot <> 0 \/ raw = 0) then (false, self)
                 else (true, mk (<[i := raw]> (entries self)))
  end.

Definition map (self : t) (i : nat) (entry : PageTableEntry.t) : bool * t :=
  replace_empty self i (PageTableEntry.raw entry).

Definition raw_entry (self : t) (i : nat) : option N :=
  match entries self !! i with
  | Some e => if decide (e <> 0) then Some e else None
  | None => None
  end.

Definition replace (self : t) (i : nat) (raw : N) : bool * t :=
  match entries self !! i with
  | None => (false, self)
  | Some slot => if decide (raw = 0 \/ slot = 0) then (false, self)
                 else (true, mk (<[i := raw]> (entries self)))
  end.

Definition clear (self : t) : t := mk (const 0 <$> entries self).

Definition entry (self : t) (i : nat) : option PageTableEntry.t :=
  match entries self !! i with
  | None => None
  | Some raw => if decide (raw <> 0) then Some (PageTableEntry.mk raw) else None
  end.

Definition unmap (self : t) (i : nat) : option PageTableEntry.t * t :=
  match entries self !! i with
  | None => (None, self)
  | Some raw => if decide (raw = 0) then (None, self)
                else (Some (PageTableEntry.mk raw), mk (<[i := 0]> (entries self)))
  end.
End PageTable.

(** ** The walk of the active page tables *)

Definition read_page_table_entry (read : N -> N) (table i : N) : N := read (table + i * 8).

Definition page_is_identity_mapped (read : N -> N) (cr3 virtual_address : N) : bool :=
  let pml4 := read_page_table_entry read cr3 (N.land (N.shiftr virtual_address 39) 0x1ff) in
  if bool_decide (N.land pml4 1 = 0) then false
  else
    let pdpt := read_page_table_entry read (N.land pml4 PAGE_TABLE_ADDRESS_MASK)
                  (N.land (N.shiftr virtual_address 30) 0x1ff) in
    if bool_decide (N.land pdpt 1 = 0) then false
    else if bool_decide (N.land pdpt HUGE_PAGE_FLAG <> 0)
    then bool_decide (N.land pdpt 0x000fffffc0000000 + N.land virtual_address 0x3fffffff
                      = virtual_address)
    else
      let pd := read_page_table_entry read (N.land pdpt PAGE_TABLE_ADDRESS_MASK)
                  (N.land (N.shiftr virtual_address 21) 0x1ff) in
      if bool_decide (N.land pd 1 = 0) then false
      else if bool_decide (N.land pd HUGE_PAGE_FLAG <> 0)
      then bool_decide (N.land pd 0x000fffffffe00000 + N.land virtual_address 0x1fffff
                        = virtual_address)
      else
        let pt := read_page_table_entry read (N.land pd PAGE_TABLE_ADDRESS_MASK)
                    (N.land (N.shiftr virtual_address 12) 0x1ff) in
        if bool_decide (N.land pt 1 = 0) then false
        else bool_decide (N.land pt PAGE_TABLE_ADDRESS_MASK
                          + N.land virtual_address (PAGE_SIZE - 1) = virtual_address).

(** The loop over the pages; [None] is running out of fuel. *)
Fixpoint identity_loop (fuel : nat) (read : N -> N) (cr3 page last_page : N) : option bool :=
  match fuel with
  | O => None
  | S fuel =>
      if negb (page_is_identity_mapped read cr3 page) then Some false
      else if decide (page = last_page) then Some true
      else
        match u64_checked_add page PAGE_SIZE with
        | None => Some false
        | Some page => identity_loop fuel read cr3 page last_page
        end
  end.

(** [address & !(PAGE_SIZE - 1)] *)
Definition page_of (address : N) : N := N.ldiff address (PAGE_SIZE - 1).

Definition identity_mapped (read : N -> N) (cr3 address length : N) : option bool :=
  if decide (N.land cr3 (PAGE_SIZE - 1) <> 0 \/ 2 ^ 52 <= cr3 \/ length = 0) then Some false
  else
    match u64_checked_add address length with
    | None => Some false
    | Some e =>
        let page := page_of address in
        let last_page := page_of (e - 1) in
        identity_loop (S (N.to_nat ((last_page - page) / PAGE_SIZE))) read cr3 page last_page
    end.

(** ** The bump heap *)

Definition is_power_of_two (n : N) : bool := bool_decide (n <> 0) && bool_decide (2 ^ N.log2 n = n).

Module KernelHeap.
Record t := mk { start : N; next : N; end_ : N }.

Definition new (start size : N) : option t :=
  if negb (is_multiple_of start PAGE_SIZE) then None
  else
    match u64_checked_add start size with
    | Some e => if decide (size <> 0) then Some (mk start start e) else None
    | None => None
    end.

Definition allocate (self : t) (size alignment : N) : option N * t :=
  if bool_decide (size = 0) || negb (is_power_of_two alignment) then (None, self)
  else
    match u64_checked_add (next self) (alignment - 1) with
    | None => (None, self)
    | Some bumped =>
        let aligned := N.ldiff bumped (alignment - 1) in
        match u64_checked_add aligned size with
        | None => (None, self)
        | Some e =>
            if decide (end_ self < e) then (None, self)
            else (Some aligned, mk (start self) e (end_ self))
        end
    end.

Definition reset (self : t) : t := mk (start self) (start self) (end_ self).
End KernelHeap.

(** ** Operation sequences and the reference definitions *)

Module PageOps.
Inductive op := Allocate | AllocateBelow (upper : N) | Free (page : N).

(** [owned] lists the pages handed out and not accepted back. *)
Definition take_page (r : Exec (option N * PageAllocator.t)) (owned : list N)
  : Exec (PageAllocator.t * list N) :=
  let! (page, self) := r in
  Ret (self, match page with Some page => page :: owned | None => owned end).

Definition run_op (self : PageAllocator.t) (owned : list N) (o : op)
  : Exec (PageAllocator.t * list N) :=
  match o with
  | Allocate => take_page (PageAllocator.allocate_page self) owned
  | AllocateBelow upper => take_page (PageAllocator.allocate_page_below self upper) owned
  | Free page =>
      let! (accepted, self) := PageAllocator.free_page self page in
      Ret (self, if (accepted : bool) then filter (fun q => q <> page) owned else owned)
  end.

Fixpoint run_ops (self : PageAllocator.t) (owned : list N) (os : list op)
  : Exec (PageAllocator.t * list N) :=
  match os with
  | [] => Ret (self, owned)
  | o :: os => let! (self, owned) := run_op self owned o in run_ops self owned os
  end.
End PageOps.

Definition used (self : PageAllocator.t) : list PageRange.t :=
  take (PageAllocator.range_count self) (PageAllocator.ranges self).

Definition free_list (self : PageAllocator.t) : list N :=
  take (PageAllocator.freed_count self) (PageAllocator.freed self).

(** A page the allocator has handed out and not taken back. *)
Definition outstanding (self : PageAllocator.t) (page : N) : Prop :=
  page mod PAGE_SIZE = 0 /\ Exists (PageAllocator.handed_out page) (used self)
  /\ page ∉ free_list self.

(** A page of the memory the allocator manages. *)
Definition managed (self : PageAllocator.t) (page : N) : Prop :=
  page mod PAGE_SIZE = 0
  /\ Exists (fun r => PageRange.start r <= page /\ page < PageRange.end_ r) (used self).

Record range_ok (r : PageRange.t) : Prop := {
  start_aligned : PageRange.start r mod PAGE_SIZE = 0;
  next_aligned : PageRange.next r mod PAGE_SIZE = 0;
  end_aligned : PageRange.end_ r mod PAGE_SIZE = 0;
  start_next : PageRange.start r <= PageRange.next r;
  next_end : PageRange.next r <= PageRange.end_ r;
  end_bound : PageRange.end_ r <= U64_MAX
}.

Definition apart (r1 r2 : PageRange.t) : Prop :=
  PageRange.end_ r1 <= PageRange.start r2 \/ PageRange.end_ r2 <= PageRange.start r1.

Definition all_apart (l : list PageRange.t) : Prop :=
  forall i j r1 r2, l !! i = Some r1 -> l !! j = Some r2 -> i <> j -> apart r1 r2.

Record allocator_wf (self : PageAllocator.t) : Prop := {
  ranges_length : length (PageAllocator.ranges self) = MAX_RANGES;
  range_count_le : (PageAllocator.range_count self <= MAX_RANGES)%nat;
  freed_length : length (PageAllocator.freed self) = MAX_FREED_PAGES;
  freed_count_le : (PageAllocator.freed_count self <= MAX_FREED_PAGES)%nat;
  ranges_ok : Forall range_ok (used self);
  ranges_apart : all_apart (used self);
  freed_nodup : NoDup (free_list self);
  freed_handed_out : Forall (fun p => p mod PAGE_SIZE = 0
                       /\ Exists (PageAllocator.handed_out p) (used self)) (free_list self)
}.

(** The range after its next page has been taken. *)
Definition bumped (r : PageRange.t) : PageRange.t :=
  PageRange.mk (PageRange.start r) (PageRange.next r + PAGE_SIZE) (PageRange.end_ r).

(** [p] is handed out between the two states, and nothing else changes hands. *)
Record granted (self self' : PageAllocator.t) (p : N) : Prop := {
  granted_wf : allocator_wf self';
  granted_fresh : ~ outstanding self p;
  granted_managed : managed self p;
  granted_outstanding : forall q, outstanding self' q <-> outstanding self q \/ q = p;
  granted_same : forall q, managed self' q <-> managed self q
}.

(** [owned] lists exactly the outstanding pages, each once. *)
Definition owns (self : PageAllocator.t) (owned : list N) : Prop :=
  NoDup owned /\ forall p, p ∈ owned <-> outstanding self p.

(** Two usable entries of the firmware's memory map do not overlap. *)
Definition conventional (e : MemoryMapEntry.t) : Prop :=
  MemoryMapEntry.memory_type e = CONVENTIONAL_MEMORY_TYPE /\ MemoryMapEntry.page_count e <> 0.

Definition entry_end (e : MemoryMapEntry.t) : N :=
  MemoryMapEntry.physical_start e + MemoryMapEntry.page_count e * PAGE_SIZE.

Definition entries_apart (read_entry : N -> MemoryMapEntry.t) (entry_size : N) : Prop :=
  forall i j, (i <> j)%nat ->
  let e1 := read_entry (N.of_nat i * entry_size) in
  let e2 := read_entry (N.of_nat j * entry_size) in
  conventional e1 -> conventional e2 ->
  entry_end e1 <= MemoryMapEntry.physical_start e2 \/ entry_end e2 <= MemoryMapEntry.physical_start e1.

(** The descriptor at an offset of the boot information's memory map. *)
Definition map_entries (read : N -> MemoryMapEntry.t) (info : BootInfo.t) (offset : N)
  : MemoryMapEntry.t := read (MemoryMapInfo.address (BootInfo.memory_map info) + offset).

(** The range [add_entry] records for the usable entry [e]. *)
Definition range_of (e : MemoryMapEntry.t) (r : PageRange.t) : Prop :=
  conventional e /\ MemoryMapEntry.physical_start e mod PAGE_SIZE = 0
  /\ entry_end e <= U64_MAX
  /\ r = PageRange.mk (MemoryMapEntry.physical_start e) (MemoryMapEntry.physical_start e)
           (entry_end e).

(** The allocator after the first [n] entries: its ranges are those of some of
    them, in order. *)
Record built (read_entry : N -> MemoryMapEntry.t) (entry_size : N) (n : nat)
  (self : PageAllocator.t) : Prop := {
  built_length : length (PageAllocator.ranges self) = MAX_RANGES;
  built_count : (PageAllocator.range_count self <= MAX_RANGES)%nat;
  built_freed : PageAllocator.freed self = replicate MAX_FREED_PAGES 0;
  built_freed_count : PageAllocator.freed_count self = 0%nat;
  built_ranges : exists indices, NoDup indices /\ Forall (fun i => (i < n)%nat) indices
    /\ Forall2 (fun i => range_of (read_entry (N.of_nat i * entry_size))) indices (used self)
}.

(** *** Address translation

    The architecture's four-level walk: [frame e shift] is the physical base in
    an entry that maps [2 ^ shift] bytes, and entries below the top level may
    map a huge page. *)

Definition frame (e shift : N) : N := e mod 2 ^ 52 / 2 ^ shift * 2 ^ shift.

Fixpoint walk (read : N -> N) (levels : list (N * bool)) (table va : N) : option N :=
  match levels with
  | [] => None
  | (shift, maps_pages) :: levels =>
      let e := read (table + va / 2 ^ shift mod 512 * 8) in
      if negb (N.testbit e 0) then None
      else if bool_decide (levels = []) || maps_pages && N.testbit e 7
      then Some (frame e shift + va mod 2 ^ shift)
      else walk read levels (frame e 12) va
  end.

Definition translate (read : N -> N) (cr3 va : N) : option N :=
  walk read [(39, false); (30, true); (21, true); (12, true)] cr3 va.

(** *** The heap's blocks: address, size and alignment of each success *)

Record block := Block { block_address : N; block_size : N; block_alignment : N }.

Fixpoint allocate_all (self : KernelHeap.t) (requests : list (N * N)) : list block * KernelHeap.t :=
  match requests with
  | [] => ([], self)
  | (size, alignment) :: requests =>
      let '(address, self) := KernelHeap.allocate self size alignment in
      let '(blocks, self) := allocate_all self requests in
      (match address with
       | Some address => Block address size alignment :: blocks
       | None => blocks
       end, self)
  end.

(** Every block lies in [[low, high)], aligned, after all earlier ones. *)
Fixpoint laid_out (low high : N) (bs : list block) : Prop :=
  match bs with
  | [] => low <= high
  | b :: bs => low <= block_address b /\ block_address b mod block_alignment b = 0
               /\ block_size b <> 0 /\ laid_out (block_address b + block_size b) high bs
  end.
(** The table's view changes at index [i] only, to [v]. *)
Definition sets (self self' : PageTable.t) (i : nat) (v : option N) : Prop :=
  forall j, PageTable.raw_entry self' j = if decide (i = j) then v else PageTable.raw_entry self j.

(** ** The page allocator *)

Section allocator.
Implicit Types (self : PageAllocator.t) (p q : N) (r : PageRange.t).

Lemma used_slice self :
  allocator_wf self ->
  slice_to (PageAllocator.ranges self) (PageAllocator.range_count self) = Ret (used self).
Proof. intros [Hl Hc]. apply slice_to_Ret. lia. Qed.

Lemma free_slice self :
  allocator_wf self ->
  slice_to (PageAllocator.freed self) (PageAllocator.freed_count self) = Ret (free_list self).
Proof. intros [_ _ Hl Hc]. apply slice_to_Ret. lia. Qed.

(** Two ranges that share an address are the same range. *)
Lemma range_unique l i j r1 r2 p :
  all_apart l -> l !! i = Some r1 -> l !! j = Some r2 ->
  PageRange.start r1 <= p < PageRange.end_ r1 -> PageRange.start r2 <= p < PageRange.end_ r2 ->
  i = j.
Proof.
  intros Ha H1 H2 ??. destruct (decide (i = j)) as [|Hne]; [done|].
  destruct (Ha i j r1 r2 H1 H2 Hne); lia.
Qed.

Lemma bumped_ok r : range_ok r -> PageRange.next r < PageRange.end_ r -> range_ok (bumped r).
Proof.
  intros [????? Hb] Hlt. unfold PAGE_SIZE, U64_MAX in *.
  split; cbn [bumped PageRange.start PageRange.next PageRange.end_]; unfold PAGE_SIZE; try done;
    try lia; div_lia.
Qed.

Lemma bumped_handed_out r p :
  range_ok r -> p mod PAGE_SIZE = 0 ->
  PageAllocator.handed_out p (bumped r) <->
  PageAllocator.handed_out p r \/ p = PageRange.next r.
Proof.
  intros [????? Hb] Hp. unfold PageAllocator.handed_out. unfold PAGE_SIZE in *.
  cbn [bumped PageRange.start PageRange.next PageRange.end_]. unfold PAGE_SIZE.
  split; [|lia]. intros [? ?].
  destruct (decide (p < PageRange.next r)); [left; lia|right; div_lia].
Qed.

Lemma exists_bumped l i r p :
  Forall range_ok l -> l !! i = Some r -> p mod PAGE_SIZE = 0 ->
  Exists (PageAllocator.handed_out p) (<[i := bumped r]> l) <->
  Exists (PageAllocator.handed_out p) l \/ p = PageRange.next r.
Proof.
  intros Hok Hi Hp.
  assert (Hr : range_ok r) by (by eapply (Forall_lookup_1 _ _ _ _ Hok)).
  rewrite <-(take_drop_middle l i r Hi) at 2.
  rewrite insert_take_drop by (by eapply lookup_lt_Some).
  rewrite !Exists_app, !Exists_cons, bumped_handed_out by done. tauto.
Qed.

Lemma range_bounds r :
  range_ok r -> PageRange.start r <= PageRange.next r /\ PageRange.next r <= PageRange.end_ r.
Proof. by intros []. Qed.

Lemma next_not_handed_out l i r :
  Forall range_ok l -> all_apart l -> l !! i = Some r -> PageRange.next r < PageRange.end_ r ->
  ~ Exists (PageAllocator.handed_out (PageRange.next r)) l.
Proof.
  intros Hok Ha Hi Hlt (rj&[j Hj]%list_elem_of_lookup&[Hs Hn])%Exists_exists.
  assert (Hr : range_ok r) by (by eapply (Forall_lookup_1 _ _ _ _ Hok)).
  assert (Hrj : range_ok rj) by (by eapply (Forall_lookup_1 _ _ _ _ Hok)).
  apply range_bounds in Hr, Hrj. assert (i = j) as <- by (apply (range_unique l i j r rj (PageRange.next r)); auto; lia).
  simplify_eq. lia.
Qed.

Lemma bump_wf self i r :
  allocator_wf self -> used self !! i = Some r -> PageRange.next r < PageRange.end_ r ->
  let self' := PageAllocator.mk (<[i := bumped r]> (PageAllocator.ranges self))
                 (PageAllocator.range_count self) (PageAllocator.freed self)
                 (PageAllocator.freed_count self) in
  used self' = <[i := bumped r]> (used self) /\ allocator_wf self'.
Proof.
  intros Hwf Hi Hlt self'.
  assert (Hic : (i < PageAllocator.range_count self)%nat)
    by (apply lookup_lt_Some in Hi; unfold used in Hi; rewrite length_take in Hi; lia).
  assert (Hu : used self' = <[i := bumped r]> (used self))
    by (unfold used; simpl; by rewrite take_insert_lt).
  destruct Hwf as [Hl Hc Hfl Hfc Hok Ha Hnd Hfo].
  assert (Hr : range_ok r) by (by eapply (Forall_lookup_1 _ _ _ _ Hok)).
  split; [done|]. split; rewrite ?Hu; try done.
  - simpl. by rewrite length_insert.
  - apply Forall_insert_slot; [done|by apply bumped_ok].
  - intros j k r1 r2 Hj Hk Hne.
    assert (Hget : forall j r1, <[i := bumped r]> (used self) !! j = Some r1 ->
      exists r0, used self !! j = Some r0 /\ PageRange.start r0 = PageRange.start r1
        /\ PageRange.end_ r0 = PageRange.end_ r1).
    { intros j' r' [(<-&<-&_)|[_ ?]]%list_lookup_insert_Some; [by exists r|by exists r']. }
    destruct (Hget _ _ Hj) as (r1'&H1&Hs1&He1), (Hget _ _ Hk) as (r2'&H2&Hs2&He2).
    specialize (Ha _ _ _ _ H1 H2 Hne). unfold apart in *. lia.
  - eapply Forall_impl; [exact Hfo|]. intros p [Hp He]. split; [done|].
    apply exists_bumped; auto.
Qed.

Lemma bump_granted self i r :
  allocator_wf self -> used self !! i = Some r -> PageRange.next r < PageRange.end_ r ->
  granted self (PageAllocator.mk (<[i := bumped r]> (PageAllocator.ranges self))
                 (PageAllocator.range_count self) (PageAllocator.freed self)
                 (PageAllocator.freed_count self)) (PageRange.next r).
Proof.
  intros Hwf Hi Hlt. destruct (bump_wf self i r Hwf Hi Hlt) as [Hu Hwf'].
  set (self' := PageAllocator.mk _ _ _ _) in *.
  destruct Hwf as [Hl Hc Hfl Hfc Hok Ha Hnd Hfo].
  assert (Hr : range_ok r) by (by eapply (Forall_lookup_1 _ _ _ _ Hok)).
  assert (Hn := next_not_handed_out _ _ _ Hok Ha Hi Hlt).
  split; [done| | | |].
  - intros (_&?&_). done.
  - split; [apply Hr|]. apply Exists_exists. exists r.
    split; [by eapply list_elem_of_lookup_2|]. split; [apply Hr|done].
  - intros q. unfold outstanding. rewrite Hu. change (free_list self') with (free_list self).
    split.
    + intros (Hq&He&?). apply exists_bumped in He as [?| ->]; auto.
    + intros [(Hq&He&?)| ->]; [split_and!; auto; apply exists_bumped; auto|].
      destruct Hr. split_and!; [done|by apply exists_bumped; auto|].
      intros Hin. by destruct (proj1 (Forall_forall _ _) Hfo _ Hin).
  - intros q. unfold managed. rewrite Hu, <-(take_drop_middle (used self) i r Hi) at 1.
    rewrite insert_app_r_alt; rewrite length_take_le by (apply lookup_lt_Some in Hi; lia); [|done].
    rewrite Nat.sub_diag. rewrite <-(take_drop_middle (used self) i r Hi) at 3. simpl.
    rewrite !Exists_app, !Exists_cons. done.
Qed.

(** [bump] takes a page of the first range that qualifies. *)
Lemma bump_spec self P `{!forall r, Decision (P r)} :
  allocator_wf self -> (forall r, P r -> PageRange.next r < PageRange.end_ r) ->
  (exists self' r, PageAllocator.bump self P = Ret (Some (PageRange.next r), self') /\ P r
     /\ granted self self' (PageRange.next r))
  \/ (PageAllocator.bump self P = Ret (None, self) /\ Forall (fun r => ~ P r) (used self)).
Proof.
  intros Hwf HP. unfold PageAllocator.bump. rewrite used_slice by done. simpl.
  destruct (list_find P (used self)) as [[i r]|] eqn:E.
  - left. eexists _, r. split; [done|]. split; [by eapply list_find_holds|].
    apply bump_granted; [done|by eapply list_find_lookup|].
    apply HP. by eapply list_find_holds.
  - right. split; [done|]. by apply list_find_None in E.
Qed.

(** Taking [p] off the free list, in any order of the rest. *)
Lemma refill_granted self p freed' n :
  allocator_wf self -> free_list self ≡ₚ p :: take n freed' -> length freed' = MAX_FREED_PAGES ->
  (n <= MAX_FREED_PAGES)%nat ->
  granted self (PageAllocator.mk (PageAllocator.ranges self) (PageAllocator.range_count self)
                  freed' n) p.
Proof.
  intros [Hl Hc Hfl Hfc Hok Ha Hnd Hfo] Hperm Hlen Hn.
  rewrite Hperm in Hnd. rewrite Hperm, Forall_cons in Hfo. destruct Hfo as [[Hp He] Hfo].
  apply NoDup_cons in Hnd as [Hnin Hnd].
  split; [by split| | | |done].
  - intros (_&_&Hout). apply Hout. rewrite Hperm. left.
  - split; [done|]. apply Exists_exists in He as (r&Hr&[Hs Hlt]). apply Exists_exists.
    exists r. split; [done|]. destruct (proj1 (Forall_forall _ _) Hok _ Hr). split; [done|].
    eapply N.lt_le_trans; eauto using next_end.
  - intros q. unfold outstanding, used, free_list at 1. simpl.
    rewrite Hperm, not_elem_of_cons. destruct (decide (q = p)); naive_solver.
Qed.

Lemma swap_remove {A} (l : list A) n i x y :
  (i <= n)%nat -> l !! i = Some x -> l !! n = Some y ->
  take (S n) l ≡ₚ x :: take n (<[i := y]> l).
Proof.
  intros Hin Hi Hn. rewrite (take_S_r _ _ _ Hn).
  destruct (decide (i = n)) as [->|]; simplify_eq.
  - rewrite take_insert_ge by lia. by rewrite (comm (++)).
  - rewrite take_insert_lt by lia.
    assert (Hi' : take n l !! i = Some x) by (rewrite lookup_take_lt by lia; done).
    rewrite <-(take_drop_middle _ _ _ Hi') at 1.
    rewrite insert_take_drop by (by eapply lookup_lt_Some). solve_Permutation.
Qed.

Lemma allocate_page_spec self :
  allocator_wf self ->
  (exists p self', PageAllocator.allocate_page self = Ret (Some p, self') /\ granted self self' p)
  \/ (PageAllocator.allocate_page self = Ret (None, self)
      /\ forall p, managed self p -> outstanding self p).
Proof.
  intros Hwf. unfold PageAllocator.allocate_page. case_decide as Hc.
  - left. destruct (PageAllocator.freed_count self) as [|n] eqn:En; [done|].
    assert (Hn : (n < length (PageAllocator.freed self))%nat)
      by (destruct Hwf as [_ _ -> Hle _ _ _ _]; lia).
    apply lookup_lt_is_Some in Hn as [p Hp].
    simpl. rewrite Nat.sub_0_r. rewrite (proj2 (index_Ret _ _ _) Hp). simpl.
    eexists _, _. split; [done|]. apply refill_granted; [done| |apply Hwf|].
    + unfold free_list. rewrite En, (take_S_r _ _ _ Hp). by rewrite (comm (++)).
    + destruct Hwf as [_ _ _ Hle _ _ _ _]. lia.
  - assert (H0 : PageAllocator.freed_count self = 0%nat) by lia.
    destruct (bump_spec self (fun r => PageRange.next r < PageRange.end_ r) Hwf)
      as [(self'&r&->&_&Hg)|[-> Hall]]; [done|by eauto|].
    right. split; [done|]. intros p [Hp (r&Hr&[Hs He])%Exists_exists].
    rewrite Forall_forall in Hall. specialize (Hall _ Hr). split; [done|]. split.
    + apply Exists_exists. exists r. split; [done|]. split; [done|]. clear Hp. lia.
    + unfold free_list. rewrite H0. simpl. apply not_elem_of_nil.
Qed.

Lemma allocate_page_below_spec self upper :
  allocator_wf self ->
  (exists p self', PageAllocator.allocate_page_below self upper = Ret (Some p, self')
     /\ p < upper /\ granted self self' p)
  \/ (PageAllocator.allocate_page_below self upper = Ret (None, self)
      /\ forall p, managed self p -> p < upper -> outstanding self p).
Proof.
  intros Hwf. unfold PageAllocator.allocate_page_below.
  assert (Hpos : (if decide (PageAllocator.freed_count self <> 0)%nat then
       let! used := slice_to (PageAllocator.freed self) (PageAllocator.freed_count self) in
       Ret (fst <$> list_find (fun page => page < upper) used)
     else Ret None) = Ret (fst <$> list_find (fun page => page < upper) (free_list self))).
  { rewrite free_slice by done. unfold free_list. case_decide as Hz; [done|].
    by destruct (PageAllocator.freed_count self). }
  rewrite Hpos. simpl. clear Hpos.
  destruct (list_find _ (free_list self)) as [[i p]|] eqn:E; simpl.
  - left. assert (Hi := list_find_lookup _ _ _ _ E). assert (Hlt := list_find_holds _ _ _ _ E).
    simpl in Hlt. apply lookup_take_Some in Hi as [Hi Hic].
    destruct (PageAllocator.freed_count self) as [|n] eqn:En; [lia|].
    assert (Hn : (n < length (PageAllocator.freed self))%nat)
      by (destruct Hwf as [_ _ -> Hle _ _ _ _]; lia).
    destruct (lookup_lt_is_Some_2 _ _ Hn) as [y Hy].
    simpl. rewrite Nat.sub_0_r. rewrite (proj2 (index_Ret _ _ _) Hi). simpl.
    rewrite (proj2 (index_Ret _ _ _) Hy). simpl. rewrite store_Ret by lia. simpl.
    eexists _, _. split; [done|]. split; [done|].
    apply refill_granted; [done| |rewrite length_insert; apply Hwf|].
    + unfold free_list. rewrite En. apply swap_remove; [lia|done|done].
    + destruct Hwf as [_ _ _ Hle _ _ _ _]. lia.
  - apply list_find_None in E.
    destruct (bump_spec self
      (fun r => PageRange.next r < PageRange.end_ r /\ PageRange.next r < upper) Hwf)
      as [(self'&r&->&[_ ?]&Hg)|[-> Hall]]; [by intros ? []|left; by eauto|].
    right. split; [done|]. intros p [Hp (r&Hr&[Hs He])%Exists_exists] Hlt.
    rewrite Forall_forall in Hall. specialize (Hall _ Hr). split; [done|]. split.
    + apply Exists_exists. exists r. split; [done|]. split; [done|]. clear Hp E. lia.
    + intros Hin. by apply (proj1 (Forall_forall _ _) E _ Hin).
Qed.

Lemma free_page_spec self p :
  allocator_wf self ->
  (exists self', PageAllocator.free_page self p = Ret (true, self')
     /\ outstanding self p /\ allocator_wf self'
     /\ (forall q, outstanding self' q <-> outstanding self q /\ q <> p)
     /\ (forall q, managed self' q <-> managed self q))
  \/ (PageAllocator.free_page self p = Ret (false, self)
      /\ (outstanding self p -> PageAllocator.freed_count self = MAX_FREED_PAGES)).
Proof.
  intros Hwf. unfold PageAllocator.free_page, is_multiple_of. rewrite decide_False by done.
  destruct (bool_decide_reflect (p mod PAGE_SIZE = 0)) as [Hp|Hp]; simpl;
    [|right; split; [done|by intros (?&_)]].
  rewrite used_slice by done. simpl.
  destruct (bool_decide_reflect (Exists (PageAllocator.handed_out p) (used self))) as [He|He];
    simpl; [|right; split; [done|by intros (_&?&_)]].
  rewrite free_slice by done. simpl.
  destruct (bool_decide_reflect (p ∈ free_list self)) as [Hin|Hin]; simpl;
    [right; split; [done|by intros (_&_&?)]|].
  destruct (bool_decide_reflect (PageAllocator.freed_count self = MAX_FREED_PAGES)) as [Hf|Hf];
    simpl; [by right|].
  destruct Hwf as [Hl Hc Hfl Hfc Hok Ha Hnd Hfo].
  rewrite store_Ret by lia. simpl. left. eexists. split; [done|]. split; [done|].
  assert (Hfree : forall rs n, free_list (PageAllocator.mk rs n
      (<[PageAllocator.freed_count self := p]> (PageAllocator.freed self))
      (S (PageAllocator.freed_count self))) = free_list self ++ [p])
    by (intros; apply take_insert_end; lia).
  split; [split; rewrite ?Hfree; try done|split; [|done]].
  - simpl. by rewrite length_insert.
  - simpl. lia.
  - apply NoDup_app. split_and!; [done| |apply NoDup_singleton].
    intros q Hq ->%list_elem_of_singleton. done.
  - apply Forall_app. split; [done|]. by apply Forall_singleton.
  - intros q. unfold outstanding. rewrite Hfree, not_elem_of_app, list_elem_of_singleton.
    unfold used. simpl. tauto.
Qed.

Lemma granted_owns self self' p owned :
  granted self self' p -> owns self owned -> owns self' (p :: owned).
Proof.
  intros [_ Hnew _ Hout _] [Hnd Hiff]. split.
  - apply NoDup_cons. by rewrite Hiff.
  - intros q. rewrite Hout, <-Hiff, elem_of_cons. tauto.
Qed.

Lemma run_op_owns self owned o :
  allocator_wf self -> owns self owned ->
  exists self' owned', PageOps.run_op self owned o = Ret (self', owned')
    /\ allocator_wf self' /\ owns self' owned'
    /\ (forall q, managed self' q <-> managed self q).
Proof.
  intros Hwf Ho. destruct o as [|upper|page]; simpl.
  - destruct (allocate_page_spec self Hwf) as [(p&self'&->&Hg)|[-> _]]; simpl;
      eauto 10 using granted_wf, granted_owns, granted_same.
  - destruct (allocate_page_below_spec self upper Hwf) as [(p&self'&->&_&Hg)|[-> _]]; simpl;
      eauto 10 using granted_wf, granted_owns, granted_same.
  - destruct (free_page_spec self page Hwf) as [(self'&->&_&Hwf'&Hout&Hm)|[-> _]]; simpl;
      [|by eauto 10].
    eexists _, _. split; [done|]. split; [done|]. split; [|done].
    destruct Ho as [Hnd Hiff]. split; [by apply NoDup_filter|].
    intros q. rewrite list_elem_of_filter, Hout, Hiff. tauto.
Qed.

Lemma run_ops_owns os : forall self owned,
  allocator_wf self -> owns self owned ->
  exists self' owned', PageOps.run_ops self owned os = Ret (self', owned')
    /\ allocator_wf self' /\ owns self' owned'
    /\ (forall q, managed self' q <-> managed self q).
Proof.
  induction os as [|o os IH]; intros self owned Hwf Ho; simpl; [by eauto 10|].
  destruct (run_op_owns self owned o Hwf Ho) as (self1&owned1&->&Hwf1&Ho1&Hm1). simpl.
  destruct (IH self1 owned1 Hwf1 Ho1) as (self2&owned2&->&Hwf2&Ho2&Hm2).
  eexists _, _. split; [done|]. split; [done|]. split; [done|].
  intros q. by rewrite Hm2, Hm1.
Qed.
End allocator.

Section boot.
Context (read_entry : N -> MemoryMapEntry.t) (entry_size : N).
Implicit Types (self : PageAllocator.t) (n : nat).

Lemma built_empty : built read_entry entry_size 0 PageAllocator.empty.
Proof.
  split; try done; [simpl; lia|].
  exists []. split; [constructor|]. split; constructor.
Qed.

Lemma built_weaken n self :
  built read_entry entry_size n self -> built read_entry entry_size (S n) self.
Proof.
  intros [???? (ks&?&Hlt&?)]. split; try done. exists ks. split; [done|]. split; [|done].
  eapply Forall_impl; [exact Hlt|]. simpl. lia.
Qed.

Lemma add_entry_built n self :
  built read_entry entry_size n self ->
  exists result, PageAllocator.add_entry self (read_entry (N.of_nat n * entry_size)) = Ret result
    /\ forall self', result = Ok self' -> built read_entry entry_size (S n) self'.
Proof.
  intros Hb. set (e := read_entry _). unfold PageAllocator.add_entry.
  case_decide as Hc; [eexists; split; [done|]; intros ? [= <-]; by apply built_weaken|].
  case_decide as Hal; [by eexists|].
  unfold u64_checked_mul, u64_checked_add.
  case_decide as Hm; [|by eexists]. case_decide as He; [|by eexists].
  case_decide as Hr; [by eexists|]. undec.
  destruct Hb as [Hl Hcount Hf Hfc (ks&Hnd&Hlt&Hall)].
  rewrite store_Ret by lia. simpl. eexists. split; [done|]. intros ? [= <-].
  split; simpl; try done; [by rewrite length_insert|lia|].
  exists (ks ++ [n]). split; [|split].
  - apply NoDup_app. split_and!; [done| |apply NoDup_singleton].
    intros i Hi ->%list_elem_of_singleton.
    apply (proj1 (Forall_forall _ _) Hlt) in Hi. lia.
  - apply Forall_app. split; [|apply Forall_singleton; lia].
    eapply Forall_impl; [exact Hlt|]. simpl. lia.
  - unfold used. simpl. rewrite take_insert_end by lia.
    apply Forall2_app; [done|]. apply Forall2_cons. split; [|constructor].
    by split_and!.
Qed.

Lemma add_entries_built m : forall n self,
  built read_entry entry_size n self ->
  exists result, PageAllocator.add_entries read_entry entry_size self (seq n m) = Ret result
    /\ forall self', result = Ok self' -> built read_entry entry_size (n + m) self'.
Proof.
  induction m as [|m IH]; intros n self Hb; simpl.
  - eexists. split; [done|]. intros ? [= <-]. by rewrite Nat.add_0_r.
  - unfold u64_checked_mul. case_decide; [|by eexists].
    destruct (add_entry_built n self Hb) as (result&->&Hok). simpl.
    destruct result as [self'|e]; [|by eexists].
    rewrite Nat.add_succ_r. apply (IH (S n)). by apply Hok.
Qed.

Lemma built_range_ok e r : range_of e r -> range_ok r.
Proof.
  intros (_&Ha&Hb&->). unfold entry_end in *. split; simpl; try done; [|lia].
  unfold PAGE_SIZE in *. div_lia.
Qed.

Lemma built_not_outstanding n self p :
  built read_entry entry_size n self -> ~ outstanding self p.
Proof.
  intros [_ _ _ _ (ks&_&_&Hall)] (_&He&_).
  apply Exists_exists in He as (r&[i Hi]%list_elem_of_lookup&[Hs Hn]).
  destruct (Forall2_lookup_r _ _ _ _ _ Hall Hi) as (j&_&_&_&_&->). simpl in *. lia.
Qed.

Lemma built_wf n self :
  built read_entry entry_size n self -> entries_apart read_entry entry_size -> allocator_wf self.
Proof.
  intros Hb Hap. assert (Hout := built_not_outstanding n self).
  destruct Hb as [Hl Hc Hf Hfc (ks&Hnd&Hlt&Hall)].
  assert (Hfree : free_list self = []) by (unfold free_list; by rewrite Hfc).
  split; rewrite ?Hfree, ?Hfc, ?Hf; try done; [lia| | |constructor].
  - apply Forall_lookup. intros i r Hi.
    destruct (Forall2_lookup_r _ _ _ _ _ Hall Hi) as (j&_&Hr). by eapply built_range_ok.
  - intros i j r1 r2 Hi Hj Hne.
    destruct (Forall2_lookup_r _ _ _ _ _ Hall Hi) as (k1&Hk1&Hc1&_&_&->).
    destruct (Forall2_lookup_r _ _ _ _ _ Hall Hj) as (k2&Hk2&Hc2&_&_&->).
    apply (Hap k1 k2); [|done|done]. intros ->. by eapply Hne, NoDup_lookup.
Qed.

End boot.

(** The entries of the boot information's memory map, by offset. *)
Lemma from_boot_info_built read info self :
  PageAllocator.from_boot_info read info = Ret (Ok self) ->
  built (map_entries read info) (MemoryMapInfo.entry_size (BootInfo.memory_map info))
    (N.to_nat (MemoryMapInfo.entry_count (BootInfo.memory_map info))) self.
Proof.
  unfold PageAllocator.from_boot_info. destruct (BootInfo.validate info); [|done].
  case_match; [done|].
  match goal with |- context [PageAllocator.add_entries ?f ?size _ (seq 0 ?n)] =>
    destruct (add_entries_built f size n 0 PageAllocator.empty (built_empty f size))
      as (r&->&Hok) end.
  simpl. destruct r as [self'|e]; [|done].
  destruct (decide (PageAllocator.range_count self' = 0)%nat); [done|].
  intros [= ->]. by apply Hok.
Qed.

(** C19: on a memory map whose usable entries do not overlap, any sequence of
    page allocations and frees runs without a panic, no page is ever held twice,
    and the pages held are exactly those the allocator counts as outstanding. *)
Theorem pages_never_shared read info self os :
  PageAllocator.from_boot_info read info = Ret (Ok self) ->
  entries_apart (map_entries read info) (MemoryMapInfo.entry_size (BootInfo.memory_map info)) ->
  exists self' owned, PageOps.run_ops self [] os = Ret (self', owned)
    /\ NoDup owned /\ (forall p, p ∈ owned <-> outstanding self' p)
    /\ (forall p, p ∈ owned -> managed self p).
Proof.
  intros Hb Hap. apply from_boot_info_built in Hb as Hbuilt.
  assert (Hwf := built_wf _ _ _ _ Hbuilt Hap).
  destruct (run_ops_owns os self []) as (self'&owned&->&Hwf'&[Hnd Hiff]&Hm); [done| |].
  { split; [constructor|]. intros p. split; [by intros ?%not_elem_of_nil|].
    by intros ?%(built_not_outstanding _ _ _ _ _ Hbuilt). }
  eexists _, _. split; [done|]. split; [done|]. split; [done|].
  intros p (Hp&(r&Hr&[Hs Hn])%Exists_exists&_)%Hiff. apply Hm. split; [done|].
  apply Exists_exists. exists r. split; [done|]. split; [done|].
  eapply N.lt_le_trans; [exact Hn|].
  apply (next_end _ (proj1 (Forall_forall _ _) (ranges_ok _ Hwf') _ Hr)).
Qed.

(** An allocator in a valid state refuses a page below a bound only when
    every managed page below it is outstanding; otherwise the page it returns
    lies below the bound, was free, and is the only page that changes hands. *)
Theorem allocation_complete self upper :
  allocator_wf self ->
  exists page self', PageAllocator.allocate_page_below self upper = Ret (page, self')
    /\ match page with
       | Some p => p < upper /\ granted self self' p
       | None => self' = self /\ forall p, managed self p -> p < upper -> outstanding self p
       end.
Proof.
  intros Hwf. destruct (allocate_page_below_spec self upper Hwf) as [(p&self'&->&?&?)|[-> ?]].
  - by exists (Some p), self'.
  - by exists None, self.
Qed.

(** ** Identity mappings *)

Lemma land_pow2_zero e k : N.land e (2 ^ k) = 0 <-> N.testbit e k = false.
Proof.
  split; intros H.
  - assert (Hk : N.testbit (N.land e (2 ^ k)) k = false) by (rewrite H; apply N.bits_0).
    by rewrite N.land_spec, N.pow2_bits_true, andb_true_r in Hk.
  - apply N.bits_inj. intros i. rewrite N.land_spec, N.bits_0.
    destruct (N.eq_dec k i) as [->|Hne]; [by rewrite H|].
    by rewrite N.pow2_bits_false, andb_false_r.
Qed.

(** Masking an entry with the bits from [shift] up to 51 gives its frame. *)
Lemma land_frame e shift :
  N.land e (N.ldiff (N.ones 52) (N.ones shift)) = frame e shift.
Proof.
  unfold frame. rewrite <-N.shiftr_div_pow2, <-N.shiftl_mul_pow2, <-N.ldiff_ones_r, <-N.land_ones.
  apply N.bits_inj. intros i. by rewrite !N.ldiff_spec, !N.land_spec, N.ldiff_spec, andb_assoc.
Qed.

Lemma index_mod va shift : N.land (N.shiftr va shift) 0x1ff = va / 2 ^ shift mod 512.
Proof. change 0x1ff with (N.ones 9). by rewrite N.land_ones, N.shiftr_div_pow2. Qed.

Lemma page_is_identity_mapped_spec read cr3 va :
  page_is_identity_mapped read cr3 va = true <-> translate read cr3 va = Some va.
Proof.
  assert (Hf : forall e, N.land e PAGE_TABLE_ADDRESS_MASK = frame e 12)
    by (intros e; exact (land_frame e 12)).
  assert (H30 : forall e, N.land e 0x000fffffc0000000 = frame e 30)
    by (intros e; exact (land_frame e 30)).
  assert (H21 : forall e, N.land e 0x000fffffffe00000 = frame e 21)
    by (intros e; exact (land_frame e 21)).
  assert (Hp : forall e, bool_decide (N.land e 1 = 0) = negb (N.testbit e 0)).
  { intros e. assert (H := land_pow2_zero e 0). change (2 ^ 0) with 1 in H.
    case_bool_decide; destruct (N.testbit e 0); naive_solver. }
  assert (Hh : forall e, bool_decide (N.land e HUGE_PAGE_FLAG <> 0) = N.testbit e 7).
  { intros e. assert (H := land_pow2_zero e 7). change (2 ^ 7) with HUGE_PAGE_FLAG in H.
    case_bool_decide; destruct (N.testbit e 7); naive_solver. }
  assert (Ho : forall n, N.land va (N.ones n) = va mod 2 ^ n) by (intros; apply N.land_ones).
  assert (O30 := Ho 30). assert (O21 := Ho 21). assert (O12 := Ho 12).
  unfold page_is_identity_mapped, translate, read_page_table_entry.
  change 0x3fffffff with (N.ones 30). change 0x1fffff with (N.ones 21).
  change (PAGE_SIZE - 1) with (N.ones 12).
  rewrite !Hf, H30, H21, O30, O21, O12, !index_mod, !Hp, !Hh. cbn [walk andb orb negb].
  repeat (case_match; try done); by rewrite bool_decide_eq_true, (inj_iff Some).
Qed.

(** *** Addresses of one page translate alike *)

Lemma same_page_div a b shift :
  12 <= shift -> a / PAGE_SIZE = b / PAGE_SIZE -> a / 2 ^ shift = b / 2 ^ shift.
Proof.
  intros Hs Hab. replace (2 ^ shift) with (PAGE_SIZE * 2 ^ (shift - 12)).
  - rewrite <-!N.Div0.div_div. by rewrite Hab.
  - change PAGE_SIZE with (2 ^ 12). rewrite <-N.pow_add_r. f_equal. lia.
Qed.

Lemma frame_offset e a shift :
  frame e shift + a mod 2 ^ shift = a <-> e mod 2 ^ 52 / 2 ^ shift = a / 2 ^ shift.
Proof.
  unfold frame. assert (Ha := N.Div0.div_mod a (2 ^ shift)).
  assert (Hz : 2 ^ shift <> 0) by (apply N.pow_nonzero; lia). split; intros H.
  - apply (N.mul_cancel_r _ _ (2 ^ shift)); [done|]. lia.
  - rewrite H. lia.
Qed.

Lemma walk_same_page read levels a b : forall table,
  Forall (fun level => 12 <= level.1) levels -> a / PAGE_SIZE = b / PAGE_SIZE ->
  walk read levels table a = Some a -> walk read levels table b = Some b.
Proof.
  induction levels as [|[shift pages] levels IH]; intros table Hl Hab; [done|].
  apply Forall_cons in Hl as [Hs Hl]. cbn [fst] in Hs. cbn [walk].
  rewrite <-(same_page_div a b shift) by done.
  set (e := read _). case_match; [done|]. case_match; [|by apply IH].
  rewrite !(inj_iff Some), !frame_offset. by rewrite (same_page_div a b shift).
Qed.

Lemma translate_same_page read cr3 a b :
  a / PAGE_SIZE = b / PAGE_SIZE ->
  translate read cr3 a = Some a -> translate read cr3 b = Some b.
Proof. apply walk_same_page. repeat constructor; simpl; lia. Qed.

Lemma page_of_div a : page_of a = a / PAGE_SIZE * PAGE_SIZE.
Proof.
  unfold page_of. change (PAGE_SIZE - 1) with (N.ones 12).
  by rewrite N.ldiff_ones_r, N.shiftl_mul_pow2, N.shiftr_div_pow2.
Qed.

Lemma identity_loop_S fuel read cr3 page last_page :
  identity_loop (S fuel) read cr3 page last_page =
  (if negb (page_is_identity_mapped read cr3 page) then Some false
   else if decide (page = last_page) then Some true
   else match u64_checked_add page PAGE_SIZE with
        | None => Some false
        | Some page => identity_loop fuel read cr3 page last_page
        end).
Proof. done. Qed.

(** The loop visits every page from [m] to [m + n] and stops. *)
Lemma identity_loop_spec read cr3 n : forall m,
  (m + N.of_nat n) * PAGE_SIZE <= U64_MAX ->
  exists b, identity_loop (S n) read cr3 (m * PAGE_SIZE) ((m + N.of_nat n) * PAGE_SIZE) = Some b
    /\ (b = true <-> forall k, m <= k <= m + N.of_nat n ->
          translate read cr3 (k * PAGE_SIZE) = Some (k * PAGE_SIZE)).
Proof.
  induction n as [|n IH]; intros m Hb.
  all: rewrite identity_loop_S;
    destruct (page_is_identity_mapped read cr3 (m * PAGE_SIZE)) eqn:E; cbn [negb];
    [apply page_is_identity_mapped_spec in E
    |exists false; split; [done|]; split; [done|]; intros H;
     rewrite (proj2 (page_is_identity_mapped_spec _ _ _)) in E; [done|]; apply H; lia].
  - rewrite N.add_0_r, decide_True by done. exists true. split; [done|]. split; [|done].
    intros _ k Hk. by replace k with m by lia.
  - rewrite decide_False by (unfold PAGE_SIZE; lia).
    unfold u64_checked_add. rewrite decide_True by (unfold PAGE_SIZE in *; lia).
    replace (m * PAGE_SIZE + PAGE_SIZE) with ((m + 1) * PAGE_SIZE) by lia.
    replace (m + N.of_nat (S n)) with (m + 1 + N.of_nat n) in * by lia.
    destruct (IH (m + 1)) as (b&->&Hiff); [done|]. exists b. split; [done|]. rewrite Hiff.
    split; intros H k Hk; [|apply H; lia].
    destruct (decide (k = m)) as [->|]; [done|]. apply H. lia.
Qed.

(** The check of a range terminates, and it answers yes exactly when the
    root and the range are acceptable and the page tables translate every byte
    of the range to itself. *)
Theorem identity_mapped_exact read cr3 address length :
  exists b, identity_mapped read cr3 address length = Some b
    /\ (b = true <->
        N.land cr3 (PAGE_SIZE - 1) = 0 /\ cr3 < 2 ^ 52 /\ length <> 0
        /\ address + length <= U64_MAX
        /\ forall a, address <= a < address + length -> translate read cr3 a = Some a).
Proof.
  unfold identity_mapped. case_decide as Hg; [exists false; split; [done|]; naive_solver lia|].
  undec. unfold u64_checked_add. case_decide as Hb; [|exists false; split; [done|]; naive_solver].
  rewrite !page_of_div. set (m := address / PAGE_SIZE). set (l := (address + length - 1) / PAGE_SIZE).
  assert (Hml : m <= l) by (apply N.Div0.div_le_mono; lia).
  assert (Hlu : l * PAGE_SIZE <= U64_MAX) by (unfold l, PAGE_SIZE; div_lia).
  rewrite <-N.mul_sub_distr_r, N.div_mul by done.
  destruct (identity_loop_spec read cr3 (N.to_nat (l - m)) m) as (b&Hloop&Hiff).
  { by replace (m + N.of_nat (N.to_nat (l - m))) with l by lia. }
  replace (m + N.of_nat (N.to_nat (l - m))) with l in * by lia.
  rewrite Hloop. exists b. split; [done|]. rewrite Hiff. split.
  - intros Hall. split; [done|]. split; [lia|]. split; [done|]. split; [done|].
    intros a Ha. apply (translate_same_page _ _ (a / PAGE_SIZE * PAGE_SIZE));
      [by rewrite N.div_mul|].
    apply Hall. split; apply N.Div0.div_le_mono; lia.
  - intros (_&_&_&_&Hall) k Hk.
    destruct (decide (address <= k * PAGE_SIZE)).
    + apply Hall. split; [done|]. unfold l, PAGE_SIZE in *. div_lia.
    + apply (translate_same_page _ _ address); [|apply Hall; lia].
      rewrite N.div_mul by done. unfold m, PAGE_SIZE in *. div_lia.
Qed.

(** ** Page tables as partial maps *)

Section page_table.
Implicit Types (self : PageTable.t) (i j : nat).

Lemma raw_entry_insert self i j raw old :
  PageTable.entries self !! i = Some old ->
  PageTable.raw_entry (PageTable.mk (<[i := raw]> (PageTable.entries self))) j =
  if decide (i = j) then (if decide (raw <> 0) then Some raw else None)
  else PageTable.raw_entry self j.
Proof.
  intros Hi. unfold PageTable.raw_entry. simpl. case_decide as Hij.
  - subst j. by rewrite list_lookup_insert_eq by (by eapply lookup_lt_Some).
  - by rewrite list_lookup_insert_ne.
Qed.

Lemma raw_entry_lookup self i e :
  PageTable.entries self !! i = Some e -> e <> 0 <-> PageTable.raw_entry self i = Some e.
Proof. intros Hi. unfold PageTable.raw_entry. rewrite Hi. case_decide; naive_solver. Qed.

Lemma entry_raw self i :
  PageTable.entry self i = PageTableEntry.mk <$> PageTable.raw_entry self i.
Proof. unfold PageTable.entry, PageTable.raw_entry. by repeat case_match. Qed.

Lemma raw_entry_same self i j :
  PageTable.raw_entry self j =
  if decide (i = j) then PageTable.raw_entry self i else PageTable.raw_entry self j.
Proof. case_decide; congruence. Qed.

Lemma replace_empty_spec self i raw :
  length (PageTable.entries self) = PAGE_TABLE_ENTRIES ->
  let '(ok, self') := PageTable.replace_empty self i raw in
  (ok = true <-> (i < PAGE_TABLE_ENTRIES)%nat /\ raw <> 0 /\ PageTable.raw_entry self i = None)
  /\ sets self self' i (if ok then Some raw else PageTable.raw_entry self i).
Proof.
  intros Hlen. unfold PageTable.replace_empty, sets.
  destruct (PageTable.entries self !! i) as [e|] eqn:Hi.
  - assert (Hlt := lookup_lt_Some _ _ _ Hi). rewrite Hlen in Hlt.
    assert (Hget := raw_entry_lookup self i e Hi).
    case_decide as Hg; (split; [|intros j]).
    + split; [done|]. intros (_&Hr&Hn). rewrite Hn in Hget. naive_solver.
    + apply raw_entry_same.
    + undec. unfold PageTable.raw_entry. rewrite Hi, decide_False by tauto. naive_solver.
    + rewrite (raw_entry_insert _ _ _ _ _ Hi). undec. by rewrite (decide_True (P := raw <> 0)) by tauto.
  - apply lookup_ge_None in Hi. split; [|intros j; apply raw_entry_same].
    split; [done|]. intros [? _]. lia.
Qed.

Lemma replace_spec self i raw :
  let '(ok, self') := PageTable.replace self i raw in
  (ok = true <-> raw <> 0 /\ PageTable.raw_entry self i <> None)
  /\ sets self self' i (if ok then Some raw else PageTable.raw_entry self i).
Proof.
  unfold PageTable.replace, sets.
  destruct (PageTable.entries self !! i) as [e|] eqn:Hi.
  - assert (Hget : PageTable.raw_entry self i = if decide (e <> 0) then Some e else None)
      by (unfold PageTable.raw_entry; by rewrite Hi).
    destruct (decide (raw = 0 \/ e = 0)) as [Hg|Hg]; (split; [|intros j]).
    + rewrite Hget. destruct (decide (e <> 0)); naive_solver.
    + apply raw_entry_same.
    + rewrite Hget. destruct (decide (e <> 0)); naive_solver.
    + rewrite (raw_entry_insert _ _ _ _ _ Hi). by rewrite (decide_True (P := raw <> 0)) by tauto.
  - unfold PageTable.raw_entry at 1. rewrite Hi. split; [naive_solver|].
    intros j. apply raw_entry_same.
Qed.

Lemma unmap_spec self i :
  let '(removed, self') := PageTable.unmap self i in
  removed = PageTable.entry self i /\ sets self self' i None.
Proof.
  rewrite entry_raw. unfold PageTable.unmap, sets.
  assert (Hget : PageTable.raw_entry self i = PageTable.raw_entry self i) by done.
  unfold PageTable.raw_entry in Hget at 2.
  destruct (PageTable.entries self !! i) as [e|] eqn:Hi.
  - destruct (decide (e = 0)) as [Hg|Hg]; (split; [|intros j]).
    + rewrite Hget. by rewrite decide_False by tauto.
    + rewrite decide_False in Hget by tauto. rewrite <-Hget. apply raw_entry_same.
    + rewrite Hget. by rewrite decide_True.
    + by rewrite (raw_entry_insert _ _ _ _ _ Hi).
  - rewrite Hget. split; [done|]. intros j. rewrite <-Hget. apply raw_entry_same.
Qed.

(** A page table is a partial map from its 512 indices: mapping fills only
    an empty entry, replacing changes only a present one, unmapping returns the
    entry it removes, clearing empties all of them, and no other operation
    touches a second index. *)
Theorem page_table_is_map self i raw :
  length (PageTable.entries self) = PAGE_TABLE_ENTRIES ->
  (let '(ok, self') := PageTable.map self i (PageTableEntry.mk raw) in
   (ok = true <-> (i < PAGE_TABLE_ENTRIES)%nat /\ raw <> 0 /\ PageTable.raw_entry self i = None)
   /\ sets self self' i (if ok then Some raw else PageTable.raw_entry self i))
  /\ (let '(ok, self') := PageTable.replace self i raw in
      (ok = true <-> raw <> 0 /\ PageTable.raw_entry self i <> None)
      /\ sets self self' i (if ok then Some raw else PageTable.raw_entry self i))
  /\ (let '(removed, self') := PageTable.unmap self i in
      removed = PageTable.entry self i /\ sets self self' i None)
  /\ (forall j, PageTable.raw_entry (PageTable.clear self) j = None).
Proof.
  intros Hlen. split; [by apply replace_empty_spec|]. split; [apply replace_spec|].
  split; [apply unmap_spec|]. intros j. unfold PageTable.raw_entry, PageTable.clear. simpl.
  rewrite list_lookup_fmap. by destruct (_ !! j).
Qed.
End page_table.

(** ** The heap *)

Section heap.
Implicit Types (self : KernelHeap.t) (b : block).

Lemma power_of_two_log n : is_power_of_two n = true -> n = 2 ^ N.log2 n.
Proof. unfold is_power_of_two. intros [_ H%bool_decide_eq_true]%andb_prop. done. Qed.

Lemma align_up n k :
  let aligned := N.ldiff (n + (2 ^ k - 1)) (2 ^ k - 1) in
  n <= aligned /\ aligned mod 2 ^ k = 0 /\ (forall m, n <= m -> m mod 2 ^ k = 0 -> aligned <= m).
Proof.
  assert (Hz : 2 ^ k <> 0) by (apply N.pow_nonzero; lia).
  replace (2 ^ k - 1) with (N.ones k) by (rewrite N.ones_equiv; lia).
  cbv zeta. rewrite N.ldiff_ones_r, N.shiftl_mul_pow2, N.shiftr_div_pow2, N.ones_equiv.
  generalize dependent (2 ^ k). intros d Hd. rewrite <-N.sub_1_r.
  assert (Hdm := N.Div0.div_mod (n + (d - 1)) d). assert (Hlt := N.mod_lt (n + (d - 1)) d Hd).
  split; [lia|]. split; [apply N.Div0.mod_mul|].
  intros m Hm Hmod. apply N.Div0.div_exact in Hmod. revert Hmod Hdm Hlt.
  generalize (m / d), ((n + (d - 1)) / d), ((n + (d - 1)) mod d). intros c q s -> Hdm Hlt.
  destruct (decide (q <= c)); nia.
Qed.

Lemma heap_allocate_spec self size alignment :
  KernelHeap.next self <= KernelHeap.end_ self ->
  let '(address, self') := KernelHeap.allocate self size alignment in
  KernelHeap.next self <= KernelHeap.next self' <= KernelHeap.end_ self
  /\ KernelHeap.end_ self' = KernelHeap.end_ self
  /\ match address with
     | None => self' = self
     | Some a => size <> 0 /\ KernelHeap.next self <= a /\ a mod alignment = 0
                 /\ KernelHeap.next self' = a + size
     end.
Proof.
  intros Hle. unfold KernelHeap.allocate.
  destruct (bool_decide _ || _) eqn:Hg; [split_and!; done || lia|].
  apply orb_false_elim in Hg as [Hsz%bool_decide_eq_false Hp%negb_false_iff].
  apply power_of_two_log in Hp.
  unfold u64_checked_add. case_decide; [|split_and!; done || lia].
  case_decide; [|split_and!; done || lia].
  case_decide; [split_and!; done || lia|].
  destruct (align_up (KernelHeap.next self) (N.log2 alignment)) as (Hge&Hmod&_).
  rewrite <-Hp in Hge, Hmod. simpl.
  split_and!; try done; lia.
Qed.

Lemma allocate_all_laid_out requests : forall self,
  KernelHeap.next self <= KernelHeap.end_ self ->
  laid_out (KernelHeap.next self) (KernelHeap.end_ self) (allocate_all self requests).1.
Proof.
  induction requests as [|[size alignment] requests IH]; intros self Hle; simpl; [done|].
  assert (Hspec := heap_allocate_spec self size alignment Hle).
  destruct (KernelHeap.allocate self size alignment) as [address self'].
  destruct Hspec as (Hnext&Hend&Ha). specialize (IH self'). rewrite Hend in IH.
  destruct (allocate_all self' requests) as [blocks self'']. simpl in *.
  destruct address as [a|]; [|subst; by apply IH].
  destruct Ha as (?&?&?&Hn). simpl. rewrite <-Hn. split_and!; try done. apply IH. lia.
Qed.

(** Laid-out blocks are in bounds, aligned and pairwise disjoint. *)
Lemma laid_out_block bs : forall low high i b,
  laid_out low high bs -> bs !! i = Some b ->
  low <= block_address b /\ block_address b + block_size b <= high
  /\ block_address b mod block_alignment b = 0
  /\ forall j b', (i < j)%nat -> bs !! j = Some b' ->
       block_address b + block_size b <= block_address b'.
Proof.
  induction bs as [|b0 bs IH]; intros low high i b Hl Hi; [done|].
  destruct Hl as (Hlow&Hmod&Hsz&Hl).
  assert (Hle : block_address b0 + block_size b0 <= high).
  { destruct bs as [|b1 bs]; [done|]. destruct (IH _ _ 0%nat b1 Hl eq_refl) as (?&?&_). lia. }
  destruct i as [|i]; simplify_eq/=.
  - split_and!; try done. intros [|j] b' Hj Hb; [lia|].
    by destruct (IH _ _ j b' Hl Hb) as (?&_).
  - destruct (IH _ _ i b Hl Hi) as (?&?&?&Hd). split_and!; try done; [lia|].
    intros [|j] b' Hj Hb; [lia|]. apply (Hd j); [lia|done].
Qed.

(** The blocks a fresh heap hands out lie inside it, have the alignment
    asked for, and never overlap, whatever sizes and alignments are requested. *)
Theorem heap_blocks_disjoint start size self requests i b :
  KernelHeap.new start size = Some self ->
  (allocate_all self requests).1 !! i = Some b ->
  start <= block_address b /\ block_address b + block_size b <= start + size
  /\ block_address b mod block_alignment b = 0
  /\ forall j b', i <> j -> (allocate_all self requests).1 !! j = Some b' ->
       block_address b + block_size b <= block_address b'
       \/ block_address b' + block_size b' <= block_address b.
Proof.
  unfold KernelHeap.new, u64_checked_add. intros Hnew Hi.
  case_match; [done|]. case_decide; [|done]. case_decide; [|done]. simplify_eq/=.
  assert (Hl := allocate_all_laid_out requests (KernelHeap.mk start start (start + size))).
  simpl in Hl. specialize (Hl ltac:(lia)).
  destruct (laid_out_block _ _ _ _ _ Hl Hi) as (?&?&?&Hd). split_and!; try done.
  intros j b' Hne Hj. destruct (laid_out_block _ _ _ _ _ Hl Hj) as (_&_&_&Hd').
  destruct (decide (i < j)%nat); [left; by apply (Hd j)|right; apply (Hd' i); [lia|done]].
Qed.
End heap.

(** ** Concrete runs *)

Module MemoryExample.
(** Two usable regions with a reserved one between them. *)
Definition read (address : N) : MemoryMapEntry.t :=
  if decide (address = 0x8000) then MemoryMapEntry.mk 7 0x1000 0 2 0
  else if decide (address = 0x8030) then MemoryMapEntry.mk 7 0x10000 0 1 0
  else MemoryMapEntry.mk 0 0x5000 0 4 0.

Definition info : BootInfo.t :=
  BootInfo.mk BOOT_INFO_MAGIC BOOT_INFO_VERSION BootInfo.SIZE (MemoryMapInfo.mk 0x8000 3 48 1)
    (FramebufferInfo.mk 0xc0000000 0x300000 1024 768 1024 1) 0x9000 (InitImageInfo.mk 0 0)
    REALTIME_UNAVAILABLE_NS (BootControlInfo.mk 0 0 0 0 0 (replicate 5 0)).

Definition machine : PageAllocator.t :=
  match PageAllocator.from_boot_info read info with
  | Ret (Ok self) => self
  | _ => PageAllocator.empty
  end.

Definition script : list PageOps.op :=
  [PageOps.Allocate; PageOps.Allocate; PageOps.Free 0x1000; PageOps.AllocateBelow 0x3000;
   PageOps.Allocate; PageOps.Free 0x7000; PageOps.Allocate].

Lemma machine_boots : PageAllocator.from_boot_info read info = Ret (Ok machine).
Proof. vm_compute. reflexivity. Qed.

Lemma machine_apart : entries_apart (map_entries read info) 48.
Proof.
  intros i j Hne. unfold map_entries, read, conventional, entry_end.
  cbn [info BootInfo.memory_map MemoryMapInfo.address].
  repeat case_decide; simpl; unfold CONVENTIONAL_MEMORY_TYPE, PAGE_SIZE; intros; lia.
Qed.

Lemma machine_wf : allocator_wf machine.
Proof.
  eapply built_wf; [|exact machine_apart].
  eapply from_boot_info_built. exact machine_boots.
Qed.

Lemma pages_never_shared_witness :
  exists self' owned, PageOps.run_ops machine [] script = Ret (self', owned)
    /\ NoDup owned /\ owned = [0x10000; 0x1000; 0x2000].
Proof.
  destruct (pages_never_shared read info machine script machine_boots machine_apart)
    as (self'&owned&Hrun&Hnd&_).
  exists self', owned. split; [exact Hrun|]. split; [exact Hnd|].
  vm_compute in Hrun. by simplify_eq.
Defined.

Lemma allocation_complete_witness :
  exists page self', PageAllocator.allocate_page_below machine 0x1000 = Ret (page, self')
    /\ page = None.
Proof.
  destruct (allocation_complete machine 0x1000 machine_wf) as (page&self'&Hrun&_).
  exists page, self'. split; [exact Hrun|]. vm_compute in Hrun. by simplify_eq.
Defined.

Lemma page_table_is_map_witness :
  length (PageTable.entries PageTable.empty) = PAGE_TABLE_ENTRIES
  /\ (let '(ok, self') := PageTable.map PageTable.empty 3 (PageTableEntry.mk 0x1003) in
      ok = true /\ PageTable.raw_entry self' 3 = Some 0x1003).
Proof.
  assert (Hlen : length (PageTable.entries PageTable.empty) = PAGE_TABLE_ENTRIES) by reflexivity.
  split; [exact Hlen|]. pose proof (page_table_is_map PageTable.empty 3 0x1003 Hlen) as [H _].
  vm_compute. by split.
Defined.

Definition heap : KernelHeap.t := KernelHeap.mk 0x1000 0x1000 0x2000.

Lemma heap_blocks_disjoint_witness :
  block_address (Block 0x1040 24 64) mod 64 = 0 /\ 0x1040 + 24 <= 0x1000 + 0x1000.
Proof.
  pose proof (heap_blocks_disjoint 0x1000 0x1000 heap [(10, 8); (24, 64); (0x2000, 1)] 1
    (Block 0x1040 24 64) eq_refl) as H.
  destruct H as (_&Hb&Ha&_); [vm_compute; reflexivity|]. by split.
Defined.
End MemoryExample.
