(* ===== verification/AbJournal.v ===== *)
(** * The A/B boot journal (loader/src/ab.rs, loader/src/ab/uefi_store.rs)

    Two checksummed copies of the boot-control state in a persistent store.
    The store is an interface, as in the source: [BootControlStore] has its
    operations and [StoreLaws] what its documentation promises, writes that are
    interrupted half way included. The journal is verified against the
    interface; the firmware-variable adapter and an in-memory disk implement it. *)

From stdpp Require Import prelude strings.
From S2P Require Import Prelude.
From S2P Require Import BootContract.

Local Open Scope N_scope.
Local Open Scope nagi_scope.

Definition MAX_BOOT_ATTEMPTS : N := 3.
Definition RECORD_SIZE : nat := 32.
Definition RECORD_MAGIC : list N := [78; 65; 66; 83].
Definition RECORD_VERSION : N := 1.
Definition NO_PENDING_SLOT : N := 0xff.
Definition CHECKSUM_OFFSET : nat := 28.

Module SystemSlot.
Inductive t := A | B.

#[global] Instance eq_dec : EqDecision t.
Proof. solve_decision. Defined.

(** [self as u8] *)
Definition code (self : t) : N := match self with A => 0 | B => 1 end.

Definition other (self : t) : t := match self with A => B | B => A end.

Definition from_code (code : N) : option t :=
  match code with
  | 0 => Some A
  | 1 => Some B
  | _ => None
  end.
End SystemSlot.

Module BootControlState.
Record t := mk {
  confirmed : SystemSlot.t;
  pending : option SystemSlot.t;
  attempts : N;
  generation : N
}.

#[global] Instance eq_dec : EqDecision t.
Proof. solve_decision. Defined.

Definition initial : t := mk SystemSlot.A None 0 0.
End BootControlState.

Module BootDecision.
Record t := mk { slot : SystemSlot.t; trial_attempt : N; rolled_back : bool }.
End BootDecision.

Module StoreError.
Inductive t := Io.
End StoreError.

Module BootControlError.
Inductive t :=
  | Storage (e : StoreError.t)
  | CorruptRecords
  | UpdateAlreadyPending
  | CannotUpdateConfirmedSlot
  | UnexpectedBootSuccess
  | GenerationExhausted.
End BootControlError.

Module RecordCopy.
Inductive t := First | Second.

#[global] Instance eq_dec : EqDecision t.
Proof. solve_decision. Defined.

Definition index (self : t) : nat := match self with First => 0 | Second => 1 end.

Definition other (self : t) : t := match self with First => Second | Second => First end.
End RecordCopy.

Module CurrentState.
Record t := mk { state : BootControlState.t; copy : option RecordCopy.t }.
End CurrentState.

(** ** Records *)

Definition validate_state (state : BootControlState.t) : option unit :=
  if decide (MAX_BOOT_ATTEMPTS < BootControlState.attempts state
             \/ BootControlState.pending state = Some (BootControlState.confirmed state)
             \/ (BootControlState.pending state = None /\ BootControlState.attempts state <> 0))
  then None else Some tt.

(** The same code as [BootContract.crc32]. *)
Definition journal_crc32 (bytes : list N) : N := crc32 bytes.

Definition encode_record (state : BootControlState.t) : option (list N) :=
  match validate_state state with
  | None => None
  | Some _ =>
      let bytes := replicate RECORD_SIZE 0 in
      let bytes := put 0 RECORD_MAGIC bytes in
      let bytes := put 4 [RECORD_VERSION] bytes in
      let bytes := put 5 [SystemSlot.code (BootControlState.confirmed state)] bytes in
      let bytes := put 6 [from_option SystemSlot.code NO_PENDING_SLOT
                            (BootControlState.pending state)] bytes in
      let bytes := put 7 [BootControlState.attempts state] bytes in
      let bytes := put 8 [MAX_BOOT_ATTEMPTS] bytes in
      let bytes := put 10 (to_le_bytes 8 (BootControlState.generation state)) bytes in
      let checksum := journal_crc32 (sub_bytes bytes 0 CHECKSUM_OFFSET) in
      Some (put CHECKSUM_OFFSET (to_le_bytes 4 checksum) bytes)
  end.

Definition decode_pending (code : N) : option (option SystemSlot.t) :=
  if decide (code = NO_PENDING_SLOT) then Some None else Some <$> SystemSlot.from_code code.

(** [bytes] is a [[u8; RECORD_SIZE]]. *)
Definition decode_record (bytes : list N) : option BootControlState.t :=
  if decide (sub_bytes bytes 0 4 <> RECORD_MAGIC
             \/ byte_at bytes 4 <> RECORD_VERSION
             \/ byte_at bytes 8 <> MAX_BOOT_ATTEMPTS
             \/ byte_at bytes 9 <> 0
             \/ Exists (fun byte => byte <> 0) (sub_bytes bytes 18 10))
  then None
  else
    let expected := from_le_bytes (sub_bytes bytes CHECKSUM_OFFSET 4) in
    if decide (journal_crc32 (sub_bytes bytes 0 CHECKSUM_OFFSET) <> expected) then None
    else
      match SystemSlot.from_code (byte_at bytes 5) with
      | None => None
      | Some confirmed =>
          match decode_pending (byte_at bytes 6) with
          | None => None
          | Some pending =>
              let state := BootControlState.mk confirmed pending (byte_at bytes 7)
                             (from_le_bytes (sub_bytes bytes 10 8)) in
              (fun _ => state) <$> validate_state state
          end
      end.

(** ** The store *)

(** Reading fills the buffer it is given and returns the length stored. *)
Class BootControlStore (St : Type) := {
  read_record : St -> nat -> list N -> Result (option nat) StoreError.t * list N * St;
  write_record : St -> nat -> list N -> Result unit StoreError.t * St;
  flush : St -> Result unit StoreError.t * St
}.

(** The state a copy holds, if it is a whole valid record. *)
Definition readable (content : option (list N)) : option BootControlState.t :=
  match content with
  | Some bytes => if decide (length bytes = RECORD_SIZE) then decode_record bytes else None
  | None => None
  end.

(** What a copy may hold after an interrupted write: the old content, the new
    record, or something that is no valid record. *)
Definition interrupted (old : option (list N)) (record : list N) (new : option (list N)) : Prop :=
  new = old \/ new = Some record \/ readable new = None.

(** Only a [faulty] store fails, and a store does not become faulty by being
    used. *)
Class StoreLaws (St : Type) `{BootControlStore St} := {
  contents : St -> RecordCopy.t -> option (list N);
  faulty : St -> Prop;
  read_law : forall s c,
    let '(result, output, s') := read_record s (RecordCopy.index c) (replicate RECORD_SIZE 0) in
    (forall c', contents s' c' = contents s c') /\ (faulty s' -> faulty s)
    /\ ((result = Err StoreError.Io /\ faulty s)
        \/ (result = Ok (length <$> contents s c)
            /\ forall bytes, contents s c = Some bytes -> length bytes = RECORD_SIZE ->
                 output = bytes));
  write_law : forall s c record, length record = RECORD_SIZE ->
    let '(result, s') := write_record s (RecordCopy.index c) record in
    contents s' (RecordCopy.other c) = contents s (RecordCopy.other c) /\ (faulty s' -> faulty s)
    /\ match result with
       | Ok _ => contents s' c = Some record
       | Err _ => faulty s /\ interrupted (contents s c) record (contents s' c)
       end;
  flush_law : forall s, let '(result, s') := flush s in
    (forall c, contents s' c = contents s c) /\ (faulty s' -> faulty s) /\ (result = Ok tt \/ faulty s)
}.

(** ** The journal *)

Module BootControlJournal.
Section journal.
Context {St : Type} `{BootControlStore St}.

(** One turn of the loop of [current]: is the copy present, and what it decodes to. *)
Definition read_copy (store : St) (copy : nat)
  : Result (bool * option BootControlState.t) BootControlError.t * St :=
  let '(length, bytes, store) := read_record store copy (replicate RECORD_SIZE 0) in
  match length with
  | Err e => (Err (BootControlError.Storage e), store)
  | Ok None => (Ok (false, None), store)
  | Ok (Some length) =>
      (Ok (true, if decide (length = RECORD_SIZE) then decode_record bytes else None), store)
  end.

(** The choice between the two copies at the end of [current]. *)
Definition select (present1 present2 : bool) (first second : option BootControlState.t)
  : Result CurrentState.t BootControlError.t :=
  match first, second with
  | None, None =>
      if negb present1 && negb present2
      then Ok (CurrentState.mk BootControlState.initial None)
      else Err BootControlError.CorruptRecords
  | Some valid, None => Ok (CurrentState.mk valid (Some RecordCopy.First))
  | None, Some valid => Ok (CurrentState.mk valid (Some RecordCopy.Second))
  | Some first, Some second =>
      if decide (BootControlState.generation first = BootControlState.generation second) then
        if decide (first <> second) then Err BootControlError.CorruptRecords
        else Ok (CurrentState.mk first (Some RecordCopy.First))
      else if decide (BootControlState.generation second < BootControlState.generation first)
      then Ok (CurrentState.mk first (Some RecordCopy.First))
      else Ok (CurrentState.mk second (Some RecordCopy.Second))
  end.

Definition current (store : St) : Result CurrentState.t BootControlError.t * St :=
  let '(first, store) := read_copy store 0 in
  match first with
  | Err e => (Err e, store)
  | Ok (present1, decoded1) =>
      let '(second, store) := read_copy store 1 in
      match second with
      | Err e => (Err e, store)
      | Ok (present2, decoded2) => (select present1 present2 decoded1 decoded2, store)
      end
  end.

Definition persist (store : St) (current : CurrentState.t) (next : BootControlState.t)
  : Result unit BootControlError.t * St :=
  match u64_checked_add (BootControlState.generation (CurrentState.state current)) 1 with
  | None => (Err BootControlError.GenerationExhausted, store)
  | Some generation =>
      let next := BootControlState.mk (BootControlState.confirmed next)
                    (BootControlState.pending next) (BootControlState.attempts next) generation in
      match validate_state next with
      | None => (Err BootControlError.CorruptRecords, store)
      | Some _ =>
          let destination :=
            from_option RecordCopy.other RecordCopy.First (CurrentState.copy current) in
          match encode_record next with
          | None => (Err BootControlError.CorruptRecords, store)
          | Some record =>
              let '(written, store) := write_record store (RecordCopy.index destination) record in
              match written with
              | Err e => (Err (BootControlError.Storage e), store)
              | Ok _ =>
                  let '(flushed, store) := flush store in
                  match flushed with
                  | Err e => (Err (BootControlError.Storage e), store)
                  | Ok _ => (Ok tt, store)
                  end
              end
          end
      end
  end.

Definition load (store : St) : Result BootControlState.t BootControlError.t * St :=
  let '(current, store) := current store in
  match current with
  | Err e => (Err e, store)
  | Ok current => (Ok (CurrentState.state current), store)
  end.

Definition stage_update (store : St) (slot : SystemSlot.t) : Result unit BootControlError.t * St :=
  let '(loaded, store) := current store in
  match loaded with
  | Err e => (Err e, store)
  | Ok loaded =>
      let state := CurrentState.state loaded in
      if decide (BootControlState.pending state <> None)
      then (Err BootControlError.UpdateAlreadyPending, store)
      else if decide (slot = BootControlState.confirmed state)
      then (Err BootControlError.CannotUpdateConfirmedSlot, store)
      else
        let '(baseline, store) :=
          match CurrentState.copy loaded with
          | None =>
              let '(persisted, store) := persist store loaded state in
              match persisted with
              | Err e => (Err e, store)
              | Ok _ => current store
              end
          | Some _ => (Ok loaded, store)
          end in
        match baseline with
        | Err e => (Err e, store)
        | Ok loaded =>
            let state := CurrentState.state loaded in
            persist store loaded
              (BootControlState.mk (BootControlState.confirmed state) (Some slot) 0
                 (BootControlState.generation state))
        end
  end.

Definition begin_boot (store : St) : Result BootDecision.t BootControlError.t * St :=
  let '(loaded, store) := current store in
  match loaded with
  | Err e => (Err e, store)
  | Ok loaded =>
      let state := CurrentState.state loaded in
      let confirmed := BootControlState.confirmed state in
      match BootControlState.pending state with
      | None => (Ok (BootDecision.mk confirmed 0 false), store)
      | Some pending =>
          if decide (MAX_BOOT_ATTEMPTS <= BootControlState.attempts state) then
            let next := BootControlState.mk confirmed None 0 (BootControlState.generation state) in
            let '(persisted, store) := persist store loaded next in
            match persisted with
            | Err e => (Err e, store)
            | Ok _ => (Ok (BootDecision.mk confirmed 0 true), store)
            end
          else
            let attempt := BootControlState.attempts state + 1 in
            let next := BootControlState.mk confirmed (Some pending) attempt
                          (BootControlState.generation state) in
            let '(persisted, store) := persist store loaded next in
            match persisted with
            | Err e => (Err e, store)
            | Ok _ => (Ok (BootDecision.mk pending attempt false), store)
            end
      end
  end.

Definition mark_boot_success (store : St) (slot : SystemSlot.t)
  : Result unit BootControlError.t * St :=
  let '(loaded, store) := current store in
  match loaded with
  | Err e => (Err e, store)
  | Ok loaded =>
      let state := CurrentState.state loaded in
      match BootControlState.pending state with
      | Some pending =>
          if decide (pending = slot) then
            persist store loaded
              (BootControlState.mk pending None 0 (BootControlState.generation state))
          else (Err BootControlError.UnexpectedBootSuccess, store)
      | None =>
          if decide (BootControlState.confirmed state = slot) then (Ok tt, store)
          else (Err BootControlError.UnexpectedBootSuccess, store)
      end
  end.
End journal.
End BootControlJournal.

(** ** Firmware variables as a store *)

(** UEFI's variable services, for the loader's vendor identifier. *)
Class UefiRuntime (F : Type) := {
  variable_exists : F -> string -> Result bool unit;
  get_variable : F -> string -> list N -> Result (nat * N) unit * list N;
  set_variable : F -> string -> N -> list N -> Result unit unit * F
}.

(** Their documented behaviour: a variable has attributes and data, a read
    copies the data to the start of a buffer it fits, and a write that fails
    leaves every variable as it was. Only a [refusing] firmware fails a call for
    another reason, and it does not become so by being used. *)
Class UefiLaws (F : Type) `{UefiRuntime F} := {
  variables : F -> string -> option (N * list N);
  refusing : F -> Prop;
  exists_law : forall f name,
    match variable_exists f name with
    | Ok present => present = bool_decide (is_Some (variables f name))
    | Err _ => refusing f
    end;
  get_law : forall f name buffer,
    let '(result, output) := get_variable f name buffer in
    match result with
    | Ok (size, attributes) => exists data,
        variables f name = Some (attributes, data) /\ size = length data
        /\ (length data <= length buffer)%nat /\ output = data ++ drop (length data) buffer
    | Err _ => refusing f
        \/ forall attributes data, variables f name = Some (attributes, data) -> (length buffer < length data)%nat
    end;
  set_law : forall f name attributes data,
    let '(result, f') := set_variable f name attributes data in
    (refusing f' -> refusing f) /\ (result = Ok tt \/ refusing f)
    /\ forall name', variables f' name' =
         if decide (name' = name /\ result = Ok tt) then Some (attributes, data)
         else variables f name'
}.

Module UefiVariableBootControlStore.
Section uefi.
Context {F : Type} `{UefiRuntime F}.

Definition REQUIRED_ATTRIBUTES : N := N.lor (N.lor 1 2) 4.

Definition name (copy : nat) : Result string StoreError.t :=
  match copy with
  | 0%nat => Ok "NagiBootControl0"%string
  | 1%nat => Ok "NagiBootControl1"%string
  | _ => Err StoreError.Io
  end.

Definition read_record (self : F) (copy : nat) (output : list N)
  : Result (option nat) StoreError.t * list N * F :=
  match name copy with
  | Err e => (Err e, output, self)
  | Ok name =>
      match variable_exists self name with
      | Err _ => (Err StoreError.Io, output, self)
      | Ok false => (Ok None, output, self)
      | Ok true =>
          let '(result, output) := get_variable self name output in
          match result with
          | Err _ => (Err StoreError.Io, output, self)
          | Ok (size, attributes) =>
              if decide (N.land attributes REQUIRED_ATTRIBUTES <> REQUIRED_ATTRIBUTES)
              then (Err StoreError.Io, output, self)
              else (Ok (Some size), output, self)
          end
      end
  end.

Definition write_record (self : F) (copy : nat) (record : list N)
  : Result unit StoreError.t * F :=
  match name copy with
  | Err e => (Err e, self)
  | Ok name =>
      let '(result, self) := set_variable self name REQUIRED_ATTRIBUTES record in
      (match result with Ok _ => Ok tt | Err _ => Err StoreError.Io end, self)
  end.

Definition flush (self : F) : Result unit StoreError.t * F := (Ok tt, self).

#[global] Instance store : BootControlStore F := {
  AbJournal.read_record := read_record;
  AbJournal.write_record := write_record;
  AbJournal.flush := flush
}.
End uefi.
End UefiVariableBootControlStore.

(** The variable of a copy. *)
Definition variable_name (c : RecordCopy.t) : string :=
  match c with
  | RecordCopy.First => "NagiBootControl0"
  | RecordCopy.Second => "NagiBootControl1"
  end.

(** ** A disk whose interrupted write leaves a prefix of the record *)

Module Disk.
Record t := mk {
  first : option (list N);
  second : option (list N);
  fail_next_write_after : option nat
}.

Definition get (self : t) (copy : nat) : option (list N) :=
  match copy with 0%nat => first self | _ => second self end.

Definition set (self : t) (copy : nat) (content : list N) : t :=
  match copy with
  | 0%nat => mk (Some content) (second self) None
  | _ => mk (first self) (Some content) None
  end.

Definition write (self : t) (copy : nat) (record : list N) : Result unit StoreError.t * t :=
  match fail_next_write_after self with
  | Some prefix =>
      (Err StoreError.Io,
       if decide (length record = RECORD_SIZE) then set self copy (take prefix record) else self)
  | None => (Ok tt, set self copy record)
  end.

#[global] Instance store : BootControlStore t := {
  read_record self copy output :=
    (Ok (length <$> get self copy), default output (get self copy), self);
  write_record := write;
  flush self := (Ok tt, self)
}.
End Disk.

(** ** What the journal promises *)

Module JournalSpec.
Inductive op := Stage (slot : SystemSlot.t) | Begin | Success (slot : SystemSlot.t).
Inductive answer := Done | Decided (d : BootDecision.t).

(** A change of state takes the next generation number. *)
Definition advance (state : BootControlState.t) (confirmed : SystemSlot.t)
  (pending : option SystemSlot.t) (attempts : N) (a : answer)
  : Result (BootControlState.t * answer) BootControlError.t :=
  if decide (BootControlState.generation state < U64_MAX)
  then Ok (BootControlState.mk confirmed pending attempts (BootControlState.generation state + 1), a)
  else Err BootControlError.GenerationExhausted.

Definition spec (state : BootControlState.t) (o : op)
  : Result (BootControlState.t * answer) BootControlError.t :=
  let confirmed := BootControlState.confirmed state in
  match o, BootControlState.pending state with
  | Stage slot, Some _ => Err BootControlError.UpdateAlreadyPending
  | Stage slot, None =>
      if decide (slot = confirmed) then Err BootControlError.CannotUpdateConfirmedSlot
      else advance state confirmed (Some slot) 0 Done
  | Begin, None => Ok (state, Decided (BootDecision.mk confirmed 0 false))
  | Begin, Some pending =>
      if decide (MAX_BOOT_ATTEMPTS <= BootControlState.attempts state)
      then advance state confirmed None 0 (Decided (BootDecision.mk confirmed 0 true))
      else advance state confirmed (Some pending) (BootControlState.attempts state + 1)
             (Decided (BootDecision.mk pending (BootControlState.attempts state + 1) false))
  | Success slot, Some pending =>
      if decide (pending = slot) then advance state pending None 0 Done
      else Err BootControlError.UnexpectedBootSuccess
  | Success slot, None =>
      if decide (confirmed = slot) then Ok (state, Done)
      else Err BootControlError.UnexpectedBootSuccess
  end.

Section runs.
Context {St : Type} `{BootControlStore St}.

Definition done (r : Result unit BootControlError.t * St)
  : Result answer BootControlError.t * St :=
  (match r.1 with Ok _ => Ok Done | Err e => Err e end, r.2).

Definition run (store : St) (o : op) : Result answer BootControlError.t * St :=
  match o with
  | Stage slot => done (BootControlJournal.stage_update store slot)
  | Begin =>
      let '(r, store) := BootControlJournal.begin_boot store in
      (match r with Ok d => Ok (Decided d) | Err e => Err e end, store)
  | Success slot => done (BootControlJournal.mark_boot_success store slot)
  end.

Fixpoint runs (store : St) (os : list op) : list (Result answer BootControlError.t) * St :=
  match os with
  | [] => ([], store)
  | o :: os =>
      let '(a, store) := run store o in
      let '(answers, store) := runs store os in
      (a :: answers, store)
  end.
End runs.

(** The slot an answer boots on trial. *)
Definition trial_slot (a : Result answer BootControlError.t) : option SystemSlot.t :=
  match a with
  | Ok (Decided d) =>
      if decide (BootDecision.trial_attempt d <> 0) then Some (BootDecision.slot d) else None
  | _ => None
  end.

(** An answer that boots a slot on trial. *)
Definition is_trial (a : Result answer BootControlError.t) : Prop := trial_slot a <> None.

#[global] Instance is_trial_dec a : Decision (is_trial a).
Proof. unfold is_trial. destruct (trial_slot a); [left|right]; congruence. Defined.

Definition is_stage (o : op) : Prop := match o with Stage _ => True | _ => False end.

(** The trials left before the journal rolls back. *)
Definition budget (state : BootControlState.t) : nat :=
  match BootControlState.pending state with
  | Some _ => N.to_nat (MAX_BOOT_ATTEMPTS - BootControlState.attempts state)
  | None => 0
  end.
End JournalSpec.

(** The states of a first update: the baseline, and the update pending. *)
Definition baseline : BootControlState.t := BootControlState.mk SystemSlot.A None 0 1.
Definition first_trial : BootControlState.t :=
  BootControlState.mk SystemSlot.A (Some SystemSlot.B) 0 2.

(** The bytes of a record before its checksum. *)
Definition payload (state : BootControlState.t) : list N :=
  RECORD_MAGIC
  ++ [RECORD_VERSION; SystemSlot.code (BootControlState.confirmed state);
      from_option SystemSlot.code NO_PENDING_SLOT (BootControlState.pending state);
      BootControlState.attempts state; MAX_BOOT_ATTEMPTS; 0]
  ++ to_le_bytes 8 (BootControlState.generation state) ++ replicate 10 0.

(** What [current] answers when the store reads without error. *)
Definition view {St : Type} `{StoreLaws St} (s : St) : Result CurrentState.t BootControlError.t :=
  BootControlJournal.select
    (bool_decide (is_Some (contents s RecordCopy.First)))
    (bool_decide (is_Some (contents s RecordCopy.Second)))
    (readable (contents s RecordCopy.First)) (readable (contents s RecordCopy.Second)).

(** The store durably holds [state], in copy [c]. *)
Definition holds {St : Type} `{StoreLaws St} (s : St) (state : BootControlState.t)
  (c : RecordCopy.t) : Prop := view s = Ok (CurrentState.mk state (Some c)).

(** The answer [r] of an operation on [s] whose abstract outcome is [sp]: on
    success it is that outcome; on an I/O error, which only a faulty store gives,
    the journal holds the old state or that outcome's; every other error is the
    abstract one and changes nothing. *)
Definition agrees {St : Type} `{StoreLaws St} (s s' : St)
  (r : Result JournalSpec.answer BootControlError.t) (state : BootControlState.t)
  (sp : Result (BootControlState.t * JournalSpec.answer) BootControlError.t) : Prop :=
  exists state' c', holds s' state' c' /\
  match r with
  | Ok a => sp = Ok (state', a)
  | Err (BootControlError.Storage _) => faulty s /\ (state' = state \/ exists a, sp = Ok (state', a))
  | Err e => sp = Err e /\ state' = state
  end.

(** ** Records *)

Section record.
Implicit Types (state : BootControlState.t) (bytes : list N).

Lemma encode_record_eq state :
  encode_record state = (fun _ => sealed (payload state)) <$> validate_state state.
Proof. unfold encode_record. by destruct (validate_state state). Qed.

Lemma validate_state_Some state :
  validate_state state = Some tt ->
  BootControlState.attempts state <= 3
  /\ BootControlState.pending state <> Some (BootControlState.confirmed state)
  /\ (BootControlState.pending state = None -> BootControlState.attempts state = 0).
Proof.
  unfold validate_state, MAX_BOOT_ATTEMPTS. case_decide as Hg; [done|]. intros _.
  split; [lia|]. split; [tauto|]. intros Hp. destruct (decide (BootControlState.attempts state = 0));
  naive_solver.
Qed.

Lemma validate_unit state u : validate_state state = Some u -> validate_state state = Some tt.
Proof. by destruct u. Qed.

Lemma payload_bytes state : BootControlState.attempts state <= 3 -> Forall is_byte (payload state).
Proof.
  intros Ha. unfold payload, is_byte. repeat rewrite Forall_app. split_and!.
  - by repeat constructor.
  - repeat constructor; [by destruct (BootControlState.confirmed state)| |lia].
    by destruct (BootControlState.pending state) as [[]|].
  - apply to_le_bytes_are_bytes.
  - by apply Forall_replicate.
Qed.

Lemma from_code_code slot : SystemSlot.from_code (SystemSlot.code slot) = Some slot.
Proof. by destruct slot. Qed.

Lemma code_from_code n slot : SystemSlot.from_code n = Some slot -> SystemSlot.code slot = n.
Proof. destruct n as [|[]]; simpl; intros; by simplify_eq. Qed.

Lemma decode_pending_code pending :
  decode_pending (from_option SystemSlot.code NO_PENDING_SLOT pending) = Some pending.
Proof. by destruct pending as [[]|]. Qed.

Lemma pending_code_decode n pending :
  decode_pending n = Some pending -> from_option SystemSlot.code NO_PENDING_SLOT pending = n.
Proof.
  unfold decode_pending. case_decide as Hn; [by intros [= <-]|].
  destruct (SystemSlot.from_code n) as [slot|] eqn:E; [|done]. intros [= <-].
  simpl. by apply code_from_code.
Qed.

Lemma decode_encode_record state bytes :
  BootControlState.generation state <= U64_MAX ->
  encode_record state = Some bytes -> decode_record bytes = Some state.
Proof.
  intros Hg He. rewrite encode_record_eq in He.
  destruct (validate_state state) as [u|] eqn:Hv; [|done]. simplify_eq/=.
  destruct (validate_state_Some state) as (Ha&_); [by eapply validate_unit|].
  unfold decode_record, journal_crc32.
  rewrite decide_False.
  2: { intros H. do 4 (destruct H as [H|H]; [done|]). revert H.
       change (sub_bytes (sealed (payload state)) 18 10) with (replicate 10 0).
       rewrite Exists_exists. intros (x&[-> _]%elem_of_replicate&?). done. }
  rewrite (sealed_payload _ 28), (sealed_checksum _ 28) by (done || by apply payload_bytes).
  rewrite decide_False by (intros Hx; by apply Hx).
  change (byte_at (sealed (payload state)) 5)
    with (SystemSlot.code (BootControlState.confirmed state)).
  change (byte_at (sealed (payload state)) 6)
    with (from_option SystemSlot.code NO_PENDING_SLOT (BootControlState.pending state)).
  change (byte_at (sealed (payload state)) 7) with (BootControlState.attempts state).
  change (sub_bytes (sealed (payload state)) 10 8)
    with (to_le_bytes 8 (BootControlState.generation state)).
  rewrite from_code_code, decode_pending_code, u64_le_bytes by done.
  destruct state. cbn in Hv |- *. by rewrite Hv.
Qed.

(** The payload of a record, field by field. *)
Lemma record_fields bytes :
  length bytes = RECORD_SIZE ->
  sub_bytes bytes 0 28 =
  sub_bytes bytes 0 4
  ++ [byte_at bytes 4; byte_at bytes 5; byte_at bytes 6; byte_at bytes 7; byte_at bytes 8;
      byte_at bytes 9] ++ sub_bytes bytes 10 8 ++ sub_bytes bytes 18 10.
Proof. intros Hl. by do 32 (destruct bytes as [|? bytes]; [done|]). Qed.

Lemma all_zero bytes n :
  length bytes = n -> ~ Exists (fun byte => byte <> 0) bytes -> bytes = replicate n 0.
Proof.
  intros <- Hn. induction bytes as [|b bytes IH]; [done|].
  rewrite Exists_cons in Hn. cbn [length replicate]. f_equal; [|by apply IH; tauto].
  destruct (decide (b = 0)); [done|tauto].
Qed.

Lemma encode_decode_record state bytes :
  length bytes = RECORD_SIZE -> Forall is_byte bytes ->
  decode_record bytes = Some state -> encode_record state = Some bytes.
Proof.
  intros Hl Hb. change RECORD_SIZE with 32%nat in Hl.
  unfold decode_record, journal_crc32. case_decide as Hg; [done|].
  undec. case_decide as Hcrc; [done|]. undec.
  destruct (SystemSlot.from_code _) as [confirmed|] eqn:Hc; [|done].
  destruct (decode_pending _) as [pending|] eqn:Hp; [|done].
  destruct (validate_state _) as [u|] eqn:Hv; [|done]. intros [= <-].
  rewrite encode_record_eq, Hv. simpl. f_equal.
  rewrite (unseal bytes 28) at 3 by done. f_equal.
  rewrite record_fields by done. unfold payload.
  cbn [BootControlState.confirmed BootControlState.pending BootControlState.attempts
       BootControlState.generation].
  apply code_from_code in Hc. apply pending_code_decode in Hp.
  assert (H8 : length (sub_bytes bytes 10 8) = 8%nat)
    by (unfold sub_bytes; rewrite length_take, length_drop; lia).
  rewrite <-H8 at 1. rewrite to_from_le_bytes by (by apply Forall_take, Forall_drop).
  rewrite (all_zero (sub_bytes bytes 18 10) 10);
    [|unfold sub_bytes; rewrite length_take, length_drop; lia|done].
  congruence.
Qed.
End record.

Section journal_proofs.
Context {St : Type} `{StoreLaws St}.
Implicit Types (s : St) (state : BootControlState.t) (c : RecordCopy.t).

Lemma encode_record_length state bytes :
  encode_record state = Some bytes -> length bytes = RECORD_SIZE.
Proof.
  rewrite encode_record_eq. destruct (validate_state state); [|done]. by intros [= <-].
Qed.

Lemma readable_encoded state bytes :
  BootControlState.generation state <= U64_MAX ->
  encode_record state = Some bytes -> readable (Some bytes) = Some state.
Proof.
  intros Hg He. unfold readable.
  rewrite decide_True by (by eapply encode_record_length). by eapply decode_encode_record.
Qed.

Lemma decode_valid bytes state : decode_record bytes = Some state -> validate_state state = Some tt.
Proof.
  unfold decode_record. case_decide; [done|]. case_decide; [done|].
  destruct (SystemSlot.from_code _); [|done]. destruct (decode_pending _); [|done].
  destruct (validate_state _) as [[]|] eqn:Hv; [|done]. by intros [= <-].
Qed.

Lemma readable_valid content state : readable content = Some state -> validate_state state = Some tt.
Proof.
  unfold readable. destruct content as [bytes|]; [|done]. case_decide; [|done]. apply decode_valid.
Qed.

Lemma read_copy_spec s c :
  let '(r, s') := BootControlJournal.read_copy s (RecordCopy.index c) in
  (forall c', contents s' c' = contents s c') /\ (faulty s' -> faulty s)
  /\ ((r = Err (BootControlError.Storage StoreError.Io) /\ faulty s)
      \/ r = Ok (bool_decide (is_Some (contents s c)), readable (contents s c))).
Proof.
  unfold BootControlJournal.read_copy. assert (Hr := read_law s c).
  destruct (read_record s _ _) as [[result output] s']. destruct Hr as (Hsame&Hf&Hr).
  destruct Hr as [[-> Hr]|[-> Hout]]; [split; [done|]; split; [done|by left]|].
  unfold readable. destruct (contents s c) as [bytes|]; simpl; (split; [done|split; [done|right]]); [|done].
  case_decide as Hl; [|done]. by rewrite (Hout bytes).
Qed.

Lemma view_ext s s' : (forall c, contents s' c = contents s c) -> view s' = view s.
Proof. intros Hsame. unfold view. by rewrite !Hsame. Qed.

Lemma current_spec s :
  let '(r, s') := BootControlJournal.current s in
  (forall c, contents s' c = contents s c) /\ (faulty s' -> faulty s)
  /\ ((r = Err (BootControlError.Storage StoreError.Io) /\ faulty s) \/ r = view s).
Proof.
  unfold BootControlJournal.current.
  assert (H1 := read_copy_spec s RecordCopy.First). cbn [RecordCopy.index] in H1.
  destruct (BootControlJournal.read_copy s 0) as [r1 s1]. destruct H1 as (Hs1&Hf1&H1).
  destruct H1 as [[-> H1]| ->]; [split; [done|]; split; [done|by left]|].
  assert (H2 := read_copy_spec s1 RecordCopy.Second). cbn [RecordCopy.index] in H2.
  destruct (BootControlJournal.read_copy s1 1) as [r2 s2]. destruct H2 as (Hs2&Hf2&H2).
  assert (Hsame : forall c, contents s2 c = contents s c) by (intros; by rewrite Hs2, Hs1).
  destruct H2 as [[-> H2]| ->]; (split; [done|]; split; [by auto|]); [by auto|].
  right. unfold view. by rewrite !Hs1.
Qed.

Lemma holds_readable s state c : holds s state c -> readable (contents s c) = Some state.
Proof.
  unfold holds, view, BootControlJournal.select.
  repeat (case_match || case_decide); intros; by simplify_eq.
Qed.

Lemma readable_present content state :
  readable content = Some state -> bool_decide (is_Some content) = true.
Proof. destruct content; [|done]. intros _. by apply bool_decide_eq_true_2. Qed.

(** The other copy no longer decodes: the journal still holds its state. *)
Lemma holds_other_lost s state c :
  readable (contents s c) = Some state -> readable (contents s (RecordCopy.other c)) = None ->
  holds s state c.
Proof.
  unfold holds, view, BootControlJournal.select. intros Hc Ho.
  destruct c; simpl in Ho; by rewrite Hc, Ho.
Qed.

(** The other copy holds a later generation: it wins. *)
Lemma holds_other_newer s state next c :
  readable (contents s c) = Some state ->
  readable (contents s (RecordCopy.other c)) = Some next ->
  BootControlState.generation state < BootControlState.generation next ->
  holds s next (RecordCopy.other c).
Proof.
  unfold holds, view, BootControlJournal.select. intros Hc Ho Hlt.
  destruct c; simpl in Ho |- *; rewrite Hc, Ho; by rewrite decide_False, ?decide_False, ?decide_True by lia.
Qed.

Lemma other_other c : RecordCopy.other (RecordCopy.other c) = c.
Proof. by destruct c. Qed.

(** A later generation is written beside the state the journal holds: whatever
    the store answers, the journal holds the old state or the new one, and the
    new one if it answers success. *)
Lemma persist_spec s state c next :
  holds s state c -> BootControlState.generation state < U64_MAX ->
  let bumped := BootControlState.mk (BootControlState.confirmed next)
                  (BootControlState.pending next) (BootControlState.attempts next)
                  (BootControlState.generation state + 1) in
  validate_state bumped = Some tt ->
  let '(r, s') :=
    BootControlJournal.persist s (CurrentState.mk state (Some c)) next in
  match r with
  | Ok _ => exists c', holds s' bumped c'
  | Err e => e = BootControlError.Storage StoreError.Io /\ faulty s
             /\ exists c', holds s' state c' \/ holds s' bumped c'
  end.
Proof.
  intros Hh Hg bumped Hv. unfold BootControlJournal.persist. simpl.
  unfold u64_checked_add. rewrite decide_True by lia.
  change (BootControlState.mk _ _ _ (BootControlState.generation state + 1)) with bumped.
  rewrite Hv. destruct (encode_record bumped) as [record|] eqn:He;
    [|by rewrite encode_record_eq, Hv in He].
  assert (Hrec : readable (Some record) = Some bumped)
    by (apply readable_encoded; [simpl; lia|done]).
  assert (Hc := holds_readable _ _ _ Hh).
  assert (Hw := write_law s (RecordCopy.other c) record (encode_record_length _ _ He)). rewrite other_other in Hw.
  destruct (write_record s _ record) as [written s1]. destruct Hw as (Hkeep&Hf1&Hw).
  assert (Hnew : forall s2, (forall c', contents s2 c' = contents s1 c') ->
    contents s1 (RecordCopy.other c) = Some record -> holds s2 bumped (RecordCopy.other c)).
  { intros s2 Hs2 Hcon. apply (holds_other_newer s2 state); [by rewrite Hs2, Hkeep| |simpl; lia].
    by rewrite Hs2, Hcon. }
  destruct written as [[]|[]].
  - assert (Hf := flush_law s1). destruct (flush s1) as [flushed s2]. destruct Hf as (Hsame&_&Hf).
    destruct flushed as [[]|[]]; [by eauto|]. split; [done|]. destruct Hf as [Hf|Hf]; [done|].
    split; [by apply Hf1|]. eauto.
  - destruct Hw as [Hfaulty Hw]. split; [done|]. split; [done|]. destruct Hw as [Hold|[Hcon|Hlost]].
    + exists c. left. unfold holds. rewrite <-Hh. apply view_ext.
      intros c'. destruct (decide (c' = c)) as [->|Hne]; [done|].
      by replace c' with (RecordCopy.other c) by (by destruct c, c').
    + eauto.
    + exists c. left. apply holds_other_lost; [by rewrite Hkeep|done].
Qed.

Lemma persist_agrees s state c next a :
  holds s state c ->
  validate_state (BootControlState.mk (BootControlState.confirmed next)
    (BootControlState.pending next) (BootControlState.attempts next)
    (BootControlState.generation state + 1)) = Some tt ->
  let '(r, s') := BootControlJournal.persist s (CurrentState.mk state (Some c)) next in
  agrees s s' (match r with Ok _ => Ok a | Err e => Err e end) state
    (JournalSpec.advance state (BootControlState.confirmed next) (BootControlState.pending next)
       (BootControlState.attempts next) a).
Proof.
  intros Hh Hv. unfold JournalSpec.advance. case_decide as Hg.
  - assert (Hp := persist_spec s state c next Hh Hg Hv).
    destruct (BootControlJournal.persist _ _ _) as [[[]|e] s'].
    + destruct Hp as [c' Hc']. by eexists _, c'.
    + destruct Hp as (->&Hf&c'&[Hc'|Hc']); eexists _, c'; (split; [exact Hc'|]); (split; [done|]);
        [by left|right; by eauto].
  - unfold BootControlJournal.persist, u64_checked_add. simpl. rewrite decide_False by lia.
    by exists state, c.
Qed.

Lemma holds_ext s s' state c :
  (forall c', contents s' c' = contents s c') -> holds s state c -> holds s' state c.
Proof. unfold holds. intros Hs <-. by apply view_ext. Qed.

(** Reading the journal fails, or gives the state it holds. *)
Lemma current_holds s state c :
  holds s state c ->
  exists s1, holds s1 state c /\ (faulty s1 -> faulty s)
    /\ ((BootControlJournal.current s = (Err (BootControlError.Storage StoreError.Io), s1) /\ faulty s)
        \/ BootControlJournal.current s = (Ok (CurrentState.mk state (Some c)), s1)).
Proof.
  intros Hh. assert (Hc := current_spec s).
  destruct (BootControlJournal.current s) as [loaded s1]. destruct Hc as (Hsame&Hf&Hc).
  exists s1. split; [by eapply holds_ext|]. split; [done|].
  destruct Hc as [[-> Hc]| ->]; [by left|right]. unfold holds in Hh. by rewrite Hh.
Qed.

Lemma agrees_io s s' state c sp :
  faulty s -> holds s' state c -> agrees s s' (Err (BootControlError.Storage StoreError.Io)) state sp.
Proof. intros Hf Hh. exists state, c. split; [done|]. split; [done|by left]. Qed.

Lemma agrees_start s0 s s' r state sp : (faulty s -> faulty s0) -> agrees s s' r state sp -> agrees s0 s' r state sp.
Proof.
  intros Hf (state'&c'&Hh&Hr). exists state', c'. split; [done|]. destruct r as [|[]]; naive_solver.
Qed.

Lemma agrees_refused s s' state c e :
  (forall io, e <> BootControlError.Storage io) -> holds s' state c -> agrees s s' (Err e) state (Err e).
Proof. intros He Hh. exists state, c. split; [done|]. destruct e as [io| | | | |]; [by destruct (He io)|auto..]. Qed.

Lemma agrees_same s s' state c a : holds s' state c -> agrees s s' (Ok a) state (Ok (state, a)).
Proof. intros Hh. by exists state, c. Qed.

Lemma holds_valid s state c : holds s state c -> validate_state state = Some tt.
Proof. intros Hh. eapply readable_valid. by apply holds_readable in Hh. Qed.

Lemma validate_intro confirmed pending attempts generation :
  attempts <= 3 -> pending <> Some confirmed -> (pending = None -> attempts = 0) ->
  validate_state (BootControlState.mk confirmed pending attempts generation) = Some tt.
Proof.
  intros Ha Hp Hn. unfold validate_state, MAX_BOOT_ATTEMPTS. simpl.
  rewrite decide_False; [done|]. intros [?|[?|[? ?]]]; [lia|done|auto].
Qed.

Lemma stage_agrees s state c slot :
  holds s state c ->
  agrees s (JournalSpec.run s (JournalSpec.Stage slot)).2
    (JournalSpec.run s (JournalSpec.Stage slot)).1 state
    (JournalSpec.spec state (JournalSpec.Stage slot)).
Proof.
  intros Hh. destruct (current_holds s state c Hh) as (s1&Hh1&Hf&Hc).
  cbn [JournalSpec.run JournalSpec.spec]. unfold JournalSpec.done, BootControlJournal.stage_update.
  destruct Hc as [[-> Hc]| ->]; [by eapply agrees_io|]. apply (agrees_start s s1); [done|]. cbn [CurrentState.state CurrentState.copy].
  destruct (BootControlState.pending state) eqn:Hp.
  { rewrite decide_True by done. by eapply agrees_refused. }
  rewrite decide_False by (intros Hx; by apply Hx).
  case_decide as Hs; [by eapply agrees_refused|].
  set (next := BootControlState.mk _ _ _ _).
  assert (Hpa := persist_agrees s1 state c next JournalSpec.Done Hh1).
  destruct (BootControlJournal.persist s1 _ next) as [r s2]. apply Hpa.
  apply validate_intro; [done|simpl; congruence|done].
Qed.

Lemma begin_agrees s state c :
  holds s state c ->
  agrees s (JournalSpec.run s JournalSpec.Begin).2 (JournalSpec.run s JournalSpec.Begin).1 state
    (JournalSpec.spec state JournalSpec.Begin).
Proof.
  intros Hh. destruct (current_holds s state c Hh) as (s1&Hh1&Hf&Hc).
  destruct (validate_state_Some state (holds_valid _ _ _ Hh)) as (Ha&Hne&_).
  cbn [JournalSpec.run JournalSpec.spec]. unfold BootControlJournal.begin_boot.
  destruct Hc as [[-> Hc]| ->]; [by eapply agrees_io|]. apply (agrees_start s s1); [done|]. cbn [CurrentState.state].
  destruct (BootControlState.pending state) as [pending|] eqn:Hp; [|by eapply agrees_same].
  unfold MAX_BOOT_ATTEMPTS. case_decide as Hmax.
  - set (next := BootControlState.mk _ _ _ _).
    assert (Hpa := persist_agrees s1 state c next (JournalSpec.Decided
      (BootDecision.mk (BootControlState.confirmed state) 0 true)) Hh1).
    destruct (BootControlJournal.persist s1 _ next) as [[[]|e] s2]; apply Hpa; by apply validate_intro.
  - set (next := BootControlState.mk _ _ _ _).
    assert (Hpa := persist_agrees s1 state c next (JournalSpec.Decided
      (BootDecision.mk pending (BootControlState.attempts state + 1) false)) Hh1).
    destruct (BootControlJournal.persist s1 _ next) as [[[]|e] s2]; apply Hpa;
      (apply validate_intro; [simpl; lia|done|done]).
Qed.

Lemma success_agrees s state c slot :
  holds s state c ->
  agrees s (JournalSpec.run s (JournalSpec.Success slot)).2
    (JournalSpec.run s (JournalSpec.Success slot)).1 state
    (JournalSpec.spec state (JournalSpec.Success slot)).
Proof.
  intros Hh. destruct (current_holds s state c Hh) as (s1&Hh1&Hf&Hc).
  cbn [JournalSpec.run JournalSpec.spec].
  unfold JournalSpec.done, BootControlJournal.mark_boot_success.
  destruct Hc as [[-> Hc]| ->]; [by eapply agrees_io|]. apply (agrees_start s s1); [done|]. cbn [CurrentState.state].
  destruct (BootControlState.pending state) as [pending|] eqn:Hp.
  - case_decide as Hs; [|by eapply agrees_refused].
    set (next := BootControlState.mk _ _ _ _).
    assert (Hpa := persist_agrees s1 state c next JournalSpec.Done Hh1).
    destruct (BootControlJournal.persist s1 _ next) as [r s2]. apply Hpa. by apply validate_intro.
  - case_decide; [by eapply agrees_same|by eapply agrees_refused].
Qed.

(** C5: an A/B journal that holds a state refines the abstract journal for
    every operation and any lawful store: on success the journal holds exactly
    the abstract next state; only a faulty store makes it fail where the
    abstract journal does not, and then, whatever write was interrupted, it
    holds the old or the new state; other errors change nothing. *)
Theorem journal_crash_safe s state c o :
  holds s state c ->
  agrees s (JournalSpec.run s o).2 (JournalSpec.run s o).1 state (JournalSpec.spec state o).
Proof.
  intros Hh. destruct o; eauto using stage_agrees, begin_agrees, success_agrees.
Qed.

(** A step of the abstract journal that stages nothing spends its trials. *)
Lemma spec_budget state o state' a :
  JournalSpec.spec state o = Ok (state', a) -> ~ JournalSpec.is_stage o ->
  ((if decide (JournalSpec.is_trial (Ok a)) then 1 else 0) + JournalSpec.budget state'
     <= JournalSpec.budget state)%nat
  /\ (BootControlState.pending state' = BootControlState.pending state
      \/ BootControlState.pending state' = None)
  /\ (JournalSpec.is_trial (Ok a) ->
      JournalSpec.trial_slot (Ok a) = BootControlState.pending state).
Proof.
  intros Hs Hst. destruct o as [slot| |slot]; [by destruct Hst|..]; clear Hst;
    unfold JournalSpec.spec, JournalSpec.advance, JournalSpec.budget, JournalSpec.is_trial,
      JournalSpec.trial_slot, MAX_BOOT_ATTEMPTS in *;
    destruct (BootControlState.pending state) as [p|] eqn:Hp;
    repeat (case_decide; simplify_eq/=); rewrite ?Hp; simpl;
    (split; [lia|split; [by auto|done]]) || (exfalso; lia) || naive_solver lia.
Qed.

Lemma run_budget s state c o :
  holds s state c -> ~ JournalSpec.is_stage o ->
  exists state' c', holds (JournalSpec.run s o).2 state' c'
    /\ ((if decide (JournalSpec.is_trial (JournalSpec.run s o).1) then 1 else 0)
        + JournalSpec.budget state' <= JournalSpec.budget state)%nat
    /\ (BootControlState.pending state' = BootControlState.pending state
        \/ BootControlState.pending state' = None)
    /\ (JournalSpec.is_trial (JournalSpec.run s o).1 ->
        JournalSpec.trial_slot (JournalSpec.run s o).1 = BootControlState.pending state).
Proof.
  intros Hh Hst. assert (Ha : agrees s (JournalSpec.run s o).2 (JournalSpec.run s o).1 state
    (JournalSpec.spec state o))
    by (destruct o; eauto using stage_agrees, begin_agrees, success_agrees).
  destruct Ha as (state'&c'&Hh'&Hr). exists state', c'. split; [done|].
  destruct (JournalSpec.run s o).1 as [a|e]; [by eapply spec_budget|].
  rewrite decide_False by (intros Hx; by apply Hx).
  assert (Hcase : state' = state \/ exists a, JournalSpec.spec state o = Ok (state', a))
    by (destruct e; naive_solver).
  destruct Hcase as [->|[a Hspec]]; [split_and!; auto; by intros []|].
  destruct (spec_budget _ _ _ _ Hspec Hst) as (Hb&Hp&_).
  split_and!; [lia|done|by intros []].
Qed.

(** C35: between two stagings, over any sequence of boots and success reports
    with any pattern of store failures, a journal boots a slot on trial at most
    as often as its remaining attempts, three for a fresh update, and only the
    pending slot. *)
Theorem trials_bounded os : forall s state c,
  holds s state c -> Forall (fun o => ~ JournalSpec.is_stage o) os ->
  (count_of JournalSpec.is_trial (JournalSpec.runs s os).1 <= JournalSpec.budget state <= 3)%nat
  /\ Forall (fun a => JournalSpec.is_trial a ->
                JournalSpec.trial_slot a = BootControlState.pending state)
       (JournalSpec.runs s os).1.
Proof.
  induction os as [|o os IH]; intros s state c Hh Hos.
  - split; [|constructor]. simpl. rewrite count_of_nil. split; [lia|].
    unfold JournalSpec.budget, MAX_BOOT_ATTEMPTS. destruct (BootControlState.pending state); lia.
  - apply Forall_cons in Hos as [Ho Hos].
    destruct (run_budget s state c o Hh Ho) as (state'&c'&Hh'&Hb&Hp&Ht). simpl.
    destruct (JournalSpec.run s o) as [a s1]. simpl in *.
    destruct (IH s1 state' c' Hh' Hos) as [[Hc _] Hall].
    destruct (JournalSpec.runs s1 os) as [answers s2]. simpl in *.
    rewrite count_of_cons. split; [split; [lia|]|].
    + unfold JournalSpec.budget, MAX_BOOT_ATTEMPTS. destruct (BootControlState.pending state); lia.
    + constructor; [done|]. eapply Forall_impl; [exact Hall|]. simpl. intros a' Ha' Htr.
      specialize (Ha' Htr). destruct Hp as [<-|Hp]; [done|].
      unfold JournalSpec.is_trial in Htr. congruence.
Qed.

(** *** The first update *)

Lemma view_empty s :
  (forall c, contents s c = None) -> view s = Ok (CurrentState.mk BootControlState.initial None).
Proof. intros He. unfold view. by rewrite !He. Qed.

(** The baseline record, written to an empty journal. *)
Lemma persist_baseline s :
  (forall c, contents s c = None) ->
  let '(r, s') := BootControlJournal.persist s
    (CurrentState.mk BootControlState.initial None) BootControlState.initial in
  match r with
  | Ok _ => holds s' baseline RecordCopy.First /\ (faulty s' -> faulty s)
  | Err e => e = BootControlError.Storage StoreError.Io /\ faulty s
             /\ (view s' = view s \/ holds s' baseline RecordCopy.First
                 \/ view s' = Err BootControlError.CorruptRecords)
  end.
Proof.
  intros He. unfold BootControlJournal.persist.
  cbn [CurrentState.state CurrentState.copy BootControlState.initial BootControlState.generation
       BootControlState.confirmed BootControlState.pending BootControlState.attempts].
  change (u64_checked_add 0 1) with (Some 1). cbv iota. change (BootControlState.mk _ _ _ 1) with baseline.
  change (validate_state baseline) with (Some tt). cbv iota. cbn [from_option].
  destruct (encode_record baseline) as [record|] eqn:Hrec; [|done].
  assert (Hread : readable (Some record) = Some baseline) by (by apply readable_encoded).
  assert (Hw := write_law s RecordCopy.First record (encode_record_length _ _ Hrec)).
  destruct (write_record s _ record) as [written s1]. destruct Hw as (Hother&Hf1&Hw).
  rewrite He in Hother. cbn [RecordCopy.other] in Hother.
  assert (Hnew : forall s2, (forall c, contents s2 c = contents s1 c) ->
    contents s1 RecordCopy.First = Some record -> holds s2 baseline RecordCopy.First).
  { intros s2 Hs2 Hc. apply holds_other_lost; cbn [RecordCopy.other]; rewrite Hs2;
      [by rewrite Hc|by rewrite Hother]. }
  destruct written as [[]|[]].
  - assert (Hf := flush_law s1). destruct (flush s1) as [[[]|[]] s2]; destruct Hf as (Hsame&Hf2&Hf); [by auto|].
    destruct Hf as [Hf|Hf]; [done|]. split; [done|]. split; [by apply Hf1|]. auto.
  - destruct Hw as [Hfaulty Hw]. split; [done|]. split; [done|]. rewrite He in Hw. destruct Hw as [Hc|[Hc|Hc]]; [left|by auto|].
    + unfold view. by rewrite Hc, Hother, !He.
    + unfold view. rewrite Hc, Hother, !He. cbn [readable].
      destruct (bool_decide (is_Some (contents s1 RecordCopy.First))); auto.
Qed.


(** A journal record and its state determine each other, and no record
    survives the change of one of its bytes. *)
Theorem journal_records_exact bytes state :
  length bytes = RECORD_SIZE -> Forall is_byte bytes ->
  BootControlState.generation state <= U64_MAX ->
  (decode_record bytes = Some state <-> encode_record state = Some bytes)
  /\ (encode_record state = Some bytes ->
      forall i b b', bytes !! i = Some b -> is_byte b' -> b' <> b ->
        decode_record (<[i := b']> bytes) = None).
Proof.
  intros Hl Hb Hg. split; [split; [by apply encode_decode_record|by apply decode_encode_record]|].
  intros He i b b' Hi Hb' Hne. rewrite encode_record_eq in He.
  destruct (validate_state state) as [u|] eqn:Hv; [|done]. simplify_eq/=.
  destruct (validate_state_Some state (validate_unit _ _ Hv)) as (Ha&_).
  unfold decode_record. case_decide; [done|]. rewrite decide_True; [done|].
  eapply (sealed_corrupt (payload state)); [by apply payload_bytes|done..].
Qed.
End journal_proofs.

(** What the accesses of a store keep, every operation of the journal keeps. *)
Section keeping.
Context {St : Type} `{BootControlStore St} (R : St -> St -> Prop) `{!PreOrder R}.
Context (read_keeps : forall s copy output, R s (read_record s copy output).2).
Context (write_keeps : forall s c record, length record = RECORD_SIZE ->
  R s (write_record s (RecordCopy.index c) record).2).
Context (flush_keeps : forall s, R s (flush s).2).

Lemma read_copy_keeps s copy : R s (BootControlJournal.read_copy s copy).2.
Proof.
  unfold BootControlJournal.read_copy. pose proof (read_keeps s copy (replicate RECORD_SIZE 0)) as Hr.
  by destruct (read_record s copy _) as [[[[]|] ?] ?].
Qed.

Lemma current_keeps s : R s (BootControlJournal.current s).2.
Proof.
  unfold BootControlJournal.current. pose proof (read_copy_keeps s 0) as H1.
  destruct (BootControlJournal.read_copy s 0) as [[[present1 first]|] s1]; [|done].
  pose proof (read_copy_keeps s1 1) as H2. cbn [snd] in H1.
  destruct (BootControlJournal.read_copy s1 1) as [[[present2 second]|] s2]; cbn [snd] in *; by transitivity s1.
Qed.

Lemma persist_keeps s current next : R s (BootControlJournal.persist s current next).2.
Proof.
  unfold BootControlJournal.persist. destruct (u64_checked_add _ _); [|done].
  destruct (validate_state _); [|done]. destruct (encode_record _) as [record|] eqn:He; [|done].
  pose proof (write_keeps s (from_option RecordCopy.other RecordCopy.First (CurrentState.copy current)) record
    (encode_record_length _ _ He)) as Hw.
  destruct (write_record s _ record) as [[[]|] s1]; cbn [snd] in *; [|done].
  pose proof (flush_keeps s1) as Hf. destruct (flush s1) as [[[]|] s2]; cbn [snd] in *; by transitivity s1.
Qed.

Lemma load_keeps s : R s (BootControlJournal.load s).2.
Proof.
  unfold BootControlJournal.load. pose proof (current_keeps s).
  by destruct (BootControlJournal.current s) as [[]].
Qed.

Lemma stage_keeps s slot : R s (BootControlJournal.stage_update s slot).2.
Proof.
  unfold BootControlJournal.stage_update. pose proof (current_keeps s) as H1.
  destruct (BootControlJournal.current s) as [[loaded|] s1]; cbn [snd] in *; [|done].
  case_decide as Hp; [done|]. case_decide as Hs; [done|]. destruct (CurrentState.copy loaded).
  { etrans; [exact H1|apply persist_keeps]. }
  pose proof (persist_keeps s1 loaded (CurrentState.state loaded)) as H2.
  destruct (BootControlJournal.persist s1 loaded _) as [[[]|] s2]; cbn [snd] in *; [|by transitivity s1].
  pose proof (current_keeps s2) as H3.
  destruct (BootControlJournal.current s2) as [[again|] s3]; cbn [snd] in *;
    [etrans; [|apply persist_keeps]|]; (etrans; [exact H1|]); (etrans; [exact H2|]); done.
Qed.

Lemma begin_keeps s : R s (BootControlJournal.begin_boot s).2.
Proof.
  unfold BootControlJournal.begin_boot. pose proof (current_keeps s) as H1.
  destruct (BootControlJournal.current s) as [[loaded|] s1]; cbn [snd] in *; [|done].
  destruct (BootControlState.pending _); [|done]. case_decide as Hmax;
    (match goal with |- context [BootControlJournal.persist s1 loaded ?next] =>
       pose proof (persist_keeps s1 loaded next) as Hkept;
       destruct (BootControlJournal.persist s1 loaded next) as [[[]|] s2]
     end); cbn [snd] in *; by transitivity s1.
Qed.

Lemma success_keeps s slot : R s (BootControlJournal.mark_boot_success s slot).2.
Proof.
  unfold BootControlJournal.mark_boot_success. pose proof (current_keeps s) as H1.
  destruct (BootControlJournal.current s) as [[loaded|] s1]; cbn [snd] in *; [|done].
  destruct (BootControlState.pending _); case_decide; [|done..]. etrans; [exact H1|apply persist_keeps].
Qed.
End keeping.

(** ** The two stores keep the promises *)

Section uefi_laws.
Context {F : Type} `{UefiLaws F}.

Lemma uefi_name c : UefiVariableBootControlStore.name (RecordCopy.index c) = Ok (variable_name c).
Proof. by destruct c. Qed.

(** A variable of a copy's name that is not a record of the journal. *)
Definition foreign (f : F) (c : RecordCopy.t) : Prop :=
  exists attributes data, variables f (variable_name c) = Some (attributes, data)
  /\ (N.land attributes UefiVariableBootControlStore.REQUIRED_ATTRIBUTES
        <> UefiVariableBootControlStore.REQUIRED_ATTRIBUTES
      \/ (RECORD_SIZE < length data)%nat).

(** A firmware on which the journal may fail. *)
Definition uefi_faulty (f : F) : Prop := refusing f \/ exists c, foreign f c.

Lemma uefi_read_law (f : F) c :
  let '(result, output, f') := UefiVariableBootControlStore.read_record f (RecordCopy.index c)
    (replicate RECORD_SIZE 0) in
  f' = f
  /\ ((result = Err StoreError.Io /\ uefi_faulty f)
      \/ (result = Ok (length <$> (snd <$> variables f (variable_name c)))
          /\ forall bytes, snd <$> variables f (variable_name c) = Some bytes ->
               length bytes = RECORD_SIZE -> output = bytes)).
Proof.
  unfold UefiVariableBootControlStore.read_record. rewrite uefi_name.
  pose proof (exists_law f (variable_name c)) as He.
  destruct (variable_exists f (variable_name c)) as [present|]; [|by unfold uefi_faulty; auto].
  destruct present.
  - symmetry in He. apply bool_decide_eq_true in He as [[a data] Hv].
    pose proof (get_law f (variable_name c) (replicate RECORD_SIZE 0)) as Hg.
    destruct (get_variable f _ _) as [[[size attributes]|] output].
    + destruct Hg as (data'&Hv'&->&Hl&->). rewrite Hv in Hv'. simplify_eq. case_decide as Ha.
      * split; [done|left]. split; [done|right]. exists c, attributes, data'. auto.
      * rewrite Hv. split; [done|right]. split; [done|]. intros bytes [= <-] Hb.
        by rewrite Hb, drop_replicate, Nat.sub_diag, app_nil_r.
    + split; [done|left]. split; [done|]. destruct Hg as [Hg|Hg]; [by left|right].
      exists c, a, data. split; [done|right]. apply Hg in Hv. by rewrite length_replicate in Hv.
  - symmetry in He. apply bool_decide_eq_false, eq_None_not_Some in He. rewrite He.
    split; [done|right]. by split.
Qed.

Lemma uefi_set_faulty (f : F) c record : length record = RECORD_SIZE ->
  uefi_faulty (set_variable f (variable_name c) UefiVariableBootControlStore.REQUIRED_ATTRIBUTES record).2 ->
  uefi_faulty f.
Proof.
  intros Hl. pose proof (set_law f (variable_name c) UefiVariableBootControlStore.REQUIRED_ATTRIBUTES record) as Hs.
  destruct (set_variable f _ _ record) as [result f']. destruct Hs as (Hr&_&Hs). cbn [snd].
  intros [H1|(c'&attributes&data&Hv&Hbad)]; [by left; auto|]. rewrite Hs in Hv. case_decide as Hd.
  - simplify_eq. destruct Hbad as [Hbad|Hbad]; [by destruct Hbad|lia].
  - right. by exists c', attributes, data.
Qed.

Lemma uefi_write_law (f : F) c record : length record = RECORD_SIZE ->
  let '(result, f') :=
    UefiVariableBootControlStore.write_record f (RecordCopy.index c) record in
  variables f' (variable_name (RecordCopy.other c)) = variables f (variable_name (RecordCopy.other c))
  /\ (uefi_faulty f' -> uefi_faulty f)
  /\ match result with
     | Ok _ => snd <$> variables f' (variable_name c) = Some record
     | Err _ => uefi_faulty f /\ variables f' (variable_name c) = variables f (variable_name c)
     end.
Proof.
  intros Hl. unfold UefiVariableBootControlStore.write_record. rewrite uefi_name.
  pose proof (uefi_set_faulty f c record Hl) as Hf.
  assert (Hs := set_law f (variable_name c) UefiVariableBootControlStore.REQUIRED_ATTRIBUTES record).
  destruct (set_variable f _ _ record) as [result f']. destruct Hs as (_&Hr&Hs). rewrite !Hs. split; [|split].
  - rewrite decide_False; [done|]. intros [Hn _]. by destruct c.
  - done.
  - destruct result as [[]|[]]; [by rewrite decide_True|].
    rewrite decide_False by (by intros [_ ?]). destruct Hr as [Hr|Hr]; [done|]. by split; [left|].
Qed.

#[global] Instance uefi_store_laws : StoreLaws F.
Proof.
  refine (Build_StoreLaws F _ (fun f c => snd <$> variables f (variable_name c)) uefi_faulty _ _ _).
  - intros f c. assert (Hr := uefi_read_law f c). simpl.
    destruct (UefiVariableBootControlStore.read_record _ _ _) as [[result output] f'].
    destruct Hr as [-> Hr]. split; [done|]. split; [done|]. destruct Hr as [Hr|Hr]; auto.
  - intros f c record Hl. assert (Hw := uefi_write_law f c record Hl). simpl.
    destruct (UefiVariableBootControlStore.write_record _ _ _) as [result f'].
    destruct Hw as (->&Hf&Hw). split; [done|]. split; [done|]. destruct result; [done|].
    destruct Hw as [? Hw]. split; [done|left; by rewrite Hw].
  - intros f. simpl. auto.
Defined.

End uefi_laws.

#[global] Instance disk_store_laws : StoreLaws Disk.t.
Proof.
  refine (Build_StoreLaws Disk.t _ (fun d c => Disk.get d (RecordCopy.index c))
    (fun d => is_Some (Disk.fail_next_write_after d)) _ _ _).
  - intros d c. simpl. split; [done|]. split; [done|right]. split; [done|]. by intros bytes -> _.
  - intros d c record _. simpl. unfold Disk.write.
    destruct (Disk.fail_next_write_after d) as [prefix|] eqn:Hfail; [|by destruct c].
    case_decide as Hl; [|rewrite Hfail; split; [done|]; split; [done|]; split; [done|by left]].
    assert (Hget : Disk.get (Disk.set d (RecordCopy.index c) (take prefix record))
      (RecordCopy.index c) = Some (take prefix record)) by (by destruct c).
    split; [by destruct c|]. split; [done|]. split; [done|]. rewrite Hget. right.
    destruct (decide (RECORD_SIZE <= prefix)%nat); [left; by rewrite take_ge by lia|right].
    unfold readable. rewrite decide_False; [done|]. rewrite length_take. lia.
  - intros d. simpl. auto.
Defined.

(** ** Concrete journals *)

Module AbJournalExample.
Definition blank : Disk.t := Disk.mk None None None.

(** Slot B staged, with the next write interrupted after [prefix] bytes if given. *)
Definition staged (prefix : option nat) : Disk.t :=
  let d := (BootControlJournal.stage_update blank SystemSlot.B).2 in
  Disk.mk (Disk.first d) (Disk.second d) prefix.

Lemma staged_holds prefix : holds (staged prefix) first_trial RecordCopy.Second.
Proof. vm_compute. reflexivity. Qed.

Lemma journal_crash_safe_witness :
  (JournalSpec.run (staged (Some 11%nat)) JournalSpec.Begin).1
    = Err (BootControlError.Storage StoreError.Io)
  /\ exists state c, holds (JournalSpec.run (staged (Some 11%nat)) JournalSpec.Begin).2 state c.
Proof.
  pose proof (journal_crash_safe (staged (Some 11%nat)) first_trial RecordCopy.Second
    JournalSpec.Begin (staged_holds _)) as (state&c&Hh&_).
  split; [vm_compute; reflexivity|]. by exists state, c.
Defined.

Definition boots : list JournalSpec.op := replicate 5 JournalSpec.Begin.

Lemma trials_bounded_witness :
  (count_of JournalSpec.is_trial (JournalSpec.runs (staged None) boots).1 <= 3)%nat
  /\ (JournalSpec.runs (staged None) boots).1 !! 3%nat
     = Some (Ok (JournalSpec.Decided (BootDecision.mk SystemSlot.A 0 true))).
Proof.
  pose proof (trials_bounded boots (staged None) first_trial RecordCopy.Second (staged_holds _))
    as H.
  destruct H as [[Hc Hb] _]; [repeat constructor; by intros []|].
  split; [by etrans|]. vm_compute. reflexivity.
Defined.


Lemma journal_records_exact_witness :
  exists bytes, encode_record first_trial = Some bytes /\ decode_record bytes = Some first_trial.
Proof.
  destruct (encode_record first_trial) as [bytes|] eqn:He; [|done].
  exists bytes. split; [done|].
  assert (Hb : bytes = default [] (encode_record first_trial)) by (by rewrite He).
  pose proof (journal_records_exact bytes first_trial) as H.
  destruct H as [Hiff _]; [by rewrite Hb|rewrite Hb; vm_compute; repeat constructor|done|].
  by apply Hiff.
Defined.

(** The first record of a blank disk is not covered by a good copy: a write of
    it that stops half way leaves a journal that no longer loads. *)
Lemma torn_baseline_unreadable :
  let '(r, d) := BootControlJournal.stage_update (Disk.mk None None (Some 11%nat)) SystemSlot.B in
  r = Err (BootControlError.Storage StoreError.Io)
  /\ (BootControlJournal.load d).1 = Err BootControlError.CorruptRecords.
Proof. vm_compute. by split. Qed.
End AbJournalExample.
