(* ===== verification/BootControl.v ===== *)
(** * One-shot boot-control gates (kernel/src/boot_control.rs)

    The kernel reports a successful trial boot and stages an update at most once
    per boot, through two gates built on one atomic state byte each. The
    sequential operations are translated first; [OneShot] runs any number of
    them concurrently, one atomic access per step. The firmware's [SetVariable]
    is a parameter [firmware], from the entry address and a call to a status. *)

From stdpp Require Import prelude.
From S2P Require Import Prelude.
From S2P Require Import BootContract.

Local Open Scope N_scope.

Definition UNCONFIGURED : N := 0.
Definition NOT_REPORTED : N := 1.
Definition IN_PROGRESS : N := 2.
Definition PERSISTED : N := 3.
Definition FAILED : N := 4.
Definition NO_TRIAL : N := 5.

Definition UEFI_VARIABLE_ATTRIBUTES : N := N.lor (N.lor 1 2) 4.

Module EfiGuid.
Record t := mk { data1 : N; data2 : N; data3 : N; data4 : list N }.
End EfiGuid.

Definition NAGI_BOOT_CONTROL_VENDOR : EfiGuid.t :=
  EfiGuid.mk 0xc00c1ca4 0x6d7c 0x4a36 [0xb9; 0x13; 0xa2; 0x2f; 0x69; 0x1c; 0x48; 0x95].

Definition NAGI_BOOT_READY_VARIABLE : list N :=
  [78; 97; 103; 105; 66; 111; 111; 116; 82; 101; 97; 100; 121; 0].

Definition NAGI_BOOT_STAGE_VARIABLE : list N :=
  [78; 97; 103; 105; 66; 111; 111; 116; 83; 116; 97; 103; 101; 0].

(** The arguments of a firmware [SetVariable] call. *)
Module EfiSetVariable.
Record t := mk { name : list N; vendor : EfiGuid.t; attributes : N; data : list N }.
End EfiSetVariable.

Module BootReadinessOutcome.
Inductive t :=
  | NoTrial
  | Persisted (record : BootReadyRecord.t)
  | AlreadyPersisted (record : BootReadyRecord.t)
  | PersistenceFailed (record : BootReadyRecord.t)
  | InProgress.
End BootReadinessOutcome.

(** ** Writing a record *)

Definition set_variable (firmware : N -> EfiSetVariable.t -> N) (address : N) (name bytes : list N)
  : bool :=
  if decide (address = 0) then false
  else bool_decide (firmware address
         (EfiSetVariable.mk name NAGI_BOOT_CONTROL_VENDOR UEFI_VARIABLE_ATTRIBUTES bytes) = 0).

Definition persist_readiness (firmware : N -> EfiSetVariable.t -> N)
  (context : BootControlInfo.t) (record : BootReadyRecord.t) : bool :=
  match BootReadyRecord.encode record with
  | None => false
  | Some bytes =>
      if negb (BootControlInfo.is_trial context) then false
      else bool_decide (firmware (BootControlInfo.set_variable_address context)
             (EfiSetVariable.mk NAGI_BOOT_READY_VARIABLE NAGI_BOOT_CONTROL_VENDOR
                UEFI_VARIABLE_ATTRIBUTES bytes) = 0)
  end.

(** ** The readiness gate *)

Module BootReadinessGate.
Record t := mk {
  set_variable_address : N;
  journal_generation : N;
  slot : N;
  attempt : N;
  state : N
}.

Definition new : t := mk 0 0 0 0 UNCONFIGURED.

Definition configure (self : t) (context : BootControlInfo.t) : t :=
  mk (BootControlInfo.set_variable_address context) (BootControlInfo.journal_generation context)
    (BootControlInfo.slot context) (BootControlInfo.attempt context)
    (if BootControlInfo.is_trial context then NOT_REPORTED else NO_TRIAL).

Definition context (self : t) : BootControlInfo.t :=
  BootControlInfo.mk (set_variable_address self) (journal_generation self) (slot self)
    (attempt self) 0 (replicate 5 0).

Definition record (self : t) : BootReadyRecord.t :=
  BootReadyRecord.mk (BootControlInfo.slot (context self)) (BootControlInfo.attempt (context self))
    (BootControlInfo.journal_generation (context self)).

Definition with_state (self : t) (state : N) : t :=
  mk (set_variable_address self) (journal_generation self) (slot self) (attempt self) state.

(** The outcome of a lost [compare_exchange], from the value it found. *)
Definition lost (found : N) (record : BootReadyRecord.t) : BootReadinessOutcome.t :=
  if decide (found = PERSISTED) then BootReadinessOutcome.AlreadyPersisted record
  else if decide (found = FAILED) then BootReadinessOutcome.PersistenceFailed record
  else if decide (found = IN_PROGRESS) then BootReadinessOutcome.InProgress
  else BootReadinessOutcome.NoTrial.

Definition report_with (self : t) (persist : BootReadyRecord.t -> bool)
  : BootReadinessOutcome.t * t :=
  if decide (state self = UNCONFIGURED \/ state self = NO_TRIAL)
  then (BootReadinessOutcome.NoTrial, self)
  else
    let record := record self in
    if decide (state self = NOT_REPORTED) then
      let self := with_state self IN_PROGRESS in
      if persist record
      then (BootReadinessOutcome.Persisted record, with_state self PERSISTED)
      else (BootReadinessOutcome.PersistenceFailed record, with_state self FAILED)
    else (lost (state self) record, self).

Definition report (firmware : N -> EfiSetVariable.t -> N) (self : t)
  : BootReadinessOutcome.t * t :=
  report_with self (persist_readiness firmware (context self)).
End BootReadinessGate.

(** ** The staging gate *)

Module BootStageOutcome.
Inductive t :=
  | Unavailable
  | Staged (record : BootStageRecord.t)
  | AlreadyStaged (record : BootStageRecord.t)
  | Failed.
End BootStageOutcome.

Definition STAGE_UNAVAILABLE : N := 0.
Definition STAGE_READY : N := 1.
Definition STAGE_IN_PROGRESS : N := 2.
Definition STAGE_DONE : N := 3.
Definition STAGE_FAILED : N := 4.

Module BootStageGate.
Record t := mk {
  set_variable_address : N;
  journal_generation : N;
  confirmed_slot : N;
  state : N
}.

Definition new : t := mk 0 0 0 STAGE_UNAVAILABLE.

Definition configure (self : t) (context : BootControlInfo.t) : t :=
  mk (BootControlInfo.set_variable_address context) (BootControlInfo.journal_generation context)
    (BootControlInfo.slot context)
    (if BootControlInfo.is_update_stageable context then STAGE_READY else STAGE_UNAVAILABLE).

Definition target_slot (self : t) : option N :=
  if decide (state self <> STAGE_UNAVAILABLE) then Some (1 - N.min (confirmed_slot self) 1)
  else None.

Definition record (self : t) : option BootStageRecord.t :=
  match target_slot self with
  | Some slot => Some (BootStageRecord.mk slot (journal_generation self))
  | None => None
  end.

Definition with_state (self : t) (state : N) : t :=
  mk (set_variable_address self) (journal_generation self) (confirmed_slot self) state.

Definition lost (found : N) (record : BootStageRecord.t) : BootStageOutcome.t :=
  if decide (found = STAGE_DONE) then BootStageOutcome.AlreadyStaged record
  else BootStageOutcome.Failed.

Definition stage_with (self : t) (persist : BootStageRecord.t -> bool) : BootStageOutcome.t * t :=
  match record self with
  | None => (BootStageOutcome.Unavailable, self)
  | Some record =>
      if decide (state self = STAGE_READY) then
        let self := with_state self STAGE_IN_PROGRESS in
        if persist record
        then (BootStageOutcome.Staged record, with_state self STAGE_DONE)
        else (BootStageOutcome.Failed, with_state self STAGE_FAILED)
      else (lost (state self) record, self)
  end.

Definition stage (firmware : N -> EfiSetVariable.t -> N) (self : t) : BootStageOutcome.t * t :=
  stage_with self (fun record =>
    match BootStageRecord.encode record with
    | Some bytes =>
        set_variable firmware (set_variable_address self) NAGI_BOOT_STAGE_VARIABLE bytes
    | None => false
    end).
End BootStageGate.

(** ** The two statics *)

Module BootControl.
Record t := mk { BOOT_READINESS : BootReadinessGate.t; BOOT_STAGE : BootStageGate.t }.

Definition start : t := mk BootReadinessGate.new BootStageGate.new.

Definition initialize_stage (self : t) (context : BootControlInfo.t) : t :=
  mk (BOOT_READINESS self) (BootStageGate.configure (BOOT_STAGE self) context).

Definition initialize (self : t) (context : BootControlInfo.t) : t :=
  initialize_stage
    (mk (BootReadinessGate.configure (BOOT_READINESS self) context) (BOOT_STAGE self)) context.

Definition report (firmware : N -> EfiSetVariable.t -> N) (self : t)
  : BootReadinessOutcome.t * t :=
  let '(outcome, gate) := BootReadinessGate.report firmware (BOOT_READINESS self) in
  (outcome, mk gate (BOOT_STAGE self)).

Definition update_target_slot (self : t) : option N := BootStageGate.target_slot (BOOT_STAGE self).

Definition stage_update (firmware : N -> EfiSetVariable.t -> N) (self : t)
  : BootStageOutcome.t * t :=
  let '(outcome, gate) := BootStageGate.stage firmware (BOOT_STAGE self) in
  (outcome, mk (BOOT_READINESS self) gate).
End BootControl.

(** ** Concurrent callers

    Both gates follow one protocol on their state byte: load it and return early
    for the values [closed]; then exchange [ready] for [busy]; the winner writes
    the record and stores [done] or [failed], a loser returns what [lost] makes
    of the value found. A step is one atomic access, or the write itself. *)

Module OneShot.
Record protocol (R Out : Type) := Protocol {
  closed : N -> Prop;
  closed_dec : forall n, Decision (closed n);
  ready : N;
  busy : N;
  done : N;
  failed : N;
  early : Out;
  won : bool -> R -> Out;
  lost : N -> R -> Out
}.
Arguments closed {R Out} _ _.
Arguments closed_dec {R Out} _ _.
Arguments ready {R Out} _.
Arguments busy {R Out} _.
Arguments done {R Out} _.
Arguments failed {R Out} _.
Arguments early {R Out} _.
Arguments won {R Out} _ _ _.
Arguments lost {R Out} _ _ _.

(** Where a caller is: about to load, about to exchange, about to write, about
    to store the result of its write, or returned. *)
Inductive caller (Out : Type) := Start | Open | Won | Wrote (ok : bool) | Returned (outcome : Out).
Arguments Start {Out}.
Arguments Open {Out}.
Arguments Won {Out}.
Arguments Wrote {Out} _.
Arguments Returned {Out} _.

(** The state byte, the callers, and the results of the writes so far. *)
Record system (Out : Type) := System { byte : N; callers : list (caller Out); writes : list bool }.
Arguments System {Out} _ _ _.
Arguments byte {Out} _.
Arguments callers {Out} _.
Arguments writes {Out} _.

Section protocol.
Context {R Out : Type} (P : protocol R Out) (record : R).

(** One access of a caller; [ok] is what the firmware answers to a write. *)
Definition access (ok : bool) (n : N) (c : caller Out) : option (N * caller Out * list bool) :=
  match c with
  | Start =>
      Some (n, if closed_dec P n then Returned (early P) else Open, [])
  | Open =>
      if decide (n = ready P) then Some (busy P, Won, [])
      else Some (n, Returned (lost P n record), [])
  | Won => Some (n, Wrote ok, [ok])
  | Wrote ok => Some (if ok then done P else failed P, Returned (won P ok record), [])
  | Returned _ => None
  end.

Inductive step : system Out -> system Out -> Prop :=
  | step_caller n cs ws i c ok n' c' ws' :
      cs !! i = Some c -> access ok n c = Some (n', c', ws') ->
      step (System n cs ws) (System n' (<[i := c']> cs) (ws ++ ws')).

(** One caller alone, to its return. *)
Fixpoint alone (fuel : nat) (ok : bool) (n : N) (c : caller Out) : option (Out * N) :=
  match fuel, c with
  | _, Returned outcome => Some (outcome, n)
  | O, _ => None
  | S fuel, c =>
      match access ok n c with
      | Some (n', c', _) => alone fuel ok n' c'
      | None => None
      end
  end.

(** The values of the byte are told apart. *)
Record distinct : Prop := {
  ready_open : ~ closed P (ready P);
  busy_open : ~ closed P (busy P);
  done_open : ~ closed P (done P);
  failed_open : ~ closed P (failed P);
  values_apart : NoDup [ready P; busy P; done P; failed P]
}.

(** A caller that has not won, given the writes so far. *)
Definition bystander (ws : list bool) (c : caller Out) : Prop :=
  c = Start \/ c = Open
  \/ exists n, c = Returned (lost P n record)
      /\ (n = busy P \/ (n = done P /\ ws = [true]) \/ (n = failed P /\ ws = [false])).

(** At most one caller has won, and the byte and the writes say how far it got. *)
Inductive phase : system Out -> Prop :=
  | phase_closed n cs :
      closed P n -> Forall (fun c => c = Start \/ c = Returned (early P)) cs ->
      phase (System n cs [])
  | phase_ready cs :
      Forall (fun c => c = Start \/ c = Open) cs -> phase (System (ready P) cs [])
  | phase_won cs w :
      cs !! w = Some Won -> (forall i c, i <> w -> cs !! i = Some c -> bystander [] c) ->
      phase (System (busy P) cs [])
  | phase_wrote cs w ok :
      cs !! w = Some (Wrote ok) -> (forall i c, i <> w -> cs !! i = Some c -> bystander [ok] c) ->
      phase (System (busy P) cs [ok])
  | phase_done cs w ok :
      cs !! w = Some (Returned (won P ok record)) ->
      (forall i c, i <> w -> cs !! i = Some c -> bystander [ok] c) ->
      phase (System (if ok then done P else failed P) cs [ok]).
End protocol.
End OneShot.

(** The two gates' protocols. *)

Definition readiness_protocol : OneShot.protocol BootReadyRecord.t BootReadinessOutcome.t :=
  OneShot.Protocol _ _ (fun n => n = UNCONFIGURED \/ n = NO_TRIAL) _
    NOT_REPORTED IN_PROGRESS PERSISTED FAILED BootReadinessOutcome.NoTrial
    (fun ok r => if ok then BootReadinessOutcome.Persisted r
                 else BootReadinessOutcome.PersistenceFailed r)
    BootReadinessGate.lost.

Definition stage_protocol : OneShot.protocol BootStageRecord.t BootStageOutcome.t :=
  OneShot.Protocol _ _ (fun n => n = STAGE_UNAVAILABLE) _
    STAGE_READY STAGE_IN_PROGRESS STAGE_DONE STAGE_FAILED BootStageOutcome.Unavailable
    (fun ok r => if ok then BootStageOutcome.Staged r else BootStageOutcome.Failed)
    BootStageGate.lost.

(** ** The protocol *)

Section protocol.
Context {R Out : Type} (P : OneShot.protocol R Out) (record : R).
Hypothesis Hd : OneShot.distinct P.
Implicit Types (cs : list (OneShot.caller Out)) (s : OneShot.system Out).

Lemma values_ne :
  OneShot.ready P <> OneShot.busy P /\ OneShot.ready P <> OneShot.done P
  /\ OneShot.ready P <> OneShot.failed P /\ OneShot.busy P <> OneShot.done P
  /\ OneShot.busy P <> OneShot.failed P /\ OneShot.done P <> OneShot.failed P.
Proof. destruct Hd as [_ _ _ _ Hnd]. rewrite !NoDup_cons, !not_elem_of_cons in Hnd. tauto. Qed.

(** A bystander moves while another caller is winning or has won. *)
Lemma bystander_access ws ok n c n' c' ws' :
  OneShot.bystander P record ws c -> ~ OneShot.closed P n -> n <> OneShot.ready P ->
  (n = OneShot.busy P \/ (n = OneShot.done P /\ ws = [true])
   \/ (n = OneShot.failed P /\ ws = [false])) ->
  OneShot.access P record ok n c = Some (n', c', ws') ->
  n' = n /\ ws' = [] /\ OneShot.bystander P record ws c'.
Proof.
  intros Hb Ho Hr Hn Ha. destruct Hb as [->|[->|(m&->&_)]]; simpl in Ha; [| |done].
  - destruct (OneShot.closed_dec P n); [done|]. simplify_eq. split_and!; [done..|]. right. by left.
  - rewrite decide_False in Ha by done. simplify_eq. split_and!; [done..|]. right. right. eauto.
Qed.

(** The others stay bystanders when one of them moves. *)
Lemma bystanders_insert ws cs w i c' :
  i <> w -> OneShot.bystander P record ws c' ->
  (forall j c, j <> w -> cs !! j = Some c -> OneShot.bystander P record ws c) ->
  forall j c, j <> w -> <[i := c']> cs !! j = Some c -> OneShot.bystander P record ws c.
Proof.
  intros Hi Hc' Hall j c Hj [(<-&<-&_)|[_ Hc]]%list_lookup_insert_Some; [done|by eauto].
Qed.

Lemma bystanders_winner ws cs w c' :
  (forall j c, j <> w -> cs !! j = Some c -> OneShot.bystander P record ws c) ->
  forall j c, j <> w -> <[w := c']> cs !! j = Some c -> OneShot.bystander P record ws c.
Proof.
  intros Hall j c Hj [(<-&<-&_)|[_ Hc]]%list_lookup_insert_Some; [done|by eauto].
Qed.

Lemma bystander_weaken ok c :
  OneShot.bystander P record [] c -> OneShot.bystander P record [ok] c.
Proof. unfold OneShot.bystander. naive_solver. Qed.

Lemma phase_step s s' :
  OneShot.phase P record s -> OneShot.step P record s s' -> OneShot.phase P record s'.
Proof.
  intros Hp Hs. destruct Hs as [n cs ws i c ok n' c' ws' Hi Ha].
  destruct values_ne as (Hrb&Hrd&Hrf&Hbd&Hbf&Hdf). destruct Hd as [Hro Hbo Hdo Hfo _].
  inversion Hp as [n0 cs0 Hc Hall|cs0 Hall|cs0 w Hw Hall|cs0 w ok' Hw Hall|cs0 w ok' Hw Hall];
    subst; clear Hp; rewrite ?app_nil_l.
  - destruct (Forall_lookup_1 _ _ _ _ Hall Hi) as [->| ->]; simpl in Ha; [|done].
    destruct (OneShot.closed_dec P n); [|done]. simplify_eq.
    constructor; [done|]. apply Forall_insert_slot; auto.
  - destruct (Forall_lookup_1 _ _ _ _ Hall Hi) as [->| ->]; simpl in Ha.
    + destruct (OneShot.closed_dec P _); [done|]. simplify_eq.
      apply OneShot.phase_ready. apply Forall_insert_slot; auto.
    + rewrite decide_True in Ha by done. simplify_eq.
      apply (OneShot.phase_won _ _ _ i); [by eapply list_lookup_insert_eq, lookup_lt_Some|].
      apply bystanders_winner. intros j c _ Hj.
      destruct (Forall_lookup_1 _ _ _ _ Hall Hj) as [->| ->]; [by left|by right; left].
  - destruct (decide (i = w)) as [->|Hne]; simplify_eq/=.
    + apply (OneShot.phase_wrote _ _ _ w); [by eapply list_lookup_insert_eq, lookup_lt_Some|].
      apply bystanders_winner. eauto using bystander_weaken.
    + destruct (bystander_access [] ok (OneShot.busy P) c n' c' ws') as (->&->&Hb); eauto.
      apply (OneShot.phase_won _ _ _ w); [by rewrite list_lookup_insert_ne|].
      by apply bystanders_insert.
  - destruct (decide (i = w)) as [->|Hne]; simplify_eq/=.
    + apply (OneShot.phase_done _ _ _ w); [by eapply list_lookup_insert_eq, lookup_lt_Some|].
      by apply bystanders_winner.
    + destruct (bystander_access [ok'] ok (OneShot.busy P) c n' c' ws') as (->&->&Hb); eauto.
      apply (OneShot.phase_wrote _ _ _ w); [by rewrite list_lookup_insert_ne|].
      by apply bystanders_insert.
  - destruct (decide (i = w)) as [->|Hne]; simplify_eq/=.
    destruct (bystander_access [ok'] ok (if ok' then OneShot.done P else OneShot.failed P)
      c n' c' ws') as (->&->&Hb); [eauto|by destruct ok'..|destruct ok'; auto|done|].
    apply (OneShot.phase_done _ _ _ w); [by rewrite list_lookup_insert_ne|].
    by apply bystanders_insert.
Qed.

(** [k] callers, and nothing written yet. *)
Lemma phase_start n k :
  n = OneShot.ready P \/ OneShot.closed P n ->
  OneShot.phase P record (OneShot.System n (replicate k OneShot.Start) []).
Proof.
  intros [->|Hc]; [apply OneShot.phase_ready|by constructor; [|apply Forall_replicate; left]].
  apply Forall_replicate. by left.
Qed.

Lemma phase_steps s s' :
  OneShot.phase P record s -> rtc (OneShot.step P record) s s' -> OneShot.phase P record s'.
Proof. intros Hp Hs. induction Hs; eauto using phase_step. Qed.

(** What a phase says of the writes and of what callers return. *)
Lemma phase_sound s :
  OneShot.phase P record s ->
  (length (OneShot.writes s) <= 1)%nat
  /\ (forall i o, OneShot.callers s !! i = Some (OneShot.Returned o) ->
       (o = OneShot.early P /\ OneShot.closed P (OneShot.byte s) /\ OneShot.writes s = [])
       \/ (exists ok, o = OneShot.won P ok record /\ OneShot.writes s = [ok])
       \/ (exists n, o = OneShot.lost P n record
            /\ (n = OneShot.busy P \/ (n = OneShot.done P /\ OneShot.writes s = [true])
                \/ (n = OneShot.failed P /\ OneShot.writes s = [false]))))
  /\ (forall i j ok, OneShot.won P ok record <> OneShot.early P ->
       (forall n, OneShot.won P ok record <> OneShot.lost P n record) ->
       OneShot.callers s !! i = Some (OneShot.Returned (OneShot.won P ok record)) ->
       OneShot.callers s !! j = Some (OneShot.Returned (OneShot.won P ok record)) -> i = j).
Proof.
  assert (Hby : forall ws o, OneShot.bystander P record ws (OneShot.Returned o) ->
    exists n, o = OneShot.lost P n record /\ (n = OneShot.busy P
      \/ (n = OneShot.done P /\ ws = [true]) \/ (n = OneShot.failed P /\ ws = [false]))).
  { intros ws o [?|[?|(n&Hn&?)]]; [done..|]. simplify_eq. eauto. }
  assert (Hwin : forall cs w ws ok, (forall n, OneShot.won P ok record <> OneShot.lost P n record) ->
    (forall i c, i <> w -> cs !! i = Some c -> OneShot.bystander P record ws c) ->
    forall i, cs !! i = Some (OneShot.Returned (OneShot.won P ok record)) -> i = w).
  { intros cs w ws ok Hl Hall i Hi. destruct (decide (i = w)) as [|Hne]; [done|].
    destruct (Hby _ _ (Hall _ _ Hne Hi)) as (n&Hn&_). by destruct (Hl n). }
  intros [n cs Hc Hall|cs Hall|cs w Hw Hall|cs w ok Hw Hall|cs w ok Hw Hall]; simpl;
    (split; [lia|]); split.
  - intros i o Hi. destruct (Forall_lookup_1 _ _ _ _ Hall Hi); naive_solver.
  - intros i j ok Hei _ Hi _. destruct (Forall_lookup_1 _ _ _ _ Hall Hi); naive_solver.
  - intros i o Hi. destruct (Forall_lookup_1 _ _ _ _ Hall Hi); naive_solver.
  - intros i j ok _ _ Hi _. destruct (Forall_lookup_1 _ _ _ _ Hall Hi); naive_solver.
  - intros i o Hi. destruct (decide (i = w)) as [->|Hne]; [by simplify_eq|]. eauto 6.
  - intros i j ok _ Hl Hi Hj. by rewrite (Hwin cs w _ ok Hl Hall i), (Hwin cs w _ ok Hl Hall j).
  - intros i o Hi. destruct (decide (i = w)) as [->|Hne]; [by simplify_eq|]. eauto 6.
  - intros i j ok' _ Hl Hi Hj. by rewrite (Hwin cs w _ ok' Hl Hall i), (Hwin cs w _ ok' Hl Hall j).
  - intros i o Hi. destruct (decide (i = w)) as [->|Hne]; [simplify_eq; eauto|]. eauto 6.
  - intros i j ok' _ Hl Hi Hj. by rewrite (Hwin cs w _ ok' Hl Hall i), (Hwin cs w _ ok' Hl Hall j).
Qed.

(** A caller alone returns after at most four accesses. *)
Lemma alone_eq ok n :
  OneShot.alone P record 4 ok n OneShot.Start =
  Some (if OneShot.closed_dec P n then (OneShot.early P, n)
        else if decide (n = OneShot.ready P)
        then (OneShot.won P ok record, if ok then OneShot.done P else OneShot.failed P)
        else (OneShot.lost P n record, n)).
Proof.
  simpl. destruct (OneShot.closed_dec P n); [done|]. simpl. by case_decide.
Qed.

(** A gate that starts closed stays closed and writes nothing. *)
Lemma closed_steps s s' :
  OneShot.phase P record s -> OneShot.closed P (OneShot.byte s) ->
  rtc (OneShot.step P record) s s' -> OneShot.writes s' = [].
Proof.
  destruct Hd as [Hro Hbo Hdo Hfo _].
  assert (Hnil : forall s, OneShot.phase P record s -> OneShot.closed P (OneShot.byte s) ->
    OneShot.writes s = []) by (by intros ? [| | | |? ? []]).
  intros Hp Hc Hs. induction Hs as [s|s1 s2 s3 Hstep _ IH]; [by apply Hnil|].
  apply IH; [by eapply phase_step|].
  destruct Hstep as [n cs ws i c ok n' c' ws' Hi Ha]. simpl in *.
  inversion Hp as [n0 cs0 _ Hall| | | |? ? []]; subst; try done.
  destruct (Forall_lookup_1 _ _ _ _ Hall Hi) as [->| ->]; simpl in Ha; by simplify_eq.
Qed.
End protocol.

Lemma readiness_distinct : OneShot.distinct readiness_protocol.
Proof.
  split; simpl; [by intros [?|?]..|]. apply (bool_decide_unpack _). by vm_compute.
Qed.

Lemma stage_distinct : OneShot.distinct stage_protocol.
Proof. split; simpl; [done..|]. apply (bool_decide_unpack _). by vm_compute. Qed.

(** A report is one caller of the protocol running alone. *)
Lemma report_with_alone gate persist :
  let '(outcome, gate') := BootReadinessGate.report_with gate persist in
  OneShot.alone readiness_protocol (BootReadinessGate.record gate) 4
    (persist (BootReadinessGate.record gate)) (BootReadinessGate.state gate) OneShot.Start
  = Some (outcome, BootReadinessGate.state gate').
Proof.
  unfold BootReadinessGate.report_with. rewrite alone_eq.
  set (r := BootReadinessGate.record gate).
  destruct (OneShot.closed_dec readiness_protocol _) as [Hc|Hc]; simpl in Hc.
  - by rewrite decide_True.
  - rewrite decide_False by done. simpl. case_decide; [|done]. by destruct (persist r).
Qed.

Lemma stage_with_alone gate persist record :
  BootStageGate.record gate = Some record ->
  let '(outcome, gate') := BootStageGate.stage_with gate persist in
  OneShot.alone stage_protocol record 4 (persist record) (BootStageGate.state gate) OneShot.Start
  = Some (outcome, BootStageGate.state gate').
Proof.
  intros Hr. unfold BootStageGate.stage_with. rewrite Hr, alone_eq.
  unfold BootStageGate.record, BootStageGate.target_slot in Hr.
  destruct (OneShot.closed_dec stage_protocol _) as [Hc|Hc]; simpl in Hc.
  - by rewrite decide_False in Hr by tauto.
  - clear Hr. simpl. case_decide; [|done]. by destruct (persist record).
Qed.

(** The outcomes of the readiness gate, told apart. *)
Lemma readiness_outcomes s record :
  OneShot.phase readiness_protocol record s ->
  (forall i r, OneShot.callers s !! i = Some (OneShot.Returned (BootReadinessOutcome.Persisted r)) ->
     r = record /\ OneShot.writes s = [true])
  /\ (forall i r,
      OneShot.callers s !! i = Some (OneShot.Returned (BootReadinessOutcome.AlreadyPersisted r)) ->
      r = record /\ OneShot.writes s = [true]).
Proof.
  intros Hp. destruct (phase_sound _ _ s Hp) as (_&Ho&_).
  split; intros i r Hi; destruct (Ho _ _ Hi) as [(?&_)|[([]&?&?)|(n&Hl&Hn)]]; simplify_eq/=; try done;
    destruct Hn as [->|[[-> ?]|[-> ?]]]; vm_compute in Hl; simplify_eq; done.
Qed.

Lemma stage_outcomes s record :
  OneShot.phase stage_protocol record s ->
  (forall i r, OneShot.callers s !! i = Some (OneShot.Returned (BootStageOutcome.Staged r)) ->
     r = record /\ OneShot.writes s = [true])
  /\ (forall i r,
      OneShot.callers s !! i = Some (OneShot.Returned (BootStageOutcome.AlreadyStaged r)) ->
      r = record /\ OneShot.writes s = [true]).
Proof.
  intros Hp. destruct (phase_sound _ _ s Hp) as (_&Ho&_).
  split; intros i r Hi; destruct (Ho _ _ Hi) as [(?&_)|[([]&?&?)|(n&Hl&Hn)]]; simplify_eq/=; try done;
    destruct Hn as [->|[[-> ?]|[-> ?]]]; vm_compute in Hl; simplify_eq; done.
Qed.

Lemma readiness_lost_not_won n r r' :
  BootReadinessOutcome.Persisted r <> BootReadinessGate.lost n r'.
Proof. unfold BootReadinessGate.lost. by repeat case_decide. Qed.

Lemma stage_lost_not_won n r r' : BootStageOutcome.Staged r <> BootStageGate.lost n r'.
Proof. unfold BootStageGate.lost. by repeat case_decide. Qed.


Lemma is_trial_spec context :
  BootControlInfo.is_trial context = true ->
  BootControlInfo.slot context <= 1 /\ 1 <= BootControlInfo.attempt context <= 3
  /\ BootControlInfo.journal_generation context <> 0
  /\ BootReadinessGate.context (BootReadinessGate.configure BootReadinessGate.new context) = context.
Proof.
  destruct context as [address generation slot attempt flags reserved].
  unfold BootControlInfo.is_trial, BootReadinessGate.context. simpl.
  rewrite !andb_true_iff, !bool_decide_eq_true. intros [[[[[[??]?]?]?]Hf]Hr]. by subst.
Qed.

Lemma is_update_stageable_spec context :
  BootControlInfo.is_update_stageable context = true ->
  BootControlInfo.slot context <= 1 /\ BootControlInfo.set_variable_address context <> 0.
Proof.
  unfold BootControlInfo.is_update_stageable.
  rewrite !andb_true_iff, !bool_decide_eq_true. tauto.
Qed.

Lemma report_trial firmware context bytes :
  BootControlInfo.is_trial context = true ->
  let self := BootControl.initialize BootControl.start context in
  let record := BootReadinessGate.record (BootControl.BOOT_READINESS self) in
  BootReadyRecord.encode record = Some bytes ->
  (BootControl.report firmware self).1 =
  if decide (firmware (BootControlInfo.set_variable_address context)
       (EfiSetVariable.mk NAGI_BOOT_READY_VARIABLE NAGI_BOOT_CONTROL_VENDOR
          UEFI_VARIABLE_ATTRIBUTES bytes) = 0)
  then BootReadinessOutcome.Persisted record else BootReadinessOutcome.PersistenceFailed record.
Proof.
  intros Ht self record He. destruct (is_trial_spec _ Ht) as (_&_&_&Hc).
  unfold BootControl.report, BootReadinessGate.report, BootReadinessGate.report_with.
  change (BootControl.BOOT_READINESS self)
    with (BootReadinessGate.configure BootReadinessGate.new context) in *.
  rewrite Hc. fold record. cbn [BootReadinessGate.configure BootReadinessGate.state].
  rewrite Ht. rewrite decide_False by (by intros [?|?]). rewrite decide_True by done.
  unfold persist_readiness. rewrite He, Ht. cbn [negb].
  by case_bool_decide; case_decide.
Qed.

Lemma stage_update_staged firmware context bytes :
  BootControlInfo.is_update_stageable context = true ->
  let self := BootControl.initialize BootControl.start context in
  let record := BootStageRecord.mk (1 - N.min (BootControlInfo.slot context) 1)
                  (BootControlInfo.journal_generation context) in
  BootStageRecord.encode record = Some bytes ->
  (BootControl.stage_update firmware self).1 =
  if decide (firmware (BootControlInfo.set_variable_address context)
       (EfiSetVariable.mk NAGI_BOOT_STAGE_VARIABLE NAGI_BOOT_CONTROL_VENDOR
          UEFI_VARIABLE_ATTRIBUTES bytes) = 0)
  then BootStageOutcome.Staged record else BootStageOutcome.Failed.
Proof.
  intros Hs self record He. destruct (is_update_stageable_spec _ Hs) as [_ Ha].
  unfold BootControl.stage_update, BootStageGate.stage, BootStageGate.stage_with.
  change (BootControl.BOOT_STAGE self) with (BootStageGate.configure BootStageGate.new context).
  unfold BootStageGate.record, BootStageGate.target_slot.
  cbn [BootStageGate.configure BootStageGate.state BootStageGate.confirmed_slot
       BootStageGate.journal_generation BootStageGate.set_variable_address].
  rewrite Hs. rewrite decide_True by done. fold record. rewrite decide_True by done.
  unfold set_variable. rewrite He, decide_False by done. by case_bool_decide; case_decide.
Qed.

(** A successful trial boot hands the firmware, under the readiness
    variable, exactly the bytes that the loader decodes to this boot's slot,
    attempt and journal generation; a stageable boot hands it the bytes that
    decode to the slot that is not confirmed. *)
Theorem reported_records_faithful firmware context :
  BootControlInfo.journal_generation context <= U64_MAX ->
  let self := BootControl.initialize BootControl.start context in
  (BootControlInfo.is_trial context = true ->
   exists bytes, BootReadyRecord.decode bytes
     = Some (BootReadyRecord.mk (BootControlInfo.slot context) (BootControlInfo.attempt context)
               (BootControlInfo.journal_generation context))
   /\ (BootControl.report firmware self).1 =
      let record := BootReadinessGate.record (BootControl.BOOT_READINESS self) in
      if decide (firmware (BootControlInfo.set_variable_address context)
           (EfiSetVariable.mk NAGI_BOOT_READY_VARIABLE NAGI_BOOT_CONTROL_VENDOR
              UEFI_VARIABLE_ATTRIBUTES bytes) = 0)
      then BootReadinessOutcome.Persisted record
      else BootReadinessOutcome.PersistenceFailed record)
  /\ (BootControlInfo.is_update_stageable context = true ->
   exists bytes record, BootStageRecord.decode bytes = Some record
   /\ BootStageRecord.slot record + BootControlInfo.slot context = 1
   /\ (BootControl.stage_update firmware self).1 =
      if decide (firmware (BootControlInfo.set_variable_address context)
           (EfiSetVariable.mk NAGI_BOOT_STAGE_VARIABLE NAGI_BOOT_CONTROL_VENDOR
              UEFI_VARIABLE_ATTRIBUTES bytes) = 0)
      then BootStageOutcome.Staged record else BootStageOutcome.Failed).
Proof.
  intros Hg self. split.
  - intros Ht. destruct (is_trial_spec _ Ht) as (Hslot&Hatt&Hgen&_).
    set (record := BootReadyRecord.mk _ _ _).
    assert (He : BootReadyRecord.encode record = Some (sealed (ready_payload record)))
      by (rewrite ready_encode_eq, decide_False; [done|simpl; lia]).
    exists (sealed (ready_payload record)). split; [by apply ready_decode_encode|].
    by apply report_trial.
  - intros Hs. destruct (is_update_stageable_spec _ Hs) as [Hslot _].
    set (record := BootStageRecord.mk (1 - N.min (BootControlInfo.slot context) 1)
                     (BootControlInfo.journal_generation context)).
    assert (He : BootStageRecord.encode record = Some (sealed (stage_payload record)))
      by (rewrite stage_encode_eq, decide_False; [done|simpl; lia]).
    exists (sealed (stage_payload record)), record. split; [by apply stage_decode_encode|].
    split; [simpl; lia|]. by apply stage_update_staged.
Qed.

(** ** A trial boot *)

Module BootControlExample.
Definition trial : BootControlInfo.t := BootControlInfo.mk 0x7f000000 9 1 2 0 (replicate 5 0).
Definition accepts (address : N) (call : EfiSetVariable.t) : N := 0.

Lemma reported_records_faithful_witness :
  (BootControl.report accepts (BootControl.initialize BootControl.start trial)).1
    = BootReadinessOutcome.Persisted (BootReadyRecord.mk 1 2 9).
Proof.
  pose proof (reported_records_faithful accepts trial ltac:(done)) as [H _].
  destruct (H eq_refl) as (bytes&_&->). reflexivity.
Defined.
End BootControlExample.
