(* ===== verification/UserIpc.v ===== *)
(** * The user IPC manager (kernel/src/user_ipc.rs)

    One handle table per process, a table of channels and the wait registry
    behind the channel system calls. This file composes the handle, channel and
    wait models: its operations call theirs as the code does. Every operation
    runs under the manager's lock, so a run of the system is a sequence of them. *)

From stdpp Require Import prelude.
From S2P Require Import Prelude Handles WaitRegistry Channel Events ProcessExit.

Local Open Scope N_scope.
Local Open Scope nagi_scope.

Definition BOOTSTRAP_PROCESS_ID : N := 1.
Definition MAX_USER_PROCESSES : nat := 1 + MAX_LIVE_PROCESSES.
Definition CHANNEL_CAPACITY : nat := 16.
Definition HANDLE_CAPACITY : nat := 64.
Definition OBJECT_CAPACITY : nat := 128.

(** ** The system-call records (crates/nagi-abi/src/lib.rs) *)

Module ChannelEndpoints.
Record t := mk { endpoint_a : N; endpoint_b : N }.
End ChannelEndpoints.

Module ChannelHandleTransfer.
Record t := mk { handle : N; rights : N; reserved : N }.
End ChannelHandleTransfer.

Module ChannelSendRequest.
Record t := mk {
  protocol_id : N;
  version : N;
  opcode : N;
  flags : N;
  request_id : N;
  payload_len : nat;
  transfer_count : nat;
  payload : list N;
  transfers : list ChannelHandleTransfer.t
}.

(** The arrays of a request have their declared lengths and handles are [u64]s. *)
Definition typed (self : t) : Prop :=
  length (payload self) = MAX_INLINE_PAYLOAD
  /\ length (transfers self) = MAX_TRANSFER_HANDLES
  /\ Forall (fun x => ChannelHandleTransfer.handle x <= U64_MAX) (transfers self).
End ChannelSendRequest.

Module ChannelReceiveResult.
Record t := mk {
  sender_process_id : N;
  reserved : N;
  protocol_id : N;
  version : N;
  opcode : N;
  flags : N;
  request_id : N;
  payload_len : nat;
  transfer_count : nat;
  payload : list N;
  handles : list N
}.
End ChannelReceiveResult.

Module UserIpcError.
Inductive t :=
  | Capacity
  | InvalidRequest
  | InvalidEndpoint
  | InvalidProcess
  | PeerClosed
  | Handle (e : HandleError.t)
  | Channel (e : ChannelError.t)
  | Wait (e : WaitError.t).
End UserIpcError.

Module ChannelWaitOutcome.
Inductive t := Readable | Blocked.
End ChannelWaitOutcome.

Module ChannelSlot.
Record t := mk {
  pair : option ChannelPair.t;
  object : option ObjectId.t;
  endpoint_a : option ObjectId.t;
  endpoint_b : option ObjectId.t
}.

Definition new : t := mk None None None None.

Definition contains_endpoint (self : t) (endpoint : ObjectId.t) : bool :=
  bool_decide (endpoint_a self = Some endpoint) || bool_decide (endpoint_b self = Some endpoint).

Definition clear (self : t) : t := mk None None None None.

Definition set_pair (self : t) (p : ChannelPair.t) : t :=
  mk (Some p) (object self) (endpoint_a self) (endpoint_b self).

(** [slot.pair.is_some() && slot.contains_endpoint(object)] *)
Definition serves (endpoint : ObjectId.t) (self : t) : Prop :=
  pair self <> None /\ contains_endpoint self endpoint = true.

#[global] Instance pair_free_dec (self : t) : Decision (pair self = None).
Proof. destruct (pair self); [right|left]; congruence. Defined.

#[global] Instance serves_dec endpoint self : Decision (serves endpoint self).
Proof. unfold serves. apply _. Defined.
End ChannelSlot.

Module UserIpcState.
Record t := mk {
  registry : ObjectRegistry.t;
  processes : list (option Process.t);
  channels : list ChannelSlot.t;
  waiters : WaitRegistry.t
}.

Definition new : t :=
  mk (ObjectRegistry.new OBJECT_CAPACITY) (replicate MAX_USER_PROCESSES None)
    (replicate CHANNEL_CAPACITY ChannelSlot.new) WaitRegistry.new.

Definition set_registry (self : t) (r : ObjectRegistry.t) : t :=
  mk r (processes self) (channels self) (waiters self).

Definition set_process (self : t) (i : nat) (p : option Process.t) : t :=
  mk (registry self) (<[i := p]> (processes self)) (channels self) (waiters self).

Definition set_channel (self : t) (i : nat) (slot : ChannelSlot.t) : t :=
  mk (registry self) (processes self) (<[i := slot]> (channels self)) (waiters self).

Definition set_waiters (self : t) (w : WaitRegistry.t) : t :=
  mk (registry self) (processes self) (channels self) w.

(** A method on [&mut self]: its result and the state it leaves, also on error. *)
Definition M (T : Type) : Type := Exec (Result T UserIpcError.t * t).

Definition ret {T} (self : t) (x : T) : M T := Ret (Ok x, self).
Definition fail {T} (self : t) (e : UserIpcError.t) : M T := Ret (Err e, self).

(** The [?] operator on the result of a method. *)
Definition bind {T U} (m : M T) (k : T -> t -> M U) : M U :=
  match m with
  | Panic => Panic
  | Ret (Err e, self) => Ret (Err e, self)
  | Ret (Ok x, self) => k x self
  end.

Definition release (self : t) (o : ObjectId.t) : t :=
  set_registry self (ObjectRegistry.release (registry self) o).2.

(** [self.registry.release(object)?] *)
Definition try_release (self : t) (o : ObjectId.t) : M unit :=
  match ObjectRegistry.release (registry self) o with
  | (Ok _, r) => ret (set_registry self r) tt
  | (Err e, r) => fail (set_registry self r) (UserIpcError.Handle e)
  end.

Definition initialize (self : t) : M unit :=
  let! first := index (processes self) 0 in
  match first with
  | Some _ => ret self tt
  | None =>
      match ObjectRegistry.create (registry self) ObjectKind.AddressSpace with
      | (Err e, r) => fail (set_registry self r) (UserIpcError.Handle e)
      | (Ok address_space, r) =>
          ret (set_process (set_registry self r) 0
                 (Some (Process.new HANDLE_CAPACITY BOOTSTRAP_PROCESS_ID address_space))) tt
      end
  end.

Definition has_id (process_id : N) (slot : option Process.t) : Prop :=
  Process.id <$> slot = Some process_id.

#[global] Instance has_id_dec process_id slot : Decision (has_id process_id slot).
Proof. unfold has_id. apply _. Defined.

Definition process_index (self : t) (process_id : N) : Result nat UserIpcError.t :=
  if decide (process_id = BOOTSTRAP_PROCESS_ID) then Ok 0%nat
  else
    match list_find (has_id process_id) (processes self) with
    | Some (i, _) => if decide (i <> 0%nat) then Ok i else Err UserIpcError.InvalidProcess
    | None => Err UserIpcError.InvalidProcess
    end.

(** [process_mut] and its callers' use of it: initialize, then check that the
    process exists. *)
Definition process_mut (self : t) (process_id : N) : M (nat * Process.t) :=
  bind (initialize self) (fun _ self =>
  match process_index self process_id with
  | Err e => fail self e
  | Ok i =>
      let! slot := index (processes self) i in
      match slot with
      | Some p => ret self (i, p)
      | None => fail self UserIpcError.InvalidProcess
      end
  end).

Definition process_ref (self : t) (process_id : N) : Exec (Result Process.t UserIpcError.t) :=
  match process_index self process_id with
  | Err e => Ret (Err e)
  | Ok i =>
      let! slot := index (processes self) i in
      Ret (match slot with Some p => Ok p | None => Err UserIpcError.InvalidProcess end)
  end.

(** [self.processes[self.process_index(process_id)?].as_mut().expect(..)] *)
Definition validated_process (self : t) (process_id : N) : M (nat * Process.t) :=
  match process_index self process_id with
  | Err e => fail self e
  | Ok i =>
      let! slot := index (processes self) i in
      match slot with
      | Some p => ret self (i, p)
      | None => Panic
      end
  end.

Definition locate_endpoint (self : t) (process_id : N) (handle : Handle.t)
  : Exec (Result (nat * ObjectId.t) UserIpcError.t) :=
  let! process := process_ref self process_id in
  Ret (
  match process with
  | Err _ => Err UserIpcError.InvalidEndpoint
  | Ok process =>
      match HandleTable.resolve (Process.handles process) (registry self) handle with
      | Err e => Err (UserIpcError.Handle e)
      | Ok endpoint =>
          if decide (ObjectId.kind endpoint <> ObjectKind.ChannelEndpoint)
          then Err UserIpcError.InvalidEndpoint
          else
            match list_find (ChannelSlot.serves endpoint) (channels self) with
            | None => Err UserIpcError.InvalidEndpoint
            | Some (i, _) => Ok (i, endpoint)
            end
      end
  end).

(** [self.locate_endpoint(..)?] *)
Definition try_locate (self : t) (process_id : N) (handle : Handle.t) : M (nat * ObjectId.t) :=
  let! located := locate_endpoint self process_id handle in Ret (located, self).

(** [self.channels[index].pair.as_mut().expect("located live Channel")] *)
Definition located_pair (self : t) (i : nat) : Exec (ChannelSlot.t * ChannelPair.t) :=
  let! slot := index (channels self) i in
  match ChannelSlot.pair slot with
  | Some p => Ret (slot, p)
  | None => Panic
  end.

(** ** Reachability *)

(** Does any process handle or queued transfer name the endpoint? *)
Fixpoint escrow_names (pairs : list ChannelPair.t) (endpoint : ObjectId.t) (reachable : bool)
  : Exec bool :=
  match pairs with
  | [] => Ret reachable
  | p :: pairs =>
      let! reachable := ChannelPair.visit_escrow_objects p
                          (fun b o => b || bool_decide (o = endpoint)) reachable in
      escrow_names pairs endpoint reachable
  end.

Definition endpoint_reachable (self : t) (endpoint : ObjectId.t) : Exec bool :=
  let named := foldl (fun b p => HandleTable.visit_objects (Process.handles p)
                                   (fun b o => b || bool_decide (o = endpoint)) b)
                 false (omap id (processes self)) in
  escrow_names (omap ChannelSlot.pair (channels self)) endpoint named.

(** The channel an object is an endpoint of. *)
Definition channel_of (channels : list ChannelSlot.t) (o : ObjectId.t) : option nat :=
  if decide (ObjectId.kind o = ObjectKind.ChannelEndpoint)
  then fst <$> list_find (ChannelSlot.serves o) channels else None.

(** The marking visitor of the first phase. *)
Definition mark (channels : list ChannelSlot.t) (reachable : list bool) (o : ObjectId.t)
  : list bool :=
  match channel_of channels o with
  | Some i => <[i := true]> reachable
  | None => reachable
  end.

(** The marking visitor of the second phase, which notes a change. *)
Definition mark_changed (channels : list ChannelSlot.t) (s : list bool * bool) (o : ObjectId.t)
  : list bool * bool :=
  match channel_of channels o with
  | Some i =>
      if decide (s.1 !! i = Some false) then (<[i := true]> s.1, true) else s
  | None => s
  end.

Definition mark_roots (self : t) : list bool :=
  foldl (fun reachable p => HandleTable.visit_objects (Process.handles p)
                              (mark (channels self)) reachable)
    (replicate CHANNEL_CAPACITY false) (omap id (processes self)).

(** [for source in 0..CHANNEL_CAPACITY] *)
Fixpoint mark_pass (channels : list ChannelSlot.t) (sources : list nat) (s : list bool * bool)
  : Exec (list bool * bool) :=
  match sources with
  | [] => Ret s
  | source :: sources =>
      let! marked := index s.1 source in
      if negb marked then mark_pass channels sources s
      else
        let! slot := index channels source in
        match ChannelSlot.pair slot with
        | None => mark_pass channels sources s
        | Some p =>
            let! s := ChannelPair.visit_escrow_objects p (mark_changed channels) s in
            mark_pass channels sources s
        end
  end.

(** [loop { .. if !changed { break } }]; [None] is running out of fuel. *)
Fixpoint mark_loop (fuel : nat) (channels : list ChannelSlot.t) (reachable : list bool)
  : option (Exec (list bool)) :=
  match fuel with
  | O => None
  | S fuel =>
      match mark_pass channels (seq 0 CHANNEL_CAPACITY) (reachable, false) with
      | Panic => Some Panic
      | Ret (reachable, changed) =>
          if (changed : bool) then mark_loop fuel channels reachable else Some (Ret reachable)
      end
  end.

(** The body of the sweep for an unreachable live slot. *)
Definition sweep_slot (self : t) (i : nat) (slot : ChannelSlot.t) (p : ChannelPair.t) : M unit :=
  match ChannelSlot.endpoint_a slot, ChannelSlot.endpoint_b slot, ChannelSlot.object slot with
  | Some endpoint_a, Some endpoint_b, Some object =>
      match ChannelPair.drain p (registry self) with
      | Some (Ret (drained, p, r)) =>
          let self := set_registry (set_channel self i (ChannelSlot.set_pair slot p)) r in
          match drained with
          | Err e => fail self (UserIpcError.Channel e)
          | Ok _ =>
              bind (try_release self endpoint_a) (fun _ self =>
              bind (try_release self endpoint_b) (fun _ self =>
              bind (try_release self object) (fun _ self =>
              ret (set_channel self i (ChannelSlot.clear slot)) tt)))
          end
      | Some Panic | None => Panic
      end
  | _, _, _ => Panic
  end.

Fixpoint sweep (self : t) (reachable : list bool) (i : nat) : M unit :=
  match reachable with
  | [] => ret self tt
  | is_reachable :: reachable =>
      let! slot := index (channels self) i in
      match is_reachable, ChannelSlot.pair slot with
      | false, Some p =>
          bind (sweep_slot self i slot p) (fun _ self => sweep self reachable (S i))
      | _, _ => sweep self reachable (S i)
      end
  end.

Definition collect_unreachable_channels (self : t) : M unit :=
  match mark_loop (S CHANNEL_CAPACITY) (channels self) (mark_roots self) with
  | Some (Ret reachable) => sweep self reachable 0
  | Some Panic | None => Panic
  end.

(** ** Operations *)

Definition release_created_objects (self : t) (channel endpoint_a endpoint_b : ObjectId.t) : t :=
  release (release (release self endpoint_a) endpoint_b) channel.

Definition register_spawned_process (self : t) (parent child endpoint : N) (rights : Rights.t)
  : M N :=
  bind (initialize self) (fun _ self =>
  if decide (parent <> BOOTSTRAP_PROCESS_ID \/ child <= BOOTSTRAP_PROCESS_ID)
  then fail self UserIpcError.InvalidProcess
  else if is_ok (process_index self child) then fail self UserIpcError.InvalidProcess
  else
    match list_find (fun slot => slot = None) (drop 1 (processes self)) with
    | None => fail self UserIpcError.Capacity
    | Some (k, _) =>
        let child_index := S k in
        let handle := Handle.from_raw endpoint in
        bind (try_locate self parent handle) (fun _ self =>
        match ObjectRegistry.create (registry self) ObjectKind.AddressSpace with
        | (Err e, r) => fail (set_registry self r) (UserIpcError.Handle e)
        | (Ok address_space, r) =>
            let self := set_registry self r in
            let child_process := Process.new HANDLE_CAPACITY child address_space in
            match process_index self parent with
            | Err e => fail self e
            | Ok parent_index =>
                let! parent_slot := index (processes self) parent_index in
                match parent_slot with
                | None => fail self UserIpcError.InvalidProcess
                | Some parent_process =>
                    match HandleTable.begin_move (Process.handles parent_process)
                            (registry self) handle rights with
                    | (Err e, table) =>
                        let self := set_process self parent_index
                                      (Some (Process.set_handles parent_process table)) in
                        fail (release self address_space) (UserIpcError.Handle e)
                    | (Ok token, table) =>
                        let self := set_process self parent_index
                                      (Some (Process.set_handles parent_process table)) in
                        match HandleTable.install_token (Process.handles child_process)
                                (registry self) (Some token) with
                        | (Ok child_handle, child_table, _) =>
                            ret (set_process self child_index
                                   (Some (Process.set_handles child_process child_table)))
                              (Handle.raw child_handle)
                        | (Err e, _, token) =>
                            let self :=
                              match token with
                              | Some token =>
                                  release self
                                    (Capability.object (TransferToken.capability token))
                              | None => self
                              end in
                            let self := release self address_space in
                            let! (_, self) := collect_unreachable_channels self in
                            fail self (UserIpcError.Handle e)
                        end
                    end
                end
            end
        end)
    end).

Definition exit_process (self : t) (process_id : N) : M unit :=
  if decide (process_id = BOOTSTRAP_PROCESS_ID) then fail self UserIpcError.InvalidProcess
  else
    match process_index self process_id with
    | Err e => fail self e
    | Ok i =>
        let! slot := index (processes self) i in
        let self := set_process self i None in
        match slot with
        | None => fail self UserIpcError.InvalidProcess
        | Some process =>
            let '(_, r) := HandleTable.close_all (Process.handles process) (registry self) in
            let self := release (set_registry self r) (Process.address_space process) in
            collect_unreachable_channels self
        end
    end.

(** The rights of a new endpoint. *)
Definition ENDPOINT_RIGHTS : Rights.t :=
  Rights.bitor (Rights.bitor (Rights.bitor Rights.READ Rights.WRITE) Rights.WAIT) Rights.TRANSFER.

(** The end of [create_pair], once the three objects exist. *)
Definition install_pair (self : t) (process_id : N) (slot_index : nat)
  (channel endpoint_a endpoint_b : ObjectId.t) (chan : ChannelPair.t) : M ChannelEndpoints.t :=
  bind (validated_process self process_id) (fun '(i, process) self =>
  match HandleTable.insert (Process.handles process) (registry self) endpoint_a
          ENDPOINT_RIGHTS with
  | (Err e, table, r) =>
      let self := set_registry (set_process self i (Some (Process.set_handles process table))) r in
      fail (release_created_objects self channel endpoint_a endpoint_b) (UserIpcError.Handle e)
  | (Ok first, table, r) =>
      match HandleTable.insert table r endpoint_b ENDPOINT_RIGHTS with
      | (Err e, table, r) =>
          let '(_, table, r) := HandleTable.close table r first in
          let self := set_registry (set_process self i (Some (Process.set_handles process table)))
                        r in
          fail (release_created_objects self channel endpoint_a endpoint_b)
            (UserIpcError.Handle e)
      | (Ok second, table, r) =>
          let self := set_registry (set_process self i (Some (Process.set_handles process table)))
                        r in
          ret (set_channel self slot_index
                 (ChannelSlot.mk (Some chan) (Some channel) (Some endpoint_a) (Some endpoint_b)))
            (ChannelEndpoints.mk (Handle.raw first) (Handle.raw second))
      end
  end).

Definition create_pair (self : t) (process_id : N) : M ChannelEndpoints.t :=
  bind (process_mut self process_id) (fun _ self =>
  match list_find (fun slot => ChannelSlot.pair slot = None) (channels self) with
  | None => fail self UserIpcError.Capacity
  | Some (slot_index, _) =>
      match ObjectRegistry.create (registry self) ObjectKind.Channel with
      | (Err e, r) => fail (set_registry self r) (UserIpcError.Handle e)
      | (Ok channel, r) =>
          match ObjectRegistry.create r ObjectKind.ChannelEndpoint with
          | (Err e, r) => fail (release (set_registry self r) channel) (UserIpcError.Handle e)
          | (Ok endpoint_a, r) =>
              match ObjectRegistry.create r ObjectKind.ChannelEndpoint with
              | (Err e, r) =>
                  fail (release (release (set_registry self r) endpoint_a) channel)
                    (UserIpcError.Handle e)
              | (Ok endpoint_b, r) =>
                  let self := set_registry self r in
                  match ChannelPair.new channel endpoint_a endpoint_b with
                  | Err e =>
                      fail (release_created_objects self channel endpoint_a endpoint_b)
                        (UserIpcError.Channel e)
                  | Ok chan =>
                      install_pair self process_id slot_index channel endpoint_a endpoint_b chan
                  end
              end
          end
      end
  end).

(** [for transfer in request.transfers.iter().take(transfer_count)] *)
Fixpoint add_transfers (message : OutgoingMessage.t) (transfers : list ChannelHandleTransfer.t)
  : Result OutgoingMessage.t UserIpcError.t :=
  match transfers with
  | [] => Ok message
  | transfer :: transfers =>
      if decide (ChannelHandleTransfer.reserved transfer <> 0) then Err UserIpcError.InvalidRequest
      else
        match Rights.from_bits (ChannelHandleTransfer.rights transfer) with
        | None => Err UserIpcError.InvalidRequest
        | Some rights =>
            match OutgoingMessage.add_transfer message
                    (Handle.from_raw (ChannelHandleTransfer.handle transfer)) rights with
            | (Err e, _) => Err (UserIpcError.Channel e)
            | (Ok _, message) => add_transfers message transfers
            end
        end
  end.

(** The part of [send] that reads the request. *)
Definition compose (request : ChannelSendRequest.t)
  : Exec (Result OutgoingMessage.t UserIpcError.t) :=
  if decide (MAX_INLINE_PAYLOAD < ChannelSendRequest.payload_len request
             \/ MAX_TRANSFER_HANDLES < ChannelSendRequest.transfer_count request)%nat
  then Ret (Err UserIpcError.InvalidRequest)
  else
    let message := OutgoingMessage.new
                     (MessageHeader.mk (ChannelSendRequest.protocol_id request)
                        (ChannelSendRequest.version request)
                        (ChannelSendRequest.request_id request)
                        (ChannelSendRequest.opcode request)
                        (ChannelSendRequest.flags request)) in
    let! bytes := slice_to (ChannelSendRequest.payload request)
                    (ChannelSendRequest.payload_len request) in
    Ret (
    match OutgoingMessage.set_payload message bytes with
    | (Err e, _) => Err (UserIpcError.Channel e)
    | (Ok _, message) =>
        add_transfers message (take (ChannelSendRequest.transfer_count request)
                                 (ChannelSendRequest.transfers request))
    end).

Definition send (self : t) (process_id endpoint : N) (request : ChannelSendRequest.t)
  : M WokenWaiters.t :=
  bind (process_mut self process_id) (fun _ self =>
  let! message := compose request in
  match message with
  | Err e => fail self e
  | Ok message =>
      bind (try_locate self process_id (Handle.from_raw endpoint))
        (fun '(channel_index, sender_endpoint) self =>
      let! slot := index (channels self) channel_index in
      let peer := if decide (ChannelSlot.endpoint_a slot = Some sender_endpoint)
                  then ChannelSlot.endpoint_b slot else ChannelSlot.endpoint_a slot in
      let! open := match peer with
                   | Some peer => endpoint_reachable self peer
                   | None => Ret false
                   end in
      if negb open then fail self UserIpcError.PeerClosed
      else
        bind (validated_process self process_id) (fun '(i, process) self =>
        let! (slot, chan) := located_pair self channel_index in
        let! (sent, chan, process, waiters) :=
          ChannelPair.send chan (registry self) process (Handle.from_raw endpoint) message
            (waiters self) in
        let self := set_waiters (set_channel (set_process self i (Some process)) channel_index
                                   (ChannelSlot.set_pair slot chan)) waiters in
        match sent with
        | Err e => fail self (UserIpcError.Channel e)
        | Ok _ =>
            let! (woken, waiters) := WaitRegistry.take_woken_waiters waiters in
            ret (set_waiters self waiters) woken
        end))
  end).

(** [on_blocked] is what the caller's closure answers. *)
Definition wait_readable (self : t) (process_id endpoint waiter_id : N) (on_blocked : bool)
  : M ChannelWaitOutcome.t :=
  bind (process_mut self process_id) (fun _ self =>
  let handle := Handle.from_raw endpoint in
  bind (try_locate self process_id handle) (fun '(channel_index, _) self =>
  let! process := process_ref self process_id in
  match process with
  | Err e => fail self e
  | Ok process =>
      let! (_, chan) := located_pair self channel_index in
      let! item := channel_wait_item_for_process chan (registry self) process handle
                     Signals.READABLE in
      match item with
      | Err e => fail self (UserIpcError.Channel e)
      | Ok item =>
          let! (result, waiters, _) := wait (waiters self) (Waiter.new waiter_id) item in
          let self := set_waiters self waiters in
          match result with
          | Ok _ => ret self ChannelWaitOutcome.Readable
          | Err WaitError.Blocked =>
              if on_blocked then ret self ChannelWaitOutcome.Blocked
              else fail (set_waiters self (WaitRegistry.cancel_waiter waiters waiter_id))
                     (UserIpcError.Wait WaitError.Invalid)
          | Err e => fail self (UserIpcError.Wait e)
          end
      end
  end)).

Fixpoint raw_handles (received : ReceivedMessage.t) (indices : list nat) (handles : list N)
  : Exec (list N) :=
  match indices with
  | [] => Ret handles
  | i :: indices =>
      match ReceivedMessage.handle received i with
      | None => Panic
      | Some h =>
          let! handles := store handles i (Handle.raw h) in
          raw_handles received indices handles
      end
  end.

(** The record [try_receive] builds from a delivered message. *)
Definition receive_result (received : ReceivedMessage.t) : Exec ChannelReceiveResult.t :=
  let header := ReceivedMessage.header received in
  let! bytes := ReceivedMessage.payload received in
  let! payload := copy_into (replicate MAX_INLINE_PAYLOAD 0) 0 bytes in
  let! handles := raw_handles received (seq 0 (ReceivedMessage.handle_count received))
                    (replicate MAX_TRANSFER_HANDLES 0) in
  Ret (ChannelReceiveResult.mk (ReceivedMessage.sender_process_id received) 0
         (MessageHeader.protocol_id header) (MessageHeader.version header)
         (MessageHeader.opcode header) (MessageHeader.flags header)
         (MessageHeader.request_id header) (length bytes)
         (ReceivedMessage.handle_count received) payload handles).

Definition try_receive (self : t) (process_id endpoint : N)
  : M (option ChannelReceiveResult.t) :=
  bind (process_mut self process_id) (fun _ self =>
  let handle := Handle.from_raw endpoint in
  bind (try_locate self process_id handle) (fun '(channel_index, _) self =>
  bind (validated_process self process_id) (fun '(i, process) self =>
  let! (slot, chan) := located_pair self channel_index in
  let! (received, chan, process) := ChannelPair.receive chan (registry self) process handle in
  let self := set_channel (set_process self i (Some process)) channel_index
                (ChannelSlot.set_pair slot chan) in
  match received with
  | Err e => fail self (UserIpcError.Channel e)
  | Ok None => ret self None
  | Ok (Some received) =>
      let! result := receive_result received in
      ret self (Some result)
  end))).

Definition close (self : t) (process_id raw_handle : N) : M unit :=
  bind (process_mut self process_id) (fun _ self =>
  let handle := Handle.from_raw raw_handle in
  bind (try_locate self process_id handle) (fun _ self =>
  bind (validated_process self process_id) (fun '(i, process) self =>
  match HandleTable.close (Process.handles process) (registry self) handle with
  | (closed, table, r) =>
      let self := set_registry (set_process self i (Some (Process.set_handles process table))) r in
      match closed with
      | Err e => fail self (UserIpcError.Handle e)
      | Ok _ => collect_unreachable_channels self
      end
  end))).

Definition cancel_waiter (self : t) (waiter_id : N) : t :=
  set_waiters self (WaitRegistry.cancel_waiter (waiters self) waiter_id).
End UserIpcState.

(** ** What the manager maintains *)

(** The references a process slot and the fields of a channel slot account for. *)
Definition process_refs (o : ObjectId.t) (slot : option Process.t) : N :=
  match slot with
  | Some p => HandleTable.holds (Process.handles p) o + same (Process.address_space p) o
  | None => 0
  end.

Definition optional (o : ObjectId.t) (x : option ObjectId.t) : N :=
  match x with Some x => same x o | None => 0 end.

Definition slot_refs (o : ObjectId.t) (slot : ChannelSlot.t) : N :=
  optional o (ChannelSlot.endpoint_a slot) + optional o (ChannelSlot.endpoint_b slot)
  + optional o (ChannelSlot.object slot).

(** A channel slot is free and cleared, or holds a pair whose queued messages
    carry the tokens [toks]. *)
Definition slot_ok (slot : ChannelSlot.t) (toks : list TransferToken.t) : Prop :=
  match ChannelSlot.pair slot with
  | None => slot = ChannelSlot.new /\ toks = []
  | Some p => exists ms0 ms1, ChannelPair.holds_messages p ms0 ms1
      /\ toks = ChannelPair.escrow_of (ms0 ++ ms1)
      /\ ChannelSlot.endpoint_a slot = Some (ChannelPair.endpoint_a p)
      /\ ChannelSlot.endpoint_b slot = Some (ChannelPair.endpoint_b p)
      /\ ChannelSlot.object slot <> None
  end.

Definition process_ok (slot : option Process.t) : Prop :=
  match slot with Some p => HandleTable.wf (Process.handles p) | None => True end.

(** All the references the manager's tables account for; [gs] lists the tokens
    queued in each channel. *)
Definition total (self : UserIpcState.t) (gs : list (list TransferToken.t)) (o : ObjectId.t) : N :=
  sum_by (process_refs o) (UserIpcState.processes self)
  + sum_by (slot_refs o) (UserIpcState.channels self)
  + sum_by (fun toks => Flow.escrowed toks o) gs.

(** The registry counts exactly the handles, address spaces, channel objects and
    queued tokens of the manager, and [extra]. *)
Record ipc_wf (extra : ObjectId.t -> N) (self : UserIpcState.t)
  (gs : list (list TransferToken.t)) : Prop := {
  ipc_registry : ObjectRegistry.wf (UserIpcState.registry self);
  ipc_waiters : WaitRegistry.wf (UserIpcState.waiters self);
  ipc_process_count : length (UserIpcState.processes self) = MAX_USER_PROCESSES;
  ipc_channel_count : length (UserIpcState.channels self) = CHANNEL_CAPACITY;
  ipc_processes : Forall process_ok (UserIpcState.processes self);
  ipc_channels : Forall2 slot_ok (UserIpcState.channels self) gs;
  ipc_refs : forall o, ObjectRegistry.refs (UserIpcState.registry self) o = total self gs o + extra o
}.

(** A channel is reachable when a process holds a handle of one of its endpoints,
    or a message queued in a reachable channel carries one. *)
Inductive reachable (self : UserIpcState.t) (gs : list (list TransferToken.t)) : nat -> Prop :=
  | reachable_handle p s c i :
      Some p ∈ UserIpcState.processes self ->
      s ∈ HandleTable.slots (Process.handles p) -> HandleSlot.capability s = Some c ->
      UserIpcState.channel_of (UserIpcState.channels self) (Capability.object c) = Some i ->
      reachable self gs i
  | reachable_queued i toks tok j :
      reachable self gs i -> gs !! i = Some toks -> tok ∈ toks ->
      UserIpcState.channel_of (UserIpcState.channels self) (Flow.token_object tok) = Some j ->
      reachable self gs j.

(** ** Runs of the manager *)

Module UserIpcSystem.
Inductive op :=
  | RegisterSpawned (parent child endpoint : N) (rights : Rights.t)
  | Exit (process_id : N)
  | CreatePair (process_id : N)
  | Send (process_id endpoint : N) (request : ChannelSendRequest.t)
  | WaitReadable (process_id endpoint waiter_id : N) (on_blocked : bool)
  | TryReceive (process_id endpoint : N)
  | Close (process_id handle : N)
  | CancelWaiter (waiter_id : N).

(** The state a method leaves, whatever it returns. *)
Definition left_by {T} (m : UserIpcState.M T) : Exec UserIpcState.t :=
  let! (_, self) := m in Ret self.

Definition run_op (self : UserIpcState.t) (x : op) : Exec UserIpcState.t :=
  match x with
  | RegisterSpawned parent child endpoint rights =>
      left_by (UserIpcState.register_spawned_process self parent child endpoint rights)
  | Exit id => left_by (UserIpcState.exit_process self id)
  | CreatePair id => left_by (UserIpcState.create_pair self id)
  | Send id endpoint request => left_by (UserIpcState.send self id endpoint request)
  | WaitReadable id endpoint waiter on_blocked =>
      left_by (UserIpcState.wait_readable self id endpoint waiter on_blocked)
  | TryReceive id endpoint => left_by (UserIpcState.try_receive self id endpoint)
  | Close id handle => left_by (UserIpcState.close self id handle)
  | CancelWaiter waiter => Ret (UserIpcState.cancel_waiter self waiter)
  end.

Fixpoint run_ops (self : UserIpcState.t) (xs : list op) : Exec UserIpcState.t :=
  match xs with
  | [] => Ret self
  | x :: xs => let! self := run_op self x in run_ops self xs
  end.

(** The arguments have the types of the system calls. *)
Definition op_ok (x : op) : Prop :=
  match x with Send _ _ request => ChannelSendRequest.typed request | _ => True end.
End UserIpcSystem.

(** ** Visiting queued tokens *)

Section visits.
Implicit Types (q : Queue.t) (m : QueuedMessage.t) (p : ChannelPair.t).

Lemma padded_lookup_all {A} n (xs : list A) i :
  (length xs <= n)%nat -> (i < n)%nat -> padded n xs !! i = Some (xs !! i).
Proof.
  intros Hl Hi. unfold padded. destruct (xs !! i) as [x|] eqn:E.
  - rewrite lookup_app_l, list_lookup_fmap, E; [done|].
    rewrite length_fmap. by eapply lookup_lt_Some.
  - apply lookup_ge_None in E. rewrite lookup_app_r by (by rewrite length_fmap).
    rewrite length_fmap. apply lookup_replicate. split; [done|lia].
Qed.

(** The ring buffer's entries are its messages, in some order. *)
Lemma ring_permutation q ms : Queue.represents q ms -> omap id (Queue.entries q) ≡ₚ ms.
Proof.
  intros (Hl&Hh&_&Hle&_&Hent). set (k := (MAX_QUEUE - Queue.head q)%nat).
  assert (Hk : (k + Queue.head q = MAX_QUEUE)%nat) by lia. clearbody k.
  assert (Hp : length (padded MAX_QUEUE ms) = MAX_QUEUE) by (by apply padded_length).
  assert (Hr : Queue.entries q = drop k (padded MAX_QUEUE ms) ++ take k (padded MAX_QUEUE ms)).
  { apply list_eq. intros j. destruct (decide (j < MAX_QUEUE)%nat) as [Hj|Hj].
    2: { rewrite !lookup_ge_None_2; [done| |]; rewrite ?length_app, ?length_drop, ?length_take; lia. }
    destruct (decide (j < Queue.head q)%nat) as [Hjh|Hjh].
    - specialize (Hent (j + k)%nat ltac:(lia)).
      replace ((Queue.head q + (j + k)) mod MAX_QUEUE)%nat with j in Hent.
      2: { replace (Queue.head q + (j + k))%nat with (j + 1 * MAX_QUEUE)%nat by lia.
           rewrite Nat.Div0.mod_add. by rewrite Nat.mod_small. }
      rewrite Hent, lookup_app_l by (rewrite length_drop; lia). rewrite lookup_drop.
      replace (k + j)%nat with (j + k)%nat by lia. rewrite padded_lookup_all by lia. done.
    - specialize (Hent (j - Queue.head q)%nat ltac:(lia)).
      replace ((Queue.head q + (j - Queue.head q)) mod MAX_QUEUE)%nat with j in Hent
        by (rewrite Nat.mod_small; lia).
      rewrite Hent, lookup_app_r by (rewrite length_drop; lia).
      rewrite length_drop, lookup_take_lt by lia. rewrite padded_lookup_all by lia. f_equal. f_equal.
      lia. }
  rewrite Hr, omap_app, (comm (++)), <-omap_app, take_drop. by rewrite padded_omap.
Qed.

(** Visiting the messages of an array folds the visitor over their tokens. *)
Lemma visit_messages_spec {S} entries (visitor : S -> ObjectId.t -> S) s :
  Forall (fun m => exists toks, QueuedMessage.escrows m toks) (omap id entries) ->
  ChannelPair.visit_messages entries visitor s
  = Ret (foldl visitor s (Flow.token_object <$> ChannelPair.escrow_of (omap id entries))).
Proof.
  revert s. induction entries as [|[m|] entries IH]; intros s Hall; [done| |by apply IH].
  cbn [ChannelPair.visit_messages].
  change (omap id (Some m :: entries)) with (m :: omap id entries) in *.
  apply Forall_cons in Hall as [(toks&Hm) Hall].
  rewrite (escrow_of_cons _ _ _ Hm). destruct Hm as (_&_&Hc&Hle&Ht).
  rewrite Ht, Hc, slice_to_Ret, padded_take by (by rewrite padded_length).
  rewrite IH by done. rewrite fmap_app, foldl_app. f_equal. f_equal.
  replace (omap id (Some <$> toks)) with toks
    by (clear; induction toks as [|tok toks IH]; csimpl; [done|by rewrite <-IH]).
  clear. revert s. induction toks as [|tok toks IH]; intros s; csimpl; [done|]. by apply IH.
Qed.

(** Visiting a pair folds the visitor over its queued tokens, in some order. *)
Lemma visit_escrow_spec {S} p ms0 ms1 (visitor : S -> ObjectId.t -> S) s :
  ChannelPair.holds_messages p ms0 ms1 ->
  exists objects, ChannelPair.visit_escrow_objects p visitor s = Ret (foldl visitor s objects)
    /\ objects ≡ₚ Flow.token_object <$> ChannelPair.escrow_of (ms0 ++ ms1).
Proof.
  intros (_&_&_&(q0&q1&Hq&H0&H1)&Hall). unfold ChannelPair.visit_escrow_objects. rewrite Hq.
  csimpl. rewrite app_nil_r.
  assert (Hp : omap id (Queue.entries q0 ++ Queue.entries q1) ≡ₚ ms0 ++ ms1)
    by (rewrite omap_app; by rewrite (ring_permutation q0 ms0), (ring_permutation q1 ms1)).
  rewrite visit_messages_spec by (by rewrite Hp).
  eexists. split; [done|]. apply fmap_Permutation. unfold ChannelPair.escrow_of.
  by rewrite Hp.
Qed.
End visits.

(** ** Marking *)

Section marking.
Import UserIpcState.
Implicit Types (r : list bool) (o : ObjectId.t) (chans : list ChannelSlot.t).

Definition marked (r : list bool) (i : nat) : Prop := r !! i = Some true.
Definition marks (r : list bool) : nat := count_of (eq true) r.

(** The objects a handle table names. *)
Definition table_objects (t : HandleTable.t) : list ObjectId.t :=
  Capability.object <$> omap HandleSlot.capability (HandleTable.slots t).

Lemma visit_objects_spec {S} t (visitor : S -> ObjectId.t -> S) s :
  HandleTable.visit_objects t visitor s = foldl visitor s (table_objects t).
Proof.
  unfold HandleTable.visit_objects, table_objects. destruct t as [slots]. simpl. revert s.
  induction slots as [|slot slots IH]; intros s; csimpl; [done|].
  rewrite IH. by destruct (HandleSlot.capability slot).
Qed.

Lemma elem_of_table_objects t o :
  o ∈ table_objects t <->
  exists s c, s ∈ HandleTable.slots t /\ HandleSlot.capability s = Some c /\ Capability.object c = o.
Proof.
  unfold table_objects. rewrite list_elem_of_fmap. setoid_rewrite list_elem_of_omap. naive_solver.
Qed.

Lemma channel_of_Some chans o i :
  channel_of chans o = Some i ->
  exists slot, chans !! i = Some slot /\ ChannelSlot.serves o slot
    /\ ObjectId.kind o = ObjectKind.ChannelEndpoint.
Proof.
  unfold channel_of. case_decide; [|done].
  destruct (list_find _ chans) as [[j slot]|] eqn:E; [|done]. intros [= <-].
  apply list_find_Some in E as (?&?&_). eauto.
Qed.

Lemma channel_of_lt chans o i : channel_of chans o = Some i -> (i < length chans)%nat.
Proof. intros (slot&Hi&_)%channel_of_Some. by eapply lookup_lt_Some. Qed.

Lemma mark_length chans r o : length (mark chans r o) = length r.
Proof. unfold mark. case_match; [apply length_insert|done]. Qed.

Lemma mark_spec chans r o i :
  length r = length chans ->
  marked (mark chans r o) i <-> marked r i \/ channel_of chans o = Some i.
Proof.
  intros Hl. unfold mark, marked. destruct (channel_of chans o) as [j|] eqn:Hj; [|naive_solver].
  apply channel_of_lt in Hj. destruct (decide (i = j)) as [->|Hne].
  - rewrite list_lookup_insert_eq by lia. naive_solver.
  - rewrite list_lookup_insert_ne by done. naive_solver.
Qed.

Lemma marks_fold chans objects : forall r,
  length r = length chans ->
  length (foldl (mark chans) r objects) = length chans
  /\ forall i, marked (foldl (mark chans) r objects) i <->
       marked r i \/ exists o, o ∈ objects /\ channel_of chans o = Some i.
Proof.
  induction objects as [|o objects IH]; intros r Hl; simpl.
  - split; [done|]. intros i. split; [by left|]. intros [?|(o&?%not_elem_of_nil&_)]; done.
  - destruct (IH (mark chans r o)) as [Hl' Hm]; [by rewrite mark_length|].
    split; [done|]. intros i. rewrite Hm, mark_spec by done.
    setoid_rewrite elem_of_cons. naive_solver.
Qed.

Lemma mark_roots_fold chans ps : forall r,
  length r = length chans ->
  let r' := foldl (fun r p => HandleTable.visit_objects (Process.handles p) (mark chans) r) r ps in
  length r' = length chans
  /\ forall i, marked r' i <->
       marked r i \/ exists p o, p ∈ ps /\ o ∈ table_objects (Process.handles p)
                                  /\ channel_of chans o = Some i.
Proof.
  induction ps as [|p ps IH]; intros r Hl; simpl.
  - split; [done|]. intros i. split; [by left|]. intros [?|(p&o&?%not_elem_of_nil&_)]; done.
  - rewrite visit_objects_spec.
    destruct (marks_fold chans (table_objects (Process.handles p)) r Hl) as [Hl1 Hm1].
    destruct (IH _ Hl1) as [Hl2 Hm2]. split; [done|]. intros i. rewrite Hm2, Hm1.
    setoid_rewrite elem_of_cons. naive_solver.
Qed.

(** The second phase: what one visit does to the marks. *)
Record grows chans (r : list bool) (c : bool) (objects : list ObjectId.t)
  (r' : list bool) (c' : bool) : Prop := {
  grows_length : length r' = length r;
  grows_keeps : forall i, marked r i -> marked r' i;
  grows_sound : forall i, marked r' i ->
    marked r i \/ exists o, o ∈ objects /\ channel_of chans o = Some i;
  grows_same : c' = false -> c = false /\ r' = r;
  grows_all : forall o i, o ∈ objects -> channel_of chans o = Some i -> marked r' i;
  grows_count : (marks r <= marks r')%nat;
  grows_more : c' = true -> c = true \/ (marks r < marks r')%nat
}.

Lemma mark_changed_grows chans r c o :
  length r = length chans ->
  grows chans r c [o] (mark_changed chans (r, c) o).1 (mark_changed chans (r, c) o).2.
Proof.
  intros Hl. unfold mark_changed. destruct (channel_of chans o) as [j|] eqn:Hj.
  2: { split; simpl; try done; auto. intros o' i ->%list_elem_of_singleton. congruence. }
  assert (Hjl := channel_of_lt _ _ _ Hj). rewrite <-Hl in Hjl.
  destruct (lookup_lt_is_Some_2 r j Hjl) as [b Hb]. simpl. case_decide as Hf.
  - assert (Hcount : marks (<[j := true]> r) = S (marks r)).
    { unfold marks. assert (Hc := count_of_insert (eq true) r j false true Hf).
      rewrite decide_False, decide_True in Hc by done. lia. }
    split; simpl; try done.
    + by rewrite length_insert.
    + intros i Hi. unfold marked in *. destruct (decide (i = j)) as [->|]; [congruence|].
      by rewrite list_lookup_insert_ne.
    + intros i Hi. unfold marked in *. destruct (decide (i = j)) as [->|].
      * right. exists o. split; [left|done].
      * rewrite list_lookup_insert_ne in Hi by done. by left.
    + intros o' i ->%list_elem_of_singleton Hi. simplify_eq. unfold marked.
      by rewrite list_lookup_insert_eq.
    + lia.
    + intros _. right. lia.
  - split; simpl; try done; auto.
    intros o' i ->%list_elem_of_singleton Hi. simplify_eq. unfold marked. destruct b; congruence.
Qed.

Lemma grows_trans chans r0 c0 os1 r1 c1 os2 r2 c2 :
  grows chans r0 c0 os1 r1 c1 -> grows chans r1 c1 os2 r2 c2 ->
  grows chans r0 c0 (os1 ++ os2) r2 c2.
Proof.
  intros [Hl1 Hk1 Hs1 He1 Ha1 Hc1 Hm1] [Hl2 Hk2 Hs2 He2 Ha2 Hc2 Hm2]. split.
  - congruence.
  - auto.
  - intros i [Hi|(o&Ho&Hi)]%Hs2; [apply Hs1 in Hi as [?|(o&Ho&Hi)]; [by left|]|]; right;
      exists o; rewrite elem_of_app; auto.
  - intros [-> ->]%He2. by apply He1.
  - intros o i [Ho|Ho]%elem_of_app Hi; eauto.
  - lia.
  - intros [H|H]%Hm2; [apply Hm1 in H as [?|?]; [by left|right; lia]|right; lia].
Qed.

Lemma grows_refl chans r c : grows chans r c [] r c.
Proof.
  split; auto. by intros o i ?%not_elem_of_nil.
Qed.

Lemma mark_changed_fold chans objects : forall r c,
  length r = length chans ->
  grows chans r c objects (foldl (mark_changed chans) (r, c) objects).1
    (foldl (mark_changed chans) (r, c) objects).2.
Proof.
  induction objects as [|o objects IH]; intros r c Hl; [apply grows_refl|]. simpl.
  assert (Hg := mark_changed_grows chans r c o Hl).
  destruct (mark_changed chans (r, c) o) as [r1 c1]. simpl in Hg.
  apply (grows_trans _ _ _ [o] _ _ objects _ _ Hg). apply IH.
  rewrite <-Hl. apply Hg.
Qed.

Lemma grows_perm chans r c os os' r' c' :
  os ≡ₚ os' -> grows chans r c os r' c' -> grows chans r c os' r' c'.
Proof.
  intros Hp [Hl Hk Hs He Ha Hc Hm]. split; auto.
  - intros i [?|(o&Ho&Hi)]%Hs; [by left|right]. exists o. by rewrite <-Hp.
  - intros o i Ho. apply Ha. by rewrite Hp.
Qed.
End marking.

(** ** The marking loop *)

Section mark_loop.
Import UserIpcState.
Context (chans : list ChannelSlot.t) (gs : list (list TransferToken.t)).
Context (Hcount : length chans = CHANNEL_CAPACITY) (Hok : Forall2 slot_ok chans gs).
Implicit Types (r : list bool) (P : nat -> Prop).

(** Whatever is queued in a channel of [P] leads to channels of [P]. *)
Definition closed P : Prop :=
  forall i toks tok j, P i -> gs !! i = Some toks -> tok ∈ toks ->
    channel_of chans (Flow.token_object tok) = Some j -> P j.

(** What a pass over [sources] does. *)
Record passes r (c : bool) (sources : list nat) r' (c' : bool) : Prop := {
  passes_length : length r' = length r;
  passes_keeps : forall i, marked r i -> marked r' i;
  passes_sound : forall P, closed P -> (forall i, marked r i -> P i) -> forall i, marked r' i -> P i;
  passes_same : c' = false -> c = false /\ r' = r;
  passes_closed : c' = false -> forall i toks tok j, i ∈ sources -> marked r i ->
    gs !! i = Some toks -> tok ∈ toks ->
    channel_of chans (Flow.token_object tok) = Some j -> marked r j;
  passes_more : c' = true -> c = true \/ (marks r < marks r')%nat;
  passes_count : (marks r <= marks r')%nat
}.

(** Visiting one source. *)
Lemma source_grows r c i slot toks p :
  length r = length chans -> chans !! i = Some slot -> gs !! i = Some toks ->
  ChannelSlot.pair slot = Some p ->
  exists r' c', ChannelPair.visit_escrow_objects p (mark_changed chans) (r, c) = Ret (r', c')
    /\ grows chans r c (Flow.token_object <$> toks) r' c'.
Proof.
  intros Hl Hi Hg Hp. assert (Hs := Forall2_lookup_lr _ _ _ _ _ _ Hok Hi Hg).
  unfold slot_ok in Hs. rewrite Hp in Hs. destruct Hs as (ms0&ms1&Hms&->&_).
  destruct (visit_escrow_spec p ms0 ms1 (mark_changed chans) (r, c) Hms) as (objects&->&Hperm).
  assert (Hgr := mark_changed_fold chans objects r c Hl).
  destruct (foldl (mark_changed chans) (r, c) objects) as [r' c']. exists r', c'.
  split; [done|]. by apply (grows_perm _ _ _ _ _ _ _ Hperm).
Qed.

Lemma passes_skip r c i sources r' c' :
  (marked r i -> gs !! i = Some [] \/ gs !! i = None) ->
  passes r c sources r' c' -> passes r c (i :: sources) r' c'.
Proof.
  intros Hi [Hl Hk Hs He Hc Hm Hn]. split; auto.
  intros Hf j toks tok k [->|Hj]%elem_of_cons; [|by eapply Hc].
  intros [Hg|Hg]%Hi Hg'; rewrite Hg in Hg'; simplify_eq. by intros ?%not_elem_of_nil.
Qed.

Lemma passes_step r c i toks sources r1 c1 r' c' :
  marked r i -> gs !! i = Some toks ->
  grows chans r c (Flow.token_object <$> toks) r1 c1 ->
  passes r1 c1 sources r' c' -> passes r c (i :: sources) r' c'.
Proof.
  intros Hmi Hg [Hl1 Hk1 Hs1 He1 Ha1 Hc1 Hm1] [Hl Hk Hs He Hc Hm Hn]. split.
  - congruence.
  - auto.
  - intros P HP Hr. apply Hs; [done|]. intros j [?|(o&Ho&Hj)]%Hs1; [auto|].
    apply list_elem_of_fmap in Ho as (tok&->&Htok). by eapply (HP i); [apply Hr| | |].
  - intros [-> ->]%He. by apply He1.
  - intros Hf. destruct (He Hf) as [Hf1 ->]. destruct (He1 Hf1) as [_ ->].
    intros j toks' tok k [->|Hj]%elem_of_cons; [|by eapply Hc].
    intros _ Hg' Htok Hk'. simplify_eq. eapply Ha1; [|done]. by apply list_elem_of_fmap_2.
  - intros [H|H]%Hm; [apply Hm1 in H as [?|?]; [by left|right; lia]|right; lia].
  - lia.
Qed.

Lemma mark_pass_spec sources : forall r c,
  length r = length chans -> Forall (fun i => i < length chans)%nat sources ->
  exists r' c', mark_pass chans sources (r, c) = Ret (r', c') /\ passes r c sources r' c'.
Proof.
  induction sources as [|i sources IH]; intros r c Hl Hall.
  { exists r, c. split; [done|]. split; auto. by intros _ i toks tok j ?%not_elem_of_nil. }
  apply Forall_cons in Hall as [Hi Hall]. cbn [mark_pass fst].
  destruct (lookup_lt_is_Some_2 r i ltac:(lia)) as [b Hb].
  destruct (lookup_lt_is_Some_2 chans i Hi) as [slot Hslot].
  destruct (Forall2_lookup_l _ _ _ _ _ Hok Hslot) as (toks&Hg&Hsok).
  unfold index at 1. rewrite Hb. destruct b; cbn [negb].
  2: { destruct (IH r c Hl Hall) as (r'&c'&->&Hp). exists r', c'. split; [done|].
       apply passes_skip; [|done]. unfold marked. congruence. }
  unfold index. rewrite Hslot. destruct (ChannelSlot.pair slot) as [p|] eqn:Hpair.
  - destruct (source_grows r c i slot toks p Hl Hslot Hg Hpair) as (r1&c1&->&Hgr).
    destruct (IH r1 c1) as (r'&c'&->&Hp); [rewrite <-Hl; apply Hgr|done|].
    exists r', c'. split; [done|]. by eapply passes_step.
  - destruct (IH r c Hl Hall) as (r'&c'&->&Hp). exists r', c'. split; [done|].
    apply passes_skip; [|done]. intros _. left. unfold slot_ok in Hsok. rewrite Hpair in Hsok.
    by destruct Hsok as [_ ->].
Qed.

(** The loop stops within [CHANNEL_CAPACITY + 1] rounds, at the least closed
    set that holds the marks it starts with. *)
Lemma mark_loop_spec fuel : forall r,
  length r = length chans -> (length r - marks r < fuel)%nat ->
  exists r', mark_loop fuel chans r = Some (Ret r') /\ length r' = length chans
    /\ (forall i, marked r i -> marked r' i) /\ closed (marked r')
    /\ forall P, closed P -> (forall i, marked r i -> P i) -> forall i, marked r' i -> P i.
Proof.
  induction fuel as [|fuel IH]; intros r Hl Hfuel; [lia|]. cbn [mark_loop].
  destruct (mark_pass_spec (seq 0 CHANNEL_CAPACITY) r false Hl) as (r1&c1&->&Hp).
  { apply Forall_seq. intros i. lia. }
  destruct Hp as [Hl1 Hk1 Hs1 He1 Hc1 Hm1 Hn1]. destruct c1.
  - destruct (Hm1 eq_refl) as [?|Hlt]; [done|].
    assert (Hb : (marks r1 <= length r1)%nat) by apply count_of_le_length.
    destruct (IH r1) as (r'&->&Hl'&Hk'&Hcl&Hs'); [lia|lia|].
    exists r'. split_and!; [done|done|auto|done|]. intros P HP Hr. by apply Hs', Hs1.
  - destruct (He1 eq_refl) as [_ ->]. exists r. split_and!; auto.
    intros i toks tok j Hi Hg. apply (Hc1 eq_refl i toks tok j); [|done|done].
    apply elem_of_seq. unfold marked in Hi. apply lookup_lt_Some in Hi. lia.
Qed.
End mark_loop.

(** ** Updating the account *)

Section account.
Import UserIpcState.
Implicit Types (self : t) (gs : list (list TransferToken.t)) (extra : ObjectId.t -> N).

Lemma ipc_ext extra extra' self gs :
  (forall o, extra o = extra' o) -> ipc_wf extra self gs -> ipc_wf extra' self gs.
Proof. intros He [? ? ? ? ? ? Hr]. split; try done. intros o. by rewrite Hr, He. Qed.

(** Replacing a process slot moves its references from or to the account outside. *)
Lemma ipc_set_process extra extra' self gs i slot slot' :
  ipc_wf extra self gs -> processes self !! i = Some slot -> process_ok slot' ->
  (forall o, extra o + process_refs o slot = extra' o + process_refs o slot') ->
  ipc_wf extra' (set_process self i slot') gs.
Proof.
  intros [? ? ? ? Hp ? Hr] Hi Hok Hd. split; simpl; try done.
  - by rewrite length_insert.
  - by apply Forall_insert.
  - intros o. rewrite Hr. unfold total. simpl.
    pose proof (sum_by_insert (process_refs o) _ _ _ slot' Hi). specialize (Hd o). lia.
Qed.

Lemma ipc_set_channel extra extra' self gs i slot slot' toks toks' :
  ipc_wf extra self gs -> channels self !! i = Some slot -> gs !! i = Some toks ->
  slot_ok slot' toks' ->
  (forall o, extra o + slot_refs o slot + Flow.escrowed toks o
             = extra' o + slot_refs o slot' + Flow.escrowed toks' o) ->
  ipc_wf extra' (set_channel self i slot') (<[i := toks']> gs).
Proof.
  intros [? ? ? ? ? Hc Hr] Hi Hg Hok Hd. split; simpl; try done.
  - by rewrite length_insert.
  - by apply Forall2_insert.
  - intros o. rewrite Hr. unfold total. simpl.
    pose proof (sum_by_insert (slot_refs o) _ _ _ slot' Hi).
    pose proof (sum_by_insert (fun toks => Flow.escrowed toks o) _ _ _ toks' Hg) as H2.
    simpl in H2. specialize (Hd o). lia.
Qed.

Lemma ipc_set_registry extra extra' self gs r :
  ipc_wf extra self gs -> ObjectRegistry.wf r ->
  (forall o, ObjectRegistry.refs r o + extra o
             = ObjectRegistry.refs (registry self) o + extra' o) ->
  ipc_wf extra' (set_registry self r) gs.
Proof.
  intros [? ? ? ? ? ? Hr] Hwf Hd. split; simpl; try done.
  intros o. specialize (Hd o). rewrite Hr in Hd. unfold total in *. simpl in *. lia.
Qed.

Lemma ipc_set_waiters extra self gs w :
  ipc_wf extra self gs -> WaitRegistry.wf w -> ipc_wf extra (set_waiters self w) gs.
Proof. intros [? ? ? ? ? ? Hr] Hwf. by split. Qed.

Lemma ipc_registry_error extra self gs k e r :
  ipc_wf extra self gs -> ObjectRegistry.create (registry self) k = (Err e, r) ->
  ipc_wf extra (set_registry self r) gs.
Proof.
  intros H E. apply (ipc_set_registry extra); [done| |].
  - pose proof (create_wf (registry self) k (ipc_registry _ _ _ H)) as Hwf. by rewrite E in Hwf.
  - unfold ObjectRegistry.create in E. crush_match; done.
Qed.

(** A created object is held by the code that created it. *)
Lemma ipc_create extra self gs k o r :
  ipc_wf extra self gs -> ObjectRegistry.create (registry self) k = (Ok o, r) ->
  ipc_wf (fun o' => same o o' + extra o') (set_registry self r) gs.
Proof.
  intros H E. pose proof (ipc_registry _ _ _ H) as Hwf. apply (ipc_set_registry extra); [done| |].
  - pose proof (create_wf _ k Hwf) as Hwf'. by rewrite E in Hwf'.
  - intros o'. rewrite (refs_created _ _ _ _ o' Hwf E). unfold same. lia.
Qed.

Lemma ipc_release extra self gs o :
  ipc_wf (fun o' => same o o' + extra o') self gs -> ipc_wf extra (release self o) gs.
Proof.
  intros H. pose proof (ipc_registry _ _ _ H) as Hwf.
  destruct (release_accounted (registry self) o (fun o' => total self gs o' + extra o') Hwf)
    as [Hwf' Hrefs].
  { intros o'. rewrite (ipc_refs _ _ _ H). lia. }
  apply (ipc_set_registry _ _ _ _ _ H Hwf').
  intros o'. rewrite Hrefs, (ipc_refs _ _ _ H). lia.
Qed.

Lemma ipc_try_release extra self gs o self' :
  ipc_wf (fun o' => same o o' + extra o') self gs -> registry self' = registry self ->
  try_release self' o = Ret (Ok tt, release self' o).
Proof.
  intros H He. unfold try_release, release. rewrite He. destruct (release_Ok (registry self) o) as [r Hr].
  { rewrite (ipc_refs _ _ _ H). unfold same. rewrite decide_True by done. lia. }
  by rewrite Hr.
Qed.

(** An operation on one handle table that keeps the account of that table. *)
Lemma ipc_set_table extra self gs i p table r :
  ipc_wf extra self gs -> processes self !! i = Some (Some p) ->
  (forall rest, balanced (Process.handles p) (registry self) rest -> balanced table r rest) ->
  ipc_wf extra (set_registry (set_process self i (Some (Process.set_handles p table))) r) gs.
Proof.
  intros H Hi Hb.
  assert (Hp : HandleTable.wf (Process.handles p))
    by exact (Forall_lookup_1 _ _ _ _ (ipc_processes _ _ _ H) Hi).
  assert (Hge : forall o, process_refs o (Some p) <= ObjectRegistry.refs (registry self) o).
  { intros o. rewrite (ipc_refs _ _ _ H). unfold total.
    pose proof (sum_by_ge (process_refs o) _ _ _ Hi). lia. }
  destruct (Hb (fun o => ObjectRegistry.refs (registry self) o
                         - HandleTable.holds (Process.handles p) o)) as (Hwt&Hwr&Hrefs).
  { split_and!; [done|apply H|]. intros o. specialize (Hge o). simpl in Hge. lia. }
  destruct H as [? ? ? ? Hps ? Hr]. split; simpl; try done.
  - by rewrite length_insert.
  - by apply Forall_insert.
  - intros o. rewrite Hrefs. specialize (Hge o). unfold total. simpl in *.
    pose proof (sum_by_insert (process_refs o) _ _ _ (Some (Process.set_handles p table)) Hi) as Hs.
    simpl in Hs. rewrite Hr in *. unfold total in *. lia.
Qed.
End account.

(** ** Collecting unreachable channels *)

Section collecting.
Import UserIpcState.
Implicit Types (self : t) (gs : list (list TransferToken.t)) (extra : ObjectId.t -> N).

(** Sweeping a slot drains its queues, drops its three objects and frees it. *)
Lemma sweep_slot_spec extra self gs i slot toks p :
  ipc_wf extra self gs -> channels self !! i = Some slot -> gs !! i = Some toks ->
  ChannelSlot.pair slot = Some p ->
  exists r, sweep_slot self i slot p
      = Ret (Ok tt, mk r (processes self) (<[i := ChannelSlot.new]> (channels self)) (waiters self))
    /\ ipc_wf extra (mk r (processes self) (<[i := ChannelSlot.new]> (channels self))
                       (waiters self)) (<[i := []]> gs).
Proof.
  intros H Hi Hg Hp.
  pose proof (Forall2_lookup_lr _ _ _ _ _ _ (ipc_channels _ _ _ H) Hi Hg) as Hs.
  unfold slot_ok in Hs. rewrite Hp in Hs. destruct Hs as (ms0&ms1&Hms&Ht&Ha&Hb&Ho).
  destruct slot as [sp [object|] sa sb]; [|done]. simpl in *. subst sp sa sb.
  unfold sweep_slot. cbn [ChannelSlot.endpoint_a ChannelSlot.endpoint_b ChannelSlot.object].
  set (a := ChannelPair.endpoint_a p). set (b := ChannelPair.endpoint_b p).
  destruct (drain_spec p ms0 ms1 (registry self)
    (fun o => ObjectRegistry.refs (registry self) o - Flow.escrowed toks o) Hms)
    as (p'&r&->&_&Hwr&_&_&Hrefs); [apply H| |].
  { intros o. rewrite <-Ht. rewrite (ipc_refs _ _ _ H). unfold total.
    pose proof (sum_by_ge (fun toks => Flow.escrowed toks o) _ _ _ Hg) as Hle. simpl in Hle. lia. }
  set (self1 := set_registry _ r).
  assert (H1 : ipc_wf (fun o => same a o + (same b o + (same object o + extra o)))
    (set_registry (set_channel self i ChannelSlot.new) r) (<[i := []]> gs)).
  { eapply ipc_set_registry; [eapply (ipc_set_channel extra (fun o => Flow.escrowed toks o
      + (same a o + (same b o + (same object o + extra o))))); [done..|]|done|].
    - intros o. unfold slot_refs. simpl. change (Flow.escrowed [] o) with 0. subst a b. lia.
    - intros o. rewrite Hrefs. simpl. rewrite (ipc_refs _ _ _ H). unfold total.
      pose proof (sum_by_ge (fun toks => Flow.escrowed toks o) _ _ _ Hg) as Hle. simpl in Hle. lia. }
  rewrite (ipc_try_release _ _ _ _ self1 H1 eq_refl). cbn [bind]. apply ipc_release in H1.
  rewrite (ipc_try_release _ _ _ _ (release self1 a) H1 eq_refl). cbn [bind]. apply ipc_release in H1.
  rewrite (ipc_try_release _ _ _ _ (release (release self1 a) b) H1 eq_refl). cbn [bind].
  apply ipc_release in H1. unfold ret, release, set_channel, set_registry, self1 in *.
  simpl in *. rewrite list_insert_insert_eq. eauto.
Qed.

(** Which slots a sweep that starts at [i] clears. *)
Definition kept (r : list bool) (i j : nat) : Prop :=
  (j < i)%nat \/ marked r (j - i).

#[global] Instance kept_dec r i j : Decision (kept r i j).
Proof. unfold kept, marked. apply _. Defined.

Lemma slot_free_new self gs extra i slot toks :
  ipc_wf extra self gs -> channels self !! i = Some slot -> gs !! i = Some toks ->
  ChannelSlot.pair slot = None -> slot = ChannelSlot.new /\ toks = [].
Proof.
  intros H Hi Hg Hp.
  pose proof (Forall2_lookup_lr _ _ _ _ _ _ (ipc_channels _ _ _ H) Hi Hg) as Hs.
  unfold slot_ok in Hs. by rewrite Hp in Hs.
Qed.

Lemma kept_cons b r i j : i <> j -> kept (b :: r) i j <-> kept r (S i) j.
Proof.
  intros Hne. unfold kept, marked. destruct (decide (j < i)%nat); [naive_solver lia|].
  replace (j - i)%nat with (S (j - S i)) by lia. simpl. naive_solver lia.
Qed.

(** What the sweep leaves: the kept slots as they were, the others free. *)
Record swept (r : list bool) (i : nat) self gs self' gs' : Prop := {
  swept_processes : processes self' = processes self;
  swept_waiters : waiters self' = waiters self;
  swept_kept : forall j, kept r i j -> channels self' !! j = channels self !! j /\ gs' !! j = gs !! j;
  swept_cleared : forall j slot, ~ kept r i j -> channels self !! j = Some slot ->
    channels self' !! j = Some ChannelSlot.new /\ gs' !! j = Some []
}.

Lemma swept_cons b r i self gs self1 gs1 self' gs' :
  processes self1 = processes self -> waiters self1 = waiters self ->
  (forall j, j <> i -> channels self1 !! j = channels self !! j /\ gs1 !! j = gs !! j) ->
  (if b : bool then channels self1 !! i = channels self !! i /\ gs1 !! i = gs !! i
   else channels self1 !! i = Some ChannelSlot.new /\ gs1 !! i = Some []) ->
  swept r (S i) self1 gs1 self' gs' -> swept (b :: r) i self gs self' gs'.
Proof.
  intros Hp Hw Hne Hi [Hps Hws Hk Hc].
  assert (Hb : kept (b :: r) i i <-> b = true).
  { unfold kept, marked. rewrite Nat.sub_diag. simpl. naive_solver lia. }
  destruct (Hk i) as [Hk1 Hk2]; [left; lia|].
  split; [congruence|congruence|intros j Hj|intros j slot Hj Hs];
    (destruct (decide (i = j)) as [<-|Hij]; [|rewrite (kept_cons _ _ _ _ Hij) in Hj]).
  - apply Hb in Hj as ->. rewrite Hk1, Hk2. done.
  - destruct (Hk j Hj) as [-> ->]. by apply Hne.
  - destruct b; [by exfalso; apply Hj, Hb|]. by rewrite Hk1, Hk2.
  - apply (Hc j slot Hj). by rewrite (proj1 (Hne j (not_eq_sym Hij))).
Qed.

Lemma sweep_spec extra r : forall self gs i,
  ipc_wf extra self gs -> (i + length r = CHANNEL_CAPACITY)%nat ->
  exists self' gs', sweep self r i = Ret (Ok tt, self') /\ ipc_wf extra self' gs'
    /\ swept r i self gs self' gs'.
Proof.
  induction r as [|b r IH]; intros self gs i H Hl; cbn [sweep].
  { exists self, gs. split_and!; [done|done|]. split; try done. intros j slot Hk Hj.
    exfalso. apply Hk. left. apply lookup_lt_Some in Hj.
    rewrite (ipc_channel_count _ _ _ H) in Hj. simpl in Hl. lia. }
  cbn [length] in Hl.
  destruct (lookup_lt_is_Some_2 (channels self) i) as [slot Hi].
  { rewrite (ipc_channel_count _ _ _ H). lia. }
  destruct (Forall2_lookup_l _ _ _ _ _ (ipc_channels _ _ _ H) Hi) as (toks&Hg&_).
  unfold index. rewrite Hi.
  destruct b; [|destruct (ChannelSlot.pair slot) as [p|] eqn:Hp].
  - destruct (IH self gs (S i) H ltac:(lia)) as (self'&gs'&->&H'&Hs).
    exists self', gs'. split_and!; [done|done|]. by apply (swept_cons _ _ _ _ _ self gs).
  - destruct (sweep_slot_spec extra self gs i slot toks p H Hi Hg Hp) as (r1&->&H1). cbn [bind].
    destruct (IH _ _ (S i) H1 ltac:(lia)) as (self'&gs'&->&H'&Hs).
    exists self', gs'. split_and!; [done|done|]. eapply swept_cons; [| | | |exact Hs]; simpl; try done.
    + intros j Hj. by rewrite !list_lookup_insert_ne.
    + rewrite !list_lookup_insert_eq; [done|..]; by eapply lookup_lt_Some.
  - destruct (slot_free_new _ _ _ _ _ _ H Hi Hg Hp) as [-> ->].
    destruct (IH self gs (S i) H ltac:(lia)) as (self'&gs'&->&H'&Hs).
    exists self', gs'. split_and!; [done|done|]. by apply (swept_cons _ _ _ _ _ self gs).
Qed.

(** The marks the roots give, and the loop's result: exactly the reachable set. *)
Lemma marked_roots self :
  length (channels self) = CHANNEL_CAPACITY ->
  length (mark_roots self) = length (channels self)
  /\ forall i, marked (mark_roots self) i <-> exists p o, Some p ∈ processes self
       /\ o ∈ table_objects (Process.handles p) /\ channel_of (channels self) o = Some i.
Proof.
  intros Hl. destruct (mark_roots_fold (channels self) (omap id (processes self))
    (replicate CHANNEL_CAPACITY false)) as [Hl' Hm]; [by rewrite length_replicate|].
  split; [done|]. intros i. unfold mark_roots. rewrite Hm.
  setoid_rewrite list_elem_of_omap. unfold marked at 1.
  split.
  { intros [[? _]%lookup_replicate|(p&o&(x&Hx&Hid)&?)]; [done|]. exists p, o.
    unfold id in Hid. by subst x. }
  intros (p&o&Hp&?). right. exists p, o. split; [|done]. by exists (Some p).
Qed.

Lemma mark_reachable extra self gs :
  ipc_wf extra self gs ->
  exists r, mark_loop (S CHANNEL_CAPACITY) (channels self) (mark_roots self) = Some (Ret r)
    /\ length r = CHANNEL_CAPACITY /\ forall i, marked r i <-> reachable self gs i.
Proof.
  intros H. pose proof (ipc_channel_count _ _ _ H) as Hc.
  destruct (marked_roots self Hc) as [Hl Hroots].
  destruct (mark_loop_spec (channels self) gs Hc (ipc_channels _ _ _ H) (S CHANNEL_CAPACITY)
    (mark_roots self) Hl) as (r&->&Hlr&Hk&Hcl&Hs); [lia|].
  exists r. split_and!; [done|congruence|]. intros i. split.
  - apply Hs.
    + intros j toks tok k Hj Hg Htok Hk'. by eapply reachable_queued.
    + intros j (p&o&Hp&(s&c&Hslot&Hcap&<-)%elem_of_table_objects&Hj)%Hroots.
      by eapply reachable_handle.
  - induction 1 as [p s c i Hp Hslot Hcap Hi|i toks tok j _ IH Hg Htok Hj].
    + apply Hk, Hroots. exists p, (Capability.object c). split_and!; [done| |done].
      apply elem_of_table_objects. eauto.
    + by eapply Hcl.
Qed.

Lemma collect_spec extra self gs :
  ipc_wf extra self gs ->
  exists r self' gs', collect_unreachable_channels self = Ret (Ok tt, self')
    /\ ipc_wf extra self' gs' /\ (forall i, marked r i <-> reachable self gs i)
    /\ swept r 0 self gs self' gs'.
Proof.
  intros H. destruct (mark_reachable extra self gs H) as (r&Hr&Hl&Hm).
  destruct (sweep_spec extra r self gs 0 H Hl) as (self'&gs'&Hs&H'&Hsw).
  exists r, self', gs'. unfold collect_unreachable_channels. by rewrite Hr.
Qed.
End collecting.

(** ** The operations keep the account *)

Section operations.
Import UserIpcState.
Implicit Types (self : t) (gs : list (list TransferToken.t)) (extra : ObjectId.t -> N).

Definition accounted self : Prop := exists gs, ipc_wf (fun _ => 0) self gs.

(** A method runs without a panic, keeps the account on success and on error,
    and establishes [Q] on success. *)
Definition safe {T} (m : M T) (Q : T -> t -> Prop) : Prop :=
  exists res self, m = Ret (res, self) /\ accounted self
    /\ match res with Ok x => Q x self | Err _ => True end.

Lemma safe_ret {T} self (x : T) (Q : T -> t -> Prop) : accounted self -> Q x self -> safe (ret self x) Q.
Proof. intros. by exists (Ok x), self. Qed.

Lemma safe_fail {T} self e (Q : T -> t -> Prop) : accounted self -> safe (fail self e) Q.
Proof. intros. by exists (Err e), self. Qed.

Lemma safe_bind {T U} (m : M T) (k : T -> t -> M U) Q Q' :
  safe m Q -> (forall x self, accounted self -> Q x self -> safe (k x self) Q') -> safe (bind m k) Q'.
Proof.
  intros ([x|e]&self&->&Hacc&HQ) Hk; [by apply Hk|]. by exists (Err e), self.
Qed.

(** Slot [i] is process [id]'s. *)
Definition at_process self (id : N) (i : nat) (p : Process.t) : Prop :=
  process_index self id = Ok i /\ processes self !! i = Some (Some p).

Lemma process_index_lt extra self gs id i :
  ipc_wf extra self gs -> process_index self id = Ok i ->
  exists slot, processes self !! i = Some slot.
Proof.
  intros H. unfold process_index. case_decide.
  - intros [= <-]. apply lookup_lt_is_Some_2. rewrite (ipc_process_count _ _ _ H).
    unfold MAX_USER_PROCESSES. lia.
  - destruct (list_find _ _) as [[j slot]|] eqn:E; [|done]. case_decide; [|done].
    intros [= <-]. apply list_find_Some in E as (?&_). eauto.
Qed.

Lemma new_process_refs o id space :
  process_refs o (Some (Process.new HANDLE_CAPACITY id space)) = same space o.
Proof. unfold process_refs, Process.new. simpl. rewrite table_new_holds. lia. Qed.

Lemma new_table_wf : HandleTable.wf (HandleTable.new HANDLE_CAPACITY).
Proof. by apply table_new_wf. Qed.

Lemma initialize_safe self :
  accounted self ->
  safe (initialize self) (fun _ self => exists p, processes self !! 0%nat = Some (Some p)).
Proof.
  intros [gs H]. assert (Hl : (0 < length (processes self))%nat).
  { rewrite (ipc_process_count _ _ _ H). unfold MAX_USER_PROCESSES. lia. }
  destruct (lookup_lt_is_Some_2 (processes self) 0 Hl) as [slot Hslot].
  unfold initialize, index. rewrite Hslot. destruct slot as [p|].
  { apply safe_ret; [by exists gs|by exists p]. }
  destruct (ObjectRegistry.create _ _) as [[space|e] r] eqn:E.
  - pose proof (ipc_create _ _ _ _ _ _ H E) as H1. apply safe_ret.
    + exists gs. eapply (ipc_set_process _ _ _ _ _ None); [exact H1|done|exact new_table_wf|].
      intros o. rewrite new_process_refs. simpl. lia.
    + eexists. simpl. by rewrite list_lookup_insert_eq.
  - apply safe_fail. exists gs. by eapply ipc_registry_error.
Qed.

Lemma process_mut_safe self id :
  accounted self ->
  safe (process_mut self id) (fun ip self => at_process self id ip.1 ip.2).
Proof.
  intros Hacc. eapply safe_bind; [by apply initialize_safe|].
  intros _ self1 [gs H] _. destruct (process_index self1 id) as [i|e] eqn:Hi.
  2: { apply safe_fail. by exists gs. }
  destruct (process_index_lt _ _ _ _ _ H Hi) as [slot Hslot]. unfold index. rewrite Hslot.
  destruct slot as [p|]; [|apply safe_fail; by exists gs].
  apply safe_ret; [by exists gs|]. by split.
Qed.

Lemma validated_process_at self id i p :
  at_process self id i p -> validated_process self id = Ret (Ok (i, p), self).
Proof. intros [Hi Hp]. unfold validated_process, index. by rewrite Hi, Hp. Qed.

Lemma process_ref_at self id i p : at_process self id i p -> process_ref self id = Ret (Ok p).
Proof. intros [Hi Hp]. unfold process_ref, index. by rewrite Hi, Hp. Qed.

(** A located endpoint is an endpoint of a live channel. *)
Definition located self (x : nat * ObjectId.t) : Prop :=
  exists slot p, channels self !! x.1 = Some slot /\ ChannelSlot.pair slot = Some p
    /\ ChannelSlot.serves x.2 slot.

Lemma try_locate_safe self id handle :
  accounted self ->
  safe (try_locate self id handle) (fun x self' => self' = self /\ located self x).
Proof.
  intros [gs H]. unfold try_locate, locate_endpoint, process_ref.
  destruct (process_index self id) as [i|e] eqn:Hi; [|by apply safe_fail; exists gs].
  destruct (process_index_lt _ _ _ _ _ H Hi) as [slot Hslot]. unfold index. rewrite Hslot.
  destruct slot as [p|]; [|by apply safe_fail; exists gs].
  destruct (HandleTable.resolve _ _ _) as [o|e]; [|by apply safe_fail; exists gs].
  case_decide; [by apply safe_fail; exists gs|].
  destruct (list_find _ _) as [[j slot]|] eqn:E; [|by apply safe_fail; exists gs].
  apply list_find_Some in E as (Hj&Hs&_). apply safe_ret; [by exists gs|]. split; [done|].
  destruct (ChannelSlot.pair slot) as [cp|] eqn:Hp; [|by destruct Hs].
  by exists slot, cp.
Qed.

Lemma located_pair_spec self i slot p :
  channels self !! i = Some slot -> ChannelSlot.pair slot = Some p ->
  located_pair self i = Ret (slot, p).
Proof. intros Hi Hp. unfold located_pair, index. by rewrite Hi, Hp. Qed.

Lemma collect_safe self : accounted self -> safe (collect_unreachable_channels self) (fun _ _ => True).
Proof.
  intros [gs H]. destruct (collect_spec _ _ _ H) as (r&self'&gs'&->&H'&_).
  exists (Ok tt), self'. split_and!; [done|by exists gs'|done].
Qed.

(** *** Creating a pair *)

Lemma pair_new_spec c a b chan :
  ChannelPair.new c a b = Ok chan ->
  ChannelPair.holds_messages chan [] [] /\ ChannelPair.endpoint_a chan = a
  /\ ChannelPair.endpoint_b chan = b.
Proof.
  unfold ChannelPair.new. case_decide as Hd; [done|]. intros [= <-]. simpl.
  apply Decidable.not_or in Hd as [_ Hd]. apply Decidable.not_or in Hd as [Ha Hd].
  apply Decidable.not_or in Hd as [Hb Hab].
  split_and!; simpl; try done.
  split_and!; simpl; [by apply dec_stable..|done| |constructor].
  exists Queue.new, Queue.new. split_and!; auto using queue_new_represents.
Qed.

(** What the creator of three objects holds until the slot is filled. *)
Definition created (c a b o : ObjectId.t) : N := same b o + (same a o + (same c o + 0)).

Lemma release_created_spec self gs c a b :
  ipc_wf (created c a b) self gs -> accounted (release_created_objects self c a b).
Proof.
  intros H. exists gs. unfold release_created_objects. do 3 apply ipc_release.
  eapply ipc_ext; [|exact H]. intros o. unfold created. lia.
Qed.

Lemma install_pair_safe self gs id i p k slot c a b chan :
  ipc_wf (created c a b) self gs -> at_process self id i p ->
  channels self !! k = Some slot -> ChannelSlot.pair slot = None ->
  ChannelPair.new c a b = Ok chan ->
  safe (install_pair self id k c a b chan) (fun _ _ => True).
Proof.
  intros H Hat Hk Hfree Hchan. pose proof Hat as [_ Hp].
  unfold install_pair. rewrite (validated_process_at _ _ _ _ Hat). cbn [bind].
  destruct (HandleTable.insert _ _ a _) as [[[first|e] t1] r1] eqn:E1.
  2: { apply safe_fail, (release_created_spec _ gs), ipc_set_table; [done..|].
       intros rest Hb. by eapply balanced_insert. }
  destruct (HandleTable.insert t1 r1 b _) as [[[second|e] t2] r2] eqn:E2.
  2: { destruct (HandleTable.close t2 r2 first) as [[res t3] r3] eqn:E3.
       apply safe_fail, (release_created_spec _ gs), ipc_set_table; [done..|].
       intros rest Hb. eapply balanced_close, E3. eapply balanced_insert, E2.
       by eapply balanced_insert. }
  apply safe_ret; [|done].
  destruct (Forall2_lookup_l _ _ _ _ _ (ipc_channels _ _ _ H) Hk) as (toks&Hg&_).
  destruct (slot_free_new _ _ _ _ _ _ H Hk Hg Hfree) as [-> ->].
  destruct (pair_new_spec _ _ _ _ Hchan) as (Hms&Ha&Hb).
  exists (<[k := []]> gs).
  eapply ipc_set_channel; [eapply ipc_set_table; [exact H|done|]|exact Hk|done| |].
  - intros rest Hbal. eapply balanced_insert, E2. by eapply balanced_insert.
  - exists [], []. simpl. by rewrite Ha, Hb.
  - intros o. unfold slot_refs, created. simpl. lia.
Qed.

Lemma create_pair_safe self id : accounted self -> safe (create_pair self id) (fun _ _ => True).
Proof.
  intros Hacc. eapply safe_bind; [by apply process_mut_safe|].
  intros [i p] self1 Hacc1 Hat. pose proof Hacc1 as [gs H]. simpl in Hat.
  destruct (list_find _ _) as [[k slot]|] eqn:Hk; [|by apply safe_fail].
  apply list_find_Some in Hk as (Hk&Hfree&_).
  destruct (ObjectRegistry.create _ ObjectKind.Channel) as [[c|e] r1] eqn:E1.
  2: { apply safe_fail. exists gs. by eapply ipc_registry_error. }
  pose proof (ipc_create _ _ _ _ _ _ H E1) as H1.
  destruct (ObjectRegistry.create r1 _) as [[a|e] r2] eqn:E2.
  2: { apply safe_fail. exists gs. apply ipc_release.
       exact (ipc_registry_error _ _ _ _ _ _ H1 E2). }
  pose proof (ipc_create _ _ _ _ _ _ H1 E2) as H2.
  destruct (ObjectRegistry.create r2 _) as [[b|e] r3] eqn:E3.
  2: { apply safe_fail. exists gs. do 2 apply ipc_release.
       exact (ipc_registry_error _ _ _ _ _ _ H2 E3). }
  pose proof (ipc_create _ _ _ _ _ _ H2 E3) as H3. cbv zeta.
  destruct (ChannelPair.new c a b) as [chan|e] eqn:Hchan.
  2: { apply safe_fail. by eapply release_created_spec. }
  by eapply install_pair_safe.
Qed.

(** *** Processes *)

(** Taking a process out gives back its handles and its address space. *)
Lemma ipc_exit self gs i p table r :
  ipc_wf (fun _ => 0) self gs -> processes self !! i = Some (Some p) ->
  HandleTable.close_all (Process.handles p) (registry self) = (table, r) ->
  ipc_wf (fun _ => 0) (release (set_registry (set_process self i None) r) (Process.address_space p))
    gs.
Proof.
  intros H Hslot E. apply ipc_release.
  pose proof (ipc_set_table _ _ _ _ _ table r H Hslot
    (fun rest Hb => balanced_close_all _ _ _ _ _ Hb E)) as H1.
  assert (Hc : forall o, HandleTable.holds table o = 0).
  { intros o. pose proof (close_all_table (Process.handles p) (registry self)) as Ht.
    rewrite E in Ht. simpl in Ht. rewrite Ht. apply holds_closed. }
  eapply (ipc_set_process _ _ _ _ i _ None) in H1; [| |done|].
  - unfold set_process, set_registry in *. simpl in *. by rewrite list_insert_insert_eq in H1.
  - simpl. rewrite list_lookup_insert_eq; [done|]. by eapply lookup_lt_Some.
  - intros o. simpl. rewrite Hc. lia.
Qed.

Lemma exit_process_safe self id : accounted self -> safe (exit_process self id) (fun _ _ => True).
Proof.
  intros Hacc. pose proof Hacc as [gs H]. unfold exit_process.
  case_decide; [by apply safe_fail|].
  destruct (process_index self id) as [i|e] eqn:Hi; [|by apply safe_fail].
  destruct (process_index_lt _ _ _ _ _ H Hi) as [slot Hslot]. unfold index. rewrite Hslot.
  destruct slot as [p|].
  2: { apply safe_fail. exists gs. by eapply (ipc_set_process _ _ _ _ _ None). }
  cbn [registry set_process]. destruct (HandleTable.close_all _ _) as [t1 r1] eqn:E.
  apply collect_safe. exists gs. by eapply ipc_exit.
Qed.

(** Taking a handle out of a process's table: the token holds its reference. *)
Lemma ipc_begin_move extra self gs i p h rt tok table :
  ipc_wf extra self gs -> processes self !! i = Some (Some p) ->
  HandleTable.begin_move (Process.handles p) (registry self) h rt = (Ok tok, table) ->
  ipc_wf (fun o => same (Flow.token_object tok) o + extra o)
    (set_process self i (Some (Process.set_handles p table))) gs.
Proof.
  intros H Hi E.
  assert (Hp : HandleTable.wf (Process.handles p))
    by exact (Forall_lookup_1 _ _ _ _ (ipc_processes _ _ _ H) Hi).
  eapply ipc_set_process; [done|exact Hi| |].
  - pose proof (begin_move_wf _ (registry self) h rt Hp) as Hw. by rewrite E in Hw.
  - apply begin_move_Ok in E as (j&s&c&(->&Hs&_)%table_slot_Ok&Hc&_&_&->&->).
    intros o. simpl. rewrite (holds_vacate _ _ s c (HandleSlot.generation s + 1) o Hs Hc).
    unfold Flow.token_object. simpl. lia.
Qed.

Lemma begin_move_Err t r h rt e t' : HandleTable.begin_move t r h rt = (Err e, t') -> t' = t.
Proof. unfold HandleTable.begin_move. intros. by crush_match. Qed.

(** A child is born with one handle. *)
Lemma ipc_install_child extra self gs i id space r tok h table tok' :
  ipc_wf (fun o => same (Flow.token_object tok) o + (same space o + extra o)) self gs ->
  processes self !! i = Some None ->
  HandleTable.install_token (HandleTable.new HANDLE_CAPACITY) r (Some tok) = (Ok h, table, tok') ->
  ipc_wf extra (set_process self i
    (Some (Process.set_handles (Process.new HANDLE_CAPACITY id space) table))) gs.
Proof.
  intros H Hi E. eapply ipc_set_process; [done|exact Hi| |].
  - by apply install_token_result in E as [? _]; [|exact new_table_wf].
  - apply install_token_slot in E as (j&s&Hs&[Hn _]&->); [|exact new_table_wf].
    intros o. simpl. rewrite (holds_install _ j s _ o Hs Hn), table_new_holds.
    unfold Flow.token_object. lia.
Qed.

Lemma install_token_Err t r tok e t' tok' :
  HandleTable.install_token t r (Some tok) = (Err e, t', tok') -> tok' = Some tok.
Proof. unfold HandleTable.install_token. intros. by crush_match. Qed.

Lemma register_spawned_safe self parent child endpoint rights :
  accounted self ->
  safe (register_spawned_process self parent child endpoint rights) (fun _ _ => True).
Proof.
  intros Hacc. eapply safe_bind; [by apply initialize_safe|].
  intros _ self1 Hacc1 [p0 Hp0]. case_decide as Hids; [by apply safe_fail|].
  destruct (is_ok _); [by apply safe_fail|].
  destruct (list_find _ _) as [[k slot]|] eqn:Hk; [|by apply safe_fail].
  apply list_find_Some in Hk as (Hk&->&_). rewrite lookup_drop in Hk.
  eapply safe_bind; [by apply try_locate_safe|]. intros x ? _ [-> _].
  assert (Hpar : forall r, process_index (set_registry self1 r) parent = Ok 0%nat).
  { intros r. unfold process_index. rewrite decide_True; [done|].
    apply dec_stable. intros Hn. apply Hids. by left. }
  pose proof Hacc1 as [gs H].
  destruct (ObjectRegistry.create _ _) as [[space|e] r] eqn:E.
  2: { apply safe_fail. exists gs. by eapply ipc_registry_error. }
  pose proof (ipc_create _ _ _ _ _ _ H E) as H1. cbv zeta. rewrite Hpar.
  set (self2 := set_registry self1 r) in *. unfold index.
  change (processes self2) with (processes self1). rewrite Hp0.
  destruct (HandleTable.begin_move _ _ _ _) as [[tok|e] table] eqn:Em.
  2: { apply begin_move_Err in Em as ->. apply safe_fail. exists gs. apply ipc_release.
       by eapply (ipc_set_process _ _ _ _ _ (Some p0)); [exact H1| |
         exact (Forall_lookup_1 _ _ _ _ (ipc_processes _ _ _ H) Hp0)|]. }
  pose proof (ipc_begin_move _ _ _ _ _ _ _ _ _ H1 Hp0 Em) as H2.
  destruct (HandleTable.install_token _ _ _) as [[[ch|e] child_table] tok'] eqn:Ei.
  - apply safe_ret; [|done]. exists gs. eapply ipc_install_child; [exact H2| |exact Ei].
    simpl. by rewrite list_lookup_insert_ne.
  - apply install_token_Err in Ei as ->. apply ipc_release in H2. apply ipc_release in H2.
    destruct (collect_safe _ (ex_intro _ gs H2)) as (res&self3&Hrun&Hacc3&_).
    unfold Flow.token_object in Hrun. rewrite Hrun. by apply safe_fail.
Qed.

(** *** Handles *)

Lemma close_safe self id h : accounted self -> safe (close self id h) (fun _ _ => True).
Proof.
  intros Hacc. eapply safe_bind; [by apply process_mut_safe|].
  intros [i p] self1 Hacc1 Hat. simpl in Hat.
  eapply safe_bind; [by apply try_locate_safe|]. intros x ? _ [-> _].
  rewrite (validated_process_at _ _ _ _ Hat). cbn [bind].
  destruct (HandleTable.close _ _ _) as [[closed t1] r1] eqn:E.
  assert (Hacc2 : accounted (set_registry (set_process self1 i
    (Some (Process.set_handles p t1))) r1)).
  { destruct Hacc1 as [gs H]. exists gs. apply ipc_set_table; [done|apply Hat|].
    intros rest Hb. by eapply balanced_close. }
  destruct closed; [by apply collect_safe|by apply safe_fail].
Qed.

(** *** Messages *)

Lemma request_carries m ds m' transfers :
  OutgoingMessage.carries m ds ->
  Forall (fun x => ChannelHandleTransfer.handle x <= U64_MAX) transfers ->
  add_transfers m transfers = Ok m' -> exists ds', OutgoingMessage.carries m' ds'.
Proof.
  revert m ds. induction transfers as [|x transfers IH]; intros m ds Hm Hall; simpl.
  { intros [= <-]. eauto. }
  apply Forall_cons in Hall as [Hx Hall]. case_decide; [done|].
  destruct (Rights.from_bits _) as [rights|]; [|done].
  destruct (OutgoingMessage.add_transfer _ _ _) as [[[]|e] m1] eqn:E; [|done].
  eapply add_transfer_carries in E; [|done|done]. eauto.
Qed.

Lemma compose_spec request :
  ChannelSendRequest.typed request ->
  exists res, compose request = Ret res
    /\ match res with Ok m => exists ds, OutgoingMessage.carries m ds | Err _ => True end.
Proof.
  intros (Hp&Ht&Hall). unfold compose. case_decide as Hd; [by eexists|].
  rewrite slice_to_Ret by lia. eexists. split; [done|]. cbv zeta.
  destruct (OutgoingMessage.set_payload _ _) as [[[]|e] m] eqn:E; [|done].
  eapply set_payload_carries in E as [Hm _]; [|apply outgoing_new_carries].
  destruct (add_transfers _ _) as [m'|e] eqn:E'; [|done].
  eapply request_carries; [done| |done]. by apply Forall_take.
Qed.

(** The reachability test of [send] never panics. *)
Lemma endpoint_reachable_total self endpoint :
  accounted self -> exists b, endpoint_reachable self endpoint = Ret b.
Proof.
  intros [gs H]. unfold endpoint_reachable. generalize (foldl
    (fun b p => HandleTable.visit_objects (Process.handles p)
                  (fun b o => b || bool_decide (o = endpoint)) b) false (omap id (processes self))).
  pose proof (ipc_channels _ _ _ H) as Hc. clear H. intros b. revert b.
  induction Hc as [|slot toks chans gs Hs _ IH]; intros b; csimpl; [by eexists|].
  unfold slot_ok in Hs. destruct (ChannelSlot.pair slot) as [p|]; [|apply IH].
  destruct Hs as (ms0&ms1&Hms&_). cbn [escrow_names].
  destruct (visit_escrow_spec p ms0 ms1 (fun b o => b || bool_decide (o = endpoint)) b Hms)
    as (os&->&_). apply IH.
Qed.

(** A located channel and the messages it holds. *)
Lemma located_slot self gs x :
  ipc_wf (fun _ => 0) self gs -> located self x ->
  exists slot p ms0 ms1, channels self !! x.1 = Some slot /\ ChannelSlot.pair slot = Some p
    /\ ChannelPair.holds_messages p ms0 ms1
    /\ gs !! x.1 = Some (ChannelPair.escrow_of (ms0 ++ ms1))
    /\ located_pair self x.1 = Ret (slot, p)
    /\ forall p' ms0' ms1', ChannelPair.holds_messages p' ms0' ms1' ->
         ChannelPair.endpoint_a p' = ChannelPair.endpoint_a p ->
         ChannelPair.endpoint_b p' = ChannelPair.endpoint_b p ->
         slot_ok (ChannelSlot.set_pair slot p') (ChannelPair.escrow_of (ms0' ++ ms1')).
Proof.
  intros H (slot&p&Hi&Hp&_).
  destruct (Forall2_lookup_l _ _ _ _ _ (ipc_channels _ _ _ H) Hi) as (toks&Hg&Hs).
  unfold slot_ok in Hs. rewrite Hp in Hs. destruct Hs as (ms0&ms1&Hms&->&Ha&Hb&Ho).
  exists slot, p, ms0, ms1. split_and!; [done..|by apply located_pair_spec|].
  intros p' ms0' ms1' Hms' Ha' Hb'. exists ms0', ms1'. simpl. by rewrite Ha', Hb'.
Qed.

(** Moving references between one handle table and one channel's queues. *)
Lemma ipc_exchange self gs i p table k slot p' toks toks' :
  ipc_wf (fun _ => 0) self gs -> processes self !! i = Some (Some p) ->
  channels self !! k = Some slot -> gs !! k = Some toks ->
  HandleTable.wf table -> slot_ok (ChannelSlot.set_pair slot p') toks' ->
  (forall o, HandleTable.holds (Process.handles p) o + Flow.escrowed toks o
             = HandleTable.holds table o + Flow.escrowed toks' o) ->
  accounted (set_channel (set_process self i (Some (Process.set_handles p table))) k
               (ChannelSlot.set_pair slot p')).
Proof.
  intros H Hi Hk Hg Hwt Hs Hd. exists (<[k := toks']> gs).
  pose proof (ipc_set_process _ (fun o => process_refs o (Some p)) _ _ _ _ None H Hi I
    (fun o => eq_sym (N.add_comm (process_refs o (Some p)) 0))) as H1.
  eapply (ipc_set_channel _ (fun o => process_refs o (Some (Process.set_handles p table)))
    _ _ k slot (ChannelSlot.set_pair slot p') toks toks') in H1; [|done..|].
  - eapply (ipc_set_process _ (fun _ => 0) _ _ i None (Some (Process.set_handles p table))) in H1;
      [|simpl; apply list_lookup_insert_eq; by eapply lookup_lt_Some|done|intros o; simpl; lia].
    unfold set_process, set_channel in *. simpl in *. by rewrite list_insert_insert_eq in H1.
  - intros o. specialize (Hd o). unfold slot_refs. simpl. lia.
Qed.

Lemma process_table_wf self gs extra i p :
  ipc_wf extra self gs -> processes self !! i = Some (Some p) -> HandleTable.wf (Process.handles p).
Proof. intros H Hi. exact (Forall_lookup_1 _ _ _ _ (ipc_processes _ _ _ H) Hi). Qed.

Lemma set_handles_same p : Process.set_handles p (Process.handles p) = p.
Proof. by destruct p. Qed.

Lemma set_pair_same slot p : ChannelSlot.pair slot = Some p -> ChannelSlot.set_pair slot p = slot.
Proof. destruct slot; simpl. by intros ->. Qed.

Lemma set_process_same self i p : processes self !! i = Some p -> set_process self i p = self.
Proof. intros. unfold set_process. rewrite list_insert_id by done. by destruct self. Qed.

Lemma set_channel_same self i slot : channels self !! i = Some slot -> set_channel self i slot = self.
Proof. intros. unfold set_channel. rewrite list_insert_id by done. by destruct self. Qed.

Lemma set_waiters_same self : set_waiters self (waiters self) = self.
Proof. by destruct self. Qed.

Lemma accounted_waiters self w : accounted self -> WaitRegistry.wf w -> accounted (set_waiters self w).
Proof. intros [gs H] Hw. exists gs. by apply ipc_set_waiters. Qed.

Lemma send_safe self id endpoint request :
  accounted self -> ChannelSendRequest.typed request ->
  safe (send self id endpoint request) (fun _ _ => True).
Proof.
  intros Hacc Hreq. eapply safe_bind; [by apply process_mut_safe|].
  intros [i p] self1 Hacc1 Hat. simpl in Hat.
  destruct (compose_spec request Hreq) as (m&->&Hm). destruct m as [m|e]; [|by apply safe_fail].
  destruct Hm as [ds Hds]. eapply safe_bind; [by apply try_locate_safe|].
  intros [k eo] ? _ [-> Hloc]. pose proof Hacc1 as [gs H].
  destruct (located_slot _ _ _ H Hloc) as (slot&chan&ms0&ms1&Hk&Hpair&Hms&Hg&Hlp&Hslot).
  simpl in Hk, Hg, Hlp. unfold index. rewrite Hk. cbv zeta.
  assert (Hopen : exists b, match (if decide (ChannelSlot.endpoint_a slot = Some eo)
      then ChannelSlot.endpoint_b slot else ChannelSlot.endpoint_a slot) with
    | Some peer => endpoint_reachable self1 peer | None => Ret false end = Ret b).
  { destruct (if decide _ then _ else _) as [peer|]; [|by eexists]. by apply endpoint_reachable_total. }
  destruct Hopen as [b ->]. destruct b; cbn [negb]; [|by apply safe_fail].
  rewrite (validated_process_at _ _ _ _ Hat). cbn [bind]. rewrite Hlp.
  destruct (send_spec chan (registry self1) p (Handle.from_raw endpoint) m ds (waiters self1)
    ms0 ms1 Hms Hds) as (res&chan'&p'&w'&->&Hres). destruct Hat as [_ Hp].
  destruct res as [u|e].
  2: { destruct Hres as (->&->&->). apply safe_fail.
       rewrite (set_process_same _ _ _ Hp), (set_pair_same _ _ Hpair), (set_channel_same _ _ _ Hk).
       by rewrite set_waiters_same. }
  destruct Hres as (eo'&toks&t'&qm&_&Hmv&->&_&Hesc&->&Ha&Hb&Hside).
  pose proof (process_table_wf _ _ _ _ _ H Hp) as Hwp.
  pose proof (notify_wf (ChannelPair.receiver_endpoint chan eo') Signals.READABLE _
    (ipc_waiters _ _ _ H)) as Hww.
  destruct (take_woken_spec _ Hww) as (woken&->&_&_). apply safe_ret; [|done].
  apply cleared_wakeups_wf in Hww. apply accounted_waiters; [|done].
  apply accounted_waiters; [|by apply notify_wf, H].
  destruct Hside as [[_ Hms']|[_ Hms']];
    (eapply (ipc_exchange _ gs _ _ _ _ _ _ _ _ H Hp Hk Hg);
      [by eapply moves_wf|by apply Hslot|]); intros o;
    rewrite (moves_accounted _ _ _ _ _ o Hmv), !escrow_of_app, !escrowed_app,
      (escrow_of_singleton _ _ Hesc); lia.
Qed.

Lemma raw_handles_total (received : ReceivedMessage.t) hs :
  ReceivedMessage.handles received = padded MAX_TRANSFER_HANDLES hs ->
  (length hs <= MAX_TRANSFER_HANDLES)%nat -> forall indices handles,
  Forall (fun i => i < length hs)%nat indices -> length handles = MAX_TRANSFER_HANDLES ->
  exists handles', raw_handles received indices handles = Ret handles'.
Proof.
  intros Hhs Hle indices. induction indices as [|i indices IH]; intros handles Hall Hl; [by eexists|].
  apply Forall_cons in Hall as [Hi Hall]. cbn [raw_handles].
  destruct (lookup_lt_is_Some_2 hs i Hi) as [h Hh].
  unfold ReceivedMessage.handle. rewrite Hhs, (padded_lookup _ _ _ _ Hh). cbn [mjoin option_join].
  rewrite store_Ret by lia. apply IH; [done|]. by rewrite length_insert.
Qed.

Lemma receive_result_total m toks hs :
  QueuedMessage.escrows m toks -> length hs = length toks ->
  exists result, receive_result
    (ReceivedMessage.mk (QueuedMessage.sender_process_id m) (QueuedMessage.header m)
       (QueuedMessage.payload m) (QueuedMessage.payload_len m)
       (padded MAX_TRANSFER_HANDLES hs) (length toks)) = Ret result.
Proof.
  intros (Hp&Hple&_&Hle&_) Hlen. unfold receive_result, ReceivedMessage.payload.
  cbn [ReceivedMessage.payload_bytes ReceivedMessage.payload_len ReceivedMessage.handle_count].
  rewrite slice_to_Ret by lia. rewrite copy_into_Ret.
  2: { rewrite length_take, length_replicate. lia. }
  edestruct raw_handles_total as [handles ->]; [by simpl|lia| | |by eexists].
  - apply Forall_seq. intros. lia.
  - by rewrite length_replicate.
Qed.

Lemma try_receive_safe self id endpoint :
  accounted self -> safe (try_receive self id endpoint) (fun _ _ => True).
Proof.
  intros Hacc. eapply safe_bind; [by apply process_mut_safe|].
  intros [i p] self1 Hacc1 Hat. simpl in Hat.
  eapply safe_bind; [by apply try_locate_safe|]. intros [k eo] ? _ [-> Hloc].
  pose proof Hacc1 as [gs H].
  destruct (located_slot _ _ _ H Hloc) as (slot&chan&ms0&ms1&Hk&Hpair&Hms&Hg&Hlp&Hslot).
  simpl in Hk, Hg, Hlp. rewrite (validated_process_at _ _ _ _ Hat). cbn [bind]. rewrite Hlp.
  destruct Hat as [_ Hp]. pose proof (process_table_wf _ _ _ _ _ H Hp) as Hwp.
  destruct (receive_spec chan (registry self1) p (Handle.from_raw endpoint) ms0 ms1 Hms Hwp)
    as (res&chan'&p'&->&Hres). cbv zeta.
  assert (Hsame : accounted (set_channel (set_process self1 i (Some p)) k
    (ChannelSlot.set_pair slot chan))).
  { by rewrite (set_process_same _ _ _ Hp), (set_pair_same _ _ Hpair), (set_channel_same _ _ _ Hk). }
  destruct res as [[received|]|e].
  2: { destruct Hres as (->&->&_). by apply safe_ret. }
  2: { destruct Hres as (->&->). by apply safe_fail. }
  destruct Hres as (eo'&toks&hs&t'&qm&_&Hesc&Hins&->&->&Ha&Hb&Hside).
  destruct (receive_result_total qm toks hs Hesc (installs_length _ _ _ _ _ Hins)) as [result ->].
  apply safe_ret; [|done].
  destruct Hside as [(_&ms'&->&Hms')|(_&ms'&->&Hms')];
    (eapply (ipc_exchange _ gs _ _ _ _ _ _ _ _ H Hp Hk Hg);
      [by eapply installs_wf|by apply Hslot|]); intros o;
    rewrite (installs_accounted _ _ _ _ _ o Hwp Hins), !escrow_of_app, !escrowed_app,
      (escrow_of_cons _ _ _ Hesc), escrowed_app; lia.
Qed.

Lemma channel_item_total chan r p h signals ms0 ms1 :
  ChannelPair.holds_messages chan ms0 ms1 ->
  exists res, channel_wait_item_for_process chan r p h signals = Ret res
    /\ match res with Ok item => WaitItem.source_ok item | Err _ => True end.
Proof.
  intros (_&_&_&(q0&q1&Hq&_)&_). unfold channel_wait_item_for_process, channel_wait_item.
  destruct (HandleTable.require _ _ _ _ _) as [o|e]; [|by eexists].
  unfold ChannelPair.readiness. destruct (ChannelPair.queue_for_receiver chan o) as [k|e] eqn:Hk;
    [|by eexists].
  apply queue_for_receiver_Ok in Hk as [Hk _]. unfold index. rewrite Hq.
  destruct k as [|[|k]]; [| |lia]; (eexists; split; [done|]); unfold WaitItem.source_ok; simpl;
    by rewrite Hq.
Qed.

Lemma wait_readable_safe self id endpoint waiter on_blocked :
  accounted self -> safe (wait_readable self id endpoint waiter on_blocked) (fun _ _ => True).
Proof.
  intros Hacc. eapply safe_bind; [by apply process_mut_safe|].
  intros [i p] self1 Hacc1 Hat. simpl in Hat.
  eapply safe_bind; [by apply try_locate_safe|]. intros [k eo] ? _ [-> Hloc].
  pose proof Hacc1 as [gs H]. rewrite (process_ref_at _ _ _ _ Hat).
  destruct (located_slot _ _ _ H Hloc) as (slot&chan&ms0&ms1&_&_&Hms&_&Hlp&_).
  simpl in Hlp. rewrite Hlp.
  destruct (channel_item_total chan (registry self1) p (Handle.from_raw endpoint)
    Signals.READABLE ms0 ms1 Hms) as (item&->&Hitem).
  destruct item as [item|e]; [|by apply safe_fail]. unfold wait.
  destruct (wait_many_spec (waiters self1) (Waiter.new waiter) [item] (ipc_waiters _ _ _ H))
    as (res&w'&waiter'&->&Hw&_); [by apply Forall_singleton|unfold MAX_WAIT_ITEMS; simpl; lia|].
  cbv zeta. assert (Hacc2 := accounted_waiters _ _ Hacc1 Hw).
  destruct res as [out|[]]; [by apply safe_ret|try by apply safe_fail..].
  destruct on_blocked; [by apply safe_ret|]. apply safe_fail.
  apply accounted_waiters; [done|]. by apply cancel_waiter_wf.
Qed.
End operations.

(** ** Theorems *)

Section theorems.
Import UserIpcState.
Implicit Types (self : t) (gs : list (list TransferToken.t)).

Lemma manager_new_accounted : accounted new.
Proof.
  exists (replicate CHANNEL_CAPACITY []). split.
  - by apply registry_new_wf.
  - apply wait_new_wf.
  - done.
  - done.
  - by apply Forall_replicate.
  - apply Forall2_replicate. by split.
  - intros o. simpl. rewrite (refs_new OBJECT_CAPACITY o). done.
Qed.

Lemma left_by_safe {T} (m : M T) Q :
  safe m Q -> exists self, UserIpcSystem.left_by m = Ret self /\ accounted self.
Proof. intros (res&self&->&?&_). by exists self. Qed.

Lemma run_op_accounted self x :
  accounted self -> UserIpcSystem.op_ok x ->
  exists self', UserIpcSystem.run_op self x = Ret self' /\ accounted self'.
Proof.
  intros H Hok. destruct x; simpl in *;
    eauto using left_by_safe, register_spawned_safe, exit_process_safe, create_pair_safe,
      send_safe, wait_readable_safe, try_receive_safe, close_safe.
  eexists. split; [done|]. apply accounted_waiters; [done|].
  destruct H as [gs H]. apply cancel_waiter_wf, H.
Qed.

Lemma run_ops_accounted xs : forall self,
  accounted self -> Forall UserIpcSystem.op_ok xs ->
  exists self', UserIpcSystem.run_ops self xs = Ret self' /\ accounted self'.
Proof.
  induction xs as [|x xs IH]; intros self H Hall; [by eexists|].
  apply Forall_cons in Hall as [Hx Hall]. simpl.
  destruct (run_op_accounted self x H Hx) as (self1&->&H1). by apply IH.
Qed.

(** A kept endpoint's channel keeps its place. *)
Lemma swept_channel_of r self gs self' gs' o i :
  swept r 0 self gs self' gs' -> kept r 0 i ->
  channel_of (channels self) o = Some i -> channel_of (channels self') o = Some i.
Proof.
  intros [_ _ Hk Hc] Hi. unfold channel_of. case_decide; [|done].
  destruct (list_find _ (channels self)) as [[j slot]|] eqn:E; [|done]. intros [= ->].
  apply list_find_Some in E as (Hj&Hs&Hlow).
  assert (E' : list_find (ChannelSlot.serves o) (channels self') = Some (i, slot)).
  { apply list_find_Some. destruct (Hk i Hi) as [-> _]. split_and!; [done|done|].
    intros j slot' Hj' Hlt Hserve. destruct (decide (kept r 0 j)) as [Hkj|Hkj].
    - destruct (Hk j Hkj) as [Heq _]. rewrite Heq in Hj'. by eapply Hlow.
    - destruct (lookup_lt_is_Some_2 (channels self) j) as [s0 Hs0].
      { apply lookup_lt_Some in Hj. lia. }
      destruct (Hc j s0 Hkj Hs0) as [Hnew _]. rewrite Hnew in Hj'. simplify_eq.
      by destruct Hserve. }
  by rewrite E'.
Qed.

Lemma swept_reachable r self gs self' gs' i :
  (forall i, marked r i <-> reachable self gs i) -> swept r 0 self gs self' gs' ->
  reachable self gs i -> reachable self' gs' i.
Proof.
  intros Hm Hsw Hr.
  assert (Hkept : forall i, reachable self gs i -> kept r 0 i).
  { intros j Hj. right. rewrite Nat.sub_0_r. by apply Hm. }
  induction Hr as [p s c i Hp Hs Hcap Hi|i toks tok j Hr IH Hg Htok Hj].
  - eapply reachable_handle; [|exact Hs|exact Hcap|].
    + by rewrite (swept_processes _ _ _ _ _ _ Hsw).
    + eapply swept_channel_of; [done| |done]. apply Hkept. by eapply reachable_handle.
  - eapply reachable_queued; [exact IH| |exact Htok|].
    + by rewrite (proj2 (swept_kept _ _ _ _ _ _ Hsw i (Hkept i Hr))).
    + eapply swept_channel_of; [done| |done]. apply Hkept. by eapply reachable_queued.
Qed.

(** Every live channel is reachable. *)
Definition no_garbage self gs : Prop :=
  forall i slot, channels self !! i = Some slot -> ChannelSlot.pair slot <> None -> reachable self gs i.

Lemma collect_no_garbage extra self gs :
  ipc_wf extra self gs ->
  exists self' gs', collect_unreachable_channels self = Ret (Ok tt, self')
    /\ ipc_wf extra self' gs' /\ no_garbage self' gs'
    /\ processes self' = processes self /\ waiters self' = waiters self
    /\ forall i slot, channels self !! i = Some slot ->
         reachable self gs i /\ channels self' !! i = Some slot
         \/ ~ reachable self gs i /\ channels self' !! i = Some ChannelSlot.new.
Proof.
  intros H. destruct (collect_spec _ _ _ H) as (r&self'&gs'&Hrun&H'&Hm&Hsw).
  assert (Hkr : forall i, kept r 0 i <-> reachable self gs i).
  { intros i. rewrite <-Hm. unfold kept. rewrite Nat.sub_0_r. naive_solver lia. }
  assert (Hall : forall i slot, channels self !! i = Some slot ->
    reachable self gs i /\ channels self' !! i = Some slot
    \/ ~ reachable self gs i /\ channels self' !! i = Some ChannelSlot.new).
  { intros i slot Hi. destruct (decide (kept r 0 i)) as [Hk|Hk].
    - left. split; [by apply Hkr|]. by rewrite (proj1 (swept_kept _ _ _ _ _ _ Hsw i Hk)).
    - right. split; [by rewrite <-Hkr|]. by apply (swept_cleared _ _ _ _ _ _ Hsw i slot Hk). }
  exists self', gs'. split_and!; [done|done| |apply Hsw|apply Hsw|done].
  intros i slot Hi Hp. destruct (lookup_lt_is_Some_2 (channels self) i) as [s0 Hs0].
  { rewrite (ipc_channel_count _ _ _ H), <-(ipc_channel_count _ _ _ H').
    by eapply lookup_lt_Some. }
  destruct (Hall i s0 Hs0) as [[Hr _]|[_ Hnew]]; [by eapply swept_reachable|].
  rewrite Hnew in Hi. by simplify_eq.
Qed.

(** C2: every run of the user IPC manager from its initial state ends without a
    panic, and in the state it leaves the object registry counts exactly the
    references that the handle tables, the address spaces, the channel slots and
    the tokens queued in channels account for. *)
Theorem user_ipc_invariant xs :
  Forall UserIpcSystem.op_ok xs ->
  exists self gs, UserIpcSystem.run_ops new xs = Ret self
    /\ ipc_wf (fun _ => 0) self gs.
Proof.
  intros Hxs. destruct (run_ops_accounted xs new manager_new_accounted Hxs) as (self&Hrun&gs&H).
  by exists self, gs.
Qed.

(** C3: collecting ends without an error and frees exactly the channels that no
    process can reach, directly by a handle or through messages queued in
    reachable channels; the reachable ones, the processes and the waiters are
    untouched, the reference counts stay exact, and every channel left is reachable. *)
Theorem collect_exact self gs :
  ipc_wf (fun _ => 0) self gs ->
  exists self' gs', collect_unreachable_channels self = Ret (Ok tt, self')
    /\ ipc_wf (fun _ => 0) self' gs' /\ no_garbage self' gs'
    /\ processes self' = processes self /\ waiters self' = waiters self
    /\ forall i slot, channels self !! i = Some slot ->
         reachable self gs i /\ channels self' !! i = Some slot
         \/ ~ reachable self gs i /\ channels self' !! i = Some ChannelSlot.new.
Proof. apply collect_no_garbage. Qed.

End theorems.

(** ** A concrete run *)

Module UserIpcExample.
Import UserIpcState UserIpcSystem.

(** The handle of a slot of the first generation. *)
Definition first (i : nat) : N := Handle.raw (Handle.new i 1).

(** Two bytes of payload and the handle in slot 2. *)
Definition request : ChannelSendRequest.t :=
  ChannelSendRequest.mk 7 1 3 0 42 2 1 (1 :: 2 :: replicate (MAX_INLINE_PAYLOAD - 2) 0)
    (ChannelHandleTransfer.mk (first 2) (Rights.bits ENDPOINT_RIGHTS) 0
     :: replicate (MAX_TRANSFER_HANDLES - 1) (ChannelHandleTransfer.mk 0 0 0)).

(** The bootstrap process makes two channels, gives the child one end of the
    first, sends it one end of the second and closes the two it still holds. *)
Definition run : list op :=
  [CreatePair 1; CreatePair 1; RegisterSpawned 1 2 (first 1) ENDPOINT_RIGHTS;
   WaitReadable 2 (first 0) 9 true; Send 1 (first 0) request;
   Close 1 (first 3); Close 1 (first 0)].

Definition state : t := match run_ops new run with Ret self => self | Panic => new end.
Definition after_exit : t :=
  match exit_process state 2 with Ret (_, self) => self | Panic => new end.

Definition live (self : t) : list bool :=
  (fun slot => bool_decide (~ ChannelSlot.pair slot = None)) <$> channels self.

Lemma run_ok : Forall op_ok run.
Proof. repeat constructor; done. Qed.

Lemma run_state : run_ops new run = Ret state.
Proof. vm_compute. reflexivity. Qed.

Lemma state_accounted : accounted state.
Proof.
  destruct (run_ops_accounted run new manager_new_accounted run_ok) as (self&Hrun&H).
  rewrite run_state in Hrun. revert Hrun H. generalize state. intros self0 [= ->]. done.
Qed.

Lemma user_ipc_invariant_witness :
  Forall op_ok run /\ exists self gs, run_ops new run = Ret self /\ ipc_wf (fun _ => 0) self gs.
Proof. split; [exact run_ok|]. apply (user_ipc_invariant run). exact run_ok. Defined.

(** The second channel is reached only through the message queued in the first. *)
Lemma collect_exact_witness :
  exists gs, ipc_wf (fun _ => 0) state gs /\ reachable state gs 1.
Proof.
  destruct state_accounted as [gs H]. exists gs. split; [exact H|].
  destruct (collect_exact state gs H) as (self'&gs'&Hc&_&_&_&_&Hall).
  destruct (channels state !! 1%nat) as [slot|] eqn:Hslot; [|by vm_compute in Hslot].
  destruct (Hall 1%nat slot Hslot) as [[Hr _]|[_ Hnew]]; [exact Hr|].
  assert (Hlive : match collect_unreachable_channels state with
                  | Ret (_, self') => live self' !! 1%nat = Some true | Panic => False end)
    by (vm_compute; reflexivity).
  rewrite Hc in Hlive. unfold live in Hlive. rewrite list_lookup_fmap, Hnew in Hlive. done.
Defined.

End UserIpcExample.
