(* ===== verification/UserElf.v ===== *)
(** * Loading plans for user programs (kernel/src/user_elf.rs)

    [parse] reads an ELF image and answers with the segments to map, or with
    the reason it refuses. An image is a list of bytes no longer than a Rust
    slice can be; offsets and addresses are [N]. The theorems say exactly which
    images are accepted, and that no image makes the parser panic. *)

From stdpp Require Import prelude.
From S2P Require Import Prelude Memory.

Local Open Scope N_scope.
Local Open Scope nagi_scope.

Definition USER_IMAGE_BASE : N := 0x0000400000000000.
Definition USER_IMAGE_LIMIT : N := USER_IMAGE_BASE + 512 * 1024 * 1024.
Definition MAX_LOAD_SEGMENTS : nat := 16.
Definition ELF_HEADER_SIZE : N := 64.
Definition PROGRAM_HEADER_SIZE : N := 56.
Definition PT_LOAD : N := 1.
Definition PT_TLS : N := 7.
Definition PF_X : N := 1.
Definition PF_W : N := 2.

Module UserLoadSegment.
Record t := mk {
  file_offset : N;
  virtual_address : N;
  file_size : N;
  memory_size : N;
  flags : N
}.

Definition default : t := mk 0 0 0 0 0.
End UserLoadSegment.

Module UserTlsSegment.
Record t := mk {
  file_offset : N;
  virtual_address : N;
  file_size : N;
  memory_size : N;
  alignment : N
}.
End UserTlsSegment.

Module UserLoadPlan.
Record t := mk {
  entry : N;
  segments : list UserLoadSegment.t;
  segment_count : nat;
  tls : option UserTlsSegment.t
}.
End UserLoadPlan.

Module UserElfError.
Inductive t :=
  | Truncated
  | BadMagic
  | UnsupportedClass
  | UnsupportedEncoding
  | UnsupportedVersion
  | UnsupportedType
  | UnsupportedMachine
  | InvalidProgramHeaders
  | NoLoadSegments
  | TooManyLoadSegments
  | DuplicateTlsSegment
  | InvalidSegment
  | SegmentOutOfRange
  | InvalidTlsSegment
  | TlsSegmentOutOfRange
  | TlsSegmentTooLarge
  | WritableExecutable
  | OverlappingSegments
  | EntryNotExecutable.
End UserElfError.

(** [bytes.len() as u64] *)
Definition len (bytes : list N) : N := N.of_nat (length bytes).

(** ** Reading words: [bytes.get(offset..offset + n)] and [from_le_bytes] *)

Definition read (n : nat) (bytes : list N) (offset : N) : Exec (Result N UserElfError.t) :=
  let! stop := u64_add offset (N.of_nat n) in
  Ret (if decide (stop <= len bytes)
       then Ok (from_le_bytes (sub_bytes bytes (N.to_nat offset) n))
       else Err UserElfError.Truncated).

Definition read_u16 : list N -> N -> Exec (Result N UserElfError.t) := read 2.
Definition read_u32 : list N -> N -> Exec (Result N UserElfError.t) := read 4.
Definition read_u64 : list N -> N -> Exec (Result N UserElfError.t) := read 8.

(** ** Validation *)

(** The check against one segment already in the plan. *)
Fixpoint check_overlaps (segment : UserLoadSegment.t) (memory_end : N)
  (existing : list UserLoadSegment.t) : Exec (Result unit UserElfError.t) :=
  match existing with
  | [] => Ret (Ok tt)
  | e :: existing =>
      let! existing_end := u64_add (UserLoadSegment.virtual_address e)
                             (UserLoadSegment.memory_size e) in
      if decide (UserLoadSegment.virtual_address segment < existing_end
                 /\ UserLoadSegment.virtual_address e < memory_end)
      then Ret (Err UserElfError.OverlappingSegments)
      else check_overlaps segment memory_end existing
  end.

Definition validate_segment (bytes : list N) (plan : UserLoadPlan.t) (segment : UserLoadSegment.t)
  : Exec (Result unit UserElfError.t) :=
  if decide (UserLoadSegment.memory_size segment = 0
             \/ UserLoadSegment.memory_size segment < UserLoadSegment.file_size segment
             \/ is_multiple_of (UserLoadSegment.virtual_address segment) PAGE_SIZE = false
             \/ is_multiple_of (UserLoadSegment.file_offset segment) PAGE_SIZE = false)
  then Ret (Err UserElfError.InvalidSegment)
  else if decide (N.land (UserLoadSegment.flags segment) (N.lor PF_W PF_X) = N.lor PF_W PF_X)
  then Ret (Err UserElfError.WritableExecutable)
  else
    let* file_end := Ret (ok_or (u64_checked_add (UserLoadSegment.file_offset segment)
                                   (UserLoadSegment.file_size segment))
                            UserElfError.InvalidSegment) in
    if decide (len bytes < file_end) then Ret (Err UserElfError.InvalidSegment)
    else
      let* memory_end := Ret (ok_or (u64_checked_add (UserLoadSegment.virtual_address segment)
                                       (UserLoadSegment.memory_size segment))
                                UserElfError.SegmentOutOfRange) in
      if decide (UserLoadSegment.virtual_address segment < USER_IMAGE_BASE
                 \/ USER_IMAGE_LIMIT < memory_end)
      then Ret (Err UserElfError.SegmentOutOfRange)
      else
        let! existing := slice_to (UserLoadPlan.segments plan) (UserLoadPlan.segment_count plan) in
        check_overlaps segment memory_end existing.

Definition validate_tls_segment (bytes : list N) (tls : UserTlsSegment.t)
  : Exec (Result unit UserElfError.t) :=
  let alignment := N.max (UserTlsSegment.alignment tls) 1 in
  if decide (UserTlsSegment.memory_size tls = 0
             \/ UserTlsSegment.memory_size tls < UserTlsSegment.file_size tls
             \/ PAGE_SIZE < UserTlsSegment.alignment tls
             \/ is_power_of_two alignment = false
             \/ UserTlsSegment.virtual_address tls mod alignment
                <> UserTlsSegment.file_offset tls mod alignment)
  then Ret (Err UserElfError.InvalidTlsSegment)
  else
    let* memory_end := Ret (ok_or (u64_checked_add (UserTlsSegment.virtual_address tls)
                                     (UserTlsSegment.memory_size tls))
                              UserElfError.TlsSegmentOutOfRange) in
    if decide (UserTlsSegment.virtual_address tls < USER_IMAGE_BASE \/ USER_IMAGE_LIMIT < memory_end)
    then Ret (Err UserElfError.TlsSegmentOutOfRange)
    else
      let* file_end := Ret (ok_or (u64_checked_add (UserTlsSegment.file_offset tls)
                                     (UserTlsSegment.file_size tls))
                              UserElfError.TlsSegmentOutOfRange) in
      if decide (len bytes < file_end) then Ret (Err UserElfError.TlsSegmentOutOfRange)
      else
        let* padded_size := Ret (ok_or (u64_checked_add (UserTlsSegment.memory_size tls)
                                          (alignment - 1))
                                   UserElfError.TlsSegmentTooLarge) in
        if decide (PAGE_SIZE < N.ldiff padded_size (alignment - 1))
        then Ret (Err UserElfError.TlsSegmentTooLarge)
        else Ret (Ok tt).

(** The closure of [any] in [validate_tls_load_coverage]; the two subtractions
    come after the comparisons that keep them from going below zero. *)
Definition covers (tls : UserTlsSegment.t) (tls_memory_end tls_file_end : N)
  (load : UserLoadSegment.t) : Prop :=
  match u64_checked_add (UserLoadSegment.virtual_address load)
          (UserLoadSegment.memory_size load) with
  | None => False
  | Some load_memory_end =>
      if decide (UserTlsSegment.virtual_address tls < UserLoadSegment.virtual_address load
                 \/ load_memory_end < tls_memory_end)
      then False
      else if decide (UserTlsSegment.file_size tls = 0) then True
      else
        match u64_checked_add (UserLoadSegment.file_offset load)
                (UserLoadSegment.file_size load) with
        | None => False
        | Some load_file_end =>
            UserLoadSegment.file_offset load <= UserTlsSegment.file_offset tls
            /\ tls_file_end <= load_file_end
            /\ UserTlsSegment.virtual_address tls - UserLoadSegment.virtual_address load
               = UserTlsSegment.file_offset tls - UserLoadSegment.file_offset load
        end
  end.

#[global] Instance covers_dec tls m f load : Decision (covers tls m f load).
Proof. unfold covers. repeat case_match; apply _. Defined.

Definition validate_tls_load_coverage (plan : UserLoadPlan.t) (tls : UserTlsSegment.t)
  : Exec (Result unit UserElfError.t) :=
  let* tls_memory_end := Ret (ok_or (u64_checked_add (UserTlsSegment.virtual_address tls)
                                       (UserTlsSegment.memory_size tls))
                                UserElfError.TlsSegmentOutOfRange) in
  let* tls_file_end := Ret (ok_or (u64_checked_add (UserTlsSegment.file_offset tls)
                                     (UserTlsSegment.file_size tls))
                              UserElfError.TlsSegmentOutOfRange) in
  let! loads := slice_to (UserLoadPlan.segments plan) (UserLoadPlan.segment_count plan) in
  if decide (Exists (covers tls tls_memory_end tls_file_end) loads)
  then Ret (Ok tt)
  else Ret (Err UserElfError.TlsSegmentOutOfRange).

(** ** Parsing *)

(** The first pass over the program headers, which counts. *)
Fixpoint count_headers (bytes : list N) (ph_offset : N) (indices : list nat)
  (load_count tls_count : nat) : Exec (Result unit UserElfError.t) :=
  match indices with
  | [] => Ret (Ok tt)
  | index :: indices =>
      let! offset := u64_add ph_offset (N.of_nat index * PROGRAM_HEADER_SIZE) in
      let* kind := read_u32 bytes offset in
      if decide (kind = PT_LOAD) then
        if decide (MAX_LOAD_SEGMENTS < S load_count)%nat
        then Ret (Err UserElfError.TooManyLoadSegments)
        else count_headers bytes ph_offset indices (S load_count) tls_count
      else if decide (kind = PT_TLS) then
        if decide (1 < S tls_count)%nat
        then Ret (Err UserElfError.DuplicateTlsSegment)
        else count_headers bytes ph_offset indices load_count (S tls_count)
      else count_headers bytes ph_offset indices load_count tls_count
  end.

(** The body of the second pass for a header of each kind. *)
Definition add_load (bytes : list N) (offset : N) (plan : UserLoadPlan.t)
  : Exec (Result UserLoadPlan.t UserElfError.t) :=
  let* flags := read_u32 bytes (offset + 4) in
  let* file_offset := read_u64 bytes (offset + 8) in
  let* virtual_address := read_u64 bytes (offset + 16) in
  let* file_size := read_u64 bytes (offset + 32) in
  let* memory_size := read_u64 bytes (offset + 40) in
  let segment := UserLoadSegment.mk file_offset virtual_address file_size memory_size flags in
  let* _ := validate_segment bytes plan segment in
  let! segments := store (UserLoadPlan.segments plan) (UserLoadPlan.segment_count plan) segment in
  Ret (Ok (UserLoadPlan.mk (UserLoadPlan.entry plan) segments (S (UserLoadPlan.segment_count plan))
             (UserLoadPlan.tls plan))).

Definition add_tls (bytes : list N) (offset : N) (plan : UserLoadPlan.t)
  : Exec (Result UserLoadPlan.t UserElfError.t) :=
  let* file_offset := read_u64 bytes (offset + 8) in
  let* virtual_address := read_u64 bytes (offset + 16) in
  let* file_size := read_u64 bytes (offset + 32) in
  let* memory_size := read_u64 bytes (offset + 40) in
  let* alignment := read_u64 bytes (offset + 48) in
  let tls := UserTlsSegment.mk file_offset virtual_address file_size memory_size alignment in
  if decide (file_size = 0 /\ memory_size = 0) then Ret (Ok plan)
  else
    let* _ := validate_tls_segment bytes tls in
    Ret (Ok (UserLoadPlan.mk (UserLoadPlan.entry plan) (UserLoadPlan.segments plan)
               (UserLoadPlan.segment_count plan) (Some tls))).

Fixpoint load_headers (bytes : list N) (ph_offset : N) (indices : list nat) (plan : UserLoadPlan.t)
  : Exec (Result UserLoadPlan.t UserElfError.t) :=
  match indices with
  | [] => Ret (Ok plan)
  | index :: indices =>
      let! offset := u64_add ph_offset (N.of_nat index * PROGRAM_HEADER_SIZE) in
      let* kind := read_u32 bytes offset in
      let* plan := (if decide (kind = PT_LOAD) then add_load bytes offset plan
                    else if decide (kind = PT_TLS) then add_tls bytes offset plan
                    else Ret (Ok plan)) in
      load_headers bytes ph_offset indices plan
  end.

(** The closure of [any] that looks for the entry point. *)
Definition executable_at (entry : N) (segment : UserLoadSegment.t) : Prop :=
  match u64_checked_add (UserLoadSegment.virtual_address segment)
          (UserLoadSegment.file_size segment) with
  | None => False
  | Some file_end => N.land (UserLoadSegment.flags segment) PF_X <> 0
      /\ UserLoadSegment.virtual_address segment <= entry /\ entry < file_end
  end.

#[global] Instance executable_at_dec entry segment : Decision (executable_at entry segment).
Proof. unfold executable_at. case_match; apply _. Defined.

(** The checks on the 64 bytes of the ELF header, in the code's order. *)
Definition check_header (bytes : list N) : Exec (Result unit UserElfError.t) :=
  if decide (len bytes < ELF_HEADER_SIZE) then Ret (Err UserElfError.Truncated)
  else if decide (sub_bytes bytes 0 4 <> [0x7f; 0x45; 0x4c; 0x46])
  then Ret (Err UserElfError.BadMagic)
  else
    let! class := index bytes 4 in
    if decide (class <> 2) then Ret (Err UserElfError.UnsupportedClass)
    else
      let! encoding := index bytes 5 in
      if decide (encoding <> 1) then Ret (Err UserElfError.UnsupportedEncoding)
      else
        let! version := index bytes 6 in
        if decide (version <> 1) then Ret (Err UserElfError.UnsupportedVersion)
        else
          let* elf_version := read_u32 bytes 20 in
          if decide (elf_version <> 1) then Ret (Err UserElfError.UnsupportedVersion)
          else
            let* kind := read_u16 bytes 16 in
            if decide (kind <> 2) then Ret (Err UserElfError.UnsupportedType)
            else
              let* machine := read_u16 bytes 18 in
              if decide (machine <> 62) then Ret (Err UserElfError.UnsupportedMachine)
              else
                let* header_size := read_u16 bytes 52 in
                if decide (header_size <> ELF_HEADER_SIZE)
                then Ret (Err UserElfError.InvalidProgramHeaders)
                else
                  let* entry_size := read_u16 bytes 54 in
                  if decide (entry_size <> PROGRAM_HEADER_SIZE)
                  then Ret (Err UserElfError.InvalidProgramHeaders)
                  else Ret (Ok tt).

(** The checks on a finished plan. *)
Definition finish (entry : N) (plan : UserLoadPlan.t) : Exec (Result UserLoadPlan.t UserElfError.t) :=
  if decide (UserLoadPlan.segment_count plan = 0%nat)
  then Ret (Err UserElfError.NoLoadSegments)
  else
    let! loads := slice_to (UserLoadPlan.segments plan) (UserLoadPlan.segment_count plan) in
    if decide (~ Exists (executable_at entry) loads)
    then Ret (Err UserElfError.EntryNotExecutable)
    else
      match UserLoadPlan.tls plan with
      | None => Ret (Ok plan)
      | Some tls => let* _ := validate_tls_load_coverage plan tls in Ret (Ok plan)
      end.

Definition parse (bytes : list N) : Exec (Result UserLoadPlan.t UserElfError.t) :=
  let* _ := check_header bytes in
  let* entry := read_u64 bytes 24 in
  let* ph_offset := read_u64 bytes 32 in
  let* ph_count := read_u16 bytes 56 in
  let* ph_bytes := Ret (ok_or (u64_checked_mul ph_count PROGRAM_HEADER_SIZE)
                          UserElfError.InvalidProgramHeaders) in
  let* ph_end := Ret (ok_or (u64_checked_add ph_offset ph_bytes)
                        UserElfError.InvalidProgramHeaders) in
  if decide (ph_count = 0 \/ len bytes < ph_end)
  then Ret (Err UserElfError.InvalidProgramHeaders)
  else
    let indices := seq 0 (N.to_nat ph_count) in
    let* _ := count_headers bytes ph_offset indices 0 0 in
    let* plan := load_headers bytes ph_offset indices
                   (UserLoadPlan.mk entry (replicate MAX_LOAD_SEGMENTS UserLoadSegment.default)
                      0 None) in
    finish entry plan.

(** ** Which images are accepted *)

(** The [n]-byte little-endian word at [offset]. *)
Definition word (n : nat) (bytes : list N) (offset : N) : N :=
  from_le_bytes (sub_bytes bytes (N.to_nat offset) n).

(** The offset of a program header, and what it says. *)
Definition header_offset (bytes : list N) (index : nat) : N :=
  word 8 bytes 32 + N.of_nat index * PROGRAM_HEADER_SIZE.

Definition load_at (bytes : list N) (offset : N) : UserLoadSegment.t :=
  UserLoadSegment.mk (word 8 bytes (offset + 8)) (word 8 bytes (offset + 16))
    (word 8 bytes (offset + 32)) (word 8 bytes (offset + 40)) (word 4 bytes (offset + 4)).

Definition tls_at (bytes : list N) (offset : N) : UserTlsSegment.t :=
  UserTlsSegment.mk (word 8 bytes (offset + 8)) (word 8 bytes (offset + 16))
    (word 8 bytes (offset + 32)) (word 8 bytes (offset + 40)) (word 8 bytes (offset + 48)).

(** The loadable segments and the thread-local templates of some headers. *)
Definition loads (bytes : list N) (offsets : list N) : list UserLoadSegment.t :=
  load_at bytes <$> filter (fun o => word 4 bytes o = PT_LOAD) offsets.

Definition templates (bytes : list N) (offsets : list N) : list UserTlsSegment.t :=
  filter (fun tls => ~ (UserTlsSegment.file_size tls = 0 /\ UserTlsSegment.memory_size tls = 0))
    (tls_at bytes <$> filter (fun o => word 4 bytes o = PT_TLS) offsets).

(** A segment's bytes are in the file, its pages in the user image, and it is
    not both writable and executable. *)
Record segment_ok (bytes : list N) (s : UserLoadSegment.t) : Prop := {
  segment_memory : 0 < UserLoadSegment.memory_size s;
  segment_file : UserLoadSegment.file_size s <= UserLoadSegment.memory_size s;
  segment_aligned : (PAGE_SIZE | UserLoadSegment.virtual_address s)
                    /\ (PAGE_SIZE | UserLoadSegment.file_offset s);
  segment_w_xor_x : ~ (N.testbit (UserLoadSegment.flags s) 0 = true
                       /\ N.testbit (UserLoadSegment.flags s) 1 = true);
  segment_in_file : UserLoadSegment.file_offset s + UserLoadSegment.file_size s <= len bytes;
  segment_in_image : USER_IMAGE_BASE <= UserLoadSegment.virtual_address s
    /\ UserLoadSegment.virtual_address s + UserLoadSegment.memory_size s <= USER_IMAGE_LIMIT
}.

(** Two segments share no address. *)
Definition apart (s1 s2 : UserLoadSegment.t) : Prop :=
  UserLoadSegment.virtual_address s1 + UserLoadSegment.memory_size s1
    <= UserLoadSegment.virtual_address s2
  \/ UserLoadSegment.virtual_address s2 + UserLoadSegment.memory_size s2
    <= UserLoadSegment.virtual_address s1.

(** A thread-local template fits in a page, at an alignment that the file and
    the memory agree on. *)
Record tls_ok (bytes : list N) (s : UserTlsSegment.t) : Prop := {
  tls_memory : 0 < UserTlsSegment.memory_size s;
  tls_file : UserTlsSegment.file_size s <= UserTlsSegment.memory_size s;
  tls_aligned : exists k, N.max (UserTlsSegment.alignment s) 1 = 2 ^ k /\ 2 ^ k <= PAGE_SIZE
    /\ UserTlsSegment.virtual_address s mod 2 ^ k = UserTlsSegment.file_offset s mod 2 ^ k;
  tls_in_image : USER_IMAGE_BASE <= UserTlsSegment.virtual_address s
    /\ UserTlsSegment.virtual_address s + UserTlsSegment.memory_size s <= USER_IMAGE_LIMIT;
  tls_in_file : UserTlsSegment.file_offset s + UserTlsSegment.file_size s <= len bytes;
  tls_in_page : UserTlsSegment.memory_size s <= PAGE_SIZE
}.

(** A segment that contains a template, at the same distance in file and memory. *)
Definition contains (tls : UserTlsSegment.t) (s : UserLoadSegment.t) : Prop :=
  UserLoadSegment.virtual_address s <= UserTlsSegment.virtual_address tls
  /\ UserTlsSegment.virtual_address tls + UserTlsSegment.memory_size tls
     <= UserLoadSegment.virtual_address s + UserLoadSegment.memory_size s
  /\ (UserTlsSegment.file_size tls <> 0 ->
      UserLoadSegment.file_offset s <= UserTlsSegment.file_offset tls
      /\ UserTlsSegment.file_offset tls + UserTlsSegment.file_size tls
         <= UserLoadSegment.file_offset s + UserLoadSegment.file_size s
      /\ UserTlsSegment.virtual_address tls + UserLoadSegment.file_offset s
         = UserTlsSegment.file_offset tls + UserLoadSegment.virtual_address s).

(** The image has the header of a little-endian 64-bit x86 executable, and its
    program headers are in the file. *)
Record header_ok (bytes : list N) : Prop := {
  header_length : ELF_HEADER_SIZE <= len bytes;
  header_magic : sub_bytes bytes 0 7 = [0x7f; 0x45; 0x4c; 0x46; 2; 1; 1];
  header_version : word 4 bytes 20 = 1;
  header_type : word 2 bytes 16 = 2;
  header_machine : word 2 bytes 18 = 62;
  header_sizes : word 2 bytes 52 = ELF_HEADER_SIZE /\ word 2 bytes 54 = PROGRAM_HEADER_SIZE;
  header_table : word 2 bytes 56 <> 0
    /\ word 8 bytes 32 + word 2 bytes 56 * PROGRAM_HEADER_SIZE <= len bytes
}.

Definition header_offsets (bytes : list N) : list N :=
  header_offset bytes <$> seq 0 (N.to_nat (word 2 bytes 56)).

(** An array of [MAX_LOAD_SEGMENTS] segments that starts with [ss]. *)
Definition segment_array (ss : list UserLoadSegment.t) : list UserLoadSegment.t :=
  ss ++ replicate (MAX_LOAD_SEGMENTS - length ss) UserLoadSegment.default.

Record accepts (bytes : list N) (plan : UserLoadPlan.t) : Prop := {
  accepts_header : header_ok bytes;
  accepts_count : (0 < length (loads bytes (header_offsets bytes)) <= MAX_LOAD_SEGMENTS)%nat;
  accepts_tls_count : (count_of (fun o => word 4 bytes o = PT_TLS) (header_offsets bytes) <= 1)%nat;
  accepts_plan : plan = UserLoadPlan.mk (word 8 bytes 24)
    (segment_array (loads bytes (header_offsets bytes)))
    (length (loads bytes (header_offsets bytes))) (head (templates bytes (header_offsets bytes)));
  accepts_segments : Forall (segment_ok bytes) (loads bytes (header_offsets bytes));
  accepts_apart : forall i j s1 s2, (i < j)%nat ->
    loads bytes (header_offsets bytes) !! i = Some s1 ->
    loads bytes (header_offsets bytes) !! j = Some s2 -> apart s1 s2;
  accepts_entry : exists s, s ∈ loads bytes (header_offsets bytes)
    /\ N.testbit (UserLoadSegment.flags s) 0 = true
    /\ UserLoadSegment.virtual_address s <= word 8 bytes 24
       < UserLoadSegment.virtual_address s + UserLoadSegment.file_size s;
  accepts_tls : forall tls, head (templates bytes (header_offsets bytes)) = Some tls ->
    tls_ok bytes tls /\ exists s, s ∈ loads bytes (header_offsets bytes) /\ contains tls s
}.

(** ** Reading *)

Section reading.
Implicit Types (bytes : list N) (offset : N).

Lemma read_Ok n bytes offset x :
  len bytes <= ISIZE_MAX ->
  read n bytes offset = Ret (Ok x) <-> offset + N.of_nat n <= len bytes /\ x = word n bytes offset.
Proof.
  intros Hl. unfold read, u64_add, word. case_decide as H1; [case_decide as H2|]; [naive_solver|naive_solver|].
  unfold ISIZE_MAX, U64_MAX in *. split; [done|]. intros [? _]. lia.
Qed.

Lemma read_word n bytes offset :
  len bytes <= ISIZE_MAX -> offset + N.of_nat n <= len bytes ->
  read n bytes offset = Ret (Ok (word n bytes offset)).
Proof. intros Hl Ho. by apply read_Ok. Qed.

Lemma multiple_divides_page a : is_multiple_of a PAGE_SIZE <> false <-> (PAGE_SIZE | a).
Proof.
  unfold is_multiple_of. rewrite decide_False by done.
  rewrite not_false_iff_true, bool_decide_eq_true. apply N.Lcm0.mod_divide.
Qed.

Lemma both_bits a : N.land a (N.lor PF_W PF_X) = N.lor PF_W PF_X <->
  N.testbit a 0 = true /\ N.testbit a 1 = true.
Proof.
  change (N.lor PF_W PF_X) with 3. fold (bits_subset 3 a). rewrite bits_subset_spec. split.
  - intros H. split; by apply H.
  - intros [H0 H1] i. destruct (decide (i = 0)) as [->|]; [done|].
    destruct (decide (i = 1)) as [->|]; [done|].
    rewrite N.bits_above_log2; [done|]. change (N.log2 3) with 1. lia.
Qed.

Lemma low_bit a : N.land a PF_X <> 0 <-> N.testbit a 0 = true.
Proof.
  change PF_X with (N.ones 1). rewrite N.land_ones. change (2 ^ 1) with 2.
  rewrite N.bit0_odd, <-N.bit0_mod, N.bit0_odd. destruct (N.odd a); simpl; done.
Qed.

Lemma checked_add_Ok {E} a b (e : E) x :
  Ret (ok_or (u64_checked_add a b) e) = Ret (Ok x) <-> a + b <= U64_MAX /\ x = a + b.
Proof. unfold u64_checked_add, ok_or. case_decide; naive_solver. Qed.

Lemma checked_mul_Ok {E} a b (e : E) x :
  Ret (ok_or (u64_checked_mul a b) e) = Ret (Ok x) <-> a * b <= U64_MAX /\ x = a * b.
Proof. unfold u64_checked_mul, ok_or. case_decide; naive_solver. Qed.
End reading.

(** ** Validation *)

Section validation.
Implicit Types (bytes : list N) (s : UserLoadSegment.t) (plan : UserLoadPlan.t).

(** The loop over the segments of the plan, all of them below the limit. *)
Lemma check_overlaps_spec bytes s existing :
  Forall (segment_ok bytes) existing ->
  check_overlaps s (UserLoadSegment.virtual_address s + UserLoadSegment.memory_size s) existing
    <> Panic
  /\ (check_overlaps s (UserLoadSegment.virtual_address s + UserLoadSegment.memory_size s) existing
       = Ret (Ok tt) <-> Forall (fun e => apart e s) existing).
Proof.
  induction 1 as [|e existing He _ [IH1 IH2]]; [done|]. cbn [check_overlaps].
  destruct (segment_in_image _ _ He) as [_ Hlim].
  unfold u64_add. rewrite decide_True.
  2: { unfold USER_IMAGE_LIMIT, USER_IMAGE_BASE, U64_MAX in *. lia. }
  split; [by apply guard_returns|]. rewrite guard_Ok, IH2, Forall_cons. unfold apart.
  assert (forall a b c d : N, ~ (a < b /\ c < d) <-> b <= a \/ d <= c) as -> by lia. done.
Qed.

(** The first segments of a plan's array. *)
Lemma segment_array_slice ss :
  (length ss <= MAX_LOAD_SEGMENTS)%nat -> slice_to (segment_array ss) (length ss) = Ret ss.
Proof.
  intros Hl. unfold segment_array. rewrite slice_to_Ret.
  - by rewrite take_app_length.
  - rewrite length_app. lia.
Qed.

Lemma validate_segment_spec bytes entry ss tls s :
  len bytes <= ISIZE_MAX -> (length ss <= MAX_LOAD_SEGMENTS)%nat -> Forall (segment_ok bytes) ss ->
  let plan := UserLoadPlan.mk entry (segment_array ss) (length ss) tls in
  validate_segment bytes plan s <> Panic
  /\ (validate_segment bytes plan s = Ret (Ok tt) <->
      segment_ok bytes s /\ Forall (fun e => apart e s) ss).
Proof.
  intros Hl Hss Hok plan. unfold validate_segment. cbn [UserLoadPlan.segments UserLoadPlan.segment_count plan].
  rewrite segment_array_slice by done.
  destruct (check_overlaps_spec bytes s ss Hok) as [Ho1 Ho2]. split.
  - repeat first [apply guard_returns; intros _|apply try_returns; [done|intros ? [_ ->]%checked_add_Ok]].
    done.
  - rewrite !guard_Ok, try_Ok. setoid_rewrite checked_add_Ok. setoid_rewrite guard_Ok.
    setoid_rewrite try_Ok. setoid_rewrite checked_add_Ok. setoid_rewrite guard_Ok.
    rewrite !not_or_and, !multiple_divides_page, both_bits. unfold USER_IMAGE_LIMIT, USER_IMAGE_BASE, U64_MAX, ISIZE_MAX in *.
    split.
    + intros ((Hm&Hf&Ha1&Ha2)&Hwx&?&[? ->]&?&?&[? ->]&Hr&Hov%Ho2).
      split; [|done]. split; unfold USER_IMAGE_LIMIT, USER_IMAGE_BASE; (done || lia).
    + intros [[Hm Hf [Ha1 Ha2] Hwx Hfile [Hlo Hhi]] Hov%Ho2].
      unfold USER_IMAGE_LIMIT, USER_IMAGE_BASE in *.
      split_and!; [lia|lia|done|done|done|]. eexists. split; [split; [lia|done]|].
      split; [lia|]. eexists. split; [split; [lia|done]|]. split; [lia|done].
Qed.

Lemma power_of_two_iff a : is_power_of_two a <> false <-> exists k, a = 2 ^ k.
Proof.
  rewrite not_false_iff_true. split; [intros H; eexists; by apply power_of_two_log|].
  intros [k ->]. unfold is_power_of_two. rewrite N.log2_pow2 by lia.
  rewrite !bool_decide_true; [done..|]. by apply N.pow_nonzero.
Qed.

(** Rounding up to a power of two that divides the page size. *)
Lemma rounded_in_page ms k :
  2 ^ k <= PAGE_SIZE -> N.ldiff (ms + (2 ^ k - 1)) (2 ^ k - 1) <= PAGE_SIZE <-> ms <= PAGE_SIZE.
Proof.
  intros Hk. assert (Hp : 2 ^ k <> 0) by (by apply N.pow_nonzero).
  assert (Hk12 : k <= 12).
  { apply N.nlt_ge. intros Hlt. apply (N.pow_lt_mono_r 2) in Hlt; [|done].
    change (2 ^ 12) with PAGE_SIZE in Hlt. lia. }
  replace (2 ^ k - 1) with (N.ones k) at 2 by (rewrite N.ones_equiv; lia).
  rewrite N.ldiff_ones_r, N.shiftr_div_pow2, N.shiftl_mul_pow2.
  assert (Hpage : PAGE_SIZE = 2 ^ (12 - k) * 2 ^ k).
  { rewrite <-N.pow_add_r. replace (12 - k + k) with 12 by lia. done. }
  rewrite Hpage. generalize (2 ^ (12 - k)). clear Hpage Hk. intros q.
  rewrite <-N.mul_le_mono_pos_r by lia. split; intros H.
  - assert (ms + (2 ^ k - 1) < 2 ^ k * N.succ q); [|lia].
    apply N.nle_gt. intros Hle. apply N.div_le_lower_bound in Hle; lia.
  - apply N.lt_succ_r, N.Div0.div_lt_upper_bound. lia.
Qed.

Lemma validate_tls_segment_spec bytes tls :
  len bytes <= ISIZE_MAX ->
  validate_tls_segment bytes tls <> Panic
  /\ (validate_tls_segment bytes tls = Ret (Ok tt) <-> tls_ok bytes tls).
Proof.
  intros Hl. unfold validate_tls_segment. split.
  - repeat first [apply guard_returns; intros _|apply try_returns; [done|intros ? _]]. done.
  - rewrite !guard_Ok, try_Ok. setoid_rewrite checked_add_Ok. setoid_rewrite guard_Ok.
    setoid_rewrite try_Ok. setoid_rewrite checked_add_Ok. setoid_rewrite guard_Ok.
    setoid_rewrite try_Ok. setoid_rewrite checked_add_Ok. setoid_rewrite guard_Ok.
    rewrite !not_or_and, power_of_two_iff.
    unfold USER_IMAGE_LIMIT, USER_IMAGE_BASE, U64_MAX, ISIZE_MAX in *. split.
    + intros ((Hm&Hf&Ha&(k&Hk)&Hmod%dec_stable)&?&[? ->]&Hr&?&[? ->]&Hfile&?&[? ->]&Hsize&_).
      rewrite Hk in *. assert (2 ^ k <= PAGE_SIZE) by (rewrite <-Hk; unfold PAGE_SIZE in *; lia).
      apply N.nlt_ge in Hsize. rewrite rounded_in_page in Hsize by done.
      split; unfold USER_IMAGE_LIMIT, USER_IMAGE_BASE; [lia|lia|by exists k|lia|lia|done].
    + intros [Hm Hf (k&Hk&Hpage&Hmod) [Hlo Hhi] Hfile Hsize].
      unfold USER_IMAGE_LIMIT, USER_IMAGE_BASE in *. rewrite Hk.
      split; [split_and!; [lia|lia|lia|by exists k|by intros H; apply H]|].
      eexists. split; [split; [lia|done]|]. split; [lia|].
      eexists. split; [split; [lia|done]|]. split; [lia|].
      eexists. split; [split; [unfold PAGE_SIZE in *; lia|done]|].
      split; [|done]. apply N.nlt_ge. by apply rounded_in_page.
Qed.

Lemma covers_contains bytes tls s :
  len bytes <= ISIZE_MAX -> tls_ok bytes tls -> segment_ok bytes s ->
  covers tls (UserTlsSegment.virtual_address tls + UserTlsSegment.memory_size tls)
    (UserTlsSegment.file_offset tls + UserTlsSegment.file_size tls) s <-> contains tls s.
Proof.
  intros Hl [_ _ _ [Htlo Hthi] Htf _] [_ _ _ _ Hsf [Hslo Hshi]].
  unfold covers, contains, u64_checked_add.
  unfold USER_IMAGE_LIMIT, USER_IMAGE_BASE, U64_MAX, ISIZE_MAX in *.
  rewrite !decide_True by lia. destruct (decide (_ \/ _)) as [Hd|Hd]; [split; [done|lia]|].
  case_decide as Hz; [split; [|done]; intros _; split_and!; [lia|lia|done]|].
  rewrite decide_True by lia. split; [intros (?&?&?); split_and!; [lia|lia|intros _; lia]|].
  intros (?&?&H). specialize (H Hz). lia.
Qed.

Lemma validate_coverage_spec bytes entry ss tls0 tls :
  len bytes <= ISIZE_MAX -> (length ss <= MAX_LOAD_SEGMENTS)%nat -> Forall (segment_ok bytes) ss ->
  tls_ok bytes tls ->
  let plan := UserLoadPlan.mk entry (segment_array ss) (length ss) tls0 in
  validate_tls_load_coverage plan tls <> Panic
  /\ (validate_tls_load_coverage plan tls = Ret (Ok tt) <-> exists s, s ∈ ss /\ contains tls s).
Proof.
  intros Hl Hss Hok Htls plan. unfold validate_tls_load_coverage. cbn [UserLoadPlan.segments UserLoadPlan.segment_count plan].
  rewrite segment_array_slice by done. split.
  - repeat (apply try_returns; [done|intros ? _]). by case_decide.
  - rewrite try_Ok. setoid_rewrite checked_add_Ok. setoid_rewrite try_Ok.
    setoid_rewrite checked_add_Ok.
    assert (Hcov : forall s, s ∈ ss -> covers tls
        (UserTlsSegment.virtual_address tls + UserTlsSegment.memory_size tls)
        (UserTlsSegment.file_offset tls + UserTlsSegment.file_size tls) s <-> contains tls s).
    { intros s Hs. eapply covers_contains; [done|done|]. by apply (proj1 (Forall_forall _ _) Hok). }
    destruct Htls as [_ _ _ [Hlo Hhi] Hfile _].
    unfold USER_IMAGE_LIMIT, USER_IMAGE_BASE, U64_MAX, ISIZE_MAX in *. split.
    + intros (?&[_ ->]&?&[_ ->]&H). case_decide as He; [|done].
      apply Exists_exists in He as (s&Hs&Hc). exists s. split; [done|]. by apply Hcov.
    + intros (s&Hs&Hc). eexists. split; [split; [lia|done]|]. eexists. split; [split; [lia|done]|].
      rewrite decide_True; [done|]. apply Exists_exists. exists s. split; [done|]. by apply Hcov.
Qed.
End validation.

(** ** The two passes *)

Section passes.
Context (bytes : list N) (Hlen : len bytes <= ISIZE_MAX).

(** A program header that lies in the file. *)
Definition in_file (offset : N) : Prop := offset + PROGRAM_HEADER_SIZE <= len bytes.

Definition is_load (offset : N) : Prop := word 4 bytes offset = PT_LOAD.
Definition is_tls (offset : N) : Prop := word 4 bytes offset = PT_TLS.

Context (ph_offset : N).
Implicit Types (indices : list nat).

Definition offsets (indices : list nat) : list N :=
  (fun index => ph_offset + N.of_nat index * PROGRAM_HEADER_SIZE) <$> indices.

Lemma in_file_read n k offset :
  in_file offset -> k + N.of_nat n <= PROGRAM_HEADER_SIZE ->
  read n bytes (offset + k) = Ret (Ok (word n bytes (offset + k))).
Proof. unfold in_file. intros. apply read_word; [done|lia]. Qed.

Lemma in_file_kind offset :
  in_file offset -> read_u32 bytes offset = Ret (Ok (word 4 bytes offset)).
Proof. unfold in_file, PROGRAM_HEADER_SIZE. intros. apply read_word; [done|lia]. Qed.

Lemma in_file_offset a b : in_file (a + b) -> u64_add a b = Ret (a + b).
Proof.
  unfold in_file, u64_add, ISIZE_MAX, U64_MAX in *. intros. rewrite decide_True by lia. done.
Qed.

Lemma count_headers_spec indices : forall nl nt,
  Forall in_file (offsets indices) ->
  count_headers bytes ph_offset indices nl nt <> Panic
  /\ ((nl <= MAX_LOAD_SEGMENTS)%nat -> (nt <= 1)%nat ->
      count_headers bytes ph_offset indices nl nt = Ret (Ok tt) <->
      (nl + count_of is_load (offsets indices) <= MAX_LOAD_SEGMENTS)%nat
      /\ (nt + count_of is_tls (offsets indices) <= 1)%nat).
Proof.
  induction indices as [|i indices IH]; intros nl nt Hall.
  { split; [done|]. intros. change (offsets []) with (@nil N). rewrite !count_of_nil. naive_solver lia. }
  change (offsets (i :: indices))
    with ((ph_offset + N.of_nat i * PROGRAM_HEADER_SIZE) :: offsets indices) in *.
  apply Forall_cons in Hall as [Hi Hall]. cbn [count_headers].
  rewrite in_file_offset, in_file_kind by done. cbn [try]. rewrite !count_of_cons.
  set (o := ph_offset + _) in *. unfold is_load at 1, is_tls at 1.
  destruct (decide (word 4 bytes o = PT_LOAD)) as [Hl|Hl].
  - rewrite (decide_False (P := word 4 bytes o = PT_TLS)) by (rewrite Hl; done).
    destruct (IH (S nl) nt Hall) as [IH1 IH2]. split; [by apply guard_returns|]. intros.
    rewrite guard_Ok. destruct (decide (MAX_LOAD_SEGMENTS < S nl)%nat); [lia|].
    rewrite IH2 by lia. lia.
  - destruct (decide (word 4 bytes o = PT_TLS)) as [Ht|Ht].
    + destruct (IH nl (S nt) Hall) as [IH1 IH2]. split; [by apply guard_returns|]. intros.
      rewrite guard_Ok. destruct (decide (1 < S nt)%nat); [lia|]. rewrite IH2 by lia. lia.
    + destruct (IH nl nt Hall) as [IH1 IH2]. split; [done|]. intros. rewrite IH2 by lia. lia.
Qed.

(** The plan after the segments [ss] and the template [tls]. *)
Definition plan_of (entry : N) (ss : list UserLoadSegment.t) (tls : option UserTlsSegment.t)
  : UserLoadPlan.t := UserLoadPlan.mk entry (segment_array ss) (length ss) tls.

Lemma segment_array_store ss s :
  (length ss < MAX_LOAD_SEGMENTS)%nat ->
  store (segment_array ss) (length ss) s = Ret (segment_array (ss ++ [s])).
Proof.
  intros Hl. unfold segment_array. rewrite store_Ret by (rewrite length_app, length_replicate; lia).
  f_equal. rewrite insert_app_r_alt by done. rewrite Nat.sub_diag, length_app. cbn [length].
  replace (MAX_LOAD_SEGMENTS - length ss)%nat with (S (MAX_LOAD_SEGMENTS - (length ss + 1))) by lia.
  by rewrite <-(assoc_L (++)).
Qed.

Lemma add_load_spec entry ss tls offset :
  in_file offset -> (length ss < MAX_LOAD_SEGMENTS)%nat -> Forall (segment_ok bytes) ss ->
  add_load bytes offset (plan_of entry ss tls) <> Panic
  /\ forall plan, add_load bytes offset (plan_of entry ss tls) = Ret (Ok plan) <->
       segment_ok bytes (load_at bytes offset)
       /\ Forall (fun e => apart e (load_at bytes offset)) ss
       /\ plan = plan_of entry (ss ++ [load_at bytes offset]) tls.
Proof.
  intros Hin Hl Hok. unfold add_load, read_u32, read_u64.
  rewrite !in_file_read by (done || (unfold PROGRAM_HEADER_SIZE; lia)). cbn [try].
  fold (load_at bytes offset).
  destruct (validate_segment_spec bytes entry ss tls (load_at bytes offset) Hlen ltac:(lia) Hok)
    as [Hv1 Hv2]. fold (plan_of entry ss tls) in Hv1, Hv2.
  cbn [UserLoadPlan.segments UserLoadPlan.segment_count UserLoadPlan.entry UserLoadPlan.tls plan_of].
  rewrite segment_array_store by done.
  assert (Hplan : UserLoadPlan.mk entry (segment_array (ss ++ [load_at bytes offset]))
    (S (length ss)) tls = plan_of entry (ss ++ [load_at bytes offset]) tls).
  { unfold plan_of. rewrite length_app. cbn [length]. by rewrite Nat.add_1_r. }
  rewrite Hplan. split; [by apply try_returns|]. intros plan. rewrite try_Ok. split.
  - intros ([]&[? ?]%Hv2&[= ->]). done.
  - intros (?&?&->). exists tt. split; [by apply Hv2|done].
Qed.

Lemma add_tls_spec entry ss tls offset :
  in_file offset ->
  add_tls bytes offset (plan_of entry ss tls) <> Panic
  /\ forall plan, add_tls bytes offset (plan_of entry ss tls) = Ret (Ok plan) <->
       (if decide (UserTlsSegment.file_size (tls_at bytes offset) = 0
                   /\ UserTlsSegment.memory_size (tls_at bytes offset) = 0)
        then plan = plan_of entry ss tls
        else tls_ok bytes (tls_at bytes offset)
             /\ plan = plan_of entry ss (Some (tls_at bytes offset))).
Proof.
  intros Hin. unfold add_tls, read_u64.
  rewrite !in_file_read by (done || (unfold PROGRAM_HEADER_SIZE; lia)). cbn [try].
  fold (tls_at bytes offset).
  change (UserTlsSegment.file_size (tls_at bytes offset)) with (word 8 bytes (offset + 32)).
  change (UserTlsSegment.memory_size (tls_at bytes offset)) with (word 8 bytes (offset + 40)).
  case_decide; [split; [done|]; intros plan; split; [by intros [= <-]|by intros ->]|].
  destruct (validate_tls_segment_spec bytes (tls_at bytes offset) Hlen) as [Hv1 Hv2].
  split; [by apply try_returns|]. intros plan. rewrite try_Ok. split.
  - intros ([]&?%Hv2&Hp). injection Hp as <-. done.
  - intros (?&->). exists tt. split; [by apply Hv2|done].
Qed.

(** Each of [l] keeps clear of [pre] and of those before it. *)
Fixpoint clear_of (pre l : list UserLoadSegment.t) : Prop :=
  match l with
  | [] => True
  | s :: l => Forall (fun e => apart e s) pre /\ clear_of (pre ++ [s]) l
  end.

(** The template after some headers: the last one that is not empty. *)
Definition template_after (tls : option UserTlsSegment.t) (ts : list UserTlsSegment.t)
  : option UserTlsSegment.t := from_option Some tls (last ts).

Lemma templates_cons o os :
  templates bytes (o :: os) =
  (if decide (is_tls o /\ ~ (UserTlsSegment.file_size (tls_at bytes o) = 0
                             /\ UserTlsSegment.memory_size (tls_at bytes o) = 0))
   then [tls_at bytes o] else []) ++ templates bytes os.
Proof.
  unfold templates, is_tls. rewrite filter_cons. destruct (decide (word 4 bytes o = PT_TLS)) as [H|H].
  - rewrite fmap_cons, filter_cons. case_decide; [rewrite decide_True by done|rewrite decide_False by tauto]; done.
  - by rewrite decide_False by tauto.
Qed.

Lemma loads_cons o os :
  loads bytes (o :: os) = (if decide (is_load o) then [load_at bytes o] else []) ++ loads bytes os.
Proof. unfold loads, is_load. rewrite filter_cons. by case_decide. Qed.

Lemma loads_count os : length (loads bytes os) = count_of is_load os.
Proof. unfold loads. apply length_fmap. Qed.

Lemma template_after_cons tls t ts : template_after tls (t :: ts) = template_after (Some t) ts.
Proof. unfold template_after. rewrite last_cons. by destruct (last ts). Qed.

Lemma load_headers_spec indices : forall entry ss tls,
  Forall in_file (offsets indices) -> Forall (segment_ok bytes) ss ->
  (length ss + length (loads bytes (offsets indices)) <= MAX_LOAD_SEGMENTS)%nat ->
  load_headers bytes ph_offset indices (plan_of entry ss tls) <> Panic
  /\ forall plan, load_headers bytes ph_offset indices (plan_of entry ss tls) = Ret (Ok plan) <->
       Forall (segment_ok bytes) (loads bytes (offsets indices))
       /\ clear_of ss (loads bytes (offsets indices))
       /\ Forall (tls_ok bytes) (templates bytes (offsets indices))
       /\ plan = plan_of entry (ss ++ loads bytes (offsets indices))
                   (template_after tls (templates bytes (offsets indices))).
Proof.
  induction indices as [|i indices IH]; intros entry ss tls Hall Hok Hle.
  { split; [done|]. intros plan. cbn [load_headers offsets fmap list_fmap]. simpl. rewrite app_nil_r.
    split; [intros [= <-]; by split_and!|by intros (_&_&_&->)]. }
  change (offsets (i :: indices))
    with ((ph_offset + N.of_nat i * PROGRAM_HEADER_SIZE) :: offsets indices) in *.
  apply Forall_cons in Hall as [Hi Hall]. cbn [load_headers].
  rewrite in_file_offset, in_file_kind by done. cbn [try]. set (o := ph_offset + _) in *.
  rewrite loads_cons in *. rewrite templates_cons. fold (is_load o) (is_tls o).
  destruct (decide (is_load o)) as [Hl|Hl].
  - rewrite (decide_False (P := is_tls o /\ _)) by (unfold is_load, is_tls in *; rewrite Hl; by intros [? _]).
    cbn [app length clear_of] in *.
    destruct (add_load_spec entry ss tls o Hi ltac:(lia) Hok) as [Ha1 Ha2].
    split.
    + apply try_returns; [done|]. intros plan (?&?&->)%Ha2. apply IH; [done| |].
      * by apply Forall_app_2; [|apply Forall_singleton].
      * rewrite length_app. cbn [length]. lia.
    + intros plan. rewrite try_Ok, Forall_cons. split.
      * intros (p1&(Hs&Hap&->)%Ha2&Hrun). apply IH in Hrun as (?&?&?&->); [|done| |].
        -- rewrite <-(assoc_L (++)). by split_and!.
        -- by apply Forall_app_2; [|apply Forall_singleton].
        -- rewrite length_app. cbn [length]. lia.
      * intros ([Hs ?]&[Hap ?]&?&->). eexists. split; [by apply Ha2|].
        apply IH; [done| | |].
        -- by apply Forall_app_2; [|apply Forall_singleton].
        -- rewrite length_app. cbn [length]. lia.
        -- rewrite <-(assoc_L (++)). by split_and!.
  - cbn [app]. destruct (decide (is_tls o)) as [Ht|Ht].
    + destruct (add_tls_spec entry ss tls o Hi) as [Ha1 Ha2].
      destruct (decide (UserTlsSegment.file_size (tls_at bytes o) = 0
                        /\ UserTlsSegment.memory_size (tls_at bytes o) = 0)) as [Hz|Hz].
      * rewrite decide_False by tauto. cbn [app]. destruct (IH entry ss tls Hall Hok Hle) as [IH1 IH2].
        split; [by apply try_returns; [|intros plan ->%Ha2]|].
        intros plan. rewrite <-IH2, try_Ok. setoid_rewrite Ha2. naive_solver.
      * rewrite decide_True by done. cbn [app].
        destruct (IH entry ss (Some (tls_at bytes o)) Hall Hok Hle) as [IH1 IH2].
        split; [by apply try_returns; [|intros plan [_ ->]%Ha2]|].
        intros plan. rewrite try_Ok, template_after_cons, Forall_cons. setoid_rewrite Ha2.
        specialize (IH2 plan). naive_solver.
    + rewrite decide_False by tauto. cbn [app try]. by apply IH.
Qed.

End passes.

Lemma executable_iff bytes s entry :
  segment_ok bytes s ->
  executable_at entry s <-> N.testbit (UserLoadSegment.flags s) 0 = true
    /\ UserLoadSegment.virtual_address s <= entry
       < UserLoadSegment.virtual_address s + UserLoadSegment.file_size s.
Proof.
  intros [_ Hf _ _ _ [_ Hhi]]. unfold executable_at, u64_checked_add.
  rewrite decide_True by (unfold USER_IMAGE_LIMIT, USER_IMAGE_BASE, U64_MAX in *; lia).
  by rewrite low_bit.
Qed.

(** Pairwise, by position. *)
Lemma clear_of_apart pre l :
  clear_of pre l <->
  (forall e s, e ∈ pre -> s ∈ l -> apart e s)
  /\ forall i j s1 s2, (i < j)%nat -> l !! i = Some s1 -> l !! j = Some s2 -> apart s1 s2.
Proof.
  revert pre. induction l as [|s l IH]; intros pre; cbn [clear_of].
  { split; [|done]. intros _. split; [by intros e s _ ?%not_elem_of_nil|done]. }
  rewrite IH, Forall_forall. setoid_rewrite elem_of_app. setoid_rewrite list_elem_of_singleton.
  setoid_rewrite elem_of_cons. split.
  - intros (Hs&H1&H2). split; [naive_solver|]. intros [|i] [|j] s1 s2 Hij Hi Hj; [lia| |lia|].
    + simpl in *. simplify_eq. apply H1; [by right|]. by eapply list_elem_of_lookup_2.
    + by apply (H2 i j); [lia| |].
  - intros [H1 H2]. split_and!; [naive_solver| |].
    + intros e s' [He| ->] Hs'; [naive_solver|]. apply list_elem_of_lookup_1 in Hs' as [j Hj].
      by apply (H2 0%nat (S j)); [lia| |].
    + intros i j s1 s2 Hij Hi Hj. by apply (H2 (S i) (S j)); [lia| |].
Qed.

(** ** The parser *)

Section parsing.
Context (bytes : list N) (Hlen : len bytes <= ISIZE_MAX).

Lemma check_header_spec :
  check_header bytes <> Panic
  /\ (check_header bytes = Ret (Ok tt) <->
      ELF_HEADER_SIZE <= len bytes
      /\ sub_bytes bytes 0 7 = [0x7f; 0x45; 0x4c; 0x46; 2; 1; 1]
      /\ word 4 bytes 20 = 1 /\ word 2 bytes 16 = 2 /\ word 2 bytes 18 = 62
      /\ word 2 bytes 52 = ELF_HEADER_SIZE /\ word 2 bytes 54 = PROGRAM_HEADER_SIZE).
Proof.
  unfold check_header. destruct (decide (len bytes < ELF_HEADER_SIZE)) as [Hs|Hs].
  { split; [done|]. split; [done|]. intros [? _]. lia. }
  unfold read_u16, read_u32. rewrite !read_word by (done || (unfold ELF_HEADER_SIZE in *; lia)).
  cbn [try]. unfold ELF_HEADER_SIZE in Hs.
  assert (Hb : exists b0 b1 b2 b3 b4 b5 b6 rest,
    bytes = b0 :: b1 :: b2 :: b3 :: b4 :: b5 :: b6 :: rest).
  { unfold len in Hs. clear Hlen.
    destruct bytes as [|b0 [|b1 [|b2 [|b3 [|b4 [|b5 [|b6 rest]]]]]]]; simpl in Hs; try lia.
    by do 8 eexists. }
  destruct Hb as (b0&b1&b2&b3&b4&b5&b6&rest&Hb).
  assert (Hi : index bytes 4 = Ret b4 /\ index bytes 5 = Ret b5 /\ index bytes 6 = Ret b6)
    by (by rewrite Hb).
  destruct Hi as (->&->&->).
  assert (H4 : sub_bytes bytes 0 4 = [b0; b1; b2; b3]) by (by rewrite Hb).
  assert (H7 : sub_bytes bytes 0 7 = [b0; b1; b2; b3; b4; b5; b6]) by (by rewrite Hb).
  rewrite H4, H7. split; [repeat (apply guard_returns; intros _); done|].
  rewrite !guard_Ok. split.
  - intros (?&?&?&?&?&?&?&?&?&_). undec. simplify_eq. split_and!; [unfold ELF_HEADER_SIZE; lia|done..].
  - intros (?&Hm&->&->&->&->&->). simplify_eq. split_and!; by try (intros Hx; apply Hx).
Qed.

(** The program headers lie in the file. *)
Lemma headers_in_file :
  word 8 bytes 32 + word 2 bytes 56 * PROGRAM_HEADER_SIZE <= len bytes ->
  Forall (in_file bytes) (offsets (word 8 bytes 32) (seq 0 (N.to_nat (word 2 bytes 56)))).
Proof.
  intros Hle. apply Forall_fmap, Forall_seq. intros i [_ Hi]. unfold in_file; simpl.
  unfold PROGRAM_HEADER_SIZE in *. lia.
Qed.

Lemma templates_count os : 
  (length (templates bytes os) <= count_of (fun o => word 4 bytes o = PT_TLS) os)%nat.
Proof.
  unfold templates. etrans; [apply length_filter|]. by rewrite length_fmap.
Qed.

Lemma single_template ts : (length ts <= 1)%nat -> template_after None ts = head ts.
Proof. destruct ts as [|t [|]]; simpl; [done|done|lia]. Qed.

Lemma template_ok ts t :
  Forall (tls_ok bytes) ts -> template_after None ts = Some t -> tls_ok bytes t.
Proof.
  intros Hall. unfold template_after. destruct (last ts) as [t'|] eqn:E; [|done].
  intros [= ->]. apply (proj1 (Forall_forall _ _) Hall). by apply last_Some_elem_of.
Qed.

Lemma finish_spec entry ss tls :
  (length ss <= MAX_LOAD_SEGMENTS)%nat -> Forall (segment_ok bytes) ss ->
  (forall t, tls = Some t -> tls_ok bytes t) ->
  finish entry (plan_of entry ss tls) <> Panic
  /\ forall plan, finish entry (plan_of entry ss tls) = Ret (Ok plan) <->
       plan = plan_of entry ss tls /\ ss <> []
       /\ (exists s, s ∈ ss /\ N.testbit (UserLoadSegment.flags s) 0 = true
            /\ UserLoadSegment.virtual_address s <= entry
               < UserLoadSegment.virtual_address s + UserLoadSegment.file_size s)
       /\ forall t, tls = Some t -> exists s, s ∈ ss /\ contains t s.
Proof.
  intros Hl Hok Htls. unfold finish.
  change (UserLoadPlan.segment_count (plan_of entry ss tls)) with (length ss).
  change (UserLoadPlan.segments (plan_of entry ss tls)) with (segment_array ss).
  change (UserLoadPlan.tls (plan_of entry ss tls)) with tls.
  rewrite segment_array_slice by done.
  assert (Hexec : Exists (executable_at entry) ss <-> exists s, s ∈ ss
    /\ N.testbit (UserLoadSegment.flags s) 0 = true
    /\ UserLoadSegment.virtual_address s <= entry
       < UserLoadSegment.virtual_address s + UserLoadSegment.file_size s).
  { rewrite Exists_exists. split; intros (s&Hs&He); exists s; (split; [done|]);
      apply (executable_iff bytes); try done; by apply (proj1 (Forall_forall _ _) Hok). }
  assert (Hnil : length ss <> 0%nat <-> ss <> []) by (destruct ss; naive_solver).
  destruct tls as [t|].
  - destruct (validate_coverage_spec bytes entry ss (Some t) t Hlen Hl Hok (Htls t eq_refl)) as [Hv1 Hv2].
    fold (plan_of entry ss (Some t)) in Hv1, Hv2. split.
    + apply guard_returns. intros _. apply guard_returns. intros _. by apply try_returns.
    + intros plan. rewrite !guard_Ok, try_Ok, Hnil, <-Hexec. split.
      * intros (?&?%dec_stable&[]&?%Hv2&Hp). injection Hp as <-. naive_solver.
      * intros (->&?&?&Hc). split_and!; [done|by intros Hx; apply Hx|].
        exists tt. split; [|done]. apply Hv2. by apply Hc.
  - split; [by repeat (apply guard_returns; intros _)|]. intros plan.
    rewrite !guard_Ok, Hnil, <-Hexec. split.
    + intros (?&?%dec_stable&Hp). injection Hp as <-. naive_solver.
    + intros (->&?&?&_). split_and!; [done|by intros Hx; apply Hx|done].
Qed.

(** The rest of [parse], once the program headers are known to be in the file. *)
Lemma headers_spec :
  word 8 bytes 32 + word 2 bytes 56 * PROGRAM_HEADER_SIZE <= len bytes ->
  let rest := (
    let* _ := count_headers bytes (word 8 bytes 32) (seq 0 (N.to_nat (word 2 bytes 56))) 0 0 in
    let* plan := load_headers bytes (word 8 bytes 32) (seq 0 (N.to_nat (word 2 bytes 56)))
                   (plan_of (word 8 bytes 24) [] None) in
    finish (word 8 bytes 24) plan) in
  rest <> Panic
  /\ forall plan, header_ok bytes -> rest = Ret (Ok plan) <-> accepts bytes plan.
Proof.
  intros Htable rest. pose proof (headers_in_file Htable) as Hin.
  destruct (count_headers_spec bytes Hlen _ _ 0 0 Hin) as [Hc1 Hc2]. specialize (Hc2 ltac:(lia) ltac:(lia)).
  fold (header_offsets bytes) in *.
  assert (Hoff : offsets (word 8 bytes 32) (seq 0 (N.to_nat (word 2 bytes 56))) = header_offsets bytes)
    by done.
  rewrite Hoff in *. cbn [Nat.add] in Hc2. rewrite <-(loads_count bytes) in Hc2.
  set (hs := header_offsets bytes) in *.
  assert (Hload : (length (loads bytes hs) <= MAX_LOAD_SEGMENTS)%nat -> _) by
    exact (fun Hle => load_headers_spec bytes Hlen (word 8 bytes 32) (seq 0 (N.to_nat (word 2 bytes 56)))
      (word 8 bytes 24) [] None Hin (Forall_nil_2 _) Hle).
  rewrite Hoff in Hload. fold hs in Hload. cbn [app] in Hload.
  assert (Hfin : (length (loads bytes hs) <= MAX_LOAD_SEGMENTS)%nat ->
    Forall (segment_ok bytes) (loads bytes hs) -> Forall (tls_ok bytes) (templates bytes hs) -> _)
    by exact (fun Hle Hok Htls => finish_spec (word 8 bytes 24) (loads bytes hs)
      (template_after None (templates bytes hs)) Hle Hok
      (fun t Ht => template_ok (templates bytes hs) t Htls Ht)).
  split.
  - subst rest. apply try_returns; [done|]. intros [] [Hle _]%Hc2.
    destruct (Hload Hle) as [Hl1 Hl2]. apply try_returns; [done|].
    intros plan (Hok&_&Htls&->)%Hl2. by apply Hfin.
  - intros plan Hhdr. subst rest. rewrite try_Ok. setoid_rewrite try_Ok. split.
    + intros ([]&[Hle Htc]%Hc2&p1&Hl&Hf). destruct (Hload Hle) as [_ Hl2].
      apply Hl2 in Hl as (Hok&Hclear&Htls&->). apply (Hfin Hle Hok Htls) in Hf as (->&Hne&Hex&Hct).
      assert (Hts : (length (templates bytes hs) <= 1)%nat)
        by (etrans; [apply templates_count|exact Htc]).
      rewrite single_template in * by done. apply clear_of_apart in Hclear as [_ Hap].
      assert (Hpos : (0 < length (loads bytes hs))%nat)
        by (clear -Hne; destruct (loads bytes hs); [done|simpl; lia]).
      split; try done.
      * intros t Ht. split; [|by apply Hct]. by eapply template_ok; [|rewrite single_template].
    + intros [_ [Hpos Hle] Htc -> Hok Hap Hex Hct]. fold hs in Hpos, Hle, Htc, Hok, Hap, Hex, Hct |- *. exists tt. split; [by apply Hc2|].
      assert (Hts : (length (templates bytes hs) <= 1)%nat)
        by (etrans; [apply templates_count|exact Htc]).
      assert (Htls : Forall (tls_ok bytes) (templates bytes hs)).
      { destruct (templates bytes hs) as [|t [|]]; [done| |simpl in Hts; lia].
        apply Forall_singleton. by apply Hct. }
      destruct (Hload Hle) as [_ Hl2]. eexists. split.
      * apply Hl2. split_and!; [done| |done|done]. apply clear_of_apart. split; [|done].
        by intros e s ?%not_elem_of_nil.
      * apply (Hfin Hle Hok Htls). rewrite single_template by done. split_and!; [done| |done|].
        -- intros Hnil. rewrite Hnil in Hpos. simpl in Hpos. lia.
        -- intros t Ht. by apply Hct.
Qed.
End parsing.

(** The parser returns on every image, and accepts what [accepts] describes. *)
Lemma parse_spec bytes :
  len bytes <= ISIZE_MAX ->
  parse bytes <> Panic /\ forall plan, parse bytes = Ret (Ok plan) <-> accepts bytes plan.
Proof.
  intros Hlen. destruct (check_header_spec bytes Hlen) as [Hh1 Hh2]. unfold parse.
  destruct (check_header bytes) as [[[]|e]|]; [rewrite try_value| |done].
  2: { split; [done|]. intros plan. split; [done|]. intros [[? ? ? ? ? [? ?] _] _ _ _ _ _ _ _].
       by assert (Ret (Err e) = Ret (Ok tt)) by (by apply Hh2). }
  destruct (proj1 Hh2 eq_refl) as (H64&Hmagic&Hver&Htype&Hmach&Hsz1&Hsz2).
  unfold read_u64, read_u16. rewrite !read_word by (done || (unfold ELF_HEADER_SIZE in *; lia)).
  rewrite !try_value. change (UserLoadPlan.mk (word 8 bytes 24)
    (replicate MAX_LOAD_SEGMENTS UserLoadSegment.default) 0 None) with (plan_of (word 8 bytes 24) [] None).
  split.
  - apply try_returns; [done|]. intros n56 [_ ->]%checked_mul_Ok. apply try_returns; [done|].
    intros stop [_ ->]%checked_add_Ok. apply guard_returns. intros Hg.
    apply headers_spec; [done|lia].
  - intros plan. rewrite try_Ok. setoid_rewrite checked_mul_Ok. setoid_rewrite try_Ok.
    setoid_rewrite checked_add_Ok. setoid_rewrite guard_Ok. split.
    + intros (?&[_ ->]&?&[_ ->]&Hg&Hrun). apply headers_spec in Hrun; [done|done|lia|].
      split; try done. split; [intros Hz; apply Hg; by left|lia].
    + intros Hacc. pose proof (accepts_header _ _ Hacc) as Hhdr. destruct (header_table _ Hhdr) as [Hn Ht].
      unfold ISIZE_MAX, U64_MAX in *. eexists. split; [split; [lia|done]|].
      eexists. split; [split; [lia|done]|]. split; [lia|]. by apply headers_spec.
Qed.

(** C21: no image makes the parser panic, and it accepts exactly the images that
    the specification [accepts] describes, with the plan described there: every
    loadable header becomes one segment, in order; each lies in the file and in
    the user image, page-aligned and never both writable and executable; no two
    overlap; the entry point is in the file-backed part of an executable one;
    and a thread-local template fits a page inside one of them. *)
Theorem parse_exact bytes :
  len bytes <= ISIZE_MAX ->
  parse bytes <> Panic /\ forall plan, parse bytes = Ret (Ok plan) <-> accepts bytes plan.
Proof. apply parse_spec. Qed.

(** ** A concrete image *)

Module UserElfExample.
(** A program header: type, flags, file offset, address, sizes, alignment. *)
Definition header (kind flags offset address file_size memory_size alignment : N) : list N :=
  to_le_bytes 4 kind ++ to_le_bytes 4 flags ++ to_le_bytes 8 offset ++ to_le_bytes 8 address
  ++ to_le_bytes 8 address ++ to_le_bytes 8 file_size ++ to_le_bytes 8 memory_size
  ++ to_le_bytes 8 alignment.

(** Code, data and a thread-local template that starts the data. *)
Definition image : list N :=
  [0x7f; 0x45; 0x4c; 0x46; 2; 1; 1] ++ replicate 9 0
  ++ to_le_bytes 2 2 ++ to_le_bytes 2 62 ++ to_le_bytes 4 1
  ++ to_le_bytes 8 (USER_IMAGE_BASE + 128) ++ to_le_bytes 8 64 ++ to_le_bytes 8 0 ++ to_le_bytes 4 0
  ++ to_le_bytes 2 64 ++ to_le_bytes 2 56 ++ to_le_bytes 2 3 ++ replicate 6 0
  ++ header PT_LOAD 5 0 USER_IMAGE_BASE 232 300 4096
  ++ header PT_LOAD 6 0 (USER_IMAGE_BASE + 4096) 64 8192 4096
  ++ header PT_TLS 4 0 (USER_IMAGE_BASE + 4096) 16 100 16.

Definition plan : UserLoadPlan.t :=
  UserLoadPlan.mk (USER_IMAGE_BASE + 128)
    (segment_array [UserLoadSegment.mk 0 USER_IMAGE_BASE 232 300 5;
                    UserLoadSegment.mk 0 (USER_IMAGE_BASE + 4096) 64 8192 6]) 2
    (Some (UserTlsSegment.mk 0 (USER_IMAGE_BASE + 4096) 16 100 16)).

Lemma parse_exact_witness : len image <= ISIZE_MAX /\ accepts image plan.
Proof.
  split; [by vm_compute|]. apply (parse_exact image); [by vm_compute|]. vm_compute. reflexivity.
Defined.
End UserElfExample.
