(* ===== verification/UserChild.v ===== *)
(** * Address spaces of isolated processes (kernel/src/user_child.rs)

    A spawned process gets page tables of its own, built from a loading plan.
    This file models the checks on the plan (kernel/src/user_process.rs), the
    construction, the slots the processes occupy and the checks on user
    pointers. Where the storage lies in memory is a parameter, [Layout]; the
    specification is what the processor's walk of the finished tables lets user
    code reach. *)

From stdpp Require Import prelude gmap.
From S2P Require Import Prelude BootContract Memory ProcessExit UserElf.

Local Open Scope N_scope.
Local Open Scope nagi_scope.
Import Proc.

(** ** Constants and errors (kernel/src/user_process.rs) *)

Definition USER_STACK_BASE : N := USER_IMAGE_LIMIT.
Definition USER_STACK_PAGES : nat := PAGE_TABLE_ENTRIES.
Definition USER_STACK_LIMIT : N := USER_STACK_BASE + N.of_nat USER_STACK_PAGES * PAGE_SIZE.
Definition USER_PML4_INDEX : nat := 128.
Definition USER_PDPT_INDEX : nat := N.to_nat (N.land (N.shiftr USER_IMAGE_BASE 30) 0x1ff).
Definition USER_IMAGE_FIRST_PD_INDEX : nat := N.to_nat (N.land (N.shiftr USER_IMAGE_BASE 21) 0x1ff).

Module UserProcessError.
Inductive t :=
  | InvalidBootInfo (e : BootInfoError.t)
  | ImageTooLarge
  | ImageNotMapped
  | InvalidElf (e : UserElfError.t)
  | InvalidLoadPlan
  | ImageOutOfBounds
  | KernelUserSlotOccupied
  | InvalidPhysicalAddress
  | PhysicalMemoryExhausted.
End UserProcessError.

(** ** Constants (kernel/src/user_child.rs) *)

Definition INIT_PROCESS_ID : N := 1.
Definition CHILD_PROCESS_ID : N := FIRST_ISOLATED_PROCESS_ID.
Definition CHILD_IMAGE_PAGES : nat := 256.
Definition CHILD_STACK_PAGES : nat := 16.
Definition CHILD_IMAGE_LIMIT : N := USER_IMAGE_BASE + N.of_nat CHILD_IMAGE_PAGES * PAGE_SIZE.
Definition CHILD_STACK_BASE : N := USER_STACK_LIMIT - N.of_nat CHILD_STACK_PAGES * PAGE_SIZE.
Definition MAX_CHILD_ELF_BYTES : N := 2 * 1024 * 1024.
Definition MAX_CHILD_PROCESSES : nat := MAX_LIVE_PROCESSES.
Definition FREE_SLOT : N := 0.

(** ** Checking a plan *)

(** The checks of one segment against one before it. *)
Definition check_pair (segment existing : UserLoadSegment.t) (memory_end : N)
  : Result unit UserProcessError.t :=
  let? existing_end := ok_or (u64_checked_add (UserLoadSegment.virtual_address existing)
                                (UserLoadSegment.memory_size existing))
                         UserProcessError.InvalidLoadPlan in
  if decide (UserLoadSegment.virtual_address segment < existing_end
             /\ UserLoadSegment.virtual_address existing < memory_end)
  then Err UserProcessError.InvalidLoadPlan
  else
    let? segment_direct_end :=
      ok_or (u64_checked_add (UserLoadSegment.file_offset segment)
               (UserLoadSegment.file_size segment / PAGE_SIZE * PAGE_SIZE))
        UserProcessError.ImageOutOfBounds in
    let? existing_direct_end :=
      ok_or (u64_checked_add (UserLoadSegment.file_offset existing)
               (UserLoadSegment.file_size existing / PAGE_SIZE * PAGE_SIZE))
        UserProcessError.ImageOutOfBounds in
    if decide ((UserLoadSegment.file_offset segment < existing_direct_end
                /\ UserLoadSegment.file_offset existing < segment_direct_end)
               /\ N.land (N.lxor (UserLoadSegment.flags segment) (UserLoadSegment.flags existing))
                    (N.lor PF_W PF_X) <> 0)
    then Err UserProcessError.InvalidLoadPlan
    else Ok tt.

Fixpoint check_pairs (segment : UserLoadSegment.t) (memory_end : N)
  (existing : list UserLoadSegment.t) : Result unit UserProcessError.t :=
  match existing with
  | [] => Ok tt
  | e :: existing =>
      let? _ := check_pair segment e memory_end in
      check_pairs segment memory_end existing
  end.

(** [for (index, segment) in segments.iter().enumerate()]; [before] is [segments[..index]]. *)
Fixpoint check_segments (image : list N) (before segments : list UserLoadSegment.t)
  : Result unit UserProcessError.t :=
  match segments with
  | [] => Ok tt
  | segment :: segments =>
      if decide (UserLoadSegment.memory_size segment = 0
                 \/ UserLoadSegment.memory_size segment < UserLoadSegment.file_size segment
                 \/ UserLoadSegment.virtual_address segment < USER_IMAGE_BASE
                 \/ is_multiple_of (UserLoadSegment.virtual_address segment) PAGE_SIZE = false
                 \/ is_multiple_of (UserLoadSegment.file_offset segment) PAGE_SIZE = false
                 \/ N.land (UserLoadSegment.flags segment) (N.lor PF_W PF_X) = N.lor PF_W PF_X)
      then Err UserProcessError.InvalidLoadPlan
      else
        let? memory_end := ok_or (u64_checked_add (UserLoadSegment.virtual_address segment)
                                    (UserLoadSegment.memory_size segment))
                             UserProcessError.ImageTooLarge in
        if decide (USER_IMAGE_LIMIT < memory_end) then Err UserProcessError.ImageTooLarge
        else
          let? _ := check_pairs segment memory_end before in
          let? file_end := ok_or (u64_checked_add (UserLoadSegment.file_offset segment)
                                    (UserLoadSegment.file_size segment))
                             UserProcessError.ImageOutOfBounds in
          if decide (len image < file_end) then Err UserProcessError.ImageOutOfBounds
          else check_segments image (before ++ [segment]) segments
  end.

Definition validate_tls_plan (plan : UserLoadPlan.t) (image : list N)
  : Exec (Result unit UserProcessError.t) :=
  match UserLoadPlan.tls plan with
  | None => Ret (Ok tt)
  | Some tls =>
      let alignment := N.max (UserTlsSegment.alignment tls) 1 in
      if decide (UserTlsSegment.memory_size tls = 0
                 \/ UserTlsSegment.memory_size tls < UserTlsSegment.file_size tls
                 \/ PAGE_SIZE < alignment
                 \/ is_power_of_two alignment = false
                 \/ UserTlsSegment.virtual_address tls mod alignment
                    <> UserTlsSegment.file_offset tls mod alignment)
      then Ret (Err UserProcessError.InvalidLoadPlan)
      else
        let* padded_size := Ret (ok_or (u64_checked_add (UserTlsSegment.memory_size tls)
                                          (alignment - 1))
                                   UserProcessError.InvalidLoadPlan) in
        if decide (PAGE_SIZE < N.ldiff padded_size (alignment - 1))
        then Ret (Err UserProcessError.InvalidLoadPlan)
        else
          let* memory_end := Ret (ok_or (u64_checked_add (UserTlsSegment.virtual_address tls)
                                           (UserTlsSegment.memory_size tls))
                                    UserProcessError.InvalidLoadPlan) in
          if decide (UserTlsSegment.virtual_address tls < USER_IMAGE_BASE
                     \/ USER_IMAGE_LIMIT < memory_end)
          then Ret (Err UserProcessError.InvalidLoadPlan)
          else
            let* file_end := Ret (ok_or (u64_checked_add (UserTlsSegment.file_offset tls)
                                           (UserTlsSegment.file_size tls))
                                    UserProcessError.ImageOutOfBounds) in
            if decide (len image < file_end) then Ret (Err UserProcessError.ImageOutOfBounds)
            else
              let! segments := slice_to (UserLoadPlan.segments plan)
                                 (UserLoadPlan.segment_count plan) in
              if decide (~ Exists (covers tls memory_end file_end) segments)
              then Ret (Err UserProcessError.InvalidLoadPlan)
              else Ret (Ok tt)
  end.

Definition validate_plan (plan : UserLoadPlan.t) (image : list N)
  : Exec (Result unit UserProcessError.t) :=
  if decide (UserLoadPlan.segment_count plan = 0%nat
             \/ (length (UserLoadPlan.segments plan) < UserLoadPlan.segment_count plan)%nat)
  then Ret (Err UserProcessError.InvalidLoadPlan)
  else
    let! segments := slice_to (UserLoadPlan.segments plan) (UserLoadPlan.segment_count plan) in
    let* _ := Ret (check_segments image [] segments) in
    if decide (~ Exists (executable_at (UserLoadPlan.entry plan)) segments)
    then Ret (Err UserProcessError.InvalidLoadPlan)
    else validate_tls_plan plan image.

(** [for segment in ..]: the image limit of an isolated process. *)
Fixpoint check_child_segments (segments : list UserLoadSegment.t)
  : Result unit UserProcessError.t :=
  match segments with
  | [] => Ok tt
  | segment :: segments =>
      let? stop := ok_or (u64_checked_add (UserLoadSegment.virtual_address segment)
                            (UserLoadSegment.memory_size segment))
                     UserProcessError.ImageTooLarge in
      if decide (CHILD_IMAGE_LIMIT < stop) then Err UserProcessError.ImageTooLarge
      else check_child_segments segments
  end.

Definition validate_child_plan (plan : UserLoadPlan.t) (image : list N)
  : Exec (Result unit UserProcessError.t) :=
  let* _ := validate_plan plan image in
  match UserLoadPlan.tls plan with
  | Some _ => Ret (Err UserProcessError.InvalidLoadPlan)
  | None =>
      let! segments := slice_to (UserLoadPlan.segments plan) (UserLoadPlan.segment_count plan) in
      Ret (check_child_segments segments)
  end.

(** ** The storage of one process *)

Module ChildStorage.
Record t := mk {
  pml4 : PageTable.t;
  pdpt : PageTable.t;
  pd : PageTable.t;
  image_pt : PageTable.t;
  stack_pt : PageTable.t;
  image_pages : list (list N);
  stack_pages : list (list N)
}.

Definition zeroed : list N := replicate (N.to_nat PAGE_SIZE) 0.

Definition new : t :=
  mk PageTable.empty PageTable.empty PageTable.empty PageTable.empty PageTable.empty
    (replicate CHILD_IMAGE_PAGES zeroed) (replicate CHILD_STACK_PAGES zeroed).

(** [page.0.fill(0)] *)
Definition fill (page : list N) : list N := const 0 <$> page.

Definition clear (self : t) : t :=
  mk (PageTable.clear (pml4 self)) (PageTable.clear (pdpt self)) (PageTable.clear (pd self))
    (PageTable.clear (image_pt self)) (PageTable.clear (stack_pt self))
    (fill <$> image_pages self) (fill <$> stack_pages self).

(** The five tables, for the code that takes one of them by reference. *)
Inductive table := Pml4 | Pdpt | Pd | ImagePt | StackPt.

Definition get (self : t) (which : table) : PageTable.t :=
  match which with
  | Pml4 => pml4 self | Pdpt => pdpt self | Pd => pd self
  | ImagePt => image_pt self | StackPt => stack_pt self
  end.

Definition set (self : t) (which : table) (table : PageTable.t) : t :=
  match self with
  | mk a b c d e f g =>
      match which with
      | Pml4 => mk table b c d e f g | Pdpt => mk a table c d e f g | Pd => mk a b table d e f g
      | ImagePt => mk a b c table e f g | StackPt => mk a b c d table f g
      end
  end.

Definition set_image_page (self : t) (i : nat) (page : list N) : t :=
  mk (pml4 self) (pdpt self) (pd self) (image_pt self) (stack_pt self)
    (<[i := page]> (image_pages self)) (stack_pages self).
End ChildStorage.

(** Where a storage lies in memory. *)
Module Layout.
Record t := mk {
  table : ChildStorage.table -> N;
  image_page : nat -> N;
  stack_page : nat -> N
}.
End Layout.

Module ChildContext.
Record t := mk { process_id : N; entry : N; user_stack_top : N; cr3 : N }.
End ChildContext.

Definition aligned_address (address : N) : Result N UserProcessError.t :=
  if decide (is_multiple_of address PAGE_SIZE = true /\ address < 2 ^ 52) then Ok address
  else Err UserProcessError.InvalidPhysicalAddress.

Definition map_leaf (table : PageTable.t) (index : nat) (physical_address flags : N)
  : Result unit UserProcessError.t * PageTable.t :=
  match PageTableEntry.new physical_address flags with
  | None => (Err UserProcessError.InvalidPhysicalAddress, table)
  | Some entry =>
      match PageTable.replace_empty table index (PageTableEntry.raw entry) with
      | (false, table) => (Err UserProcessError.InvalidLoadPlan, table)
      | (true, table) => (Ok tt, table)
      end
  end.

Definition user_pd_index (address : N) : nat := N.to_nat (N.land (N.shiftr address 21) 0x1ff).

(** ** Building an address space

    Code on [storage: &mut ChildStorage] that may fail or panic. *)

Definition Build (T : Type) : Type := Proc ChildStorage.t UserProcessError.t T.

Definition map_leaf_in (which : ChildStorage.table) (index : nat) (physical flags : N) : Build unit :=
  fun s =>
    let '(r, table) := map_leaf (ChildStorage.get s which) index physical flags in
    Ret (r, ChildStorage.set s which table).

(** The copy of one entry of the kernel's top-level table. *)
Definition copy_kernel_entry (kernel_pml4 : PageTable.t) (index : nat) : Build unit :=
  if decide (index = USER_PML4_INDEX) then ret tt
  else
    match PageTable.raw_entry kernel_pml4 index with
    | None => ret tt
    | Some raw => fun s =>
        match PageTable.replace_empty (ChildStorage.pml4 s) index
                (N.ldiff raw PageTableEntry.USER) with
        | (ok, table) =>
            Ret (if (ok : bool) then Ok tt else Err UserProcessError.InvalidLoadPlan,
                 ChildStorage.set s ChildStorage.Pml4 table)
        end
    end.

Definition HIERARCHY : N :=
  N.lor (N.lor PageTableEntry.PRESENT PageTableEntry.WRITABLE) PageTableEntry.USER.

Definition STACK_FLAGS : N :=
  N.lor (N.lor (N.lor PageTableEntry.PRESENT PageTableEntry.WRITABLE) PageTableEntry.USER)
    PageTableEntry.NO_EXECUTE.

Definition segment_flags (segment : UserLoadSegment.t) : N :=
  let flags := N.lor PageTableEntry.PRESENT PageTableEntry.USER in
  let flags := if decide (N.land (UserLoadSegment.flags segment) PF_W <> 0)
               then N.lor flags PageTableEntry.WRITABLE else flags in
  if decide (N.land (UserLoadSegment.flags segment) PF_X = 0)
  then N.lor flags PageTableEntry.NO_EXECUTE else flags.

(** One page of a segment. *)
Definition load_page (layout : Layout.t) (image : list N) (segment : UserLoadSegment.t)
  (first_page : nat) (relative : nat) : Build unit := fun s =>
  let page_index := (first_page + relative)%nat in
  match ChildStorage.image_pages s !! page_index with
  | None => Ret (Err UserProcessError.ImageTooLarge, s)
  | Some page =>
      let offset := N.of_nat relative * PAGE_SIZE in
      let file_bytes := N.min (UserLoadSegment.file_size segment - offset) PAGE_SIZE in
      (do _ := (if decide (file_bytes <> 0) then fun s =>
                  let! start := u64_add (UserLoadSegment.file_offset segment) offset in
                  let! stop := u64_add start file_bytes in
                  if decide (len image < stop) then Ret (Err UserProcessError.ImageOutOfBounds, s)
                  else
                    let! page := copy_into page 0
                                   (sub_bytes image (N.to_nat start) (N.to_nat file_bytes)) in
                    Ret (Ok tt, ChildStorage.set_image_page s page_index page)
                else ret tt) in
       do physical := lift (aligned_address (Layout.image_page layout page_index)) in
       map_leaf_in ChildStorage.ImagePt page_index physical (segment_flags segment)) s
  end.

Definition load_segment (layout : Layout.t) (image : list N) (segment : UserLoadSegment.t) : Build unit :=
  do base := exec (let! d := u64_sub (UserLoadSegment.virtual_address segment) USER_IMAGE_BASE in
                   Ret (Ok d)) in
  let first_page := N.to_nat (base / PAGE_SIZE) in
  let page_count := N.to_nat (div_ceil (UserLoadSegment.memory_size segment) PAGE_SIZE) in
  for_each (seq 0 page_count) (load_page layout image segment first_page).

Definition map_stack_page (layout : Layout.t) (index : nat) : Build unit :=
  do physical := lift (aligned_address (Layout.stack_page layout index)) in
  map_leaf_in ChildStorage.StackPt (PAGE_TABLE_ENTRIES - CHILD_STACK_PAGES + index)
    physical STACK_FLAGS.

Definition build_child_address_space (layout : Layout.t) (plan : UserLoadPlan.t) (image : list N)
  (kernel_pml4 : PageTable.t) : Build ChildContext.t :=
  do _ := exec (validate_child_plan plan image) in
  do _ := (fun s => Ret (Ok tt, ChildStorage.clear s)) in
  do _ := for_each (seq 0 PAGE_TABLE_ENTRIES) (copy_kernel_entry kernel_pml4) in
  do pdpt := lift (aligned_address (Layout.table layout ChildStorage.Pdpt)) in
  do pd := lift (aligned_address (Layout.table layout ChildStorage.Pd)) in
  do image_pt := lift (aligned_address (Layout.table layout ChildStorage.ImagePt)) in
  do stack_pt := lift (aligned_address (Layout.table layout ChildStorage.StackPt)) in
  do _ := map_leaf_in ChildStorage.Pml4 USER_PML4_INDEX pdpt HIERARCHY in
  do _ := map_leaf_in ChildStorage.Pdpt USER_PDPT_INDEX pd HIERARCHY in
  do _ := map_leaf_in ChildStorage.Pd USER_IMAGE_FIRST_PD_INDEX image_pt HIERARCHY in
  do _ := map_leaf_in ChildStorage.Pd (user_pd_index USER_STACK_BASE) stack_pt HIERARCHY in
  do _ := for_each (seq 0 CHILD_STACK_PAGES) (map_stack_page layout) in
  do segments := exec (let! segments := slice_to (UserLoadPlan.segments plan)
                                          (UserLoadPlan.segment_count plan) in
                       Ret (Ok segments)) in
  do _ := for_each segments (load_segment layout image) in
  do cr3 := lift (aligned_address (Layout.table layout ChildStorage.Pml4)) in
  ret (ChildContext.mk CHILD_PROCESS_ID (UserLoadPlan.entry plan) (USER_STACK_LIMIT - 8) cr3).

(** ** The slots of isolated processes *)

Module Children.
Record t := mk {
  storages : list ChildStorage.t;
  slot_process : list N;
  active : N
}.

(** The initial values of the statics. *)
Definition initial : t :=
  mk (replicate MAX_CHILD_PROCESSES ChildStorage.new) (replicate MAX_CHILD_PROCESSES FREE_SLOT)
    INIT_PROCESS_ID.

Definition slot_of (self : t) (process_id : N) : option nat :=
  if decide (process_id <= INIT_PROCESS_ID) then None
  else fst <$> list_find (fun id => id = process_id) (slot_process self).

Definition cr3_of (layouts : nat -> Layout.t) (self : t) (process_id : N) : option N :=
  match slot_of self process_id with
  | None => None
  | Some slot =>
      match aligned_address (Layout.table (layouts slot) ChildStorage.Pml4) with
      | Ok address => Some address
      | Err _ => None
      end
  end.

Definition active_process (self : t) : N := active self.

Definition set_active_process (self : t) (process_id : N) : t :=
  mk (storages self) (slot_process self) process_id.

Definition active_child_storage (self : t) : Exec (option ChildStorage.t) :=
  match slot_of self (active_process self) with
  | None => Ret None
  | Some slot => let! storage := index (storages self) slot in Ret (Some storage)
  end.

Definition with_slot (self : t) (slot : nat) (storage : ChildStorage.t) (process_id : N) : t :=
  mk (<[slot := storage]> (storages self)) (<[slot := process_id]> (slot_process self)) (active self).

Definition prepare_child (layouts : nat -> Layout.t) (self : t) (image : list N)
  (kernel_pml4 : PageTable.t) (process_id : N)
  : Exec (Result ChildContext.t UserProcessError.t * t) :=
  if decide (MAX_CHILD_ELF_BYTES < len image) then Ret (Err UserProcessError.ImageTooLarge, self)
  else
    let! parsed := parse image in
    match parsed with
    | Err e => Ret (Err (UserProcessError.InvalidElf e), self)
    | Ok plan =>
        let! validated := validate_child_plan plan image in
        match validated with
        | Err e => Ret (Err e, self)
        | Ok _ =>
            if decide (process_id <= INIT_PROCESS_ID \/ slot_of self process_id <> None)
            then Ret (Err UserProcessError.InvalidLoadPlan, self)
            else
              match list_find (fun id => id = FREE_SLOT) (slot_process self) with
              | None => Ret (Err UserProcessError.KernelUserSlotOccupied, self)
              | Some (slot, _) =>
                  let! storage := index (storages self) slot in
                  let! (result, storage) :=
                    build_child_address_space (layouts slot) plan image kernel_pml4 storage in
                  match result with
                  | Ok context =>
                      Ret (Ok (ChildContext.mk process_id (ChildContext.entry context)
                                 (ChildContext.user_stack_top context) (ChildContext.cr3 context)),
                           with_slot self slot storage process_id)
                  | Err e =>
                      Ret (Err e, with_slot self slot (ChildStorage.clear storage) FREE_SLOT)
                  end
              end
        end
    end.

Definition release_child (self : t) (process_id : N) : Exec t :=
  match slot_of self process_id with
  | None => Ret self
  | Some slot =>
      let! storage := index (storages self) slot in
      Ret (with_slot self slot (ChildStorage.clear storage) FREE_SLOT)
  end.
End Children.

(** ** Checking user pointers *)

(** [(first..=last).all(..)] over the entries of a table. *)
Definition all_entries (table : PageTable.t) (first last : N) (P : N -> Prop)
  `{forall e, Decision (P e)} : bool :=
  forallb (fun i => match PageTable.raw_entry table i with
                    | Some e => bool_decide (P e) | None => false end)
    (seq (N.to_nat first) (N.to_nat (last + 1 - first))).

Definition mapped_range (table : PageTable.t) (base limit address length required_flags : N) : bool :=
  if decide (length = 0 \/ address < base) then false
  else
    match u64_checked_add address length with
    | None => false
    | Some stop =>
        if decide (limit < stop) then false
        else all_entries table ((address - base) / PAGE_SIZE) ((stop - 1 - base) / PAGE_SIZE)
               (fun e => N.land e required_flags = required_flags)
    end.

Definition image_or_stack_mapped (storage : ChildStorage.t) (address length required : N) : bool :=
  mapped_range (ChildStorage.image_pt storage) USER_IMAGE_BASE CHILD_IMAGE_LIMIT address length required
  || mapped_range (ChildStorage.stack_pt storage) USER_STACK_BASE USER_STACK_LIMIT address length
       required.

Definition child_readable (self : Children.t) (address length : N) : Exec bool :=
  let! storage := Children.active_child_storage self in
  Ret (match storage with
       | None => false
       | Some s => image_or_stack_mapped s address length
                     (N.lor PageTableEntry.PRESENT PageTableEntry.USER)
       end).

Definition child_writable (self : Children.t) (address length : N) : Exec bool :=
  let! storage := Children.active_child_storage self in
  Ret (match storage with
       | None => false
       | Some s => image_or_stack_mapped s address length
                     (N.lor (N.lor PageTableEntry.PRESENT PageTableEntry.USER)
                        PageTableEntry.WRITABLE)
       end).

(** The part of [child_executable] that reads the image's page table. *)
Definition executable_range (storage : ChildStorage.t) (address length : N) : bool :=
  if decide (length = 0 \/ address < USER_IMAGE_BASE) then false
  else
    match u64_checked_add address length with
    | None => false
    | Some stop =>
        if decide (CHILD_IMAGE_LIMIT < stop) then false
        else all_entries (ChildStorage.image_pt storage) ((address - USER_IMAGE_BASE) / PAGE_SIZE)
               ((stop - 1 - USER_IMAGE_BASE) / PAGE_SIZE)
               (fun e => N.land e (N.lor PageTableEntry.PRESENT PageTableEntry.USER)
                         = N.lor PageTableEntry.PRESENT PageTableEntry.USER
                         /\ N.land e PageTableEntry.NO_EXECUTE = 0)
    end.

Definition child_executable (self : Children.t) (address length : N) : Exec bool :=
  let! storage := Children.active_child_storage self in
  Ret (match storage with None => false | Some s => executable_range s address length end).

(** ** What user code can reach

    The processor's walk for an access from user mode: every level must be
    present and allow user access, a level without [WRITABLE] takes away the
    right to write and one with [NO_EXECUTE] the right to execute. *)

Record access := Access { physical : N; writable : bool; executable : bool }.

Fixpoint user_walk (read : N -> N) (levels : list (N * bool)) (table va : N) (w x : bool)
  : option access :=
  match levels with
  | [] => None
  | (shift, maps_pages) :: levels =>
      let e := read (table + va / 2 ^ shift mod 512 * 8) in
      if negb (N.testbit e 0 && N.testbit e 2) then None
      else
        let w := w && N.testbit e 1 in
        let x := x && negb (N.testbit e 63) in
        if bool_decide (levels = []) || maps_pages && N.testbit e 7
        then Some (Access (frame e shift + va mod 2 ^ shift) w x)
        else user_walk read levels (frame e 12) va w x
  end.

Definition user_translate (read : N -> N) (cr3 va : N) : option access :=
  user_walk read [(39, false); (30, true); (21, true); (12, true)] cr3 va true true.

(** Memory holds the tables of a storage. *)
Definition holds_tables (read : N -> N) (layout : Layout.t) (s : ChildStorage.t) : Prop :=
  forall which i, (i < PAGE_TABLE_ENTRIES)%nat ->
    read (Layout.table layout which + N.of_nat i * 8)
    = from_option id 0 (PageTable.raw_entry (ChildStorage.get s which) i).

(** The storage is page-aligned physical memory. *)
Definition frame_address (a : N) : Prop := (PAGE_SIZE | a) /\ a < 2 ^ 52.

Record layout_ok (layout : Layout.t) : Prop := {
  layout_tables : forall which, frame_address (Layout.table layout which);
  layout_image : forall i, (i < CHILD_IMAGE_PAGES)%nat -> frame_address (Layout.image_page layout i);
  layout_stack : forall i, (i < CHILD_STACK_PAGES)%nat -> frame_address (Layout.stack_page layout i)
}.

(** The kernel's entries have a bit besides [USER]; present ones do. *)
Definition kernel_ok (kernel_pml4 : PageTable.t) : Prop :=
  forall i raw, PageTable.raw_entry kernel_pml4 i = Some raw -> N.ldiff raw PageTableEntry.USER <> 0.

Record storage_ok (s : ChildStorage.t) : Prop := {
  storage_tables : forall which,
    length (PageTable.entries (ChildStorage.get s which)) = PAGE_TABLE_ENTRIES;
  storage_image : length (ChildStorage.image_pages s) = CHILD_IMAGE_PAGES
    /\ Forall (fun page => length page = N.to_nat PAGE_SIZE) (ChildStorage.image_pages s);
  storage_stack : length (ChildStorage.stack_pages s) = CHILD_STACK_PAGES
    /\ Forall (fun page => length page = N.to_nat PAGE_SIZE) (ChildStorage.stack_pages s)
}.

(** The pages of a segment, from [virtual_address] up. *)
Definition first_page (s : UserLoadSegment.t) : nat :=
  N.to_nat ((UserLoadSegment.virtual_address s - USER_IMAGE_BASE) / PAGE_SIZE).

Definition page_count (s : UserLoadSegment.t) : nat :=
  N.to_nat (div_ceil (UserLoadSegment.memory_size s) PAGE_SIZE).

(** An address is in one of the pages of a segment. *)
Definition in_pages (va : N) (s : UserLoadSegment.t) : Prop :=
  UserLoadSegment.virtual_address s <= va
    < UserLoadSegment.virtual_address s + N.of_nat (page_count s) * PAGE_SIZE.

#[global] Instance in_pages_dec va s : Decision (in_pages va s).
Proof. unfold in_pages. apply _. Defined.

(** What user code may do at an address: use the stack, or a page of a segment
    as its flags say, and nothing else. *)
Definition child_access (layout : Layout.t) (segments : list UserLoadSegment.t) (va : N)
  : option access :=
  if decide (CHILD_STACK_BASE <= va < USER_STACK_LIMIT)
  then Some (Access (Layout.stack_page layout (N.to_nat ((va - CHILD_STACK_BASE) / PAGE_SIZE))
                     + va mod PAGE_SIZE) true false)
  else
    match list_find (in_pages va) segments with
    | Some (_, s) =>
        Some (Access (Layout.image_page layout (N.to_nat ((va - USER_IMAGE_BASE) / PAGE_SIZE))
                      + va mod PAGE_SIZE)
                (N.testbit (UserLoadSegment.flags s) 1) (N.testbit (UserLoadSegment.flags s) 0))
    | None => None
    end.

(** The byte a segment puts at distance [k] from its start. *)
Definition segment_byte (image : list N) (s : UserLoadSegment.t) (k : N) : N :=
  if decide (k < UserLoadSegment.file_size s)
  then byte_at image (N.to_nat (UserLoadSegment.file_offset s + k)) else 0.

(** ** Views of a storage *)

#[global] Instance table_eq_dec : EqDecision ChildStorage.table.
Proof. solve_decision. Defined.

(** The entries of every table, and the pages. *)
Record sees (s : ChildStorage.t) (v : ChildStorage.table -> nat -> option N)
  (image_pages stack_pages : list (list N)) : Prop := {
  sees_length : forall w, length (PageTable.entries (ChildStorage.get s w)) = PAGE_TABLE_ENTRIES;
  sees_entries : forall w i, PageTable.raw_entry (ChildStorage.get s w) i = v w i;
  sees_image : ChildStorage.image_pages s = image_pages;
  sees_stack : ChildStorage.stack_pages s = stack_pages
}.

Definition upd (v : ChildStorage.table -> nat -> option N) (w : ChildStorage.table) (i : nat) (x : N)
  : ChildStorage.table -> nat -> option N :=
  fun w' j => if decide (w' = w /\ j = i) then Some x else v w' j.

Section views.
Implicit Types (s : ChildStorage.t) (v : ChildStorage.table -> nat -> option N).

Lemma get_set s w table w' :
  ChildStorage.get (ChildStorage.set s w table) w'
  = if decide (w' = w) then table else ChildStorage.get s w'.
Proof. by destruct s, w, w'. Qed.

Lemma frame_aligned a : frame_address a -> aligned_address a = Ok a.
Proof.
  intros [Hd Hl]. unfold aligned_address. rewrite decide_True; [done|]. split; [|done].
  apply not_false_iff_true, multiple_divides_page, Hd.
Qed.

Lemma frame_low a : frame_address a -> N.land a (PAGE_SIZE - 1) = 0.
Proof.
  intros [[q ->] _]. change (PAGE_SIZE - 1) with (N.ones 12). rewrite N.land_ones.
  change (2 ^ 12) with PAGE_SIZE. apply N.Div0.mod_mul.
Qed.

(** Filling an empty entry. *)
Lemma sees_fill s v ip sp w i x table :
  sees s v ip sp -> PageTable.replace_empty (ChildStorage.get s w) i x = (true, table) ->
  sees (ChildStorage.set s w table) (upd v w i x) ip sp.
Proof.
  intros [Hl He Hi Hs] Hr. pose proof (replace_empty_spec (ChildStorage.get s w) i x (Hl w)) as Hspec.
  rewrite Hr in Hspec. destruct Hspec as [_ Hsets].
  assert (Hlt : length (PageTable.entries table) = PAGE_TABLE_ENTRIES).
  { unfold PageTable.replace_empty in Hr. destruct (_ !! i); [|done]. case_decide; [done|].
    injection Hr as <-. simpl. by rewrite length_insert. }
  split.
  - intros w'. rewrite get_set. by case_decide.
  - intros w' j. rewrite get_set. unfold upd. destruct (decide (w' = w)) as [->|Hw].
    + rewrite Hsets, He. repeat case_decide; naive_solver.
    + rewrite decide_False by naive_solver. apply He.
  - by destruct s, w.
  - by destruct s, w.
Qed.

Lemma replace_empty_fills s v ip sp w i x :
  sees s v ip sp -> (i < PAGE_TABLE_ENTRIES)%nat -> v w i = None -> x <> 0 ->
  exists table, PageTable.replace_empty (ChildStorage.get s w) i x = (true, table).
Proof.
  intros [Hl He _ _] Hi Hv Hx.
  pose proof (replace_empty_spec (ChildStorage.get s w) i x (Hl w)) as Hspec.
  destruct (PageTable.replace_empty _ _ _) as [b table]. exists table. f_equal.
  apply Hspec. by rewrite He.
Qed.

Lemma map_leaf_in_runs s v ip sp w i a flags (Q : unit -> ChildStorage.t -> Prop) :
  sees s v ip sp -> (i < PAGE_TABLE_ENTRIES)%nat -> v w i = None -> frame_address a ->
  N.testbit flags 0 = true ->
  (forall s', sees s' (upd v w i (N.lor a flags)) ip sp -> Q tt s') ->
  runs (map_leaf_in w i a flags) s Q.
Proof.
  intros Hs Hi Hv Ha Hf HQ. unfold runs, map_leaf_in, map_leaf, PageTableEntry.new.
  rewrite decide_False by (rewrite (frame_low _ Ha); destruct Ha; lia). cbn [PageTableEntry.raw].
  destruct (replace_empty_fills s v ip sp w i (N.lor a flags)) as [table Ht]; try done.
  { intros H0. assert (N.testbit (N.lor a flags) 0 = false) by (rewrite H0; apply N.bits_0).
    rewrite N.lor_spec, Hf, orb_true_r in *. done. }
  rewrite Ht. exists tt, (ChildStorage.set s w table). split; [done|]. apply HQ. by eapply sees_fill.
Qed.

Lemma runs_map_leaf {T} s v ip sp w i a flags (k : unit -> Build T) Q :
  sees s v ip sp -> (i < PAGE_TABLE_ENTRIES)%nat -> v w i = None -> frame_address a ->
  N.testbit flags 0 = true ->
  (forall s', sees s' (upd v w i (N.lor a flags)) ip sp -> runs (k tt) s' Q) ->
  runs (bind (map_leaf_in w i a flags) k) s Q.
Proof.
  intros. eapply (runs_bind _ _ _ (fun _ s' => sees s' (upd v w i (N.lor a flags)) ip sp)).
  - by eapply map_leaf_in_runs.
  - intros []. done.
Qed.
End views.

(** ** What a checked plan promises *)

Section plans.
Implicit Types (s e : UserLoadSegment.t) (image : list N).

Lemma check_pairs_Ok s before :
  check_pairs s (UserLoadSegment.virtual_address s + UserLoadSegment.memory_size s) before = Ok tt ->
  Forall (fun e => apart e s) before.
Proof.
  induction before as [|e before IH]; [done|]. cbn [check_pairs].
  destruct (check_pair _ _ _) as [[]|err] eqn:E; [|done]. intros Hr. constructor; [|by apply IH].
  unfold check_pair, u64_checked_add, ok_or in E.
  destruct (decide (UserLoadSegment.virtual_address e + UserLoadSegment.memory_size e <= U64_MAX));
    [|done].
  destruct (decide (_ /\ _)) as [|Hd] in E; [done|]. unfold apart. lia.
Qed.

Lemma check_segments_Ok image segments : forall before,
  check_segments image before segments = Ok tt ->
  Forall (segment_ok image) segments /\ clear_of before segments.
Proof.
  induction segments as [|s segments IH]; intros before; [done|]. cbn [check_segments].
  case_decide as Hg; [done|]. rewrite !not_or_and, !multiple_divides_page, both_bits in Hg.
  destruct Hg as (Hm&Hf&Hlo&Ha1&Ha2&Hwx).
  unfold u64_checked_add, ok_or. destruct (decide (_ <= U64_MAX)) as [Hmem|]; [|done].
  case_decide as Hlim; [done|].
  destruct (check_pairs _ _ _) as [[]|err] eqn:E; [|done].
  destruct (decide (_ <= U64_MAX)) as [Hfile|]; [|done]. case_decide as Hlen; [done|].
  intros [Hok Hclear]%IH. split; [|by split; [apply check_pairs_Ok|]].
  constructor; [|done]. split; try done; lia.
Qed.

Lemma check_child_segments_Ok segments :
  check_child_segments segments = Ok tt ->
  Forall (fun s => UserLoadSegment.virtual_address s + UserLoadSegment.memory_size s
                   <= CHILD_IMAGE_LIMIT) segments.
Proof.
  induction segments as [|s segments IH]; [done|]. cbn [check_child_segments].
  unfold u64_checked_add, ok_or. case_decide; [|done]. case_decide; [done|].
  intros Hr. constructor; [lia|by apply IH].
Qed.

(** The segments of a plan that [validate_child_plan] lets through. *)
Record child_plan (image : list N) (plan : UserLoadPlan.t) (segments : list UserLoadSegment.t)
  : Prop := {
  child_segments : slice_to (UserLoadPlan.segments plan) (UserLoadPlan.segment_count plan)
                   = Ret segments;
  child_segments_ok : Forall (segment_ok image) segments;
  child_segments_apart : clear_of [] segments;
  child_segments_end : Forall (fun s =>
    UserLoadSegment.virtual_address s + UserLoadSegment.memory_size s <= CHILD_IMAGE_LIMIT) segments;
  child_entry : Exists (executable_at (UserLoadPlan.entry plan)) segments
}.

Lemma validate_child_plan_Ok plan image :
  validate_child_plan plan image = Ret (Ok tt) -> exists segments, child_plan image plan segments.
Proof.
  unfold validate_child_plan. rewrite try_Ok. intros ([]&Hv&Hc).
  unfold validate_plan in Hv. apply guard_Ok in Hv as [_ Hv].
  destruct (UserLoadPlan.tls plan); [done|].
  destruct (slice_to (UserLoadPlan.segments plan) (UserLoadPlan.segment_count plan))
    as [segments|] eqn:Hsl; [|done]. exists segments.
  apply try_Ok in Hv as ([]&Hs&Hv). apply guard_Ok in Hv as [He%dec_stable _].
  injection Hs as Hs. apply check_segments_Ok in Hs as [Hok Hclear].
  injection Hc as Hc.
  apply check_child_segments_Ok in Hc. by split.
Qed.

(** Every segment is apart from those before it. *)
Lemma clear_of_before pre s post :
  clear_of [] (pre ++ s :: post) -> clear_of [] pre /\ Forall (fun e => apart e s) pre.
Proof.
  intros [_ Hap]%clear_of_apart. split.
  - apply clear_of_apart. split; [by intros ? ? ?%not_elem_of_nil|]. intros i j a b Hij Ha Hb.
    apply (Hap i j); [done|by apply lookup_app_l_Some..].
  - apply Forall_forall. intros e [i Hi]%list_elem_of_lookup_1.
    pose proof (lookup_lt_Some _ _ _ Hi). apply (Hap i (length pre)); [done| |].
    + by apply lookup_app_l_Some.
    + by rewrite lookup_app_r, Nat.sub_diag.
Qed.

(** *** Pages *)

(** A segment starts at its first page. *)
Lemma first_page_start image s :
  segment_ok image s ->
  UserLoadSegment.virtual_address s = USER_IMAGE_BASE + N.of_nat (first_page s) * PAGE_SIZE.
Proof.
  intros [_ _ [[q Hq] _] _ _ [Hlo _]]. unfold first_page.
  assert (Hsub : UserLoadSegment.virtual_address s - USER_IMAGE_BASE
                 = (q - USER_IMAGE_BASE / PAGE_SIZE) * PAGE_SIZE).
  { rewrite Hq, N.mul_sub_distr_r. done. }
  rewrite Hsub, N.div_mul by done. unfold USER_IMAGE_BASE, PAGE_SIZE in *.
  rewrite N2Nat.id. lia.
Qed.

Lemma page_starts_inside s rel :
  (rel < page_count s)%nat -> N.of_nat rel * PAGE_SIZE < UserLoadSegment.memory_size s.
Proof.
  unfold page_count. pose proof (div_ceil_spec (UserLoadSegment.memory_size s) PAGE_SIZE ltac:(done)).
  set (c := div_ceil _ _) in *. clearbody c. unfold PAGE_SIZE in *. lia.
Qed.

(** The pages of a segment of an isolated process are below the limit. *)
Lemma page_bound image s rel :
  segment_ok image s ->
  UserLoadSegment.virtual_address s + UserLoadSegment.memory_size s <= CHILD_IMAGE_LIMIT ->
  (rel < page_count s)%nat -> (first_page s + rel < CHILD_IMAGE_PAGES)%nat.
Proof.
  intros Hok Hend Hrel%page_starts_inside. rewrite (first_page_start _ _ Hok) in Hend.
  unfold CHILD_IMAGE_LIMIT, CHILD_IMAGE_PAGES, PAGE_SIZE in *. lia.
Qed.

Lemma pages_disjoint image s1 s2 r1 r2 :
  segment_ok image s1 -> segment_ok image s2 -> apart s1 s2 ->
  (r1 < page_count s1)%nat -> (r2 < page_count s2)%nat ->
  (first_page s1 + r1 <> first_page s2 + r2)%nat.
Proof.
  intros Hok1 Hok2 Hap Hr1%page_starts_inside Hr2%page_starts_inside. unfold apart in Hap.
  rewrite (first_page_start _ _ Hok1), (first_page_start _ _ Hok2) in Hap.
  unfold PAGE_SIZE in *. lia.
Qed.
End plans.

(** ** The construction *)

(** The pages of some segments, as a map from page index to the segment and the
    number of the page in it. *)
Definition pages_of (s : UserLoadSegment.t) (n : nat) : list (nat * (UserLoadSegment.t * nat)) :=
  (fun rel => ((first_page s + rel)%nat, (s, rel))) <$> seq 0 n.

Definition plan_pages (segments : list UserLoadSegment.t)
  : list (nat * (UserLoadSegment.t * nat)) :=
  segments ≫= (fun s => pages_of s (page_count s)).

Notation pagemap := (gmap nat (UserLoadSegment.t * nat)).

(** The bytes of a page of a segment. *)
Definition page_bytes (image : list N) (x : UserLoadSegment.t * nat) : list N :=
  let offset := N.of_nat x.2 * PAGE_SIZE in
  let n := N.to_nat (N.min (UserLoadSegment.file_size x.1 - offset) PAGE_SIZE) in
  sub_bytes image (N.to_nat (UserLoadSegment.file_offset x.1 + offset)) n
  ++ replicate (N.to_nat PAGE_SIZE - n) 0.

Definition pages_view (image : list N) (m : pagemap) : list (list N) :=
  (fun i => from_option (page_bytes image) ChildStorage.zeroed (m !! i)) <$> seq 0 CHILD_IMAGE_PAGES.

Definition STACK_FIRST : nat := PAGE_TABLE_ENTRIES - CHILD_STACK_PAGES.

(** The tables: the top level once the first [k] kernel entries are copied, [h]
    when the hierarchy is linked, the stack's table with [n] pages, and the
    image's table with the pages of [m]. *)
Definition view (layout : Layout.t) (kernel : PageTable.t) (k : nat) (h : bool) (n : nat) (m : pagemap)
  : ChildStorage.table -> nat -> option N := fun w j =>
  let link (t : ChildStorage.table) :=
    if h then Some (N.lor (Layout.table layout t) HIERARCHY) else None in
  match w with
  | ChildStorage.Pml4 =>
      if decide (j = USER_PML4_INDEX) then link ChildStorage.Pdpt
      else if decide (j < k)%nat
      then (fun raw => N.ldiff raw PageTableEntry.USER) <$> PageTable.raw_entry kernel j else None
  | ChildStorage.Pdpt => if decide (j = USER_PDPT_INDEX) then link ChildStorage.Pd else None
  | ChildStorage.Pd =>
      if decide (j = USER_IMAGE_FIRST_PD_INDEX) then link ChildStorage.ImagePt
      else if decide (j = user_pd_index USER_STACK_BASE) then link ChildStorage.StackPt else None
  | ChildStorage.ImagePt =>
      (fun x => N.lor (Layout.image_page layout j) (segment_flags x.1)) <$> m !! j
  | ChildStorage.StackPt =>
      if decide (STACK_FIRST <= j < STACK_FIRST + n)%nat
      then Some (N.lor (Layout.stack_page layout (j - STACK_FIRST)) STACK_FLAGS) else None
  end.

(** A segment an isolated process may have. *)
Definition child_segment (image : list N) (seg : UserLoadSegment.t) : Prop :=
  segment_ok image seg
  /\ UserLoadSegment.virtual_address seg + UserLoadSegment.memory_size seg <= CHILD_IMAGE_LIMIT.

Lemma elem_of_plan_pages segments i x :
  (i, x) ∈ plan_pages segments <->
  x.1 ∈ segments /\ (x.2 < page_count x.1)%nat /\ i = (first_page x.1 + x.2)%nat.
Proof.
  unfold plan_pages, pages_of. rewrite list_elem_of_bind. setoid_rewrite list_elem_of_fmap.
  setoid_rewrite elem_of_seq. destruct x as [seg rel]. simpl. split.
  - intros (seg'&(rel'&[= -> -> ->]&?)&?). split_and!; [done|lia|done].
  - intros (?&?&->). exists seg. split; [|done]. exists rel. split; [done|lia].
Qed.

Lemma pages_of_S seg n :
  pages_of seg (n + 1) = pages_of seg n ++ [((first_page seg + n)%nat, (seg, n))].
Proof. unfold pages_of. by rewrite seq_app, fmap_app. Qed.

Lemma page_fresh image pre seg rel :
  child_segment image seg -> Forall (child_segment image) pre -> Forall (fun e => apart e seg) pre ->
  (rel < page_count seg)%nat ->
  (first_page seg + rel)%nat ∉ (plan_pages pre ++ pages_of seg rel).*1.
Proof.
  intros [Hok _] Hpre Hap Hrel. rewrite list_elem_of_fmap. intros ([i x]&Hi&Hx). simpl in Hi. subst i.
  apply elem_of_app in Hx as [(Hin&Hr&Heq)%elem_of_plan_pages|Hx].
  - apply (proj1 (Forall_forall _ _) Hpre) in Hin as Hin'. destruct Hin' as [Hok' _].
    apply (proj1 (Forall_forall _ _) Hap) in Hin.
    by apply (pages_disjoint _ _ _ _ _ Hok' Hok Hin Hr Hrel).
  - unfold pages_of in Hx. apply list_elem_of_fmap in Hx as (r&[= Hr _]&Hlt%elem_of_seq). lia.
Qed.

Section construction.
Context (layout : Layout.t) (Hlayout : layout_ok layout).
Context (kernel : PageTable.t) (Hkernel : kernel_ok kernel).
Context (image : list N) (Hlen : len image <= ISIZE_MAX).
Implicit Types (s : ChildStorage.t) (m : pagemap).

Definition empty_pages : list (list N) := replicate CHILD_STACK_PAGES ChildStorage.zeroed.

(** A storage at some stage. *)
Definition stage (s : ChildStorage.t) (k : nat) (h : bool) (n : nat) (m : pagemap) : Prop :=
  sees s (view layout kernel k h n m) (pages_view image m) empty_pages.

Lemma sees_ext s v v' ip sp : sees s v ip sp -> (forall w i, v w i = v' w i) -> sees s v' ip sp.
Proof. intros [? He ? ?] Hv. split; try done. intros w i. by rewrite He. Qed.

Lemma fill_zeroed page : length page = N.to_nat PAGE_SIZE -> ChildStorage.fill page = ChildStorage.zeroed.
Proof.
  intros Hl. unfold ChildStorage.fill, ChildStorage.zeroed. rewrite <-Hl.
  clear Hl. induction page as [|b page IH]; csimpl; [done|by rewrite IH].
Qed.

Lemma fill_pages pages n :
  length pages = n -> Forall (fun page => length page = N.to_nat PAGE_SIZE) pages ->
  ChildStorage.fill <$> pages = replicate n ChildStorage.zeroed.
Proof.
  intros <-. induction 1 as [|page pages Hp _ IH]; [done|].
  rewrite fmap_cons, fill_zeroed, IH by done. done.
Qed.

Lemma clear_stage s : storage_ok s -> stage (ChildStorage.clear s) 0 false 0 ∅.
Proof.
  intros [Ht [Hil Hip] [Hsl Hsp]]. split.
  - intros w. specialize (Ht w). destruct s, w; simpl in *; by rewrite length_fmap.
  - intros w i.
    assert (Hnone : PageTable.raw_entry (ChildStorage.get (ChildStorage.clear s) w) i = None).
    { destruct s, w; unfold PageTable.raw_entry; simpl; rewrite list_lookup_fmap; by destruct (_ !! i). }
    rewrite Hnone. unfold view. destruct w; rewrite ?lookup_empty; repeat case_decide; (done || lia).
  - simpl. rewrite (fill_pages _ _ Hil Hip). unfold pages_view.
    apply list_eq. intros i. rewrite list_lookup_fmap.
    destruct (decide (i < CHILD_IMAGE_PAGES)%nat) as [Hi|Hi].
    + rewrite lookup_seq_lt by done. rewrite lookup_replicate_2 by done. done.
    + rewrite lookup_seq_ge by lia. apply lookup_ge_None. rewrite length_replicate. lia.
  - simpl. by apply fill_pages.
Qed.

(** The element of a counting loop. *)
Lemma seq_split_at n pre x post :
  seq 0 n = pre ++ x :: post -> x = length pre /\ (x < n)%nat.
Proof.
  intros H. assert (Hx : seq 0 n !! length pre = Some x).
  { rewrite H, lookup_app_r, Nat.sub_diag by done. done. }
  by apply lookup_seq in Hx as [-> ?].
Qed.

Lemma copy_kernel_runs s :
  stage s 0 false 0 ∅ ->
  runs (for_each (seq 0 PAGE_TABLE_ENTRIES) (copy_kernel_entry kernel)) s
    (fun _ s => stage s PAGE_TABLE_ENTRIES false 0 ∅).
Proof.
  intros H0. cut (runs (for_each (seq 0 PAGE_TABLE_ENTRIES) (copy_kernel_entry kernel)) s
    (fun _ s => stage s (length (seq 0 PAGE_TABLE_ENTRIES)) false 0 ∅)); [by rewrite length_seq|].
  apply (runs_for_each _ (fun pre s => stage s (length pre) false 0 ∅)); [done|].
  clear s H0. intros pre x post s [-> Hx]%seq_split_at H. rewrite length_app. cbn [length].
  unfold copy_kernel_entry.
  assert (Hskip : (length pre = USER_PML4_INDEX \/ PageTable.raw_entry kernel (length pre) = None) ->
    stage s (length pre + 1) false 0 ∅).
  { intros Hor. eapply sees_ext; [exact H|]. intros [] j; try done. unfold view.
    repeat case_decide; try done; try lia. assert (j = length pre) as -> by lia.
    destruct Hor as [Hor|Hor]; [done|by rewrite Hor]. }
  case_decide as Hu; [apply runs_ret, Hskip; by left|].
  destruct (PageTable.raw_entry kernel (length pre)) as [raw|] eqn:Hraw.
  2: { apply runs_ret, Hskip. by right. }
  destruct (replace_empty_fills s _ _ _ ChildStorage.Pml4 (length pre) (N.ldiff raw PageTableEntry.USER) H)
    as [table Ht]; [done| |by eapply Hkernel|].
  { unfold view. rewrite decide_False by done. rewrite decide_False by lia. done. }
  exists tt. eexists. change (ChildStorage.pml4 s) with (ChildStorage.get s ChildStorage.Pml4).
  rewrite Ht. split; [done|]. eapply sees_ext; [by eapply sees_fill|].
  intros w j. unfold upd, view. destruct w; try (by rewrite decide_False by (by intros [? _])).
  repeat case_decide; try lia; try done; try naive_solver lia.
  - destruct_and!. subst. by rewrite Hraw.
Qed.

Lemma map_stack_runs s :
  stage s PAGE_TABLE_ENTRIES true 0 ∅ ->
  runs (for_each (seq 0 CHILD_STACK_PAGES) (map_stack_page layout)) s
    (fun _ s => stage s PAGE_TABLE_ENTRIES true CHILD_STACK_PAGES ∅).
Proof.
  intros H0. cut (runs (for_each (seq 0 CHILD_STACK_PAGES) (map_stack_page layout)) s
    (fun _ s => stage s PAGE_TABLE_ENTRIES true (length (seq 0 CHILD_STACK_PAGES)) ∅));
    [by rewrite length_seq|].
  apply (runs_for_each _ (fun pre s => stage s PAGE_TABLE_ENTRIES true (length pre) ∅)); [done|].
  clear s H0. intros pre x post s [-> Hx]%seq_split_at H. rewrite length_app. cbn [length].
  unfold map_stack_page. pose proof (layout_stack _ Hlayout _ Hx) as Ha. fold STACK_FIRST.
  eapply runs_bind; [rewrite (frame_aligned _ Ha); by apply (runs_lift _ _ (fun a s' =>
    a = Layout.stack_page layout (length pre) /\ s' = s))|].
  intros a ? [-> ->]. eapply map_leaf_in_runs; [exact H| | |exact Ha|done|].
  - unfold STACK_FIRST, CHILD_STACK_PAGES, PAGE_TABLE_ENTRIES in *. lia.
  - unfold view. rewrite decide_False by lia. done.
  - intros s' Hs'. eapply sees_ext; [exact Hs'|].
    intros w j. unfold upd, view. destruct w; try (by rewrite decide_False by (by intros [? _])).
    repeat case_decide; try lia; try done; try naive_solver lia.
    destruct_and!. subst. do 3 f_equal. lia.
Qed.

(** *** Loading one page *)

Lemma pages_view_lookup m i :
  (i < CHILD_IMAGE_PAGES)%nat ->
  pages_view image m !! i = Some (from_option (page_bytes image) ChildStorage.zeroed (m !! i)).
Proof. intros Hi. unfold pages_view. by rewrite list_lookup_fmap, lookup_seq_lt. Qed.

Lemma pages_view_insert m i x :
  (i < CHILD_IMAGE_PAGES)%nat ->
  <[i := page_bytes image x]> (pages_view image m) = pages_view image (<[i := x]> m).
Proof.
  intros Hi. apply list_eq. intros j.
  assert (Hl : forall m', length (pages_view image m') = CHILD_IMAGE_PAGES)
    by (intros; unfold pages_view; by rewrite length_fmap, length_seq).
  destruct (decide (j < CHILD_IMAGE_PAGES)%nat) as [Hj|Hj].
  - rewrite (pages_view_lookup _ j Hj). destruct (decide (i = j)) as [->|Hne].
    + rewrite list_lookup_insert_eq by (by rewrite Hl). by rewrite lookup_insert_eq.
    + rewrite list_lookup_insert_ne, pages_view_lookup by done. by rewrite lookup_insert_ne.
  - rewrite !lookup_ge_None_2; [done|..]; rewrite ?length_insert, Hl; lia.
Qed.

Lemma segment_flags_present seg : N.testbit (segment_flags seg) 0 = true.
Proof. unfold segment_flags. by repeat case_decide. Qed.

(** Writing a page that was zero. *)
Lemma page_written seg rel :
  let offset := N.of_nat rel * PAGE_SIZE in
  let n := N.min (UserLoadSegment.file_size seg - offset) PAGE_SIZE in
  segment_ok image seg ->
  copy_into ChildStorage.zeroed 0
    (sub_bytes image (N.to_nat (UserLoadSegment.file_offset seg + offset)) (N.to_nat n))
  = Ret (page_bytes image (seg, rel)).
Proof.
  intros offset n Hok. pose proof (segment_in_file _ _ Hok) as Hfile. unfold len in Hfile.
  set (start := N.to_nat (UserLoadSegment.file_offset seg + offset)).
  assert (Hn : n <= PAGE_SIZE) by (unfold n; lia).
  assert (Hl : length (sub_bytes image start (N.to_nat n)) = N.to_nat n).
  { unfold sub_bytes. rewrite length_take, length_drop. unfold start, n.
    destruct (decide (offset <= UserLoadSegment.file_size seg)); lia. }
  rewrite copy_into_Ret; rewrite Hl.
  - unfold page_bytes. cbn [fst snd]. fold offset. fold n. fold start. f_equal.
    unfold ChildStorage.zeroed. rewrite drop_replicate. done.
  - unfold ChildStorage.zeroed. rewrite length_replicate. lia.
Qed.

Lemma load_page_runs s m seg rel :
  segment_ok image seg -> (first_page seg + rel < CHILD_IMAGE_PAGES)%nat ->
  m !! (first_page seg + rel)%nat = None ->
  stage s PAGE_TABLE_ENTRIES true CHILD_STACK_PAGES m ->
  runs (load_page layout image seg (first_page seg) rel) s
    (fun _ s => stage s PAGE_TABLE_ENTRIES true CHILD_STACK_PAGES
                  (<[(first_page seg + rel)%nat := (seg, rel)]> m)).
Proof.
  intros Hok Hi Hm H. set (i := (first_page seg + rel)%nat) in *.
  pose proof (segment_in_file _ _ Hok) as Hfile.
  assert (Hpage : ChildStorage.image_pages s !! i = Some ChildStorage.zeroed).
  { rewrite (sees_image _ _ _ _ H), pages_view_lookup by done. by rewrite Hm. }
  unfold load_page, runs. fold i. rewrite Hpage. cbv zeta.
  set (offset := N.of_nat rel * PAGE_SIZE).
  set (n := N.min (UserLoadSegment.file_size seg - offset) PAGE_SIZE).
  assert (Hwrite : runs (if decide (n <> 0) then fun s =>
      let! start := u64_add (UserLoadSegment.file_offset seg) offset in
      let! stop := u64_add start n in
      if decide (len image < stop) then Ret (Err UserProcessError.ImageOutOfBounds, s)
      else
        let! page := copy_into ChildStorage.zeroed 0
                       (sub_bytes image (N.to_nat start) (N.to_nat n)) in
        Ret (Ok tt, ChildStorage.set_image_page s i page)
      else ret tt) s (fun _ s => sees s (view layout kernel PAGE_TABLE_ENTRIES true CHILD_STACK_PAGES m)
        (pages_view image (<[i := (seg, rel)]> m)) empty_pages)).
  { rewrite <-pages_view_insert by done. case_decide as Hn.
    - unfold runs, u64_add, ISIZE_MAX, U64_MAX in *.
      rewrite decide_True by (unfold n in *; lia). rewrite decide_True by (unfold n in *; lia).
      rewrite decide_False by (unfold n in *; lia).
      unfold n, offset. rewrite page_written by done. eexists tt, _. split; [done|].
      destruct H as [? ? Hip ?]. split; try done.
      simpl. by rewrite Hip.
    - apply runs_ret. destruct H as [? ? Hip ?]. split; try done. rewrite Hip.
      rewrite list_insert_id; [done|]. rewrite pages_view_lookup, Hm by done. simpl. f_equal.
      unfold page_bytes. cbn [fst snd]. fold offset. fold n. rewrite Hn.
      change (N.to_nat 0) with 0%nat. by rewrite Nat.sub_0_r. }
  eapply runs_bind; [exact Hwrite|]. intros [] s1 H1. cbn beta.
  pose proof (layout_image _ Hlayout _ Hi) as Ha. rewrite (frame_aligned _ Ha).
  eapply runs_bind; [by apply (runs_lift _ _ (fun a s' => a = Layout.image_page layout i /\ s' = s1))|].
  intros a ? [-> ->]. eapply map_leaf_in_runs; [exact H1| | |exact Ha|apply segment_flags_present|].
  - unfold CHILD_IMAGE_PAGES, PAGE_TABLE_ENTRIES in *. lia.
  - unfold view. by rewrite Hm.
  - intros s' Hs'. eapply sees_ext; [exact Hs'|].
    intros w j. unfold upd, view. destruct w; try (by rewrite decide_False by (by intros [? _])).
    destruct (decide (i = j)) as [<-|Hne].
    + rewrite decide_True by done. by rewrite lookup_insert_eq.
    + rewrite decide_False by naive_solver. by rewrite lookup_insert_ne.
Qed.

(** *** Loading the segments *)

Lemma load_segment_runs s pre seg :
  child_segment image seg -> Forall (child_segment image) pre -> Forall (fun e => apart e seg) pre ->
  stage s PAGE_TABLE_ENTRIES true CHILD_STACK_PAGES (list_to_map (plan_pages pre)) ->
  runs (load_segment layout image seg) s (fun _ s =>
    stage s PAGE_TABLE_ENTRIES true CHILD_STACK_PAGES (list_to_map (plan_pages (pre ++ [seg])))).
Proof.
  intros Hseg Hpre Hap H. unfold load_segment.
  destruct (segment_in_image _ _ (proj1 Hseg)) as [Hlo _].
  eapply (runs_bind _ _ _ (fun d s' => d = UserLoadSegment.virtual_address seg - USER_IMAGE_BASE /\ s' = s)).
  { eexists _, s. unfold exec, u64_sub. by rewrite decide_True by done. }
  intros d ? [-> ->]. cbv zeta. fold (first_page seg). fold (page_count seg).
  replace (plan_pages (pre ++ [seg])) with (plan_pages pre ++ pages_of seg (page_count seg)).
  2: { unfold plan_pages. rewrite bind_app. csimpl. by rewrite app_nil_r. }
  cut (runs (for_each (seq 0 (page_count seg)) (load_page layout image seg (first_page seg))) s
    (fun _ s => stage s PAGE_TABLE_ENTRIES true CHILD_STACK_PAGES
       (list_to_map (plan_pages pre ++ pages_of seg (length (seq 0 (page_count seg)))))));
    [by rewrite length_seq|].
  apply (runs_for_each _ (fun loaded s => stage s PAGE_TABLE_ENTRIES true CHILD_STACK_PAGES
    (list_to_map (plan_pages pre ++ pages_of seg (length loaded))))).
  { simpl. by rewrite app_nil_r. }
  clear s H. intros loaded rel post s [-> Hrel]%seq_split_at H.
  rewrite length_app. cbn [length]. rewrite pages_of_S, (assoc_L (++)).
  pose proof (page_fresh image pre seg (length loaded) Hseg Hpre Hap Hrel) as Hfresh.
  rewrite list_to_map_snoc by done. destruct Hseg as [Hok Hend].
  apply load_page_runs; [done|by eapply page_bound|by apply not_elem_of_list_to_map_1|done].
Qed.

Lemma load_segments_runs s segments :
  Forall (child_segment image) segments -> clear_of [] segments ->
  stage s PAGE_TABLE_ENTRIES true CHILD_STACK_PAGES ∅ ->
  runs (for_each segments (load_segment layout image)) s (fun _ s =>
    stage s PAGE_TABLE_ENTRIES true CHILD_STACK_PAGES (list_to_map (plan_pages segments))).
Proof.
  intros Hok Hclear H. apply (runs_for_each _ (fun pre s =>
    stage s PAGE_TABLE_ENTRIES true CHILD_STACK_PAGES (list_to_map (plan_pages pre)))); [done|].
  clear s H. intros pre seg post s -> H. apply Forall_app in Hok as [Hpre [Hseg _]%Forall_cons].
  apply load_segment_runs; [done|done|by apply clear_of_before in Hclear as [_ ?]|done].
Qed.

(** *** The whole construction *)

Lemma build_runs s plan segments :
  storage_ok s -> validate_child_plan plan image = Ret (Ok tt) -> child_plan image plan segments ->
  runs (build_child_address_space layout plan image kernel) s (fun context s =>
    context = ChildContext.mk CHILD_PROCESS_ID (UserLoadPlan.entry plan) (USER_STACK_LIMIT - 8)
                (Layout.table layout ChildStorage.Pml4)
    /\ stage s PAGE_TABLE_ENTRIES true CHILD_STACK_PAGES (list_to_map (plan_pages segments))).
Proof.
  intros Hs Hv [Hsl Hok Hclear Hend _]. unfold build_child_address_space.
  pose proof (layout_tables _ Hlayout) as Ht.
  eapply (runs_bind _ _ _ (fun _ s' => s' = s)); [eexists tt, s; unfold exec; by rewrite Hv|].
  intros ? ? ->. eapply (runs_bind _ _ _ (fun _ s' => stage s' 0 false 0 ∅));
    [eexists tt, _; split; [done|by apply clear_stage]|].
  intros [] s1 H1. eapply runs_bind; [by apply copy_kernel_runs|]. intros [] s2 H2.
  rewrite !(frame_aligned _ (Ht _)).
  do 4 (eapply (runs_bind _ _ _ (fun a s' => a = _ /\ s' = s2)); [by apply runs_lift|];
    intros ? ? [-> ->]).
  eapply runs_map_leaf; [exact H2|by apply Nat.ltb_lt|done|apply Ht|done|]. intros s3 H3.
  eapply runs_map_leaf; [exact H3|by apply Nat.ltb_lt|done|apply Ht|done|]. intros s4 H4.
  eapply runs_map_leaf; [exact H4|by apply Nat.ltb_lt|done|apply Ht|done|]. intros s5 H5.
  eapply runs_map_leaf; [exact H5|by apply Nat.ltb_lt|done|apply Ht|done|]. intros s6 H6.
  assert (H7 : stage s6 PAGE_TABLE_ENTRIES true 0 ∅).
  { eapply sees_ext; [exact H6|]. intros w j. unfold upd, view.
    destruct w; repeat case_decide; naive_solver. }
  eapply runs_bind; [by apply map_stack_runs|]. intros [] s7 H8.
  eapply (runs_bind _ _ _ (fun x s' => x = segments /\ s' = s7));
    [eexists segments, s7; unfold exec; by rewrite Hsl|]. intros ? ? [-> ->].
  eapply runs_bind; [apply load_segments_runs; [|done|exact H8]|].
  { apply Forall_forall. intros e He. split; [by apply (proj1 (Forall_forall _ _) Hok)|].
    by apply (proj1 (Forall_forall _ _) Hend). }
  intros [] s8 H9. eapply (runs_bind _ _ _ (fun a s' => a = _ /\ s' = s8)); [by apply runs_lift|].
  intros ? ? [-> ->]. by apply runs_ret.
Qed.
End construction.
