(* ===== verification/ChildIsolation.v ===== *)
(** * Isolation of spawned processes

    What the address spaces of isolated processes guarantee: the processor's walk
    of the tables that [build_child_address_space] leaves behind, the contents
    of the pages, the kernel's checks of user pointers, and the slots in which
    the processes live (kernel/src/user_child.rs). *)

From stdpp Require Import prelude gmap.
From S2P Require Import Prelude BootContract Memory ProcessExit UserElf UserChild.

Local Open Scope N_scope.
Local Open Scope nagi_scope.
Import Proc.

(** ** The walk of the finished tables *)

Section entries.
Implicit Types (a e flags : N).

(** A mask of flags that leaves the address bits alone. *)
Definition flag_bits (flags : N) : Prop := N.land flags PAGE_TABLE_ADDRESS_MASK = 0.

Lemma frame_masked a : frame_address a -> N.land a PAGE_TABLE_ADDRESS_MASK = a.
Proof.
  intros [[q ->] Hlt]. change PAGE_TABLE_ADDRESS_MASK with (N.ldiff (N.ones 52) (N.ones 12)).
  rewrite land_frame. unfold frame. rewrite N.mod_small by done. change (2 ^ 12) with PAGE_SIZE.
  by rewrite N.div_mul.
Qed.

(** The frame of an entry is the address it was made from. *)
Lemma frame_entry a flags : frame_address a -> flag_bits flags -> frame (N.lor a flags) 12 = a.
Proof.
  intros Ha Hf. rewrite <-land_frame.
  change (N.ldiff (N.ones 52) (N.ones 12)) with PAGE_TABLE_ADDRESS_MASK.
  rewrite N.land_lor_distr_l, Hf, (frame_masked a Ha). apply N.lor_0_r.
Qed.

(** The flags of an entry are those it was made with. *)
Lemma entry_bit a flags b :
  frame_address a -> b < 12 \/ 52 <= b -> N.testbit (N.lor a flags) b = N.testbit flags b.
Proof.
  intros Ha Hb. rewrite N.lor_spec. assert (N.testbit a b = false) as ->; [|done].
  rewrite <-(frame_masked a Ha), N.land_spec.
  change PAGE_TABLE_ADDRESS_MASK with (N.ldiff (N.ones 52) (N.ones 12)). rewrite N.ldiff_spec.
  destruct Hb as [Hb|Hb].
  - rewrite (N.ones_spec_low 12 b) by lia. by rewrite !andb_false_r.
  - rewrite (N.ones_spec_high 52 b) by lia. by rewrite andb_false_r.
Qed.

Lemma segment_flag_bits seg : flag_bits (segment_flags seg).
Proof. unfold segment_flags, flag_bits. by repeat case_decide. Qed.

Lemma segment_flags_spec seg :
  N.testbit (segment_flags seg) 2 = true
  /\ N.testbit (segment_flags seg) 1 = N.testbit (UserLoadSegment.flags seg) 1
  /\ N.testbit (segment_flags seg) 63 = negb (N.testbit (UserLoadSegment.flags seg) 0).
Proof.
  unfold segment_flags. pose proof (land_pow2_zero (UserLoadSegment.flags seg) 1) as H1.
  pose proof (land_pow2_zero (UserLoadSegment.flags seg) 0) as H0.
  change (2 ^ 1) with PF_W in H1. change (2 ^ 0) with PF_X in H0.
  assert (Hw : N.testbit (UserLoadSegment.flags seg) 1
    = bool_decide (N.land (UserLoadSegment.flags seg) PF_W <> 0)).
  { destruct (N.testbit (UserLoadSegment.flags seg) 1); [rewrite bool_decide_true|rewrite bool_decide_false]; naive_solver. }
  assert (Hx : N.testbit (UserLoadSegment.flags seg) 0
    = negb (bool_decide (N.land (UserLoadSegment.flags seg) PF_X = 0))).
  { destruct (N.testbit (UserLoadSegment.flags seg) 0); [rewrite bool_decide_false|rewrite bool_decide_true]; naive_solver. }
  rewrite Hw, Hx. repeat case_decide; repeat case_bool_decide; done.
Qed.

(** An address and its indices at the four levels. *)
Lemma address_parts va :
  va < 2 ^ 48 ->
  exists i4 i3 i2 i1 off, i4 < 512 /\ i3 < 512 /\ i2 < 512 /\ i1 < 512 /\ off < 4096
    /\ va = i4 * 2 ^ 39 + i3 * 2 ^ 30 + i2 * 2 ^ 21 + i1 * 2 ^ 12 + off
    /\ va / 2 ^ 39 mod 512 = i4 /\ va / 2 ^ 30 mod 512 = i3 /\ va / 2 ^ 21 mod 512 = i2
    /\ va / 2 ^ 12 mod 512 = i1 /\ va mod 2 ^ 12 = off.
Proof.
  intros Hva. exists (va / 2 ^ 39 mod 512), (va / 2 ^ 30 mod 512), (va / 2 ^ 21 mod 512),
    (va / 2 ^ 12 mod 512), (va mod 2 ^ 12).
  assert (Hd : forall a k, va / 2 ^ a / 2 ^ k = va / 2 ^ (a + k))
    by (intros a k; by rewrite N.Div0.div_div, <-N.pow_add_r).
  pose proof (Hd 12 9) as H21. pose proof (Hd 21 9) as H30. pose proof (Hd 30 9) as H39.
  change (2 ^ 9) with 512 in H21, H30, H39. change (12 + 9) with 21 in H21.
  change (21 + 9) with 30 in H30. change (30 + 9) with 39 in H39.
  assert (Htop : va / 2 ^ 39 < 512) by (apply N.Div0.div_lt_upper_bound; exact Hva).
  rewrite (N.mod_small (va / 2 ^ 39)) by done. rewrite <-H21 in *. rewrite <-H30 in *. rewrite <-H39 in *.
  split_and!; try done; try (by apply N.mod_lt).
  pose proof (N.div_mod va (2 ^ 12) ltac:(done)) as H0. pose proof (N.div_mod (va / 2 ^ 12) 512 ltac:(done)) as H1.
  pose proof (N.div_mod (va / 2 ^ 12 / 512) 512 ltac:(done)) as H2.
  pose proof (N.div_mod (va / 2 ^ 12 / 512 / 512) 512 ltac:(done)) as H3. lia.
Qed.
End entries.

(** *** Which page an address is in *)

(** The page and the offset of an address of the image. *)
Lemma image_address va :
  USER_IMAGE_BASE <= va ->
  exists (p : nat) off, va = USER_IMAGE_BASE + N.of_nat p * PAGE_SIZE + off /\ off < PAGE_SIZE
    /\ N.to_nat ((va - USER_IMAGE_BASE) / PAGE_SIZE) = p /\ va mod PAGE_SIZE = off.
Proof.
  intros Hva. exists (N.to_nat ((va - USER_IMAGE_BASE) / PAGE_SIZE)), (va mod PAGE_SIZE).
  split_and!; [|by apply N.mod_lt|done|done]. rewrite N2Nat.id.
  assert (va mod PAGE_SIZE = (va - USER_IMAGE_BASE) mod PAGE_SIZE) as ->.
  { replace va with (va - USER_IMAGE_BASE + USER_IMAGE_BASE / PAGE_SIZE * PAGE_SIZE) at 1.
    - by rewrite N.Div0.mod_add.
    - change (USER_IMAGE_BASE / PAGE_SIZE * PAGE_SIZE) with USER_IMAGE_BASE. lia. }
  pose proof (N.div_mod (va - USER_IMAGE_BASE) PAGE_SIZE ltac:(done)). lia.
Qed.

Section owners.
Context (image : list N) (segments : list UserLoadSegment.t).
Context (Hok : Forall (child_segment image) segments) (Hclear : clear_of [] segments).

Lemma plan_pages_NoDup : NoDup (plan_pages segments).*1.
Proof.
  revert Hok Hclear. induction segments as [|seg pre IH] using rev_ind; [constructor|].
  intros [Hpre [Hseg _]%Forall_cons]%Forall_app [Hc Hap]%clear_of_before.
  unfold plan_pages. rewrite bind_app. csimpl. rewrite app_nil_r. fold (plan_pages pre).
  cut (forall n, (n <= page_count seg)%nat -> NoDup (plan_pages pre ++ pages_of seg n).*1);
    [intros Hn; by apply Hn|].
  induction n as [|n IHn]; intros Hn; [unfold pages_of; simpl; rewrite app_nil_r; by apply IH|].
  rewrite <-Nat.add_1_r, pages_of_S, (assoc_L (++)), fmap_app. apply NoDup_app.
  split_and!; [apply IHn; lia| |apply NoDup_singleton]. intros i Hi ->%list_elem_of_singleton.
  by apply (page_fresh image pre seg n Hseg Hpre Hap).
Qed.

Lemma in_pages_page (p : nat) off seg :
  child_segment image seg -> off < PAGE_SIZE ->
  in_pages (USER_IMAGE_BASE + N.of_nat p * PAGE_SIZE + off) seg <->
  (first_page seg <= p < first_page seg + page_count seg)%nat.
Proof.
  intros [Hseg _] Hoff. unfold in_pages. rewrite (first_page_start _ _ Hseg).
  unfold PAGE_SIZE in *. lia.
Qed.

Lemma in_pages_range va seg :
  child_segment image seg -> in_pages va seg -> USER_IMAGE_BASE <= va < CHILD_IMAGE_LIMIT.
Proof.
  intros [Hseg Hend] Hin. unfold in_pages in Hin. rewrite (first_page_start _ _ Hseg) in Hin.
  destruct (decide (page_count seg = 0%nat)) as [Hz|Hz]; [rewrite Hz in Hin; lia|].
  pose proof (page_bound image seg (page_count seg - 1) Hseg Hend ltac:(lia)) as Hb.
  unfold CHILD_IMAGE_LIMIT, CHILD_IMAGE_PAGES, PAGE_SIZE in *. lia.
Qed.

(** The page of a segment's address. *)
Lemma page_lookup (p : nat) off seg :
  off < PAGE_SIZE -> seg ∈ segments ->
  in_pages (USER_IMAGE_BASE + N.of_nat p * PAGE_SIZE + off) seg ->
  (list_to_map (plan_pages segments) : pagemap) !! p = Some (seg, (p - first_page seg)%nat).
Proof.
  intros Hoff Hseg Hin. pose proof (proj1 (Forall_forall _ _) Hok _ Hseg) as Hc.
  apply (in_pages_page _ _ _ Hc Hoff) in Hin.
  apply elem_of_list_to_map_1; [apply plan_pages_NoDup|].
  apply (elem_of_plan_pages segments p (seg, (p - first_page seg)%nat)). simpl. split_and!; [done|lia..].
Qed.

(** The map of pages and the search for the segment of an address agree. *)
Lemma page_owner (p : nat) off :
  off < PAGE_SIZE ->
  (list_to_map (plan_pages segments) : pagemap) !! p
  = (fun found => (found.2, (p - first_page found.2)%nat))
    <$> list_find (in_pages (USER_IMAGE_BASE + N.of_nat p * PAGE_SIZE + off)) segments.
Proof.
  intros Hoff. pose proof (proj1 (Forall_forall _ _) Hok) as Hall.
  destruct (list_find _ _) as [[k seg]|] eqn:E; simpl.
  - apply list_find_Some in E as (Hk&Hin&_). apply list_elem_of_lookup_2 in Hk.
    by apply (page_lookup _ off).
  - apply list_find_None in E. apply not_elem_of_list_to_map_1. rewrite list_elem_of_fmap.
    intros ([i x]&Hi&(Hin&Hr&Heq)%elem_of_plan_pages). simpl in Hi. subst p.
    apply (proj1 (Forall_forall _ _) E _ Hin). apply in_pages_page; [by apply Hall|done|lia].
Qed.

(** The segment whose pages hold an address is the one the search finds. *)
Lemma owner_found va seg :
  seg ∈ segments -> in_pages va seg ->
  exists k, list_find (in_pages va) segments = Some (k, seg).
Proof.
  intros Hseg Hin. pose proof (proj1 (Forall_forall _ _) Hok _ Hseg) as Hc.
  destruct (image_address va) as (p&off&->&Hoff&_); [by eapply in_pages_range|].
  pose proof (page_owner p off Hoff) as Ho. rewrite (page_lookup p off seg) in Ho by done.
  destruct (list_find _ _) as [[k seg']|]; [|done]. exists k. simpl in Ho. by simplify_eq.
Qed.
End owners.

(** Where the image and the stack are, from the image's base. *)
Lemma child_addresses :
  CHILD_IMAGE_LIMIT = USER_IMAGE_BASE + 256 * PAGE_SIZE
  /\ CHILD_STACK_BASE = USER_IMAGE_BASE + 256 * 2 ^ 21 + 496 * PAGE_SIZE
  /\ USER_STACK_LIMIT = USER_IMAGE_BASE + 256 * 2 ^ 21 + 512 * PAGE_SIZE
  /\ USER_IMAGE_BASE = 128 * 2 ^ 39.
Proof. split_and!; reflexivity. Qed.

Lemma page_index base i off :
  off < PAGE_SIZE -> (base + i * PAGE_SIZE + off - base) / PAGE_SIZE = i.
Proof.
  intros Hoff. replace (_ - base) with (off + i * PAGE_SIZE) by lia.
  by rewrite N.div_add, N.div_small.
Qed.

Section walk.
Context (layout : Layout.t) (Hlayout : layout_ok layout) (kernel : PageTable.t) (image : list N).
Context (segments : list UserLoadSegment.t) (s : ChildStorage.t) (read : N -> N).
Context (Hok : Forall (child_segment image) segments) (Hclear : clear_of [] segments).
Context (Hstage : stage layout kernel image s PAGE_TABLE_ENTRIES true CHILD_STACK_PAGES
                    (list_to_map (plan_pages segments))).
Context (Hread : holds_tables read layout s).

(** The entry memory holds. *)
Definition entry_of (w : ChildStorage.table) (i : N) : N :=
  from_option id 0 (view layout kernel PAGE_TABLE_ENTRIES true CHILD_STACK_PAGES
    (list_to_map (plan_pages segments)) w (N.to_nat i)).

Lemma read_entry w i : i < 512 -> read (Layout.table layout w + i * 8) = entry_of w i.
Proof.
  intros Hi. rewrite <-(N2Nat.id i) at 1. rewrite (Hread w (N.to_nat i)) by (unfold PAGE_TABLE_ENTRIES; lia).
  by rewrite (sees_entries _ _ _ _ Hstage).
Qed.

(** One level that links to the next table. *)
Lemma walk_link shift big levels va w t w' x :
  levels <> [] ->
  entry_of w (va / 2 ^ shift mod 512) = N.lor (Layout.table layout t) HIERARCHY ->
  user_walk read ((shift, big) :: levels) (Layout.table layout w) va w' x
  = user_walk read levels (Layout.table layout t) va w' x.
Proof.
  intros Hl He. cbn [user_walk]. rewrite read_entry by (by apply N.mod_lt). rewrite He.
  pose proof (layout_tables _ Hlayout t) as Ht.
  rewrite !(entry_bit _ _ _ Ht) by (left; done) || (right; done).
  change (N.testbit HIERARCHY 0) with true. change (N.testbit HIERARCHY 2) with true.
  change (N.testbit HIERARCHY 7) with false. change (N.testbit HIERARCHY 1) with true.
  change (N.testbit HIERARCHY 63) with false. rewrite bool_decide_false by done.
  by rewrite (frame_entry _ HIERARCHY Ht eq_refl), !andb_true_r, andb_false_r.
Qed.

(** A level user code has no access to. *)
Lemma walk_stop shift big levels va w w' x :
  N.testbit (entry_of w (va / 2 ^ shift mod 512)) 2 = false ->
  user_walk read ((shift, big) :: levels) (Layout.table layout w) va w' x = None.
Proof.
  intros He. cbn [user_walk]. rewrite read_entry by (by apply N.mod_lt).
  by rewrite He, andb_false_r.
Qed.

(** The entry of a page. *)
Lemma walk_leaf big va w a flags :
  entry_of w (va / 2 ^ 12 mod 512) = N.lor a flags ->
  frame_address a -> flag_bits flags -> N.testbit flags 0 = true -> N.testbit flags 2 = true ->
  user_walk read [(12, big)] (Layout.table layout w) va true true
  = Some (Access (a + va mod PAGE_SIZE) (N.testbit flags 1) (negb (N.testbit flags 63))).
Proof.
  intros He Ha Hf H0 H2. cbn [user_walk]. rewrite read_entry by (by apply N.mod_lt).
  rewrite He, !(entry_bit _ _ _ Ha) by (left; done) || (right; done).
  by rewrite H0, H2, (frame_entry _ _ Ha Hf).
Qed.

(** Away from the image's and the stack's addresses. *)
Lemma nothing_there va :
  ~ (USER_IMAGE_BASE <= va < CHILD_IMAGE_LIMIT) -> ~ (CHILD_STACK_BASE <= va < USER_STACK_LIMIT) ->
  child_access layout segments va = None.
Proof.
  intros Hi Hst. unfold child_access. rewrite decide_False by done.
  assert (list_find (in_pages va) segments = None) as ->; [|done].
  apply list_find_None, Forall_forall. intros seg Hseg Hin. apply Hi.
  apply (in_pages_range image va seg); [|done]. by apply (proj1 (Forall_forall _ _) Hok).
Qed.

(** The image's table. *)
Lemma walk_image (i : N) off :
  i < 512 -> off < PAGE_SIZE ->
  let va := USER_IMAGE_BASE + i * PAGE_SIZE + off in
  va / 2 ^ 12 mod 512 = i -> va mod PAGE_SIZE = off ->
  user_walk read [(12, true)] (Layout.table layout ChildStorage.ImagePt) va true true
  = child_access layout segments va.
Proof.
  intros Hi Hoff va Hidx Hmod. unfold child_access.
  destruct child_addresses as (Hlim&Hsb&_).
  rewrite decide_False by (rewrite Hsb; unfold va, PAGE_SIZE in *; lia).
  pose proof (page_owner image segments Hok Hclear (N.to_nat i) off Hoff) as Hown.
  rewrite N2Nat.id in Hown. fold va in Hown.
  destruct (list_find (in_pages va) segments) as [[k seg]|] eqn:E; simpl in Hown.
  - apply list_find_Some in E as (Hk%list_elem_of_lookup_2&Hin&_).
    apply (proj1 (Forall_forall _ _) Hok) in Hk.
    apply (in_pages_range image va seg Hk) in Hin.
    destruct (segment_flags_spec seg) as (H2&H1&H63).
    erewrite (walk_leaf _ _ _ (Layout.image_page layout (N.to_nat i)) (segment_flags seg)).
    + rewrite H1, H63, negb_involutive. do 4 f_equal.
      unfold va. by rewrite page_index.
    + rewrite Hidx. unfold entry_of. cbn [view]. by rewrite Hown.
    + apply (layout_image _ Hlayout). rewrite Hlim in Hin. unfold va, PAGE_SIZE, CHILD_IMAGE_PAGES in *. lia.
    + apply segment_flag_bits.
    + apply segment_flags_present.
    + done.
  - apply walk_stop. rewrite Hidx. unfold entry_of. cbn [view]. by rewrite Hown.
Qed.

(** The stack's table. *)
Lemma walk_stack (i : N) off :
  i < 512 -> off < PAGE_SIZE ->
  let va := USER_IMAGE_BASE + 256 * 2 ^ 21 + i * PAGE_SIZE + off in
  va / 2 ^ 12 mod 512 = i -> va mod PAGE_SIZE = off ->
  user_walk read [(12, true)] (Layout.table layout ChildStorage.StackPt) va true true
  = child_access layout segments va.
Proof.
  intros Hi Hoff va Hidx Hmod. destruct child_addresses as (Hlim&Hsb&Hsl&_).
  assert (Hva : va = CHILD_STACK_BASE + (i - 496) * PAGE_SIZE + off \/ i < 496)
    by (rewrite Hsb; unfold va; unfold PAGE_SIZE in *; lia).
  assert (He : entry_of ChildStorage.StackPt i
    = if decide (496 <= i) then N.lor (Layout.stack_page layout (N.to_nat (i - 496))) STACK_FLAGS else 0).
  { unfold entry_of. cbn [view]. change STACK_FIRST with 496%nat. unfold CHILD_STACK_PAGES.
    destruct (decide (496 <= i)); [rewrite decide_True by lia|rewrite decide_False by lia; done].
    cbn [from_option]. unfold id. do 2 f_equal. lia. }
  destruct (decide (496 <= i)) as [H496|H496].
  - destruct Hva as [Hva|]; [|lia]. rewrite (walk_leaf _ _ _ (Layout.stack_page layout (N.to_nat (i - 496))) STACK_FLAGS).
    + unfold child_access. rewrite decide_True.
      * rewrite Hva at 2. by rewrite page_index.
      * rewrite Hsb, Hsl. unfold va, PAGE_SIZE in *. lia.
    + by rewrite Hidx.
    + apply (layout_stack _ Hlayout). unfold CHILD_STACK_PAGES. lia.
    + done.
    + done.
    + done.
  - rewrite nothing_there, walk_stop; [done|by rewrite Hidx, He|..];
      rewrite ?Hlim, ?Hsb, ?Hsl; unfold va, PAGE_SIZE in *; lia.
Qed.

(** User code reaches what [child_access] says, and nothing else. *)
Lemma walk_exact va :
  va < 2 ^ 48 ->
  user_translate read (Layout.table layout ChildStorage.Pml4) va = child_access layout segments va.
Proof.
  intros (i4&i3&i2&i1&off&H4&H3&H2&H1&Hoff&Hva&E4&E3&E2&E1&Eoff)%address_parts.
  destruct child_addresses as (Hlim&Hsb&Hsl&Hbase). unfold user_translate.
  destruct (decide (i4 = 128)) as [->|N4].
  2: { rewrite walk_stop, nothing_there; [done|rewrite ?Hlim, ?Hsb, ?Hsl, ?Hbase; unfold PAGE_SIZE; lia..|].
       rewrite E4. unfold entry_of. cbn [view]. rewrite decide_False by (unfold USER_PML4_INDEX; lia).
       case_decide; [|done]. destruct (PageTable.raw_entry kernel (N.to_nat i4)); [|done].
       cbn [fmap option_fmap option_map from_option]. unfold id. rewrite N.ldiff_spec. by apply andb_false_r. }
  rewrite (walk_link _ _ _ _ _ ChildStorage.Pdpt) by (done || by rewrite E4).
  destruct (decide (i3 = 0)) as [->|N3].
  2: { rewrite walk_stop, nothing_there; [done|rewrite ?Hlim, ?Hsb, ?Hsl, ?Hbase; unfold PAGE_SIZE; lia..|].
       rewrite E3. unfold entry_of. cbn [view]. change USER_PDPT_INDEX with 0%nat.
       by rewrite decide_False by lia. }
  rewrite (walk_link _ _ _ _ _ ChildStorage.Pd) by (done || by rewrite E3).
  destruct (decide (i2 = 0)) as [->|N2a].
  { rewrite (walk_link _ _ _ _ _ ChildStorage.ImagePt) by (done || by rewrite E2).
    assert (va = USER_IMAGE_BASE + i1 * PAGE_SIZE + off) as -> by (rewrite Hbase; unfold PAGE_SIZE; lia).
    by apply walk_image. }
  destruct (decide (i2 = 256)) as [->|N2b].
  { rewrite (walk_link _ _ _ _ _ ChildStorage.StackPt) by (done || by rewrite E2).
    assert (va = USER_IMAGE_BASE + 256 * 2 ^ 21 + i1 * PAGE_SIZE + off) as ->
      by (rewrite Hbase; unfold PAGE_SIZE; lia).
    by apply walk_stack. }
  rewrite walk_stop, nothing_there; [done|rewrite ?Hlim, ?Hsb, ?Hsl, ?Hbase; unfold PAGE_SIZE; lia..|].
  rewrite E2. unfold entry_of. cbn [view]. change (user_pd_index USER_STACK_BASE) with 256%nat.
  change USER_IMAGE_FIRST_PD_INDEX with 0%nat.
  by rewrite !decide_False by lia.
Qed.
End walk.

(** ** The contents of the pages *)

Section contents.
Context (layout : Layout.t) (kernel : PageTable.t) (image : list N).
Context (segments : list UserLoadSegment.t) (s : ChildStorage.t).
Context (Hok : Forall (child_segment image) segments) (Hclear : clear_of [] segments).
Context (Hstage : stage layout kernel image s PAGE_TABLE_ENTRIES true CHILD_STACK_PAGES
                    (list_to_map (plan_pages segments))).

Lemma page_bytes_lookup seg rel (off : nat) :
  segment_ok image seg -> (off < N.to_nat PAGE_SIZE)%nat ->
  page_bytes image (seg, rel) !! off
  = Some (segment_byte image seg (N.of_nat rel * PAGE_SIZE + N.of_nat off)).
Proof.
  intros Hseg Hoff. pose proof (segment_in_file _ _ Hseg) as Hfile. unfold len in Hfile.
  unfold page_bytes, segment_byte, sub_bytes, byte_at. cbn [fst snd].
  set (o := N.of_nat rel * PAGE_SIZE) in *.
  set (n := N.to_nat (N.min (UserLoadSegment.file_size seg - o) PAGE_SIZE)) in *.
  destruct (decide (o + N.of_nat off < UserLoadSegment.file_size seg)) as [Hin|Hout].
  - assert (off < n)%nat by lia. rewrite lookup_app_l by (rewrite length_take, length_drop; lia).
    rewrite lookup_take_lt, lookup_drop by done.
    replace (N.to_nat (UserLoadSegment.file_offset seg + (o + N.of_nat off)))
      with (N.to_nat (UserLoadSegment.file_offset seg + o) + off)%nat by lia.
    destruct (lookup_lt_is_Some_2 image (N.to_nat (UserLoadSegment.file_offset seg + o) + off)) as [b Hb];
      [lia|]. rewrite Hb. by rewrite (nth_lookup_Some _ _ _ _ Hb).
  - assert (n <= off)%nat by lia.
    assert (length (take n (drop (N.to_nat (UserLoadSegment.file_offset seg + o)) image)) = n)
      as Hl by (rewrite length_take, length_drop; lia).
    rewrite lookup_app_r by lia. rewrite Hl. apply lookup_replicate_2. lia.
Qed.

(** A byte of the image is where the file says. *)
Lemma image_contents va seg :
  seg ∈ segments -> in_pages va seg ->
  (ChildStorage.image_pages s !! N.to_nat ((va - USER_IMAGE_BASE) / PAGE_SIZE)
    ≫= (.!! N.to_nat (va mod PAGE_SIZE)))
  = Some (segment_byte image seg (va - UserLoadSegment.virtual_address seg)).
Proof.
  intros Hseg Hin. pose proof (proj1 (Forall_forall _ _) Hok _ Hseg) as Hc.
  pose proof (in_pages_range image va seg Hc Hin) as Hr.
  destruct (image_address va (proj1 Hr)) as (p&off&->&Hoff&->&->).
  apply (in_pages_page image _ _ _ Hc Hoff) in Hin as Hp. destruct Hc as [Hsok Hend].
  rewrite (sees_image _ _ _ _ Hstage), pages_view_lookup
    by (destruct child_addresses as [Hlim _]; unfold CHILD_IMAGE_PAGES, PAGE_SIZE in *; lia).
  rewrite (page_lookup image segments Hok Hclear p off seg) by done.
  cbn. rewrite page_bytes_lookup by (done || lia). do 2 f_equal.
  rewrite (first_page_start _ _ Hsok). unfold PAGE_SIZE in *. lia.
Qed.
End contents.

(** ** What is promised of a prepared process *)

Record isolated (layout : Layout.t) (kernel : PageTable.t) (image : list N)
  (segments : list UserLoadSegment.t) (s : ChildStorage.t) : Prop := {
  (** The processor's walk, for user code. *)
  isolated_access : forall read va, holds_tables read layout s -> va < 2 ^ 48 ->
    user_translate read (Layout.table layout ChildStorage.Pml4) va = child_access layout segments va;
  (** No page is both writable and executable. *)
  isolated_w_xor_x : forall va a, child_access layout segments va = Some a ->
    ~ (writable a = true /\ executable a = true);
  (** The other top-level entries are the kernel's, closed to user code. *)
  isolated_kernel : forall i, (i < PAGE_TABLE_ENTRIES)%nat -> i <> USER_PML4_INDEX ->
    PageTable.raw_entry (ChildStorage.pml4 s) i
    = (fun raw => N.ldiff raw PageTableEntry.USER) <$> PageTable.raw_entry kernel i;
  (** The file's bytes where its segments say, zero after them. *)
  isolated_contents : forall va seg, seg ∈ segments -> in_pages va seg ->
    (ChildStorage.image_pages s !! N.to_nat ((va - USER_IMAGE_BASE) / PAGE_SIZE)
      ≫= (.!! N.to_nat (va mod PAGE_SIZE)))
    = Some (segment_byte image seg (va - UserLoadSegment.virtual_address seg));
  isolated_stack : ChildStorage.stack_pages s = replicate CHILD_STACK_PAGES ChildStorage.zeroed
}.

Lemma plan_child_segments image plan segments :
  child_plan image plan segments -> Forall (child_segment image) segments.
Proof.
  intros [_ Hok _ Hend _]. apply Forall_forall. intros e He.
  split; [by apply (proj1 (Forall_forall _ _) Hok)|by apply (proj1 (Forall_forall _ _) Hend)].
Qed.

Lemma stage_isolated layout kernel image segments s :
  layout_ok layout -> Forall (child_segment image) segments -> clear_of [] segments ->
  stage layout kernel image s PAGE_TABLE_ENTRIES true CHILD_STACK_PAGES
    (list_to_map (plan_pages segments)) ->
  isolated layout kernel image segments s.
Proof.
  intros Hl Hok Hc Hs. split.
  - intros read va Hread Hva. by eapply walk_exact.
  - intros va a. unfold child_access. case_decide; [by intros [= <-] [_ ?]|].
    destruct (list_find _ _) as [[k seg]|] eqn:E; [|done]. intros [= <-] [Hw Hx]. simpl in *.
    apply list_find_Some in E as (Hk%list_elem_of_lookup_2&_).
    apply (proj1 (Forall_forall _ _) Hok) in Hk as [Hk _]. by apply (segment_w_xor_x _ _ Hk).
  - intros i Hi Hne. change (ChildStorage.pml4 s) with (ChildStorage.get s ChildStorage.Pml4).
    rewrite (sees_entries _ _ _ _ Hs). cbn [view]. by rewrite decide_False, decide_True.
  - intros va seg. by eapply image_contents.
  - apply (sees_stack _ _ _ _ Hs).
Qed.

(** The entry point of an accepted plan can be executed. *)
Lemma entry_access layout image plan segments :
  child_plan image plan segments ->
  exists a, child_access layout segments (UserLoadPlan.entry plan) = Some a /\ executable a = true.
Proof.
  intros Hp. pose proof (plan_child_segments _ _ _ Hp) as Hok.
  pose proof (child_segments_apart _ _ _ Hp) as Hclear.
  pose proof (child_entry _ _ _ Hp) as (seg&Hseg&He)%Exists_exists.
  pose proof (proj1 (Forall_forall _ _) Hok _ Hseg) as [Hsok _].
  apply (executable_iff image _ _ Hsok) in He as [Hx Hr].
  assert (Hin : in_pages (UserLoadPlan.entry plan) seg).
  { unfold in_pages, page_count. rewrite N2Nat.id.
    pose proof (div_ceil_spec (UserLoadSegment.memory_size seg) PAGE_SIZE ltac:(done)).
    pose proof (segment_file _ _ Hsok). lia. }
  destruct (owner_found image segments Hok Hclear _ seg Hseg Hin) as [k Hk].
  unfold child_access. rewrite decide_False, Hk; [by eexists|].
  apply (in_pages_range image) in Hin; [|by apply (proj1 (Forall_forall _ _) Hok)].
  destruct child_addresses as (Hlim&Hsb&_). unfold PAGE_SIZE in *. lia.
Qed.

(** C1: preparing an isolated process from a plan that passes the checks
    succeeds, with a context whose entry point can be executed. User code of the
    new address space reaches, by the processor's walk of its page tables, the
    pages of its segments with the rights their flags give and its sixteen stack
    pages, and no other memory: nothing of the kernel and nothing of another
    process. No page is writable and executable, the image's bytes are the
    file's followed by zeroes, and the stack is zero whatever the storage held
    before. *)
Theorem child_isolated layout kernel plan image s :
  layout_ok layout -> kernel_ok kernel -> len image <= ISIZE_MAX -> storage_ok s ->
  validate_child_plan plan image = Ret (Ok tt) ->
  exists segments s',
    slice_to (UserLoadPlan.segments plan) (UserLoadPlan.segment_count plan) = Ret segments
    /\ build_child_address_space layout plan image kernel s
       = Ret (Ok (ChildContext.mk CHILD_PROCESS_ID (UserLoadPlan.entry plan) (USER_STACK_LIMIT - 8)
                    (Layout.table layout ChildStorage.Pml4)), s')
    /\ (exists a, child_access layout segments (UserLoadPlan.entry plan) = Some a
                  /\ executable a = true)
    /\ isolated layout kernel image segments s'.
Proof.
  intros Hl Hk Hlen Hs Hv. destruct (validate_child_plan_Ok _ _ Hv) as [segments Hp].
  destruct (build_runs layout Hl kernel Hk image Hlen s plan segments Hs Hv Hp) as (context&s'&Hb&->&Hst).
  exists segments, s'. split_and!; [apply Hp|done|by eapply entry_access|].
  apply stage_isolated; [done|by eapply plan_child_segments|apply Hp|done].
Qed.

(** ** The kernel's checks of user pointers *)

Inductive right := Reads | Writes | Executes.

(** An access is possible, with the right asked for. *)
Definition permits (r : right) (o : option access) : Prop :=
  exists a, o = Some a
    /\ match r with Reads => True | Writes => writable a = true | Executes => executable a = true end.

(** What the checks ask of an entry. *)
Definition entry_permits (r : right) (e : N) : Prop :=
  N.testbit e 0 = true /\ N.testbit e 2 = true
  /\ match r with
     | Reads => True | Writes => N.testbit e 1 = true | Executes => N.testbit e 63 = false
     end.

(** The shape of the checks. *)
Definition range_check (table : PageTable.t) (base limit address length : N) (P : N -> Prop)
  `{forall e, Decision (P e)} : bool :=
  if decide (length = 0 \/ address < base) then false
  else
    match u64_checked_add address length with
    | None => false
    | Some stop =>
        if decide (limit < stop) then false
        else all_entries table ((address - base) / PAGE_SIZE) ((stop - 1 - base) / PAGE_SIZE) P
    end.

Lemma page_split d : exists q r, d / PAGE_SIZE = q /\ r < PAGE_SIZE /\ d = q * PAGE_SIZE + r.
Proof.
  exists (d / PAGE_SIZE), (d mod PAGE_SIZE). split_and!; [done|by apply N.mod_lt|].
  rewrite N.mul_comm. by apply N.div_mod.
Qed.

Section ranges.
Context (base : N) (pages : nat).
Implicit Types (address length : N).

(** Page by page, and address by address. *)
Lemma pages_addresses (G : nat -> Prop) (H : N -> Prop) address length :
  (forall (p : nat) off, (p < pages)%nat -> off < PAGE_SIZE -> G p <-> H (base + N.of_nat p * PAGE_SIZE + off)) ->
  base <= address -> 0 < length -> address + length <= base + N.of_nat pages * PAGE_SIZE ->
  (forall p, (N.to_nat ((address - base) / PAGE_SIZE) <= p
              <= N.to_nat ((address + length - 1 - base) / PAGE_SIZE))%nat -> G p)
  <-> forall va, address <= va < address + length -> H va.
Proof.
  intros HG Hb Hl Hend.
  destruct (page_split (address - base)) as (q1&r1&->&Hr1&E1).
  destruct (page_split (address + length - 1 - base)) as (q2&r2&->&Hr2&E2). split.
  - intros Hall va Hva. destruct (page_split (va - base)) as (q3&r3&_&Hr3&E3).
    replace va with (base + N.of_nat (N.to_nat q3) * PAGE_SIZE + r3) by (rewrite N2Nat.id; lia).
    apply HG; [|done|apply Hall]; unfold PAGE_SIZE in *; lia.
  - intros Hall p Hr. set (va := N.max address (base + N.of_nat p * PAGE_SIZE)).
    assert (base + N.of_nat p * PAGE_SIZE <= va < base + N.of_nat p * PAGE_SIZE + PAGE_SIZE
            /\ address <= va < address + length) as [Hv1 Hv2] by (unfold va, PAGE_SIZE in *; lia).
    clearbody va. apply (HG p (va - (base + N.of_nat p * PAGE_SIZE))); [unfold PAGE_SIZE in *; lia|lia|].
    replace (_ + (va - _)) with va by lia. by apply Hall.
Qed.

Lemma all_entries_spec table first last P `{forall e, Decision (P e)} :
  all_entries table first last P = true <->
  forall p, (N.to_nat first <= p <= N.to_nat last)%nat ->
    exists e, PageTable.raw_entry table p = Some e /\ P e.
Proof.
  unfold all_entries. rewrite forallb_forall. setoid_rewrite <-list_elem_of_In. setoid_rewrite elem_of_seq.
  split.
  - intros Hall p Hp. specialize (Hall p ltac:(lia)).
    destruct (PageTable.raw_entry table p) as [e|]; [|done]. exists e. by apply bool_decide_eq_true in Hall.
  - intros Hall p Hp. destruct (Hall p ltac:(lia)) as (e&->&He). by apply bool_decide_eq_true.
Qed.

Lemma range_check_spec table limit address length P (H : N -> Prop) `{forall e, Decision (P e)} :
  limit = base + N.of_nat pages * PAGE_SIZE -> limit <= U64_MAX ->
  (forall (p : nat) off, (p < pages)%nat -> off < PAGE_SIZE ->
    (exists e, PageTable.raw_entry table p = Some e /\ P e) <-> H (base + N.of_nat p * PAGE_SIZE + off)) ->
  range_check table base limit address length P = true <->
  0 < length /\ base <= address /\ address + length <= limit
  /\ forall va, address <= va < address + length -> H va.
Proof.
  intros -> Hmax HG. unfold range_check. case_decide as Hg; [split; [done|lia]|].
  unfold u64_checked_add. case_decide as Hadd; [|split; [done|lia]].
  case_decide as Hend; [split; [done|lia]|].
  rewrite all_entries_spec, (pages_addresses _ H) by (done || lia). split; [|tauto].
  intros. split_and!; [lia|lia|lia|done].
Qed.
End ranges.

Lemma land_pow2_full e k : N.land e (2 ^ k) = 2 ^ k <-> N.testbit e k = true.
Proof.
  split.
  - intros He. assert (Hb : N.testbit (N.land e (2 ^ k)) k = true) by (by rewrite He, N.pow2_bits_true).
    rewrite N.land_spec in Hb. by apply andb_true_iff in Hb as [? _].
  - intros He. apply N.bits_inj. intros b. rewrite N.land_spec, N.pow2_bits_eqb.
    destruct (N.eqb_spec k b) as [<-|]; [by rewrite He|apply andb_false_r].
Qed.

Lemma land_lor_full e x y : N.land e (N.lor x y) = N.lor x y <-> N.land e x = x /\ N.land e y = y.
Proof.
  split.
  - intros He. split; apply N.bits_inj; intros b; apply (f_equal (fun n => N.testbit n b)) in He;
      rewrite N.land_spec, N.lor_spec in *; destruct (N.testbit e b), (N.testbit x b), (N.testbit y b); done.
  - intros [Hx Hy]. by rewrite N.land_lor_distr_r, Hx, Hy.
Qed.

(** The masks of the checks, by their bits. *)
Lemma readable_mask e :
  N.land e (N.lor PageTableEntry.PRESENT PageTableEntry.USER)
  = N.lor PageTableEntry.PRESENT PageTableEntry.USER <-> entry_permits Reads e.
Proof.
  rewrite land_lor_full. change PageTableEntry.PRESENT with (2 ^ 0). change PageTableEntry.USER with (2 ^ 2).
  rewrite !land_pow2_full. unfold entry_permits. tauto.
Qed.

Lemma writable_mask e :
  N.land e (N.lor (N.lor PageTableEntry.PRESENT PageTableEntry.USER) PageTableEntry.WRITABLE)
  = N.lor (N.lor PageTableEntry.PRESENT PageTableEntry.USER) PageTableEntry.WRITABLE
  <-> entry_permits Writes e.
Proof.
  rewrite land_lor_full, readable_mask. change PageTableEntry.WRITABLE with (2 ^ 1).
  rewrite !land_pow2_full. unfold entry_permits. tauto.
Qed.

Lemma executable_mask e :
  N.land e (N.lor PageTableEntry.PRESENT PageTableEntry.USER)
  = N.lor PageTableEntry.PRESENT PageTableEntry.USER /\ N.land e PageTableEntry.NO_EXECUTE = 0
  <-> entry_permits Executes e.
Proof.
  rewrite readable_mask. change PageTableEntry.NO_EXECUTE with (2 ^ 63).
  rewrite land_pow2_zero. unfold entry_permits. tauto.
Qed.

Lemma exists_Some {A} (x : A) (P : A -> Prop) : (exists y, Some x = Some y /\ P y) <-> P x.
Proof. naive_solver. Qed.

Section pointers.
Context (layout : Layout.t) (Hlayout : layout_ok layout) (kernel : PageTable.t) (image : list N).
Context (segments : list UserLoadSegment.t) (s : ChildStorage.t).
Context (Hok : Forall (child_segment image) segments) (Hclear : clear_of [] segments).
Context (Hstage : stage layout kernel image s PAGE_TABLE_ENTRIES true CHILD_STACK_PAGES
                    (list_to_map (plan_pages segments))).
Implicit Types (r : right) (address length : N).

Lemma entry_permits_flags r a flags :
  frame_address a -> entry_permits r (N.lor a flags) <-> entry_permits r flags.
Proof.
  intros Ha. unfold entry_permits.
  rewrite !(entry_bit _ _ _ Ha) by (left; done) || (right; done). done.
Qed.

Lemma image_page_permits r (p : nat) off :
  (p < CHILD_IMAGE_PAGES)%nat -> off < PAGE_SIZE ->
  (exists e, PageTable.raw_entry (ChildStorage.image_pt s) p = Some e /\ entry_permits r e)
  <-> permits r (child_access layout segments (USER_IMAGE_BASE + N.of_nat p * PAGE_SIZE + off)).
Proof.
  intros Hp Hoff. change (ChildStorage.image_pt s) with (ChildStorage.get s ChildStorage.ImagePt).
  rewrite (sees_entries _ _ _ _ Hstage). cbn [view].
  rewrite (page_owner image segments Hok Hclear p off Hoff). unfold child_access.
  destruct child_addresses as (_&Hsb&_).
  rewrite decide_False by (rewrite Hsb; unfold PAGE_SIZE, CHILD_IMAGE_PAGES in *; lia).
  destruct (list_find _ _) as [[k seg]|]; cbn.
  - rewrite exists_Some, entry_permits_flags by (by apply (layout_image _ Hlayout)).
    unfold permits. rewrite exists_Some. cbn [writable executable]. unfold entry_permits.
    destruct (segment_flags_spec seg) as (H2&H1&H63). rewrite segment_flags_present, H2, H1, H63.
    destruct r; [naive_solver..|]. rewrite negb_false_iff. naive_solver.
  - unfold permits. naive_solver.
Qed.

Lemma stack_page_permits r (p : nat) off :
  (p < PAGE_TABLE_ENTRIES)%nat -> off < PAGE_SIZE ->
  (exists e, PageTable.raw_entry (ChildStorage.stack_pt s) p = Some e /\ entry_permits r e)
  <-> permits r (child_access layout segments (USER_STACK_BASE + N.of_nat p * PAGE_SIZE + off)).
Proof.
  intros Hp Hoff. change (ChildStorage.stack_pt s) with (ChildStorage.get s ChildStorage.StackPt).
  rewrite (sees_entries _ _ _ _ Hstage). cbn [view]. change STACK_FIRST with 496%nat.
  destruct child_addresses as (Hlim&Hsb&Hsl&_).
  change USER_STACK_BASE with (USER_IMAGE_BASE + 256 * 2 ^ 21).
  destruct (decide (496 <= p)%nat) as [Hge|Hlt].
  - rewrite decide_True by (unfold CHILD_STACK_PAGES, PAGE_TABLE_ENTRIES in *; lia). unfold child_access.
    rewrite decide_True by (rewrite Hsb, Hsl; unfold PAGE_SIZE, PAGE_TABLE_ENTRIES in *; lia).
    rewrite exists_Some, entry_permits_flags
      by (apply (layout_stack _ Hlayout); unfold CHILD_STACK_PAGES, PAGE_TABLE_ENTRIES in *; lia).
    unfold permits. rewrite exists_Some. cbn [writable executable]. destruct r; vm_compute; naive_solver.
  - rewrite decide_False by lia.
    rewrite (nothing_there layout image segments) by (done || (rewrite ?Hlim, ?Hsb, ?Hsl; unfold PAGE_SIZE in *; lia)).
    unfold permits. naive_solver.
Qed.

Lemma permitted_range r va :
  permits r (child_access layout segments va) ->
  USER_IMAGE_BASE <= va < CHILD_IMAGE_LIMIT \/ CHILD_STACK_BASE <= va < USER_STACK_LIMIT.
Proof.
  intros Hp. destruct (decide (USER_IMAGE_BASE <= va < CHILD_IMAGE_LIMIT)); [by left|].
  destruct (decide (CHILD_STACK_BASE <= va < USER_STACK_LIMIT)); [by right|].
  destruct Hp as (a&Ha&_). by rewrite (nothing_there layout image segments) in Ha.
Qed.

(** The two parts of a check cover the ranges user code can use. *)
Lemma range_permitted r address length :
  0 < length ->
  (forall va, address <= va < address + length -> permits r (child_access layout segments va)) ->
  USER_IMAGE_BASE <= address /\ address + length <= CHILD_IMAGE_LIMIT
  \/ USER_STACK_BASE <= address /\ address + length <= USER_STACK_LIMIT.
Proof.
  intros Hl Hall. destruct child_addresses as (Hlim&Hsb&Hsl&_).
  assert (Hst : USER_STACK_BASE <= CHILD_STACK_BASE) by done.
  pose proof (permitted_range r address (Hall address ltac:(lia))) as Ha.
  pose proof (permitted_range r _ (Hall (address + length - 1) ltac:(lia))) as Hb.
  destruct (decide (address <= CHILD_IMAGE_LIMIT < address + length)) as [Hin|Hout].
  - apply Hall, permitted_range in Hin. rewrite Hlim, Hsb in Hin. unfold PAGE_SIZE in *. lia.
  - rewrite Hlim, Hsb in *. unfold PAGE_SIZE in *. lia.
Qed.

Lemma image_or_stack_exact r required address length :
  (forall e, N.land e required = required <-> entry_permits r e) ->
  image_or_stack_mapped s address length required = true <->
  0 < length /\ forall va, address <= va < address + length -> permits r (child_access layout segments va).
Proof.
  intros Hreq. unfold image_or_stack_mapped. rewrite orb_true_iff.
  change (mapped_range ?t ?b ?l address length required)
    with (range_check t b l address length (fun e => N.land e required = required)).
  rewrite (range_check_spec USER_IMAGE_BASE CHILD_IMAGE_PAGES _ _ _ _ _
             (fun va => permits r (child_access layout segments va)));
    [|done|done|intros p off Hp Hoff; setoid_rewrite Hreq; by apply image_page_permits].
  rewrite (range_check_spec USER_STACK_BASE PAGE_TABLE_ENTRIES _ _ _ _ _
             (fun va => permits r (child_access layout segments va)));
    [|done|done|intros p off Hp Hoff; setoid_rewrite Hreq; by apply stack_page_permits].
  split; [tauto|]. intros [Hl Hall]. destruct (range_permitted r _ _ Hl Hall); tauto.
Qed.

Lemma executable_range_exact address length :
  executable_range s address length = true <->
  0 < length /\ forall va, address <= va < address + length ->
    permits Executes (child_access layout segments va).
Proof.
  change (executable_range s address length)
    with (range_check (ChildStorage.image_pt s) USER_IMAGE_BASE CHILD_IMAGE_LIMIT address length
      (fun e => N.land e (N.lor PageTableEntry.PRESENT PageTableEntry.USER)
                = N.lor PageTableEntry.PRESENT PageTableEntry.USER
                /\ N.land e PageTableEntry.NO_EXECUTE = 0)).
  rewrite (range_check_spec USER_IMAGE_BASE CHILD_IMAGE_PAGES _ _ _ _ _
             (fun va => permits Executes (child_access layout segments va)));
    [|done|done|intros p off Hp Hoff; setoid_rewrite executable_mask; by apply image_page_permits].
  split; [tauto|]. intros [Hl Hall].
  destruct (range_permitted Executes _ _ Hl Hall) as [|[Hlo Hhi]]; [tauto|].
  destruct (Hall address ltac:(lia)) as (a&Ha&Hx).
  assert (Hr : permits Executes (child_access layout segments address)) by (by exists a).
  apply permitted_range in Hr as [Hr|Hr].
  - destruct child_addresses as (Hlim&_). change USER_STACK_BASE with (USER_IMAGE_BASE + 256 * 2 ^ 21) in Hlo.
    unfold PAGE_SIZE in *. lia.
  - unfold child_access in Ha. rewrite decide_True in Ha by done. by injection Ha as <-.
Qed.
End pointers.

(** ** The slots *)

(** The operations on the slots, in any order. *)
Inductive operation :=
  | Prepare (image : list N) (kernel_pml4 : PageTable.t) (process_id : N)
  | Release (process_id : N)
  | Activate (process_id : N).

Definition perform (layouts : nat -> Layout.t) (self : Children.t) (op : operation) : Exec Children.t :=
  match op with
  | Prepare image kernel_pml4 process_id =>
      let! (_, self) := Children.prepare_child layouts self image kernel_pml4 process_id in Ret self
  | Release process_id => Children.release_child self process_id
  | Activate process_id => Ret (Children.set_active_process self process_id)
  end.

Fixpoint perform_all (layouts : nat -> Layout.t) (self : Children.t) (ops : list operation)
  : Exec Children.t :=
  match ops with
  | [] => Ret self
  | op :: ops => let! self := perform layouts self op in perform_all layouts self ops
  end.

(** When a process can be prepared. *)
Record can_prepare (self : Children.t) (image : list N) (process_id : N) : Prop := {
  can_prepare_size : len image <= MAX_CHILD_ELF_BYTES;
  can_prepare_plan : exists plan, parse image = Ret (Ok plan)
    /\ validate_child_plan plan image = Ret (Ok tt);
  can_prepare_id : INIT_PROCESS_ID < process_id;
  can_prepare_fresh : Children.slot_of self process_id = None;
  can_prepare_slot : FREE_SLOT ∈ Children.slot_process self
}.

Definition operation_ok (op : operation) : Prop :=
  match op with Prepare _ kernel_pml4 _ => kernel_ok kernel_pml4 | _ => True end.

(** What a slot holds: nothing and erased storage, or a prepared process. *)
Definition slot_ok (layout : Layout.t) (id : N) (s : ChildStorage.t) : Prop :=
  id = FREE_SLOT /\ s = ChildStorage.new
  \/ INIT_PROCESS_ID < id /\ exists kernel image segments,
       Forall (child_segment image) segments /\ clear_of [] segments
       /\ stage layout kernel image s PAGE_TABLE_ENTRIES true CHILD_STACK_PAGES
            (list_to_map (plan_pages segments)).

Record children_ok (layouts : nat -> Layout.t) (self : Children.t) : Prop := {
  children_storages : length (Children.storages self) = MAX_CHILD_PROCESSES;
  children_slots : length (Children.slot_process self) = MAX_CHILD_PROCESSES;
  children_distinct : forall i j id, Children.slot_process self !! i = Some id ->
    Children.slot_process self !! j = Some id -> id <> FREE_SLOT -> i = j;
  children_slot : forall i id s, Children.slot_process self !! i = Some id ->
    Children.storages self !! i = Some s -> slot_ok (layouts i) id s
}.

Section slots.
Context (layouts : nat -> Layout.t).
Context (Hlayouts : forall slot, (slot < MAX_CHILD_PROCESSES)%nat -> layout_ok (layouts slot)).
Implicit Types (self : Children.t) (s : ChildStorage.t).

Lemma page_bytes_length image seg rel :
  segment_ok image seg -> length (page_bytes image (seg, rel)) = N.to_nat PAGE_SIZE.
Proof.
  intros Hseg. pose proof (segment_in_file _ _ Hseg) as Hfile. unfold len in Hfile.
  unfold page_bytes, sub_bytes. cbn [fst snd].
  rewrite length_app, length_take, length_drop, length_replicate. unfold PAGE_SIZE in *. lia.
Qed.

(** A prepared storage has its tables and pages at their sizes. *)
Lemma prepared_storage layout kernel image segments s :
  Forall (child_segment image) segments ->
  stage layout kernel image s PAGE_TABLE_ENTRIES true CHILD_STACK_PAGES
    (list_to_map (plan_pages segments)) ->
  storage_ok s.
Proof.
  intros Hok [Hl _ Hi Hs]. split; [done|rewrite Hi|rewrite Hs].
  - unfold pages_view. split; [by rewrite length_fmap, length_seq|].
    apply Forall_fmap, Forall_forall. intros i _. cbn.
    destruct (list_to_map _ !! i) as [[seg rel]|] eqn:E; [|apply length_replicate]. cbn [from_option].
    apply elem_of_list_to_map_2, elem_of_plan_pages in E as [Hin _].
    apply page_bytes_length. by apply (proj1 (Forall_forall _ _) Hok) in Hin as [? _].
  - split; [apply length_replicate|]. apply Forall_replicate. apply length_replicate.
Qed.

Lemma new_storage : storage_ok ChildStorage.new.
Proof.
  split.
  - by intros [].
  - split; [apply length_replicate|]. apply Forall_replicate. apply length_replicate.
  - split; [apply length_replicate|]. apply Forall_replicate. apply length_replicate.
Qed.

Lemma clear_new s : storage_ok s -> ChildStorage.clear s = ChildStorage.new.
Proof.
  intros [Ht [Hi Hi'] [Hs Hs']]. unfold ChildStorage.clear, ChildStorage.new.
  assert (Hclear : forall table, length (PageTable.entries table) = PAGE_TABLE_ENTRIES ->
                   PageTable.clear table = PageTable.empty).
  { intros [entries] He. cbn in He. unfold PageTable.clear. cbn [PageTable.entries].
    rewrite (const_fmap _ entries 0) by done. by rewrite He. }
  rewrite !Hclear, (fill_pages _ _ Hi Hi'), (fill_pages _ _ Hs Hs');
    [done|apply (Ht ChildStorage.StackPt)|apply (Ht ChildStorage.ImagePt)|apply (Ht ChildStorage.Pd)
    |apply (Ht ChildStorage.Pdpt)|apply (Ht ChildStorage.Pml4)].
Qed.

Lemma slot_storage layout id s : slot_ok layout id s -> storage_ok s.
Proof.
  intros [[_ ->]|(_&kernel&image&segments&Hok&_&Hst)]; [apply new_storage|by eapply prepared_storage].
Qed.

Lemma initial_ok : children_ok layouts Children.initial.
Proof.
  split; [apply length_replicate..| |].
  - by intros i j id [-> _]%lookup_replicate.
  - intros i id s [-> _]%lookup_replicate [-> _]%lookup_replicate. by left.
Qed.

(** The slot of a process. *)
Lemma slot_of_Some self process_id slot :
  Children.slot_of self process_id = Some slot ->
  INIT_PROCESS_ID < process_id /\ Children.slot_process self !! slot = Some process_id.
Proof.
  unfold Children.slot_of. case_decide; [done|].
  destruct (list_find _ _) as [[k id]|] eqn:E; [|done]. intros [= <-].
  apply list_find_Some in E as (Hk&->&_). split; [lia|done].
Qed.

Lemma slot_of_None self process_id :
  Children.slot_of self process_id = None -> INIT_PROCESS_ID < process_id ->
  process_id ∉ Children.slot_process self.
Proof.
  intros Hn Hlt Hin. unfold Children.slot_of in Hn. rewrite decide_False in Hn by lia.
  destruct (list_find _ _) eqn:E; [done|]. apply list_find_None in E. by apply (proj1 (Forall_forall _ _) E _ Hin).
Qed.

Lemma slot_of_unique self process_id slot :
  children_ok layouts self -> INIT_PROCESS_ID < process_id ->
  Children.slot_process self !! slot = Some process_id ->
  Children.slot_of self process_id = Some slot.
Proof.
  intros Hself Hid Hslot. destruct (Children.slot_of self process_id) as [k|] eqn:E.
  - apply slot_of_Some in E as [_ Hk]. f_equal. apply (children_distinct _ _ Hself _ _ process_id Hk Hslot).
    intros ->. done.
  - apply slot_of_None in E; [|done]. by apply list_elem_of_lookup_2 in Hslot.
Qed.

(** Writing a slot. *)
Lemma with_slot_ok self slot s id :
  children_ok layouts self -> slot_ok (layouts slot) id s ->
  id = FREE_SLOT \/ id ∉ Children.slot_process self ->
  children_ok layouts (Children.with_slot self slot s id).
Proof.
  intros [Hn1 Hn2 Hd Hs] Hnew Hid. split; cbn; rewrite ?length_insert; [done..| |].
  - intros i j id'. rewrite !list_lookup_insert_Some. intros Hi Hj Hf.
    destruct Hi as [(->&->&_)|[Hi1 Hi2]], Hj as [(?&?&_)|[Hj1 Hj2]]; try done.
    + destruct Hid as [->|Hid]; [done|]. by apply list_elem_of_lookup_2 in Hj2.
    + subst. destruct Hid as [->|Hid]; [done|]. by apply list_elem_of_lookup_2 in Hi2.
    + by apply (Hd i j id').
  - intros i id' s'. rewrite !list_lookup_insert_Some. intros [(->&->&_)|[Hi1 Hi2]] [(?&?&_)|[Hj1 Hj2]];
      subst; try done. by apply Hs.
Qed.

Lemma slot_bound self slot id :
  children_ok layouts self -> Children.slot_process self !! slot = Some id ->
  (slot < MAX_CHILD_PROCESSES)%nat.
Proof. intros Hself Hid%lookup_lt_Some. by rewrite (children_slots _ _ Hself) in Hid. Qed.

(** The storage of a slot. *)
Lemma slot_lookup self slot id :
  children_ok layouts self -> Children.slot_process self !! slot = Some id ->
  exists s, index (Children.storages self) slot = Ret s /\ slot_ok (layouts slot) id s.
Proof.
  intros [Hn1 Hn2 _ Hs] Hid. pose proof (lookup_lt_Some _ _ _ Hid) as Hlt.
  destruct (lookup_lt_is_Some_2 (Children.storages self) slot) as [s Hslot]; [lia|].
  exists s. split; [|by apply Hs]. unfold index. by rewrite Hslot.
Qed.

Lemma validate_returns plan image : validate_child_plan plan image <> Panic.
Proof.
  unfold validate_child_plan, validate_plan.
  destruct (decide (_ \/ _)) as [|Hg]; [done|].
  assert (Hsl : exists ss, slice_to (UserLoadPlan.segments plan) (UserLoadPlan.segment_count plan) = Ret ss).
  { unfold slice_to. case_decide; [by eexists|lia]. }
  destruct Hsl as [ss Hsl]. rewrite Hsl. cbn [bind]. apply try_returns.
  - apply try_returns; [done|]. intros _ _. apply guard_returns. intros _.
    unfold validate_tls_plan. destruct (UserLoadPlan.tls plan); [|done].
    apply guard_returns. intros _. apply try_returns; [done|]. intros ? _.
    apply guard_returns. intros _. apply try_returns; [done|]. intros ? _.
    apply guard_returns. intros _. apply try_returns; [done|]. intros ? _.
    apply guard_returns. intros _. rewrite Hsl. by apply guard_returns.
  - intros _ _. by destruct (UserLoadPlan.tls plan).
Qed.

(** Preparing a process: an error changes nothing; on success a slot that was
    free now holds the process, at the top-level table its context names. *)
Lemma prepare_child_spec self image kernel_pml4 process_id :
  children_ok layouts self -> kernel_ok kernel_pml4 ->
  exists result self',
    Children.prepare_child layouts self image kernel_pml4 process_id = Ret (result, self')
    /\ children_ok layouts self'
    /\ match result with
       | Err _ => self' = self /\ ~ can_prepare self image process_id
       | Ok context => can_prepare self image process_id
           /\ ChildContext.process_id context = process_id
           /\ Children.cr3_of layouts self' process_id = Some (ChildContext.cr3 context)
       end.
Proof.
  intros Hself Hk. unfold Children.prepare_child.
  assert (Herr : forall e : UserProcessError.t, ~ can_prepare self image process_id ->
    exists result self', Ret (Err e, self) = Ret (result, self') /\ children_ok layouts self'
      /\ match result with
         | Err _ => self' = self /\ ~ can_prepare self image process_id
         | Ok context => can_prepare self image process_id
             /\ ChildContext.process_id context = process_id
             /\ Children.cr3_of layouts self' process_id = Some (ChildContext.cr3 context)
         end) by (intros e He; by exists (Err e), self).
  case_decide as Hbig; [apply Herr; intros [? _ _ _ _]; lia|].
  assert (Hlen : len image <= ISIZE_MAX) by (unfold MAX_CHILD_ELF_BYTES, ISIZE_MAX in *; lia).
  destruct (parse image) as [[plan|e]|] eqn:Hparse; cbn [bind];
    [|apply Herr; intros [_ (plan&?&_) _ _ _]; congruence|by apply parse_spec in Hparse].
  destruct (validate_child_plan plan image) as [[[]|e]|] eqn:Hv; cbn [bind];
    [|apply Herr; intros [_ (plan'&?&?) _ _ _]; congruence|by apply validate_returns in Hv].
  case_decide as Hid; [apply Herr; intros [_ _ ? ? _]; destruct Hid; [lia|done]|].
  apply not_or_and in Hid as [Hid Hfresh%dec_stable].
  destruct (list_find _ _) as [[slot free]|] eqn:Hfree.
  2: { apply list_find_None in Hfree. apply Herr. intros [_ _ _ _ Hin].
       by apply (proj1 (Forall_forall _ _) Hfree _ Hin). }
  clear Herr. apply list_find_Some in Hfree as (Hslot&->&_).
  destruct (slot_lookup _ _ _ Hself Hslot) as (s&Hs&Hsok). rewrite Hs. cbn [bind].
  pose proof (Hlayouts slot (slot_bound _ _ _ Hself Hslot)) as Hl.
  destruct (validate_child_plan_Ok _ _ Hv) as [segments Hp].
  destruct (build_runs _ Hl _ Hk image Hlen s plan segments (slot_storage _ _ _ Hsok) Hv Hp)
    as (context&s'&Hb&->&Hst).
  rewrite Hb. cbn [bind ChildContext.entry ChildContext.user_stack_top ChildContext.cr3].
  eexists _, _. split; [done|].
  assert (Hnew : children_ok layouts (Children.with_slot self slot s' process_id)).
  { apply with_slot_ok; [done| |right; apply slot_of_None; [done|lia]]. right. split; [lia|].
    exists kernel_pml4, image, segments. split_and!; [by eapply plan_child_segments|apply Hp|done]. }
  split_and!; [done| |done|].
  - split; [lia|by exists plan|lia|done|by eapply list_elem_of_lookup_2].
  - unfold Children.cr3_of. rewrite (slot_of_unique _ _ slot Hnew); [|lia|].
    + by rewrite (frame_aligned _ (layout_tables _ Hl _)).
    + cbn. apply list_lookup_insert_eq. by eapply lookup_lt_Some.
Qed.

Lemma release_child_spec self process_id :
  children_ok layouts self ->
  exists self', Children.release_child self process_id = Ret self' /\ children_ok layouts self'
    /\ Children.slot_of self' process_id = None.
Proof.
  intros Hself. unfold Children.release_child.
  destruct (Children.slot_of self process_id) as [slot|] eqn:E; [|by exists self].
  apply slot_of_Some in E as [Hid Hslot].
  destruct (slot_lookup _ _ _ Hself Hslot) as (s&->&Hs). cbn [bind].
  rewrite (clear_new _ (slot_storage _ _ _ Hs)).
  assert (Hnew : children_ok layouts (Children.with_slot self slot ChildStorage.new FREE_SLOT))
    by (apply with_slot_ok; [done|by left|by left]).
  eexists. split_and!; [done|done|]. destruct (Children.slot_of _ process_id) as [k|] eqn:E; [|done].
  apply slot_of_Some in E as [_ Hk]. cbn in Hk. apply list_lookup_insert_Some in Hk as [(_&<-&_)|[Hne Hk]].
  - done.
  - destruct Hne. apply (children_distinct _ _ Hself _ _ process_id); [done..|]. by intros ->.
Qed.

Lemma perform_spec self op :
  children_ok layouts self -> operation_ok op ->
  exists self', perform layouts self op = Ret self' /\ children_ok layouts self'.
Proof.
  intros Hself Hop. destruct op as [image kernel_pml4 process_id|process_id|process_id]; cbn in *.
  - destruct (prepare_child_spec self image kernel_pml4 process_id Hself Hop) as (r&self'&->&Hok&_).
    by exists self'.
  - destruct (release_child_spec self process_id Hself) as (self'&->&Hok&_). by exists self'.
  - eexists. split; [done|]. by destruct Hself.
Qed.

Lemma perform_all_spec ops : forall self,
  children_ok layouts self -> Forall operation_ok ops ->
  exists self', perform_all layouts self ops = Ret self' /\ children_ok layouts self'.
Proof.
  induction ops as [|op ops IH]; intros self Hself Hops; [by exists self|].
  apply Forall_cons in Hops as [Hop Hops]. cbn.
  destruct (perform_spec self op Hself Hop) as (self'&->&Hok). by apply IH.
Qed.
End slots.

(** The answers for the current process. *)
Lemma checks_spec layouts self slot :
  (forall slot, (slot < MAX_CHILD_PROCESSES)%nat -> layout_ok (layouts slot)) -> children_ok layouts self ->
  Children.slot_of self (Children.active_process self) = Some slot ->
  exists s kernel image segments, Children.storages self !! slot = Some s
    /\ isolated (layouts slot) kernel image segments s
    /\ forall address length,
       let every r := 0 < length /\ forall va, address <= va < address + length ->
         permits r (child_access (layouts slot) segments va) in
       exists readable writable executable,
         child_readable self address length = Ret readable
         /\ child_writable self address length = Ret writable
         /\ child_executable self address length = Ret executable
         /\ (readable = true <-> every Reads) /\ (writable = true <-> every Writes)
         /\ (executable = true <-> every Executes).
Proof.
  intros Hl Hself Hslot. apply slot_of_Some in Hslot as Hid. destruct Hid as [Hid Hin].
  pose proof (slot_bound layouts self slot _ Hself Hin) as Hbound.
  destruct (slot_lookup layouts self slot _ Hself Hin) as (s&Hs&[[Hf _]|(_&kernel&image&segments&Hok&Hc&Hst)]).
  { rewrite Hf in Hid. done. }
  exists s, kernel, image, segments. split_and!.
  { by apply index_Ret. }
  { by apply stage_isolated; [apply Hl|..]. }
  intros address length every. unfold child_readable, child_writable, child_executable,
    Children.active_child_storage. rewrite Hslot, Hs. cbn [bind].
  eexists _, _, _. do 3 (split; [done|]). split_and!.
  - eapply image_or_stack_exact; [by apply Hl|done..|apply readable_mask].
  - eapply image_or_stack_exact; [by apply Hl|done..|apply writable_mask].
  - by eapply executable_range_exact; [apply Hl|..].
Qed.


(** C4: in every state such operations lead to, when the current process has a
    slot, the kernel's checks of user pointers answer yes exactly for the
    non-empty ranges in which the process's own code can read, write or execute
    every address: a system call never uses memory for a process that the
    process could not use itself, and never refuses memory it could. *)
Theorem pointer_checks_exact layouts ops self slot :
  (forall slot, (slot < MAX_CHILD_PROCESSES)%nat -> layout_ok (layouts slot)) -> Forall operation_ok ops ->
  perform_all layouts Children.initial ops = Ret self ->
  Children.slot_of self (Children.active_process self) = Some slot ->
  exists s kernel image segments, Children.storages self !! slot = Some s
    /\ isolated (layouts slot) kernel image segments s
    /\ forall address length,
       let every r := 0 < length /\ forall va, address <= va < address + length ->
         permits r (child_access (layouts slot) segments va) in
       exists readable writable executable,
         child_readable self address length = Ret readable
         /\ child_writable self address length = Ret writable
         /\ child_executable self address length = Ret executable
         /\ (readable = true <-> every Reads) /\ (writable = true <-> every Writes)
         /\ (executable = true <-> every Executes).
Proof.
  intros Hl Hops Hrun. destruct (perform_all_spec layouts Hl ops _ (initial_ok layouts) Hops) as (self'&Hrun'&Hok).
  assert (self' = self) as -> by congruence. by apply checks_spec.
Qed.

(** C34: preparing a process returns in every reachable state. It succeeds
    exactly for an image of at most two megabytes that parses and passes the
    checks, a process identifier above init's that has no slot, and a free slot.
    An error leaves the slots as they were; on success the context carries the process and the top-level table that the
    scheduler later loads for it. Releasing it frees the slot again. *)
Theorem prepare_release layouts ops self image kernel_pml4 process_id :
  (forall slot, (slot < MAX_CHILD_PROCESSES)%nat -> layout_ok (layouts slot)) -> Forall operation_ok ops ->
  perform_all layouts Children.initial ops = Ret self -> kernel_ok kernel_pml4 ->
  exists result self',
    Children.prepare_child layouts self image kernel_pml4 process_id = Ret (result, self')
    /\ match result with
       | Err _ => self' = self /\ ~ can_prepare self image process_id
       | Ok context => can_prepare self image process_id
           /\ ChildContext.process_id context = process_id
           /\ Children.cr3_of layouts self' process_id = Some (ChildContext.cr3 context)
           /\ exists self'', Children.release_child self' process_id = Ret self''
                /\ Children.slot_of self'' process_id = None
       end.
Proof.
  intros Hl Hops Hrun Hk.
  destruct (perform_all_spec layouts Hl ops _ (initial_ok layouts) Hops) as (self'&Hrun'&Hok).
  assert (self' = self) as -> by congruence.
  destruct (prepare_child_spec layouts Hl self image kernel_pml4 process_id Hok Hk)
    as (result&self'&Hp&Hok'&Hr). exists result, self'. split; [done|].
  destruct result as [context|e]; [|done]. destruct Hr as (H1&H2&H3). split_and!; [done..|].
  destruct (release_child_spec layouts self' process_id Hok') as (self''&Hrel&_&Hnone). by exists self''.
Qed.

(** ** A concrete process *)

Module UserChildExample.
(** A text page and two pages of zeroed data. *)
Definition image : list N :=
  [0x7f; 69; 76; 70; 2; 1; 1] ++ replicate 9 0
  ++ to_le_bytes 2 2 ++ to_le_bytes 2 62 ++ to_le_bytes 4 1 ++ to_le_bytes 8 USER_IMAGE_BASE
  ++ to_le_bytes 8 64 ++ to_le_bytes 8 0 ++ to_le_bytes 4 0 ++ to_le_bytes 2 64
  ++ to_le_bytes 2 56 ++ to_le_bytes 2 2 ++ replicate 6 0
  ++ UserElfExample.header 1 5 0 USER_IMAGE_BASE 176 176 PAGE_SIZE
  ++ UserElfExample.header 1 6 0 (USER_IMAGE_BASE + PAGE_SIZE) 0 5000 PAGE_SIZE.

Definition plan : UserLoadPlan.t :=
  UserLoadPlan.mk USER_IMAGE_BASE
    (segment_array [UserLoadSegment.mk 0 USER_IMAGE_BASE 176 176 5;
                    UserLoadSegment.mk 0 (USER_IMAGE_BASE + PAGE_SIZE) 0 5000 6]) 2 None.

(** Each slot's storage in a region of its own. *)
Definition layouts (slot : nat) : Layout.t :=
  let at_page n := (0x1000 + N.of_nat slot * 512 + n) * PAGE_SIZE in
  Layout.mk (fun which => at_page match which with
                                  | ChildStorage.Pml4 => 0 | ChildStorage.Pdpt => 1
                                  | ChildStorage.Pd => 2 | ChildStorage.ImagePt => 3
                                  | ChildStorage.StackPt => 4 end)
    (fun i => at_page (5 + N.of_nat i)) (fun i => at_page (300 + N.of_nat i)).

(** One kernel entry. *)
Definition kernel : PageTable.t := PageTable.mk (<[511%nat := 7]> (replicate PAGE_TABLE_ENTRIES 0)).

Lemma layouts_ok slot : (slot < MAX_CHILD_PROCESSES)%nat -> layout_ok (layouts slot).
Proof.
  intros Hs. unfold MAX_CHILD_PROCESSES, MAX_LIVE_PROCESSES in Hs.
  assert (Hpage : forall n, n < 512 -> frame_address ((0x1000 + N.of_nat slot * 512 + n) * PAGE_SIZE)).
  { intros n Hn. split; [apply N.divide_factor_r|]. unfold PAGE_SIZE. lia. }
  split; intros; cbn; apply Hpage.
  - by destruct which.
  - unfold CHILD_IMAGE_PAGES in *. lia.
  - unfold CHILD_STACK_PAGES in *. lia.
Qed.

Lemma kernel_entries_ok : kernel_ok kernel.
Proof.
  intros i raw. unfold PageTable.raw_entry, kernel. cbn [PageTable.entries].
  destruct (_ !! i) as [e|] eqn:E; [|done].
  apply list_lookup_insert_Some in E as [(_&<-&_)|[_ [-> _]%lookup_replicate]]; cbn; [|done].
  by intros [= <-].
Qed.

Lemma plan_valid : validate_child_plan plan image = Ret (Ok tt).
Proof. vm_compute. reflexivity. Qed.

(** Both segments and the stack are there. *)
Lemma child_isolated_witness :
  exists segments s', length segments = 2%nat
    /\ build_child_address_space (layouts 0) plan image kernel ChildStorage.new
       = Ret (Ok (ChildContext.mk CHILD_PROCESS_ID USER_IMAGE_BASE (USER_STACK_LIMIT - 8) 0x1000000), s')
    /\ isolated (layouts 0) kernel image segments s'.
Proof.
  destruct (child_isolated (layouts 0) kernel plan image ChildStorage.new) as (segments&s'&Hsl&Hb&_&Hi).
  - by apply layouts_ok, Nat.ltb_lt.
  - apply kernel_entries_ok.
  - by vm_compute.
  - apply new_storage.
  - apply plan_valid.
  - exists segments, s'. split_and!; [|done|done]. vm_compute in Hsl. by injection Hsl as <-.
Defined.

(** A process prepared, made current, and a second one that does not fit the
    identifiers. *)
Definition ops : list operation := [Prepare image kernel 2; Activate 2; Prepare image kernel 1; Release 7].

Lemma ops_ok : Forall operation_ok ops.
Proof. repeat constructor; apply kernel_entries_ok. Qed.


(** The initial slots can take a process. *)
Lemma initial_can_prepare : can_prepare Children.initial image 2.
Proof.
  split; [by vm_compute| |done|done|].
  - exists plan. split; [vm_compute; reflexivity|apply plan_valid].
  - apply list_elem_of_lookup. by exists 0%nat.
Qed.

Lemma prepare_release_witness :
  exists context self',
    Children.prepare_child layouts Children.initial image kernel 2 = Ret (Ok context, self')
    /\ Children.cr3_of layouts self' 2 = Some (ChildContext.cr3 context).
Proof.
  destruct (prepare_release layouts [] Children.initial image kernel 2) as (result&self'&Hp&Hr);
    [apply layouts_ok|constructor|done|apply kernel_entries_ok|].
  destruct result as [context|e].
  - exists context, self'. split; [done|]. by destruct Hr as (_&_&Hcr3&_).
  - by destruct Hr as [_ []%(fun H => H initial_can_prepare)].
Defined.

(** The process is prepared and made current. *)
Definition running : list operation := [Prepare image kernel 2; Activate 2].

Lemma running_slot :
  exists self slot, perform_all layouts Children.initial running = Ret self
    /\ Children.slot_of self (Children.active_process self) = Some slot.
Proof.
  destruct (prepare_child_spec layouts layouts_ok Children.initial image kernel 2)
    as ([context|e]&self'&Hp&_&Hr); [apply initial_ok|apply kernel_entries_ok| |].
  - destruct Hr as (_&_&Hcr3). unfold Children.cr3_of in Hcr3.
    destruct (Children.slot_of self' 2) as [slot|] eqn:E; [|done].
    exists (Children.set_active_process self' 2), slot. split; [|done].
    unfold running. cbn [perform_all perform]. by rewrite Hp.
  - by destruct Hr as [_ []%(fun H => H initial_can_prepare)].
Qed.

Lemma pointer_checks_exact_witness :
  exists self s kernel image segments slot,
    perform_all layouts Children.initial running = Ret self
    /\ isolated (layouts slot) kernel image segments s
    /\ forall address, child_readable self address 0 = Ret false.
Proof.
  destruct running_slot as (self&slot&Hrun&Hslot).
  destruct (pointer_checks_exact layouts running self slot) as (s&kernel'&image'&segments&_&Hi&Hc);
    [apply layouts_ok|repeat constructor; apply kernel_entries_ok|done|done|].
  exists self, s, kernel', image', segments, slot. split_and!; [done|done|]. intros address.
  destruct (Hc address 0) as ([]&w&x&Hr&_&_&Hiff&_); [|done]. by destruct (proj1 Hiff eq_refl).
Defined.
End UserChildExample.
