(* ===== verification/Gpt.v ===== *)
(** * The partition table (kernel/src/gpt.rs)

    How the kernel finds its partitions on a disk: the protective boot record,
    the two headers with their checksums, and the two arrays of entries. The
    closure that reads a sector is a parameter. *)

From stdpp Require Import prelude.
From S2P Require Import Prelude BootContract.

Local Open Scope N_scope.
Local Open Scope nagi_scope.
Import Proc.

Definition SECTOR_SIZE : nat := 512.
Definition ENTRY_COUNT : nat := 128.
Definition ENTRY_SIZE : nat := 128.
Definition ENTRY_ARRAY_SECTORS : N := 32.
Definition USER_DATA_TYPE_GUID : list N :=
  [0x01; 0x47; 0x41; 0x4e; 0x01; 0x00; 0x41; 0x4e; 0x47; 0x49; 0; 0; 0; 0; 0; 3].
Definition MODEL_STORE_TYPE_GUID : list N :=
  [0x01; 0x47; 0x41; 0x4e; 0x01; 0x00; 0x41; 0x4e; 0x47; 0x49; 0; 0; 0; 0; 0; 5].
Definition SYSTEM_A_TYPE_GUID : list N :=
  [0x01; 0x47; 0x41; 0x4e; 0x01; 0x00; 0x41; 0x4e; 0x47; 0x49; 0; 0; 0; 0; 0; 1].
Definition SYSTEM_B_TYPE_GUID : list N :=
  [0x01; 0x47; 0x41; 0x4e; 0x01; 0x00; 0x41; 0x4e; 0x47; 0x49; 0; 0; 0; 0; 0; 2].
(** [b"EFI PART"] *)
Definition HEADER_SIGNATURE : list N := [0x45; 0x46; 0x49; 0x20; 0x50; 0x41; 0x52; 0x54].
Definition GPT_REVISION_1_0 : N := 0x00010000.
Definition GPT_HEADER_MIN_SIZE : N := 92.
Definition MBR_PARTITION_OFFSET : nat := 446.

Module PartitionRange.
Record t := mk { start_lba : N; sector_count : N }.
End PartitionRange.

Module PartitionLayout.
Record t := mk {
  user_data : PartitionRange.t;
  model_store : option PartitionRange.t;
  system_a : option PartitionRange.t;
  system_b : option PartitionRange.t
}.
End PartitionLayout.

Module GptError.
Inductive t :=
  Read | ProtectiveMbr | Header | HeaderChecksum | EntryArray | EntryChecksum | PartitionBounds
| PartitionOverlap | DuplicateGuid | MissingUserData | MultipleUserData | MultipleModelStore.
End GptError.

Module Header.
Record t := mk {
  current_lba : N;
  backup_lba : N;
  first_usable_lba : N;
  last_usable_lba : N;
  disk_guid : list N;
  entries_lba : N;
  entries_crc : N
}.
End Header.

Module Extent.
Record t := mk { first_lba : N; last_lba : N; unique_guid : list N }.
End Extent.

(** ** Bytes *)

(** The loop ors the bytes together. *)
Definition guid_is_zero (guid : list N) : bool :=
  bool_decide (fold_left N.lor guid 0 = 0).

Definition bytes_equal (left right : list N) : bool :=
  if decide (length left <> length right) then false
  else bool_decide (fold_left (fun difference x => N.lor difference (N.lxor x.1 x.2)) (zip left right) 0 = 0).

Definition read_u32 (bytes : list N) (offset : nat) : N := from_le_bytes (sub_bytes bytes offset 4).

Definition read_u64 (bytes : list N) (offset : nat) : N := from_le_bytes (sub_bytes bytes offset 8).

(** The step of the checksum is that of the boot records. *)
Definition crc32_update (crc : N) (bytes : list N) : N := fold_left crc32_byte bytes crc.

Definition crc32_finish (crc : N) : N := N.lxor U32_MAX crc.

Definition crc32 (bytes : list N) : N := crc32_finish (crc32_update U32_MAX bytes).

(** ** The protective boot record and the headers *)

(** One round of the loop over the four entries. *)
Definition check_mbr_entry (mbr : list N) (disk_sectors : N) (index : nat)
  : Exec (Result unit GptError.t) :=
  let offset := (MBR_PARTITION_OFFSET + index * 16)%nat in
  let! entry := slice mbr offset 16 in
  if decide (index = 0%nat) then
    let! sectors := u64_sub disk_sectors 1 in
    let expected_size := N.min sectors U32_MAX in
    if decide (byte_at entry 4 <> 0xee \/ read_u32 entry 8 <> 1 \/ read_u32 entry 12 <> expected_size)
    then Ret (Err GptError.ProtectiveMbr) else Ret (Ok tt)
  else if existsb (fun byte => negb (byte =? 0)) entry then Ret (Err GptError.ProtectiveMbr)
  else Ret (Ok tt).

Fixpoint check_mbr_entries (mbr : list N) (disk_sectors : N) (indices : list nat)
  : Exec (Result unit GptError.t) :=
  match indices with
  | [] => Ret (Ok tt)
  | index :: indices =>
      let* _ := check_mbr_entry mbr disk_sectors index in check_mbr_entries mbr disk_sectors indices
  end.

Definition validate_protective_mbr (mbr : list N) (disk_sectors : N) : Exec (Result unit GptError.t) :=
  if decide (byte_at mbr 510 <> 0x55 \/ byte_at mbr 511 <> 0xaa) then Ret (Err GptError.ProtectiveMbr)
  else check_mbr_entries mbr disk_sectors (seq 0 4).

(** The buffer, of which the function clears the checksum, is a local of the caller that is not
    read again. *)
Definition parse_header (bytes : list N) : Exec (Result Header.t GptError.t) :=
  if decide (bytes_equal (sub_bytes bytes 0 8) HEADER_SIGNATURE = false
             \/ read_u32 bytes 8 <> GPT_REVISION_1_0
             \/ read_u32 bytes 12 < GPT_HEADER_MIN_SIZE
             \/ N.of_nat SECTOR_SIZE < read_u32 bytes 12
             \/ read_u32 bytes 20 <> 0
             \/ read_u32 bytes 80 <> N.of_nat ENTRY_COUNT
             \/ read_u32 bytes 84 <> N.of_nat ENTRY_SIZE)
  then Ret (Err GptError.Header)
  else
    let header_size := N.to_nat (read_u32 bytes 12) in
    let expected_crc := read_u32 bytes 16 in
    let! bytes := copy_into bytes 16 [0; 0; 0; 0] in
    let! header := slice_to bytes header_size in
    let actual_crc := crc32 header in
    if decide (actual_crc <> expected_crc) then Ret (Err GptError.HeaderChecksum)
    else
      let disk_guid := sub_bytes bytes 56 16 in
      if guid_is_zero disk_guid then Ret (Err GptError.Header)
      else Ret (Ok (Header.mk (read_u64 bytes 24) (read_u64 bytes 32) (read_u64 bytes 40)
                      (read_u64 bytes 48) disk_guid (read_u64 bytes 72) (read_u32 bytes 88))).

(** ** The entries *)

(** The locals of [find_partitions] that the loop over the entries changes. *)
Module Scan.
Record t := mk {
  extents : list (option Extent.t);
  user_data : option PartitionRange.t;
  model_store : option PartitionRange.t;
  user_data_count : nat;
  model_store_count : nat;
  system_slots : list (option PartitionRange.t);
  system_slot_counts : list nat;
  crc : N
}.

Definition new : t := mk (replicate ENTRY_COUNT None) None None 0 0 [None; None] [0%nat; 0%nat] U32_MAX.

Definition update_crc (self : t) (bytes : list N) : t :=
  mk (extents self) (user_data self) (model_store self) (user_data_count self) (model_store_count self)
    (system_slots self) (system_slot_counts self) (crc32_update (crc self) bytes).
End Scan.

(** [last_lba.checked_sub(first_lba).and_then(|sectors| sectors.checked_add(1))] *)
Definition partition_range (first_lba last_lba : N) : Result PartitionRange.t GptError.t :=
  let? sectors := ok_or (if decide (first_lba <= last_lba) then Some (last_lba - first_lba) else None)
                    GptError.PartitionBounds in
  let? sector_count := ok_or (u64_checked_add sectors 1) GptError.PartitionBounds in
  Ok (PartitionRange.mk first_lba sector_count).

(** [for previous in extents.iter().flatten()] *)
Fixpoint check_previous (extent : Extent.t) (extents : list (option Extent.t)) : Result unit GptError.t :=
  match extents with
  | [] => Ok tt
  | None :: extents => check_previous extent extents
  | Some previous :: extents =>
      if bytes_equal (Extent.unique_guid extent) (Extent.unique_guid previous)
      then Err GptError.DuplicateGuid
      else if decide (Extent.first_lba extent <= Extent.last_lba previous
                      /\ Extent.first_lba previous <= Extent.last_lba extent)
      then Err GptError.PartitionOverlap
      else check_previous extent extents
  end.

(** What the type of an entry is good for. *)
Definition record_type (type_guid : list N) (first_lba last_lba : N) (scan : Scan.t)
  : Exec (Result Scan.t GptError.t) :=
  let '(Scan.mk extents user_data model_store user_data_count model_store_count
          system_slots system_slot_counts crc) := scan in
  if bytes_equal type_guid USER_DATA_TYPE_GUID then
    let* range := Ret (partition_range first_lba last_lba) in
    Ret (Ok (Scan.mk extents (Some range) model_store (user_data_count + 1) model_store_count
               system_slots system_slot_counts crc))
  else
    match list_find (fun guid => bytes_equal type_guid guid = true) [SYSTEM_A_TYPE_GUID; SYSTEM_B_TYPE_GUID] with
    | Some (i, _) =>
        let! count := index system_slot_counts i in
        let! system_slot_counts := store system_slot_counts i (count + 1)%nat in
        let* range := Ret (partition_range first_lba last_lba) in
        let! system_slots := store system_slots i (Some range) in
        Ret (Ok (Scan.mk extents user_data model_store user_data_count model_store_count
                   system_slots system_slot_counts crc))
    | None =>
        if bytes_equal type_guid MODEL_STORE_TYPE_GUID then
          let* range := Ret (partition_range first_lba last_lba) in
          Ret (Ok (Scan.mk extents user_data (Some range) user_data_count (model_store_count + 1)
                     system_slots system_slot_counts crc))
        else Ret (Ok scan)
    end.

Definition scan_entry (primary : Header.t) (index : nat) (entry : list N) (scan : Scan.t)
  : Exec (Result Scan.t GptError.t) :=
  let type_guid := sub_bytes entry 0 16 in
  if guid_is_zero type_guid then
    if existsb (fun byte => negb (byte =? 0)) entry then Ret (Err GptError.EntryArray) else Ret (Ok scan)
  else
    let unique_guid := sub_bytes entry 16 16 in
    if guid_is_zero unique_guid then Ret (Err GptError.EntryArray)
    else
      let first_lba := read_u64 entry 32 in
      let last_lba := read_u64 entry 40 in
      if decide (first_lba < Header.first_usable_lba primary \/ last_lba < first_lba
                 \/ Header.last_usable_lba primary < last_lba)
      then Ret (Err GptError.PartitionBounds)
      else
        let extent := Extent.mk first_lba last_lba unique_guid in
        let* _ := Ret (check_previous extent (Scan.extents scan)) in
        let! extents := store (Scan.extents scan) index (Some extent) in
        record_type type_guid first_lba last_lba
          (Scan.mk extents (Scan.user_data scan) (Scan.model_store scan) (Scan.user_data_count scan)
             (Scan.model_store_count scan) (Scan.system_slots scan) (Scan.system_slot_counts scan)
             (Scan.crc scan)).

(** The entries of one sector. *)
Fixpoint scan_slots (primary : Header.t) (sector_index : nat) (bytes : list N) (slots : list nat)
  (scan : Scan.t) : Exec (Result Scan.t GptError.t) :=
  match slots with
  | [] => Ret (Ok scan)
  | slot :: slots =>
      let index := (sector_index * (SECTOR_SIZE / ENTRY_SIZE) + slot)%nat in
      let! entry := slice bytes (slot * ENTRY_SIZE) ENTRY_SIZE in
      let* scan := scan_entry primary index entry scan in
      scan_slots primary sector_index bytes slots scan
  end.

(** The checks after the arrays. *)
Definition layout (scan : Scan.t) : Exec (Result PartitionLayout.t GptError.t) :=
  if decide (Scan.user_data_count scan = 0%nat) then Ret (Err GptError.MissingUserData)
  else if decide (Scan.user_data_count scan <> 1%nat) then Ret (Err GptError.MultipleUserData)
  else if decide (1 < Scan.model_store_count scan)%nat then Ret (Err GptError.MultipleModelStore)
  else
    let slot i :=
      let! count := index (Scan.system_slot_counts scan) i in
      if decide (count = 1%nat) then index (Scan.system_slots scan) i else Ret None in
    let* user_data := Ret (ok_or (Scan.user_data scan) GptError.MissingUserData) in
    let! system_a := slot 0%nat in
    let! system_b := slot 1%nat in
    Ret (Ok (PartitionLayout.mk user_data (Scan.model_store scan) system_a system_b)).

Section reading.
Context {D : Type} (read_sector : N -> Proc D unit (list N)).

(** [read_sector(lba, &mut bytes).map_err(|()| GptError::Read)?] *)
Definition read_lba (lba : N) : Proc D GptError.t (list N) := fun d =>
  let! (result, d) := read_sector lba d in Ret (map_err (fun _ => GptError.Read) result, d).

Fixpoint scan_array (primary : Header.t) (indices : list nat) (scan : Scan.t) : Proc D GptError.t Scan.t :=
  match indices with
  | [] => ret scan
  | sector_index :: indices =>
      do bytes := read_lba (Header.entries_lba primary + N.of_nat sector_index) in
      do scan := exec (scan_slots primary sector_index bytes (seq 0 (SECTOR_SIZE / ENTRY_SIZE))
                         (Scan.update_crc scan bytes)) in
      scan_array primary indices scan
  end.

Fixpoint compare_arrays (primary backup : Header.t) (indices : list nat) (backup_crc : N)
  : Proc D GptError.t N :=
  match indices with
  | [] => ret backup_crc
  | sector_index :: indices =>
      do bytes := read_lba (Header.entries_lba backup + N.of_nat sector_index) in
      do primary_copy := read_lba (Header.entries_lba primary + N.of_nat sector_index) in
      if bytes_equal bytes primary_copy
      then compare_arrays primary backup indices (crc32_update backup_crc bytes)
      else fail GptError.EntryArray
  end.

Definition find_partitions (disk_sectors : N) : Proc D GptError.t PartitionLayout.t :=
  if decide (disk_sectors < ENTRY_ARRAY_SECTORS + 4) then fail GptError.Header
  else
    do mbr := read_lba 0 in
    do _ := exec (validate_protective_mbr mbr disk_sectors) in
    do primary_bytes := read_lba 1 in
    do primary := exec (parse_header primary_bytes) in
    let backup_lba := disk_sectors - 1 in
    if decide (Header.current_lba primary <> 1
               \/ Header.backup_lba primary <> backup_lba
               \/ Header.entries_lba primary <> 2
               \/ Header.first_usable_lba primary < 2 + ENTRY_ARRAY_SECTORS
               \/ backup_lba - ENTRY_ARRAY_SECTORS <= Header.last_usable_lba primary
               \/ Header.last_usable_lba primary < Header.first_usable_lba primary)
    then fail GptError.Header
    else
      do backup_bytes := read_lba backup_lba in
      do backup := exec (parse_header backup_bytes) in
      if decide (Header.current_lba backup <> backup_lba
                 \/ Header.backup_lba backup <> 1
                 \/ Header.entries_lba backup <> backup_lba - ENTRY_ARRAY_SECTORS
                 \/ Header.first_usable_lba backup <> Header.first_usable_lba primary
                 \/ Header.last_usable_lba backup <> Header.last_usable_lba primary
                 \/ bytes_equal (Header.disk_guid backup) (Header.disk_guid primary) = false
                 \/ Header.entries_crc backup <> Header.entries_crc primary)
      then fail GptError.Header
      else
        do scan := scan_array primary (seq 0 (N.to_nat ENTRY_ARRAY_SECTORS)) Scan.new in
        if decide (crc32_finish (Scan.crc scan) <> Header.entries_crc primary)
        then fail GptError.EntryChecksum
        else
          do backup_crc := compare_arrays primary backup (seq 0 (N.to_nat ENTRY_ARRAY_SECTORS)) U32_MAX in
          if decide (crc32_finish backup_crc <> Header.entries_crc primary)
          then fail GptError.EntryChecksum
          else exec (layout scan).

Definition find_user_data (disk_sectors : N) : Proc D GptError.t PartitionRange.t :=
  do partitions := find_partitions disk_sectors in ret (PartitionLayout.user_data partitions).
End reading.

(** ** The partition tables there are *)

Definition zero_guid : list N := replicate 16 0.

Definition entry_type (e : list N) : list N := sub_bytes e 0 16.
Definition entry_guid (e : list N) : list N := sub_bytes e 16 16.
Definition entry_first (e : list N) : N := read_u64 e 32.
Definition entry_last (e : list N) : N := read_u64 e 40.
Definition entry_range (e : list N) : PartitionRange.t :=
  PartitionRange.mk (entry_first e) (entry_last e - entry_first e + 1).

(** An unused entry is all zero; a partition has an identifier and lies in the
    usable sectors. *)
Definition entry_ok (h : Header.t) (e : list N) : Prop :=
  (entry_type e = zero_guid -> Forall (eq 0) e)
  /\ (entry_type e <> zero_guid -> entry_guid e <> zero_guid
      /\ Header.first_usable_lba h <= entry_first e /\ entry_first e <= entry_last e
      /\ entry_last e <= Header.last_usable_lba h).

Definition apart (a b : list N) : Prop :=
  entry_guid a <> entry_guid b /\ (entry_last a < entry_first b \/ entry_last b < entry_first a).

Definition used (es : list (list N)) : list (list N) := filter (fun e => entry_type e <> zero_guid) es.

Definition of_type (guid : list N) (es : list (list N)) : list (list N) :=
  filter (fun e => entry_type e = guid) es.

Record array_ok (h : Header.t) (es : list (list N)) : Prop := {
  array_entries : Forall (entry_ok h) es;
  array_apart : forall i j a b, (i < j)%nat -> used es !! i = Some a -> used es !! j = Some b -> apart a b
}.

(** The partition of a type, when there is exactly one. *)
Definition sole (es : list (list N)) : option PartitionRange.t :=
  match es with [e] => Some (entry_range e) | _ => None end.

Definition layout_of (es : list (list N)) (l : PartitionLayout.t) : Prop :=
  sole (of_type USER_DATA_TYPE_GUID es) = Some (PartitionLayout.user_data l)
  /\ (length (of_type MODEL_STORE_TYPE_GUID es) <= 1)%nat
  /\ PartitionLayout.model_store l = sole (of_type MODEL_STORE_TYPE_GUID es)
  /\ PartitionLayout.system_a l = sole (of_type SYSTEM_A_TYPE_GUID es)
  /\ PartitionLayout.system_b l = sole (of_type SYSTEM_B_TYPE_GUID es).

(** One partition over the whole disk, of the protective type, and no other. *)
Definition mbr_ok (mbr : list N) (disk_sectors : N) : Prop :=
  sub_bytes mbr 510 2 = [0x55; 0xaa] /\ byte_at mbr 450 = 0xee /\ read_u32 mbr 454 = 1
  /\ read_u32 mbr 458 = N.min (disk_sectors - 1) U32_MAX /\ Forall (eq 0) (sub_bytes mbr 462 48).

Record header_ok (bytes : list N) (h : Header.t) : Prop := {
  header_signature : sub_bytes bytes 0 8 = HEADER_SIGNATURE;
  header_revision : read_u32 bytes 8 = GPT_REVISION_1_0;
  header_size : 92 <= read_u32 bytes 12 <= 512;
  header_reserved : read_u32 bytes 20 = 0;
  header_entries : read_u32 bytes 80 = 128 /\ read_u32 bytes 84 = 128;
  header_checksum : BootContract.crc32 (take (N.to_nat (read_u32 bytes 12)) (put 16 [0; 0; 0; 0] bytes))
                    = read_u32 bytes 16;
  header_disk : sub_bytes bytes 56 16 <> zero_guid;
  header_fields : h = Header.mk (read_u64 bytes 24) (read_u64 bytes 32) (read_u64 bytes 40)
                        (read_u64 bytes 48) (sub_bytes bytes 56 16) (read_u64 bytes 72) (read_u32 bytes 88)
}.

(** The sectors of an array of entries and its entries. *)
Definition array_at (sectors : N -> list N) (lba : N) : list (list N) :=
  (fun i => sectors (lba + N.of_nat i)) <$> seq 0 32.

Definition sector_entries (bytes : list N) : list (list N) :=
  (fun slot => sub_bytes bytes (slot * 128) 128) <$> seq 0 4.

Record headers_ok (disk_sectors : N) (primary backup : Header.t) : Prop := {
  headers_primary : Header.current_lba primary = 1 /\ Header.backup_lba primary = disk_sectors - 1
    /\ Header.entries_lba primary = 2;
  headers_usable : 34 <= Header.first_usable_lba primary
    /\ Header.first_usable_lba primary <= Header.last_usable_lba primary
    /\ Header.last_usable_lba primary < disk_sectors - 33;
  headers_backup : Header.current_lba backup = disk_sectors - 1 /\ Header.backup_lba backup = 1
    /\ Header.entries_lba backup = disk_sectors - 33;
  headers_agree : Header.first_usable_lba backup = Header.first_usable_lba primary
    /\ Header.last_usable_lba backup = Header.last_usable_lba primary
    /\ Header.disk_guid backup = Header.disk_guid primary
    /\ Header.entries_crc backup = Header.entries_crc primary
}.

(** A disk of [disk_sectors] sectors with the partitions [l]. *)
Definition partition_table (sectors : N -> list N) (disk_sectors : N) (l : PartitionLayout.t) : Prop :=
  36 <= disk_sectors /\ mbr_ok (sectors 0) disk_sectors
  /\ exists primary backup,
       header_ok (sectors 1) primary /\ header_ok (sectors (disk_sectors - 1)) backup
       /\ headers_ok disk_sectors primary backup
       /\ array_at sectors (disk_sectors - 33) = array_at sectors 2
       /\ BootContract.crc32 (mjoin (array_at sectors 2)) = Header.entries_crc primary
       /\ array_ok primary (array_at sectors 2 ≫= sector_entries)
       /\ layout_of (array_at sectors 2 ≫= sector_entries) l.

(** ** Bytes, proofs *)

Lemma fold_lor_zero {A} (f : A -> N) (l : list A) : forall n,
  fold_left (fun acc x => N.lor acc (f x)) l n = 0 <-> n = 0 /\ Forall (fun x => f x = 0) l.
Proof.
  induction l as [|x l IH]; intros n; cbn [fold_left]; [rewrite Forall_nil; tauto|].
  rewrite IH, N.lor_eq_0_iff, Forall_cons. tauto.
Qed.

Lemma guid_is_zero_spec guid : length guid = 16%nat -> guid_is_zero guid = bool_decide (guid = zero_guid).
Proof.
  intros Hl. unfold guid_is_zero. apply bool_decide_ext.
  pose proof (fold_lor_zero id guid 0) as Hf. unfold id in Hf at 1. rewrite Hf. unfold zero_guid. rewrite <-Hl.
  split; [|intros ->; split; [done|by apply Forall_replicate]]. intros [_ Hz].
  symmetry. apply replicate_as_Forall_2; [done|]. by eapply Forall_impl; [exact Hz|].
Qed.

Lemma bytes_equal_spec l r : bytes_equal l r = bool_decide (l = r).
Proof.
  unfold bytes_equal. case_decide as Hl.
  { rewrite bool_decide_false; [done|]. congruence. }
  apply bool_decide_ext. rewrite (fold_lor_zero (fun x => N.lxor x.1 x.2)).
  split.
  - intros [_ Hz]. revert r Hl Hz. induction l as [|x l IH]; intros [|y r] Hl Hz; [done..|].
    cbn in Hz. apply Forall_cons in Hz as [Hx Hz]. apply N.lxor_eq in Hx. cbn in Hx. subst.
    f_equal. by apply IH; [injection Hl|].
  - intros ->. split; [done|]. clear Hl. induction r; cbn; constructor; [apply N.lxor_nilpotent|done].
Qed.

Lemma existsb_nonzero (l : list N) :
  existsb (fun b => negb (b =? 0)) l = negb (bool_decide (Forall (eq 0) l)).
Proof.
  destruct (existsb _ l) eqn:E; symmetry; [apply negb_true_iff, bool_decide_false|apply negb_false_iff, bool_decide_true].
  - apply existsb_exists in E as (b&Hb&Hz). rewrite Forall_forall. intros Hall.
    apply list_elem_of_In, Hall in Hb. by subst.
  - apply Forall_forall. intros b Hb. apply list_elem_of_In in Hb. destruct (N.eqb_spec b 0) as [->|Hn]; [done|].
    rewrite <-not_true_iff_false, existsb_exists in E. exfalso. apply E. exists b. split; [done|].
    by apply negb_true_iff, N.eqb_neq.
Qed.

Lemma crc32_same bytes : crc32 bytes = BootContract.crc32 bytes.
Proof. done. Qed.

(** ** The entries, proofs *)

Lemma used_snoc es e :
  used (es ++ [e]) = used es ++ (if decide (entry_type e = zero_guid) then [] else [e]).
Proof.
  unfold used. rewrite filter_app. f_equal. cbn. case_decide as H1; case_decide as H2; done.
Qed.

Lemma of_type_snoc guid es e :
  of_type guid (es ++ [e]) = of_type guid es ++ (if decide (entry_type e = guid) then [e] else []).
Proof. unfold of_type. rewrite filter_app. f_equal. Qed.

Lemma array_ok_snoc h es e :
  array_ok h (es ++ [e]) <->
  array_ok h es /\ entry_ok h e
  /\ (entry_type e <> zero_guid -> Forall (fun a => apart a e) (used es)).
Proof.
  split.
  - intros [He Ha]. apply Forall_app in He as [He [Hlast _]%Forall_cons]. rewrite used_snoc in Ha.
    split; [split; [done|]|split; [done|]].
    + intros i j a b Hij Hi Hj. apply (Ha i j); [done|by apply lookup_app_l_Some..].
    + intros Hu. apply Forall_lookup. intros i a Hi. rewrite decide_False in Ha by done.
      apply (Ha i (length (used es))); [by eapply lookup_lt_Some|by apply lookup_app_l_Some|].
      by rewrite list_lookup_middle.
  - intros ([He Ha]&Hlast&Hapart). split; [apply Forall_app; split; [done|by apply Forall_singleton]|].
    intros i j a b Hij. rewrite used_snoc. case_decide as Hz; [rewrite app_nil_r; by apply Ha|].
    intros Hi Hj. apply lookup_app_Some in Hj as [Hj|[Hlen Hj]].
    + rewrite lookup_app_l in Hi by (apply lookup_lt_Some in Hj; lia). by apply (Ha i j).
    + apply list_lookup_singleton_Some in Hj as [Hj ->].
      rewrite lookup_app_l in Hi by lia. apply Hapart in Hz. by eapply Forall_lookup in Hz.
Qed.

Lemma array_ok_app h es es' : array_ok h (es ++ es') -> array_ok h es.
Proof.
  revert es. induction es' as [|e es' IH]; intros es; [by rewrite app_nil_r|].
  intros Ha. rewrite cons_middle, (assoc_L (++)) in Ha. apply IH in Ha. by apply array_ok_snoc in Ha as [Ha _].
Qed.

Definition entry_extent (e : list N) : option Extent.t :=
  if decide (entry_type e = zero_guid) then None
  else Some (Extent.mk (entry_first e) (entry_last e) (entry_guid e)).

(** The earlier partitions, in the array that has room for more. *)
Definition extents_of (es : list (list N)) : list (option Extent.t) :=
  (entry_extent <$> es) ++ replicate (ENTRY_COUNT - length es) None.

Lemma check_previous_app x l l' :
  check_previous x (l ++ l') = match check_previous x l with Ok _ => check_previous x l' | Err e => Err e end.
Proof.
  induction l as [|[p|] l IH]; cbn [app check_previous]; [done| |done].
  destruct (bytes_equal _ _); [done|]. by case_decide.
Qed.

Lemma check_previous_free x n : check_previous x (replicate n None) = Ok tt.
Proof. by induction n. Qed.

Lemma check_previous_error x l err : check_previous x l = Err err -> err <> GptError.Read.
Proof.
  induction l as [|[p|] l IH]; cbn [check_previous]; [done| |done].
  case_match; [by intros [= <-]|]. case_decide; [by intros [= <-]|done].
Qed.

Lemma check_previous_spec e es :
  match check_previous (Extent.mk (entry_first e) (entry_last e) (entry_guid e)) (extents_of es) with
  | Ok _ => Forall (fun a => apart a e) (used es)
  | Err _ => ~ Forall (fun a => apart a e) (used es)
  end.
Proof.
  unfold extents_of. rewrite check_previous_app, check_previous_free.
  induction es as [|a es IH]; [constructor|]. rewrite fmap_cons. unfold entry_extent at 1.
  unfold used. rewrite filter_cons. destruct (decide (entry_type a = zero_guid)) as [Hz|Hz].
  { rewrite decide_False by tauto. exact IH. }
  rewrite decide_True by done. cbn [check_previous Extent.unique_guid Extent.first_lba Extent.last_lba].
  rewrite bytes_equal_spec. case_bool_decide as Hg.
  { rewrite Forall_cons. unfold apart. naive_solver. }
  case_decide as Ho.
  { rewrite Forall_cons. unfold apart. lia. }
  destruct (check_previous _ _).
  - apply Forall_cons. split; [|exact IH]. split; [congruence|lia].
  - rewrite Forall_cons. intros [_ Hf]. by apply IH.
Qed.

(** What the loop knows after the entries [es]. *)
Definition latest (guid : list N) (es : list (list N)) : option PartitionRange.t :=
  entry_range <$> last (of_type guid es).

Definition scan_of (es : list (list N)) (crc : N) : Scan.t :=
  Scan.mk (extents_of es) (latest USER_DATA_TYPE_GUID es) (latest MODEL_STORE_TYPE_GUID es)
    (length (of_type USER_DATA_TYPE_GUID es)) (length (of_type MODEL_STORE_TYPE_GUID es))
    [latest SYSTEM_A_TYPE_GUID es; latest SYSTEM_B_TYPE_GUID es]
    [length (of_type SYSTEM_A_TYPE_GUID es); length (of_type SYSTEM_B_TYPE_GUID es)] crc.

Lemma latest_snoc guid es e :
  latest guid (es ++ [e]) = if decide (entry_type e = guid) then Some (entry_range e) else latest guid es.
Proof.
  unfold latest. rewrite of_type_snoc. case_decide; [by rewrite last_snoc|by rewrite app_nil_r].
Qed.

Lemma count_snoc guid es e :
  length (of_type guid (es ++ [e]))
  = if decide (entry_type e = guid) then (length (of_type guid es) + 1)%nat else length (of_type guid es).
Proof. rewrite of_type_snoc, length_app. case_decide; cbn; lia. Qed.

Lemma extents_snoc es e :
  (length es < ENTRY_COUNT)%nat ->
  extents_of (es ++ [e]) = (if decide (entry_type e = zero_guid) then extents_of es
    else <[length es := entry_extent e]> (extents_of es)).
Proof.
  intros Hl. unfold extents_of. rewrite fmap_app, length_app, <-(assoc_L (++)). cbn [length fmap list_fmap].
  replace (ENTRY_COUNT - length es)%nat with (S (ENTRY_COUNT - (length es + 1))) by lia. cbn [replicate app].
  unfold entry_extent at 2. case_decide as Hz; [done|].
  rewrite insert_app_r_alt by (rewrite length_fmap; lia). rewrite length_fmap, Nat.sub_diag. cbn.
  unfold entry_extent at 3. by rewrite decide_False.
Qed.

Lemma partition_range_spec first last :
  first <= last -> last < U64_MAX ->
  partition_range first last = Ok (PartitionRange.mk first (last - first + 1)).
Proof.
  intros Hf Hl. unfold partition_range, u64_checked_add. rewrite decide_True by done. cbn [ok_or].
  by rewrite decide_True by lia.
Qed.

Lemma record_type_spec es e crc extents :
  entry_first e <= entry_last e -> entry_last e < U64_MAX ->
  record_type (entry_type e) (entry_first e) (entry_last e)
    (Scan.mk extents (latest USER_DATA_TYPE_GUID es) (latest MODEL_STORE_TYPE_GUID es)
      (length (of_type USER_DATA_TYPE_GUID es)) (length (of_type MODEL_STORE_TYPE_GUID es))
      [latest SYSTEM_A_TYPE_GUID es; latest SYSTEM_B_TYPE_GUID es]
      [length (of_type SYSTEM_A_TYPE_GUID es); length (of_type SYSTEM_B_TYPE_GUID es)] crc)
  = Ret (Ok (Scan.mk extents (latest USER_DATA_TYPE_GUID (es ++ [e])) (latest MODEL_STORE_TYPE_GUID (es ++ [e]))
      (length (of_type USER_DATA_TYPE_GUID (es ++ [e]))) (length (of_type MODEL_STORE_TYPE_GUID (es ++ [e])))
      [latest SYSTEM_A_TYPE_GUID (es ++ [e]); latest SYSTEM_B_TYPE_GUID (es ++ [e])]
      [length (of_type SYSTEM_A_TYPE_GUID (es ++ [e])); length (of_type SYSTEM_B_TYPE_GUID (es ++ [e]))] crc)).
Proof.
  intros Hf Hl. unfold record_type. rewrite partition_range_spec by done. rewrite !latest_snoc, !count_snoc.
  cbn [list_find]. rewrite !bytes_equal_spec. generalize (entry_type e). intros ty.
  destruct (decide (ty = USER_DATA_TYPE_GUID)) as [->|HU]; [done|].
  rewrite (bool_decide_false (ty = USER_DATA_TYPE_GUID)) by done.
  destruct (decide (ty = SYSTEM_A_TYPE_GUID)) as [->|HA]; [done|].
  rewrite (bool_decide_false (ty = SYSTEM_A_TYPE_GUID)) by done.
  destruct (decide (ty = SYSTEM_B_TYPE_GUID)) as [->|HB]; [done|].
  rewrite (bool_decide_false (ty = SYSTEM_B_TYPE_GUID)) by done.
  destruct (decide (ty = MODEL_STORE_TYPE_GUID)) as [->|HM]; [done|].
  by rewrite (bool_decide_false (ty = MODEL_STORE_TYPE_GUID)) by done.
Qed.

Lemma extents_length es : (length es <= ENTRY_COUNT)%nat -> length (extents_of es) = ENTRY_COUNT.
Proof. intros Hl. unfold extents_of. rewrite length_app, length_fmap, length_replicate. lia. Qed.

(** One round extends what is known by its entry, or the array is not a valid
    one. *)
Lemma scan_entry_spec h es e crc :
  (length es < ENTRY_COUNT)%nat -> length e = ENTRY_SIZE -> Header.last_usable_lba h < U64_MAX ->
  array_ok h es ->
  exists r, scan_entry h (length es) e (scan_of es crc) = Ret r
    /\ match r with
       | Ok scan => scan = scan_of (es ++ [e]) crc /\ array_ok h (es ++ [e])
       | Err err => err <> GptError.Read /\ ~ array_ok h (es ++ [e])
       end.
Proof.
  intros Hn Hl Hu Hes. pose proof (extents_length es ltac:(lia)) as Hext. unfold scan_entry.
  pose proof (array_ok_snoc h es e) as Hs. revert Hs. generalize (array_ok h (es ++ [e])). intros P Hs.
  change (sub_bytes e 0 16) with (entry_type e). change (sub_bytes e 16 16) with (entry_guid e).
  change (read_u64 e 32) with (entry_first e). change (read_u64 e 40) with (entry_last e).
  rewrite !guid_is_zero_spec by (unfold entry_type, entry_guid, sub_bytes; rewrite length_take, length_drop, Hl; done).
  rewrite existsb_nonzero. unfold entry_ok in Hs.
  case_bool_decide as Hz.
  { case_bool_decide as Hall; (eexists; split; [done|]); cbn [negb]; [|split; [done|rewrite Hs; tauto]].
    split; [|rewrite Hs; tauto]. unfold scan_of. rewrite extents_snoc, !latest_snoc, !count_snoc, Hz by done. done. }
  case_bool_decide as Hg; [eexists; split; [done|]; split; [done|rewrite Hs; tauto]|].
  case_decide as Hb; [eexists; split; [done|]; split; [done|]; intros (_&[_ He]&_)%Hs; specialize (He Hz); lia|].
  pose proof (check_previous_spec e es) as Hprev. cbn [Scan.extents scan_of].
  destruct (check_previous _ _) as [[]|err] eqn:E; cbn [try].
  2: { eexists. split; [done|]. split; [|rewrite Hs; tauto]. by apply check_previous_error in E. }
  unfold store. rewrite decide_True by (rewrite Hext; done).
  cbn [scan_of Scan.user_data Scan.model_store Scan.user_data_count Scan.model_store_count
       Scan.system_slots Scan.system_slot_counts Scan.crc].
  rewrite record_type_spec by lia. eexists. split; [done|]. split; [|apply Hs; split_and!; [done|done|intros _; split_and!; [done|lia..]|done]].
  unfold scan_of. rewrite extents_snoc by done. rewrite decide_False by done.
  unfold entry_extent. by rewrite decide_False by done.
Qed.

Lemma scan_slots_spec h i bytes crc n : forall k es,
  length bytes = SECTOR_SIZE -> Header.last_usable_lba h < U64_MAX ->
  (k + n <= 4)%nat -> (i < 32)%nat -> length es = (i * 4 + k)%nat -> array_ok h es ->
  let es' := es ++ ((fun slot => sub_bytes bytes (slot * 128) 128) <$> seq k n) in
  exists r, scan_slots h i bytes (seq k n) (scan_of es crc) = Ret r
    /\ match r with
       | Ok scan => scan = scan_of es' crc /\ array_ok h es'
       | Err err => err <> GptError.Read /\ ~ array_ok h es'
       end.
Proof.
  induction n as [|n IH]; intros k es Hl Hu Hk Hi Hes Hok; cbn zeta.
  { cbn. rewrite app_nil_r. by eexists. }
  cbn [seq scan_slots]. rewrite fmap_cons, cons_middle, (assoc_L (++)).
  unfold ENTRY_SIZE. rewrite slice_sub by (unfold SECTOR_SIZE in Hl; lia).
  set (e := sub_bytes bytes (k * 128) 128).
  assert (He : length e = ENTRY_SIZE).
  { unfold e, sub_bytes. rewrite length_take, length_drop, Hl. unfold SECTOR_SIZE, ENTRY_SIZE. lia. }
  change (SECTOR_SIZE / 128)%nat with 4%nat. rewrite <-Hes.
  destruct (scan_entry_spec h es e crc) as ([scan|err]&->&Hr); [unfold ENTRY_COUNT; lia|done..| |].
  - destruct Hr as [-> Hr]. cbn [try]. apply IH; [done|done|lia|done| |done]. rewrite length_app. cbn. lia.
  - eexists. split; [done|]. split; [apply Hr|]. intros Ha%array_ok_app. by apply Hr.
Qed.

(** ** The boot record and the headers, proofs *)

Lemma validate_mbr_spec mbr disk_sectors :
  length mbr = SECTOR_SIZE -> 1 <= disk_sectors ->
  exists r, validate_protective_mbr mbr disk_sectors = Ret r
    /\ match r with
       | Ok _ => mbr_ok mbr disk_sectors
       | Err err => err <> GptError.Read /\ ~ mbr_ok mbr disk_sectors
       end.
Proof.
  intros Hl Hd. unfold SECTOR_SIZE in Hl. unfold validate_protective_mbr, mbr_ok.
  assert (H510 : sub_bytes mbr 510 2 = [byte_at mbr 510; byte_at mbr 511]).
  { pose proof (byte_at_sub mbr 510 2 0 ltac:(lia)) as H0. pose proof (byte_at_sub mbr 510 2 1 ltac:(lia)) as H1.
    assert (Hlen : length (sub_bytes mbr 510 2) = 2%nat)
      by (unfold sub_bytes; rewrite length_take, length_drop, Hl; done).
    cbn [Nat.add] in H0, H1. rewrite <-H0, <-H1. destruct (sub_bytes mbr 510 2) as [|x [|y []]]; done. }
  rewrite H510. case_decide as Hsig; [eexists; split; [done|]; naive_solver|].
  change (seq 0 4) with [0; 1; 2; 3]%nat. cbn [check_mbr_entries]. unfold check_mbr_entry, MBR_PARTITION_OFFSET.
  rewrite !slice_sub by lia. cbn [Nat.add Nat.mul]. rewrite !existsb_nonzero. unfold u64_sub.
  rewrite decide_True, decide_True by done. unfold read_u32. rewrite !sub_bytes_sub, byte_at_sub by lia. cbn [Nat.add].
  assert (Hz : Forall (eq 0) (sub_bytes mbr 462 48) <-> Forall (eq 0) (sub_bytes mbr 462 16)
    /\ Forall (eq 0) (sub_bytes mbr 478 16) /\ Forall (eq 0) (sub_bytes mbr 494 16)).
  { change 48%nat with (16 + (16 + 16))%nat. by rewrite !sub_bytes_app, !Forall_app. }
  revert Hz. generalize (Forall (eq 0) (sub_bytes mbr 462 48)). intros P Hz.
  case_decide as Hfirst; [eexists; split; [done|]; split; [done|tauto]|]. cbn [try].
  rewrite !decide_False by done.
  repeat (case_bool_decide; cbn [try negb]; [|eexists; split; [done|]; split; [done|tauto]]).
  eexists. split; [done|]. split_and!; [repeat f_equal; lia|lia|lia|lia|tauto].
Qed.

Lemma parse_header_spec bytes :
  length bytes = SECTOR_SIZE ->
  exists r, parse_header bytes = Ret r
    /\ match r with
       | Ok h => header_ok bytes h
       | Err err => err <> GptError.Read /\ forall h, ~ header_ok bytes h
       end.
Proof.
  intros Hl. unfold SECTOR_SIZE in Hl. unfold parse_header.
  unfold GPT_HEADER_MIN_SIZE. change (N.of_nat SECTOR_SIZE) with 512. change (N.of_nat ENTRY_COUNT) with 128.
  change (N.of_nat ENTRY_SIZE) with 128. rewrite bytes_equal_spec.
  case_decide as Hf.
  { eexists. split; [done|]. split; [done|]. intros h [H1 H2 H3 H4 H5 _ _ _]. rewrite bool_decide_true in Hf by done.
    destruct Hf as [?|[?|[?|[?|[?|[?|?]]]]]]; (done || lia || tauto). }
  assert (Hsig : sub_bytes bytes 0 8 = HEADER_SIGNATURE).
  { destruct (decide (sub_bytes bytes 0 8 = HEADER_SIGNATURE)) as [|Hn]; [done|].
    rewrite bool_decide_false in Hf by done. tauto. }
  rewrite bool_decide_true in Hf by done. rewrite copy_into_put by (rewrite Hl; cbn; lia). unfold slice_to.
  assert (Hput : length (put 16 [0; 0; 0; 0] bytes) = 512%nat) by (rewrite put_length; [done|rewrite Hl; cbn; lia]).
  assert (Hafter : forall a n, (20 <= a)%nat -> sub_bytes (put 16 [0; 0; 0; 0] bytes) a n = sub_bytes bytes a n).
  { intros a n Ha. apply sub_bytes_put_after; cbn; lia. }
  assert (H64 : forall a, (20 <= a)%nat -> read_u64 (put 16 [0; 0; 0; 0] bytes) a = read_u64 bytes a)
    by (intros a Ha; unfold read_u64; by rewrite Hafter).
  assert (H32 : read_u32 (put 16 [0; 0; 0; 0] bytes) 88 = read_u32 bytes 88)
    by (unfold read_u32; rewrite Hafter by lia; done).
  rewrite !H64, H32, Hafter by lia. rewrite decide_True by (rewrite Hput; lia).
  case_decide as Hcrc.
  { eexists. split; [done|]. split; [done|]. intros h [_ _ _ _ _ H6 _ _]. done. }
  rewrite guid_is_zero_spec by (unfold sub_bytes; rewrite length_take, length_drop, Hl; done).
  case_bool_decide as Hg.
  { eexists. split; [done|]. split; [done|]. by intros h [_ _ _ _ _ _ H7 _]. }
  eexists. split; [done|].
  split; [done|lia|lia|lia|lia|done|done|done].
Qed.

Lemma sole_last (es : list (list N)) :
  (length es <= 1)%nat -> entry_range <$> last es = sole es.
Proof. destruct es as [|e [|]]; cbn; [done|done|lia]. Qed.

Lemma layout_spec es crc :
  exists r, layout (scan_of es crc) = Ret r
    /\ match r with
       | Ok l => layout_of es l
       | Err err => err <> GptError.Read /\ forall l, ~ layout_of es l
       end.
Proof.
  unfold layout, layout_of.
  cbn [scan_of Scan.user_data_count Scan.user_data Scan.model_store_count Scan.model_store Scan.system_slot_counts
       Scan.system_slots index lookup list_lookup].
  assert (Hslot : forall guid, (if decide (length (of_type guid es) = 1%nat) then Ret (latest guid es) else Ret None)
                               = Ret (sole (of_type guid es))).
  { intros guid. unfold latest. case_decide as H1; [f_equal; apply sole_last; lia|].
    by destruct (of_type guid es) as [|? [|]]. }
  rewrite !Hslot. unfold latest.
  destruct (of_type USER_DATA_TYPE_GUID es) as [|u [|? ?]].
  - eexists. split; [done|]. split; [done|]. by intros l (?&_).
  - cbn [length last fmap option_fmap option_map ok_or try sole]. rewrite decide_False, decide_False by lia. case_decide as Hm.
    + eexists. split; [done|]. split; [done|]. intros l (_&?&_). lia.
    + eexists. split; [done|]. cbn. split_and!; [done|lia|apply sole_last; lia|done|done].
  - eexists. split; [done|]. split; [done|]. by intros ? (?&_).
Qed.

(** ** Reading *)

(** What is asked of the closure that reads, on a disk of [limit] sectors: it
    returns a sector or fails. [may_read d n bytes] says what a read of sector
    [n] may return from the state [d] on; a disk that keeps its contents is one
    where there is one possibility for each sector. *)
Class ReaderLaws {D : Type} (read_sector : N -> Proc D unit (list N)) (limit : N) := {
  may_read : D -> N -> list N -> Prop;
  may_fail : D -> Prop;
  read_law : forall d n, n < limit ->
    yields (read_sector n) d
      (fun bytes d' => length bytes = SECTOR_SIZE /\ may_read d n bytes
        /\ (forall m b, may_read d' m b -> may_read d m b) /\ (may_fail d' -> may_fail d))
      (fun _ _ => may_fail d)
}.

Section laws.
Context {D : Type} (read_sector : N -> Proc D unit (list N)) (limit : N).
Context `{!ReaderLaws read_sector limit}.

Definition later (d d' : D) : Prop :=
  (forall m b, may_read d' m b -> may_read d m b) /\ (may_fail d' -> may_fail d).

#[local] Instance later_preorder : PreOrder later.
Proof. unfold later. split; [done|]. intros d1 d2 d3 [H1 H2] [H3 H4]. split; auto. Qed.

(** Code that reads: its result satisfies [Q] unless a read failed. *)
Definition searches {T} (m : Proc D GptError.t T) (d : D) (Q : Result T GptError.t -> Prop) : Prop :=
  yields m d (fun x d' => later d d' /\ Q (Ok x))
    (fun e _ => (e = GptError.Read /\ may_fail d) \/ (e <> GptError.Read /\ Q (Err e))).

Lemma search_ret {T} (x : T) d (Q : Result T GptError.t -> Prop) : Q (Ok x) -> searches (ret x) d Q.
Proof. intros. by apply yields_ret. Qed.

Lemma search_fail {T} e d (Q : Result T GptError.t -> Prop) :
  e <> GptError.Read -> Q (Err e) -> searches (fail e) d Q.
Proof. intros. apply yields_fail. by right. Qed.

Lemma search_bind {T U} (m : Proc D GptError.t T) (k : T -> Proc D GptError.t U) d Q Q' :
  searches m d Q -> (forall e, Q (Err e) -> Q' (Err e)) ->
  (forall x d', later d d' -> Q (Ok x) -> searches (k x) d' Q') -> searches (bind m k) d Q'.
Proof.
  intros Hm He Hk. unfold searches. eapply yields_bind.
  - eapply yields_mono; [exact Hm|by intros x d' Hx; exact Hx|naive_solver].
  - intros x d' [Hl Hx]. eapply yields_mono; [by apply Hk| |].
    + intros y d'' [Hl' Hy]. split; [by etrans|done].
    + destruct Hl. naive_solver.
Qed.

Lemma search_exec {T} (m : Exec (Result T GptError.t)) (r : Result T GptError.t) d Q :
  m = Ret r -> (forall e, r = Err e -> e <> GptError.Read) -> Q r -> searches (exec m) d Q.
Proof.
  intros -> He HQ. exists r, d. split; [done|]. destruct r as [x|e]; [done|]. right. split; [by apply He|done].
Qed.

Lemma search_mono {T} (m : Proc D GptError.t T) d (Q Q' : Result T GptError.t -> Prop) :
  searches m d Q -> (forall r, Q r -> Q' r) -> searches m d Q'.
Proof. intros Hm HQ. eapply yields_mono; [exact Hm| |]; naive_solver. Qed.

Lemma search_lba {T} n (k : list N -> Proc D GptError.t T) d Q :
  n < limit ->
  (forall bytes d', length bytes = SECTOR_SIZE -> may_read d n bytes -> later d d' -> searches (k bytes) d' Q) ->
  searches (bind (read_lba read_sector n) k) d Q.
Proof.
  intros Hn Hk. eapply (search_bind _ _ _ (fun r =>
    match r with Ok bytes => length bytes = SECTOR_SIZE /\ may_read d n bytes | Err _ => False end)).
  - destruct (read_law d n Hn) as ([bytes|e]&d'&Hr&Hp); unfold read_lba.
    + exists (Ok bytes), d'. split; [by rewrite Hr|]. unfold later. tauto.
    + exists (Err GptError.Read), d'. split; [by rewrite Hr|]. by left.
  - done.
  - intros bytes d' Hl [Hlen Hb]. by apply Hk.
Qed.

(** A check in between. *)
Lemma search_check {T U} (m : Exec (Result T GptError.t)) (P : T -> Prop) (R : Prop)
  (k : T -> Proc D GptError.t U) d (Q : Result U GptError.t -> Prop) :
  (exists r, m = Ret r /\ match r with Ok x => P x | Err e => e <> GptError.Read /\ R end) ->
  (forall e, R -> Q (Err e)) -> (forall x, P x -> searches (k x) d Q) -> searches (bind (exec m) k) d Q.
Proof.
  intros (r&->&Hr) HR Hk. destruct r as [x|e]; [by apply Hk|]. destruct Hr as [Hne Hr].
  exists (Err e), d. split; [done|]. right. auto.
Qed.

Section from.
(** The state at the start. *)
Context (start : D).

Definition array_read (lba : N) (k : nat) (arr : list (list N)) : Prop :=
  Forall2 (fun i b => may_read start (lba + N.of_nat i) b) (seq k (length arr)) arr.

Lemma scan_array_reads h n : forall k es crc d,
  later start d -> Header.last_usable_lba h < U64_MAX -> Header.entries_lba h + 32 <= limit ->
  (k + n <= 32)%nat -> length es = (k * 4)%nat -> array_ok h es ->
  searches (scan_array read_sector h (seq k n) (scan_of es crc)) d (fun r =>
    match r with
    | Ok scan => exists arr, length arr = n /\ array_read (Header.entries_lba h) k arr
        /\ scan = scan_of (es ++ (arr ≫= sector_entries)) (crc32_update crc (mjoin arr))
        /\ array_ok h (es ++ (arr ≫= sector_entries))
    | Err _ => exists arr, (length arr <= n)%nat /\ array_read (Header.entries_lba h) k arr
        /\ ~ array_ok h (es ++ (arr ≫= sector_entries))
    end).
Proof.
  induction n as [|n IH]; intros k es crc d Hd Hu Hlim Hk Hes Hok; cbn [seq scan_array].
  { apply search_ret. exists []. unfold array_read. rewrite app_nil_r. done. }
  apply search_lba; [lia|]. intros bytes d' Hlen Hb Hl.
  assert (Hb0 : may_read start (Header.entries_lba h + N.of_nat k) bytes) by (by apply Hd).
  assert (Hbytes : length (sector_entries bytes) = 4%nat) by done.
  destruct (scan_slots_spec h k bytes (crc32_update crc bytes) 4 0 es) as (r&Hr&HQ); [done|done|lia|lia|lia|done|].
  eapply (search_bind _ _ _ (fun r' => r' = r)).
  { eapply search_exec; [exact Hr| |done]. intros e ->. by apply HQ. }
  { intros e <-. exists [bytes]. split; [cbn; lia|]. split; [by repeat constructor|]. change ([bytes] ≫= sector_entries) with (sector_entries bytes ++ []). rewrite app_nil_r. apply HQ. }
  intros scan d'' Hl' <-. destruct HQ as [-> HQ].
  eapply search_mono; [apply IH; [by etrans; [|etrans]|done|done|lia| |done]|].
  { rewrite length_app, Hes. cbn. lia. }
  assert (Hcons : forall arr, array_read (Header.entries_lba h) (S k) arr ->
    array_read (Header.entries_lba h) k (bytes :: arr)).
  { intros arr Ha. unfold array_read. cbn [length seq]. by constructor. }
  assert (Hjoin : forall arr, (es ++ sector_entries bytes) ++ (arr ≫= sector_entries)
    = es ++ ((bytes :: arr) ≫= sector_entries)) by (intros arr; by rewrite <-(assoc_L (++))).
  intros [scan|e].
  - intros (arr&Hn&Ha&->&Hok'). exists (bytes :: arr). split; [by f_equal/=|]. split; [by apply Hcons|].
    rewrite <-Hjoin. split; [|done]. f_equal. unfold crc32_update.
    change (mjoin (bytes :: arr)) with (bytes ++ mjoin arr). by rewrite fold_left_app.
  - intros (arr&Hn&Ha&Hno). exists (bytes :: arr). split; [cbn; lia|]. split; [by apply Hcons|]. by rewrite <-Hjoin.
Qed.

Lemma compare_arrays_reads primary backup n : forall k crc d,
  later start d -> Header.entries_lba primary + 32 <= limit -> Header.entries_lba backup + 32 <= limit ->
  (k + n <= 32)%nat ->
  searches (compare_arrays read_sector primary backup (seq k n) crc) d (fun r =>
    match r with
    | Ok crc' => exists arr, length arr = n /\ array_read (Header.entries_lba backup) k arr
        /\ array_read (Header.entries_lba primary) k arr /\ crc' = crc32_update crc (mjoin arr)
    | Err _ => exists (i : nat) b p, (i < 32)%nat /\ may_read start (Header.entries_lba backup + N.of_nat i) b
        /\ may_read start (Header.entries_lba primary + N.of_nat i) p /\ b <> p
    end).
Proof.
  induction n as [|n IH]; intros k crc d Hd Hp Hb Hk; cbn [seq compare_arrays].
  { apply search_ret. exists []. split_and!; [done|by constructor..|done]. }
  apply search_lba; [lia|]. intros bytes d1 _ Hbytes H1. apply search_lba; [lia|]. intros copy d2 _ Hcopy H2.
  assert (H0 : later start d1) by (by etrans). apply Hd in Hbytes. apply H0 in Hcopy.
  rewrite bytes_equal_spec. case_bool_decide as He.
  2: { apply search_fail; [done|]. exists k, bytes, copy. split; [lia|done]. }
  subst copy. eapply search_mono; [apply IH; [by etrans|done|done|lia]|]. intros [crc'|e]; [|done].
  intros (arr&Hn&Ha&Ha'&->). exists (bytes :: arr). split; [by f_equal/=|]. split; [by constructor|].
  split; [by constructor|]. unfold crc32_update.
  change (mjoin (bytes :: arr)) with (bytes ++ mjoin arr). by rewrite fold_left_app.
Qed.

(** What a successful search saw. *)
Record found (disk_sectors : N) (primary backup : Header.t) (mbr pbytes bbytes : list N)
  (arr copy : list (list N)) (l : PartitionLayout.t) : Prop := {
  found_size : 36 <= disk_sectors;
  found_mbr : may_read start 0 mbr /\ mbr_ok mbr disk_sectors;
  found_primary : may_read start 1 pbytes /\ header_ok pbytes primary;
  found_backup : may_read start (disk_sectors - 1) bbytes /\ header_ok bbytes backup;
  found_headers : headers_ok disk_sectors primary backup;
  found_array : length arr = 32%nat /\ array_read 2 0 arr
    /\ BootContract.crc32 (mjoin arr) = Header.entries_crc primary;
  found_copy : length copy = 32%nat /\ array_read 2 0 copy /\ array_read (disk_sectors - 33) 0 copy
    /\ BootContract.crc32 (mjoin copy) = Header.entries_crc primary;
  found_entries : array_ok primary (arr ≫= sector_entries) /\ layout_of (arr ≫= sector_entries) l
}.

(** The disk keeps the contents [sectors]. *)
Definition stable (sectors : N -> list N) : Prop := forall n b, may_read start n b -> b = sectors n.

Lemma array_read_stable sectors lba k arr :
  stable sectors -> array_read lba k arr ->
  arr = (fun i => sectors (lba + N.of_nat i)) <$> seq k (length arr).
Proof.
  intros Hst. unfold array_read. revert k. induction arr as [|b arr IH]; intros k; [done|]. cbn [length seq].
  intros [Hb Ha]%Forall2_cons. rewrite fmap_cons. f_equal; [by apply Hst|by apply IH].
Qed.

Lemma array_read_prefix sectors lba arr :
  stable sectors -> array_read lba 0 arr -> (length arr <= 32)%nat ->
  exists rest, array_at sectors lba = arr ++ rest.
Proof.
  intros Hst Ha Hl. apply (array_read_stable sectors) in Ha; [|done]. rewrite Ha. unfold array_at.
  replace 32%nat with (length arr + (32 - length arr))%nat by lia. rewrite seq_app, fmap_app. by eexists.
Qed.

Definition refused (disk_sectors : N) : Prop :=
  forall sectors l, stable sectors -> ~ partition_table sectors disk_sectors l.

Lemma header_ok_fun bytes h h' : header_ok bytes h -> header_ok bytes h' -> h = h'.
Proof. intros Hh Hh'. by rewrite (header_fields _ _ Hh), (header_fields _ _ Hh'). Qed.

(** What is known once both headers are read: a table on the disk has these
    headers. *)
Lemma refused_headers disk_sectors pbytes bbytes primary backup :
  may_read start 1 pbytes -> header_ok pbytes primary ->
  may_read start (disk_sectors - 1) bbytes -> header_ok bbytes backup ->
  (forall sectors l, stable sectors -> headers_ok disk_sectors primary backup ->
    array_at sectors (disk_sectors - 33) = array_at sectors 2 ->
    BootContract.crc32 (mjoin (array_at sectors 2)) = Header.entries_crc primary ->
    array_ok primary (array_at sectors 2 ≫= sector_entries) ->
    ~ layout_of (array_at sectors 2 ≫= sector_entries) l) ->
  refused disk_sectors.
Proof.
  intros Hp Hph Hb Hbh Hno sectors l Hst (_&_&primary'&backup'&Hp'&Hb'&Hh&Hcopy&Hcrc&Harr&Hl).
  apply Hst in Hp as ->, Hb as ->. apply (header_ok_fun _ _ _ Hph) in Hp' as <-.
  apply (header_ok_fun _ _ _ Hbh) in Hb' as <-. by apply (Hno sectors l).
Qed.

(** The part of [find_partitions] that reads the arrays. *)
Definition read_arrays (primary backup : Header.t) : Proc D GptError.t PartitionLayout.t :=
  do scan := scan_array read_sector primary (seq 0 32) Scan.new in
  if decide (crc32_finish (Scan.crc scan) <> Header.entries_crc primary)
  then fail GptError.EntryChecksum
  else
    do backup_crc := compare_arrays read_sector primary backup (seq 0 32) U32_MAX in
    if decide (crc32_finish backup_crc <> Header.entries_crc primary)
    then fail GptError.EntryChecksum
    else exec (layout scan).

Lemma read_arrays_reads primary backup d :
  later start d -> Header.last_usable_lba primary < U64_MAX ->
  Header.entries_lba primary + 32 <= limit -> Header.entries_lba backup + 32 <= limit ->
  searches (read_arrays primary backup) d (fun r =>
    match r with
    | Ok l => exists arr copy,
        (length arr = 32%nat /\ array_read (Header.entries_lba primary) 0 arr
         /\ BootContract.crc32 (mjoin arr) = Header.entries_crc primary)
        /\ (length copy = 32%nat /\ array_read (Header.entries_lba primary) 0 copy
            /\ array_read (Header.entries_lba backup) 0 copy
            /\ BootContract.crc32 (mjoin copy) = Header.entries_crc primary)
        /\ array_ok primary (arr ≫= sector_entries) /\ layout_of (arr ≫= sector_entries) l
    | Err _ => forall sectors l, stable sectors ->
        array_at sectors (Header.entries_lba backup) = array_at sectors (Header.entries_lba primary) ->
        BootContract.crc32 (mjoin (array_at sectors (Header.entries_lba primary))) = Header.entries_crc primary ->
        array_ok primary (array_at sectors (Header.entries_lba primary) ≫= sector_entries) ->
        ~ layout_of (array_at sectors (Header.entries_lba primary) ≫= sector_entries) l
    end).
Proof.
  intros Hd Hu Hlp Hlb. unfold read_arrays.
  assert (Hat : forall sectors lba arr, stable sectors -> length arr = 32%nat -> array_read lba 0 arr ->
    array_at sectors lba = arr).
  { intros sectors lba arr Hst Hl Ha. apply (array_read_stable sectors) in Ha; [|done]. by rewrite Ha, Hl. }
  eapply search_bind; [apply (scan_array_reads primary 32 0 [] U32_MAX); [done|done|done|lia|done|]| |].
  { by split. }
  { intros e (arr&Hl&Ha&Hno) sectors l Hst _ _ Hok _. apply Hno.
    destruct (array_read_prefix sectors _ _ Hst Ha Hl) as [rest Hrest].
    rewrite Hrest, bind_app in Hok. by apply array_ok_app in Hok. }
  intros scan d1 H1 (arr&Hl&Ha&->&Hok). cbn [scan_of Scan.crc app].
  change (crc32_finish (crc32_update U32_MAX ?b)) with (BootContract.crc32 b). case_decide as Hcrc.
  { apply search_fail; [done|]. intros sectors l Hst _ Hc. by rewrite (Hat _ _ _ Hst Hl Ha) in Hc. }
  eapply search_bind; [apply (compare_arrays_reads primary backup 32 0 U32_MAX); [by etrans|done|done|lia]| |].
  { intros e (i&b&p&Hi&Hb&Hp&Hne) sectors l Hst Heq. destruct Hne. apply Hst in Hb as ->, Hp as ->.
    apply (f_equal (fun l => l !! i)) in Heq. unfold array_at in Heq.
    rewrite !list_lookup_fmap, !lookup_seq_lt in Heq by done. by injection Heq. }
  intros crc d2 H2 (copy&Hl2&Ha2&Hp2&->).
  change (crc32_finish (crc32_update U32_MAX ?b)) with (BootContract.crc32 b). case_decide as Hcrc2.
  { apply search_fail; [done|]. intros sectors l Hst _ Hc. by rewrite (Hat _ _ _ Hst Hl2 Hp2) in Hc. }
  destruct (layout_spec (arr ≫= sector_entries) (crc32_update U32_MAX (mjoin arr))) as (r&Hr&HQ).
  eapply search_exec; [exact Hr|by intros e ->; apply HQ|]. destruct r as [l|e].
  - exists arr, copy. done.
  - intros sectors l Hst _ _ _. rewrite (Hat _ _ _ Hst Hl Ha). apply HQ.
Qed.

Lemma find_partitions_reads disk_sectors :
  disk_sectors <= U64_MAX -> disk_sectors <= limit ->
  searches (find_partitions read_sector disk_sectors) start (fun r =>
    match r with
    | Ok l => exists primary backup mbr pbytes bbytes arr copy,
        found disk_sectors primary backup mbr pbytes bbytes arr copy l
    | Err _ => refused disk_sectors
    end).
Proof.
  intros Hmax Hlim. unfold find_partitions. unfold ENTRY_ARRAY_SECTORS. case_decide as Hsize.
  { apply search_fail; [done|]. intros sectors l _ [Hs _]. lia. }
  apply search_lba; [lia|]. intros mbr d1 Hlen Hmbr H1.
  eapply search_check; [by apply validate_mbr_spec; [|lia]| |].
  { intros _ Hno sectors l Hst (_&Hm&_). apply Hst in Hmbr. by subst. }
  intros [] Hmbr_ok. apply search_lba; [lia|]. intros pbytes d2 Hplen Hp H2.
  apply H1 in Hp. assert (Hd2 : later start d2) by (by etrans). clear H1 H2 d1.
  eapply search_check; [by apply parse_header_spec| |].
  { intros _ Hno sectors l Hst (_&_&primary&_&Hh&_). apply Hst in Hp. subst. by eapply Hno. }
  intros primary Hprimary. case_decide as Hwhere.
  { apply search_fail; [done|]. intros sectors l Hst (_&_&primary'&backup'&Hh&_&[H1 H2 _ _]&_).
    apply Hst in Hp as ->. apply (header_ok_fun _ _ _ Hprimary) in Hh as <-. lia. }
  apply search_lba; [lia|]. intros bbytes d3 Hblen Hb H3.
  apply Hd2 in Hb. assert (Hd3 : later start d3) by (by etrans). clear H3 Hd2 d2.
  eapply search_check; [by apply parse_header_spec| |].
  { intros _ Hno sectors l Hst (_&_&_&backup&_&Hh&_). apply Hst in Hb. subst. by eapply Hno. }
  intros backup Hbackup. rewrite bytes_equal_spec. case_decide as Hagree.
  { apply search_fail; [done|]. eapply (refused_headers _ pbytes bbytes primary backup); [done..|].
    intros sectors l _ [_ _ H3 (H4&H5&H6&H7)]. rewrite bool_decide_true in Hagree by done. lia. }
  assert (Hguid : Header.disk_guid backup = Header.disk_guid primary).
  { destruct (decide (Header.disk_guid backup = Header.disk_guid primary)) as [|Hn]; [done|].
    rewrite bool_decide_false in Hagree by done. tauto. }
  assert (Hh : headers_ok disk_sectors primary backup) by (split; lia || (split_and!; done || lia)).
  assert (Hlba : Header.entries_lba primary = 2 /\ Header.entries_lba backup = disk_sectors - 33) by lia.
  destruct Hlba as [Hlp Hlb].
  eapply search_mono; [apply (read_arrays_reads primary backup d3); [done|lia..]|].
  rewrite Hlp, Hlb. intros [l|e].
  - intros (arr&copy&Harr&Hcopy&Hent). exists primary, backup, mbr, pbytes, bbytes, arr, copy.
    split; [lia|done..|tauto|done].
  - intros Hno. eapply (refused_headers _ pbytes bbytes primary backup); [done..|]. intros sectors l Hst _. by apply Hno.
Qed.
End from.
End laws.

(** ** Theorems *)

(** What the partitions are for. *)
Inductive Role := UserData | ModelStore | SystemA | SystemB.

Definition role_guid (role : Role) : list N :=
  match role with
  | UserData => USER_DATA_TYPE_GUID
  | ModelStore => MODEL_STORE_TYPE_GUID
  | SystemA => SYSTEM_A_TYPE_GUID
  | SystemB => SYSTEM_B_TYPE_GUID
  end.

Definition partition (l : PartitionLayout.t) (role : Role) : option PartitionRange.t :=
  match role with
  | UserData => Some (PartitionLayout.user_data l)
  | ModelStore => PartitionLayout.model_store l
  | SystemA => PartitionLayout.system_a l
  | SystemB => PartitionLayout.system_b l
  end.

Definition range_end (r : PartitionRange.t) : N := PartitionRange.start_lba r + PartitionRange.sector_count r.

Record layout_safe (disk_sectors : N) (l : PartitionLayout.t) : Prop := {
  safe_inside : forall role r, partition l role = Some r ->
    34 <= PartitionRange.start_lba r /\ 1 <= PartitionRange.sector_count r /\ range_end r <= disk_sectors - 33;
  safe_disjoint : forall role role' r r', role <> role' -> partition l role = Some r -> partition l role' = Some r' ->
    range_end r <= PartitionRange.start_lba r' \/ range_end r' <= PartitionRange.start_lba r
}.

Lemma partition_entry es l role r :
  layout_of es l -> partition l role = Some r ->
  exists e, e ∈ used es /\ entry_type e = role_guid role /\ r = entry_range e.
Proof.
  intros (Hu&_&Hm&Ha&Hb) Hr.
  assert (Hsole : sole (of_type (role_guid role) es) = Some r) by (destruct role; cbn in *; congruence).
  destruct (of_type (role_guid role) es) as [|e [|]] eqn:E; [done| |done]. injection Hsole as <-.
  assert (Hin : e ∈ of_type (role_guid role) es) by (rewrite E; by left).
  apply list_elem_of_filter in Hin as [Ht Hin]. exists e. split; [|done].
  apply list_elem_of_filter. split; [|done]. rewrite Ht. by destruct role.
Qed.

Lemma apart_sym a b : apart a b -> apart b a.
Proof. unfold apart. naive_solver. Qed.

Lemma array_apart_elem h es a b : array_ok h es -> a ∈ used es -> b ∈ used es -> a <> b -> apart a b.
Proof.
  intros Hok [i Hi]%list_elem_of_lookup [j Hj]%list_elem_of_lookup Hne.
  destruct (lt_eq_lt_dec i j) as [[Hij| ->]|Hji].
  - by eapply array_apart.
  - congruence.
  - apply apart_sym. by eapply array_apart.
Qed.

Lemma layout_of_safe disk_sectors primary backup es l :
  headers_ok disk_sectors primary backup -> array_ok primary es -> layout_of es l -> layout_safe disk_sectors l.
Proof.
  intros Hh Hok Hl. destruct (headers_usable _ _ _ Hh) as (Hfirst&_&Hlast).
  assert (Hbounds : forall e, e ∈ used es -> Header.first_usable_lba primary <= entry_first e
    /\ entry_first e <= entry_last e /\ entry_last e <= Header.last_usable_lba primary).
  { intros e [Hu Hin]%list_elem_of_filter. pose proof (proj1 (Forall_forall _ _) (array_entries _ _ Hok)) as He.
    apply He in Hin as [_ Hin]. by apply Hin. }
  split.
  - intros role r Hr. destruct (partition_entry _ _ _ _ Hl Hr) as (e&He&_&->). apply Hbounds in He.
    unfold range_end, entry_range. cbn. lia.
  - intros role role' r r' Hne Hr Hr'. destruct (partition_entry _ _ _ _ Hl Hr) as (e&He&Ht&->).
    destruct (partition_entry _ _ _ _ Hl Hr') as (e'&He'&Ht'&->).
    assert (e <> e') as Hee by (intros ->; rewrite Ht in Ht'; by destruct role, role').
    destruct (array_apart_elem _ _ _ _ Hok He He' Hee) as [_ Hap]. apply Hbounds in He, He'.
    unfold range_end, entry_range. cbn. lia.
Qed.

Section theorems.
Context {D : Type} (read_sector : N -> Proc D unit (list N)) (limit : N).
Context `{!ReaderLaws read_sector limit}.

(** C28: On a disk that keeps its contents, the search gives [l] exactly if the
    sectors are a partition table with the partitions [l]; it fails with [Read]
    only if the disk can, and with another error exactly if the sectors are no
    partition table. *)
Theorem find_partitions_exact disk_sectors sectors d :
  disk_sectors <= U64_MAX -> disk_sectors <= limit -> (forall n b, may_read d n b -> b = sectors n) ->
  yields (find_partitions read_sector disk_sectors) d
    (fun l _ => partition_table sectors disk_sectors l)
    (fun e _ => (e = GptError.Read /\ may_fail d)
      \/ (e <> GptError.Read /\ forall l, ~ partition_table sectors disk_sectors l)).
Proof.
  intros Hmax Hlim Hst. eapply yields_mono; [by apply (find_partitions_reads read_sector limit)| |].
  - intros l d' [_ (primary&backup&mbr&pbytes&bbytes&arr&copy&Hf)].
    destruct Hf as [Hs [Hm Hmok] [Hp Hpok] [Hb Hbok] Hh (Hl&Ha&Hc) (Hl2&Ha2&Hb2&_) [Hok Hlay]].
    apply Hst in Hm as ->, Hp as ->, Hb as ->.
    apply (array_read_stable _ _ _ sectors) in Ha, Ha2, Hb2; [|done..]. rewrite Hl in Ha. rewrite Hl2 in Ha2, Hb2.
    assert (Harr : arr = array_at sectors 2) by done. subst arr.
    split; [done|]. split; [done|]. exists primary, backup. split_and!; try done. unfold array_at. congruence.
  - intros e d' [Hr|[Hne Hno]]; [by left|]. right. split; [done|]. intros l. by apply Hno.
Qed.

(** Whatever the disk answers, also when it answers differently each time a
    sector is read, the partitions handed out lie between the two copies of the
    table and do not overlap one another; the search ends, panics on no input
    and reads no sector outside the disk. *)
Theorem find_partitions_safe disk_sectors d :
  disk_sectors <= U64_MAX -> disk_sectors <= limit ->
  yields (find_partitions read_sector disk_sectors) d
    (fun l _ => layout_safe disk_sectors l)
    (fun e _ => e = GptError.Read -> may_fail d).
Proof.
  intros Hmax Hlim. eapply yields_mono; [by apply (find_partitions_reads read_sector limit)| |].
  - intros l d' [_ (primary&backup&mbr&pbytes&bbytes&arr&copy&Hf)].
    destruct (found_entries _ _ _ _ _ _ _ _ _ _ _ _ Hf) as [Hok Hl].
    eapply layout_of_safe; [by eapply found_headers|done|done].
  - intros e d' [[_ Hr]|[Hne _]]; [done|done].
Qed.
End theorems.

(** ** An example disk *)

Module GptExample.
Definition DISK_SECTORS : N := 100.

Definition entry (guid : list N) (id first last : N) : list N :=
  guid ++ to_le_bytes 16 id ++ to_le_bytes 8 first ++ to_le_bytes 8 last ++ replicate 80 0.

(** User data, both system slots, and an entry of no known type. *)
Definition entries : list N :=
  entry USER_DATA_TYPE_GUID 1 34 40 ++ entry SYSTEM_A_TYPE_GUID 2 50 55
  ++ entry SYSTEM_B_TYPE_GUID 3 41 46 ++ entry (to_le_bytes 16 77) 4 60 66.

Definition zero_sector : list N := replicate SECTOR_SIZE 0.

Definition mbr : list N :=
  put 510 [0x55; 0xaa] (put 458 (to_le_bytes 4 99) (put 454 (to_le_bytes 4 1) (put 450 [0xee] zero_sector))).

Definition array : list N := entries ++ replicate (31 * SECTOR_SIZE) 0.

Definition header (crc current backup array_lba : N) : list N :=
  let fields := HEADER_SIGNATURE ++ to_le_bytes 4 GPT_REVISION_1_0 ++ to_le_bytes 4 92 ++ replicate 8 0
    ++ to_le_bytes 8 current ++ to_le_bytes 8 backup ++ to_le_bytes 8 34 ++ to_le_bytes 8 66
    ++ to_le_bytes 16 5 ++ to_le_bytes 8 array_lba ++ to_le_bytes 4 128 ++ to_le_bytes 4 128
    ++ to_le_bytes 4 crc in
  put 0 (put 16 (to_le_bytes 4 (crc32 fields)) fields) zero_sector.

(** The sectors, with a checksum of the array. *)
Definition sectors_with (array_crc n : N) : list N :=
  if decide (n = 0) then mbr
  else if decide (n = 1) then header array_crc 1 99 2
  else if decide (n = 2 \/ n = 67) then entries
  else if decide (n = 99) then header array_crc 99 1 67
  else zero_sector.

Definition sectors : N -> list N := sectors_with (crc32 array).

Definition read (n : N) : Proc unit unit (list N) := fun d =>
  if decide (n < DISK_SECTORS) then Ret (Ok (sectors n), d) else Panic.

Definition expected : PartitionLayout.t :=
  PartitionLayout.mk (PartitionRange.mk 34 7) None (Some (PartitionRange.mk 50 6)) (Some (PartitionRange.mk 41 6)).

Lemma word_bytes n : n < 2 ^ 32 -> exists a b c d, to_le_bytes 4 n = [a; b; c; d] /\ from_le_bytes [a; b; c; d] = n.
Proof. intros Hn. do 4 eexists. split; [done|]. by apply (from_to_le_bytes 4). Qed.

(** Both headers. *)
Lemma header_valid crc current backup array_lba :
  crc < 2 ^ 32 -> (current, backup, array_lba) = (1, 99, 2) \/ (current, backup, array_lba) = (99, 1, 67) ->
  header_ok (header crc current backup array_lba)
    (Header.mk current backup 34 66 (to_le_bytes 16 5) array_lba crc).
Proof.
  intros Hcrc Hin. unfold header.
  assert (Hbytes : Forall is_byte (to_le_bytes 4 crc)) by apply to_le_bytes_are_bytes. revert Hbytes.
  destruct (word_bytes crc Hcrc) as (a&b&c&d&->&Hword). intros Hbytes.
  set (fields := HEADER_SIGNATURE ++ _).
  assert (Hfields : Forall is_byte fields).
  { unfold fields. rewrite !Forall_app. split_and!; try apply to_le_bytes_are_bytes; try done.
    all: apply (bool_decide_unpack _); by vm_compute. }
  destruct (word_bytes _ (crc32_lt _ Hfields)) as (x&y&z&w&Hx&Hsum). rewrite crc32_same, Hx. clear Hx.
  assert (Hlen : length fields = 92%nat) by done.
  assert (Htake : take 92 (put 16 [0; 0; 0; 0] (put 0 (put 16 [x; y; z; w] fields) zero_sector)) = fields)
    by (unfold fields; destruct Hin as [[= -> -> ->]|[= -> -> ->]]; vm_compute; reflexivity).
  assert (H12 : N.to_nat (read_u32 (put 0 (put 16 [x; y; z; w] fields) zero_sector) 12) = 92%nat) by done.
  clear Hfields Hbytes. split.
  - vm_compute. reflexivity.
  - vm_compute. reflexivity.
  - split; vm_compute; discriminate.
  - vm_compute. reflexivity.
  - split; vm_compute; reflexivity.
  - rewrite H12, Htake, <-Hsum. vm_compute. reflexivity.
  - intros Hz. apply (f_equal (fun l => byte_at l 0)) in Hz. vm_compute in Hz. discriminate.
  - rewrite <-Hword. destruct Hin as [[= -> -> ->]|[= -> -> ->]]; vm_compute; reflexivity.
Qed.

Lemma array_sectors crc lba : lba = 2 \/ lba = 67 ->
  array_at (sectors_with crc) lba = entries :: replicate 31 zero_sector.
Proof. intros [->| ->]; vm_compute; reflexivity. Qed.

Lemma array_join : mjoin (entries :: replicate 31 zero_sector) = array.
Proof. vm_compute. reflexivity. Qed.

Lemma array_valid h :
  Header.first_usable_lba h = 34 -> Header.last_usable_lba h = 66 ->
  array_ok h ((entries :: replicate 31 zero_sector) ≫= sector_entries).
Proof.
  intros Hf Hl. destruct h as [c b first last g e x]. cbn in Hf, Hl. subst. split.
  - apply (bool_decide_unpack _). vm_compute. exact I.
  - assert (Hused : used ((entries :: replicate 31 zero_sector) ≫= sector_entries) = sector_entries entries)
      by (vm_compute; reflexivity).
    rewrite Hused. intros i j a' b' Hij Hi Hj. unfold apart.
    destruct j as [|[|[|[|j]]]]; [lia|..|by vm_compute in Hj];
      destruct i as [|[|[|i]]]; try lia; injection Hi as <-; injection Hj as <-;
      apply (bool_decide_unpack _); vm_compute; exact I.
Qed.

Lemma table_with crc :
  BootContract.crc32 array = crc -> crc < 2 ^ 32 -> partition_table (sectors_with crc) DISK_SECTORS expected.
Proof.
  intros Hcrc Hmax. split; [done|].
  split; [split_and!; try (vm_compute; reflexivity); apply (bool_decide_unpack _); vm_compute; exact I|].
  exists (Header.mk 1 99 34 66 (to_le_bytes 16 5) 2 crc), (Header.mk 99 1 34 66 (to_le_bytes 16 5) 67 crc).
  change (sectors_with crc 1) with (header crc 1 99 2).
  change (sectors_with crc (DISK_SECTORS - 1)) with (header crc 99 1 67).
  split; [apply header_valid; [done|by left]|]. split; [apply header_valid; [done|by right]|].
  split; [clear; split; vm_compute; split_and!; done|].
  change (DISK_SECTORS - 33) with 67. rewrite !array_sectors by tauto. split; [reflexivity|]. split.
  { rewrite array_join. exact Hcrc. }
  clear. split; [by apply array_valid|]. vm_compute. split_and!; (reflexivity || lia).
Qed.

Lemma table : partition_table sectors DISK_SECTORS expected.
Proof.
  apply table_with; [symmetry; apply crc32_same|]. rewrite crc32_same. apply crc32_lt. unfold array. apply Forall_app.
  split; [apply (bool_decide_unpack _); vm_compute; exact I|by apply Forall_replicate].
Qed.

Lemma sectors_length n : length (sectors n) = SECTOR_SIZE.
Proof. unfold sectors, sectors_with. generalize (crc32 array). intros crc. repeat case_decide; done. Qed.

#[export] Instance read_laws : ReaderLaws read DISK_SECTORS.
Proof.
  refine {| may_read := fun _ n b => b = sectors n; may_fail := fun _ => False |}.
  intros [] n Hn. exists (Ok (sectors n)), tt. split; [unfold read; by rewrite decide_True|].
  split; [apply sectors_length|]. done.
Defined.

Lemma find_partitions_exact_witness :
  partition_table sectors DISK_SECTORS expected
  /\ yields (find_partitions read DISK_SECTORS) tt
      (fun l _ => partition_table sectors DISK_SECTORS l)
      (fun e _ => (e = GptError.Read /\ may_fail (ReaderLaws := read_laws) tt)
        \/ (e <> GptError.Read /\ forall l, ~ partition_table sectors DISK_SECTORS l)).
Proof.
  split; [apply table|].
  apply (find_partitions_exact read DISK_SECTORS DISK_SECTORS sectors tt).
  - by vm_compute.
  - by vm_compute.
  - intros n b Hb. exact Hb.
Defined.

(** A disk that gives other bytes at every read. *)
Definition fickle (n : N) : Proc N unit (list N) := fun d =>
  if decide (n < DISK_SECTORS)
  then if decide (d = 20) then Ret (Err tt, d) else Ret (Ok (replicate SECTOR_SIZE (d mod 256)), d + 1)
  else Panic.

#[export] Instance fickle_laws : ReaderLaws fickle DISK_SECTORS.
Proof.
  refine {| may_read := fun _ _ b => length b = SECTOR_SIZE; may_fail := fun _ => True |}.
  intros d n Hn. unfold yields, fickle. rewrite decide_True by done.
  case_decide; eexists _, _; (split; [done|]); [done|]. done.
Defined.

Lemma find_partitions_safe_witness :
  yields (find_partitions fickle DISK_SECTORS) 7
    (fun l _ => layout_safe DISK_SECTORS l)
    (fun e _ => e = GptError.Read -> may_fail (ReaderLaws := fickle_laws) 7).
Proof. apply (find_partitions_safe fickle DISK_SECTORS DISK_SECTORS 7); by vm_compute. Defined.
End GptExample.
