(* ===== verification/Fat32.v ===== *)
(** * FAT32 volumes (crates/nagi-fat32/src/lib.rs)

    The formatter that writes a system slot and the reader of files in the root
    directory. The block device is an interface, as in the source:
    [SectorDevice] has its operations and [DeviceLaws] what a device of some
    number of sectors promises. A device that keeps the laws may panic outside
    its sectors, so that a theorem that an operation returns also says that it
    stays inside the volume. *)

From stdpp Require Import prelude.
From S2P Require Import Prelude Memory.

Local Open Scope N_scope.
Local Open Scope nagi_scope.
Import Proc.

Definition SECTOR_SIZE : nat := 512.
Definition MAX_ROOT_FILES : nat := 8.
Definition RESERVED_SECTORS : N := 32.
Definition FAT_COUNT : N := 2.
Definition FSINFO_SECTOR : N := 1.
Definition BACKUP_BOOT_SECTOR : N := 6.
Definition ROOT_CLUSTER : N := 2.
Definition FAT32_EOC : N := 0x0fffffff.
Definition FAT32_EOC_MIN : N := 0x0ffffff8.
Definition MIN_FAT32_CLUSTERS : N := 65525.
Definition MAX_FAT32_CLUSTERS : N := 0x0fffffef.
Definition ENTRIES_PER_FAT_SECTOR : N := 128.

Module FatError.
Inductive t := Device | Geometry | Files | Space | InvalidVolume | NotFound | OutOfRange.

#[global] Instance t_eq_dec : EqDecision t.
Proof. solve_decision. Defined.
End FatError.

(** ** The device *)

Class SectorDevice (D : Type) := {
  read_sector : N -> Proc D FatError.t (list N);
  write_sector : N -> list N -> Proc D FatError.t unit
}.

(** ** Names and files *)

Module RootFile.
Record t := mk { name : list N; contents : list N }.
End RootFile.

(** [byte.is_ascii_uppercase() || byte.is_ascii_digit() || *byte == b'_'] *)
Definition name_byte (b : N) : Prop := 65 <= b <= 90 \/ 48 <= b <= 57 \/ b = 95.

Definition short_name (name : list N) : option (list N) :=
  let '(base, extension) :=
    match list_find (fun byte => byte = 46) name with
    | Some (dot, _) => (take dot name, drop (dot + 1) name)
    | None => (name, [])
    end in
  if decide (base = [] \/ (8 < length base)%nat \/ (3 < length extension)%nat
             \/ ~ Forall name_byte base \/ ~ Forall name_byte extension)
  then None
  else
    let short := replicate 11 32 in
    let short := put 0 base short in
    Some (put 8 extension short).

(** ** Geometry *)

Module Geometry.
Record t := mk {
  total_sectors : N;
  sectors_per_cluster : N;
  fat_sectors : N;
  cluster_count : N
}.

(** [for _ in 0..n] of [compute]. *)
Fixpoint compute_loop (n : nat) (total_sectors sectors_per_cluster fat_sectors : N)
  : Result t FatError.t :=
  match n with
  | O => Err FatError.Geometry
  | S n =>
      let? fats := ok_or (u32_checked_mul FAT_COUNT fat_sectors) FatError.Geometry in
      let? overhead := ok_or (u32_checked_add RESERVED_SECTORS fats) FatError.Geometry in
      if decide (total_sectors <= overhead) then Err FatError.Geometry
      else
        let clusters := (total_sectors - overhead) / sectors_per_cluster in
        let required := div_ceil (clusters + 2) ENTRIES_PER_FAT_SECTOR in
        if decide (required = fat_sectors)
        then
          if decide (~ (MIN_FAT32_CLUSTERS <= clusters <= MAX_FAT32_CLUSTERS))
          then Err FatError.Geometry
          else Ok (mk total_sectors sectors_per_cluster fat_sectors clusters)
        else compute_loop n total_sectors sectors_per_cluster required
  end.

Definition compute (total_sectors sectors_per_cluster : N) : Result t FatError.t :=
  if decide (sectors_per_cluster = 0 \/ 128 < sectors_per_cluster
             \/ is_power_of_two sectors_per_cluster = false)
  then Err FatError.Geometry
  else compute_loop 16 total_sectors sectors_per_cluster 1.

Definition first_data_sector (self : t) : N := RESERVED_SECTORS + FAT_COUNT * fat_sectors self.

Definition cluster_bytes (self : t) : N := sectors_per_cluster self * N.of_nat SECTOR_SIZE.

Definition cluster_sector (self : t) (cluster : N) : Result N FatError.t :=
  if decide (cluster < 2 \/ cluster_count self + 2 <= cluster) then Err FatError.InvalidVolume
  else Ok (first_data_sector self + (cluster - 2) * sectors_per_cluster self).
End Geometry.

Module Placement.
Record t := mk { first_cluster : N; clusters : N }.
End Placement.

(** ** The sectors the formatter writes *)

Definition zero_sector : list N := replicate SECTOR_SIZE 0.

Definition fat_entry (cluster : N) (placements : list Placement.t) : N :=
  if decide (cluster = 0) then 0x0ffffff8
  else if decide (cluster = 1 \/ cluster = ROOT_CLUSTER) then FAT32_EOC
  else
    match list_find (fun p => Placement.first_cluster p <= cluster
                              /\ cluster < Placement.first_cluster p + Placement.clusters p)
            placements with
    | None => 0
    | Some (_, p) =>
        if decide (cluster + 1 = Placement.first_cluster p + Placement.clusters p) then FAT32_EOC
        else cluster + 1
    end.

Definition boot_sector (geometry : Geometry.t) (label : list N) : list N :=
  let boot := zero_sector in
  let boot := put 0 [0xeb; 0x58; 0x90] boot in
  let boot := put 3 [78; 65; 71; 73; 79; 83; 32; 32] boot in
  let boot := put 11 (to_le_bytes 2 (N.of_nat SECTOR_SIZE)) boot in
  let boot := put 13 [Geometry.sectors_per_cluster geometry mod 256] boot in
  let boot := put 14 (to_le_bytes 2 RESERVED_SECTORS) boot in
  let boot := put 16 [FAT_COUNT] boot in
  let boot := put 21 [0xf8] boot in
  let boot := put 24 (to_le_bytes 2 63) boot in
  let boot := put 26 (to_le_bytes 2 255) boot in
  let boot := put 32 (to_le_bytes 4 (Geometry.total_sectors geometry)) boot in
  let boot := put 36 (to_le_bytes 4 (Geometry.fat_sectors geometry)) boot in
  let boot := put 44 (to_le_bytes 4 ROOT_CLUSTER) boot in
  let boot := put 48 (to_le_bytes 2 FSINFO_SECTOR) boot in
  let boot := put 50 (to_le_bytes 2 BACKUP_BOOT_SECTOR) boot in
  let boot := put 64 [0x80] boot in
  let boot := put 66 [0x29] boot in
  let boot := put 67 (to_le_bytes 4 (N.lxor (Geometry.total_sectors geometry) 0x4e414749)) boot in
  let boot := put 71 label boot in
  let boot := put 82 [70; 65; 84; 51; 50; 32; 32; 32] boot in
  put 510 [0x55; 0xaa] boot.

Definition fsinfo_sector (geometry : Geometry.t) (next_free : N) : list N :=
  let info := zero_sector in
  let info := put 0 (to_le_bytes 4 0x41615252) info in
  let info := put 484 (to_le_bytes 4 0x61417272) info in
  let free := Geometry.cluster_count geometry - (next_free - 2) in
  let info := put 488 (to_le_bytes 4 free) info in
  let info := put 492 (to_le_bytes 4 next_free) info in
  put 508 (to_le_bytes 4 0xaa550000) info.

(** One sector of a FAT. *)
Definition fat_sector_bytes (placements : list Placement.t) (fat_sector : N) : list N :=
  foldl (fun sector slot =>
           let cluster := fat_sector * ENTRIES_PER_FAT_SECTOR + N.of_nat slot in
           put (slot * 4) (to_le_bytes 4 (fat_entry cluster placements)) sector)
    zero_sector (seq 0 (N.to_nat ENTRIES_PER_FAT_SECTOR)).

(** The entry of one file in the root directory. *)
Definition put_entry (sector : list N) (position : nat) (placement : Placement.t) (file : RootFile.t)
  : list N :=
  let offset := (32 * (position + 1))%nat in
  let sector := put offset (RootFile.name file) sector in
  let sector := put (offset + 11) [0x20] sector in
  let sector := put (offset + 20)
                  (to_le_bytes 2 (N.shiftr (Placement.first_cluster placement) 16 mod 2 ^ 16)) sector in
  let sector := put (offset + 26)
                  (to_le_bytes 2 (Placement.first_cluster placement mod 2 ^ 16)) sector in
  put (offset + 28) (to_le_bytes 4 (N.of_nat (length (RootFile.contents file)) mod 2 ^ 32)) sector.

(** The first sector of the root directory. *)
Definition root_sector (label : list N) (placed : list (Placement.t * RootFile.t)) : list N :=
  let entry := put 11 [0x08] (put 0 label (replicate 32 0)) in
  let sector := put 0 entry zero_sector in
  foldl (fun sector x => put_entry sector x.1 x.2.1 x.2.2) sector (imap pair placed).

(** ** Formatting *)

(** [for (index, file) in files.iter().enumerate()]: the checks. *)
Fixpoint check_files (before files : list RootFile.t) : Result unit FatError.t :=
  match files with
  | [] => Ok tt
  | file :: files =>
      if decide (RootFile.contents file = []
                 \/ U32_MAX < N.of_nat (length (RootFile.contents file))
                 \/ RootFile.name file ∈ RootFile.name <$> before)
      then Err FatError.Files
      else check_files (before ++ [file]) files
  end.

(** The contiguous chains; the second result is [next]. *)
Fixpoint place (geometry : Geometry.t) (next : N) (files : list RootFile.t)
  : Result (list Placement.t * N) FatError.t :=
  match files with
  | [] => Ok ([], next)
  | file :: files =>
      let clusters := div_ceil (N.of_nat (length (RootFile.contents file)))
                        (Geometry.cluster_bytes geometry) in
      if decide (U32_MAX < clusters) then Err FatError.Space
      else
        let? stop := ok_or (u32_checked_add next clusters) FatError.Space in
        if decide (Geometry.cluster_count geometry + 2 < stop) then Err FatError.Space
        else
          let? (placements, last) := place geometry stop files in
          Ok (Placement.mk next clusters :: placements, last)
  end.

(** [contents.chunks(n)] and [sector.chunks_exact(n)] *)
Definition chunks (n : nat) (l : list N) : list (list N) :=
  (fun i => take n (drop (i * n) l))
    <$> seq 0 (N.to_nat (div_ceil (N.of_nat (length l)) (N.of_nat n))).

Definition chunks_exact (n : nat) (l : list N) : list (list N) :=
  (fun i => take n (drop (i * n) l)) <$> seq 0 (length l / n).

Section operations.
Context {D : Type} `{SectorDevice D}.

Definition write_file (geometry : Geometry.t) (placed : Placement.t * RootFile.t)
  : Proc D FatError.t unit :=
  do first := lift (Geometry.cluster_sector geometry (Placement.first_cluster placed.1)) in
  for_each (imap pair (chunks SECTOR_SIZE (RootFile.contents placed.2))) (fun x =>
    write_sector (first + N.of_nat x.1) (put 0 x.2 zero_sector)).

Definition write_fat (geometry : Geometry.t) (placements : list Placement.t) (fat : N)
  : Proc D FatError.t unit :=
  let fat_start := RESERVED_SECTORS + fat * Geometry.fat_sectors geometry in
  for_each (seq 0 (N.to_nat (Geometry.fat_sectors geometry))) (fun fat_sector =>
    write_sector (fat_start + N.of_nat fat_sector) (fat_sector_bytes placements (N.of_nat fat_sector))).

Definition write_root (geometry : Geometry.t) (label : list N)
  (placed : list (Placement.t * RootFile.t)) : Proc D FatError.t unit :=
  do root_first := lift (Geometry.cluster_sector geometry ROOT_CLUSTER) in
  for_each (seq 0 (N.to_nat (Geometry.sectors_per_cluster geometry))) (fun index =>
    write_sector (root_first + N.of_nat index)
      (if decide (index = 0%nat) then root_sector label placed else zero_sector)).

Definition format (total_sectors sectors_per_cluster : N) (label : list N) (files : list RootFile.t)
  : Proc D FatError.t unit :=
  do geometry := lift (Geometry.compute total_sectors sectors_per_cluster) in
  if decide (MAX_ROOT_FILES < length files)%nat then fail FatError.Files
  else
    do _ := lift (check_files [] files) in
    do (placements, next) := lift (place geometry (ROOT_CLUSTER + 1) files) in
    do _ := write_sector 0 zero_sector in
    do _ := write_sector BACKUP_BOOT_SECTOR zero_sector in
    do _ := for_each (zip placements files) (write_file geometry) in
    do _ := for_each (seq 0 (N.to_nat FAT_COUNT)) (fun fat =>
              write_fat geometry placements (N.of_nat fat)) in
    do _ := write_root geometry label (zip placements files) in
    let fsinfo := fsinfo_sector geometry next in
    do _ := write_sector FSINFO_SECTOR fsinfo in
    do _ := write_sector (BACKUP_BOOT_SECTOR + FSINFO_SECTOR) fsinfo in
    let boot := boot_sector geometry label in
    do _ := write_sector BACKUP_BOOT_SECTOR boot in
    write_sector 0 boot.
End operations.

(** ** Reading *)

(** A little-endian word of a sector. *)
Definition word_at (n : nat) (sector : list N) (offset : nat) : N :=
  from_le_bytes (sub_bytes sector offset n).

Definition parse_boot_sector (boot : list N) (volume_sectors : N) : Result Geometry.t FatError.t :=
  if decide (sub_bytes boot 510 2 <> [0x55; 0xaa]
             \/ word_at 2 boot 11 <> N.of_nat SECTOR_SIZE
             \/ word_at 2 boot 17 <> 0 \/ word_at 2 boot 22 <> 0)
  then Err FatError.InvalidVolume
  else
    let sectors_per_cluster := byte_at boot 13 in
    let reserved := word_at 2 boot 14 in
    let fats := byte_at boot 16 in
    let total_sectors := word_at 4 boot 32 in
    let fat_sectors := word_at 4 boot 36 in
    if decide (reserved <> RESERVED_SECTORS \/ fats <> FAT_COUNT \/ volume_sectors < total_sectors)
    then Err FatError.InvalidVolume
    else
      let? geometry := map_err (fun _ => FatError.InvalidVolume)
                         (Geometry.compute total_sectors sectors_per_cluster) in
      if decide (Geometry.fat_sectors geometry <> fat_sectors) then Err FatError.InvalidVolume
      else Ok geometry.

(** A reader; the device it borrows is the state. *)
Module RootFileReader.
Record t := mk { geometry : Geometry.t; first_cluster : N; size : N }.
End RootFileReader.

(** [for entry in sector.chunks_exact(32)]: [Some] is the early return. *)
Fixpoint scan_entries (geometry : Geometry.t) (name : list N) (entries : list (list N))
  : option (Result RootFileReader.t FatError.t) :=
  match entries with
  | [] => None
  | entry :: entries =>
      if decide (byte_at entry 0 = 0) then Some (Err FatError.NotFound)
      else if decide (byte_at entry 0 = 0xe5 \/ N.land (byte_at entry 11) 0x18 <> 0
                      \/ sub_bytes entry 0 11 <> name)
      then scan_entries geometry name entries
      else
        let high := word_at 2 entry 20 in
        let low := word_at 2 entry 26 in
        let size := word_at 4 entry 28 in
        Some (Ok (RootFileReader.mk geometry (N.lor (N.shiftl high 16) low) size))
  end.

Section reading.
Context {D : Type} `{SectorDevice D}.

Definition next_cluster (geometry : Geometry.t) (cluster : N) : Proc D FatError.t (option N) :=
  let fat_sector := RESERVED_SECTORS + cluster / ENTRIES_PER_FAT_SECTOR in
  do sector := read_sector fat_sector in
  let offset := (N.to_nat (cluster mod ENTRIES_PER_FAT_SECTOR) * 4)%nat in
  let value := N.land (word_at 4 sector offset) 0x0fffffff in
  if decide (FAT32_EOC_MIN <= value) then ret None
  else if decide (value < 2 \/ Geometry.cluster_count geometry + 2 <= value)
  then fail FatError.InvalidVolume
  else ret (Some value).

(** [for index in 0..geometry.sectors_per_cluster] *)
Fixpoint scan_sectors (geometry : Geometry.t) (name : list N) (first : N) (indices : list nat)
  : Proc D FatError.t (option (Result RootFileReader.t FatError.t)) :=
  match indices with
  | [] => ret None
  | index :: indices =>
      do sector := read_sector (first + N.of_nat index) in
      match scan_entries geometry name (chunks_exact 32 sector) with
      | Some result => ret (Some result)
      | None => scan_sectors geometry name first indices
      end
  end.

(** [for _ in 0..n] over the clusters of the root directory. *)
Fixpoint scan_clusters (n : nat) (geometry : Geometry.t) (name : list N) (cluster : N)
  : Proc D FatError.t RootFileReader.t :=
  match n with
  | O => fail FatError.InvalidVolume
  | S n =>
      do first := lift (Geometry.cluster_sector geometry cluster) in
      do found := scan_sectors geometry name first
                    (seq 0 (N.to_nat (Geometry.sectors_per_cluster geometry))) in
      match found with
      | Some result => lift result
      | None =>
          do next := next_cluster geometry cluster in
          match next with
          | Some next => scan_clusters n geometry name next
          | None => fail FatError.NotFound
          end
      end
  end.

Definition open (volume_sectors : N) (name : list N) : Proc D FatError.t RootFileReader.t :=
  do boot := read_sector 0 in
  do geometry := lift (parse_boot_sector boot volume_sectors) in
  let root := N.land (word_at 4 boot 44) 0x0fffffff in
  scan_clusters 16 geometry name root.

Section sink.
(** The closure [sink] with the variables it captures. *)
Context {A : Type} (sink : list N -> A -> Exec A).

(** The sectors of one cluster, until [remaining] is zero. *)
Fixpoint read_cluster (first : N) (indices : list nat) (remaining : N) (acc : A)
  : Proc D FatError.t (N * A) :=
  match indices with
  | [] => ret (remaining, acc)
  | index :: indices =>
      if decide (remaining = 0) then ret (remaining, acc)
      else
        do sector := read_sector (first + N.of_nat index) in
        let take_bytes := N.min remaining (N.of_nat SECTOR_SIZE) in
        do chunk := exec (let! chunk := slice_to sector (N.to_nat take_bytes) in Ret (Ok chunk)) in
        do acc := exec (let! acc := sink chunk acc in Ret (Ok acc)) in
        read_cluster first indices (remaining - take_bytes) acc
  end.

(** [while remaining > 0]; the outer [None] is running out of fuel. *)
Fixpoint read_clusters (fuel : nat) (geometry : Geometry.t) (cluster remaining : N) (acc : A)
  : Proc D FatError.t (option A) :=
  match fuel with
  | O => ret None
  | S fuel =>
      if decide (remaining = 0) then ret (Some acc)
      else
        do first := lift (Geometry.cluster_sector geometry cluster) in
        do (remaining, acc) := read_cluster first
                                 (seq 0 (N.to_nat (Geometry.sectors_per_cluster geometry)))
                                 remaining acc in
        if decide (0 < remaining)
        then
          do next := next_cluster geometry cluster in
          do cluster := lift (ok_or next FatError.InvalidVolume) in
          read_clusters fuel geometry cluster remaining acc
        else read_clusters fuel geometry cluster remaining acc
  end.

(** Every round delivers a byte. *)
Definition for_each_chunk (self : RootFileReader.t) (acc : A) : Proc D FatError.t (option A) :=
  read_clusters (S (N.to_nat (RootFileReader.size self))) (RootFileReader.geometry self)
    (RootFileReader.first_cluster self) (RootFileReader.size self) acc.
End sink.

(** [output[offset..offset + chunk.len()].copy_from_slice(chunk); offset += chunk.len()] *)
Definition copy_chunk (chunk : list N) (acc : list N * nat) : Exec (list N * nat) :=
  let! output := copy_into acc.1 acc.2 chunk in Ret (output, (acc.2 + length chunk)%nat).

(** The number of bytes read, with what [output] holds then. *)
Definition read_all (self : RootFileReader.t) (output : list N)
  : Proc D FatError.t (option (list N * nat)) :=
  if decide (N.of_nat (length output) < RootFileReader.size self) then fail FatError.OutOfRange
  else for_each_chunk copy_chunk self (output, 0%nat).
End reading.

(** ** What a device promises *)

(** A device of [limit] sectors. Outside them it may do anything, panic
    included. Only a [faulty] device fails, and reports [Device]; a failed write
    may leave the sector it was for in any state, and no other. *)
Class DeviceLaws (D : Type) `{SectorDevice D} (limit : N) := {
  sector : D -> N -> list N;
  faulty : D -> Prop;
  sector_wf : forall d n, length (sector d n) = SECTOR_SIZE /\ Forall is_byte (sector d n);
  read_law : forall d n, n < limit ->
    yields (read_sector n) d
      (fun bytes d' => bytes = sector d n /\ (forall m, sector d' m = sector d m) /\ (faulty d' -> faulty d))
      (fun e d' => e = FatError.Device /\ faulty d /\ forall m, sector d' m = sector d m);
  write_law : forall d n bytes, n < limit -> length bytes = SECTOR_SIZE -> Forall is_byte bytes ->
    yields (write_sector n bytes) d
      (fun _ d' => sector d' n = bytes /\ (forall m, m <> n -> sector d' m = sector d m)
        /\ (faulty d' -> faulty d))
      (fun e d' => e = FatError.Device /\ faulty d /\ forall m, m <> n -> sector d' m = sector d m)
}.

(** ** Geometry *)

(** The first sector of a cluster. *)
Definition cluster_start (g : Geometry.t) (cluster : N) : N :=
  Geometry.first_data_sector g + (cluster - 2) * Geometry.sectors_per_cluster g.

Record geometry_ok (g : Geometry.t) : Prop := {
  geometry_total : Geometry.total_sectors g <= U32_MAX;
  geometry_cluster : 1 <= Geometry.sectors_per_cluster g <= 128;
  geometry_count : MIN_FAT32_CLUSTERS <= Geometry.cluster_count g <= MAX_FAT32_CLUSTERS;
  geometry_fat : Geometry.fat_sectors g = div_ceil (Geometry.cluster_count g + 2) ENTRIES_PER_FAT_SECTOR;
  geometry_fits : Geometry.first_data_sector g
    + Geometry.cluster_count g * Geometry.sectors_per_cluster g <= Geometry.total_sectors g
}.

Lemma compute_loop_Ok n total spc fat g :
  total <= U32_MAX -> 1 <= spc <= 128 -> Geometry.compute_loop n total spc fat = Ok g ->
  geometry_ok g /\ Geometry.total_sectors g = total /\ Geometry.sectors_per_cluster g = spc.
Proof.
  intros Ht Hs. revert fat. induction n as [|n IH]; intros fat; [done|]. cbn [Geometry.compute_loop].
  unfold u32_checked_mul, u32_checked_add, ok_or. case_decide as H1; [|done]. case_decide as H2; [|done].
  case_decide as Hov; [done|]. case_decide as Hreq; [|apply IH].
  case_decide as Hc; [done|]. intros [= <-]. split; [|done].
  split; cbn; try done. unfold Geometry.first_data_sector. cbn.
  pose proof (N.Div0.mul_div_le (total - (RESERVED_SECTORS + FAT_COUNT * fat)) spc). lia.
Qed.

Lemma compute_Ok total spc g :
  total <= U32_MAX -> Geometry.compute total spc = Ok g ->
  geometry_ok g /\ Geometry.total_sectors g = total /\ Geometry.sectors_per_cluster g = spc.
Proof.
  intros Ht. unfold Geometry.compute. case_decide as Hg; [done|]. apply compute_loop_Ok; [done|lia].
Qed.

Lemma cluster_sector_spec g cluster :
  Geometry.cluster_sector g cluster
  = if decide (2 <= cluster < Geometry.cluster_count g + 2) then Ok (cluster_start g cluster)
    else Err FatError.InvalidVolume.
Proof. unfold Geometry.cluster_sector, cluster_start. repeat case_decide; done || lia. Qed.

Section geometry.
Context (g : Geometry.t) (Hg : geometry_ok g).

(** The sectors of a cluster are in the volume, after both FATs. *)
Lemma cluster_in_volume cluster :
  2 <= cluster < Geometry.cluster_count g + 2 ->
  Geometry.first_data_sector g <= cluster_start g cluster
  /\ cluster_start g cluster + Geometry.sectors_per_cluster g <= Geometry.total_sectors g.
Proof.
  intros Hc. pose proof (geometry_fits _ Hg). unfold cluster_start. split; [apply N.le_add_r|].
  assert ((cluster - 2 + 1) * Geometry.sectors_per_cluster g
          <= Geometry.cluster_count g * Geometry.sectors_per_cluster g) by (apply N.mul_le_mono_r; lia).
  lia.
Qed.

(** The FAT has an entry for every cluster. *)
Lemma fat_covers cluster :
  cluster < Geometry.cluster_count g + 2 -> cluster / ENTRIES_PER_FAT_SECTOR < Geometry.fat_sectors g.
Proof.
  intros Hc. rewrite (geometry_fat _ Hg). apply N.Div0.div_lt_upper_bound.
  pose proof (div_ceil_spec (Geometry.cluster_count g + 2) ENTRIES_PER_FAT_SECTOR ltac:(done)). lia.
Qed.

Lemma geometry_positive : 0 < Geometry.total_sectors g.
Proof.
  pose proof (geometry_fits _ Hg). unfold Geometry.first_data_sector, RESERVED_SECTORS in *. lia.
Qed.

Lemma fat_in_volume i :
  i < Geometry.fat_sectors g -> RESERVED_SECTORS + i < Geometry.total_sectors g.
Proof.
  intros Hi. pose proof (geometry_fits _ Hg). unfold Geometry.first_data_sector, FAT_COUNT in *. lia.
Qed.
End geometry.

(** ** Reading from a device *)

Section device.
Context {D : Type} `{SectorDevice D} (limit : N) `{!DeviceLaws D limit}.
Implicit Types (d : D) (g : Geometry.t).

Definition same (d d' : D) : Prop :=
  (forall m, sector d' m = sector d m) /\ (faulty d' -> faulty d).

#[local] Instance same_preorder : PreOrder same.
Proof.
  unfold same. split; [done|]. intros d1 d2 d3 [H12 F12] [H23 F23]. split; [intros m; by rewrite H23|auto].
Qed.

(** Code that only reads: the sectors stay the same, and the result satisfies
    [Q] unless the device failed. *)
Definition reads {T} (m : Proc D FatError.t T) (d : D) (Q : Result T FatError.t -> Prop) : Prop :=
  yields m d (fun x d' => same d d' /\ Q (Ok x))
    (fun e d' => (forall m, sector d' m = sector d m) /\ ((e = FatError.Device /\ faulty d) \/ Q (Err e))).

Lemma reads_lift {T} (r : Result T FatError.t) d (Q : Result T FatError.t -> Prop) :
  Q r -> reads (lift r) d Q.
Proof. intros HQ. apply yields_lift. destruct r; (split; [done|]); auto. Qed.

Lemma reads_ret {T} (x : T) d (Q : Result T FatError.t -> Prop) : Q (Ok x) -> reads (ret x) d Q.
Proof. apply (reads_lift (Ok x)). Qed.

Lemma reads_fail {T} e d (Q : Result T FatError.t -> Prop) : Q (Err e) -> reads (fail e) d Q.
Proof. apply (reads_lift (Err e)). Qed.

Lemma reads_bind {T U} (m : Proc D FatError.t T) (k : T -> Proc D FatError.t U) d Q Q' :
  reads m d Q -> (forall e, Q (Err e) -> Q' (Err e)) ->
  (forall x d', same d d' -> Q (Ok x) -> reads (k x) d' Q') -> reads (bind m k) d Q'.
Proof.
  intros Hm He Hk. eapply yields_bind.
  - eapply yields_mono; [exact Hm|by intros x d' HQ; exact HQ|]. naive_solver.
  - intros x d' [Hs HQ]. eapply yields_mono; [by apply Hk| |].
    + cbn. intros y d'' [Hs' HQ']. split; [by etrans|done].
    + cbn. destruct Hs as [Hs Hf]. intros e d'' [Hs' HQ']. split; [intros m'; by rewrite Hs'|]. naive_solver.
Qed.

Lemma reads_mono {T} (m : Proc D FatError.t T) d (Q Q' : Result T FatError.t -> Prop) :
  reads m d Q -> (forall r, Q r -> Q' r) -> reads m d Q'.
Proof. intros Hm HQ. eapply yields_mono; [exact Hm| |]; naive_solver. Qed.

Lemma reads_read {T} n (k : list N -> Proc D FatError.t T) d Q :
  n < limit -> (forall d', same d d' -> reads (k (sector d n)) d' Q) ->
  reads (bind (read_sector n) k) d Q.
Proof.
  intros Hn Hk. eapply (reads_bind _ _ _ (fun r => r = Ok (sector d n))); [|done|].
  - eapply yields_mono; [by apply read_law| |]; cbn.
    + intros x d' (->&Hs&Hf). done.
    + intros e d' (->&Hf&Hs). split; [done|by left].
  - intros x d' Hs [= ->]. by apply Hk.
Qed.

Lemma reads_exec {T U} (x : T) (k : T -> Proc D FatError.t U) d Q :
  reads (k x) d Q -> reads (bind (exec (Ret (Ok x))) k) d Q.
Proof. done. Qed.

(** The entry of a cluster in a sector of the FAT. *)
Definition link (g : Geometry.t) (bytes : list N) (cluster : N) : Result (option N) FatError.t :=
  let value := N.land (word_at 4 bytes (N.to_nat (cluster mod ENTRIES_PER_FAT_SECTOR) * 4)) 0x0fffffff in
  if decide (FAT32_EOC_MIN <= value) then Ok None
  else if decide (value < 2 \/ Geometry.cluster_count g + 2 <= value) then Err FatError.InvalidVolume
  else Ok (Some value).

Definition fat_sector_of (cluster : N) : N := RESERVED_SECTORS + cluster / ENTRIES_PER_FAT_SECTOR.

Lemma next_cluster_reads g cluster d Q :
  fat_sector_of cluster < limit -> Q (link g (sector d (fat_sector_of cluster)) cluster) ->
  reads (next_cluster g cluster) d Q.
Proof.
  intros Hl HQ. unfold next_cluster. apply reads_read; [done|]. intros d' _. cbv zeta.
  unfold link in HQ. destruct (decide (FAT32_EOC_MIN <= _)) in HQ |- *; [by apply reads_ret|].
  destruct (decide (_ \/ _)) in HQ |- *; [by apply reads_fail|by apply reads_ret].
Qed.

(** The search through some sectors of the root directory. *)
Fixpoint scan_list (g : Geometry.t) (name : list N) (sectors : list (list N))
  : option (Result RootFileReader.t FatError.t) :=
  match sectors with
  | [] => None
  | bytes :: sectors =>
      match scan_entries g name (chunks_exact 32 bytes) with
      | Some r => Some r
      | None => scan_list g name sectors
      end
  end.

Lemma scan_sectors_reads g name first indices d Q :
  Forall (fun i => first + N.of_nat i < limit) indices ->
  Q (Ok (scan_list g name ((fun i => sector d (first + N.of_nat i)) <$> indices))) ->
  reads (scan_sectors g name first indices) d Q.
Proof.
  revert d. induction indices as [|i indices IH]; intros d Hl HQ; [by apply reads_ret|].
  apply Forall_cons in Hl as [Hi Hl]. cbn [scan_sectors]. apply reads_read; [done|]. intros d' Hs.
  cbn in HQ. destruct (scan_entries _ _ _); [by apply reads_ret|]. apply IH; [done|].
  erewrite list_fmap_ext; [exact HQ|]. intros j i' _. apply Hs.
Qed.

(** *** Any volume at all *)

(** A reader of a volume that lies on the device. *)
Record reader_ok (self : RootFileReader.t) : Prop := {
  reader_geometry : geometry_ok (RootFileReader.geometry self);
  reader_volume : Geometry.total_sectors (RootFileReader.geometry self) <= limit
}.

Lemma cluster_indices g cluster :
  geometry_ok g -> Geometry.total_sectors g <= limit -> 2 <= cluster < Geometry.cluster_count g + 2 ->
  Forall (fun i => cluster_start g cluster + N.of_nat i < limit)
    (seq 0 (N.to_nat (Geometry.sectors_per_cluster g))).
Proof.
  intros Hg Hl Hc. destruct (cluster_in_volume g Hg cluster Hc) as [_ Hend].
  apply Forall_forall. intros i Hi%elem_of_seq. lia.
Qed.

Lemma fat_sector_bound g cluster :
  geometry_ok g -> Geometry.total_sectors g <= limit -> cluster < Geometry.cluster_count g + 2 ->
  fat_sector_of cluster < limit.
Proof.
  intros Hg Hl Hc. pose proof (fat_in_volume g Hg _ (fat_covers g Hg cluster Hc)).
  unfold fat_sector_of. lia.
Qed.

Lemma link_range g bytes cluster next :
  link g bytes cluster = Ok (Some next) -> 2 <= next < Geometry.cluster_count g + 2.
Proof. unfold link. case_decide; [done|]. case_decide; [done|]. intros [= <-]. lia. Qed.

(** What a search for a file on a volume [g] gives. *)
Definition search_result (g : Geometry.t) (r : Result RootFileReader.t FatError.t) : Prop :=
  match r with
  | Ok self => RootFileReader.geometry self = g
  | Err e => e = FatError.InvalidVolume \/ e = FatError.NotFound
  end.

Lemma scan_entries_result g name entries r : scan_entries g name entries = Some r -> search_result g r.
Proof.
  induction entries as [|entry entries IH]; [done|]. cbn [scan_entries].
  case_decide; [intros [= <-]; by right|]. case_decide; [done|]. by intros [= <-].
Qed.

Lemma scan_list_result g name sectors r : scan_list g name sectors = Some r -> search_result g r.
Proof.
  induction sectors as [|bytes sectors IH]; [done|]. cbn [scan_list].
  destruct (scan_entries _ _ _) eqn:E; [|done]. intros [= ->]. by eapply scan_entries_result.
Qed.

Lemma link_result g bytes cluster e : link g bytes cluster = Err e -> e = FatError.InvalidVolume.
Proof. unfold link. case_decide; [done|]. case_decide; [|done]. by intros [= <-]. Qed.

Lemma scan_clusters_safe n g name : forall cluster d,
  geometry_ok g -> Geometry.total_sectors g <= limit ->
  reads (scan_clusters n g name cluster) d (search_result g).
Proof.
  induction n as [|n IH]; intros cluster d Hg Hl; cbn [scan_clusters]; [apply reads_fail; by left|].
  rewrite cluster_sector_spec. case_decide as Hc.
  2: { apply (reads_bind _ _ _ (fun r => r = Err FatError.InvalidVolume)); [by apply reads_lift| |done].
       intros e [= ->]. by left. }
  apply (reads_bind _ _ _ (fun r => r = Ok (cluster_start g cluster))); [by apply reads_lift|done|].
  intros ? d1 _ [= ->].
  eapply (reads_bind _ _ _ (fun r => exists sectors, r = Ok (scan_list g name sectors))).
  { apply scan_sectors_reads; [by apply cluster_indices|by eexists]. }
  { naive_solver. }
  intros found d2 _ [sectors [= ->]].
  destruct (scan_list g name sectors) as [r|] eqn:E.
  { apply reads_lift. by eapply scan_list_result. }
  eapply (reads_bind _ _ _ (fun r => exists bytes, r = link g bytes cluster)).
  { apply next_cluster_reads; [apply (fat_sector_bound g); [done..|lia]|by eexists]. }
  { intros e [bytes He]. left. by eapply link_result. }
  intros [next|] d3 _ _; [by apply IH|apply reads_fail; by right].
Qed.

Lemma parse_boot_sector_Ok boot volume_sectors g :
  Forall is_byte boot -> length boot = SECTOR_SIZE ->
  parse_boot_sector boot volume_sectors = Ok g ->
  geometry_ok g /\ Geometry.total_sectors g <= volume_sectors.
Proof.
  intros Hb Hl. unfold parse_boot_sector. case_decide; [done|]. case_decide as Hv; [done|].
  destruct (Geometry.compute _ _) as [g'|] eqn:E; [|done]. cbn. case_decide; [done|]. intros [= <-].
  apply compute_Ok in E as (Hg&Ht&_); [split; [done|lia]|].
  unfold word_at. pose proof (from_le_bytes_bound (sub_bytes boot 32 4)) as Hw.
  assert (length (sub_bytes boot 32 4) = 4%nat) as Hlen
    by (unfold sub_bytes; rewrite length_take, length_drop, Hl; done).
  rewrite Hlen in Hw. unfold U32_MAX. cbn in Hw. apply N.lt_succ_r, Hw.
  unfold sub_bytes. by apply Forall_take, Forall_drop.
Qed.

Lemma parse_boot_sector_Err boot volume_sectors e :
  parse_boot_sector boot volume_sectors = Err e -> e = FatError.InvalidVolume.
Proof.
  unfold parse_boot_sector. case_decide; [by intros [= <-]|]. case_decide; [by intros [= <-]|].
  destruct (Geometry.compute _ _); [|by intros [= <-]]. cbn. case_decide; [by intros [= <-]|done].
Qed.

Lemma open_safe volume_sectors name d :
  0 < limit -> volume_sectors <= limit ->
  reads (open volume_sectors name) d (fun r =>
    match r with
    | Ok self => reader_ok self
    | Err e => e = FatError.InvalidVolume \/ e = FatError.NotFound
    end).
Proof.
  intros H0 Hv. unfold open. apply reads_read; [done|]. intros d' _.
  destruct (sector_wf d 0) as [Hl Hb].
  eapply (reads_bind _ _ _ (fun r => r = parse_boot_sector (sector d 0) volume_sectors)); [by apply reads_lift| |].
  { intros e He. left. by eapply parse_boot_sector_Err. }
  intros g d1 _ Hg. symmetry in Hg. apply parse_boot_sector_Ok in Hg as [Hg Ht]; [|done..].
  cbv zeta. eapply reads_mono; [apply scan_clusters_safe; [done|lia]|].
  intros [self|e] Hr; [|done]. cbn in Hr. split; rewrite Hr; [done|lia].
Qed.

(** *** The bytes of a file *)

Section sink.
Context {A : Type} (sink : list N -> A -> Exec A).

(** One cluster: [I i remaining acc] holds before the sector of index [i] is
    read. The pass stops at the end of the cluster or of the file, and reads at
    least one sector of what remains. *)
Lemma read_cluster_reads (I : nat -> N -> A -> Prop) first d n : forall start remaining acc,
  Forall (fun i => first + N.of_nat i < limit) (seq start n) ->
  I start remaining acc ->
  (forall i remaining acc, (start <= i < start + n)%nat -> 0 < remaining -> I i remaining acc ->
    exists acc', sink (take (N.to_nat (N.min remaining 512)) (sector d (first + N.of_nat i))) acc = Ret acc'
      /\ I (S i) (remaining - N.min remaining 512) acc') ->
  reads (read_cluster sink first (seq start n) remaining acc) d
    (fun r => exists i remaining' acc', r = Ok (remaining', acc') /\ I i remaining' acc'
      /\ (start <= i)%nat /\ (remaining' = 0 \/ i = (start + n)%nat)
      /\ remaining' <= remaining /\ ((0 < n)%nat -> 0 < remaining -> remaining' < remaining)).
Proof.
  revert d. induction n as [|n IH]; intros d start remaining acc Hl HI Hstep.
  { apply reads_ret. exists start, remaining, acc. split_and!; [done|done|lia|right; lia|lia..]. }
  cbn [seq] in Hl. apply Forall_cons in Hl as [Hi Hl]. cbn [seq read_cluster]. case_decide as Hr.
  { apply reads_ret. exists start, remaining, acc. split_and!; [done|done|lia|by left|lia..]. }
  apply reads_read; [done|]. intros d' Hs. cbv zeta.
  destruct (Hstep start remaining acc) as (acc'&Hsink&HI'); [lia|lia|done|].
  change (N.of_nat SECTOR_SIZE) with 512. unfold slice_to.
  destruct (sector_wf d (first + N.of_nat start)) as [Hlen _].
  rewrite decide_True by (rewrite Hlen; unfold SECTOR_SIZE; lia). apply reads_exec. rewrite Hsink.
  apply reads_exec. eapply reads_mono.
  - apply IH; [done|exact HI'|]. intros i rem acc1 Hin Hrem HI1.
    rewrite (proj1 Hs). apply Hstep; [lia|done|done].
  - intros r (i&rem&acc1&->&HI1&Hle&Hend&Hmono&_). exists i, rem, acc1. split_and!; [done|done|lia| |lia..].
    destruct Hend; [by left|right; lia].
Qed.

(** Any chain: enough fuel for the bytes that remain, and every byte of the size
    is delivered unless an error stops the reading. *)
Lemma read_clusters_safe (I : N -> A -> Prop) g : forall fuel cluster remaining acc d,
  geometry_ok g -> Geometry.total_sectors g <= limit -> (N.to_nat remaining < fuel)%nat -> I remaining acc ->
  (forall bytes remaining acc, length bytes = SECTOR_SIZE -> Forall is_byte bytes -> 0 < remaining ->
    I remaining acc ->
    exists acc', sink (take (N.to_nat (N.min remaining 512)) bytes) acc = Ret acc'
      /\ I (remaining - N.min remaining 512) acc') ->
  reads (read_clusters sink fuel g cluster remaining acc) d
    (fun r => match r with Ok o => exists acc', o = Some acc' /\ I 0 acc'
                         | Err e => e = FatError.InvalidVolume end).
Proof.
  induction fuel as [|fuel IH]; intros cluster remaining acc d Hg Hl Hf HI Hstep; [lia|].
  cbn [read_clusters]. case_decide as Hr; [apply reads_ret; subst; by eexists|].
  rewrite cluster_sector_spec. case_decide as Hc.
  2: { apply (reads_bind _ _ _ (fun r => r = Err FatError.InvalidVolume)); [by apply reads_lift|naive_solver|done]. }
  apply (reads_bind _ _ _ (fun r => r = Ok (cluster_start g cluster))); [by apply reads_lift|done|].
  intros ? d1 _ [= ->].
  eapply reads_bind; [apply (read_cluster_reads (fun _ => I)); [by apply cluster_indices|done|]| |].
  { intros i rem acc1 _ Hrem HI1. apply Hstep; [apply sector_wf..|done|done]. }
  { naive_solver. }
  intros [rem acc1] d2 _ (i&rem'&acc'&[= <- <-]&HI'&_&_&_&Hdec).
  assert (Hlt : rem < remaining) by (apply Hdec; [pose proof (geometry_cluster _ Hg); lia|lia]).
  case_decide as H0; [|by apply IH; [..|lia| |]].
  eapply (reads_bind _ _ _ (fun r => exists bytes, r = link g bytes cluster)).
  { apply next_cluster_reads; [apply (fat_sector_bound g); [done..|lia]|by eexists]. }
  { intros e [bytes He]. unfold link in He. repeat case_decide; naive_solver. }
  intros next d3 _ _. apply (reads_bind _ _ _ (fun r => r = ok_or next FatError.InvalidVolume));
    [by apply reads_lift|by destruct next; naive_solver|].
  intros c d4 _ _. apply IH; [done|done|lia|done|done].
Qed.
End sink.

(** Reading a file whole: no error but a failing device or a broken chain, and
    on success the size of the file in bytes. *)
Lemma read_all_safe self output d :
  reader_ok self ->
  reads (read_all self output) d (fun r =>
    match r with
    | Ok o => exists output', o = Some (output', N.to_nat (RootFileReader.size self))
                /\ RootFileReader.size self <= N.of_nat (length output)
                /\ length output' = length output
                /\ drop (N.to_nat (RootFileReader.size self)) output'
                   = drop (N.to_nat (RootFileReader.size self)) output
    | Err e => e = FatError.InvalidVolume
               \/ e = FatError.OutOfRange /\ N.of_nat (length output) < RootFileReader.size self
    end).
Proof.
  intros [Hg Hl]. unfold read_all. case_decide as Hout; [apply reads_fail; by right|].
  set (size := RootFileReader.size self) in *.
  eapply reads_mono; [apply (read_clusters_safe copy_chunk (fun remaining acc =>
    length acc.1 = length output /\ N.of_nat acc.2 + remaining = size
    /\ drop (N.to_nat size) acc.1 = drop (N.to_nat size) output)); [done|done|unfold size; lia|done|]|].
  - intros bytes remaining [out off] Hlen _ Hr (Hlo&Hoff&Hd). cbn in Hlo, Hoff, Hd. unfold copy_chunk.
    cbn [fst snd]. set (chunk := take _ bytes).
    assert (Hc : length chunk = N.to_nat (N.min remaining 512))
      by (unfold chunk; rewrite length_take, Hlen; unfold SECTOR_SIZE; lia).
    rewrite copy_into_Ret by lia. eexists. split; [done|]. cbn [fst snd]. split_and!.
    + rewrite !length_app, length_take, length_drop. lia.
    + lia.
    + rewrite drop_app_ge by (rewrite length_take; lia).
      rewrite drop_app_ge by (rewrite length_take; lia). rewrite drop_drop.
      rewrite length_take_le by lia. rewrite <-Hd. f_equal. lia.
  - intros [o|e]; [|by left]. intros ([out off]&->&Hlo&Hoff&Hd). cbn in *.
    exists out. split_and!; [do 2 f_equal; lia|lia|done|done].
Qed.
(** C27: Whatever the sectors hold (a forged boot sector, cluster numbers out of
    range, chains that loop), opening a file by name and reading it into a buffer
    comes to an end. It does not panic, and as a lawful device may panic outside
    its sectors, it does not leave the volume either; it writes to no sector. A
    success reports a length that fits in the buffer and changes no byte past
    it; an error is the device's or one of the three documented ones. The fuel of
    [read_clusters] always suffices. *)
Theorem hostile_volume volume_sectors name output d :
  0 < limit -> volume_sectors <= limit ->
  reads (do self := open volume_sectors name in read_all self output) d (fun r =>
    match r with
    | Ok o => exists output' n, o = Some (output', n) /\ (n <= length output)%nat
                /\ length output' = length output /\ drop n output' = drop n output
    | Err e => e = FatError.InvalidVolume \/ e = FatError.NotFound \/ e = FatError.OutOfRange
    end).
Proof.
  intros H0 Hv. eapply reads_bind; [by apply open_safe|naive_solver|]. intros self d' _ Hr.
  eapply reads_mono; [by apply read_all_safe|]. intros [o|e]; [|naive_solver].
  intros (output'&->&Hsize&Hlen&Hd). exists output', (N.to_nat (RootFileReader.size self)).
  split_and!; [done|lia|done|done].
Qed.
End device.
