(* ===== verification/Fat32Volume.v ===== *)
(** * What formatting a volume does (crates/nagi-fat32/src/lib.rs)

    [format] is refined by a plan, the list of its sector writes; the sectors
    the plan leaves are the new volume. Shown here are that every write is for a
    sector of the volume, what an interrupted call leaves, and that a file of a
    formatted volume is found and read back by the definitions of Fat32. *)

From stdpp Require Import prelude.
From S2P Require Import Prelude Memory Fat32.

Local Open Scope N_scope.
Local Open Scope nagi_scope.
Import Proc.

(** ** The volume a call of [format] writes *)

(** One write per pair, in order. *)
Definition writes := list (N * list N).

Definition range_writes (base : N) (n : nat) (f : nat -> list N) : writes :=
  (fun i => (base + N.of_nat i, f i)) <$> seq 0 n.

Definition sector_count (contents : list N) : nat :=
  N.to_nat (div_ceil (N.of_nat (length contents)) (N.of_nat SECTOR_SIZE)).

(** The sector that holds the bytes of a file from [i * 512] on. *)
Definition file_sector (contents : list N) (i : nat) : list N :=
  put 0 (take SECTOR_SIZE (drop (i * SECTOR_SIZE) contents)) zero_sector.

Definition file_writes (g : Geometry.t) (placed : Placement.t * RootFile.t) : writes :=
  range_writes (cluster_start g (Placement.first_cluster placed.1))
    (sector_count (RootFile.contents placed.2)) (file_sector (RootFile.contents placed.2)).

Definition fat_writes (g : Geometry.t) (ps : list Placement.t) (fat : N) : writes :=
  range_writes (RESERVED_SECTORS + fat * Geometry.fat_sectors g) (N.to_nat (Geometry.fat_sectors g))
    (fun i => fat_sector_bytes ps (N.of_nat i)).

Definition root_writes (g : Geometry.t) (label : list N) (placed : list (Placement.t * RootFile.t))
  : writes :=
  range_writes (cluster_start g ROOT_CLUSTER) (N.to_nat (Geometry.sectors_per_cluster g))
    (fun i => if decide (i = 0%nat) then root_sector label placed else zero_sector).

(** Everything between the two writes of the primary boot sector. *)
Definition body_writes (g : Geometry.t) (label : list N) (ps : list Placement.t) (next : N)
  (files : list RootFile.t) : writes :=
  [(BACKUP_BOOT_SECTOR, zero_sector)]
  ++ (zip ps files ≫= file_writes g)
  ++ (fat_writes g ps 0 ++ fat_writes g ps 1)
  ++ root_writes g label (zip ps files)
  ++ [(FSINFO_SECTOR, fsinfo_sector g next); (BACKUP_BOOT_SECTOR + FSINFO_SECTOR, fsinfo_sector g next);
      (BACKUP_BOOT_SECTOR, boot_sector g label)].

Definition format_writes (g : Geometry.t) (label : list N) (ps : list Placement.t) (next : N)
  (files : list RootFile.t) : writes :=
  (0, zero_sector) :: body_writes g label ps next files ++ [(0, boot_sector g label)].

(** The sectors after some writes. *)
Definition apply_writes (ws : writes) (c : N -> list N) : N -> list N :=
  foldl (fun c w m => if decide (m = w.1) then w.2 else c m) c ws.

Definition write_all {D} `{SectorDevice D} (ws : writes) : Proc D FatError.t unit :=
  for_each ws (fun w => write_sector w.1 w.2).

(** What [format] checks before it writes: the volume it is going to write. *)
Definition planned (total_sectors sectors_per_cluster : N) (files : list RootFile.t)
  : Result (Geometry.t * list Placement.t * N) FatError.t :=
  let? g := Geometry.compute total_sectors sectors_per_cluster in
  if decide (MAX_ROOT_FILES < length files)%nat then Err FatError.Files
  else
    let? _ := check_files [] files in
    let? (ps, next) := place g (ROOT_CLUSTER + 1) files in
    Ok (g, ps, next).

(** ** Formatting *)

(** *** Placing the files *)

(** Consecutive ranges of clusters from [next] to [last]. *)
Fixpoint placed_from (g : Geometry.t) (next last : N) (ps : list Placement.t) (files : list RootFile.t)
  : Prop :=
  match ps, files with
  | [], [] => next = last
  | p :: ps, f :: files =>
      Placement.first_cluster p = next
      /\ Placement.clusters p = div_ceil (N.of_nat (length (RootFile.contents f))) (Geometry.cluster_bytes g)
      /\ next + Placement.clusters p <= Geometry.cluster_count g + 2
      /\ placed_from g (next + Placement.clusters p) last ps files
  | _, _ => False
  end.

Lemma place_Ok g files : forall next ps last,
  next <= Geometry.cluster_count g + 2 ->
  place g next files = Ok (ps, last) ->
  placed_from g next last ps files /\ last <= Geometry.cluster_count g + 2.
Proof.
  induction files as [|f files IH]; intros next ps last Hn; cbn [place]; [by intros [= <- <-]|].
  case_decide; [done|]. unfold u32_checked_add, ok_or. case_decide; [|done]. case_decide as Hs; [done|].
  destruct (place g _ files) as [[ps' last']|] eqn:E; [|done]. intros [= <- <-].
  apply IH in E as [Hp Hl]; [|lia]. split; [|done]. cbn. split_and!; [done|done|lia|done].
Qed.

Lemma placed_length g next last ps files : placed_from g next last ps files -> length ps = length files.
Proof.
  revert next files. induction ps as [|p ps IH]; intros next [|f files]; cbn; try done.
  intros (_&_&_&Hp). f_equal. by eapply IH.
Qed.

Definition file_ok (f : RootFile.t) : Prop :=
  RootFile.contents f <> [] /\ N.of_nat (length (RootFile.contents f)) <= U32_MAX.

Lemma check_files_Ok files : forall before,
  NoDup (RootFile.name <$> before) -> check_files before files = Ok tt ->
  Forall file_ok files /\ NoDup (RootFile.name <$> (before ++ files)).
Proof.
  induction files as [|f files IH]; intros before Hb; cbn [check_files].
  { intros _. by rewrite app_nil_r. }
  case_decide as Hf; [done|]. intros Hc. apply IH in Hc as [Hok Hnd].
  - split; [|by rewrite (assoc_L (++)) in Hnd || rewrite <-(assoc_L (++)) in Hnd].
    constructor; [split; [naive_solver|lia]|done].
  - rewrite fmap_app. apply NoDup_app. split_and!; [done| |apply NoDup_singleton].
    intros x Hx ->%list_elem_of_singleton. naive_solver.
Qed.

(** What [format] has checked when it starts to write. *)
Record volume_ok (g : Geometry.t) (ps : list Placement.t) (next : N) (files : list RootFile.t)
  : Prop := {
  volume_geometry : geometry_ok g;
  volume_placed : placed_from g (ROOT_CLUSTER + 1) next ps files;
  volume_next : next <= Geometry.cluster_count g + 2;
  volume_files : Forall file_ok files;
  volume_names : NoDup (RootFile.name <$> files);
  volume_count : (length files <= MAX_ROOT_FILES)%nat
}.

Lemma planned_Ok total spc files g ps next :
  total <= U32_MAX -> planned total spc files = Ok (g, ps, next) ->
  volume_ok g ps next files /\ Geometry.total_sectors g = total
  /\ Geometry.sectors_per_cluster g = spc /\ Geometry.compute total spc = Ok g.
Proof.
  intros Ht. unfold planned. destruct (Geometry.compute total spc) as [g'|] eqn:Hg; [|done].
  case_decide as Hn; [done|]. destruct (check_files [] files) as [[]|] eqn:Hc; [|done].
  destruct (place g' _ files) as [[ps' next']|] eqn:Hp; [|done]. intros [= <- <- <-].
  apply compute_Ok in Hg as (Hgo&<-&<-); [|done].
  apply place_Ok in Hp as [Hp Hnext].
  2: { pose proof (geometry_count _ Hgo). unfold ROOT_CLUSTER, MIN_FAT32_CLUSTERS in *. lia. }
  apply check_files_Ok in Hc as [Hf Hnd]; [|constructor].
  split_and!; [|done..]. split; try done. lia.
Qed.

Lemma cluster_bytes_pos g : geometry_ok g -> Geometry.cluster_bytes g <> 0.
Proof. intros Hg. pose proof (geometry_cluster _ Hg). unfold Geometry.cluster_bytes, SECTOR_SIZE. lia. Qed.

Lemma file_clusters g f :
  geometry_ok g -> file_ok f ->
  1 <= div_ceil (N.of_nat (length (RootFile.contents f))) (Geometry.cluster_bytes g).
Proof.
  intros Hg [Hne _].
  pose proof (div_ceil_spec (N.of_nat (length (RootFile.contents f))) _ (cluster_bytes_pos g Hg)) as Hd.
  assert (length (RootFile.contents f) <> 0%nat) by (by intros ?%nil_length_inv).
  destruct (decide (div_ceil (N.of_nat (length (RootFile.contents f))) (Geometry.cluster_bytes g) = 0))
    as [E|]; [rewrite E in Hd|]; lia.
Qed.

(** The file at a position, and the clusters around it. *)
Lemma placed_lookup g next last ps files j p f :
  placed_from g next last ps files -> zip ps files !! j = Some (p, f) ->
  Placement.clusters p = div_ceil (N.of_nat (length (RootFile.contents f))) (Geometry.cluster_bytes g)
  /\ next <= Placement.first_cluster p
  /\ Placement.first_cluster p + Placement.clusters p <= Geometry.cluster_count g + 2
  /\ forall j' p' f', (j < j')%nat -> zip ps files !! j' = Some (p', f') ->
     Placement.first_cluster p + Placement.clusters p <= Placement.first_cluster p'.
Proof.
  revert next files j. induction ps as [|p0 ps IH]; intros next [|f0 files] j; try done.
  cbn [placed_from zip zip_with]. intros (Hfst&Hcl&Hend&Hrest). destruct j as [|j]; cbn.
  - intros [= -> ->]. rewrite Hfst. split_and!; [done|lia|done|].
    intros [|j'] p' f' Hj Hj'; [lia|]. cbn in Hj'.
    clear -Hrest Hj'. revert Hrest Hj'. generalize (next + Placement.clusters p). intros n. revert n files j'.
    induction ps as [|q ps IH]; intros n [|f1 files] j'; try done. cbn.
    intros (Hq&_&_&Hr). destruct j' as [|j']; cbn; [intros [= -> ->]; lia|].
    intros Hj'. specialize (IH _ _ _ Hr Hj'). lia.
  - intros Hj. destruct (IH _ _ _ Hrest Hj) as (H1&H2&H3&H4). split_and!; [done|lia|done|].
    intros [|j'] p' f' Hlt Hj'; [lia|]. cbn in Hj'. eapply H4; [|done]. lia.
Qed.

Lemma imap_pair_seq {A} (h : nat -> A) n : imap pair (h <$> seq 0 n) = (fun i => (i, h i)) <$> seq 0 n.
Proof.
  apply list_eq. intros i. rewrite list_lookup_imap, !list_lookup_fmap.
  destruct (seq 0 n !! i) as [k|] eqn:E; [|done]. apply lookup_seq in E as [-> _]. done.
Qed.

Section formatting.
Context {D : Type} `{SectorDevice D}.

Lemma range_writes_loop base n (h : nat -> list N) :
  peq (write_all (D := D) (range_writes base n h))
    (for_each (seq 0 n) (fun i => write_sector (base + N.of_nat i) (h i))).
Proof. unfold write_all, range_writes. apply for_each_fmap. Qed.

Lemma write_file_plan g p f :
  2 <= Placement.first_cluster p < Geometry.cluster_count g + 2 ->
  peq (write_file (D := D) g (p, f)) (write_all (file_writes g (p, f))).
Proof.
  intros Hp. unfold write_file, file_writes. rewrite range_writes_loop, cluster_sector_spec.
  cbn [fst snd]. rewrite decide_True by done. change (bind (lift (Ok ?x)) ?k) with (k x). cbn beta.
  unfold chunks. rewrite imap_pair_seq, for_each_fmap. done.
Qed.

(** Formatting is checking, then writing sector by sector. *)
Lemma format_plan total spc label files :
  total <= U32_MAX ->
  peq (format (D := D) total spc label files)
    match planned total spc files with
    | Err e => fail e
    | Ok (g, ps, next) => write_all (format_writes g label ps next files)
    end.
Proof.
  intros Ht. destruct (planned total spc files) as [[[g ps] next]|e] eqn:Hplan.
  - pose proof (planned_Ok _ _ _ _ _ _ Ht Hplan) as (Hv&_). destruct Hv as [Hg Hp _ Hf _ _].
    unfold planned in Hplan. unfold format.
    destruct (Geometry.compute total spc) as [g'|]; [|done].
    change (bind (lift (Ok ?x)) ?k) with (k x). cbn beta.
    destruct (decide _) in Hplan |- *; [done|]. destruct (check_files [] files) as [[]|]; [|done].
    change (bind (lift (Ok ?x)) ?k) with (k x). cbn beta.
    destruct (place g' _ files) as [[ps' next']|]; [|done]. injection Hplan as <- <- <-.
    change (bind (lift (Ok ?x)) ?k) with (k x). cbn beta iota.
    unfold format_writes, body_writes, write_all. cbn [for_each app].
    apply bind_proper; [done|]. intros _. apply bind_proper; [done|]. intros _.
    rewrite <-!(assoc_L (++)), !for_each_app, for_each_mbind.
    apply bind_proper.
    { apply for_each_ext. intros [p f] Hin. apply write_file_plan.
      apply list_elem_of_lookup in Hin as [j Hj].
      destruct (placed_lookup _ _ _ _ _ _ _ _ Hp Hj) as (Hcl&Hlo&Hhi&_).
      apply lookup_zip_with_Some in Hj as (?&?&[= <- <-]&_&Hfile).
      apply list_elem_of_lookup_2 in Hfile. apply (proj1 (Forall_forall _ _) Hf) in Hfile.
      pose proof (file_clusters g' f Hg Hfile). unfold ROOT_CLUSTER in *. lia. }
    intros _.
    change (seq 0 (N.to_nat FAT_COUNT)) with [0; 1]%nat. cbn [for_each].
    rewrite bind_assoc, for_each_app. apply bind_proper.
    { unfold write_fat. symmetry. apply range_writes_loop. }
    intros _. rewrite bind_done, for_each_app. apply bind_proper.
    { unfold write_fat. symmetry. apply range_writes_loop. }
    intros _. rewrite for_each_app. apply bind_proper.
    { unfold write_root, root_writes. rewrite cluster_sector_spec, decide_True.
      - symmetry. apply range_writes_loop.
      - pose proof (geometry_count _ Hg). unfold MIN_FAT32_CLUSTERS, ROOT_CLUSTER in *. lia. }
    intros _. cbn [app for_each fst snd]. do 3 (apply bind_proper; [done|]; intros _). symmetry. apply bind_done.
  - unfold planned in Hplan. unfold format. destruct (Geometry.compute total spc) as [g|]; [|by injection Hplan as ->].
    change (bind (lift (Ok ?x)) ?k) with (k x). cbn beta.
    destruct (decide _) in Hplan |- *; [by injection Hplan as ->|].
    destruct (check_files [] files) as [[]|]; [|by injection Hplan as ->].
    destruct (place g _ files) as [[ps' next']|]; [done|by injection Hplan as ->].
Qed.
End formatting.

(** *** The effect of a list of writes *)

Lemma apply_writes_app p q c m : apply_writes (p ++ q) c m = apply_writes q (apply_writes p c) m.
Proof. unfold apply_writes. by rewrite foldl_app. Qed.

Lemma apply_writes_cons w ws c :
  apply_writes (w :: ws) c = apply_writes ws (fun m => if decide (m = w.1) then w.2 else c m).
Proof. done. Qed.

Lemma apply_writes_ext ws c c' m :
  (forall m, c m = c' m) -> apply_writes ws c m = apply_writes ws c' m.
Proof.
  revert c c'. induction ws as [|w ws IH]; intros c c' Hc; [apply Hc|]. rewrite !apply_writes_cons.
  apply IH. intros m'. by rewrite Hc.
Qed.

Lemma apply_writes_other ws c m : m ∉ ws.*1 -> apply_writes ws c m = c m.
Proof.
  revert c. induction ws as [|w ws IH]; intros c; [done|]. rewrite fmap_cons, not_elem_of_cons.
  intros [Hne Hin]. rewrite apply_writes_cons, IH by done. by rewrite decide_False.
Qed.

Lemma apply_writes_snoc ws n bytes c m :
  apply_writes (ws ++ [(n, bytes)]) c m = if decide (m = n) then bytes else apply_writes ws c m.
Proof. by rewrite apply_writes_app. Qed.

Lemma range_writes_S base n f :
  range_writes base (S n) f = range_writes base n f ++ [(base + N.of_nat n, f n)].
Proof. unfold range_writes. by rewrite seq_S, fmap_app. Qed.

Lemma elem_of_range_writes base n f m :
  m ∈ (range_writes base n f).*1 <-> base <= m < base + N.of_nat n.
Proof.
  unfold range_writes. rewrite <-list_fmap_compose, list_elem_of_fmap. setoid_rewrite elem_of_seq. cbn.
  split; [intros (i&->&Hi); lia|]. intros Hm. exists (N.to_nat (m - base)). lia.
Qed.

Lemma apply_range base n f c (i : nat) :
  (i < n)%nat -> apply_writes (range_writes base n f) c (base + N.of_nat i) = f i.
Proof.
  induction n as [|n IH]; [lia|]. intros Hi. rewrite range_writes_S, apply_writes_snoc. case_decide.
  - f_equal. lia.
  - apply IH. lia.
Qed.

(** A buffer a device accepts. *)
Definition is_sector (bytes : list N) : Prop := length bytes = SECTOR_SIZE /\ Forall is_byte bytes.

Definition write_ok (limit : N) (w : N * list N) : Prop := w.1 < limit /\ is_sector w.2.

Section writing.
Context {D : Type} `{SectorDevice D} (limit : N) `{!DeviceLaws D limit}.

(** All the writes, or those before one that failed. *)
Lemma write_all_law ws d :
  Forall (write_ok limit) ws ->
  yields (write_all ws) d
    (fun _ d' => (forall m, sector d' m = apply_writes ws (sector d) m) /\ (faulty d' -> faulty d))
    (fun e d' => e = FatError.Device /\ faulty d /\ exists k w, ws !! k = Some w
      /\ forall m, m <> w.1 -> sector d' m = apply_writes (take k ws) (sector d) m).
Proof.
  revert d. induction ws as [|w ws IH]; intros d Hok; [by apply yields_ret|].
  apply Forall_cons in Hok as [[Hw [Hl Hb]] Hok]. unfold write_all. cbn [for_each]. fold (write_all (D := D) ws).
  eapply yields_bind.
  - eapply yields_mono; [by apply write_law|by intros x d' HQ; exact HQ|]. cbn.
    intros e d' (->&Hf&Hs). split; [done|]. split; [done|]. exists 0%nat, w. done.
  - intros _ d' (Hn&Hs&Hf).
    assert (Hc : forall m, sector d' m = if decide (m = w.1) then w.2 else sector d m).
    { intros m. case_decide as Hm; [by rewrite Hm|by apply Hs]. }
    eapply yields_mono; [by apply IH| |].
    + cbn beta. intros _ d'' [Hd Hf']. split; [|by auto]. intros m. rewrite Hd, apply_writes_cons.
      by apply apply_writes_ext.
    + cbn beta. intros e d'' (->&Hf'&k&w'&Hk&Hd). split; [done|]. split; [by auto|]. exists (S k), w'. split; [done|].
      intros m Hm. rewrite Hd by done. rewrite firstn_cons, apply_writes_cons. by apply apply_writes_ext.
Qed.
End writing.

(** *** The buffers *)

(** The arguments of [format] at their types. *)
Record arguments_ok (label : list N) (files : list RootFile.t) : Prop := {
  argument_label : length label = 11%nat /\ Forall is_byte label;
  argument_files : Forall (fun f => length (RootFile.name f) = 11%nat /\ Forall is_byte (RootFile.name f)
                                    /\ Forall is_byte (RootFile.contents f)) files
}.

Lemma is_sector_zero : is_sector zero_sector.
Proof. split; [apply length_replicate|]. by apply Forall_replicate. Qed.

Lemma is_sector_put start source bytes :
  is_sector bytes -> (start + length source <= SECTOR_SIZE)%nat -> Forall is_byte source ->
  is_sector (put start source bytes).
Proof. intros [Hl Hb] Hend Hs. split; [rewrite put_length; lia|by apply put_bytes]. Qed.

(** Reduces a chain of [put]s to its sources. *)
Ltac sector_puts :=
  repeat first
    [ apply is_sector_zero
    | apply is_sector_put;
      [ | rewrite ?to_le_bytes_length; cbn [length]; unfold SECTOR_SIZE in *; lia
        | first [apply to_le_bytes_are_bytes | repeat constructor; by vm_compute | idtac] ] ].

Lemma boot_sector_ok g label :
  length label = 11%nat -> Forall is_byte label -> is_sector (boot_sector g label).
Proof.
  intros Hl Hb. unfold boot_sector. cbv zeta. sector_puts.
  constructor; [|done]. by apply N.mod_lt.
Qed.

Lemma fsinfo_sector_ok g next : is_sector (fsinfo_sector g next).
Proof. unfold fsinfo_sector. cbv zeta. sector_puts. Qed.

Lemma fat_sector_ok ps i : is_sector (fat_sector_bytes ps i).
Proof.
  unfold fat_sector_bytes. cut (forall n, (n <= 128)%nat -> is_sector (foldl (fun sector slot =>
    let cluster := i * ENTRIES_PER_FAT_SECTOR + N.of_nat slot in
    put (slot * 4) (to_le_bytes 4 (fat_entry cluster ps)) sector) zero_sector (seq 0 n)));
    [intros Hn; by apply Hn|].
  induction n as [|n IH]; intros Hn; [apply is_sector_zero|]. rewrite seq_S, foldl_app. cbn [foldl].
  apply is_sector_put; [apply IH; lia| |apply to_le_bytes_are_bytes].
  rewrite to_le_bytes_length. unfold SECTOR_SIZE. lia.
Qed.

Lemma file_sector_ok contents i : Forall is_byte contents -> is_sector (file_sector contents i).
Proof.
  intros Hb. apply is_sector_put; [apply is_sector_zero| |by apply Forall_take, Forall_drop].
  rewrite length_take. lia.
Qed.

Lemma put_entry_ok bytes pos p f :
  is_sector bytes -> (32 * (pos + 2) <= SECTOR_SIZE)%nat ->
  length (RootFile.name f) = 11%nat -> Forall is_byte (RootFile.name f) ->
  is_sector (put_entry bytes pos p f).
Proof.
  intros Hs Hp Hl Hb. unfold put_entry. cbv zeta. sector_puts; done.
Qed.

Lemma root_sector_ok label placed :
  length label = 11%nat -> Forall is_byte label -> (length placed <= MAX_ROOT_FILES)%nat ->
  Forall (fun x : Placement.t * RootFile.t =>
    length (RootFile.name x.2) = 11%nat /\ Forall is_byte (RootFile.name x.2)) placed ->
  is_sector (root_sector label placed).
Proof.
  intros Hl Hb Hn Hp. unfold root_sector. induction placed as [|x placed IH] using rev_ind.
  - cbn [imap foldl]. apply is_sector_put; [apply is_sector_zero| |].
    + rewrite !put_length; rewrite ?put_length, ?length_replicate, ?Hl; cbn; unfold SECTOR_SIZE; lia.
    + apply put_bytes; [by repeat constructor|]. apply put_bytes; [done|by apply Forall_replicate].
  - rewrite length_app in Hn. cbn in Hn. apply Forall_app in Hp as [Hp [[Hx1 Hx2] _]%Forall_cons].
    rewrite imap_app, foldl_app. cbn. apply put_entry_ok; [apply IH; [lia|done]| |done|done].
    unfold MAX_ROOT_FILES, SECTOR_SIZE in *. lia.
Qed.

(** *** Where the writes go *)

Section layout.
Context (g : Geometry.t) (ps : list Placement.t) (next : N) (files : list RootFile.t).
Context (Hv : volume_ok g ps next files).

Lemma sector_count_bound p f :
  Placement.clusters p = div_ceil (N.of_nat (length (RootFile.contents f))) (Geometry.cluster_bytes g) ->
  N.of_nat (sector_count (RootFile.contents f)) <= Placement.clusters p * Geometry.sectors_per_cluster g.
Proof.
  intros Hc. pose proof (div_ceil_spec (N.of_nat (length (RootFile.contents f))) _
    (cluster_bytes_pos g (volume_geometry _ _ _ _ Hv))) as H1. rewrite <-Hc in H1.
  pose proof (div_ceil_spec (N.of_nat (length (RootFile.contents f))) (N.of_nat SECTOR_SIZE) ltac:(done)) as H2.
  unfold sector_count. rewrite N2Nat.id. unfold Geometry.cluster_bytes in H1.
  rewrite N.mul_assoc in H1. unfold SECTOR_SIZE in *. lia.
Qed.

(** The clusters of a file are data clusters after the root directory's. *)
Lemma file_region j p f :
  zip ps files !! j = Some (p, f) ->
  ROOT_CLUSTER + 1 <= Placement.first_cluster p
  /\ 1 <= Placement.clusters p
  /\ Placement.first_cluster p + Placement.clusters p <= Geometry.cluster_count g + 2
  /\ N.of_nat (sector_count (RootFile.contents f)) <= Placement.clusters p * Geometry.sectors_per_cluster g.
Proof.
  intros Hj. destruct Hv as [Hg Hp _ Hf _ _].
  destruct (placed_lookup _ _ _ _ _ _ _ _ Hp Hj) as (Hcl&Hlo&Hhi&_).
  apply lookup_zip_with_Some in Hj as (?&?&[= <- <-]&_&Hfile).
  apply list_elem_of_lookup_2 in Hfile. apply (proj1 (Forall_forall _ _) Hf) in Hfile.
  split_and!; [done|rewrite Hcl; by apply file_clusters|done|by apply sector_count_bound].
Qed.

Lemma cluster_start_add cluster n :
  2 <= cluster -> cluster_start g (cluster + n) = cluster_start g cluster + n * Geometry.sectors_per_cluster g.
Proof.
  intros Hc. unfold cluster_start. rewrite <-N.add_assoc, <-N.mul_add_distr_r. do 2 f_equal. lia.
Qed.

Lemma cluster_start_mono c1 c2 : c1 <= c2 -> cluster_start g c1 <= cluster_start g c2.
Proof. intros Hc. unfold cluster_start. apply N.add_le_mono_l, N.mul_le_mono_r. lia. Qed.

Lemma cluster_start_end :
  cluster_start g (Geometry.cluster_count g + 2) <= Geometry.total_sectors g.
Proof.
  pose proof (geometry_fits _ (volume_geometry _ _ _ _ Hv)). unfold cluster_start.
  by rewrite N.add_sub.
Qed.

(** A file's sectors. *)
Lemma file_writes_region j p f m :
  zip ps files !! j = Some (p, f) -> m ∈ (file_writes g (p, f)).*1 ->
  cluster_start g (Placement.first_cluster p) <= m
    < cluster_start g (Placement.first_cluster p + Placement.clusters p).
Proof.
  intros Hj Hm. destruct (file_region j p f Hj) as (Hlo&_&_&Hn).
  apply elem_of_range_writes in Hm. cbn [fst snd] in Hm.
  rewrite cluster_start_add by (unfold ROOT_CLUSTER in *; lia). lia.
Qed.

Lemma files_region m :
  m ∈ (zip ps files ≫= file_writes g).*1 ->
  cluster_start g (ROOT_CLUSTER + 1) <= m < Geometry.total_sectors g.
Proof.
  rewrite list_elem_of_fmap. intros (w&->&([p f]&Hw&[j Hj]%list_elem_of_lookup)%list_elem_of_bind).
  destruct (file_region j p f Hj) as (Hlo&_&Hhi&_).
  assert (Hm : w.1 ∈ (file_writes g (p, f)).*1) by (by apply list_elem_of_fmap_2).
  apply (file_writes_region j) in Hm; [|done].
  pose proof (cluster_start_mono _ _ Hlo). pose proof (cluster_start_mono _ _ Hhi).
  pose proof cluster_start_end. lia.
Qed.

Lemma fat_region fat m :
  m ∈ (fat_writes g ps fat).*1 <->
  RESERVED_SECTORS + fat * Geometry.fat_sectors g <= m
    < RESERVED_SECTORS + fat * Geometry.fat_sectors g + Geometry.fat_sectors g.
Proof. unfold fat_writes. rewrite elem_of_range_writes, N2Nat.id. done. Qed.

Lemma root_region label m :
  m ∈ (root_writes g label (zip ps files)).*1 <->
  cluster_start g ROOT_CLUSTER <= m < cluster_start g (ROOT_CLUSTER + 1).
Proof.
  unfold root_writes. rewrite elem_of_range_writes, N2Nat.id, cluster_start_add by done.
  by rewrite N.mul_1_l.
Qed.

Lemma root_start : cluster_start g ROOT_CLUSTER = Geometry.first_data_sector g.
Proof. unfold cluster_start, ROOT_CLUSTER. by rewrite N.sub_diag, N.add_0_r. Qed.

Lemma spc_pos : 1 <= Geometry.sectors_per_cluster g.
Proof. apply (geometry_cluster _ (volume_geometry _ _ _ _ Hv)). Qed.

Context (label : list N) (Hargs : arguments_ok label files).

Lemma in_zip p f : (p, f) ∈ zip ps files -> f ∈ files.
Proof.
  intros [j Hj]%list_elem_of_lookup. apply lookup_zip_with_Some in Hj as (?&?&[= <- <-]&_&Hfile).
  by eapply list_elem_of_lookup_2.
Qed.

Lemma fat_writes_ok fat :
  fat < FAT_COUNT -> Forall (write_ok (Geometry.total_sectors g)) (fat_writes g ps fat).
Proof.
  intros Hfat. pose proof (geometry_fits _ (volume_geometry _ _ _ _ Hv)) as Hfit.
  apply Forall_forall. intros w Hw. split; [|apply list_elem_of_fmap in Hw as (i&->&_); apply fat_sector_ok].
  apply (list_elem_of_fmap_2 fst) in Hw. apply fat_region in Hw.
  unfold Geometry.first_data_sector, FAT_COUNT in *.
  assert (fat * Geometry.fat_sectors g <= 1 * Geometry.fat_sectors g) by (apply N.mul_le_mono_r; lia). lia.
Qed.

(** Every write is a sector of the volume and 512 bytes. *)
Lemma format_writes_ok :
  Forall (write_ok (Geometry.total_sectors g)) (format_writes g label ps next files).
Proof.
  pose proof (volume_geometry _ _ _ _ Hv) as Hg. pose proof (geometry_fits _ Hg) as Hfit.
  pose proof (geometry_count _ Hg) as Hcnt. pose proof spc_pos as Hspc.
  assert (H32 : RESERVED_SECTORS < Geometry.total_sectors g).
  { unfold Geometry.first_data_sector, RESERVED_SECTORS, MIN_FAT32_CLUSTERS in *. nia. }
  destruct Hargs as [[Hll Hlb] Hfiles]. pose proof (proj1 (Forall_forall _ _) Hfiles) as Hf.
  assert (Hsmall : forall n, n <= 7 -> n < Geometry.total_sectors g)
    by (unfold RESERVED_SECTORS in H32; lia).
  pose proof (boot_sector_ok g label Hll Hlb) as Hboot. pose proof (fsinfo_sector_ok g next) as Hinfo.
  unfold format_writes, body_writes.
  repeat first [apply Forall_app; split | apply Forall_cons; split | apply Forall_nil_2];
    try (split; [by apply Hsmall|done || apply is_sector_zero]).
  - apply Forall_forall. intros w Hw. split.
    + apply (files_region w.1). by apply list_elem_of_fmap_2.
    + apply list_elem_of_bind in Hw as ([p f]&Hw&Hin). apply in_zip in Hin.
      apply list_elem_of_fmap in Hw as (i&->&_). apply file_sector_ok. by apply Hf.
  - by apply fat_writes_ok.
  - by apply fat_writes_ok.
  - apply Forall_forall. intros w Hw. split.
    + apply (list_elem_of_fmap_2 fst) in Hw. apply root_region in Hw.
      pose proof (cluster_start_mono (ROOT_CLUSTER + 1) (Geometry.cluster_count g + 2)
        ltac:(unfold ROOT_CLUSTER, MIN_FAT32_CLUSTERS in *; lia)).
      pose proof cluster_start_end. lia.
    + apply list_elem_of_fmap in Hw as (i&->&_). cbn [snd]. case_decide; [|apply is_sector_zero].
      apply root_sector_ok; [done|done| |].
      * rewrite length_zip_with. pose proof (volume_count _ _ _ _ Hv). lia.
      * apply Forall_forall. intros [p f] Hin%in_zip. split; by apply Hf.
Qed.

(** *** The finished volume *)

Definition volume (c : N -> list N) : N -> list N :=
  apply_writes (format_writes g label ps next files) c.

(** Sectors past the reserved ones, as the writes between the boot sectors leave
    them. *)
Lemma volume_data c m :
  RESERVED_SECTORS <= m ->
  exists c0, volume c m
    = apply_writes ((zip ps files ≫= file_writes g) ++ (fat_writes g ps 0 ++ fat_writes g ps 1)
                    ++ root_writes g label (zip ps files)) c0 m.
Proof.
  intros Hm. unfold volume, format_writes, body_writes. rewrite apply_writes_cons, apply_writes_snoc.
  rewrite decide_False by (unfold RESERVED_SECTORS in *; lia). cbn [app]. rewrite apply_writes_cons.
  rewrite !(assoc_L (++)), apply_writes_app, <-!(assoc_L (++)).
  rewrite apply_writes_other; [by eexists|]. cbn.
  unfold RESERVED_SECTORS, FSINFO_SECTOR, BACKUP_BOOT_SECTOR in *.
  rewrite !not_elem_of_cons. split_and!; [lia|lia|lia|]. by apply not_elem_of_nil.
Qed.

Lemma volume_boot c : volume c 0 = boot_sector g label.
Proof.
  unfold volume, format_writes. rewrite apply_writes_cons, apply_writes_snoc. by rewrite decide_True.
Qed.

Lemma volume_fat c (i : nat) :
  N.of_nat i < Geometry.fat_sectors g ->
  volume c (RESERVED_SECTORS + N.of_nat i) = fat_sector_bytes ps (N.of_nat i).
Proof.
  intros Hi. destruct (volume_data c (RESERVED_SECTORS + N.of_nat i)) as [c0 ->]; [lia|].
  rewrite !(assoc_L (++)), apply_writes_app, apply_writes_other.
  2: { rewrite root_region, root_start. unfold Geometry.first_data_sector, FAT_COUNT. lia. }
  rewrite apply_writes_app, apply_writes_other by (rewrite fat_region; lia).
  rewrite apply_writes_app.
  change (RESERVED_SECTORS + N.of_nat i) with (RESERVED_SECTORS + 0 * Geometry.fat_sectors g + N.of_nat i).
  unfold fat_writes. rewrite apply_range by lia. done.
Qed.

Lemma volume_root c : volume c (Geometry.first_data_sector g) = root_sector label (zip ps files).
Proof.
  destruct (volume_data c (Geometry.first_data_sector g)) as [c0 ->];
    [unfold Geometry.first_data_sector; lia|].
  rewrite !(assoc_L (++)), apply_writes_app. rewrite <-root_start.
  pose proof spc_pos. pose proof (apply_range (cluster_start g ROOT_CLUSTER)
    (N.to_nat (Geometry.sectors_per_cluster g)) (fun i => if decide (i = 0%nat)
      then root_sector label (zip ps files) else zero_sector)
    (apply_writes ((zip ps files ≫= file_writes g) ++ fat_writes g ps 0 ++ fat_writes g ps 1) c0) 0) as Ha.
  rewrite N.add_0_r in Ha. rewrite <-(assoc_L (++)) . apply Ha. lia.
Qed.

Lemma files_apply c j p f (i : nat) :
  zip ps files !! j = Some (p, f) -> (i < sector_count (RootFile.contents f))%nat ->
  apply_writes (zip ps files ≫= file_writes g) c (cluster_start g (Placement.first_cluster p) + N.of_nat i)
  = file_sector (RootFile.contents f) i.
Proof.
  intros Hj Hi. rewrite <-(take_drop_middle _ _ _ Hj), bind_app, bind_cons.
  rewrite !apply_writes_app, apply_writes_other.
  - unfold file_writes. cbn [fst snd]. by apply apply_range.
  - rewrite list_elem_of_fmap. intros (w&Hw&([p' f']&Hin&[k Hk]%list_elem_of_lookup)%list_elem_of_bind).
    rewrite lookup_drop in Hk. destruct (file_region j p f Hj) as (Hlo&_&_&Hn).
    destruct (placed_lookup _ _ _ _ _ _ _ _ (volume_placed _ _ _ _ Hv) Hj) as (_&_&_&Hafter).
    apply (Hafter _ p' f') in Hk as Hle; [|lia].
    apply (list_elem_of_fmap_2 fst) in Hin. apply (file_writes_region _ _ _ _ Hk) in Hin.
    pose proof (cluster_start_mono _ _ Hle).
    rewrite cluster_start_add in * by (unfold ROOT_CLUSTER in *; lia). lia.
Qed.

Lemma volume_file c j p f (i : nat) :
  zip ps files !! j = Some (p, f) -> (i < sector_count (RootFile.contents f))%nat ->
  volume c (cluster_start g (Placement.first_cluster p) + N.of_nat i) = file_sector (RootFile.contents f) i.
Proof.
  intros Hj Hi. destruct (file_region j p f Hj) as (Hlo&_&_&_).
  pose proof (cluster_start_mono _ _ Hlo) as Hmono. pose proof root_start as Hroot. pose proof spc_pos as Hspc.
  rewrite cluster_start_add in Hmono by done. rewrite Hroot in Hmono.
  destruct (volume_data c (cluster_start g (Placement.first_cluster p) + N.of_nat i)) as [c0 ->];
    [unfold Geometry.first_data_sector in *; lia|].
  rewrite apply_writes_app, apply_writes_other; [by eapply files_apply|].
  rewrite !fmap_app, !elem_of_app, !fat_region, root_region, cluster_start_add, Hroot by done.
  unfold Geometry.first_data_sector, FAT_COUNT in *. lia.
Qed.
End layout.

(** ** Reading the volume back *)

(** *** The boot sector *)

Lemma boot_fields g label :
  length label = 11%nat ->
  sub_bytes (boot_sector g label) 510 2 = [0x55; 0xaa]
  /\ sub_bytes (boot_sector g label) 11 2 = to_le_bytes 2 512
  /\ sub_bytes (boot_sector g label) 17 2 = [0; 0] /\ sub_bytes (boot_sector g label) 22 2 = [0; 0]
  /\ byte_at (boot_sector g label) 13 = Geometry.sectors_per_cluster g mod 256
  /\ sub_bytes (boot_sector g label) 14 2 = to_le_bytes 2 RESERVED_SECTORS
  /\ byte_at (boot_sector g label) 16 = FAT_COUNT
  /\ sub_bytes (boot_sector g label) 32 4 = to_le_bytes 4 (Geometry.total_sectors g)
  /\ sub_bytes (boot_sector g label) 36 4 = to_le_bytes 4 (Geometry.fat_sectors g)
  /\ sub_bytes (boot_sector g label) 44 4 = to_le_bytes 4 ROOT_CLUSTER.
Proof.
  intros Hl. do 11 (destruct label as [|? label]; [done|]). destruct label; [|done].
  split_and!; reflexivity.
Qed.

Lemma parse_boot g label volume_sectors :
  geometry_ok g -> length label = 11%nat -> Geometry.total_sectors g <= volume_sectors ->
  Geometry.compute (Geometry.total_sectors g) (Geometry.sectors_per_cluster g) = Ok g ->
  parse_boot_sector (boot_sector g label) volume_sectors = Ok g.
Proof.
  intros Hg Hl Ht Hc. destruct (boot_fields g label Hl) as (F1&F2&F3&F4&F5&F6&F7&F8&F9&_).
  pose proof (geometry_cluster _ Hg). pose proof (geometry_total _ Hg). pose proof (geometry_fits _ Hg).
  unfold parse_boot_sector, word_at. rewrite F1, F2, F3, F4, F5, F6, F7, F8, F9.
  rewrite decide_False by (by intros [?|[?|[?|?]]]). rewrite N.mod_small by lia.
  rewrite !from_to_le_bytes by
    (done || (unfold Geometry.first_data_sector, FAT_COUNT, U32_MAX in *; cbn [N.of_nat]; lia)).
  rewrite decide_False by lia. rewrite Hc. cbn. by rewrite decide_False by (intros []; done).
Qed.

(** *** The FAT *)

(** Words written one after the other. *)
Lemma words_lookup (w : nat -> list N) z n j :
  (forall i, length (w i) = 4%nat) -> (4 * n <= length z)%nat -> (j < n)%nat ->
  sub_bytes (foldl (fun bytes i => put (i * 4) (w i) bytes) z (seq 0 n)) (j * 4) 4 = w j.
Proof.
  intros Hw. assert (Hlen : forall m, (4 * m <= length z)%nat ->
    length (foldl (fun bytes i => put (i * 4) (w i) bytes) z (seq 0 m)) = length z).
  { induction m as [|m IH]; intros Hm; [done|]. rewrite seq_S, foldl_app. cbn [foldl].
    rewrite put_length; rewrite IH, ?Hw; lia. }
  induction n as [|n IH]; intros Hn Hj; [lia|]. rewrite seq_S, foldl_app. cbn [foldl plus].
  destruct (decide (j = n)) as [->|Hne].
  - etrans; [|apply (sub_bytes_put (n * 4) (w n))]; [by rewrite Hw|rewrite Hlen; lia].
  - rewrite sub_bytes_put_before by (rewrite ?Hlen; lia). apply IH; lia.
Qed.

Lemma fat_word ps k slot :
  (slot < 128)%nat -> fat_entry (k * ENTRIES_PER_FAT_SECTOR + N.of_nat slot) ps <= U32_MAX ->
  word_at 4 (fat_sector_bytes ps k) (slot * 4) = fat_entry (k * ENTRIES_PER_FAT_SECTOR + N.of_nat slot) ps.
Proof.
  intros Hs He. unfold word_at, fat_sector_bytes.
  rewrite (words_lookup (fun slot => to_le_bytes 4 (fat_entry (k * ENTRIES_PER_FAT_SECTOR + N.of_nat slot) ps)));
    [|by intros; apply to_le_bytes_length|by vm_compute; lia|done].
  apply from_to_le_bytes. unfold U32_MAX in He. cbn [N.of_nat]. lia.
Qed.

Section chain.
Context (g : Geometry.t) (ps : list Placement.t) (next : N) (files : list RootFile.t).
Context (Hv : volume_ok g ps next files).

(** Inside a file every cluster links to the one after it. *)
Lemma fat_entry_inside j p f k :
  zip ps files !! j = Some (p, f) -> k + 1 < Placement.clusters p ->
  fat_entry (Placement.first_cluster p + k) ps = Placement.first_cluster p + k + 1.
Proof.
  intros Hj Hk. destruct (file_region g ps next files Hv j p f Hj) as (Hlo&_&_&_).
  unfold fat_entry, ROOT_CLUSTER in *. rewrite !decide_False by lia.
  destruct (list_find _ ps) as [[j' p']|] eqn:E.
  - apply list_find_Some in E as (Hj'&Hin&_).
    assert (j' = j) as ->.
    { assert (exists f', zip ps files !! j' = Some (p', f')) as [f' Hz].
      { pose proof (placed_length _ _ _ _ _ (volume_placed _ _ _ _ Hv)) as Hl.
        destruct (lookup_lt_is_Some_2 files j') as [f' Hf']; [rewrite <-Hl; by eapply lookup_lt_Some|].
        exists f'. apply lookup_zip_with_Some. by exists p', f'. }
      destruct (placed_lookup _ _ _ _ _ _ _ _ (volume_placed _ _ _ _ Hv) Hj) as (_&_&_&H1).
      destruct (placed_lookup _ _ _ _ _ _ _ _ (volume_placed _ _ _ _ Hv) Hz) as (_&_&_&H2).
      destruct (Nat.lt_trichotomy j j') as [Hlt|[->|Hlt]]; [|done|].
      - specialize (H1 _ _ _ Hlt Hz). lia.
      - specialize (H2 _ _ _ Hlt Hj). lia. }
    apply lookup_zip_with_Some in Hj as (?&?&[= <- <-]&Hp&_). simplify_eq.
    by rewrite decide_False by lia.
  - apply list_find_None in E. apply lookup_zip_with_Some in Hj as (?&?&[= <- <-]&Hp&_).
    apply list_elem_of_lookup_2, (proj1 (Forall_forall _ _) E) in Hp. lia.
Qed.

Lemma fat_link c label j p f k :
  zip ps files !! j = Some (p, f) -> k + 1 < Placement.clusters p ->
  link g (volume g ps next files label c (fat_sector_of (Placement.first_cluster p + k)))
    (Placement.first_cluster p + k) = Ok (Some (Placement.first_cluster p + k + 1)).
Proof.
  intros Hj Hk. destruct (file_region g ps next files Hv j p f Hj) as (Hlo&_&Hhi&_).
  pose proof (volume_geometry _ _ _ _ Hv) as Hg. pose proof (geometry_count _ Hg) as Hcnt.
  set (cl := Placement.first_cluster p + k) in *.
  pose proof (fat_covers g Hg cl ltac:(lia)) as Hfat. unfold fat_sector_of.
  rewrite <-(N2Nat.id (cl / ENTRIES_PER_FAT_SECTOR)). rewrite (volume_fat g ps next files label c) by lia.
  rewrite N2Nat.id. unfold link.
  assert (Hcl : cl / ENTRIES_PER_FAT_SECTOR * ENTRIES_PER_FAT_SECTOR
    + N.of_nat (N.to_nat (cl mod ENTRIES_PER_FAT_SECTOR)) = cl).
  { rewrite N2Nat.id, N.mul_comm. symmetry. by apply N.div_mod. }
  pose proof (fat_entry_inside j p f k Hj Hk) as He. fold cl in He.
  unfold ROOT_CLUSTER, MAX_FAT32_CLUSTERS in *.
  rewrite fat_word; rewrite ?Hcl, ?He; [|pose proof (N.mod_lt cl ENTRIES_PER_FAT_SECTOR ltac:(done));
    unfold ENTRIES_PER_FAT_SECTOR in *; lia|unfold U32_MAX; lia].
  change 0x0fffffff with (N.ones 28). rewrite N.land_ones, N.mod_small by (cbn; lia).
  rewrite !decide_False by (unfold FAT32_EOC_MIN; lia). done.
Qed.
End chain.

(** *** The root directory *)

Definition label_entry (label : list N) : list N := label ++ [0x08] ++ replicate 20 0.

Definition dir_entry (x : Placement.t * RootFile.t) : list N :=
  RootFile.name x.2 ++ [0x20] ++ replicate 8 0
  ++ to_le_bytes 2 (N.shiftr (Placement.first_cluster x.1) 16 mod 2 ^ 16) ++ replicate 4 0
  ++ to_le_bytes 2 (Placement.first_cluster x.1 mod 2 ^ 16)
  ++ to_le_bytes 4 (N.of_nat (length (RootFile.contents x.2)) mod 2 ^ 32).

Definition free_entry : list N := replicate 32 0.

Lemma put_entry_append pre pos p f r :
  length pre = (32 * (pos + 1))%nat -> length (RootFile.name f) = 11%nat ->
  put_entry (pre ++ replicate (32 + r) 0) pos p f = pre ++ dir_entry (p, f) ++ replicate r 0.
Proof.
  intros Hpre Hname. unfold put_entry. cbv zeta. rewrite <-Hpre.
  rewrite <-(Nat.add_0_r (length pre)) at 5. rewrite !put_app. f_equal.
  unfold dir_entry. cbn [fst snd]. destruct f as [name contents]. cbn [RootFile.name RootFile.contents] in *.
  do 11 (destruct name as [|? name]; [done|]). destruct name; [|done]. reflexivity.
Qed.

Lemma dir_entry_length x : length (RootFile.name x.2) = 11%nat -> length (dir_entry x) = 32%nat.
Proof. intros Hn. unfold dir_entry. rewrite length_app, Hn. done. Qed.

Lemma blocks_chunks n es :
  (0 < n)%nat -> Forall (fun e => length e = n) es -> chunks_exact n (mjoin es) = es.
Proof.
  intros Hn Hes. unfold chunks_exact. rewrite (blocks_length n es Hes), Nat.mul_comm, Nat.div_mul by lia.
  induction Hes as [|e es He Hes IH]; [done|]. cbn [length seq]. rewrite fmap_cons.
  change (mjoin (e :: es)) with (e ++ mjoin es). f_equal.
  - rewrite drop_0. by apply take_app_length'.
  - rewrite <-fmap_S_seq, <-list_fmap_compose. rewrite <-IH at 2. apply list_fmap_ext.
    intros i k _. cbn [compose]. change (S k * n)%nat with (n + k * n)%nat.
    by rewrite <-drop_drop, drop_app_length'.
Qed.

Lemma root_sector_entries label placed :
  length label = 11%nat -> (length placed <= MAX_ROOT_FILES)%nat ->
  Forall (fun x : Placement.t * RootFile.t => length (RootFile.name x.2) = 11%nat) placed ->
  root_sector label placed
  = mjoin (label_entry label :: (dir_entry <$> placed) ++ replicate (15 - length placed) free_entry).
Proof.
  intros Hl. unfold root_sector.
  assert (Hlabel : put 0 (put 11 [8] (put 0 label (replicate 32 0))) zero_sector
    = label_entry label ++ replicate (32 * 15) 0).
  { do 11 (destruct label as [|? label]; [done|]). destruct label; [|done]. reflexivity. }
  rewrite Hlabel. clear Hlabel.
  assert (Hll : length (label_entry label) = 32%nat) by (unfold label_entry; rewrite length_app, Hl; done).
  intros Hn Hnames.
  assert (Hgen : foldl (fun sector x => put_entry sector x.1 x.2.1 x.2.2)
      (label_entry label ++ replicate (32 * 15) 0) (imap pair placed)
    = (label_entry label ++ mjoin (dir_entry <$> placed)) ++ replicate (32 * (15 - length placed)) 0).
  { induction placed as [|x placed IH] using rev_ind; [cbn; by rewrite app_nil_r|].
    rewrite length_app in Hn |- *. cbn [length] in Hn |- *.
    apply Forall_app in Hnames as [Hnames [Hx _]%Forall_cons].
    rewrite imap_app, foldl_app, IH by (done || lia). cbn [imap foldl fst snd].
    replace (32 * (15 - length placed))%nat with (32 + 32 * (15 - (length placed + 1)))%nat
      by (unfold MAX_ROOT_FILES in *; lia).
    rewrite put_entry_append; [| |done].
    - rewrite fmap_app, join_app. cbn [fmap list_fmap mjoin list_join]. rewrite app_nil_r.
      rewrite <-!(assoc_L (++)). by destruct x.
    - rewrite length_app, Hll, (blocks_length 32); [rewrite length_fmap; lia|].
      apply Forall_fmap. eapply Forall_impl; [exact Hnames|]. intros y. apply dir_entry_length. }
  rewrite Hgen. cbn [mjoin list_join]. rewrite join_app. unfold free_entry.
  by rewrite blocks_replicate, (assoc_L (++)).
Qed.

Lemma dir_entry_fields x :
  length (RootFile.name x.2) = 11%nat ->
  byte_at (dir_entry x) 0 = byte_at (RootFile.name x.2) 0 /\ byte_at (dir_entry x) 11 = 0x20
  /\ sub_bytes (dir_entry x) 0 11 = RootFile.name x.2
  /\ sub_bytes (dir_entry x) 20 2 = to_le_bytes 2 (N.shiftr (Placement.first_cluster x.1) 16 mod 2 ^ 16)
  /\ sub_bytes (dir_entry x) 26 2 = to_le_bytes 2 (Placement.first_cluster x.1 mod 2 ^ 16)
  /\ sub_bytes (dir_entry x) 28 4 = to_le_bytes 4 (N.of_nat (length (RootFile.contents x.2)) mod 2 ^ 32).
Proof.
  intros Hl. destruct x as [p [name contents]]. cbn [fst snd RootFile.name RootFile.contents] in *.
  unfold dir_entry. cbn [fst snd RootFile.name RootFile.contents].
  do 11 (destruct name as [|? name]; [done|]). destruct name; [|done]. split_and!; reflexivity.
Qed.

Lemma high_low n : n < 2 ^ 32 -> N.lor (N.shiftl (N.shiftr n 16 mod 2 ^ 16) 16) (n mod 2 ^ 16) = n.
Proof.
  intros Hn. rewrite N.shiftr_div_pow2, (N.mod_small (n / 2 ^ 16)) by (apply N.Div0.div_lt_upper_bound; done).
  rewrite N.shiftl_mul_pow2. apply N.bits_inj. intros b. rewrite N.lor_spec.
  destruct (N.lt_ge_cases b 16) as [Hb|Hb].
  - by rewrite N.mul_pow2_bits_low, N.mod_pow2_bits_low by done.
  - rewrite N.mul_pow2_bits_high, N.mod_pow2_bits_high, N.div_pow2_bits by done.
    rewrite orb_false_r. f_equal. lia.
Qed.

(** A name that marks a directory entry as used and not deleted. *)
Definition name_ok (name : list N) : Prop := byte_at name 0 <> 0 /\ byte_at name 0 <> 0xe5.

Lemma scan_found g placed rest j p f :
  Forall (fun x : Placement.t * RootFile.t =>
    length (RootFile.name x.2) = 11%nat /\ name_ok (RootFile.name x.2)) placed ->
  NoDup ((fun x => RootFile.name x.2) <$> placed) ->
  Placement.first_cluster p < 2 ^ 32 -> N.of_nat (length (RootFile.contents f)) < 2 ^ 32 ->
  placed !! j = Some (p, f) ->
  scan_entries g (RootFile.name f) ((dir_entry <$> placed) ++ rest)
  = Some (Ok (RootFileReader.mk g (Placement.first_cluster p) (N.of_nat (length (RootFile.contents f))))).
Proof.
  intros Hok Hnd Hfst Hsize. revert j. induction Hok as [|x placed [Hl [H0 He5]] Hok IH]; intros j Hj; [done|].
  destruct (dir_entry_fields x Hl) as (F0&F11&Fname&F20&F26&F28).
  rewrite fmap_cons in Hnd |- *. apply NoDup_cons in Hnd as [Hfresh Hnd].
  cbn [app scan_entries]. rewrite F0, F11, Fname, decide_False by done. unfold word_at. rewrite F20, F26, F28.
  destruct j as [|j]; cbn in Hj.
  - injection Hj as ->. cbn [fst snd]. rewrite decide_False by (by intros [?|[?|?]]).
    rewrite !from_to_le_bytes by (by apply N.mod_lt). by rewrite high_low, N.mod_small.
  - rewrite decide_True; [by eapply IH|]. right; right. intros Heq. apply Hfresh. rewrite Heq.
    apply list_elem_of_fmap. exists (p, f). split; [done|]. by eapply list_elem_of_lookup_2.
Qed.

Lemma scan_label g name label entries :
  length label = 11%nat -> byte_at label 0 <> 0 ->
  scan_entries g name (label_entry label :: entries) = scan_entries g name entries.
Proof.
  intros Hl H0. cbn [scan_entries].
  assert (byte_at (label_entry label) 0 = byte_at label 0 /\ byte_at (label_entry label) 11 = 8) as [-> ->].
  { do 11 (destruct label as [|? label]; [done|]). destruct label; [|done]. done. }
  rewrite decide_False by done. by rewrite decide_True by (right; left; done).
Qed.

(** *** Files *)

(** The output after the first [n] bytes. *)
Definition copied (contents output : list N) (n : nat) : list N * nat :=
  (put 0 (take n contents) output, n).

Lemma copy_chunk_next contents output a b :
  (length contents <= length output)%nat -> (a + b <= length contents)%nat ->
  copy_chunk (take b (drop a contents)) (copied contents output a) = Ret (copied contents output (a + b)).
Proof.
  intros Hl Hab. unfold copy_chunk, copied. rewrite !put_0. cbn [fst snd].
  assert (Hb : length (take b (drop a contents)) = b) by (rewrite length_take, length_drop; lia).
  assert (Ha : length (take a contents) = a) by (rewrite length_take; lia).
  rewrite !length_take, !Nat.min_l by lia.
  rewrite copy_into_Ret by (rewrite Hb, length_app, Ha, length_drop; lia).
  rewrite Hb, take_app_length', drop_app_ge, drop_drop, Ha by (done || lia).
  rewrite (assoc_L (++)), take_take_drop, length_drop.
  rewrite (Nat.min_l b), (Nat.min_l (a + b)) by lia. by replace (a + (a + b - a))%nat with (a + b)%nat by lia.
Qed.

Lemma file_sector_take contents (t : nat) n :
  n = N.to_nat (N.min (N.of_nat (length contents) - N.of_nat (t * SECTOR_SIZE)) 512) ->
  take n (file_sector contents t) = take n (drop (t * SECTOR_SIZE) contents).
Proof.
  intros Hn. unfold file_sector. rewrite put_0.
  rewrite take_app_le by (rewrite length_take, length_drop; unfold SECTOR_SIZE in *; lia).
  rewrite take_take. f_equal. unfold SECTOR_SIZE. lia.
Qed.

Section read_back.
Context {D : Type} `{SectorDevice D} (limit : N) `{!DeviceLaws D limit}.
Context (g : Geometry.t) (ps : list Placement.t) (next : N) (files : list RootFile.t) (label : list N).
Context (Hv : volume_ok g ps next files) (Hargs : arguments_ok label files).
Context (Hcompute : Geometry.compute (Geometry.total_sectors g) (Geometry.sectors_per_cluster g) = Ok g).
Context (Hlimit : Geometry.total_sectors g <= limit) (c : N -> list N).

(** The device holds the volume. *)
Definition holds (d : D) : Prop := forall m, sector d m = volume g ps next files label c m.

Lemma holds_same d d' : holds d -> same limit d d' -> holds d'.
Proof. intros Hd [Hs _] m. by rewrite Hs. Qed.

Context (j : nat) (p : Placement.t) (f : RootFile.t) (Hj : zip ps files !! j = Some (p, f)).

Definition reader : RootFileReader.t :=
  RootFileReader.mk g (Placement.first_cluster p) (N.of_nat (length (RootFile.contents f))).

(** The first sector of the root directory has the file. *)
Lemma root_scan name_sectors :
  byte_at label 0 <> 0 -> Forall (fun f => name_ok (RootFile.name f)) files ->
  scan_list g (RootFile.name f) (root_sector label (zip ps files) :: name_sectors) = Some (Ok reader).
Proof.
  intros Hlabel Hnames. destruct Hargs as [[Hll _] Hfiles]. pose proof (volume_geometry _ _ _ _ Hv) as Hg.
  pose proof (placed_length _ _ _ _ _ (volume_placed _ _ _ _ Hv)) as Hlen.
  pose proof (proj1 (Forall_forall _ _) Hfiles) as Hf. pose proof (proj1 (Forall_forall _ _) Hnames) as Hn.
  assert (Hzip : (fun x : Placement.t * RootFile.t => RootFile.name x.2) <$> zip ps files
                 = RootFile.name <$> files).
  { change (fun x : Placement.t * RootFile.t => RootFile.name x.2) with (RootFile.name ∘ snd (A := Placement.t)).
    by rewrite list_fmap_compose, snd_zip by lia. }
  cbn [scan_list]. rewrite root_sector_entries; [|done| |].
  2: { rewrite length_zip_with. pose proof (volume_count _ _ _ _ Hv). lia. }
  2: { apply Forall_forall. intros [q h] Hin%in_zip. by apply Hf. }
  rewrite blocks_chunks; [|lia|].
  2: { constructor; [unfold label_entry; by rewrite length_app, Hll|]. apply Forall_app. split.
       - apply Forall_fmap, Forall_forall. intros [q h] Hin%in_zip. apply dir_entry_length. by apply Hf.
       - by apply Forall_replicate. }
  rewrite scan_label, (scan_found _ _ _ j p f); [done|..|done|done|done].
  - apply Forall_forall. intros [q h] Hin%in_zip. split; [by apply Hf|by apply Hn].
  - rewrite Hzip. apply (volume_names _ _ _ _ Hv).
  - destruct (file_region g ps next files Hv j p f Hj) as (_&_&Hhi&_).
    pose proof (geometry_count _ Hg). unfold MAX_FAT32_CLUSTERS in *. lia.
  - apply lookup_zip_with_Some in Hj as (?&?&[= <- <-]&_&Hfile%list_elem_of_lookup_2).
    apply (proj1 (Forall_forall _ _) (volume_files _ _ _ _ Hv)) in Hfile as [_ Hs].
    unfold U32_MAX in Hs. lia.
Qed.

Lemma open_finds d volume_sectors :
  holds d -> Geometry.total_sectors g <= volume_sectors -> byte_at label 0 <> 0 ->
  Forall (fun f => name_ok (RootFile.name f)) files ->
  reads limit (open volume_sectors (RootFile.name f)) d (fun r => r = Ok reader).
Proof.
  intros Hd Hvol Hlabel Hnames. pose proof (volume_geometry _ _ _ _ Hv) as Hg.
  pose proof (geometry_count _ Hg) as Hcnt. pose proof (geometry_fits _ Hg) as Hfit.
  pose proof (geometry_cluster _ Hg) as Hspc. pose proof (argument_label _ _ Hargs) as [Hll _].
  assert (H0 : 0 < limit) by (unfold Geometry.first_data_sector, RESERVED_SECTORS in *; lia).
  unfold open. apply reads_read; [done|]. intros d1 H1.
  rewrite Hd, volume_boot, (parse_boot g label) by done. apply reads_exec.
  destruct (boot_fields g label Hll) as (_&_&_&_&_&_&_&_&_&F44). unfold word_at. rewrite F44.
  change (N.land (from_le_bytes (to_le_bytes 4 ROOT_CLUSTER)) 0x0fffffff) with ROOT_CLUSTER.
  assert (Hroot : 2 <= ROOT_CLUSTER < Geometry.cluster_count g + 2)
    by (unfold ROOT_CLUSTER, MIN_FAT32_CLUSTERS in *; lia).
  cbn [scan_clusters]. rewrite cluster_sector_spec, decide_True by done. apply reads_exec.
  eapply (reads_bind _ _ _ _ (fun r => r = Ok (Some (Ok reader)))); [|done|].
  - apply scan_sectors_reads; [by apply cluster_indices|]. f_equal.
    replace (N.to_nat (Geometry.sectors_per_cluster g)) with (S (N.to_nat (Geometry.sectors_per_cluster g) - 1)) by lia.
    cbn [seq]. rewrite fmap_cons, N.add_0_r, (root_start g).
    rewrite (holds_same _ _ Hd H1), (volume_root g ps next files Hv label c). by apply root_scan.
  - intros found d2 _ [= ->]. by apply reads_lift.
Qed.

Context (output : list N) (Houtput : (length (RootFile.contents f) <= length output)%nat).

Lemma sector_count_lt (contents : list N) i :
  (i < sector_count contents <-> i * SECTOR_SIZE < length contents)%nat.
Proof.
  unfold sector_count.
  pose proof (div_ceil_spec (N.of_nat (length contents)) (N.of_nat SECTOR_SIZE) ltac:(done)).
  set (q := div_ceil _ _) in *. clearbody q. unfold SECTOR_SIZE in *. lia.
Qed.

(** After [t] sectors of the file. *)
Definition at_sector (t : nat) (remaining : N) (acc : list N * nat) : Prop :=
  let n := Nat.min (length (RootFile.contents f)) (t * SECTOR_SIZE) in
  acc = copied (RootFile.contents f) output n
  /\ remaining = N.of_nat (length (RootFile.contents f) - n).

Lemma at_sector_step (t : nat) remaining acc :
  0 < remaining -> at_sector t remaining acc ->
  exists acc', copy_chunk (take (N.to_nat (N.min remaining 512)) (file_sector (RootFile.contents f) t)) acc = Ret acc'
    /\ at_sector (S t) (remaining - N.min remaining 512) acc'.
Proof.
  intros Hr [-> Hrem]. unfold at_sector in *. set (l := length (RootFile.contents f)) in *.
  assert (Ht : (t * SECTOR_SIZE < l)%nat) by lia. rewrite (Nat.min_r l (t * SECTOR_SIZE)) in * by lia.
  rewrite (file_sector_take (RootFile.contents f) t) by (fold l; rewrite Hrem; f_equal; lia).
  rewrite copy_chunk_next by (fold l; lia). eexists. split; [done|].
  unfold SECTOR_SIZE in *. split; [f_equal; lia|lia].
Qed.

Lemma read_chain fuel : forall (k : nat) remaining acc d,
  holds d -> (N.to_nat remaining < fuel)%nat ->
  at_sector (k * N.to_nat (Geometry.sectors_per_cluster g)) remaining acc ->
  (0 < remaining -> N.of_nat k < Placement.clusters p) ->
  reads limit (read_clusters copy_chunk fuel g (Placement.first_cluster p + N.of_nat k) remaining acc) d
    (fun r => r = Ok (Some (copied (RootFile.contents f) output (length (RootFile.contents f))))).
Proof.
  pose proof (volume_geometry _ _ _ _ Hv) as Hg. pose proof (geometry_cluster _ Hg) as Hspc.
  destruct (file_region g ps next files Hv j p f Hj) as (Hlo&_&Hhi&Hcount).
  set (spc := N.to_nat (Geometry.sectors_per_cluster g)) in *.
  induction fuel as [|fuel IH]; intros k remaining acc d Hd Hf Hat Hk; [lia|]. cbn [read_clusters].
  case_decide as Hz.
  { apply reads_ret. destruct Hat as [-> Hrem]. do 3 f_equal. lia. }
  assert (Hkc : N.of_nat k < Placement.clusters p) by (apply Hk; lia).
  assert (Hrange : 2 <= Placement.first_cluster p + N.of_nat k < Geometry.cluster_count g + 2)
    by (unfold ROOT_CLUSTER in *; lia).
  rewrite cluster_sector_spec, decide_True by done. apply reads_exec.
  eapply reads_bind; [apply (read_cluster_reads _ copy_chunk (fun i => at_sector (k * spc + i)))| |].
  { by apply cluster_indices. }
  { by rewrite Nat.add_0_r. }
  { intros i rem acc1 Hi Hrem Hat1. rewrite Nat.add_succ_r.
    replace (sector d _) with (file_sector (RootFile.contents f) (k * spc + i)); [by apply at_sector_step|].
    rewrite Hd, cluster_start_add by (unfold ROOT_CLUSTER in *; lia).
    rewrite <-N.add_assoc.
    replace (N.of_nat k * Geometry.sectors_per_cluster g + N.of_nat i) with (N.of_nat (k * spc + i)) by lia.
    symmetry. apply (volume_file g ps next files Hv label c j); [done|].
    destruct Hat1 as [_ Hrem1]. apply sector_count_lt. lia. }
  { naive_solver. }
  intros [rem acc1] d1 H1 (i&rem'&acc'&[= <- <-]&Hat'&_&Hend&_&Hdec).
  assert (Hlt : rem < remaining) by (apply Hdec; lia).
  case_decide as Hpos.
  - assert (Hi : i = spc) by (destruct Hend; lia). subst i.
    assert (Hk' : N.of_nat k + 1 < Placement.clusters p).
    { destruct Hat' as [_ Hrem'].
      pose proof (proj2 (sector_count_lt (RootFile.contents f) (k * spc + spc)) ltac:(lia)). nia. }
    eapply (reads_bind _ _ _ _ (fun r => r = Ok (Some (Placement.first_cluster p + N.of_nat (S k)))));
      [apply next_cluster_reads|done|].
    { apply (fat_sector_bound limit g); [done|done|lia]. }
    { rewrite (holds_same d d1 Hd H1), (fat_link g ps next files Hv c label j p f) by done. do 2 f_equal. lia. }
    intros next' d2 H2 [= ->]. apply reads_exec.
    apply IH; [by eapply holds_same; [eapply holds_same|]|lia| |lia].
    by replace (S k * spc)%nat with (k * spc + spc)%nat by lia.
  - destruct fuel as [|fuel]; [lia|]. cbn [read_clusters]. rewrite decide_True by lia.
    apply reads_ret. destruct Hat' as [-> Hrem']. do 3 f_equal. lia.
Qed.

Lemma read_all_finds d :
  holds d ->
  reads limit (read_all reader output) d
    (fun r => r = Ok (Some (copied (RootFile.contents f) output (length (RootFile.contents f))))).
Proof.
  intros Hd. unfold read_all. rewrite decide_False by (cbn; lia). unfold for_each_chunk.
  cbn [reader RootFileReader.size RootFileReader.geometry RootFileReader.first_cluster].
  pose proof (read_chain (S (length (RootFile.contents f))) 0) as Hchain. rewrite N.add_0_r in Hchain.
  rewrite Nat2N.id. apply Hchain; [done|lia| |].
  - split; [by rewrite Nat.min_0_r|lia].
  - pose proof (volume_geometry _ _ _ _ Hv) as Hg. pose proof (geometry_cluster _ Hg) as Hspc.
    destruct (file_region g ps next files Hv j p f Hj) as (_&_&_&Hcount). intros Hpos.
    pose proof (proj2 (sector_count_lt (RootFile.contents f) 0) ltac:(lia)). nia.
Qed.
End read_back.

(** ** Theorems *)

Lemma short_name_ok name short :
  short_name name = Some short -> length short = 11%nat /\ Forall is_byte short /\ name_ok short.
Proof.
  assert (Hpart : forall part, Forall name_byte part -> Forall is_byte part).
  { intros part Hp. eapply Forall_impl; [exact Hp|]. intros b. unfold name_byte, is_byte. lia. }
  unfold short_name. destruct (match list_find _ name with Some (dot, _) => _ | None => _ end) as [base ext].
  case_decide as Hn; [done|]. intros [= <-].
  assert (Hb : Forall name_byte base) by (destruct (decide (Forall name_byte base)); tauto).
  assert (He : Forall name_byte ext) by (destruct (decide (Forall name_byte ext)); tauto).
  destruct base as [|b base]; [tauto|]. assert (length (b :: base) <= 8)%nat by lia.
  assert (H8 : length (put 0 (b :: base) (replicate 11 32)) = 11%nat) by (rewrite put_length; [done|cbn in *; lia]).
  set (first := put 0 _ _) in *. split_and!; [rewrite put_length; lia| |]. all: subst first.
  - apply put_bytes; [by apply Hpart|]. apply put_bytes; [by apply Hpart|by repeat constructor].
  - apply Forall_cons in Hb as [Hb _]. unfold name_byte in Hb. unfold name_ok, byte_at. cbn. lia.
Qed.

Lemma body_writes_boot g label ps next files :
  volume_ok g ps next files -> 0 ∉ (body_writes g label ps next files).*1.
Proof.
  intros Hv Hin. unfold body_writes in Hin. rewrite !fmap_app, !elem_of_app, !fat_region, root_region, root_start in Hin.
  unfold Geometry.first_data_sector, RESERVED_SECTORS in Hin.
  destruct Hin as [Hin|[Hin|[Hin|[Hin|Hin]]]].
  - by set_solver.
  - apply (files_region _ _ _ _ Hv) in Hin. unfold cluster_start, Geometry.first_data_sector, ROOT_CLUSTER, RESERVED_SECTORS, FAT_COUNT in Hin. lia.
  - lia.
  - lia.
  - by set_solver.
Qed.

(** The writes up to one that fails. *)
Lemma format_writes_cut g label ps next files c k w :
  volume_ok g ps next files -> format_writes g label ps next files !! k = Some w ->
  let c' := apply_writes (take k (format_writes g label ps next files)) c in
  (w.1 = 0 /\ forall m, c' m = c m)
  \/ (w.1 <> 0 /\ c' 0 = zero_sector)
  \/ (w.1 = 0 /\ forall m, m <> 0 -> c' m = volume g ps next files label c m).
Proof.
  intros Hv. pose proof (body_writes_boot g label ps next files Hv) as Hbody.
  unfold volume, format_writes. destruct k as [|k]; cbn [lookup list_lookup].
  { intros [= <-]. by left. }
  intros Hk. right. cbn [take]. cbv zeta. rewrite !apply_writes_cons.
  set (body := body_writes g label ps next files) in *. clearbody body.
  apply lookup_app_Some in Hk as [Hk|[Hlen Hk]].
  - left. assert (k < length body)%nat by (by eapply lookup_lt_Some). rewrite take_app_le by lia. split.
    + apply list_elem_of_lookup_2 in Hk. intros Hw. apply Hbody. rewrite <-Hw. by apply list_elem_of_fmap_2.
    + rewrite apply_writes_other; [done|]. intros Hin. apply Hbody.
      rewrite fmap_take in Hin. apply elem_of_take in Hin as (?&?&_). by eapply list_elem_of_lookup_2.
  - right. apply list_lookup_singleton_Some in Hk as [Hk <-]. split; [done|]. intros m Hm.
    rewrite take_app_length' by lia. by rewrite apply_writes_snoc, decide_False.
Qed.

Section theorems.
Context {D : Type} `{SectorDevice D} (limit : N) `{!DeviceLaws D limit}.

(** A volume without a boot sector cannot be opened. *)
Lemma open_blank volume_sectors name d :
  0 < limit -> sector d 0 = zero_sector ->
  reads limit (open volume_sectors name) d (fun r => r = Err FatError.InvalidVolume).
Proof. intros H0 Hz. unfold open. apply reads_read; [done|]. intros d' _. rewrite Hz. by apply reads_fail. Qed.

Lemma format_law total spc label files d :
  total <= U32_MAX -> total <= limit -> arguments_ok label files ->
  yields (format total spc label files) d
    (fun _ d' => exists g ps next, planned total spc files = Ok (g, ps, next)
      /\ (forall m, sector d' m = volume g ps next files label (sector d) m) /\ (faulty d' -> faulty d))
    (fun e d' =>
      (planned total spc files = Err e /\ d' = d)
      \/ (e = FatError.Device /\ faulty d /\ exists g ps next k w,
            planned total spc files = Ok (g, ps, next) /\ format_writes g label ps next files !! k = Some w
            /\ forall m, m <> w.1 ->
                 sector d' m = apply_writes (take k (format_writes g label ps next files)) (sector d) m)).
Proof.
  intros Ht Hl Hargs. unfold yields. rewrite format_plan by done.
  destruct (planned total spc files) as [[[g ps] next]|e] eqn:Hplan.
  - apply planned_Ok in Hplan as (Hv&Htotal&_); [|done].
    eapply yields_mono; [apply (write_all_law limit)| |].
    + eapply Forall_impl; [by apply format_writes_ok|]. intros w [Hw Hs]. split; [lia|done].
    + cbn beta. intros _ d' [Hd Hf]. by exists g, ps, next.
    + cbn beta. intros e d' (->&Hf&k&w&Hw&Hd). right. split; [done|]. split; [done|]. by exists g, ps, next, k, w.
  - eexists _, _. split; [done|]. by left.
Qed.

(** C10: A format that stops at a failing write, whichever it is, leaves no
    half-written volume that looks valid. On success the sectors are those of
    the planned volume. If the arguments are refused nothing was written. Otherwise
    only a faulty device fails, and then one of three holds: no sector but the first, whose write
    failed, has changed; or nothing can be opened; or all sectors but the first,
    whose last write failed, are already those of the new volume. *)
Theorem format_crash_safe total spc label files d :
  total <= U32_MAX -> total <= limit -> arguments_ok label files ->
  yields (format total spc label files) d
    (fun _ d' => exists g ps next, planned total spc files = Ok (g, ps, next)
      /\ (forall m, sector d' m = volume g ps next files label (sector d) m) /\ (faulty d' -> faulty d))
    (fun e d' =>
      (planned total spc files = Err e /\ d' = d)
      \/ (e = FatError.Device /\ faulty d /\ exists g ps next, planned total spc files = Ok (g, ps, next)
          /\ ((forall m, m <> 0 -> sector d' m = sector d m)
              \/ (forall volume_sectors name, reads limit (open volume_sectors name) d'
                    (fun r => r = Err FatError.InvalidVolume))
              \/ (forall m, m <> 0 -> sector d' m = volume g ps next files label (sector d) m)))).
Proof.
  intros Ht Hl Hargs. eapply yields_mono; [by apply format_law|done|].
  intros e d' [[Hplan ->]|(->&Hf&g&ps&next&k&w&Hplan&Hw&Hd)]; [by left|]. right. split; [done|]. split; [done|].
  exists g, ps, next. split; [done|]. apply planned_Ok in Hplan as (Hv&Htotal&_); [|done].
  pose proof (geometry_positive _ (volume_geometry _ _ _ _ Hv)).
  destruct (format_writes_cut g label ps next files (sector d) k w Hv Hw) as [[Hw0 Hc]|[[Hw0 Hc]|[Hw0 Hc]]].
  - left. intros m Hm. by rewrite Hd, Hc by congruence.
  - right; left. intros volume_sectors name. apply open_blank; [lia|]. by rewrite Hd by congruence.
  - right; right. intros m Hm. by rewrite Hd, Hc by congruence.
Qed.

(** C9: On any lawful device that has the sectors, formatting with distinct
    file names and then opening one of the files by name and reading it gives
    exactly the bytes of the file at the start of the buffer, the rest of which
    is as before, and its length; the only other outcome is the error of a
    faulty device. The reader may believe the volume to be larger than it is. *)
Theorem format_read_back total spc label files d f volume_sectors output :
  total <= U32_MAX -> total <= limit -> total <= volume_sectors -> arguments_ok label files ->
  byte_at label 0 <> 0 -> Forall (fun f => name_ok (RootFile.name f)) files ->
  f ∈ files -> (length (RootFile.contents f) <= length output)%nat ->
  yields (format total spc label files) d
    (fun _ d' => (faulty d' -> faulty d)
      /\ reads limit (do self := open volume_sectors (RootFile.name f) in read_all self output) d'
           (fun r => r = Ok (Some (put 0 (RootFile.contents f) output, length (RootFile.contents f)))))
    (fun e d' => (e = FatError.Device /\ faulty d) \/ (planned total spc files = Err e /\ d' = d)).
Proof.
  intros Ht Hl Hvs Hargs Hlabel Hnames Hf Hout.
  eapply yields_mono; [by apply format_law| |naive_solver]. cbn beta.
  intros _ d' (g&ps&next&Hplan&Hd&Hfaulty). split; [done|].
  apply planned_Ok in Hplan as (Hv&Htotal&Hspc&Hcompute); [|done]. subst.
  apply list_elem_of_lookup in Hf as [j Hj].
  pose proof (placed_length _ _ _ _ _ (volume_placed _ _ _ _ Hv)) as Hlen.
  destruct (lookup_lt_is_Some_2 ps j) as [p Hp]; [rewrite Hlen; by eapply lookup_lt_Some|].
  assert (Hz : zip ps files !! j = Some (p, f)) by (rewrite lookup_zip_with, Hp; cbn; by rewrite Hj).
  eapply reads_bind; [by eapply open_finds|done|]. intros self d1 H1 [= ->].
  eapply reads_mono; [eapply read_all_finds; try done; by eapply holds_same|].
  intros r ->. unfold copied. by rewrite firstn_all.
Qed.

End theorems.

(** What reaches the device is well typed. [format] is the checks of its
    arguments followed by the writes of the plan, and each of these is a buffer
    of 512 bytes for a sector of the volume; when the checks refuse the
    arguments, there is no write. *)
Theorem format_typed {D : Type} `{SectorDevice D} total spc label files :
  total <= U32_MAX -> arguments_ok label files ->
  match planned total spc files with
  | Err e => forall d : D, format total spc label files d = Ret (Err e, d)
  | Ok (g, ps, next) =>
      (forall d : D, format total spc label files d = write_all (format_writes g label ps next files) d)
      /\ Forall (write_ok total) (format_writes g label ps next files)
  end.
Proof.
  intros Ht Hargs. pose proof (format_plan (D := D) total spc label files Ht) as Hplan.
  destruct (planned total spc files) as [[[g ps] next]|e] eqn:E; [|exact Hplan].
  split; [exact Hplan|]. apply planned_Ok in E as (Hv&<-&_); [|done]. by apply format_writes_ok.
Qed.


(** ** An example: a disk in memory *)

Module Fat32Example.
(** With [Some budget] the writes fail once [budget] of them have been made. *)
Record Disk := mk { contents : writes; budget : option nat }.

Definition SECTORS : N := 67000.

Definition disk_sector (d : Disk) (n : N) : list N :=
  match list_find (fun w => w.1 = n) (contents d) with
  | Some (_, w) => if decide (length w.2 = SECTOR_SIZE /\ Forall is_byte w.2) then w.2 else zero_sector
  | None => zero_sector
  end.

#[export] Instance disk_device : SectorDevice Disk := {
  read_sector n d := if decide (n < SECTORS) then Ret (Ok (disk_sector d n), d) else Panic;
  write_sector n bytes d :=
    if decide (n < SECTORS) then
      match budget d with
      | Some O => Ret (Err FatError.Device, d)
      | Some (S budget) => Ret (Ok tt, mk ((n, bytes) :: contents d) (Some budget))
      | None => Ret (Ok tt, mk ((n, bytes) :: contents d) None)
      end
    else Panic
}.

#[export] Instance disk_laws : DeviceLaws Disk SECTORS.
Proof.
  refine {| sector := disk_sector; faulty := fun d => is_Some (budget d) |}.
  - intros d n. unfold disk_sector. destruct (list_find _ _) as [[? w]|]; [case_decide; [done|]|]; apply is_sector_zero.
  - intros d n Hn. eexists _, _. split; [cbn; by rewrite decide_True|]. done.
  - intros [ws b] n bytes Hn Hl Hb.
    assert (Hput : forall b', disk_sector (mk ((n, bytes) :: ws) b') n = bytes
      /\ forall m, m <> n -> disk_sector (mk ((n, bytes) :: ws) b') m = disk_sector (mk ws b) m).
    { intros b'. unfold disk_sector. cbn. split; [by rewrite decide_True, decide_True|].
      intros m Hm. rewrite decide_False by congruence. by destruct (list_find _ ws) as [[]|]. }
    destruct b as [[|b]|]; eexists _, _; (split; [cbn; by rewrite decide_True|]); cbn.
    + done.
    + split; [apply Hput|]. split; [apply Hput|done].
    + split; [apply Hput|]. split; [apply Hput|done].
Defined.

Definition label : list N := [78; 65; 71; 73; 79; 83; 32; 32; 32; 32; 32].

(** [KERNEL.ELF] of 1300 bytes and [INIT] of 3. *)
Definition kernel : RootFile.t :=
  RootFile.mk [75; 69; 82; 78; 69; 76; 32; 32; 69; 76; 70] ((fun i => N.of_nat i mod 251) <$> seq 0 1300).
Definition init : RootFile.t := RootFile.mk [73; 78; 73; 84; 32; 32; 32; 32; 32; 32; 32] [1; 2; 3].

Definition blank (budget : option nat) : Disk := mk [] budget.

(** A volume whose root directory has only deleted entries and whose chain is
    a loop. *)
Definition looping : Disk :=
  let geometry := Geometry.mk 66600 1 513 65542 in
  mk [(0, boot_sector geometry label);
      (RESERVED_SECTORS, put 8 (to_le_bytes 4 ROOT_CLUSTER) zero_sector);
      (Geometry.first_data_sector geometry, replicate SECTOR_SIZE 0xe5)] None.

Lemma arguments : arguments_ok label [kernel; init].
Proof.
  split; [by split; [|apply (bool_decide_unpack _); vm_compute]|].
  repeat (apply Forall_cons; split); [split_and!; [done|..]..|done].
  all: apply (bool_decide_unpack _); by vm_compute.
Qed.

(** The sixteenth round ends the search. *)
Lemma looping_search :
  open SECTORS (RootFile.name init) looping = Ret (Err FatError.InvalidVolume, looping).
Proof. vm_compute. reflexivity. Qed.

(** The writes of a device that fails at the fifth: the volume has no boot sector. *)
Lemma interrupted :
  match format 66600 1 label [kernel; init] (blank (Some 4%nat)) with
  | Ret (Err FatError.Device, d) => open SECTORS (RootFile.name init) d = Ret (Err FatError.InvalidVolume, d)
  | _ => False
  end.
Proof. vm_compute. reflexivity. Qed.

Lemma format_read_back_witness :
  (exists plan, planned 66600 1 [kernel; init] = Ok plan)
  /\ yields (format 66600 1 label [kernel; init]) (blank None)
      (fun _ d' => (faulty d' -> faulty (blank None)) /\ reads SECTORS
        (do self := open SECTORS (RootFile.name kernel) in read_all self (replicate 1400 7)) d'
        (fun r => r = Ok (Some (put 0 (RootFile.contents kernel) (replicate 1400 7),
                                length (RootFile.contents kernel)))))
      (fun e d' => (e = FatError.Device /\ faulty (blank None))
                   \/ (planned 66600 1 [kernel; init] = Err e /\ d' = blank None)).
Proof.
  split; [eexists; by vm_compute|].
  apply (format_read_back SECTORS 66600 1 label [kernel; init] (blank None) kernel SECTORS (replicate 1400 7)).
  - done.
  - done.
  - done.
  - apply arguments.
  - done.
  - by repeat constructor.
  - by left.
  - by apply Nat.leb_le.
Defined.

Lemma format_crash_safe_witness :
  (exists plan, planned 66600 1 [kernel; init] = Ok plan)
  /\ yields (format 66600 1 label [kernel; init]) (blank (Some 4%nat))
      (fun _ d' => exists g ps next, planned 66600 1 [kernel; init] = Ok (g, ps, next)
        /\ (forall m, sector d' m = volume g ps next [kernel; init] label (sector (blank (Some 4%nat))) m)
        /\ (faulty d' -> faulty (blank (Some 4%nat))))
      (fun e d' =>
        (planned 66600 1 [kernel; init] = Err e /\ d' = blank (Some 4%nat))
        \/ (e = FatError.Device /\ faulty (blank (Some 4%nat)) /\ exists g ps next, planned 66600 1 [kernel; init] = Ok (g, ps, next)
            /\ ((forall m, m <> 0 -> sector d' m = sector (blank (Some 4%nat)) m)
                \/ (forall volume_sectors name, reads SECTORS (open volume_sectors name) d'
                      (fun r => r = Err FatError.InvalidVolume))
                \/ (forall m, m <> 0 ->
                      sector d' m = volume g ps next [kernel; init] label (sector (blank (Some 4%nat))) m)))).
Proof.
  split; [eexists; by vm_compute|].
  apply (format_crash_safe SECTORS 66600 1 label [kernel; init] (blank (Some 4%nat))); [done|done|apply arguments].
Defined.

Lemma hostile_volume_witness :
  reads SECTORS (do self := open SECTORS (RootFile.name init) in read_all self (replicate 16 0)) looping
    (fun r => match r with
      | Ok o => exists output' n, o = Some (output', n) /\ (n <= length (replicate 16 0))%nat
                  /\ length output' = length (replicate 16 0) /\ drop n output' = drop n (replicate 16 0)
      | Err e => e = FatError.InvalidVolume \/ e = FatError.NotFound \/ e = FatError.OutOfRange
      end).
Proof. apply (hostile_volume SECTORS SECTORS (RootFile.name init) (replicate 16 0) looping); done. Defined.

Lemma format_typed_witness :
  match planned 66600 1 [kernel; init] with
  | Err e => forall d : Disk, format 66600 1 label [kernel; init] d = Ret (Err e, d)
  | Ok (g, ps, next) =>
      (forall d : Disk, format 66600 1 label [kernel; init] d
        = write_all (format_writes g label ps next [kernel; init]) d)
      /\ Forall (write_ok 66600) (format_writes g label ps next [kernel; init])
  end.
Proof. apply (format_typed 66600 1 label [kernel; init]); [done|apply arguments]. Defined.
End Fat32Example.
