(* ===== verification/Scope.v ===== *)
(** * Identifiers and resource scopes (crates/nagi-capability: ids.rs, and the
    scopes of model.rs)

    A Rust [String] or [&str] is the list of its characters, Unicode scalar
    values; [len] is its length in bytes. *)

From Stdlib Require Import Ascii String.
From stdpp Require Import prelude.
From S2P Require Import Prelude.

Local Open Scope N_scope.
Local Open Scope nagi_scope.

Definition str := list N.

(** A literal. *)
Definition text (s : string) : str := N_of_ascii <$> list_ascii_of_string s.

(** ** Characters and strings of the standard library *)

Definition len_utf8 (c : N) : N :=
  if decide (c < 0x80) then 1 else if decide (c < 0x800) then 2 else if decide (c < 0x10000) then 3 else 4.

Definition len (s : str) : N := sum_by len_utf8 s.

Definition is_control (c : N) : Prop := c < 0x20 \/ 0x7f <= c < 0xa0.

(** The Unicode property White_Space. *)
Definition is_whitespace (c : N) : Prop :=
  9 <= c <= 13 \/ c = 0x20 \/ c = 0x85 \/ c = 0xa0 \/ c = 0x1680 \/ 0x2000 <= c <= 0x200a
  \/ c = 0x2028 \/ c = 0x2029 \/ c = 0x202f \/ c = 0x205f \/ c = 0x3000.

Definition is_ascii_lowercase (c : N) : Prop := 97 <= c <= 122.
Definition is_ascii_digit (c : N) : Prop := 48 <= c <= 57.
Definition is_ascii_alphanumeric (c : N) : Prop :=
  is_ascii_lowercase c \/ 65 <= c <= 90 \/ is_ascii_digit c.

#[global] Instance is_control_dec c : Decision (is_control c).
Proof. unfold is_control. apply _. Defined.
#[global] Instance is_whitespace_dec c : Decision (is_whitespace c).
Proof. unfold is_whitespace. apply _. Defined.
#[global] Instance is_ascii_lowercase_dec c : Decision (is_ascii_lowercase c).
Proof. unfold is_ascii_lowercase. apply _. Defined.
#[global] Instance is_ascii_digit_dec c : Decision (is_ascii_digit c).
Proof. unfold is_ascii_digit. apply _. Defined.
#[global] Instance is_ascii_alphanumeric_dec c : Decision (is_ascii_alphanumeric c).
Proof. unfold is_ascii_alphanumeric. apply _. Defined.

(** [s.split(c)]: at least one piece. *)
Fixpoint split (c : N) (s : str) : list str :=
  match s with
  | [] => [[]]
  | x :: s =>
      if decide (x = c) then [] :: split c s
      else match split c s with
           | piece :: pieces => (x :: piece) :: pieces
           | [] => [[x]]
           end
  end.

(** [s.strip_prefix(prefix)] *)
Fixpoint strip_prefix (prefix s : str) : option str :=
  match prefix, s with
  | [], _ => Some s
  | x :: prefix, y :: s => if decide (x = y) then strip_prefix prefix s else None
  | _ :: _, [] => None
  end.

(** [s.split_once(pattern)], at the first occurrence. *)
Fixpoint split_once (pattern s : str) : option (str * str) :=
  match strip_prefix pattern s with
  | Some rest => Some ([], rest)
  | None =>
      match s with
      | [] => None
      | c :: s => match split_once pattern s with
                  | Some (before, after) => Some (c :: before, after)
                  | None => None
                  end
      end
  end.

(** [number.to_string()], with as many digits as [fuel] allows. *)
Fixpoint digits (fuel : nat) (n : N) : str :=
  match fuel with
  | O => []
  | S fuel => (if decide (n < 10) then [] else digits fuel (n / 10)) ++ [48 + n mod 10]
  end.

Definition to_decimal (n : N) : str := digits (S (N.to_nat (N.log2 n))) n.

(** [s.parse::<u16>()]: an optional plus sign and digits without overflow. *)
Fixpoint parse_digits (n : N) (s : str) : option N :=
  match s with
  | [] => Some n
  | c :: s =>
      if decide (is_ascii_digit c)
      then let n := n * 10 + (c - 48) in if decide (65535 < n) then None else parse_digits n s
      else None
  end.

Definition parse_u16 (s : str) : option N :=
  match s with
  | [] => None
  | c :: rest => if decide (c = 43 /\ rest <> []) then parse_digits 0 rest else parse_digits 0 s
  end.

(** [s.parse::<Ipv6Addr>().is_ok()]. A parser takes the rest of the input. *)
Module Ipv6.
Definition hex_digit (c : N) : Prop :=
  is_ascii_digit c \/ 97 <= c <= 102 \/ 65 <= c <= 70.

#[global] Instance hex_digit_dec c : Decision (hex_digit c).
Proof. unfold hex_digit. apply _. Defined.

(** Up to [n] hexadecimal digits. *)
Fixpoint skip_hex (n : nat) (s : str) : str :=
  match n, s with
  | S n, c :: rest => if decide (hex_digit c) then skip_hex n rest else s
  | _, _ => s
  end.

(** [read_number(16, Some(4), true)]: one to four digits and no more. *)
Definition read_group (s : str) : option str :=
  let rest := skip_hex 4 s in
  if decide (length rest = length s) then None
  else match rest with
       | c :: _ => if decide (hex_digit c) then None else Some rest
       | [] => Some rest
       end.

(** [read_number(10, Some(3), false)]: one to three digits, no leading zero, at
    most 255. *)
Fixpoint skip_decimal (n : nat) (value : N) (s : str) : N * str :=
  match n, s with
  | S n, c :: rest =>
      if decide (is_ascii_digit c) then skip_decimal n (value * 10 + (c - 48)) rest else (value, s)
  | _, _ => (value, s)
  end.

Definition read_byte (s : str) : option str :=
  let '(value, rest) := skip_decimal 3 0 s in
  let count := (length s - length rest)%nat in
  if decide (count = 0%nat) then None
  else match rest with
       | c :: _ => if decide (is_ascii_digit c) then None
                   else if decide (255 < value) then None
                   else if decide (head s = Some 48 /\ (1 < count)%nat) then None else Some rest
       | [] => if decide (255 < value) then None
               else if decide (head s = Some 48 /\ (1 < count)%nat) then None else Some rest
       end.

Definition read_char (c : N) (s : str) : option str :=
  match s with
  | x :: rest => if decide (x = c) then Some rest else None
  | [] => None
  end.

(** [read_separator(':', i, ..)]: the separator comes before all but the first. *)
Definition separated (i : nat) (read : str -> option str) (s : str) : option str :=
  if decide (i = 0%nat) then read s else read_char 58 s ≫= read.

Definition read_ipv4 (s : str) : option str :=
  s ← read_byte s; s ← read_char 46 s;
  s ← read_byte s; s ← read_char 46 s;
  s ← read_byte s; s ← read_char 46 s; read_byte s.

(** [read_groups] with room for [limit] groups: how many were read, whether an
    IPv4 address ended them, and the rest. *)
Fixpoint read_groups (n limit i : nat) (s : str) : nat * bool * str :=
  match n with
  | O => (i, false, s)
  | S n =>
      match (if decide (i < limit - 1)%nat then separated i read_ipv4 s else None) with
      | Some rest => ((i + 2)%nat, true, rest)
      | None =>
          match separated i read_group s with
          | Some rest => read_groups n limit (S i) rest
          | None => (i, false, s)
          end
      end
  end.

Definition parse (s : str) : bool :=
  let '(head_size, head_ipv4, rest) := read_groups 8 8 0 s in
  if decide (head_size = 8%nat) then bool_decide (rest = [])
  else if head_ipv4 then false
  else match read_char 58 rest ≫= read_char 58 with
       | None => false
       | Some rest =>
           let limit := (8 - (head_size + 1))%nat in
           let '(_, rest) := read_groups limit limit 0 rest in
           bool_decide (rest = [])
       end.
End Ipv6.

(** ** Identifiers *)

Module IdentifierError.
Inductive t := Empty | TooLong | InvalidNamespace | InvalidCharacter.
End IdentifierError.

Definition MAX_IDENTIFIER_BYTES : N := 128.

Definition validate_length (value : str) : Result unit IdentifierError.t :=
  if decide (value = []) then Err IdentifierError.Empty
  else if decide (MAX_IDENTIFIER_BYTES < len value) then Err IdentifierError.TooLong
  else Ok tt.

Definition valid_namespace_segment (segment : str) : bool :=
  match segment with
  | first :: rest =>
      bool_decide (is_ascii_lowercase first)
      && bool_decide (Forall (fun c => is_ascii_lowercase c \/ is_ascii_digit c \/ c = 45) rest)
  | [] => false
  end.

Definition validate_capability_id (value : str) : Result unit IdentifierError.t :=
  let? _ := validate_length value in
  match split 46 value with
  | [] => Err IdentifierError.InvalidNamespace
  | first :: segments =>
      if decide (valid_namespace_segment first = false \/ segments = [])
      then Err IdentifierError.InvalidNamespace
      else if decide (Exists (fun segment => valid_namespace_segment segment = false) segments)
      then Err IdentifierError.InvalidNamespace
      else Ok tt
  end.

Definition validate_principal_id (value : str) : Result unit IdentifierError.t :=
  let? _ := validate_length value in
  match value with
  | [] => Err IdentifierError.Empty
  | first :: chars =>
      if decide (~ is_ascii_lowercase first /\ ~ is_ascii_digit first)
      then Err IdentifierError.InvalidCharacter
      else if decide (Exists (fun c => ~ (is_ascii_lowercase c \/ is_ascii_digit c
                                          \/ c ∈ [46; 95; 58; 47; 45])) chars)
      then Err IdentifierError.InvalidCharacter
      else Ok tt
  end.

Definition validate_session_id (value : str) : Result unit IdentifierError.t :=
  let? _ := validate_length value in
  match value with
  | [] => Err IdentifierError.Empty
  | first :: chars =>
      if decide (~ is_ascii_alphanumeric first
                 \/ Exists (fun c => ~ (is_ascii_alphanumeric c \/ c ∈ [46; 95; 58; 45])) chars)
      then Err IdentifierError.InvalidCharacter
      else Ok tt
  end.

(** ** Scopes *)

Module ScopeError.
Inductive t := InvalidFilesystemPath | InvalidNetworkOrigin | InvalidScopeToken.
End ScopeError.

Definition valid_logical_path (path : str) : bool :=
  if decide (path = [] \/ 1024 < len path \/ head path <> Some 47 \/ 92 ∈ path) then false
  else if decide (path <> [47] /\ last path = Some 47) then false
  else if decide (Exists is_control path) then false
  else bool_decide (path = [47])
       || bool_decide (Forall (fun segment => segment <> [] /\ segment <> [46] /\ segment <> [46; 46])
                         (tail (split 47 path))).

Definition valid_port (port : str) : bool :=
  match parse_u16 port with
  | Some number => bool_decide (0 < number /\ port = to_decimal number)
  | None => false
  end.

(** [host.split('.').all(..)] *)
Definition valid_label (label : str) : bool :=
  bool_decide (label <> [] /\ head label <> Some 45 /\ last label <> Some 45
               /\ Forall (fun c => is_ascii_lowercase c \/ is_ascii_digit c \/ c = 45) label).

(** ["http"] and ["https"] *)
Definition HTTP : str := [104; 116; 116; 112].
Definition HTTPS : str := [104; 116; 116; 112; 115].

Definition valid_host (host : str) : bool :=
  if decide (host = [] \/ head host = Some 46 \/ last host = Some 46 \/ is_Some (split_once [46; 46] host))
  then false
  else forallb valid_label (split 46 host).

Definition valid_canonical_origin (origin : str) : bool :=
  match split_once [58; 47; 47] origin with
  | None => false
  | Some (scheme, authority) =>
      if decide ((scheme <> HTTP /\ scheme <> HTTPS) \/ authority = [] \/ 512 < len authority
                 \/ Exists (fun c => c ∈ [47; 63; 35; 64]) authority)
      then false
      else if decide (head authority = Some 91) then
        match split_once [93] authority with
        | None => false
        | Some (before, suffix) =>
            if Ipv6.parse (tail before)
            then bool_decide (suffix = [])
                 || match strip_prefix [58] suffix with Some port => valid_port port | None => false end
            else false
        end
      else
        match split_once [58] authority with
        | Some (host, port) =>
            if decide (58 ∈ port) then false
            else valid_host host && valid_port port
        | None => valid_host authority
        end
  end.

Definition validate_scope_token (value : str) : Result unit ScopeError.t :=
  if decide (value = [] \/ 256 < len value
             \/ Exists (fun c => is_control c \/ is_whitespace c \/ c ∈ [42; 63]) value)
  then Err ScopeError.InvalidScopeToken
  else Ok tt.

Module CapabilityScope.
Inductive t :=
| Unscoped
| Filesystem (path : str)
| NetworkOrigin (origin : str)
| DeviceClass (class : str)
| ModelProvider (provider : str)
| AutomationTarget (target : str)
| Opaque (namespace resource : str).

#[global] Instance eq_dec : EqDecision t.
Proof. solve_decision. Defined.

Definition validate (self : t) : Result unit ScopeError.t :=
  match self with
  | Unscoped => Ok tt
  | Filesystem path => if valid_logical_path path then Ok tt else Err ScopeError.InvalidFilesystemPath
  | NetworkOrigin origin => if valid_canonical_origin origin then Ok tt else Err ScopeError.InvalidNetworkOrigin
  | DeviceClass class => validate_scope_token class
  | ModelProvider provider => validate_scope_token provider
  | AutomationTarget target => validate_scope_token target
  | Opaque _ resource => validate_scope_token resource
  end.

Definition covers (self requested : t) : bool :=
  match self, requested with
  | Filesystem grant, Filesystem request =>
      bool_decide (grant = request) || bool_decide (grant = [47])
      || match strip_prefix grant request with
         | Some suffix => bool_decide (head suffix = Some 47)
         | None => false
         end
  | _, _ => bool_decide (self = requested)
  end.

Definition specificity (self : t) : N :=
  match self with
  | Filesystem path => len path
  | Unscoped => 0
  | _ => U64_MAX
  end.
End CapabilityScope.

(** ** What a path names *)

(** The names on the way from the root. *)
Definition segments (path : str) : list str := if decide (path = [47]) then [] else tail (split 47 path).

Definition path_of (names : list str) : str := names ≫= cons 47.

Definition name_ok (name : str) : Prop := name <> [] /\ 47 ∉ name.

(** *** Decimal numbers *)

Lemma digits_fuel f : forall f' n, n < 2 ^ N.of_nat f -> n < 2 ^ N.of_nat f' -> f <> 0%nat -> f' <> 0%nat ->
  digits f n = digits f' n.
Proof.
  induction f as [|f IH]; intros [|f'] n Hf Hf' H0 H0'; try done. cbn [digits]. f_equal.
  case_decide as Hn; [done|]. rewrite !Nat2N.inj_succ, !N.pow_succ_r' in *.
  pose proof (N.div_le_compat_l n 2 10 ltac:(lia)) as Hle.
  assert (n / 10 < 2 ^ N.of_nat f /\ n / 10 < 2 ^ N.of_nat f') as [Hd Hd'].
  { split; apply (N.le_lt_trans _ (n / 2)); try done; apply N.Div0.div_lt_upper_bound; lia. }
  assert (1 <= n / 10) by (apply N.div_le_lower_bound; lia).
  apply IH; [done|done| |]; intros ->; cbn in Hd, Hd'; lia.
Qed.

(** [to_decimal] has fuel for every digit. *)
Lemma to_decimal_digits n :
  to_decimal n = (if decide (n < 10) then [] else to_decimal (n / 10)) ++ [48 + n mod 10].
Proof.
  unfold to_decimal at 1. cbn [digits]. f_equal. case_decide as Hn; [done|].
  assert (Hlog : forall m, 0 < m -> m < 2 ^ N.of_nat (S (N.to_nat (N.log2 m)))).
  { intros m Hm. rewrite Nat2N.inj_succ, N2Nat.id. by apply N.log2_spec. }
  assert (1 <= n / 10) by (apply N.div_le_lower_bound; lia).
  specialize (Hlog n ltac:(lia)) as Hl. rewrite Nat2N.inj_succ, N.pow_succ_r' in Hl.
  assert (Hd : n / 10 < 2 ^ N.of_nat (N.to_nat (N.log2 n))).
  { pose proof (N.div_le_compat_l n 2 10 ltac:(lia)). apply (N.le_lt_trans _ (n / 2)); [done|].
    apply N.Div0.div_lt_upper_bound. lia. }
  apply digits_fuel; [done|apply Hlog; lia| |lia]. intros Heq. rewrite Heq in Hd. cbn in Hd. lia.
Qed.

Lemma split_join c s : mjoin ((cons c) <$> split c s) = c :: s.
Proof.
  induction s as [|x s IH]; [done|]. cbn [split]. case_decide as Hx.
  - subst. rewrite fmap_cons. change (mjoin ((c :: []) :: ?l)) with (c :: mjoin l). by rewrite IH.
  - destruct (split c s) as [|p ps]; [done|]. rewrite fmap_cons in *.
    change (mjoin ((c :: p) :: ?l)) with (c :: p ++ mjoin l) in IH. injection IH as IH.
    change (mjoin ((c :: x :: p) :: ?l)) with (c :: x :: p ++ mjoin l). by rewrite IH.
Qed.

Lemma split_pieces c s : Forall (fun p => c ∉ p) (split c s).
Proof.
  induction s as [|x s IH]; [by repeat constructor; apply not_elem_of_nil|]. cbn [split]. case_decide as Hx.
  - constructor; [apply not_elem_of_nil|done].
  - destruct (split c s) as [|p ps]; [repeat constructor; rewrite list_elem_of_singleton; congruence|].
    apply Forall_cons in IH as [Hp Hps]. constructor; [|done]. rewrite not_elem_of_cons. split; [congruence|done].
Qed.

Lemma path_of_cons name names : path_of (name :: names) = 47 :: name ++ path_of names.
Proof. done. Qed.

(** A valid path is its names. *)
Lemma valid_path path :
  valid_logical_path path = true ->
  Forall name_ok (segments path) /\ (path = [47] \/ (segments path <> [] /\ path = path_of (segments path))).
Proof.
  unfold valid_logical_path, segments. case_decide as H1; [done|]. case_decide as H2; [done|].
  case_decide as H3; [done|]. case_decide as Hroot; [intros _; split; [constructor|by left]|].
  rewrite bool_decide_false by done. cbn [orb]. intros Hseg%bool_decide_eq_true.
  destruct path as [|c path]; [tauto|]. assert (c = 47) as -> by (destruct (decide (c = 47)); [done|cbn in H1; naive_solver]).
  cbn [split] in *. rewrite decide_True in * by done. cbn [tail] in *.
  split; [|right; split].
  - pose proof (split_pieces 47 path) as Hp. apply Forall_forall. intros name Hn.
    destruct (proj1 (Forall_forall _ _) Hseg name Hn) as [Hne _].
    split; [done|exact (proj1 (Forall_forall _ _) Hp name Hn)].
  - pose proof (split_join 47 path). by destruct (split 47 path).
  - unfold path_of. pose proof (split_join 47 path) as Hj. rewrite <-Hj at 1.
    generalize (split 47 path). intros l. induction l as [|p l IH]; [done|].
    rewrite fmap_cons, bind_cons, <-IH. done.
Qed.

Lemma strip_prefix_Some prefix s suffix : strip_prefix prefix s = Some suffix <-> s = prefix ++ suffix.
Proof.
  revert s. induction prefix as [|x prefix IH]; intros s; cbn; [naive_solver|].
  destruct s as [|y s]; [naive_solver|]. case_decide as Hx; [subst; rewrite IH; naive_solver|naive_solver].
Qed.

(** Two names that end at a slash or with the path. *)
Lemma name_split (x y u v : str) :
  47 ∉ x -> 47 ∉ y -> (u = [] \/ head u = Some 47) -> (v = [] \/ head v = Some 47) ->
  x ++ u = y ++ v -> x = y /\ u = v.
Proof.
  intros Hx Hy Hu Hv. revert y Hy. induction x as [|a x IH]; intros [|b y] Hy Heq; cbn in Heq.
  - done.
  - subst u. destruct Hu as [|[= ->]]; [done|]. destruct Hy. by left.
  - subst v. destruct Hv as [|[= ->]]; [done|]. destruct Hx. by left.
  - injection Heq as -> Heq. apply not_elem_of_cons in Hx as [_ Hx], Hy as [_ Hy].
    destruct (IH Hx y Hy Heq) as [-> ->]. done.
Qed.

Lemma path_of_head names : path_of names = [] \/ head (path_of names) = Some 47.
Proof. destruct names; [by left|by right]. Qed.

Lemma path_of_app a b : path_of (a ++ b) = path_of a ++ path_of b.
Proof. unfold path_of. apply bind_app. Qed.

(** A path is a prefix of another, up to a slash, when its names are. *)
Lemma path_of_prefix a b (u : str) :
  Forall name_ok a -> Forall name_ok b -> head u = Some 47 -> path_of b = path_of a ++ u ->
  exists k, b = a ++ k /\ u = path_of k.
Proof.
  intros Ha. revert b. induction Ha as [|x a [_ Hx] Ha IH]; intros b Hb Hu Heq; [by exists b|].
  destruct b as [|y b]; [done|]. apply Forall_cons in Hb as [[_ Hy] Hb].
  rewrite !path_of_cons in Heq. injection Heq as Heq. rewrite <-(assoc_L (++)) in Heq.
  apply name_split in Heq as [-> Heq]; [|done|done|apply path_of_head|].
  - destruct (IH b Hb Hu Heq) as (k&->&->). by exists k.
  - right. destruct a as [|z a]; [done|]. by rewrite path_of_cons.
Qed.

Lemma path_of_inj a b : Forall name_ok a -> Forall name_ok b -> path_of a = path_of b -> a = b.
Proof.
  intros Ha. revert b. induction Ha as [|x a [_ Hx] Ha IH]; intros b Hb Heq.
  - by destruct b.
  - destruct b as [|y b]; [done|]. apply Forall_cons in Hb as [[_ Hy] Hb].
    rewrite !path_of_cons in Heq. injection Heq as Heq.
    apply name_split in Heq as [-> Heq]; [|done|done|apply path_of_head..]. f_equal. by apply IH.
Qed.

(** The names of a grant come first in the request. *)
Lemma covers_path grant request :
  valid_logical_path grant = true -> valid_logical_path request = true ->
  CapabilityScope.covers (CapabilityScope.Filesystem grant) (CapabilityScope.Filesystem request) = true
  <-> segments grant `prefix_of` segments request.
Proof.
  intros [Hg Hgp]%valid_path [Hr Hrp]%valid_path. cbn [CapabilityScope.covers].
  rewrite !orb_true_iff, !bool_decide_eq_true. split.
  - intros [[->| ->]|Hs]; [done|exists (segments request); done|].
    destruct (strip_prefix grant request) as [suffix|] eqn:E; [|done].
    apply bool_decide_eq_true in Hs. apply strip_prefix_Some in E.
    destruct Hgp as [->|[Hgn Hgp]]; [by exists (segments request)|].
    destruct Hrp as [->|[_ Hrp]].
    { exfalso. destruct (segments grant) as [|x names]; [done|]. rewrite Hgp in E. destruct suffix; [done|].
      rewrite path_of_cons in E. cbn in E. injection E as E. by destruct x, (path_of names). }
    rewrite Hrp, Hgp in E. apply path_of_prefix in E as (k&Hk&_); [|done..]. by exists k.
  - intros [k Hk]. destruct Hgp as [->|[Hgn Hgp]]; [by auto|]. destruct Hrp as [->|[_ Hrp]].
    { symmetry in Hk. by apply app_eq_nil in Hk as [? _]. }
    destruct k as [|name k].
    { left; left. rewrite app_nil_r in Hk. by rewrite Hgp, Hrp, Hk. }
    right. assert (Hs : strip_prefix grant request = Some (path_of (name :: k))).
    { apply strip_prefix_Some. by rewrite Hrp, Hk, path_of_app, <-Hgp. }
    by rewrite Hs.
Qed.

Lemma segments_inj p q :
  valid_logical_path p = true -> valid_logical_path q = true -> segments p = segments q -> p = q.
Proof.
  intros [_ Hp]%valid_path [_ Hq]%valid_path Heq.
  destruct Hp as [->|[Hp ->]], Hq as [->|[Hq ->]]; [done| | |by rewrite Heq].
  - by destruct Hq.
  - by destruct Hp.
Qed.

(** C29: Filesystem scopes cover by path segments. For valid paths, the grant
    covers the request exactly if the names of the grant are the first names of
    the request, so that [/data/docs] covers neither [/data/docs-old] nor
    [/data]; any other scope covers itself only, and [Unscoped] is no wildcard.
    Scopes that cover each other are equal: a narrower grant never covers a
    broader request. *)
Theorem covers_exact (g r : CapabilityScope.t) :
  CapabilityScope.validate g = Ok tt -> CapabilityScope.validate r = Ok tt ->
  (CapabilityScope.covers g r = true <->
    match g, r with
    | CapabilityScope.Filesystem grant, CapabilityScope.Filesystem request =>
        segments grant `prefix_of` segments request
    | _, _ => g = r
    end)
  /\ (CapabilityScope.covers g r = true -> CapabilityScope.covers r g = true -> g = r).
Proof.
  intros Hg Hr.
  destruct g as [|grant| | | | |], r as [|request| | | | |]; try (cbn; rewrite !bool_decide_eq_true; naive_solver).
  cbn [CapabilityScope.validate] in Hg, Hr.
  destruct (valid_logical_path grant) eqn:Eg, (valid_logical_path request) eqn:Er; try done.
  rewrite !covers_path by done. split; [done|]. intros H1 H2. f_equal. apply segments_inj; [done..|].
  by apply (anti_symm prefix).
Qed.

Module ScopeExample.
(** [/data/docs] *)
Definition docs : CapabilityScope.t :=
  CapabilityScope.Filesystem [47; 100; 97; 116; 97; 47; 100; 111; 99; 115].
(** [/data/docs/a] *)
Definition docs_a : CapabilityScope.t :=
  CapabilityScope.Filesystem [47; 100; 97; 116; 97; 47; 100; 111; 99; 115; 47; 97].

Lemma covers_exact_witness :
  CapabilityScope.validate docs = Ok tt /\ CapabilityScope.covers docs docs_a = true
  /\ CapabilityScope.covers docs_a docs = false.
Proof.
  pose proof (covers_exact docs docs_a) as H. split; [by vm_compute|].
  destruct H as [[_ Hc] Ha]; [by vm_compute..|].
  assert (Hd : CapabilityScope.covers docs docs_a = true) by (apply Hc; by exists [[97]]).
  split; [done|]. destruct (CapabilityScope.covers docs_a docs) eqn:E; [|done]. by specialize (Ha Hd eq_refl).
Defined.

(** [https://[2001:db8::1]:443] is canonical and [https://example.com:] is not. *)
Lemma origins :
  valid_canonical_origin (HTTPS ++ [58; 47; 47; 91; 50; 48; 48; 49; 58; 100; 98; 56; 58; 58; 49; 93; 58; 52; 52; 51])
    = true
  /\ valid_canonical_origin (HTTPS ++ [58; 47; 47; 101; 120; 97; 109; 112; 108; 101; 46; 99; 111; 109; 58]) = false.
Proof. by vm_compute. Qed.
End ScopeExample.
