(* ===== verification/Acpi.v ===== *)
(** * Processors from the ACPI tables (kernel/src/acpi.rs)

    The kernel finds its processors in the tables the firmware left in memory:
    the root pointer, the table of tables, and the processors' table (MADT). It
    reads nothing that the memory map does not cover. Memory and the descriptors
    of the memory map are parameters. *)

From Stdlib Require Import String.
From stdpp Require Import prelude.
From S2P Require Import Prelude BootContract Scope.

Local Open Scope N_scope.
Local Open Scope nagi_scope.
Local Open Scope list_scope.

(** ** Data *)

Definition MAX_CPUS : nat := 4.
Definition ACPI_HEADER_SIZE : N := 36.
Definition RSDP_V1_SIZE : N := 20.
Definition RSDP_V2_SIZE : N := 36.
Definition MAX_TABLE_SIZE : N := 1024 * 1024.

Module AcpiError.
Inductive t :=
| InvalidRsdp
| InvalidTable
| MissingMadt
| InvalidMadt
| TooManyCpus
| DuplicateCpu
| BspNotFound.
End AcpiError.

Module CpuInfo.
Record t := mk { apic_id : N; uid : N }.
Definition default : t := mk 0 0.
End CpuInfo.

Module CpuTopology.
Record t := mk {
  cpus : list CpuInfo.t;
  count : nat;
  bsp_index : nat;
  local_apic_address : N
}.

Definition cpu (self : t) (index : nat) : option CpuInfo.t :=
  match cpus self !! index with
  | Some cpu => if decide (index < count self)%nat then Some cpu else None
  | None => None
  end.
End CpuTopology.

(** ** Bytes of a table *)

Definition checksum_ok (table : list N) : bool :=
  bool_decide (foldl (fun sum byte => (sum + byte) mod 256) 0 table = 0).

Definition read_u32 (bytes : list N) (offset : nat) : Exec N :=
  let! word := slice bytes offset 4 in Ret (from_le_bytes word).

Definition read_u64 (bytes : list N) (offset : nat) : Exec N :=
  let! word := slice bytes offset 8 in Ret (from_le_bytes word).

(** ** The processors' table *)

Definition add_cpu (topology : CpuTopology.t) (cpu : CpuInfo.t) : Exec (Result CpuTopology.t AcpiError.t) :=
  let! existing := slice_to (CpuTopology.cpus topology) (CpuTopology.count topology) in
  if decide (Exists (fun e => CpuInfo.apic_id e = CpuInfo.apic_id cpu) existing)
  then Ret (Err AcpiError.DuplicateCpu)
  else if decide (CpuTopology.count topology = MAX_CPUS) then Ret (Err AcpiError.TooManyCpus)
  else
    let! cpus := store (CpuTopology.cpus topology) (CpuTopology.count topology) cpu in
    Ret (Ok (CpuTopology.mk cpus (CpuTopology.count topology + 1) (CpuTopology.bsp_index topology)
               (CpuTopology.local_apic_address topology))).

(** What an entry of the table, at [offset], does to the topology. *)
Definition add_entry (madt : list N) (offset : nat) (entry_type entry_length : N) (topology : CpuTopology.t)
  : Exec (Result CpuTopology.t AcpiError.t) :=
  match entry_type with
  | 0 =>
      if decide (entry_length <> 8) then Ret (Err AcpiError.InvalidMadt)
      else
        let! flags := read_u32 madt (offset + 4) in
        if decide (N.land flags 1 <> 0) then
          let! apic_id := index madt (offset + 3) in
          let! uid := index madt (offset + 2) in
          add_cpu topology (CpuInfo.mk apic_id uid)
        else Ret (Ok topology)
  | 5 =>
      if decide (entry_length <> 12) then Ret (Err AcpiError.InvalidMadt)
      else
        let! address := read_u64 madt (offset + 4) in
        if decide (address = 0 \/ N.land address 0xfff <> 0) then Ret (Err AcpiError.InvalidMadt)
        else Ret (Ok (CpuTopology.mk (CpuTopology.cpus topology) (CpuTopology.count topology)
                        (CpuTopology.bsp_index topology) address))
  | 9 => Ret (Err AcpiError.InvalidMadt)
  | _ => Ret (Ok topology)
  end.

(** The loop over the entries. An entry has two bytes at least, so that the
    length of the table is fuel enough. *)
Fixpoint madt_loop (fuel : nat) (madt : list N) (offset : nat) (topology : CpuTopology.t)
  : Exec (Result CpuTopology.t AcpiError.t) :=
  match fuel with
  | O => Ret (Ok topology)
  | S fuel =>
      if decide (length madt <= offset)%nat then Ret (Ok topology)
      else if decide (length madt - offset < 2)%nat then Ret (Err AcpiError.InvalidMadt)
      else
        let! entry_type := index madt offset in
        let! entry_length := index madt (offset + 1) in
        if decide (entry_length < 2 \/ N.of_nat (length madt - offset) < entry_length)
        then Ret (Err AcpiError.InvalidMadt)
        else
          let* topology := add_entry madt offset entry_type entry_length topology in
          madt_loop fuel madt (offset + N.to_nat entry_length) topology
  end.

(** The boot processor, searched for in the topology the entries leave. *)
Definition locate_bsp (bsp_apic_id : N) (topology : CpuTopology.t) : Exec (Result CpuTopology.t AcpiError.t) :=
  if decide (CpuTopology.count topology = 0%nat) then Ret (Err AcpiError.InvalidMadt)
  else
    match list_find (fun cpu => CpuInfo.apic_id cpu = bsp_apic_id) (CpuTopology.cpus topology) with
    | None => Ret (Err AcpiError.BspNotFound)
    | Some (bsp_index, _) =>
        Ret (Ok (CpuTopology.mk (CpuTopology.cpus topology) (CpuTopology.count topology) bsp_index
                   (CpuTopology.local_apic_address topology)))
    end.

Definition parse_madt (madt : list N) (bsp_apic_id : N) : Exec (Result CpuTopology.t AcpiError.t) :=
  let! signature := slice_to madt 4 in
  if decide (signature <> text "APIC" \/ (length madt < 44)%nat) then Ret (Err AcpiError.InvalidMadt)
  else
    let! local_apic_address := read_u32 madt 36 in
    if decide (local_apic_address = 0 \/ N.land local_apic_address 0xfff <> 0)
    then Ret (Err AcpiError.InvalidMadt)
    else
      let topology := CpuTopology.mk (replicate MAX_CPUS CpuInfo.default) 0 0 local_apic_address in
      let* topology := madt_loop (length madt) madt 44 topology in
      locate_bsp bsp_apic_id topology.

(** ** Finding the table in memory *)

Section memory.
Context (memory : N -> N) (read : N -> MemoryMapEntry.t).

Fixpoint readable_loop (base entry_size address stop : N) (indices : list nat) : Result bool AcpiError.t :=
  match indices with
  | [] => Ok false
  | i :: indices =>
      let? offset := ok_or (u64_checked_mul (N.of_nat i) entry_size) AcpiError.InvalidTable in
      let entry := read (base + offset) in
      let? size := ok_or (u64_checked_mul (MemoryMapEntry.page_count entry) 4096) AcpiError.InvalidTable in
      let? entry_end := ok_or (u64_checked_add (MemoryMapEntry.physical_start entry) size) AcpiError.InvalidTable in
      if decide (MemoryMapEntry.physical_start entry <= address /\ stop <= entry_end) then Ok true
      else readable_loop base entry_size address stop indices
  end.

Definition range_is_readable (info : BootInfo.t) (address length : N) : Result bool AcpiError.t :=
  let? stop := ok_or (u64_checked_add address length) AcpiError.InvalidTable in
  let map := BootInfo.memory_map info in
  readable_loop (MemoryMapInfo.address map) (MemoryMapInfo.entry_size map) address stop
    (seq 0 (N.to_nat (MemoryMapInfo.entry_count map))).

Definition bytes (info : BootInfo.t) (address length : N) : Result (list N) AcpiError.t :=
  if decide (length = 0) then Err AcpiError.InvalidTable
  else
    let? readable := range_is_readable info address length in
    if readable then Ok (memory_bytes memory address (N.to_nat length)) else Err AcpiError.InvalidTable.

Definition table (info : BootInfo.t) (address : N) : Exec (Result (list N) AcpiError.t) :=
  if decide (address = 0) then Ret (Err AcpiError.InvalidTable)
  else
    let* readable := Ret (range_is_readable info address 8) in
    if negb readable then Ret (Err AcpiError.InvalidTable)
    else
      let* prefix := Ret (bytes info address 8) in
      let! length := read_u32 prefix 4 in
      if decide (length < ACPI_HEADER_SIZE \/ MAX_TABLE_SIZE < length) then Ret (Err AcpiError.InvalidTable)
      else
        let* table := Ret (bytes info address length) in
        if negb (checksum_ok table) then Ret (Err AcpiError.InvalidTable) else Ret (Ok table).

(** The address of the root table, and the size of its entries. *)
Definition find_root (info : BootInfo.t) (rsdp_address : N) : Exec (Result (N * N) AcpiError.t) :=
  let* rsdp_prefix := Ret (bytes info rsdp_address RSDP_V1_SIZE) in
  let! signature := slice_to rsdp_prefix 8 in
  if decide (signature <> text "RSD PTR " \/ checksum_ok rsdp_prefix = false) then Ret (Err AcpiError.InvalidRsdp)
  else
    let! revision := index rsdp_prefix 15 in
    if decide (2 <= revision) then
      let* rsdp := Ret (bytes info rsdp_address RSDP_V2_SIZE) in
      let! length := read_u32 rsdp 20 in
      if decide (length < RSDP_V2_SIZE \/ MAX_TABLE_SIZE < length) then Ret (Err AcpiError.InvalidRsdp)
      else
        let* whole := Ret (bytes info rsdp_address length) in
        if negb (checksum_ok whole) then Ret (Err AcpiError.InvalidRsdp)
        else
          let! xsdt := read_u64 rsdp 24 in
          if decide (xsdt <> 0) then Ret (Ok (xsdt, 8))
          else let! rsdt := read_u32 rsdp_prefix 16 in Ret (Ok (rsdt, 4))
    else let! rsdt := read_u32 rsdp_prefix 16 in Ret (Ok (rsdt, 4)).

(** The loop over the entries of the root table. *)
Fixpoint find_madt (info : BootInfo.t) (root : list N) (entry_size : N) (offsets : list nat)
  : Exec (Result (option N) AcpiError.t) :=
  match offsets with
  | [] => Ret (Ok None)
  | offset :: offsets =>
      let! address := if decide (entry_size = 8) then read_u64 root offset else read_u32 root offset in
      if decide (address = 0) then find_madt info root entry_size offsets
      else
        let* candidate := table info address in
        let! signature := slice_to candidate 4 in
        if decide (signature = text "APIC") then Ret (Ok (Some address))
        else find_madt info root entry_size offsets
  end.

(** The processors' table, found through the root table. *)
Definition scan_root (info : BootInfo.t) (root : list N) (entry_size bsp_apic_id : N)
  : Exec (Result CpuTopology.t AcpiError.t) :=
  if decide (N.of_nat (length root) < ACPI_HEADER_SIZE) then Ret (Err AcpiError.InvalidTable)
  else
    let payload_size := N.of_nat (length root) - ACPI_HEADER_SIZE in
    if decide (payload_size mod entry_size <> 0) then Ret (Err AcpiError.InvalidTable)
    else
      let offsets := (fun i => N.to_nat ACPI_HEADER_SIZE + i * N.to_nat entry_size)%nat
                       <$> seq 0 (N.to_nat (payload_size / entry_size)) in
      let* madt_address := find_madt info root entry_size offsets in
      let* madt_address := Ret (ok_or madt_address AcpiError.MissingMadt) in
      let* madt := table info madt_address in
      parse_madt madt bsp_apic_id.

Definition discover (info : BootInfo.t) (bsp_apic_id : N) : Exec (Result CpuTopology.t AcpiError.t) :=
  match BootInfo.validate info with
  | Err _ => Ret (Err AcpiError.InvalidRsdp)
  | Ok _ =>
      let rsdp_address := BootInfo.acpi_rsdp info in
      if decide (rsdp_address = 0) then Ret (Err AcpiError.InvalidRsdp)
      else
        let* (root_address, entry_size) := find_root info rsdp_address in
        if decide (root_address = 0) then Ret (Err AcpiError.InvalidTable)
        else
          let* root := table info root_address in
          let! signature := slice_to root 4 in
          if decide (entry_size = 8 /\ signature <> text "XSDT") then Ret (Err AcpiError.InvalidTable)
          else if decide (entry_size = 4 /\ signature <> text "RSDT") then Ret (Err AcpiError.InvalidTable)
          else scan_root info root entry_size bsp_apic_id
  end.
End memory.

(** ** What the tables describe *)

(** The address of a local APIC. *)
Definition page_address (address : N) : Prop := address <> 0 /\ N.land address 0xfff = 0.

(** An entry of the processors' table: its kind and what follows its header. *)
Module MadtEntry.
Record t := mk { kind : N; data : list N }.

Definition encode (e : t) : list N := kind e :: N.of_nat (length (data e) + 2) :: data e.

Definition well_formed (e : t) : Prop :=
  (kind e = 0 -> length (data e) = 6%nat)
  /\ (kind e = 5 -> length (data e) = 10%nat /\ page_address (from_le_bytes (sub_bytes (data e) 2 8)))
  /\ kind e <> 9.

(** The processor it announces, when it is enabled. *)
Definition processor (e : t) : option CpuInfo.t :=
  if decide (kind e = 0 /\ N.land (from_le_bytes (sub_bytes (data e) 2 4)) 1 <> 0)
  then Some (CpuInfo.mk (byte_at (data e) 1) (byte_at (data e) 0)) else None.

(** The address of the local APIC after it. *)
Definition apic_address (address : N) (e : t) : N :=
  if decide (kind e = 5) then from_le_bytes (sub_bytes (data e) 2 8) else address.
End MadtEntry.

(** The topology of a list of processors, before the boot processor is known. *)
Definition topology_of (cpus : list CpuInfo.t) (address : N) : CpuTopology.t :=
  CpuTopology.mk (cpus ++ replicate (MAX_CPUS - length cpus) CpuInfo.default) (length cpus) 0 address.

(** Processors that fit: at most [MAX_CPUS], no two with one identifier. *)
Definition distinct (cpus : list CpuInfo.t) : Prop :=
  NoDup (CpuInfo.apic_id <$> cpus) /\ (length cpus <= MAX_CPUS)%nat.

(** Where the code looks for the boot processor: among the processors, or, since
    the search runs over the whole array, in the first unused place, whose
    identifier is 0. *)
Definition bsp_place (cpus : list CpuInfo.t) (bsp : N) (i : nat) : Prop :=
  (CpuInfo.apic_id <$> cpus) !! i = Some bsp
  \/ bsp = 0 /\ (0 ∉ CpuInfo.apic_id <$> cpus) /\ (length cpus < MAX_CPUS)%nat /\ i = length cpus.

Definition madt_describes (madt : list N) (bsp : N) (topology : CpuTopology.t) : Prop :=
  sub_bytes madt 0 4 = text "APIC" /\ (44 <= length madt)%nat
  /\ page_address (from_le_bytes (sub_bytes madt 36 4))
  /\ (exists entries,
       drop 44 madt = mjoin (MadtEntry.encode <$> entries)
       /\ Forall MadtEntry.well_formed entries
       /\ (let cpus := omap MadtEntry.processor entries in
           distinct cpus /\ cpus <> []
           /\ CpuTopology.cpus topology = cpus ++ replicate (MAX_CPUS - length cpus) CpuInfo.default
           /\ CpuTopology.count topology = length cpus
           /\ bsp_place cpus bsp (CpuTopology.bsp_index topology)
           /\ CpuTopology.local_apic_address topology
              = foldl MadtEntry.apic_address (from_le_bytes (sub_bytes madt 36 4)) entries)).

(** Memory and the memory map, as the code reads them. *)
Section tables.
Context (memory : N -> N) (read : N -> MemoryMapEntry.t) (info : BootInfo.t).

Definition map_entry (i : nat) : MemoryMapEntry.t :=
  read (MemoryMapInfo.address (BootInfo.memory_map info)
        + N.of_nat i * MemoryMapInfo.entry_size (BootInfo.memory_map info)).

Definition entry_end (i : nat) : N :=
  MemoryMapEntry.physical_start (map_entry i) + MemoryMapEntry.page_count (map_entry i) * 4096.

Definition in_map (i : nat) : Prop := (i < N.to_nat (MemoryMapInfo.entry_count (BootInfo.memory_map info)))%nat.

(** An entry whose place and whose end are addresses. *)
Definition addressable (i : nat) : Prop :=
  N.of_nat i * MemoryMapInfo.entry_size (BootInfo.memory_map info) <= U64_MAX /\ entry_end i <= U64_MAX.

(** An address in a range of the memory map. *)
Definition mapped (address : N) : Prop :=
  exists i, in_map i /\ MemoryMapEntry.physical_start (map_entry i) <= address < entry_end i.

(** Bytes that lie in one range of the memory map, which the search reaches. *)
Definition covered (address n : N) : Prop :=
  exists i, in_map i
  /\ MemoryMapEntry.physical_start (map_entry i) <= address /\ address + n <= entry_end i
  /\ (forall j, (j <= i)%nat -> addressable j).

Definition sums_to_zero (bytes : list N) : Prop := sum_by id bytes mod 256 = 0.

(** A table at an address. *)
Definition table_at (address : N) (t : list N) : Prop :=
  address <> 0
  /\ t = memory_bytes memory address (length t)
  /\ ACPI_HEADER_SIZE <= N.of_nat (length t) <= MAX_TABLE_SIZE
  /\ from_le_bytes (sub_bytes t 4 4) = N.of_nat (length t)
  /\ covered address (N.of_nat (length t))
  /\ sums_to_zero t.

(** The root pointer names a root table: the extended one, with entries of 8
    bytes, when the pointer is of revision 2 and has one; otherwise the old one,
    with entries of 4 bytes. *)
Definition root_pointer (root : N) (entry_size : nat) : Prop :=
  let rsdp := BootInfo.acpi_rsdp info in
  let prefix := memory_bytes memory rsdp 20 in
  let whole := memory_bytes memory rsdp 36 in
  let xsdt := from_le_bytes (sub_bytes whole 24 8) in
  let size := from_le_bytes (sub_bytes whole 20 4) in
  let extended := 2 <= byte_at prefix 15 in
  covered rsdp 20 /\ sub_bytes prefix 0 8 = text "RSD PTR " /\ sums_to_zero prefix
  /\ (extended -> RSDP_V2_SIZE <= size <= MAX_TABLE_SIZE /\ covered rsdp size
                   /\ sums_to_zero (memory_bytes memory rsdp (N.to_nat size)))
  /\ (extended /\ xsdt <> 0 /\ root = xsdt /\ entry_size = 8%nat
      \/ ~ (extended /\ xsdt <> 0) /\ root = from_le_bytes (sub_bytes prefix 16 4) /\ entry_size = 4%nat).

(** The addresses in a root table. *)
Definition table_addresses (root : list N) (entry_size count : nat) : list N :=
  (fun i => from_le_bytes (sub_bytes root (36 + i * entry_size) entry_size)) <$> seq 0 count.

(** A table with the signature of the processors' table. *)
Definition is_madt (address : N) : Prop := exists t, table_at address t /\ sub_bytes t 0 4 = text "APIC".

(** An entry of the root table that is passed over. *)
Definition passed_over (address : N) : Prop :=
  address = 0 \/ exists t, table_at address t /\ sub_bytes t 0 4 <> text "APIC".

(** What the tables in memory say: the processors' table is the first one of the
    root table with its signature. *)
Record tables_describe (bsp : N) (topology : CpuTopology.t) : Prop := {
  described_info : BootInfo.validate info = Ok tt;
  described_tables : exists root_address entry_size root count before madt_address after madt,
    root_pointer root_address entry_size
    /\ table_at root_address root
    /\ sub_bytes root 0 4 = text (if decide (entry_size = 8%nat) then "XSDT" else "RSDT")
    /\ length root = (36 + count * entry_size)%nat
    /\ table_addresses root entry_size count = before ++ madt_address :: after
    /\ Forall passed_over before
    /\ table_at madt_address madt
    /\ madt_describes madt bsp topology
}.
End tables.

(** ** Entries of the processors' table *)

Lemma read_u32_Ret bytes offset :
  (offset + 4 <= length bytes)%nat -> read_u32 bytes offset = Ret (from_le_bytes (sub_bytes bytes offset 4)).
Proof. intros. unfold read_u32. by rewrite slice_sub. Qed.

Lemma read_u64_Ret bytes offset :
  (offset + 8 <= length bytes)%nat -> read_u64 bytes offset = Ret (from_le_bytes (sub_bytes bytes offset 8)).
Proof. intros. unfold read_u64. by rewrite slice_sub. Qed.

Lemma distinct_prefix cpus cpus' : distinct (cpus ++ cpus') -> distinct cpus.
Proof.
  intros [Hn Hl]. rewrite fmap_app in Hn. apply NoDup_app in Hn as [Hn _]. rewrite length_app in Hl.
  split; [done|lia].
Qed.

Lemma add_cpu_eq cpus address cpu :
  (length cpus <= MAX_CPUS)%nat ->
  add_cpu (topology_of cpus address) cpu =
    Ret (if decide (CpuInfo.apic_id cpu ∈ (CpuInfo.apic_id <$> cpus)) then Err AcpiError.DuplicateCpu
         else if decide (length cpus = MAX_CPUS) then Err AcpiError.TooManyCpus
         else Ok (topology_of (cpus ++ [cpu]) address)).
Proof.
  intros Hl. unfold add_cpu, topology_of; cbn [CpuTopology.cpus CpuTopology.count].
  rewrite slice_to_Ret by (rewrite length_app; lia). rewrite take_app_length.
  destruct (decide (Exists _ _)) as [He|He]; destruct (decide (_ ∈ _)) as [Hd|Hd].
  - done.
  - destruct Hd. apply Exists_exists in He as (c&Hc&<-). apply list_elem_of_fmap. eauto.
  - destruct He. apply list_elem_of_fmap in Hd as (c&->&Hc). apply Exists_exists. eauto.
  - case_decide as Hf; [done|]. rewrite store_Ret by (rewrite length_app, length_replicate; lia).
    do 2 f_equal. rewrite length_app. cbn [length]. f_equal.
    replace (MAX_CPUS - length cpus)%nat with (S (MAX_CPUS - (length cpus + 1)))%nat by (unfold MAX_CPUS in *; lia).
    cbn [replicate CpuTopology.count]. rewrite insert_app_r_alt by done. rewrite Nat.sub_diag.
    by rewrite <-(assoc_L (++)).
Qed.

Lemma add_cpu_Ok cpus address cpu topology :
  distinct cpus ->
  add_cpu (topology_of cpus address) cpu = Ret (Ok topology)
  <-> distinct (cpus ++ [cpu]) /\ topology = topology_of (cpus ++ [cpu]) address.
Proof.
  intros [Hn Hl]. rewrite add_cpu_eq by done. unfold distinct.
  rewrite fmap_app, NoDup_app, length_app. cbn.
  destruct (decide (_ ∈ _)); [set_solver|]. case_decide; split; intros; destruct_and?; simplify_eq; try lia; [|done].
  split_and!; try done; [|apply NoDup_singleton|lia]. set_solver.
Qed.

Section entry.
Context (madt : list N) (offset : nat) (e : MadtEntry.t) (rest : list N).
Hypothesis Hentry : drop offset madt = MadtEntry.encode e ++ rest.

Lemma entry_length : (offset + (2 + length (MadtEntry.data e)) <= length madt)%nat.
Proof.
  apply (f_equal length) in Hentry as Hl. revert Hl. rewrite length_drop, length_app. cbn [MadtEntry.encode length]. lia.
Qed.

Lemma entry_bytes i n :
  (i + n <= length (MadtEntry.data e))%nat ->
  sub_bytes madt (offset + S (S i)) n = sub_bytes (MadtEntry.data e) i n.
Proof.
  intros Hi. unfold sub_bytes. rewrite <-drop_drop, Hentry. cbn [MadtEntry.encode app drop Nat.add].
  rewrite drop_app_le by lia. rewrite take_app_le; [done|]. rewrite length_drop. lia.
Qed.

Lemma entry_byte i : (i < length (MadtEntry.data e))%nat -> byte_at madt (offset + S (S i)) = byte_at (MadtEntry.data e) i.
Proof.
  intros Hi. unfold byte_at. rewrite !nth_lookup, <-lookup_drop, Hentry.
  change ((MadtEntry.encode e ++ rest) !! S (S i)) with ((MadtEntry.data e ++ rest) !! i).
  by rewrite lookup_app_l.
Qed.

Lemma entry_header :
  index madt offset = Ret (MadtEntry.kind e)
  /\ index madt (offset + 1) = Ret (N.of_nat (length (MadtEntry.data e) + 2)).
Proof.
  split; apply index_Ret; [rewrite <-(Nat.add_0_r offset) at 1|]; by rewrite <-lookup_drop, Hentry.
Qed.

(** An entry that is no processor and no address. *)
Lemma add_entry_other n topology :
  MadtEntry.kind e <> 0 -> MadtEntry.kind e <> 5 -> MadtEntry.kind e <> 9 ->
  add_entry madt offset (MadtEntry.kind e) n topology = Ret (Ok topology).
Proof.
  intros. unfold add_entry. destruct (MadtEntry.kind e) as [|p]; [done|].
  do 4 (destruct p as [p|p|]; try done).
Qed.

(** A processor. *)
Lemma add_entry_processor topology :
  MadtEntry.kind e = 0 -> length (MadtEntry.data e) = 6%nat ->
  add_entry madt offset 0 8 topology =
    match MadtEntry.processor e with Some cpu => add_cpu topology cpu | None => Ret (Ok topology) end.
Proof.
  intros Hk Hn. pose proof entry_length as Hl. unfold add_entry, MadtEntry.processor.
  rewrite decide_False by lia. rewrite read_u32_Ret, !index_byte by lia.
  rewrite (entry_bytes 2 4), (entry_byte 1), (entry_byte 0) by lia.
  do 2 case_decide; by try tauto.
Qed.

Lemma add_entry_Ok cpus address topology :
  distinct cpus ->
  add_entry madt offset (MadtEntry.kind e) (N.of_nat (length (MadtEntry.data e) + 2)) (topology_of cpus address)
    = Ret (Ok topology)
  <-> MadtEntry.well_formed e
      /\ distinct (cpus ++ option_list (MadtEntry.processor e))
      /\ topology = topology_of (cpus ++ option_list (MadtEntry.processor e)) (MadtEntry.apic_address address e).
Proof.
  intros Hd. pose proof entry_length as Hl. unfold MadtEntry.well_formed, MadtEntry.apic_address.
  destruct (decide (MadtEntry.kind e = 0)) as [H0|H0].
  { rewrite H0, decide_False by done. destruct (decide (length (MadtEntry.data e) = 6%nat)) as [Hn|Hn].
    - rewrite Hn. change (N.of_nat (6 + 2)) with 8. rewrite add_entry_processor by done.
      destruct (MadtEntry.processor e) as [cpu|]; cbn [option_list].
      + rewrite add_cpu_Ok by done. naive_solver.
      + rewrite app_nil_r. naive_solver.
    - unfold add_entry. rewrite decide_True by lia. naive_solver. }
  assert (MadtEntry.processor e = None) as -> by (unfold MadtEntry.processor; case_decide; tauto).
  cbn [option_list]. rewrite app_nil_r.
  destruct (decide (MadtEntry.kind e = 5)) as [H5|H5].
  - rewrite H5. unfold add_entry. rewrite (guard_iff _ (length (MadtEntry.data e) = 10%nat)) by lia.
    destruct (decide (length (MadtEntry.data e) = 10%nat)) as [Hn|Hn]; [|naive_solver].
    rewrite read_u64_Ret, (entry_bytes 2 8) by lia.
    rewrite (guard_iff _ (page_address (from_le_bytes (sub_bytes (MadtEntry.data e) 2 8))))
      by (unfold page_address; destruct (decide (N.land (from_le_bytes (sub_bytes (MadtEntry.data e) 2 8)) 0xfff = 0)); tauto).
    cbn [topology_of CpuTopology.cpus CpuTopology.count CpuTopology.bsp_index]. naive_solver.
  - destruct (decide (MadtEntry.kind e = 9)) as [H9|H9]; [rewrite H9; naive_solver|].
    rewrite add_entry_other by done. naive_solver.
Qed.

Lemma add_entry_returns cpus address :
  (length cpus <= MAX_CPUS)%nat ->
  add_entry madt offset (MadtEntry.kind e) (N.of_nat (length (MadtEntry.data e) + 2)) (topology_of cpus address) <> Panic.
Proof.
  intros Hc. pose proof entry_length as Hl.
  destruct (decide (MadtEntry.kind e = 0)) as [H0|H0].
  { rewrite H0. unfold add_entry. apply guard_returns. intros Hn.
    rewrite read_u32_Ret, !index_byte by lia. case_decide; [|done]. by rewrite add_cpu_eq. }
  destruct (decide (MadtEntry.kind e = 5)) as [H5|H5].
  { rewrite H5. unfold add_entry. apply guard_returns. intros Hn.
    rewrite read_u64_Ret by lia. by apply guard_returns. }
  destruct (decide (MadtEntry.kind e = 9)) as [H9|H9]; [by rewrite H9|by rewrite add_entry_other].
Qed.

(** The loop does one entry after the other. *)
Lemma madt_loop_entry fuel topology :
  madt_loop (S fuel) madt offset topology =
    try (add_entry madt offset (MadtEntry.kind e) (N.of_nat (length (MadtEntry.data e) + 2)) topology)
      (madt_loop fuel madt (offset + (2 + length (MadtEntry.data e)))).
Proof.
  pose proof entry_length as Hl. destruct entry_header as [Hk Hn]. cbn [madt_loop].
  rewrite !decide_False by lia. rewrite Hk, Hn, decide_False by lia.
  replace (N.to_nat (N.of_nat (length (MadtEntry.data e) + 2))) with (2 + length (MadtEntry.data e))%nat by lia.
  done.
Qed.
End entry.

(** What is left of the table starts with an entry, or it is refused. *)
Lemma madt_loop_cases fuel madt offset topology :
  (offset < length madt)%nat ->
  (exists e rest, drop offset madt = MadtEntry.encode e ++ rest)
  \/ madt_loop (S fuel) madt offset topology = Ret (Err AcpiError.InvalidMadt).
Proof.
  intros Ho. cbn [madt_loop]. rewrite decide_False by lia. case_decide as H2; [by right|].
  destruct (drop offset madt) as [|k [|n data]] eqn:Hd;
    try (apply (f_equal length) in Hd; rewrite length_drop in Hd; cbn in Hd; lia).
  assert (length data + 2 + offset = length madt)%nat as Hl
    by (apply (f_equal length) in Hd; rewrite length_drop in Hd; cbn in Hd; lia).
  assert (index madt offset = Ret k /\ index madt (offset + 1) = Ret n) as [-> ->].
  { split; apply index_Ret; [rewrite <-(Nat.add_0_r offset)|]; by rewrite <-lookup_drop, Hd. }
  case_decide as Hn; [by right|]. left.
  exists (MadtEntry.mk k (take (N.to_nat n - 2) data)), (drop (N.to_nat n - 2) data).
  unfold MadtEntry.encode; cbn [MadtEntry.kind MadtEntry.data app]. rewrite length_take, take_drop.
  do 2 f_equal. lia.
Qed.

Lemma madt_loop_end fuel madt offset topology :
  (length madt <= offset)%nat -> madt_loop fuel madt offset topology = Ret (Ok topology).
Proof. intros. destruct fuel; [done|]. cbn [madt_loop]. by rewrite decide_True. Qed.

(** The loop accepts exactly the tables that are a sequence of entries, all of
    them well formed, with processors that fit. *)
Lemma madt_loop_Ok madt fuel : forall offset cpus address topology,
  (length madt - offset <= fuel)%nat -> distinct cpus ->
  madt_loop fuel madt offset (topology_of cpus address) = Ret (Ok topology)
  <-> exists entries,
       drop offset madt = mjoin (MadtEntry.encode <$> entries)
       /\ Forall MadtEntry.well_formed entries
       /\ distinct (cpus ++ omap MadtEntry.processor entries)
       /\ topology = topology_of (cpus ++ omap MadtEntry.processor entries)
                       (foldl MadtEntry.apic_address address entries).
Proof.
  induction fuel as [|fuel IH]; intros offset cpus address topology Hf Hd.
  all: destruct (decide (length madt <= offset)%nat) as [Ho|Ho]; [|try lia].
  1,2: rewrite madt_loop_end by done; rewrite drop_ge by done; split;
    [intros [= <-]; exists []; cbn; by rewrite app_nil_r
    |intros ([|e es]&He&_&_&->); [cbn; by rewrite app_nil_r|discriminate]].
  assert (Hsplit : forall e es, omap MadtEntry.processor (e :: es)
                    = option_list (MadtEntry.processor e) ++ omap MadtEntry.processor es)
    by (intros; cbn; by destruct (MadtEntry.processor e)).
  split.
  - intros Hok. destruct (madt_loop_cases fuel madt offset (topology_of cpus address)) as [(e&rest&He)|Hb];
      [lia| |by rewrite Hb in Hok].
    rewrite (madt_loop_entry _ _ _ _ He), try_Ok in Hok. destruct Hok as (t&Ha&Hok).
    apply (add_entry_Ok _ _ _ _ He) in Ha as (Hw&Hd'&->); [|done].
    apply IH in Hok as (es&Hes&Hws&Hds&->); [|lia|done]. exists (e :: es).
    rewrite Hsplit, (assoc_L (++)). split_and!; [|by constructor|done|done].
    rewrite <-drop_drop, He in Hes. rewrite He, fmap_cons. cbn [mjoin list_join]. f_equal.
    by rewrite drop_app_length' in Hes.
  - intros ([|e es]&He&Hw&Hds&->); [apply (f_equal length) in He; rewrite length_drop in He; cbn in He; lia|].
    change (drop offset madt = MadtEntry.encode e ++ mjoin (MadtEntry.encode <$> es)) in He.
    rewrite Hsplit, (assoc_L (++)) in *. apply Forall_cons in Hw as [Hw Hws].
    rewrite (madt_loop_entry _ _ _ _ He), try_Ok. eexists. split.
    + apply (add_entry_Ok _ _ _ _ He); [done|]. split_and!; [done|by eapply distinct_prefix|done].
    + apply IH; [lia|by eapply distinct_prefix|].
      exists es. split_and!; try done. rewrite <-drop_drop, He. by rewrite drop_app_length'.
Qed.

Lemma madt_loop_returns madt fuel : forall offset cpus address,
  distinct cpus -> madt_loop fuel madt offset (topology_of cpus address) <> Panic.
Proof.
  induction fuel as [|fuel IH]; intros offset cpus address Hd; [done|].
  destruct (decide (length madt <= offset)%nat) as [Ho|Ho]; [by rewrite madt_loop_end|].
  destruct (madt_loop_cases fuel madt offset (topology_of cpus address)) as [(e&rest&He)|Hb];
    [lia| |by rewrite Hb].
  rewrite (madt_loop_entry _ _ _ _ He). apply try_returns; [by apply (add_entry_returns _ _ _ _ He), Hd|].
  intros t (Hw&Hd'&->)%(add_entry_Ok _ _ _ _ He); [|done]. by apply IH.
Qed.

(** The search for the boot processor. *)
Lemma find_bsp cpus bsp i :
  distinct cpus ->
  (exists cpu, list_find (fun cpu => CpuInfo.apic_id cpu = bsp)
                 (cpus ++ replicate (MAX_CPUS - length cpus) CpuInfo.default) = Some (i, cpu))
  <-> bsp_place cpus bsp i.
Proof.
  intros [Hn Hl]. setoid_rewrite list_find_Some. unfold bsp_place. rewrite list_lookup_fmap. split.
  - intros (cpu&Hi&Hb&Hmin). apply lookup_app_Some in Hi as [Hi|[Hge Hi]]; [left; by rewrite Hi, <-Hb|right].
    apply lookup_replicate in Hi as [-> Hi]. cbn in Hb. subst bsp.
    assert (Hnot : (0 ∉ CpuInfo.apic_id <$> cpus)).
    { intros (j&Hj)%list_elem_of_lookup. rewrite list_lookup_fmap in Hj.
      destruct (cpus !! j) as [c|] eqn:Hc; [|done]. injection Hj as Hj.
      apply (Hmin j c); [by apply lookup_app_l_Some| |done]. apply lookup_lt_Some in Hc. lia. }
    split_and!; [done|done|lia|]. destruct (decide (i = length cpus)) as [|Hne]; [done|]. exfalso.
    apply (Hmin (length cpus) CpuInfo.default); [|lia|done].
    rewrite lookup_app_r, Nat.sub_diag by done. apply lookup_replicate. split; [done|lia].
  - intros [Hi|(->&Hnot&Hlt&->)].
    + destruct (cpus !! i) as [c|] eqn:Hc; [|done]. injection Hi as Hi. exists c.
      split_and!; [by apply lookup_app_l_Some|done|]. intros j c' Hj Hlt Hb.
      rewrite lookup_app_l in Hj by (apply lookup_lt_Some in Hc; lia).
      assert (j = i); [|lia]. eapply NoDup_lookup; [exact Hn| |]; rewrite list_lookup_fmap.
      * by rewrite Hj.
      * rewrite Hc. cbn. congruence.
    + exists CpuInfo.default. split_and!; [|done|].
      * rewrite lookup_app_r, Nat.sub_diag by done. apply lookup_replicate. split; [done|lia].
      * intros j c Hj Hlt' Hb. rewrite lookup_app_l in Hj by done. apply Hnot.
        apply list_elem_of_fmap. exists c. split; [done|]. by eapply list_elem_of_lookup_2.
Qed.

Lemma page_address_dec address : ~ (address = 0 \/ N.land address 0xfff <> 0) <-> page_address address.
Proof. unfold page_address. destruct (decide (N.land address 0xfff = 0)); tauto. Qed.

Lemma distinct_nil : distinct [].
Proof. split; [constructor|cbn; lia]. Qed.

Lemma locate_bsp_Ok cpus address bsp topology :
  distinct cpus ->
  locate_bsp bsp (topology_of cpus address) = Ret (Ok topology)
  <-> cpus <> []
      /\ CpuTopology.cpus topology = cpus ++ replicate (MAX_CPUS - length cpus) CpuInfo.default
      /\ CpuTopology.count topology = length cpus
      /\ bsp_place cpus bsp (CpuTopology.bsp_index topology)
      /\ CpuTopology.local_apic_address topology = address.
Proof.
  intros Hd. unfold locate_bsp. rewrite (guard_iff _ (cpus <> [])) by (by destruct cpus).
  apply and_iff_compat_l. rewrite <-(find_bsp _ _ _ Hd).
  cbn [topology_of CpuTopology.cpus CpuTopology.count CpuTopology.local_apic_address].
  destruct topology as [cs n i a]; cbn [CpuTopology.cpus CpuTopology.count CpuTopology.bsp_index CpuTopology.local_apic_address].
  destruct (list_find _ _) as [[i' c]|]; naive_solver.
Qed.

Lemma parse_madt_eq madt bsp :
  (44 <= length madt)%nat ->
  parse_madt madt bsp =
    if decide (sub_bytes madt 0 4 <> text "APIC" \/ (length madt < 44)%nat) then Ret (Err AcpiError.InvalidMadt)
    else
      let address := from_le_bytes (sub_bytes madt 36 4) in
      if decide (address = 0 \/ N.land address 0xfff <> 0) then Ret (Err AcpiError.InvalidMadt)
      else try (madt_loop (length madt) madt 44 (topology_of [] address)) (locate_bsp bsp).
Proof. intros. unfold parse_madt. by rewrite slice_to_Ret, read_u32_Ret by lia. Qed.

Lemma parse_madt_Ok madt bsp topology :
  (4 <= length madt)%nat ->
  parse_madt madt bsp = Ret (Ok topology) <-> madt_describes madt bsp topology.
Proof.
  intros H4. unfold madt_describes. destruct (decide (44 <= length madt)%nat) as [H44|H44]; cycle 1.
  { unfold parse_madt. rewrite slice_to_Ret, decide_True by lia. naive_solver. }
  rewrite parse_madt_eq by done.
  rewrite (guard_iff _ (sub_bytes madt 0 4 = text "APIC")) by (split; [intros [?%dec_stable ?]%not_or_and|intros ? [|]]; [done|done|lia]).
  rewrite (guard_iff _ _ _ _ _ (page_address_dec _)), try_Ok.
  setoid_rewrite madt_loop_Ok; [|lia|apply distinct_nil]. cbn [app]. split.
  - intros (?&?&t&(es&Hes&Hw&Hd&->)&Hb%locate_bsp_Ok); [|done]. split_and!; [done..|].
    exists es. naive_solver.
  - intros (?&_&?&es&Hes&Hw&Hd&Hb). split_and!; [done..|]. eexists. split; [by exists es|].
    by apply locate_bsp_Ok.
Qed.

Lemma parse_madt_returns madt bsp : (4 <= length madt)%nat -> parse_madt madt bsp <> Panic.
Proof.
  intros H4. destruct (decide (44 <= length madt)%nat) as [H44|H44].
  - rewrite parse_madt_eq by done. do 2 (apply guard_returns; intros _).
    apply try_returns; [apply madt_loop_returns, distinct_nil|]. intros t _. unfold locate_bsp.
    apply guard_returns. intros _. by destruct (list_find _ _) as [[]|].
  - unfold parse_madt. rewrite slice_to_Ret, decide_True by lia. done.
Qed.

(** ** Ranges of the memory map *)

Lemma checksum_ok_spec t : checksum_ok t = true <-> sums_to_zero t.
Proof.
  unfold checksum_ok, sums_to_zero. rewrite bool_decide_eq_true.
  assert (H : forall n, foldl (fun sum byte => (sum + byte) mod 256) n t mod 256 = (n + sum_by id t) mod 256).
  { induction t as [|b t IH]; intros n; cbn [foldl sum_by foldr]; [by rewrite N.add_0_r|].
    rewrite IH, N.Div0.add_mod_idemp_l. f_equal. unfold sum_by, id. cbn [foldr]. lia. }
  specialize (H 0). rewrite N.add_0_l in H. rewrite <-H.
  destruct t as [|b t] using rev_ind; [done|]. rewrite foldl_app. cbn [foldl]. by rewrite N.Div0.mod_mod.
Qed.

Section ranges.
Context (read : N -> MemoryMapEntry.t) (info : BootInfo.t).

Local Abbreviation map_entry := (map_entry read info).
Local Abbreviation covered := (covered read info).

Lemma readable_loop_true address stop : forall n start,
  readable_loop read (MemoryMapInfo.address (BootInfo.memory_map info))
    (MemoryMapInfo.entry_size (BootInfo.memory_map info)) address stop (seq start n) = Ok true
  <-> exists i, (start <= i < start + n)%nat
        /\ MemoryMapEntry.physical_start (map_entry i) <= address /\ stop <= entry_end read info i
        /\ (forall j, (start <= j <= i)%nat -> addressable read info j).
Proof.
  induction n as [|n IH]; intros start; cbn [seq readable_loop]; [split; [done|intros (i&?&_); lia]|].
  unfold u64_checked_mul, u64_checked_add.
  destruct (decide (N.of_nat start * _ <= U64_MAX)) as [Ho|Ho]; cbn [ok_or]; cycle 1.
  { split; [done|]. intros (i&Hi&_&_&Ha). destruct (Ha start) as [? _]; [lia|]. done. }
  fold (map_entry start).
  destruct (decide (MemoryMapEntry.page_count (map_entry start) * 4096 <= U64_MAX)) as [Hp|Hp]; cbn [ok_or]; cycle 1.
  { split; [done|]. intros (i&Hi&_&_&Ha). destruct (Ha start) as [_ He]; [lia|]. unfold entry_end in He. lia. }
  fold (entry_end read info start).
  destruct (decide (entry_end read info start <= U64_MAX)) as [He|He]; cbn [ok_or]; cycle 1.
  { split; [done|]. intros (i&Hi&_&_&Ha). destruct (Ha start) as [_ ?]; [lia|]. done. }
  case_decide as Hin.
  { split; [intros _|done]. exists start. split_and!; [lia|lia|tauto|tauto|].
    intros j Hj. replace j with start by lia. done. }
  rewrite IH. split; intros (i&Hi&Hs&Hst&Ha).
  - exists i. split_and!; [lia|lia|done|done|]. intros j Hj. destruct (decide (j = start)) as [->|]; [done|].
    apply Ha. lia.
  - exists i. destruct (decide (i = start)) as [->|]; [tauto|]. split_and!; [lia|lia|done|done|].
    intros j Hj. apply Ha. lia.
Qed.

Lemma range_is_readable_true address n : range_is_readable read info address n = Ok true <-> covered address n.
Proof.
  unfold range_is_readable, u64_checked_add. case_decide as Ho; cbn [ok_or].
  - rewrite readable_loop_true. unfold covered, in_map. split; intros (i&?&?&?&Ha); exists i; split_and!; try done; try lia.
    + intros j Hj. apply Ha. lia.
    + intros j Hj. apply Ha. lia.
  - split; [done|]. intros (i&_&_&Hi&Ha). destruct (Ha i) as [_ ?]; [done|]. lia.
Qed.

Lemma covered_prefix address n m : n <= m -> covered address m -> covered address n.
Proof. intros Hn (i&?&?&?&?). exists i. split_and!; try done. lia. Qed.

Context (memory : N -> N).

Local Abbreviation bytes := (bytes memory read info).
Local Abbreviation table := (table memory read info).
Local Abbreviation is_madt := (is_madt memory read info).

Lemma bytes_Ok address n bs :
  bytes address n = Ok bs <-> n <> 0 /\ covered address n /\ bs = memory_bytes memory address (N.to_nat n).
Proof.
  rewrite <-range_is_readable_true. unfold Acpi.bytes. case_decide; [naive_solver|].
  destruct (range_is_readable read info address n) as [[]|]; naive_solver.
Qed.

Lemma bytes_length address n bs : bytes address n = Ok bs -> length bs = N.to_nat n.
Proof. intros (_&_&->)%bytes_Ok. apply memory_bytes_length. Qed.

Lemma table_Ok address t : table address = Ret (Ok t) <-> table_at memory read info address t.
Proof.
  unfold Acpi.table, table_at. rewrite guard_Ok. apply and_iff_compat_l.
  rewrite try_Ok. setoid_rewrite reject_Ok. setoid_rewrite try_Ok. split.
  - intros (b&[= Hr]&->&prefix&[= Hp]&Ht). pose proof (bytes_length _ _ _ Hp) as Hl.
    rewrite read_u32_Ret in Ht by (rewrite Hl; lia).
    rewrite guard_Ok, not_or_and, !N.nlt_ge in Ht. destruct Ht as [Hn Ht]. rewrite try_Ok in Ht.
    destruct Ht as (t'&[= Hb]&[Hs [= ->]]%reject_Ok). apply checksum_ok_spec in Hs.
    apply bytes_Ok in Hp as (_&Hc&->). apply bytes_Ok in Hb as (_&Hct&Hb).
    assert (Hlen : N.of_nat (length t) = from_le_bytes (sub_bytes (memory_bytes memory address (N.to_nat 8)) 4 4))
      by (rewrite Hb, memory_bytes_length; lia).
    rewrite Hlen. split_and!; try done; [by rewrite <-Hlen, Nat2N.id in Hb|tauto|tauto|].
    rewrite Hb. apply (f_equal from_le_bytes), sub_memory_bytes; unfold ACPI_HEADER_SIZE in *; lia.
  - intros (Ht&Hn&Hl&Hc&Hs). exists true.
    assert (Hp : bytes address 8 = Ok (memory_bytes memory address (N.to_nat 8))).
    { apply bytes_Ok. split_and!; [done| |done]. eapply covered_prefix, Hc. unfold ACPI_HEADER_SIZE in *. lia. }
    split; [f_equal; apply range_is_readable_true, (proj1 (bytes_Ok _ _ _) Hp)|]. split; [done|].
    exists (memory_bytes memory address (N.to_nat 8)). split; [by rewrite Hp|].
    rewrite read_u32_Ret by (rewrite memory_bytes_length; lia).
    rewrite <-(sub_memory_bytes _ _ _ (length t)) by (unfold ACPI_HEADER_SIZE in *; lia). rewrite <-Ht, Hl.
    apply guard_Ok. split; [lia|]. apply try_Ok. exists t. split.
    + f_equal. apply bytes_Ok. split_and!; [unfold ACPI_HEADER_SIZE in *; lia|done|by rewrite Nat2N.id].
    + apply reject_Ok. split; [by apply checksum_ok_spec|done].
Qed.

Lemma table_returns address : table address <> Panic.
Proof.
  unfold Acpi.table. apply guard_returns. intros _. apply try_returns; [done|]. intros [] _; [|done]. cbn [negb].
  apply try_returns; [done|]. intros prefix [= Hp]. rewrite read_u32_Ret by (rewrite (bytes_length _ _ _ Hp); lia).
  apply guard_returns. intros _. apply try_returns; [done|]. intros t _. by destruct (checksum_ok t).
Qed.

(** ** The root table *)

Local Abbreviation rsdp := (BootInfo.acpi_rsdp info).

Lemma bytes_try {B} address n (k : list N -> Exec (Result B AcpiError.t)) y :
  n <> 0 ->
  try (Ret (bytes address n)) k = Ret (Ok y)
  <-> covered address n /\ k (memory_bytes memory address (N.to_nat n)) = Ret (Ok y).
Proof.
  intros Hn. rewrite try_Ok. split.
  - intros (bs&[= (_&Hc&->)%bytes_Ok]&Hk). done.
  - intros [Hc Hk]. eexists. split; [f_equal; by apply bytes_Ok|done].
Qed.

Lemma find_root_Ok root size :
  find_root memory read info rsdp = Ret (Ok (root, size))
  <-> exists entry_size, size = N.of_nat entry_size /\ root_pointer memory read info root entry_size.
Proof.
  unfold find_root, root_pointer. rewrite bytes_try by done. change (N.to_nat RSDP_V1_SIZE) with 20%nat.
  set (prefix := memory_bytes memory rsdp 20). assert (Hl : length prefix = 20%nat) by apply memory_bytes_length.
  rewrite slice_to_Ret, index_byte, read_u32_Ret by lia. change (take 8 prefix) with (sub_bytes prefix 0 8).
  rewrite (guard_iff _ (sub_bytes prefix 0 8 = text "RSD PTR " /\ sums_to_zero prefix)); cycle 1.
  { rewrite <-checksum_ok_spec, not_or_and, not_false_iff_true. split; [intros [?%dec_stable ?]|intros [-> ?]]; tauto. }
  destruct (decide (2 <= byte_at prefix 15)) as [Hr|Hr]; cycle 1.
  { split; [intros (?&[? ?]&[= <- <-]); exists 4%nat; tauto|]. intros (n&->&?&?&?&_&[?|(_&->&->)]); [tauto|done]. }
  rewrite bytes_try by done. change (N.to_nat RSDP_V2_SIZE) with 36%nat.
  set (whole := memory_bytes memory rsdp 36). assert (Hw : length whole = 36%nat) by apply memory_bytes_length.
  rewrite read_u32_Ret, read_u64_Ret by lia. set (n := from_le_bytes (sub_bytes whole 20 4)).
  rewrite (guard_iff _ (RSDP_V2_SIZE <= n <= MAX_TABLE_SIZE)) by lia.
  destruct (decide (RSDP_V2_SIZE <= n <= MAX_TABLE_SIZE)) as [Hn|Hn]; [|naive_solver].
  assert (H36 : covered rsdp n -> covered rsdp RSDP_V2_SIZE) by (apply covered_prefix; lia).
  rewrite bytes_try by (unfold RSDP_V2_SIZE in Hn; lia). rewrite reject_Ok, checksum_ok_spec.
  set (xsdt := from_le_bytes (sub_bytes whole 24 8)).
  destruct (decide (xsdt <> 0)) as [Hx|Hx]; split.
  - intros (?&[? ?]&_&_&?&?&[= <- <-]). exists 8%nat. tauto.
  - intros (m&->&?&?&?&Hs&[(_&_&->&->)|?]); [|tauto]. destruct (Hs Hr) as (?&?&?). tauto.
  - intros (?&[? ?]&_&_&?&?&[= <- <-]). exists 4%nat. tauto.
  - intros (m&->&?&?&?&Hs&[?|(_&->&->)]); [tauto|]. destruct (Hs Hr) as (?&?&?). tauto.
Qed.

Lemma find_root_returns : find_root memory read info rsdp <> Panic.
Proof.
  unfold find_root. apply try_returns; [done|]. intros prefix [= Hl%bytes_length].
  change (N.to_nat RSDP_V1_SIZE) with 20%nat in Hl. rewrite slice_to_Ret, index_byte, read_u32_Ret by lia.
  apply guard_returns. intros _. case_decide; [|done]. apply try_returns; [done|]. intros whole [= Hw%bytes_length].
  change (N.to_nat RSDP_V2_SIZE) with 36%nat in Hw. rewrite read_u32_Ret, read_u64_Ret by lia.
  apply guard_returns. intros _. apply try_returns; [done|]. intros t _. destruct (checksum_ok t); cbn [negb]; [|done].
  by case_decide.
Qed.

(** The address at an offset of the root table. *)
Lemma address_read (root : list N) (entry_size offset : nat) :
  entry_size = 8%nat \/ entry_size = 4%nat -> (offset + entry_size <= length root)%nat ->
  (if decide (N.of_nat entry_size = 8) then read_u64 root offset else read_u32 root offset)
  = Ret (from_le_bytes (sub_bytes root offset entry_size)).
Proof.
  intros [->| ->] Hl; [rewrite decide_True by done; by apply read_u64_Ret|].
  rewrite decide_False by done. by apply read_u32_Ret.
Qed.

Lemma table_at_length address t : table_at memory read info address t -> (36 <= length t)%nat.
Proof. intros (_&_&[Hl _]&_). unfold ACPI_HEADER_SIZE in Hl. lia. Qed.

Lemma find_madt_cons root entry_size offset offsets found :
  entry_size = 8%nat \/ entry_size = 4%nat -> (offset + entry_size <= length root)%nat ->
  let address := from_le_bytes (sub_bytes root offset entry_size) in
  find_madt memory read info root (N.of_nat entry_size) (offset :: offsets) = Ret (Ok (Some found))
  <-> passed_over memory read info address
      /\ find_madt memory read info root (N.of_nat entry_size) offsets = Ret (Ok (Some found))
      \/ found = address /\ is_madt address.
Proof.
  intros Hs Ho address. cbn [find_madt]. rewrite address_read by done. fold address. unfold passed_over, Acpi.is_madt.
  case_decide as H0; [split; [tauto|]; intros [[_ ?]|[_ (t&[? _]&_)]]; [done|tauto]|].
  rewrite try_Ok. split.
  - intros (t&Ht%table_Ok&Hk). pose proof (table_at_length _ _ Ht). rewrite slice_to_Ret in Hk by lia.
    change (take 4 t) with (sub_bytes t 0 4) in Hk. case_decide; [right|left]; naive_solver.
  - intros [[[?|(t&Ht&Hsig)] Hf]|[-> (t&Ht&Hsig)]]; [done| |]; exists t; (split; [by apply table_Ok|]);
      pose proof (table_at_length _ _ Ht); rewrite slice_to_Ret by lia;
      [by rewrite decide_False|by rewrite decide_True].
Qed.

Lemma find_madt_Ok root entry_size offsets found :
  entry_size = 8%nat \/ entry_size = 4%nat ->
  Forall (fun offset => (offset + entry_size <= length root)%nat) offsets ->
  find_madt memory read info root (N.of_nat entry_size) offsets = Ret (Ok (Some found))
  <-> exists before after,
       (fun offset => from_le_bytes (sub_bytes root offset entry_size)) <$> offsets = before ++ found :: after
       /\ Forall (passed_over memory read info) before /\ is_madt found.
Proof.
  intros Hs. induction 1 as [|offset offsets Ho _ IH]; [split; [done|by intros ([|]&?&?&_)]|].
  rewrite find_madt_cons by done. rewrite IH, fmap_cons. split.
  - intros [(Hp&before&after&->&Hb&Hm)|[-> Hm]].
    + exists (from_le_bytes (sub_bytes root offset entry_size) :: before), after. split_and!; [done|by constructor|done].
    + by exists [], ((fun offset => from_le_bytes (sub_bytes root offset entry_size)) <$> offsets).
  - intros ([|a before]&after&[= Ha Hrest]&Hb&Hm); [right; naive_solver|left].
    apply Forall_cons in Hb as [Hp Hb]. subst a. split; [done|]. by exists before, after.
Qed.

Lemma find_madt_returns root entry_size offsets :
  entry_size = 8%nat \/ entry_size = 4%nat ->
  Forall (fun offset => (offset + entry_size <= length root)%nat) offsets ->
  find_madt memory read info root (N.of_nat entry_size) offsets <> Panic.
Proof.
  intros Hs. induction 1 as [|offset offsets Ho _ IH]; [done|]. cbn [find_madt]. rewrite address_read by done.
  case_decide; [done|]. apply try_returns; [apply table_returns|].
  intros t Ht%table_Ok%table_at_length. rewrite slice_to_Ret by lia. by case_decide.
Qed.

(** The offsets the loop visits are inside the table. *)
Lemma root_offsets (root : list N) (entry_size count : nat) :
  length root = (36 + count * entry_size)%nat ->
  Forall (fun offset => (offset + entry_size <= length root)%nat)
    ((fun i => N.to_nat ACPI_HEADER_SIZE + i * N.to_nat (N.of_nat entry_size))%nat <$> seq 0 count).
Proof.
  intros Hl. apply Forall_fmap, Forall_seq. intros i Hi. cbn. rewrite Nat2N.id, Hl.
  change (N.to_nat ACPI_HEADER_SIZE) with 36%nat. nia.
Qed.

Local Abbreviation scan_root := (scan_root memory read info).

Lemma root_count (root : list N) (entry_size : nat) :
  (36 <= length root)%nat -> entry_size <> 0%nat ->
  (N.of_nat (length root) - ACPI_HEADER_SIZE) mod N.of_nat entry_size = 0 ->
  length root = (36 + N.to_nat ((N.of_nat (length root) - ACPI_HEADER_SIZE) / N.of_nat entry_size) * entry_size)%nat.
Proof.
  intros Hl Hn Hm. unfold ACPI_HEADER_SIZE in *.
  pose proof (N.div_mod (N.of_nat (length root) - 36) (N.of_nat entry_size)) as Hd. nia.
Qed.

Lemma scan_root_Ok root entry_size bsp topology :
  entry_size = 8%nat \/ entry_size = 4%nat -> (36 <= length root)%nat ->
  scan_root root (N.of_nat entry_size) bsp = Ret (Ok topology)
  <-> exists count before madt_address after madt,
       length root = (36 + count * entry_size)%nat
       /\ table_addresses root entry_size count = before ++ madt_address :: after
       /\ Forall (passed_over memory read info) before
       /\ table_at memory read info madt_address madt
       /\ madt_describes madt bsp topology.
Proof.
  intros Hs Hl. assert (Hn : entry_size <> 0%nat) by lia. unfold Acpi.scan_root.
  rewrite decide_False by (unfold ACPI_HEADER_SIZE; lia). rewrite guard_Ok.
  assert (Hmap : forall count, (fun offset => from_le_bytes (sub_bytes root offset entry_size))
            <$> ((fun i => N.to_nat ACPI_HEADER_SIZE + i * N.to_nat (N.of_nat entry_size))%nat <$> seq 0 count)
          = table_addresses root entry_size count).
  { intros count. unfold table_addresses. rewrite <-list_fmap_compose. apply list_fmap_ext. intros i x _. cbn.
    by rewrite Nat2N.id. }
  split.
  - intros (Hm%dec_stable&Hok). pose proof (root_count _ _ Hl Hn Hm) as Hc.
    apply try_Ok in Hok as ([a|]&Hf&Hok); [|done]. cbn [ok_or] in Hok. rewrite try_value, try_Ok in Hok.
    destruct Hok as (madt&Ht%table_Ok&Hp). apply find_madt_Ok in Hf as (before&after&Ha&Hb&_); [|done|by apply root_offsets].
    apply parse_madt_Ok in Hp; [|pose proof (table_at_length _ _ Ht); lia].
    rewrite Hmap in Ha. by eexists _, before, a, after, madt.
  - intros (count&before&a&after&madt&Hc&Ha&Hb&Ht&Hp).
    assert (N.of_nat (length root) - ACPI_HEADER_SIZE = N.of_nat count * N.of_nat entry_size) as ->
      by (unfold ACPI_HEADER_SIZE; lia).
    rewrite N.Div0.mod_mul, N.div_mul, (Nat2N.id count) by lia. split; [lia|]. apply try_Ok. exists (Some a). split.
    + apply find_madt_Ok; [done|by apply root_offsets|]. exists before, after. rewrite Hmap. split_and!; [done..|].
      exists madt. split; [done|]. apply Hp.
    + cbn [ok_or]. rewrite try_value, try_Ok. exists madt. split; [by apply table_Ok|].
      apply parse_madt_Ok; [|done]. pose proof (table_at_length _ _ Ht). lia.
Qed.

Lemma scan_root_returns root entry_size bsp :
  entry_size = 8%nat \/ entry_size = 4%nat -> (36 <= length root)%nat -> scan_root root (N.of_nat entry_size) bsp <> Panic.
Proof.
  intros Hs Hl. unfold Acpi.scan_root. apply guard_returns. intros _. apply guard_returns. intros Hm%dec_stable. apply try_returns.
  - apply find_madt_returns; [done|]. apply root_offsets, root_count; [done|lia|done].
  - intros a _. apply try_returns; [done|]. intros a' _. apply try_returns; [apply table_returns|].
    intros t Ht%table_Ok%table_at_length. apply parse_madt_returns. lia.
Qed.

Lemma validate_rsdp : BootInfo.validate info = Ok tt -> rsdp <> 0.
Proof. unfold BootInfo.validate. repeat case_decide; done. Qed.

(** The checks on the root table: its signature goes with the size of its entries. *)
Lemma root_checks root entry_size bsp :
  entry_size = 8%nat \/ entry_size = 4%nat ->
  (if decide (N.of_nat entry_size = 8 /\ sub_bytes root 0 4 <> text "XSDT") then Ret (Err AcpiError.InvalidTable)
   else if decide (N.of_nat entry_size = 4 /\ sub_bytes root 0 4 <> text "RSDT") then Ret (Err AcpiError.InvalidTable)
   else scan_root root (N.of_nat entry_size) bsp)
  = if decide (sub_bytes root 0 4 <> text (if decide (entry_size = 8%nat) then "XSDT" else "RSDT"))
    then Ret (Err AcpiError.InvalidTable) else scan_root root (N.of_nat entry_size) bsp.
Proof.
  intros [->| ->]; [change (N.of_nat 8) with 8; rewrite (decide_True (P := 8%nat = 8%nat)) by done
                   |change (N.of_nat 4) with 4; rewrite (decide_False (P := 4%nat = 8%nat)) by done];
    repeat case_decide; naive_solver.
Qed.

Lemma root_pointer_size root entry_size :
  root_pointer memory read info root entry_size -> entry_size = 8%nat \/ entry_size = 4%nat.
Proof. intros (_&_&_&_&[(_&_&_&?)|(_&_&?)]); auto. Qed.

Lemma discover_Ok bsp topology :
  discover memory read info bsp = Ret (Ok topology) <-> tables_describe memory read info bsp topology.
Proof.
  unfold discover. destruct (BootInfo.validate info) as [[]|e] eqn:Hv; [|split; [done|intros [Hv' _]; congruence]].
  rewrite guard_Ok, try_Ok. split.
  - intros (_&[a size]&(es&->&Hr)%find_root_Ok&Hok). pose proof (root_pointer_size _ _ Hr) as Hs.
    apply guard_Ok in Hok as [_ (root&Ht%table_Ok&Hok)%try_Ok]. pose proof (table_at_length _ _ Ht).
    rewrite slice_to_Ret in Hok by lia. change (take 4 root) with (sub_bytes root 0 4) in Hok.
    rewrite root_checks, guard_Ok in Hok by done.
    destruct Hok as [Hsig%dec_stable Hok]. apply scan_root_Ok in Hok as (count&before&m&after&madt&?&?&?&?&?); [|done..].
    constructor; [done|]. by exists a, es, root, count, before, m, after, madt.
  - intros [_ (a&es&root&count&before&m&after&madt&Hr&Ht&Hsig&Hscan)]. split; [by apply validate_rsdp|].
    pose proof (root_pointer_size _ _ Hr) as Hs. pose proof (table_at_length _ _ Ht).
    exists (a, N.of_nat es). split; [apply find_root_Ok; eauto|]. apply guard_Ok. split; [apply Ht|].
    apply try_Ok. exists root. split; [by apply table_Ok|]. rewrite slice_to_Ret by lia.
    change (take 4 root) with (sub_bytes root 0 4). rewrite root_checks, guard_Ok by done. split; [tauto|]. apply scan_root_Ok; [done..|].
    by exists count, before, m, after, madt.
Qed.

Lemma discover_returns bsp : discover memory read info bsp <> Panic.
Proof.
  unfold discover. destruct (BootInfo.validate info); [|done]. apply guard_returns. intros _.
  apply try_returns; [apply find_root_returns|]. intros [a size] (es&->&Hr)%find_root_Ok.
  pose proof (root_pointer_size _ _ Hr) as Hs. apply guard_returns. intros _.
  apply try_returns; [apply table_returns|]. intros root Ht%table_Ok%table_at_length.
  rewrite slice_to_Ret by lia.
  change (take 4 root) with (sub_bytes root 0 4). rewrite root_checks by done. apply guard_returns. intros _. by apply scan_root_returns.
Qed.
End ranges.

(** ** Memory outside the memory map is not read *)

Section confined.
Context (memory memory' : N -> N) (read : N -> MemoryMapEntry.t) (info : BootInfo.t).
Hypothesis Hagree : forall address, mapped read info address -> memory address = memory' address.

Lemma bytes_confined address n : bytes memory read info address n = bytes memory' read info address n.
Proof.
  unfold bytes. case_decide; [done|].
  destruct (range_is_readable read info address n) as [[]|] eqn:Hr; [|done..].
  apply range_is_readable_true in Hr as (i&Hi&Hs&He&_). f_equal. unfold memory_bytes.
  apply list_fmap_ext. intros j x Hj%lookup_seq. apply Hagree. exists i. split; [done|lia].
Qed.

Lemma table_confined address : table memory read info address = table memory' read info address.
Proof.
  unfold table. case_decide; [done|]. destruct (range_is_readable read info address 8) as [[]|]; cbn [try negb]; try done.
  rewrite bytes_confined. destruct (bytes memory' read info address 8) as [prefix|]; cbn [try]; [|done].
  destruct (read_u32 prefix 4); [|done]. case_decide; [done|]. by rewrite bytes_confined.
Qed.

Lemma find_root_confined address : find_root memory read info address = find_root memory' read info address.
Proof.
  unfold find_root. rewrite bytes_confined. destruct (bytes memory' read info address RSDP_V1_SIZE) as [prefix|]; cbn [try]; [|done].
  destruct (slice_to prefix 8); [|done]. case_decide; [done|]. destruct (index prefix 15); [|done].
  case_decide; [|done]. rewrite bytes_confined.
  destruct (bytes memory' read info address RSDP_V2_SIZE) as [whole|]; cbn [try]; [|done].
  destruct (read_u32 whole 20); [|done]. case_decide; [done|]. by rewrite bytes_confined.
Qed.

Lemma find_madt_confined root entry_size offsets :
  find_madt memory read info root entry_size offsets = find_madt memory' read info root entry_size offsets.
Proof.
  induction offsets as [|offset offsets IH]; [done|]. cbn [find_madt]. destruct (decide (entry_size = 8)).
  all: destruct (_ root offset); [|done]; case_decide; [done|]; rewrite table_confined;
    destruct (table memory' read info _) as [[t|]|]; cbn [try]; try done;
    destruct (slice_to t 4); [|done]; by rewrite IH.
Qed.

Lemma scan_root_confined root entry_size bsp :
  scan_root memory read info root entry_size bsp = scan_root memory' read info root entry_size bsp.
Proof.
  unfold scan_root. do 2 (case_decide; [done|]). rewrite find_madt_confined.
  destruct (find_madt _ _ _ _ _ _) as [[[address|]|]|]; cbn [try ok_or]; try done. by rewrite table_confined.
Qed.
End confined.

(** ** The topology *)

Lemma topology_cpu cpus topology i :
  CpuTopology.cpus topology = cpus ++ replicate (MAX_CPUS - length cpus) CpuInfo.default ->
  CpuTopology.count topology = length cpus -> CpuTopology.cpu topology i = cpus !! i.
Proof.
  intros Hc Hn. unfold CpuTopology.cpu. rewrite Hc, Hn. destruct (decide (i < length cpus)%nat) as [Hi|Hi].
  - rewrite lookup_app_l by done. by destruct (cpus !! i).
  - rewrite (lookup_ge_None_2 cpus) by lia. by destruct ((cpus ++ _) !! i).
Qed.

Lemma apic_address_page entries : forall address,
  Forall MadtEntry.well_formed entries -> page_address address ->
  page_address (foldl MadtEntry.apic_address address entries).
Proof.
  induction entries as [|e es IH]; intros address Hw Ha; [done|]. apply Forall_cons in Hw as [(_&H5&_) Hw].
  apply IH; [done|]. unfold MadtEntry.apic_address. destruct (decide (MadtEntry.kind e = 5)) as [Hk|Hk]; [apply (H5 Hk)|done].
Qed.

Lemma discover_confined memory memory' read info bsp :
  (forall address, mapped read info address -> memory address = memory' address) ->
  discover memory read info bsp = discover memory' read info bsp.
Proof.
  intros Hagree. unfold discover. destruct (BootInfo.validate info); [|done]. case_decide; [done|].
  rewrite (find_root_confined memory memory') by done.
  destruct (find_root memory' read info _) as [[[a size]|]|]; cbn [try]; try done. case_decide; [done|].
  rewrite (table_confined memory memory') by done. destruct (table memory' read info a) as [[root|]|]; cbn [try]; try done.
  by rewrite (scan_root_confined memory memory').
Qed.

(** C22: discovery never panics, whatever memory and the memory map hold, and it
    accepts exactly the machines whose tables describe a topology: the root
    pointer and the tables lie in ranges of the memory map and sum to zero, the
    root table has the signature that goes with the size of its entries, the
    first table with the processors' signature is a sequence of well formed
    entries, and the topology is that of the enabled processors in their order,
    with the last address of the local APIC. It reads no memory outside the
    ranges of the memory map: two memories that agree on them give one result,
    errors included. *)
Theorem discover_exact memory read info bsp :
  discover memory read info bsp <> Panic
  /\ (forall topology,
        discover memory read info bsp = Ret (Ok topology) <-> tables_describe memory read info bsp topology)
  /\ (forall memory', (forall address, mapped read info address -> memory address = memory' address) ->
        discover memory read info bsp = discover memory' read info bsp).
Proof.
  split_and!; [apply discover_returns|intros; apply discover_Ok|intros; by apply discover_confined].
Qed.

(** C38: a discovered topology has one to four processors, no two with one
    identifier, and a page-aligned address of the local APIC. Its boot index is
    the place of the boot processor when the table lists it; when the table does
    not, discovery succeeds only for the identifier 0 and a table with a place to
    spare, and the index it returns is then the place of no processor. *)
Theorem discovered_topology memory read info bsp topology :
  discover memory read info bsp = Ret (Ok topology) ->
  (1 <= CpuTopology.count topology <= MAX_CPUS)%nat
  /\ page_address (CpuTopology.local_apic_address topology)
  /\ (forall i, is_Some (CpuTopology.cpu topology i) <-> (i < CpuTopology.count topology)%nat)
  /\ (forall i j c c', CpuTopology.cpu topology i = Some c -> CpuTopology.cpu topology j = Some c' ->
        CpuInfo.apic_id c = CpuInfo.apic_id c' -> i = j)
  /\ (forall i c, CpuTopology.cpu topology i = Some c ->
        CpuInfo.apic_id c = bsp <-> i = CpuTopology.bsp_index topology)
  /\ (CpuTopology.cpu topology (CpuTopology.bsp_index topology) = None ->
        bsp = 0 /\ (CpuTopology.count topology < MAX_CPUS)%nat
        /\ CpuTopology.bsp_index topology = CpuTopology.count topology).
Proof.
  intros [_ (a&es&root&count&before&m&after&madt&_&_&_&_&_&_&_&_&_&Ha&entries&_&Hw&[Hnd Hl]&Hne&Hc&Hn&Hb&Hla)]%discover_Ok.
  set (cpus := omap MadtEntry.processor entries) in *.
  assert (Hcpu : forall i, CpuTopology.cpu topology i = cpus !! i) by (intros; by apply topology_cpu).
  assert (Hinj : forall i j c c', cpus !! i = Some c -> cpus !! j = Some c' ->
                   CpuInfo.apic_id c = CpuInfo.apic_id c' -> i = j).
  { intros i j c c' Hi Hj He. eapply NoDup_lookup; [exact Hnd| |]; rewrite list_lookup_fmap;
      [by rewrite Hi|rewrite Hj; cbn; congruence]. }
  repeat setoid_rewrite Hcpu. rewrite Hn, Hla. split_and!; [destruct cpus; [done|cbn; lia]|done| | |done| |].
  - by apply apic_address_page.
  - intros i. by rewrite lookup_lt_is_Some.
  - intros i c Hi. destruct Hb as [Hb|(->&Hnot&Hlt&Hb)].
    + rewrite list_lookup_fmap in Hb. destruct (cpus !! CpuTopology.bsp_index topology) as [c'|] eqn:Hc'; [|done].
      injection Hb as Hb. split; [intros <-; by eapply Hinj|intros ->; congruence].
    + split; [intros Hz|intros ->; apply lookup_lt_Some in Hi; lia]. destruct Hnot.
      apply list_elem_of_fmap. exists c. split; [done|]. by eapply list_elem_of_lookup_2.
  - intros Hnone. destruct Hb as [Hb|(->&Hnot&Hlt&Hb)]; [|done].
    by rewrite list_lookup_fmap, Hnone in Hb.
Qed.

(** ** A machine *)

Module AcpiExample.
Definition with_checksum (at_ : nat) (t : list N) : list N :=
  <[at_ := (256 - sum_by id t mod 256) mod 256]> t.

Definition header (signature : string) (size : N) : list N :=
  text signature ++ to_le_bytes 4 size ++ replicate 28 0.

Definition processor (uid apic_id : N) : list N := [0; 8; uid; apic_id; 1; 0; 0; 0].

(** One processor, with the identifier 1. *)
Definition madt : list N :=
  with_checksum 9 (header "APIC" 64 ++ to_le_bytes 4 0xfee00000 ++ [0; 0; 0; 0] ++ processor 0 1
                   ++ [5; 12; 0; 0] ++ to_le_bytes 8 0xfee01000).

Definition xsdt : list N := with_checksum 9 (header "XSDT" 44 ++ to_le_bytes 8 0x1080).

Definition rsdp : list N :=
  with_checksum 32
    (with_checksum 8 (text "RSD PTR " ++ replicate 7 0 ++ [2; 0; 0; 0; 0])
     ++ to_le_bytes 4 36 ++ to_le_bytes 8 0x1040 ++ [0; 0; 0; 0]).

Definition image : list N := rsdp ++ replicate 28 0 ++ xsdt ++ replicate 20 0 ++ madt.

Definition memory (address : N) : N :=
  if decide (0x1000 <= address) then byte_at image (N.to_nat (address - 0x1000)) else 0.

(** Another memory, which agrees with the first one on its page. *)
Definition memory' (address : N) : N := if decide (address < 0x2000) then memory address else 0xff.

Definition read (address : N) : MemoryMapEntry.t := MemoryMapEntry.mk 9 0x1000 0 1 0.

Definition info : BootInfo.t :=
  BootInfo.mk BOOT_INFO_MAGIC BOOT_INFO_VERSION BootInfo.SIZE (MemoryMapInfo.mk 0x5000 1 40 1)
    (FramebufferInfo.mk 0xe0000000 4096 1 1 1 0) 0x1000 (InitImageInfo.mk 0 0) REALTIME_UNAVAILABLE_NS
    (BootInfo.boot_control BootInfo.new).
End AcpiExample.

(** Discovery succeeds on it, with either memory. *)
Lemma discover_exact_witness :
  discover AcpiExample.memory' AcpiExample.read AcpiExample.info 1
  = Ret (Ok (CpuTopology.mk [CpuInfo.mk 1 0; CpuInfo.default; CpuInfo.default; CpuInfo.default] 1 0 0xfee01000)).
Proof.
  rewrite <-(proj2 (proj2 (discover_exact AcpiExample.memory AcpiExample.read AcpiExample.info 1))).
  - vm_compute. reflexivity.
  - intros address (i&Hi&_&Hs). unfold entry_end, map_entry in Hs.
    cbn [AcpiExample.read MemoryMapEntry.physical_start MemoryMapEntry.page_count] in Hs.
    unfold AcpiExample.memory'. rewrite decide_True by lia. reflexivity.
Defined.

(** The boot processor has the identifier 0, which the table does not list: its
    index is 1, and the only processor has the index 0. *)
Lemma discovered_topology_witness :
  exists topology,
    discover AcpiExample.memory AcpiExample.read AcpiExample.info 0 = Ret (Ok topology)
    /\ CpuTopology.cpu topology (CpuTopology.bsp_index topology) = None
    /\ page_address (CpuTopology.local_apic_address topology).
Proof.
  exists (CpuTopology.mk [CpuInfo.mk 1 0; CpuInfo.default; CpuInfo.default; CpuInfo.default] 1 1 0xfee01000).
  assert (H : discover AcpiExample.memory AcpiExample.read AcpiExample.info 0
    = Ret (Ok (CpuTopology.mk [CpuInfo.mk 1 0; CpuInfo.default; CpuInfo.default; CpuInfo.default] 1 1 0xfee01000)))
    by (vm_compute; reflexivity).
  split; [exact H|]. split; [reflexivity|]. exact (proj1 (proj2 (discovered_topology _ _ _ _ _ H))).
Defined.
