(* ===== verification/Capability.v ===== *)
(** * Permission policy (crates/nagi-capability: model.rs, registry.rs, store.rs,
    evaluator.rs, declaration.rs)

    Grants, the policy document and the evaluator that decides requests. The
    store that keeps the document is an interface, as in the source:
    [PolicyStore] has its operations and [PolicyStoreLaws] what its documentation
    promises. The JSON form of documents and declarations is not modelled. *)

From Stdlib Require Import Ascii String.
From stdpp Require Import prelude gmap.
From S2P Require Import Prelude Scope.

Local Open Scope N_scope.
Local Open Scope nagi_scope.

(** ** Grants *)

Module GrantLifetime.
Inductive t := OneShot | Session (session_id : str) | Persistent.

#[global] Instance eq_dec : EqDecision t.
Proof. solve_decision. Defined.
End GrantLifetime.

Module GrantEffect.
Inductive t := Allow | Deny.

#[global] Instance eq_dec : EqDecision t.
Proof. solve_decision. Defined.
End GrantEffect.

Module GrantSource.
Inductive t := User | System | Policy.

(** [{:?}] *)
Definition debug (self : t) : str :=
  text (match self with User => "User" | System => "System" | Policy => "Policy" end).
End GrantSource.

Module GrantValidationError.
Inductive t :=
| InvalidScope (error : ScopeError.t)
| ExpiryNotAfterGrant
| RevocationBeforeGrant
| ConsumptionBeforeGrant
| UnexpectedConsumption
| InvalidReason.
End GrantValidationError.

Module ActiveGrant.
Inductive t := Active | Revoked | Expired | NotYetValid | Consumed | WrongSession.

#[global] Instance eq_dec : EqDecision t.
Proof. solve_decision. Defined.
End ActiveGrant.

Module EvaluationContext.
Record t := mk { now : N; session_id : option str }.
End EvaluationContext.

(** A text that is not empty, not too long, and without control characters. *)
Definition bad_text (limit : N) (s : str) : Prop := s = [] \/ limit < len s \/ Exists is_control s.

#[global] Instance bad_text_dec limit s : Decision (bad_text limit s).
Proof. unfold bad_text. apply _. Defined.

Definition is_some_and {A} (P : A -> Prop) (o : option A) : Prop :=
  match o with Some x => P x | None => False end.

#[global] Instance is_some_and_dec {A} (P : A -> Prop) `{forall x, Decision (P x)} o : Decision (is_some_and P o).
Proof. destruct o; apply _. Defined.

Module PrincipalKind.
Inductive t := FirstPartyApp | ThirdPartyApp | SystemService | AiMediatedAction | Automation.
End PrincipalKind.

Module PrincipalError.
Inductive t := InvalidMetadata.
End PrincipalError.

Definition validate_optional_metadata (value : option str) : Result unit PrincipalError.t :=
  if decide (is_some_and (bad_text 256) value) then Err PrincipalError.InvalidMetadata else Ok tt.

Module Principal.
Record t := mk {
  id : str;
  kind : PrincipalKind.t;
  publisher_id : option str;
  package_id : option str;
  display_name : option str
}.

Definition validate (self : t) : Result unit PrincipalError.t :=
  let? _ := validate_optional_metadata (publisher_id self) in
  let? _ := validate_optional_metadata (package_id self) in
  let? _ := validate_optional_metadata (display_name self) in
  Ok tt.
End Principal.

Module Grant.
Record t := mk {
  id : N;
  principal : str;
  capability : str;
  effect : GrantEffect.t;
  scope : CapabilityScope.t;
  lifetime : GrantLifetime.t;
  source : GrantSource.t;
  reason : option str;
  granted_at : N;
  expires_at : option N;
  revoked_at : option N;
  consumed_at : option N
}.

Definition set_revoked (self : t) (at_ : N) : t :=
  let '(mk i p c e s l o r g x _ n) := self in mk i p c e s l o r g x (Some at_) n.

Definition set_consumed (self : t) (at_ : N) : t :=
  let '(mk i p c e s l o r g x v _) := self in mk i p c e s l o r g x v (Some at_).

Definition validate (self : t) : Result unit GrantValidationError.t :=
  let? _ := map_err GrantValidationError.InvalidScope (CapabilityScope.validate (scope self)) in
  if decide (is_some_and (fun expiry => expiry <= granted_at self) (expires_at self))
  then Err GrantValidationError.ExpiryNotAfterGrant
  else if decide (is_some_and (fun revoked => revoked < granted_at self) (revoked_at self))
  then Err GrantValidationError.RevocationBeforeGrant
  else if decide (is_some_and (fun consumed => consumed < granted_at self) (consumed_at self))
  then Err GrantValidationError.ConsumptionBeforeGrant
  else if decide (is_Some (consumed_at self)
                  /\ (effect self <> GrantEffect.Allow \/ lifetime self <> GrantLifetime.OneShot))
  then Err GrantValidationError.UnexpectedConsumption
  else if decide (is_some_and (bad_text 512) (reason self)) then Err GrantValidationError.InvalidReason
  else Ok tt.

Definition is_active_at (self : t) (context : EvaluationContext.t) : ActiveGrant.t :=
  if decide (is_Some (revoked_at self)) then ActiveGrant.Revoked
  else if decide (EvaluationContext.now context < granted_at self) then ActiveGrant.NotYetValid
  else if decide (is_some_and (fun expiry => expiry <= EvaluationContext.now context) (expires_at self))
  then ActiveGrant.Expired
  else
    match lifetime self with
    | GrantLifetime.OneShot =>
        if decide (is_Some (consumed_at self)) then ActiveGrant.Consumed else ActiveGrant.Active
    | GrantLifetime.Persistent => ActiveGrant.Active
    | GrantLifetime.Session session_id =>
        if decide (EvaluationContext.session_id context = Some session_id)
        then ActiveGrant.Active else ActiveGrant.WrongSession
    end.
End Grant.

(** ** The registry *)

Module CapabilityDefinition.
Record t := mk { id : str; description : str }.
End CapabilityDefinition.

Module RegistryError.
Inductive t := DuplicateCapability | InvalidDescription.
End RegistryError.

Module CapabilityRegistry.
Definition t := gmap str CapabilityDefinition.t.

Definition contains (self : t) (capability : str) : bool := bool_decide (is_Some (self !! capability)).

Definition register (self : t) (definition : CapabilityDefinition.t) : Result unit RegistryError.t * t :=
  if decide (bad_text 512 (CapabilityDefinition.description definition))
  then (Err RegistryError.InvalidDescription, self)
  else if contains self (CapabilityDefinition.id definition)
  then (Err RegistryError.DuplicateCapability, self)
  else (Ok tt, <[CapabilityDefinition.id definition := definition]> self).
End CapabilityRegistry.

(** ** The policy document *)

Module PolicyStoreError.
Inductive t :=
| Malformed (message : str)
| UnsupportedSchemaVersion (version : N)
| InvalidGrant (error : GrantValidationError.t)
| Unavailable (message : str)
| GrantIdExhausted.
End PolicyStoreError.

Definition POLICY_SCHEMA_VERSION : N := 1.

Module PolicyDocument.
Record t := mk { schema_version : N; next_grant_id : N; grants : list Grant.t }.

Definition new : t := mk POLICY_SCHEMA_VERSION 1 [].

(** The loop of [validate], with [ids] and [maximum_id]; the result is
    [maximum_id]. *)
Fixpoint validate_grants (ids : list N) (maximum_id : N) (grants : list Grant.t)
  : Result N PolicyStoreError.t :=
  match grants with
  | [] => Ok maximum_id
  | grant :: grants =>
      let? _ := map_err PolicyStoreError.InvalidGrant (Grant.validate grant) in
      if decide (Grant.id grant ∈ ids)
      then Err (PolicyStoreError.Malformed (text "persisted policy contains duplicate grant IDs"))
      else validate_grants (Grant.id grant :: ids) (N.max maximum_id (Grant.id grant)) grants
  end.

Definition validate (self : t) : Result unit PolicyStoreError.t :=
  if decide (schema_version self <> POLICY_SCHEMA_VERSION)
  then Err (PolicyStoreError.UnsupportedSchemaVersion (schema_version self))
  else if decide (next_grant_id self = 0)
  then Err (PolicyStoreError.Malformed (text "next_grant_id must be positive"))
  else
    let? maximum_id := validate_grants [] 0 (grants self) in
    if decide (next_grant_id self <= maximum_id)
    then Err (PolicyStoreError.Malformed (text "next_grant_id must be greater than every stored grant ID"))
    else Ok tt.

Definition allocate_grant_id (self : t) : Result N PolicyStoreError.t * t :=
  let id := next_grant_id self in
  match u64_checked_add id 1 with
  | Some next => (Ok id, mk (schema_version self) next (grants self))
  | None => (Err PolicyStoreError.GrantIdExhausted, self)
  end.

Definition push_grant (self : t) (grant : Grant.t) : t :=
  mk (schema_version self) (next_grant_id self) (grants self ++ [grant]).

(** The first grant with the identifier, and where it is. *)
Definition grant_mut (self : t) (id : N) : option (nat * Grant.t) :=
  list_find (fun grant => Grant.id grant = id) (grants self).

Definition set_grant (self : t) (i : nat) (grant : Grant.t) : t :=
  mk (schema_version self) (next_grant_id self) (<[i := grant]> (grants self)).

Definition consume_one_shot (self : t) (id at_ : N) : Result unit PolicyStoreError.t * t :=
  match grant_mut self id with
  | None => (Err (PolicyStoreError.Malformed (text "selected grant disappeared during policy transaction")), self)
  | Some (i, grant) => (Ok tt, set_grant self i (Grant.set_consumed grant at_))
  end.
End PolicyDocument.

(** ** Stores *)

(** An operation returns its result and what it made of the document. *)
Definition operation (T : Type) : Type := PolicyDocument.t -> Result T PolicyStoreError.t * PolicyDocument.t.

Class PolicyStore (S : Type) := {
  transact : forall {T : Type}, S -> operation T -> Result T PolicyStoreError.t * S;
  snapshot : S -> Result PolicyDocument.t PolicyStoreError.t
}.

Module InMemoryPolicyStore.
Definition t := PolicyDocument.t.

Definition transact {T} (self : t) (operation : operation T) : Result T PolicyStoreError.t * t :=
  let '(result, candidate) := operation self in
  match result with
  | Err e => (Err e, self)
  | Ok x =>
      match PolicyDocument.validate candidate with
      | Err e => (Err e, self)
      | Ok _ => (Ok x, candidate)
      end
  end.

Definition snapshot (self : t) : Result PolicyDocument.t PolicyStoreError.t :=
  let? _ := PolicyDocument.validate self in Ok self.

#[global] Instance store : PolicyStore t := {
  Capability.transact := @transact;
  Capability.snapshot := snapshot
}.
End InMemoryPolicyStore.

Module FailingPolicyStore.
Inductive t := failing.

Definition transact {T} (self : t) (_ : operation T) : Result T PolicyStoreError.t * t :=
  (Err (PolicyStoreError.Unavailable (text "test storage failure")), self).

Definition snapshot (self : t) : Result PolicyDocument.t PolicyStoreError.t :=
  Err (PolicyStoreError.Unavailable (text "test storage failure")).

#[global] Instance store : PolicyStore t := {
  Capability.transact := @transact;
  Capability.snapshot := snapshot
}.
End FailingPolicyStore.

(** ** Decisions *)

Module AccessRequest.
Record t := mk { principal : str; capability : str; scope : CapabilityScope.t }.
End AccessRequest.

Module DecisionEffect.
Inductive t := Allow | Deny.
End DecisionEffect.

Module DecisionReason.
Inductive t :=
  AuthorizedByGrant | ExplicitlyDenied | UnknownCapability | InvalidRequest | NoGrant | ScopeMismatch
| Revoked | NotYetValid | Expired | WrongSession | OneShotConsumed | PolicyStoreUnavailable.
End DecisionReason.

Module Decision.
Record t := mk {
  effect : DecisionEffect.t;
  reason : DecisionReason.t;
  grant_id : option N;
  explanation : str
}.

Definition is_allowed (self : t) : bool :=
  match effect self with DecisionEffect.Allow => true | DecisionEffect.Deny => false end.

Definition allow (grant : Grant.t) : t :=
  mk DecisionEffect.Allow DecisionReason.AuthorizedByGrant (Some (Grant.id grant))
    (text "Allowed by active " ++ GrantSource.debug (Grant.source grant) ++ text " grant "
     ++ to_decimal (Grant.id grant) ++ text " for capability " ++ Grant.capability grant ++ text ".").

Definition deny (reason : DecisionReason.t) (explanation : str) : t :=
  mk DecisionEffect.Deny reason None explanation.

Definition deny_by_grant (grant : Grant.t) : t :=
  mk DecisionEffect.Deny DecisionReason.ExplicitlyDenied (Some (Grant.id grant))
    (text "Denied by active " ++ GrantSource.debug (Grant.source grant) ++ text " policy grant "
     ++ to_decimal (Grant.id grant) ++ text " for capability " ++ Grant.capability grant ++ text ".").
End Decision.

Definition lifetime_preference (lifetime : GrantLifetime.t) : N :=
  match lifetime with
  | GrantLifetime.Persistent => 0
  | GrantLifetime.Session _ => 1
  | GrantLifetime.OneShot => 2
  end.

(** The key by which [allows] is sorted, and the order of keys. *)
Definition sort_key (grant : Grant.t) : N * N * N :=
  (CapabilityScope.specificity (Grant.scope grant), lifetime_preference (Grant.lifetime grant), Grant.id grant).

Definition key_le (a b : N * N * N) : Prop :=
  a.1.1 < b.1.1 \/ (a.1.1 = b.1.1 /\ (a.1.2 < b.1.2 \/ (a.1.2 = b.1.2 /\ a.2 <= b.2))).

#[global] Instance key_le_dec a b : Decision (key_le a b).
Proof. unfold key_le. apply _. Defined.

(** [grants.sort_by_key(sort_key)], which keeps the order of equal keys. *)
Fixpoint insert_by_key (grant : Grant.t) (grants : list Grant.t) : list Grant.t :=
  match grants with
  | [] => [grant]
  | other :: rest =>
      if decide (key_le (sort_key grant) (sort_key other)) then grant :: grants
      else other :: insert_by_key grant rest
  end.

Definition sort_by_key (grants : list Grant.t) : list Grant.t := foldr insert_by_key [] grants.

Definition store_failure (error : PolicyStoreError.t) : Decision.t :=
  Decision.deny DecisionReason.PolicyStoreUnavailable
    (text "Denied because the policy store could not be read safely; no permission was granted.").

(** Why no grant of [scoped] allows. *)
Definition inactive_reason (inactive : list ActiveGrant.t) : DecisionReason.t :=
  if decide (ActiveGrant.Revoked ∈ inactive) then DecisionReason.Revoked
  else if decide (ActiveGrant.NotYetValid ∈ inactive) then DecisionReason.NotYetValid
  else if decide (ActiveGrant.Expired ∈ inactive) then DecisionReason.Expired
  else if decide (ActiveGrant.WrongSession ∈ inactive) then DecisionReason.WrongSession
  else if decide (ActiveGrant.Consumed ∈ inactive) then DecisionReason.OneShotConsumed
  else DecisionReason.NoGrant.

Definition inactive_explanation (reason : DecisionReason.t) : str :=
  text (match reason with
        | DecisionReason.Revoked => "Denied because the matching grant was revoked."
        | DecisionReason.NotYetValid => "Denied because the matching grant is not valid yet."
        | DecisionReason.Expired => "Denied because the matching grant has expired."
        | DecisionReason.WrongSession => "Denied because the session grant belongs to a different session."
        | DecisionReason.OneShotConsumed => "Denied because the matching one-shot grant was already consumed."
        | _ => "Denied by default because no active allow grant applies."
        end).

Definition unregistered (capability : str) : str :=
  text "Denied because capability " ++ capability ++ text " is not registered.".

Definition evaluate (registry : CapabilityRegistry.t) (document : PolicyDocument.t)
  (request : AccessRequest.t) (context : EvaluationContext.t) : Decision.t * option N :=
  if CapabilityRegistry.contains registry (AccessRequest.capability request) then
    let relevant := filter (fun grant => Grant.principal grant = AccessRequest.principal request
                                         /\ Grant.capability grant = AccessRequest.capability request)
                      (PolicyDocument.grants document) in
    if decide (relevant = []) then
      (Decision.deny DecisionReason.NoGrant
         (text "Denied by default because this principal has no grant for the capability."), None)
    else
      let scoped := filter (fun grant => CapabilityScope.covers (Grant.scope grant) (AccessRequest.scope request) = true)
                      relevant in
      if decide (scoped = []) then
        (Decision.deny DecisionReason.ScopeMismatch
           (text "Denied because no grant covers the requested resource scope."), None)
      else
        match list_find (fun grant => Grant.effect grant = GrantEffect.Deny
                                      /\ Grant.is_active_at grant context = ActiveGrant.Active) scoped with
        | Some (_, denial) => (Decision.deny_by_grant denial, None)
        | None =>
            let allows := sort_by_key
              (filter (fun grant => Grant.effect grant = GrantEffect.Allow
                                    /\ Grant.is_active_at grant context = ActiveGrant.Active) scoped) in
            match allows with
            | allow :: _ =>
                (Decision.allow allow,
                 if decide (Grant.lifetime allow = GrantLifetime.OneShot) then Some (Grant.id allow) else None)
            | [] =>
                let inactive := (fun grant => Grant.is_active_at grant context)
                  <$> filter (fun grant => Grant.effect grant = GrantEffect.Allow) scoped in
                let reason := inactive_reason inactive in
                (Decision.deny reason (inactive_explanation reason), None)
            end
        end
  else
    (Decision.deny DecisionReason.UnknownCapability (unregistered (AccessRequest.capability request)), None).

(** ** The evaluator *)

Module GrantParameters.
Record t := mk {
  effect : GrantEffect.t;
  lifetime : GrantLifetime.t;
  source : GrantSource.t;
  reason : option str;
  granted_at : N;
  expires_at : option N
}.
End GrantParameters.

(** [error.to_string()] *)
Definition display_scope_error (error : ScopeError.t) : str :=
  text (match error with
        | ScopeError.InvalidFilesystemPath =>
            "filesystem paths must be normalized absolute logical paths without dot segments"
        | ScopeError.InvalidNetworkOrigin =>
            "network origins must be canonical lowercase HTTP(S) origins without credentials or path"
        | ScopeError.InvalidScopeToken =>
            "scope values must be non-empty, bounded, and contain no wildcard or control characters"
        end).

Module PermissionEvaluator.
Section evaluator.
Context {S : Type} `{PolicyStore S}.

Record t := mk { registry : CapabilityRegistry.t; store : S }.

(** The transaction of [insert_grant]. *)
Definition add_grant (request : AccessRequest.t) (parameters : GrantParameters.t) : operation N :=
  fun document =>
    let '(allocated, document) := PolicyDocument.allocate_grant_id document in
    match allocated with
    | Err e => (Err e, document)
    | Ok id =>
        let grant := Grant.mk id (AccessRequest.principal request) (AccessRequest.capability request)
          (GrantParameters.effect parameters) (AccessRequest.scope request)
          (GrantParameters.lifetime parameters) (GrantParameters.source parameters)
          (GrantParameters.reason parameters) (GrantParameters.granted_at parameters)
          (GrantParameters.expires_at parameters) None None in
        match Grant.validate grant with
        | Err e => (Err (PolicyStoreError.InvalidGrant e), document)
        | Ok _ => (Ok id, PolicyDocument.push_grant document grant)
        end
    end.

Definition insert_grant (self : t) (request : AccessRequest.t) (parameters : GrantParameters.t)
  : Result N PolicyStoreError.t * t :=
  match CapabilityScope.validate (AccessRequest.scope request) with
  | Err error => (Err (PolicyStoreError.Malformed (display_scope_error error)), self)
  | Ok _ =>
      if negb (CapabilityRegistry.contains (registry self) (AccessRequest.capability request))
      then (Err (PolicyStoreError.Malformed (text "cannot grant an unregistered capability")), self)
      else if decide (GrantParameters.effect parameters = GrantEffect.Deny
                      /\ GrantParameters.lifetime parameters = GrantLifetime.OneShot)
      then (Err (PolicyStoreError.Malformed (text "one-shot lifetime is reserved for allow grants")), self)
      else
        let '(result, store) := transact (store self) (add_grant request parameters) in
        (result, mk (registry self) store)
  end.

Definition grant (self : t) (request : AccessRequest.t) (lifetime : GrantLifetime.t) (source : GrantSource.t)
  (reason : option str) (granted_at : N) (expires_at : option N) : Result N PolicyStoreError.t * t :=
  insert_grant self request
    (GrantParameters.mk GrantEffect.Allow lifetime source reason granted_at expires_at).

Definition deny (self : t) (request : AccessRequest.t) (lifetime : GrantLifetime.t) (source : GrantSource.t)
  (reason : option str) (granted_at : N) (expires_at : option N) : Result N PolicyStoreError.t * t :=
  insert_grant self request
    (GrantParameters.mk GrantEffect.Deny lifetime source reason granted_at expires_at).

(** The transactions of [revoke] and [check]. *)
Definition revoke_grant (grant_id revoked_at : N) : operation bool := fun document =>
  match PolicyDocument.grant_mut document grant_id with
  | None => (Ok false, document)
  | Some (i, grant) =>
      if decide (is_Some (Grant.revoked_at grant) \/ revoked_at < Grant.granted_at grant)
      then (Ok false, document)
      else (Ok true, PolicyDocument.set_grant document i (Grant.set_revoked grant revoked_at))
  end.

Definition revoke (self : t) (grant_id revoked_at : N) : Result bool PolicyStoreError.t * t :=
  let '(result, store) := transact (store self) (revoke_grant grant_id revoked_at) in
  (result, mk (registry self) store).

Definition validate_request (self : t) (request : AccessRequest.t) : option Decision.t :=
  match CapabilityScope.validate (AccessRequest.scope request) with
  | Err _ =>
      Some (Decision.deny DecisionReason.InvalidRequest
              (text "Denied because the requested resource scope is malformed."))
  | Ok _ =>
      if negb (CapabilityRegistry.contains (registry self) (AccessRequest.capability request))
      then Some (Decision.deny DecisionReason.UnknownCapability
                   (unregistered (AccessRequest.capability request)))
      else None
  end.

Definition decide_and_consume (registry : CapabilityRegistry.t) (request : AccessRequest.t)
  (context : EvaluationContext.t) : operation Decision.t := fun document =>
  match PolicyDocument.validate document with
  | Err e => (Err e, document)
  | Ok _ =>
      let '(decision, consume) := evaluate registry document request context in
      match consume with
      | None => (Ok decision, document)
      | Some grant_id =>
          let '(consumed, document) :=
            PolicyDocument.consume_one_shot document grant_id (EvaluationContext.now context) in
          match consumed with
          | Err e => (Err e, document)
          | Ok _ => (Ok decision, document)
          end
      end
  end.

Definition check (self : t) (request : AccessRequest.t) (context : EvaluationContext.t) : Decision.t * t :=
  match validate_request self request with
  | Some decision => (decision, self)
  | None =>
      let '(result, store) := transact (store self) (decide_and_consume (registry self) request context) in
      (match result with Ok decision => decision | Err e => store_failure e end, mk (registry self) store)
  end.

Definition explain (self : t) (request : AccessRequest.t) (context : EvaluationContext.t) : Decision.t :=
  match validate_request self request with
  | Some decision => decision
  | None =>
      match snapshot (store self) with
      | Err e => store_failure e
      | Ok document =>
          match PolicyDocument.validate document with
          | Err e => store_failure e
          | Ok _ => (evaluate (registry self) document request context).1
          end
      end
  end.

Definition list_effective_grants (self : t) (principal : str) (context : EvaluationContext.t)
  : Result (list Grant.t) PolicyStoreError.t :=
  let? document := snapshot (store self) in
  let? _ := PolicyDocument.validate document in
  Ok (filter (fun grant => Grant.principal grant = principal
                           /\ CapabilityRegistry.contains (registry self) (Grant.capability grant) = true
                           /\ Grant.is_active_at grant context = ActiveGrant.Active)
        (PolicyDocument.grants document)).
End evaluator.
Arguments t : clear implicits.
End PermissionEvaluator.

(** ** Declarations *)

Module DeclarationError.
Inductive t :=
| UnsupportedVersion (version : N)
| InvalidScope (message : str)
| InvalidPurpose.
End DeclarationError.

Module DeclaredCapability.
Record t := mk { capability : str; scope : option CapabilityScope.t; purpose : option str }.

Definition validate (self : t) : Result unit DeclarationError.t :=
  let? _ := match scope self with
            | Some scope => map_err (fun e => DeclarationError.InvalidScope (display_scope_error e))
                              (CapabilityScope.validate scope)
            | None => Ok tt
            end in
  if decide (is_some_and (bad_text 512) (purpose self)) then Err DeclarationError.InvalidPurpose
  else Ok tt.
End DeclaredCapability.

Module CapabilityDeclaration.
Record t := mk { schema_version : N; requested_capabilities : list DeclaredCapability.t }.

Fixpoint validate_all (requested : list DeclaredCapability.t) : Result unit DeclarationError.t :=
  match requested with
  | [] => Ok tt
  | capability :: requested =>
      let? _ := DeclaredCapability.validate capability in validate_all requested
  end.

Definition validate (self : t) : Result unit DeclarationError.t :=
  if decide (schema_version self <> 1) then Err (DeclarationError.UnsupportedVersion (schema_version self))
  else validate_all (requested_capabilities self).
End CapabilityDeclaration.

(** A [BoundCapabilityRequest] has the fields of an [AccessRequest]. *)
Definition bind_declaration (declaration : CapabilityDeclaration.t) (trusted_principal : str)
  : Result (list AccessRequest.t) DeclarationError.t :=
  let? _ := CapabilityDeclaration.validate declaration in
  Ok ((fun requested => AccessRequest.mk trusted_principal (DeclaredCapability.capability requested)
         (default CapabilityScope.Unscoped (DeclaredCapability.scope requested)))
      <$> CapabilityDeclaration.requested_capabilities declaration).

(** ** What a store promises *)

(** A transaction that succeeds is committed whole, and one that fails is not
    committed at all. Only a [faulty] store refuses a transaction that would
    succeed and leave a valid document. *)
Class PolicyStoreLaws (S : Type) `{PolicyStore S} := {
  document : S -> PolicyDocument.t;
  faulty : S -> Prop;
  transact_law : forall T (s : S) (op : operation T),
    let '(result, s') := transact s op in
    (faulty s' -> faulty s)
    /\ match result with
       | Ok x => op (document s) = (Ok x, document s')
       | Err _ => document s' = document s
                  /\ (faulty s \/ match op (document s) with
                                  | (Ok _, d) => PolicyDocument.validate d <> Ok tt
                                  | (Err _, _) => True
                                  end)
       end;
  snapshot_law : forall s,
    match snapshot s with
    | Ok d => d = document s
    | Err _ => faulty s \/ PolicyDocument.validate (document s) <> Ok tt
    end
}.

#[global] Instance in_memory_laws : PolicyStoreLaws InMemoryPolicyStore.t.
Proof.
  refine {| document := fun s : InMemoryPolicyStore.t => s; faulty := fun _ => False |}.
  - intros T s op. cbn. unfold InMemoryPolicyStore.transact. destruct (op s) as [[x|e] d]; [|by split; auto].
    by destruct (PolicyDocument.validate d) as [[]|e]; auto.
  - intros s. cbn. unfold InMemoryPolicyStore.snapshot. by destruct (PolicyDocument.validate s) as [[]|]; auto.
Defined.

#[global] Instance failing_laws : PolicyStoreLaws FailingPolicyStore.t.
Proof.
  refine {| document := fun _ : FailingPolicyStore.t => PolicyDocument.new; faulty := fun _ => True |}.
  - intros T s op. cbn. auto.
  - intros s. cbn. by left.
Defined.

(** ** What a decision should be *)

Definition matching (request : AccessRequest.t) (g : Grant.t) : Prop :=
  Grant.principal g = AccessRequest.principal request
  /\ Grant.capability g = AccessRequest.capability request
  /\ CapabilityScope.covers (Grant.scope g) (AccessRequest.scope request) = true.

Definition active (context : EvaluationContext.t) (g : Grant.t) : Prop :=
  Grant.is_active_at g context = ActiveGrant.Active.

(** An active grant of [d] that denies the request, one that allows it. *)
Definition denying (d : PolicyDocument.t) (request : AccessRequest.t) (context : EvaluationContext.t)
  (g : Grant.t) : Prop :=
  g ∈ PolicyDocument.grants d /\ matching request g /\ Grant.effect g = GrantEffect.Deny /\ active context g.

Definition allowing (d : PolicyDocument.t) (request : AccessRequest.t) (context : EvaluationContext.t)
  (g : Grant.t) : Prop :=
  g ∈ PolicyDocument.grants d /\ matching request g /\ Grant.effect g = GrantEffect.Allow /\ active context g.

(** The document [d] with the grant [id] changed by [f]. *)
Definition update_grant (d : PolicyDocument.t) (id : N) (f : Grant.t -> Grant.t) : PolicyDocument.t :=
  PolicyDocument.mk (PolicyDocument.schema_version d) (PolicyDocument.next_grant_id d)
    ((fun g => if decide (Grant.id g = id) then f g else g) <$> PolicyDocument.grants d).

(** The document [d] once the grant [g] is used at [now]. *)
Definition used (d : PolicyDocument.t) (g : Grant.t) (now : N) : PolicyDocument.t :=
  if decide (Grant.lifetime g = GrantLifetime.OneShot)
  then update_grant d (Grant.id g) (fun g' => Grant.set_consumed g' now) else d.

(** ** Runs of the evaluator *)

Module Call.
Inductive t :=
| Grant (request : AccessRequest.t) (lifetime : GrantLifetime.t) (source : GrantSource.t) (reason : option str)
    (granted_at : N) (expires_at : option N)
| Deny (request : AccessRequest.t) (lifetime : GrantLifetime.t) (source : GrantSource.t) (reason : option str)
    (granted_at : N) (expires_at : option N)
| Revoke (grant_id revoked_at : N)
| Check (request : AccessRequest.t) (context : EvaluationContext.t)
| Explain (request : AccessRequest.t) (context : EvaluationContext.t).
End Call.

Module Outcome.
Inductive t :=
| Issued (result : Result N PolicyStoreError.t)
| Revoked (result : Result bool PolicyStoreError.t)
| Checked (decision : Decision.t)
| Explained (decision : Decision.t).
End Outcome.

Section runs.
Context {S : Type} `{PolicyStore S}.

Definition call (self : PermissionEvaluator.t S) (c : Call.t) : Outcome.t * PermissionEvaluator.t S :=
  match c with
  | Call.Grant request lifetime source reason granted_at expires_at =>
      let '(r, self) := PermissionEvaluator.grant self request lifetime source reason granted_at expires_at in
      (Outcome.Issued r, self)
  | Call.Deny request lifetime source reason granted_at expires_at =>
      let '(r, self) := PermissionEvaluator.deny self request lifetime source reason granted_at expires_at in
      (Outcome.Issued r, self)
  | Call.Revoke grant_id revoked_at =>
      let '(r, self) := PermissionEvaluator.revoke self grant_id revoked_at in (Outcome.Revoked r, self)
  | Call.Check request context =>
      let '(d, self) := PermissionEvaluator.check self request context in (Outcome.Checked d, self)
  | Call.Explain request context => (Outcome.Explained (PermissionEvaluator.explain self request context), self)
  end.

Fixpoint calls (self : PermissionEvaluator.t S) (cs : list Call.t) : list Outcome.t * PermissionEvaluator.t S :=
  match cs with
  | [] => ([], self)
  | c :: cs =>
      let '(o, self) := call self c in
      let '(os, self) := calls self cs in
      (o :: os, self)
  end.
End runs.

(** The check that ended in [o] was allowed by the grant [id]. *)
Definition authorizes (id : N) (o : Outcome.t) : bool :=
  match o with
  | Outcome.Checked d => Decision.is_allowed d && bool_decide (Decision.grant_id d = Some id)
  | _ => false
  end.

Definition issued (o : Outcome.t) : option N :=
  match o with Outcome.Issued (Ok id) => Some id | _ => None end.

(** [c] is a grant of [id] with the principal and capability of [request], for
    a scope that covers its scope. *)
Definition granted_by (request : AccessRequest.t) (id : N) (c : Call.t) (o : Outcome.t) : Prop :=
  exists from lifetime source reason granted_at expires_at,
    c = Call.Grant from lifetime source reason granted_at expires_at
    /\ o = Outcome.Issued (Ok id)
    /\ AccessRequest.principal from = AccessRequest.principal request
    /\ AccessRequest.capability from = AccessRequest.capability request
    /\ CapabilityScope.covers (AccessRequest.scope from) (AccessRequest.scope request) = true.

(** [g'] is [g] at a later time. *)
Definition later (g g' : Grant.t) : Prop :=
  Grant.id g' = Grant.id g /\ Grant.principal g' = Grant.principal g
  /\ Grant.capability g' = Grant.capability g /\ Grant.effect g' = Grant.effect g
  /\ Grant.scope g' = Grant.scope g /\ Grant.lifetime g' = Grant.lifetime g
  /\ (is_Some (Grant.revoked_at g) -> is_Some (Grant.revoked_at g'))
  /\ (is_Some (Grant.consumed_at g) -> is_Some (Grant.consumed_at g')).

(** Every grant of [d] is kept in [d'], and the other grants of [d'] are [fresh]. *)
Definition evolves (fresh : Grant.t -> Prop) (d d' : PolicyDocument.t) : Prop :=
  (forall g, g ∈ PolicyDocument.grants d -> exists g', g' ∈ PolicyDocument.grants d' /\ later g g')
  /\ (forall g', g' ∈ PolicyDocument.grants d' ->
        (exists g, g ∈ PolicyDocument.grants d /\ later g g') \/ fresh g').

(** The grant that [insert_grant] adds, and when it does. *)
Definition new_grant (id : N) (request : AccessRequest.t) (parameters : GrantParameters.t) : Grant.t :=
  Grant.mk id (AccessRequest.principal request) (AccessRequest.capability request)
    (GrantParameters.effect parameters) (AccessRequest.scope request)
    (GrantParameters.lifetime parameters) (GrantParameters.source parameters)
    (GrantParameters.reason parameters) (GrantParameters.granted_at parameters)
    (GrantParameters.expires_at parameters) None None.

Definition acceptable (registry : CapabilityRegistry.t) (d : PolicyDocument.t) (request : AccessRequest.t)
  (parameters : GrantParameters.t) : Prop :=
  CapabilityScope.validate (AccessRequest.scope request) = Ok tt
  /\ CapabilityRegistry.contains registry (AccessRequest.capability request) = true
  /\ ~ (GrantParameters.effect parameters = GrantEffect.Deny
        /\ GrantParameters.lifetime parameters = GrantLifetime.OneShot)
  /\ PolicyDocument.next_grant_id d < U64_MAX
  /\ ~ is_some_and (fun expiry => expiry <= GrantParameters.granted_at parameters)
        (GrantParameters.expires_at parameters)
  /\ ~ is_some_and (bad_text 512) (GrantParameters.reason parameters).

(** The times and sessions a new grant is for. *)
Definition in_force (parameters : GrantParameters.t) (context : EvaluationContext.t) : Prop :=
  GrantParameters.granted_at parameters <= EvaluationContext.now context
  /\ ~ is_some_and (fun expiry => expiry <= EvaluationContext.now context) (GrantParameters.expires_at parameters)
  /\ forall session, GrantParameters.lifetime parameters = GrantLifetime.Session session ->
       EvaluationContext.session_id context = Some session.

(** [g] is the grant that the call [c] issued. *)
Definition created (c : Call.t) (o : Outcome.t) (g : Grant.t) : Prop :=
  match c, o with
  | Call.Grant request lifetime source reason granted_at expires_at, Outcome.Issued (Ok id) =>
      g = new_grant id request
            (GrantParameters.mk GrantEffect.Allow lifetime source reason granted_at expires_at)
  | Call.Deny request lifetime source reason granted_at expires_at, Outcome.Issued (Ok id) =>
      g = new_grant id request
            (GrantParameters.mk GrantEffect.Deny lifetime source reason granted_at expires_at)
  | _, _ => False
  end.

(** [g] is a grant that one of the calls [cs] issued, at a later time. *)
Definition issued_by (cs : list Call.t) (os : list Outcome.t) (g : Grant.t) : Prop :=
  exists k c o g0, cs !! k = Some c /\ os !! k = Some o /\ created c o g0 /\ later g0 g.

(** *** Valid documents *)

Record document_ok (d : PolicyDocument.t) : Prop := {
  document_schema : PolicyDocument.schema_version d = POLICY_SCHEMA_VERSION;
  document_next : PolicyDocument.next_grant_id d <> 0;
  document_grants : Forall (fun g => Grant.validate g = Ok tt) (PolicyDocument.grants d);
  document_ids : NoDup (Grant.id <$> PolicyDocument.grants d);
  document_fresh : Forall (fun g => Grant.id g < PolicyDocument.next_grant_id d) (PolicyDocument.grants d)
}.

Lemma validate_grants_spec gs : forall ids maximum,
  match PolicyDocument.validate_grants ids maximum gs with
  | Ok m => Forall (fun g => Grant.validate g = Ok tt) gs /\ NoDup (Grant.id <$> gs)
            /\ Forall (fun g => Grant.id g ∉ ids) gs
            /\ maximum <= m /\ Forall (fun g => Grant.id g <= m) gs
            /\ (forall n, maximum < n -> Forall (fun g => Grant.id g < n) gs -> m < n)
  | Err _ => ~ (Forall (fun g => Grant.validate g = Ok tt) gs /\ NoDup (Grant.id <$> gs)
                /\ Forall (fun g => Grant.id g ∉ ids) gs)
  end.
Proof.
  induction gs as [|g gs IH]; intros ids maximum; cbn [PolicyDocument.validate_grants].
  { split_and!; auto using NoDup_nil_2; lia. }
  destruct (Grant.validate g) as [[]|e] eqn:Hg; cbn [map_err].
  2: { rewrite Forall_cons, Hg. naive_solver. }
  case_decide as Hid; [rewrite !Forall_cons; naive_solver|].
  specialize (IH (Grant.id g :: ids) (N.max maximum (Grant.id g))).
  assert (Hsplit : Forall (fun g' => Grant.id g' ∉ Grant.id g :: ids) gs
    <-> (Grant.id g ∉ (Grant.id <$> gs)) /\ Forall (fun g' => Grant.id g' ∉ ids) gs).
  { rewrite !Forall_forall. setoid_rewrite not_elem_of_cons. split.
    - intros Hall. split; [|naive_solver]. intros (g'&Heq&Hin)%list_elem_of_fmap. by destruct (Hall g' Hin).
    - intros [Hn Hall] g' Hin. split; [|by apply Hall]. intros Heq. apply Hn. rewrite <-Heq.
      by apply list_elem_of_fmap_2. }
  rewrite fmap_cons. destruct (PolicyDocument.validate_grants _ _ gs) as [m|e].
  - destruct IH as (H1&H2&H3&H4&H5&H6). apply Hsplit in H3 as [H3 H3'].
    split_and!; [by constructor|by constructor|by constructor|lia|constructor; [lia|done]|].
    intros n Hn [Hg' Hgs]%Forall_cons. apply H6; [lia|done].
  - rewrite !Forall_cons, NoDup_cons. intros ((_&H1)&(Hn&H2)&(_&H3)). apply IH. tauto.
Qed.

Lemma validate_document d : PolicyDocument.validate d = Ok tt <-> document_ok d.
Proof.
  unfold PolicyDocument.validate. pose proof (validate_grants_spec (PolicyDocument.grants d) [] 0) as Hspec.
  assert (Hnil : Forall (fun g => Grant.id g ∉ []) (PolicyDocument.grants d))
    by (apply Forall_forall; intros; apply not_elem_of_nil).
  split.
  - case_decide; [done|]. case_decide; [done|]. destruct (PolicyDocument.validate_grants _ _ _) as [m|]; [|done].
    case_decide as Hm; [done|]. intros _. destruct Hspec as (H1&H2&_&_&H5&_).
    split; [done|done|done|done|]. eapply Forall_impl; [exact H5|]. cbn. lia.
  - intros [Hs Hn Hg Hi Hf]. rewrite decide_False by tauto. rewrite decide_False by done.
    destruct (PolicyDocument.validate_grants _ _ _) as [m|]; [|tauto].
    destruct Hspec as (_&_&_&_&_&H6). rewrite decide_False; [done|]. apply N.nle_gt. apply H6; [lia|done].
Qed.

Lemma set_by_id (f : Grant.t -> Grant.t) gs i g :
  NoDup (Grant.id <$> gs) -> gs !! i = Some g ->
  <[i := f g]> gs = (fun g' => if decide (Grant.id g' = Grant.id g) then f g' else g') <$> gs.
Proof.
  intros Hnd Hi. apply list_eq. intros j. rewrite list_lookup_fmap.
  destruct (decide (i = j)) as [<-|Hij].
  { rewrite list_lookup_insert_eq by (by eapply lookup_lt_Some). rewrite Hi. cbn. by rewrite decide_True. }
  rewrite list_lookup_insert_ne by done. destruct (gs !! j) as [g'|] eqn:Hj; [|done]. cbn.
  rewrite decide_False; [done|]. intros Heq. apply Hij.
  apply (NoDup_lookup _ i j (Grant.id g) Hnd); rewrite list_lookup_fmap; [by rewrite Hi|by rewrite Hj, <-Heq].
Qed.

Lemma grant_mut_spec d id : document_ok d ->
  match PolicyDocument.grant_mut d id with
  | Some (i, g) => g ∈ PolicyDocument.grants d /\ Grant.id g = id
                   /\ forall f, PolicyDocument.set_grant d i (f g) = update_grant d id f
  | None => forall g, g ∈ PolicyDocument.grants d -> Grant.id g <> id
  end.
Proof.
  intros Hd. unfold PolicyDocument.grant_mut. destruct (list_find _ _) as [[i g]|] eqn:Hf.
  - apply list_find_Some in Hf as (Hi&<-&_). split; [by eapply list_elem_of_lookup_2|]. split; [done|].
    intros f. unfold PolicyDocument.set_grant, update_grant. f_equal. apply set_by_id; [apply Hd|done].
  - intros g Hg. by eapply list_find_None, Forall_forall in Hf.
Qed.

Lemma update_grant_ok d id f :
  document_ok d -> (forall g, Grant.id (f g) = Grant.id g) ->
  (forall g, g ∈ PolicyDocument.grants d -> Grant.id g = id -> Grant.validate (f g) = Ok tt) ->
  document_ok (update_grant d id f).
Proof.
  intros [Hs Hn Hg Hi Hf] Hid Hval.
  assert (Hids : forall g, Grant.id (if decide (Grant.id g = id) then f g else g) = Grant.id g)
    by (intros g; by case_decide).
  split; cbn; [done|done| | |].
  - rewrite Forall_fmap. apply Forall_forall. intros g Hin. cbn. case_decide; [by apply Hval|].
    by eapply Forall_forall in Hg.
  - rewrite <-list_fmap_compose. erewrite list_fmap_ext; [exact Hi|]. intros. apply Hids.
  - rewrite Forall_fmap. eapply Forall_impl; [exact Hf|]. intros g. cbn. by rewrite Hids.
Qed.

Lemma validate_grant g : Grant.validate g = Ok tt <->
  CapabilityScope.validate (Grant.scope g) = Ok tt
  /\ ~ is_some_and (fun expiry => expiry <= Grant.granted_at g) (Grant.expires_at g)
  /\ ~ is_some_and (fun revoked => revoked < Grant.granted_at g) (Grant.revoked_at g)
  /\ ~ is_some_and (fun consumed => consumed < Grant.granted_at g) (Grant.consumed_at g)
  /\ ~ (is_Some (Grant.consumed_at g)
        /\ (Grant.effect g <> GrantEffect.Allow \/ Grant.lifetime g <> GrantLifetime.OneShot))
  /\ ~ is_some_and (bad_text 512) (Grant.reason g).
Proof.
  unfold Grant.validate. destruct (CapabilityScope.validate _) as [[]|]; cbn [map_err]; [|naive_solver].
  repeat (case_decide; [split; [done|tauto]|]). tauto.
Qed.

Lemma consumed_valid g now :
  Grant.validate g = Ok tt -> Grant.effect g = GrantEffect.Allow ->
  Grant.lifetime g = GrantLifetime.OneShot -> Grant.granted_at g <= now ->
  Grant.validate (Grant.set_consumed g now) = Ok tt.
Proof.
  rewrite !validate_grant. destruct g; cbn. intros (?&?&?&?&?&?) -> -> Hnow. split_and!; try done; [lia|tauto].
Qed.

Lemma revoked_valid g at_ :
  Grant.validate g = Ok tt -> Grant.granted_at g <= at_ -> Grant.validate (Grant.set_revoked g at_) = Ok tt.
Proof.
  rewrite !validate_grant. destruct g; cbn. intros (?&?&?&?&?&?) Hnow. split_and!; try done; lia.
Qed.

(** *** The order of the grants that allow *)

Lemma insert_by_key_elem g gs y : y ∈ insert_by_key g gs <-> y = g \/ y ∈ gs.
Proof. induction gs as [|o gs IH]; cbn; [set_solver|]. case_decide; set_solver. Qed.

Lemma sort_by_key_elem gs y : y ∈ sort_by_key gs <-> y ∈ gs.
Proof. induction gs as [|g gs IH]; cbn; [done|]. rewrite insert_by_key_elem. set_solver. Qed.

Lemma key_le_trans a b c : key_le a b -> key_le b c -> key_le a c.
Proof. unfold key_le. lia. Qed.

Lemma key_le_total a b : ~ key_le a b -> key_le b a.
Proof. unfold key_le. lia. Qed.

Lemma key_le_refl a : key_le a a.
Proof. unfold key_le. lia. Qed.

(** The head of the sorted list has the least key. *)
Lemma sort_by_key_head gs x rest : sort_by_key gs = x :: rest ->
  x ∈ gs /\ forall y, y ∈ gs -> key_le (sort_key x) (sort_key y).
Proof.
  intros Hs. split; [apply sort_by_key_elem; rewrite Hs; by left|]. intros y Hy%sort_by_key_elem. revert x rest Hs y Hy.
  unfold sort_by_key. induction gs as [|g gs IH]; cbn; [done|]. fold (sort_by_key gs) in *.
  intros x rest Hs y Hy%insert_by_key_elem.
  destruct (sort_by_key gs) as [|o r] eqn:Hgs; cbn in Hs.
  { injection Hs as <- <-. destruct Hy as [-> | []%not_elem_of_nil]. apply key_le_refl. }
  specialize (IH o r eq_refl). case_decide as Hle; injection Hs as <- <-.
  - destruct Hy as [-> |Hy]; [apply key_le_refl|]. eapply key_le_trans; [exact Hle|]. by apply IH.
  - destruct Hy as [-> |Hy]; [by apply key_le_total|by apply IH].
Qed.

(** *** The decision *)

(** A decision allows when no active grant denies and an active grant allows:
    it cites the preferred of these, and asks to consume it when it is one-shot. *)
Lemma evaluate_spec registry d request context :
  let '(decision, consume) := evaluate registry d request context in
  if Decision.is_allowed decision
  then CapabilityRegistry.contains registry (AccessRequest.capability request) = true
       /\ (forall g, ~ denying d request context g)
       /\ exists g, allowing d request context g /\ decision = Decision.allow g
          /\ consume = (if decide (Grant.lifetime g = GrantLifetime.OneShot) then Some (Grant.id g) else None)
          /\ forall g', allowing d request context g' -> key_le (sort_key g) (sort_key g')
  else consume = None
       /\ (CapabilityRegistry.contains registry (AccessRequest.capability request) = false
           \/ (exists g, denying d request context g) \/ forall g, ~ allowing d request context g).
Proof.
  unfold evaluate, denying, allowing, matching, active.
  destruct (CapabilityRegistry.contains _ _); [|by cbn; auto].
  set (relevant := filter _ (PolicyDocument.grants d)).
  case_decide as Hrel.
  { cbn. split; [done|]. right. right. intros g (Hg&(?&?&_)&_). apply (not_elem_of_nil g). rewrite <-Hrel.
    by apply list_elem_of_filter. }
  set (scoped := filter _ relevant).
  assert (Hscoped : forall g, g ∈ scoped <-> g ∈ PolicyDocument.grants d /\ matching request g).
  { intros g. unfold scoped, relevant, matching. rewrite !list_elem_of_filter. tauto. }
  unfold matching in Hscoped. clearbody scoped. clear Hrel relevant.
  case_decide as Hnil.
  { cbn. split; [done|]. right. right. intros g (Hg&Hm&_). apply (not_elem_of_nil g). rewrite <-Hnil.
    by apply Hscoped. }
  destruct (list_find _ scoped) as [[i g]|] eqn:Hf.
  { apply list_find_Some in Hf as (Hi&(He&Ha)&_). cbn. split; [done|]. right. left. exists g.
    apply list_elem_of_lookup_2, Hscoped in Hi. tauto. }
  apply list_find_None in Hf. rewrite Forall_forall in Hf.
  set (allows := filter _ scoped).
  assert (Hallows : forall g, g ∈ allows <-> allowing d request context g).
  { intros g. unfold allows, allowing. rewrite list_elem_of_filter, Hscoped. unfold matching, active. tauto. }
  unfold allowing, matching, active in Hallows. clearbody allows.
  destruct (sort_by_key allows) as [|g rest] eqn:Hsort.
  - cbn. split; [done|]. right. right. intros g Hg%Hallows%sort_by_key_elem. rewrite Hsort in Hg.
    by apply not_elem_of_nil in Hg.
  - apply sort_by_key_head in Hsort as [Hg Hmin]. cbn. split; [done|]. split.
    { intros g' (Hg'&Hm&Hd). apply (Hf g'); [by apply Hscoped|done]. }
    exists g. split; [by apply Hallows|]. split; [done|]. split; [done|]. intros g' Hg'. by apply Hmin, Hallows.
Qed.

Lemma active_inv context g : active context g ->
  Grant.revoked_at g = None /\ Grant.granted_at g <= EvaluationContext.now context
  /\ (Grant.lifetime g = GrantLifetime.OneShot -> Grant.consumed_at g = None).
Proof.
  unfold active, Grant.is_active_at. case_decide as Hr; [done|]. case_decide as Hn; [done|]. case_decide; [done|].
  intros Hl. split; [by apply eq_None_not_Some|]. split; [lia|]. intros Heq. rewrite Heq in Hl.
  case_decide as Hc; [done|]. by apply eq_None_not_Some.
Qed.

Lemma set_consumed_id g now : Grant.id (Grant.set_consumed g now) = Grant.id g.
Proof. by destruct g. Qed.

Lemma set_revoked_id g at_ : Grant.id (Grant.set_revoked g at_) = Grant.id g.
Proof. by destruct g. Qed.

Lemma same_id d g g' : document_ok d -> g ∈ PolicyDocument.grants d -> g' ∈ PolicyDocument.grants d ->
  Grant.id g = Grant.id g' -> g = g'.
Proof.
  intros Hd [i Hi]%list_elem_of_lookup [j Hj]%list_elem_of_lookup Heq.
  assert (i = j) as <-; [|congruence].
  apply (NoDup_lookup _ i j (Grant.id g) (document_ids d Hd)); rewrite list_lookup_fmap;
    [by rewrite Hi|by rewrite Hj, Heq].
Qed.

Lemma used_ok d request context g : document_ok d -> allowing d request context g ->
  document_ok (used d g (EvaluationContext.now context)).
Proof.
  intros Hd (Hg&_&He&Ha). unfold used. case_decide as Hl; [|done].
  apply update_grant_ok; [done|intros; apply set_consumed_id|].
  intros g' Hg' Hid. rewrite (same_id d g' g) by done. apply active_inv in Ha as (_&Hnow&_).
  apply consumed_valid; [|done|done|done]. by eapply Forall_forall in Hg; [|apply Hd].
Qed.

(** The transaction of [check] fails only on an invalid document. *)
Lemma decide_and_consume_spec registry request context d :
  match PermissionEvaluator.decide_and_consume registry request context d with
  | (Ok decision, d') =>
      document_ok d /\ document_ok d' /\ decision = (evaluate registry d request context).1
      /\ if Decision.is_allowed decision
         then CapabilityRegistry.contains registry (AccessRequest.capability request) = true
              /\ (forall g, ~ denying d request context g)
              /\ exists g, allowing d request context g /\ decision = Decision.allow g
                 /\ d' = used d g (EvaluationContext.now context)
                 /\ forall g', allowing d request context g' -> key_le (sort_key g) (sort_key g')
         else d' = d
              /\ (CapabilityRegistry.contains registry (AccessRequest.capability request) = false
                  \/ (exists g, denying d request context g) \/ forall g, ~ allowing d request context g)
  | (Err _, _) => ~ document_ok d
  end.
Proof.
  unfold PermissionEvaluator.decide_and_consume.
  destruct (PolicyDocument.validate d) as [[]|e] eqn:Hv; [|by rewrite <-validate_document, Hv].
  apply validate_document in Hv as Hd.
  pose proof (evaluate_spec registry d request context) as Hspec.
  destruct (evaluate registry d request context) as [decision consume].
  destruct (Decision.is_allowed decision) eqn:Hallowed.
  2: { destruct Hspec as [-> Hwhy]. cbn. by rewrite Hallowed. }
  destruct Hspec as (Hc&Hn&g&Hg&Hdec&Hcons&Hmin). subst consume.
  pose proof (used_ok d request context g Hd Hg) as Hok. unfold used in *.
  case_decide as Hl; cbn [fst snd].
  - unfold PolicyDocument.consume_one_shot. pose proof (grant_mut_spec d (Grant.id g) Hd) as Hm.
    destruct (PolicyDocument.grant_mut d (Grant.id g)) as [[i g0]|].
    + destruct Hm as (Hg0&Hid&Hset). rewrite (Hset (fun g' => Grant.set_consumed g' _)), Hallowed.
      split_and!; try done. exists g. rewrite decide_True by done. done.
    + destruct Hg as [Hin _]. by destruct (Hm g Hin).
  - rewrite Hallowed. split_and!; try done. exists g. rewrite decide_False by done. done.
Qed.

(** *** New grants *)

Lemma covers_refl scope : CapabilityScope.covers scope scope = true.
Proof. destruct scope; cbn; by rewrite bool_decide_true. Qed.

Lemma new_grant_active id request parameters context :
  in_force parameters context -> active context (new_grant id request parameters).
Proof.
  intros (Hg&Hx&Hl). unfold active, Grant.is_active_at, new_grant. cbn.
  rewrite decide_False by (by intros [? [=]]). rewrite decide_False by lia. rewrite decide_False by done.
  destruct (GrantParameters.lifetime parameters) as [|session|]; [done| |done].
  by rewrite decide_True by by apply Hl.
Qed.

(** *** Documents over time *)

Lemma later_refl g : later g g.
Proof. unfold later. tauto. Qed.

Lemma later_trans g1 g2 g3 : later g1 g2 -> later g2 g3 -> later g1 g3.
Proof. unfold later. intros (?&?&?&?&?&?&?&?) (?&?&?&?&?&?&?&?). split_and!; try congruence; auto. Qed.

Lemma evolves_refl fresh d : evolves fresh d d.
Proof. split; [|left]; eauto using later_refl. Qed.

Lemma evolves_update fresh d id f : (forall g, later g (f g)) -> evolves fresh d (update_grant d id f).
Proof.
  intros Hf. assert (Hl : forall g, later g (if decide (Grant.id g = id) then f g else g))
    by (intros g; case_decide; [apply Hf|apply later_refl]).
  split; cbn.
  - intros g Hg. eexists. split; [by apply list_elem_of_fmap_2|apply Hl].
  - intros g' (g&->&Hg)%list_elem_of_fmap. left. exists g. split; [done|apply Hl].
Qed.

Lemma update_grant_elem d id f g' :
  (forall g, Grant.id (f g) = Grant.id g) ->
  g' ∈ PolicyDocument.grants (update_grant d id f) -> Grant.id g' = id -> exists g, g' = f g.
Proof.
  intros Hid (g&->&Hg)%list_elem_of_fmap Heq. case_decide as Hdec; [by exists g|done].
Qed.

Lemma later_consumed g now : later g (Grant.set_consumed g now).
Proof. destruct g. unfold later. cbn. naive_solver. Qed.

Lemma later_revoked g at_ : later g (Grant.set_revoked g at_).
Proof. destruct g. unfold later. cbn. naive_solver. Qed.

Lemma evolves_used fresh d g now : evolves fresh d (used d g now).
Proof.
  unfold used. case_decide; [|apply evolves_refl]. apply evolves_update. intros. apply later_consumed.
Qed.

Lemma used_consumed d g now g' : Grant.lifetime g = GrantLifetime.OneShot ->
  g' ∈ PolicyDocument.grants (used d g now) -> Grant.id g' = Grant.id g -> is_Some (Grant.consumed_at g').
Proof.
  unfold used. intros Hl Hg' Hid. rewrite decide_True in Hg' by done.
  apply update_grant_elem in Hg' as [g0 ->]; [by destruct g0|intros; apply set_consumed_id|done].
Qed.

Lemma used_next d g now : PolicyDocument.next_grant_id (used d g now) = PolicyDocument.next_grant_id d.
Proof. unfold used. by case_decide. Qed.

Lemma evolves_grant fresh d d' g g' : document_ok d' -> evolves fresh d d' ->
  g ∈ PolicyDocument.grants d -> g' ∈ PolicyDocument.grants d' -> Grant.id g' = Grant.id g -> later g g'.
Proof.
  intros Hd' [Hkeep _] Hg Hg' Hid. destruct (Hkeep g Hg) as (g2&Hg2&Hl).
  by rewrite (same_id d' g' g2) by (done || by rewrite Hid; symmetry; apply Hl).
Qed.

(** *** The operations on a store that keeps its promise *)

Section lawful.
Context {S : Type} `{Laws : PolicyStoreLaws S}.
Implicit Types self : PermissionEvaluator.t S.

Lemma check_spec self request context :
  let '(decision, self') := PermissionEvaluator.check self request context in
  let d := document (PermissionEvaluator.store self) in
  let d' := document (PermissionEvaluator.store self') in
  let registry := PermissionEvaluator.registry self in
  PermissionEvaluator.registry self' = registry
  /\ if Decision.is_allowed decision
     then CapabilityScope.validate (AccessRequest.scope request) = Ok tt
          /\ CapabilityRegistry.contains registry (AccessRequest.capability request) = true
          /\ document_ok d /\ document_ok d' /\ (forall g, ~ denying d request context g)
          /\ exists g, allowing d request context g /\ decision = Decision.allow g
             /\ d' = used d g (EvaluationContext.now context)
             /\ forall g', allowing d request context g' -> key_le (sort_key g) (sort_key g')
     else d' = d
          /\ (faulty (PermissionEvaluator.store self)
              \/ CapabilityScope.validate (AccessRequest.scope request) <> Ok tt
              \/ CapabilityRegistry.contains registry (AccessRequest.capability request) = false
              \/ ~ document_ok d \/ (exists g, denying d request context g)
              \/ forall g, ~ allowing d request context g).
Proof.
  unfold PermissionEvaluator.check, PermissionEvaluator.validate_request. cbn zeta.
  destruct (CapabilityScope.validate _) as [[]|e]; [|by cbn; auto 10].
  destruct (CapabilityRegistry.contains _ _) eqn:Hc; [|by cbn; auto 10]. cbn [negb].
  set (op := PermissionEvaluator.decide_and_consume _ _ _).
  pose proof (transact_law _ (PermissionEvaluator.store self) op) as Hlaw.
  pose proof (decide_and_consume_spec (PermissionEvaluator.registry self) request context
                (document (PermissionEvaluator.store self))) as Hspec. fold op in Hspec.
  destruct (transact _ op) as [[decision|e] store']; cbn [PermissionEvaluator.store PermissionEvaluator.registry];
    destruct Hlaw as [_ Hlaw]; (split; [done|]).
  - rewrite Hlaw in Hspec. destruct Hspec as (Hd&Hd'&_&Hspec).
    destruct (Decision.is_allowed decision); [tauto|]. destruct Hspec as [-> Hwhy]. rewrite Hc in Hwhy. tauto.
  - cbn. destruct Hlaw as [-> Hwhy]. split; [done|]. destruct Hwhy as [Hwhy|Hwhy]; [by left|].
    destruct (op _) as [[decision|e'] d']; [|tauto]. destruct Hspec as (_&Hd'&_).
    by apply validate_document in Hd'.
Qed.

Lemma explain_spec self request context : ~ faulty (PermissionEvaluator.store self) ->
  PermissionEvaluator.explain self request context = (PermissionEvaluator.check self request context).1.
Proof.
  intros Hf. unfold PermissionEvaluator.explain, PermissionEvaluator.check.
  destruct (PermissionEvaluator.validate_request self request); [done|].
  set (op := PermissionEvaluator.decide_and_consume _ _ _).
  pose proof (transact_law _ (PermissionEvaluator.store self) op) as Hlaw.
  pose proof (decide_and_consume_spec (PermissionEvaluator.registry self) request context
                (document (PermissionEvaluator.store self))) as Hspec. fold op in Hspec.
  pose proof (snapshot_law (PermissionEvaluator.store self)) as Hsnap.
  destruct (transact _ op) as [[decision|e] store']; destruct Hlaw as [_ Hlaw]; cbn [fst].
  - rewrite Hlaw in Hspec. destruct Hspec as (Hd&_&->&_).
    apply validate_document in Hd. destruct (snapshot _) as [d|e]; [subst d; by rewrite Hd|tauto].
  - destruct Hlaw as [_ [?|Hwhy]]; [done|]. destruct (snapshot _) as [d|e']; [subst d|done].
    destruct (PolicyDocument.validate _) as [[]|] eqn:Hv; [|done]. apply validate_document in Hv.
    destruct (op _) as [[decision|e'] d']; [|done]. destruct Hspec as (_&Hd'&_).
    by apply validate_document in Hd'.
Qed.

Lemma validate_new_grant id request parameters :
  CapabilityScope.validate (AccessRequest.scope request) = Ok tt ->
  Grant.validate (new_grant id request parameters) = Ok tt <->
  ~ is_some_and (fun expiry => expiry <= GrantParameters.granted_at parameters)
      (GrantParameters.expires_at parameters)
  /\ ~ is_some_and (bad_text 512) (GrantParameters.reason parameters).
Proof.
  intros Hs. rewrite validate_grant. cbn. rewrite Hs. split; [tauto|]. intros [? ?]. split_and!; try tauto.
  intros [[? [=]] _].
Qed.

Lemma push_ok d request parameters :
  document_ok d -> Grant.validate (new_grant (PolicyDocument.next_grant_id d) request parameters) = Ok tt ->
  document_ok (PolicyDocument.mk (PolicyDocument.schema_version d) (PolicyDocument.next_grant_id d + 1)
    (PolicyDocument.grants d ++ [new_grant (PolicyDocument.next_grant_id d) request parameters])).
Proof.
  intros [Hs Hn Hg Hi Hf] Hv. split; cbn; [done|lia| | |].
  - apply Forall_app. split; [done|by apply Forall_singleton].
  - rewrite fmap_app. apply NoDup_app. split; [done|]. cbn. split; [|apply NoDup_singleton].
    intros i (g&->&Hin)%list_elem_of_fmap Heq%list_elem_of_singleton. eapply Forall_forall in Hf; [|done]. cbn in Hf. lia.
  - apply Forall_app. split; [|apply Forall_singleton; cbn; lia]. eapply Forall_impl; [exact Hf|]. cbn. lia.
Qed.

Lemma insert_grant_spec self request parameters :
  let '(result, self') := PermissionEvaluator.insert_grant self request parameters in
  let d := document (PermissionEvaluator.store self) in
  let d' := document (PermissionEvaluator.store self') in
  let registry := PermissionEvaluator.registry self in
  PermissionEvaluator.registry self' = registry
  /\ (faulty (PermissionEvaluator.store self') -> faulty (PermissionEvaluator.store self))
  /\ match result with
     | Ok id => acceptable registry d request parameters /\ id = PolicyDocument.next_grant_id d
                /\ d' = PolicyDocument.mk (PolicyDocument.schema_version d) (id + 1)
                           (PolicyDocument.grants d ++ [new_grant id request parameters])
                /\ (document_ok d -> document_ok d')
     | Err _ => d' = d /\ (faulty (PermissionEvaluator.store self) \/ ~ document_ok d
                           \/ ~ acceptable registry d request parameters)
     end.
Proof.
  unfold PermissionEvaluator.insert_grant. cbn zeta.
  destruct (CapabilityScope.validate _) as [[]|e] eqn:Hs.
  2: { split_and!; [done|done|done|]. right. right. intros [H1 _]. by rewrite Hs in H1. }
  destruct (CapabilityRegistry.contains _ _) eqn:Hc; cbn [negb].
  2: { split_and!; [done|done|done|]. right. right. intros (_&H1&_). by rewrite Hc in H1. }
  case_decide as Hone.
  { split_and!; [done|done|done|]. right. right. intros (_&_&H1&_). tauto. }
  set (op := PermissionEvaluator.add_grant request parameters).
  pose proof (transact_law _ (PermissionEvaluator.store self) op) as Hlaw.
  destruct (transact _ op) as [result store']; cbn [PermissionEvaluator.store PermissionEvaluator.registry].
  split; [done|]. destruct Hlaw as [Hfaulty Hlaw]. split; [done|]. revert Hlaw. clear Hfaulty.
  generalize (document (PermissionEvaluator.store self)) as d. intros d.
  unfold op, PermissionEvaluator.add_grant, PolicyDocument.allocate_grant_id, u64_checked_add.
  fold (new_grant (PolicyDocument.next_grant_id d) request parameters).
  pose proof (validate_new_grant (PolicyDocument.next_grant_id d) request parameters Hs) as Hnew.
  pose proof (push_ok d request parameters) as Hpush.
  case_decide as Hmax; [destruct (Grant.validate _) as [[]|] eqn:Hv|];
    destruct result as [id|e]; try (intros [= ]; done).
  - unfold PolicyDocument.push_grant. cbn. intros [= <- <-]. unfold acceptable.
    destruct (proj1 Hnew eq_refl) as [H1 H2]. split_and!; try done; [lia|]. intros Hd. by apply Hpush.
  - intros [-> [?|Hwhy]]; [by auto|]. split; [done|]. right. left. intros Hd. apply Hwhy.
    apply validate_document. by apply Hpush.
  - intros [-> _]. split; [done|]. right. right. unfold acceptable. intros (_&_&_&_&H1&H2).
    by discriminate (proj2 Hnew (conj H1 H2)).
  - intros [-> _]. split; [done|]. right. right. unfold acceptable. intros (_&_&_&H1&_). lia.
Qed.

Lemma revoke_spec self id at_ : document_ok (document (PermissionEvaluator.store self)) ->
  let '(result, self') := PermissionEvaluator.revoke self id at_ in
  let d := document (PermissionEvaluator.store self) in
  let d' := document (PermissionEvaluator.store self') in
  PermissionEvaluator.registry self' = PermissionEvaluator.registry self /\ document_ok d'
  /\ match result with
     | Ok true => (exists g, g ∈ PolicyDocument.grants d /\ Grant.id g = id /\ Grant.revoked_at g = None
                             /\ Grant.granted_at g <= at_)
                  /\ d' = update_grant d id (fun g => Grant.set_revoked g at_)
     | Ok false => d' = d /\ forall g, g ∈ PolicyDocument.grants d -> Grant.id g = id ->
                                      is_Some (Grant.revoked_at g) \/ at_ < Grant.granted_at g
     | Err _ => d' = d /\ faulty (PermissionEvaluator.store self)
     end.
Proof.
  intros Hd. unfold PermissionEvaluator.revoke. cbn zeta.
  set (op := PermissionEvaluator.revoke_grant id at_).
  pose proof (transact_law _ (PermissionEvaluator.store self) op) as Hlaw.
  destruct (transact _ op) as [result store']; cbn [PermissionEvaluator.store PermissionEvaluator.registry].
  split; [done|]. destruct Hlaw as [_ Hlaw]. revert Hd Hlaw.
  generalize (document (PermissionEvaluator.store self)) as d. intros d Hd.
  unfold op, PermissionEvaluator.revoke_grant. pose proof (grant_mut_spec d id Hd) as Hm.
  apply validate_document in Hd as Hv.
  destruct (PolicyDocument.grant_mut d id) as [[i g]|].
  - destruct Hm as (Hg&Hid&Hset). rewrite (Hset (fun g => Grant.set_revoked g at_)).
    assert (Hok : Grant.granted_at g <= at_ -> document_ok (update_grant d id (fun g => Grant.set_revoked g at_))).
    { intros Hat. apply update_grant_ok; [done|intros; apply set_revoked_id|]. intros g' Hg' Hid'.
      rewrite (same_id d g' g) by congruence. apply revoked_valid; [|done].
      by eapply Forall_forall in Hg; [|apply Hd]. }
    case_decide as Hwhen; destruct result as [[]|e]; try (intros [= ]; done).
    + intros [= <-]. split_and!; try done. intros g' Hg' Hid'. by rewrite (same_id d g' g) by congruence.
    + intros [-> [?|?]]; done.
    + intros [= <-]. assert (Grant.granted_at g <= at_) by lia. split; [by apply Hok|]. split; [|done].
      exists g. split_and!; try done. apply eq_None_not_Some. tauto.
    + intros [-> [?|Hno]]; [done|]. destruct Hno. apply validate_document, Hok. lia.
  - destruct result as [[]|e]; try (intros [= ]; done).
    + intros [= <-]. split_and!; try done. intros g' Hg' Hid'. by destruct (Hm g' Hg').
    + intros [-> [?|?]]; done.
Qed.

Lemma evolves_push d id request parameters :
  evolves (eq (new_grant id request parameters)) d
    (PolicyDocument.mk (PolicyDocument.schema_version d) (id + 1)
       (PolicyDocument.grants d ++ [new_grant id request parameters])).
Proof.
  split; cbn.
  - intros g Hg. exists g. split; [apply elem_of_app; by left|apply later_refl].
  - intros g [Hg| ->%list_elem_of_singleton]%elem_of_app; [left; eauto using later_refl|by right].
Qed.

Lemma evolves_weaken (P Q : Grant.t -> Prop) d d' :
  (forall g, P g -> Q g) -> evolves P d d' -> evolves Q d d'.
Proof. intros HPQ [H1 H2]. split; [done|]. intros g' Hg'. destruct (H2 g' Hg'); auto. Qed.

Lemma evolves_trans P Q d1 d2 d3 : evolves P d1 d2 -> evolves Q d2 d3 ->
  evolves (fun g3 => Q g3 \/ exists g2, P g2 /\ later g2 g3) d1 d3.
Proof.
  intros [Hk1 Hf1] [Hk2 Hf2]. split.
  - intros g1 Hg1. destruct (Hk1 g1 Hg1) as (g2&Hg2&Hl1). destruct (Hk2 g2 Hg2) as (g3&Hg3&Hl2).
    eauto using later_trans.
  - intros g3 Hg3. destruct (Hf2 g3 Hg3) as [(g2&Hg2&Hl2)|?]; [|by auto].
    destruct (Hf1 g2 Hg2) as [(g1&Hg1&Hl1)|?]; [left|right; right]; eauto using later_trans.
Qed.

(** *** Every call *)

(** What a call does to the document. *)
Record advances (c : Call.t) (o : Outcome.t) (d d' : PolicyDocument.t) : Prop := {
  advances_ok : document_ok d';
  advances_next : PolicyDocument.next_grant_id d <= PolicyDocument.next_grant_id d';
  advances_evolves : evolves (created c o) d d';
  advances_issued : forall id, issued o = Some id ->
    id = PolicyDocument.next_grant_id d /\ PolicyDocument.next_grant_id d' = id + 1;
  advances_revoked : forall id at_, c = Call.Revoke id at_ -> o = Outcome.Revoked (Ok true) ->
    exists g', g' ∈ PolicyDocument.grants d' /\ Grant.id g' = id /\ is_Some (Grant.revoked_at g');
  advances_used : forall id, authorizes id o = true ->
    exists g g', g ∈ PolicyDocument.grants d /\ Grant.id g = id /\ g' ∈ PolicyDocument.grants d' /\ later g g'
      /\ (Grant.lifetime g = GrantLifetime.OneShot ->
          Grant.consumed_at g = None /\ is_Some (Grant.consumed_at g'))
}.

Lemma advances_refl c o d :
  document_ok d -> issued o = None -> (forall id, authorizes id o = false) -> o <> Outcome.Revoked (Ok true) ->
  advances c o d d.
Proof.
  intros Hd Hi Ha Hr. split; [done|done|apply evolves_refl|by rewrite Hi|done|]. intros id. by rewrite Ha.
Qed.

Lemma insert_advances self request parameters c :
  (forall id g, g = new_grant id request parameters -> created c (Outcome.Issued (Ok id)) g) ->
  (forall id at_, c <> Call.Revoke id at_) ->
  document_ok (document (PermissionEvaluator.store self)) ->
  let '(result, self') := PermissionEvaluator.insert_grant self request parameters in
  PermissionEvaluator.registry self' = PermissionEvaluator.registry self
  /\ advances c (Outcome.Issued result) (document (PermissionEvaluator.store self))
       (document (PermissionEvaluator.store self')).
Proof.
  intros Hc Hnr Hd. pose proof (insert_grant_spec self request parameters) as Hspec.
  destruct (PermissionEvaluator.insert_grant self request parameters) as [[id|e] self']; destruct Hspec as (->&_&Hspec);
    (split; [done|]).
  - destruct Hspec as (_&Hid&Hd'&Hok). split.
    + by apply Hok.
    + rewrite Hd'. cbn. lia.
    + rewrite Hd'. eapply evolves_weaken, evolves_push. intros g <-. by apply Hc.
    + intros id' [= <-]. by rewrite Hd'.
    + intros ? ? ->. by destruct (Hnr id0 at_).
    + done.
  - destruct Hspec as [-> _]. by apply advances_refl.
Qed.

Lemma revoke_advances self id at_ : document_ok (document (PermissionEvaluator.store self)) ->
  let '(result, self') := PermissionEvaluator.revoke self id at_ in
  PermissionEvaluator.registry self' = PermissionEvaluator.registry self
  /\ advances (Call.Revoke id at_) (Outcome.Revoked result) (document (PermissionEvaluator.store self))
       (document (PermissionEvaluator.store self')).
Proof.
  intros Hd. pose proof (revoke_spec self id at_ Hd) as Hspec.
  destruct (PermissionEvaluator.revoke self id at_) as [[[]|e] self']; destruct Hspec as (->&Hd'&Hspec);
    (split; [done|]).
  - destruct Hspec as ((g&Hg&Hid&Hr&Hat)&Heq). split; [done|by rewrite Heq| |done| |done].
    + rewrite Heq. apply evolves_update. intros. apply later_revoked.
    + intros id' at' [= <- <-] _. exists (Grant.set_revoked g at_). rewrite set_revoked_id.
      split_and!; [|done|by destruct g]. rewrite Heq. apply list_elem_of_fmap. exists g. by rewrite decide_True.
  - destruct Hspec as [-> _]. by apply advances_refl.
  - destruct Hspec as [-> _]. by apply advances_refl.
Qed.

Lemma check_advances self request context : document_ok (document (PermissionEvaluator.store self)) ->
  let '(decision, self') := PermissionEvaluator.check self request context in
  PermissionEvaluator.registry self' = PermissionEvaluator.registry self
  /\ advances (Call.Check request context) (Outcome.Checked decision) (document (PermissionEvaluator.store self))
       (document (PermissionEvaluator.store self')).
Proof.
  intros Hd. pose proof (check_spec self request context) as Hspec.
  destruct (PermissionEvaluator.check self request context) as [decision self']; destruct Hspec as [-> Hspec].
  split; [done|]. destruct (Decision.is_allowed decision) eqn:Hallowed.
  2: { destruct Hspec as [-> _]. apply advances_refl; [done|done|cbn; by rewrite Hallowed|done]. }
  destruct Hspec as (_&_&_&Hd'&_&g&(Hg&_&_&Ha)&->&Heq&_). rewrite Heq in *.
  split; [done|by rewrite used_next|apply evolves_used|done|done|].
  intros id. cbn. rewrite bool_decide_eq_true. intros [= <-].
  destruct (proj1 (evolves_used (fun _ => False) _ g (EvaluationContext.now context)) g Hg) as (g'&Hg'&Hl).
  exists g, g'. split_and!; try done. intros Hone. split; [by apply (active_inv _ _ Ha)|].
  eapply used_consumed; [exact Hone|exact Hg'|apply Hl].
Qed.

Lemma call_spec self c : document_ok (document (PermissionEvaluator.store self)) ->
  let '(o, self') := call self c in
  PermissionEvaluator.registry self' = PermissionEvaluator.registry self
  /\ advances c o (document (PermissionEvaluator.store self)) (document (PermissionEvaluator.store self')).
Proof.
  intros Hd. destruct c as [request lifetime source reason at_ x|request lifetime source reason at_ x|id at_
    |request context|request context]; cbn [call].
  - pose proof (insert_advances self request (GrantParameters.mk GrantEffect.Allow lifetime source reason at_ x)
      (Call.Grant request lifetime source reason at_ x)) as Hi.
    unfold PermissionEvaluator.grant. destruct (PermissionEvaluator.insert_grant _ _ _). by apply Hi.
  - pose proof (insert_advances self request (GrantParameters.mk GrantEffect.Deny lifetime source reason at_ x)
      (Call.Deny request lifetime source reason at_ x)) as Hi.
    unfold PermissionEvaluator.deny. destruct (PermissionEvaluator.insert_grant _ _ _). by apply Hi.
  - pose proof (revoke_advances self id at_ Hd) as Hr. by destruct (PermissionEvaluator.revoke self id at_).
  - pose proof (check_advances self request context Hd) as Hc. by destruct (PermissionEvaluator.check _ _ _).
  - split; [done|]. by apply advances_refl.
Qed.

(** What a run does to the document. *)
Record travels (cs : list Call.t) (os : list Outcome.t) (d d' : PolicyDocument.t) : Prop := {
  travels_ok : document_ok d';
  travels_evolves : evolves (issued_by cs os) d d';
  travels_issued : forall id, id ∈ omap issued os ->
    PolicyDocument.next_grant_id d <= id < PolicyDocument.next_grant_id d';
  travels_next : PolicyDocument.next_grant_id d <= PolicyDocument.next_grant_id d';
  travels_distinct : NoDup (omap issued os);
  travels_revoked : forall k id at_,
    cs !! k = Some (Call.Revoke id at_) -> os !! k = Some (Outcome.Revoked (Ok true)) ->
    exists g', g' ∈ PolicyDocument.grants d' /\ Grant.id g' = id /\ is_Some (Grant.revoked_at g')
}.

Lemma travels_cons c o cs os d1 d2 d3 : advances c o d1 d2 -> travels cs os d2 d3 ->
  travels (c :: cs) (o :: os) d1 d3.
Proof.
  intros [Hok1 Hn1 He1 Hi1 Hr1 _] [Hok2 He2 Hi2 Hn2 Hd2 Hr2]. split; [done| | |lia| |].
  - eapply evolves_weaken; [|exact (evolves_trans _ _ _ _ _ He1 He2)].
    intros g [(k&c'&o'&g0&Hc&Ho&Hg)|(g0&Hcr&Hl)]; [exists (Datatypes.S k), c', o', g0|exists 0%nat, c, o, g0]; done.
  - intros id. cbn. destruct (issued o) as [i|] eqn:Hi.
    + specialize (Hi1 i eq_refl). intros [-> |Hin]%elem_of_cons; [lia|]. specialize (Hi2 id Hin). lia.
    + intros Hin. specialize (Hi2 id Hin). lia.
  - cbn. destruct (issued o) as [i|] eqn:Hi; [|done]. constructor; [|done]. intros Hin.
    specialize (Hi1 i eq_refl). specialize (Hi2 i Hin). lia.
  - intros [|k] id at_; cbn; [|by apply Hr2]. intros [= ->] [= ->].
    destruct (Hr1 id at_ eq_refl eq_refl) as (g2&Hg2&Hid&Hr). destruct (proj1 He2 g2 Hg2) as (g3&Hg3&Hl).
    exists g3. split; [done|]. destruct Hl as (->&_&_&_&_&_&Hl&_). auto.
Qed.

Lemma calls_spec cs : forall self, document_ok (document (PermissionEvaluator.store self)) ->
  let '(os, self') := calls self cs in
  PermissionEvaluator.registry self' = PermissionEvaluator.registry self
  /\ travels cs os (document (PermissionEvaluator.store self)) (document (PermissionEvaluator.store self')).
Proof.
  induction cs as [|c cs IH]; intros self Hd; cbn [calls].
  { split; [done|]. split; [done|apply evolves_refl| |done|apply NoDup_nil_2|done]. intros id []%not_elem_of_nil. }
  pose proof (call_spec self c Hd) as Hc. destruct (call self c) as [o self1]. destruct Hc as [Hreg Hadv].
  specialize (IH self1 (advances_ok _ _ _ _ Hadv)). destruct (calls self1 cs) as [os self2].
  destruct IH as [Hreg2 Htr]. split; [congruence|by eapply travels_cons].
Qed.

(** A consumed grant does not authorize, and a one-shot grant does so once. *)
Lemma authorizations_bound cs id : forall self, document_ok (document (PermissionEvaluator.store self)) ->
  let '(os, self') := calls self cs in
  (forall g', g' ∈ PolicyDocument.grants (document (PermissionEvaluator.store self')) -> Grant.id g' = id ->
     Grant.lifetime g' = GrantLifetime.OneShot) ->
  (length (filter (fun o => authorizes id o = true) os) <= 1)%nat
  /\ ((exists g, g ∈ PolicyDocument.grants (document (PermissionEvaluator.store self)) /\ Grant.id g = id
       /\ is_Some (Grant.consumed_at g)) ->
      filter (fun o => authorizes id o = true) os = []).
Proof.
  induction cs as [|c cs IH]; intros self Hd; cbn [calls]; [cbn; split; [lia|done]|].
  pose proof (call_spec self c Hd) as Hc. destruct (call self c) as [o self1]. destruct Hc as [_ [Hok Hn He _ _ Hu]].
  specialize (IH self1 Hok). pose proof (calls_spec cs self1 Hok) as Hcs.
  destruct (calls self1 cs) as [os self2]. destruct Hcs as [_ Htr]. intros Hone.
  specialize (IH Hone) as [Hle Hzero]. rewrite filter_cons. case_decide as Ha.
  - destruct (Hu id Ha) as (g&g'&Hg&Hid&Hg'&Hl&Hone1).
    assert (Hlife : Grant.lifetime g = GrantLifetime.OneShot).
    { destruct (proj1 (travels_evolves _ _ _ _ Htr) g' Hg') as (g2&Hg2&Hl2).
      pose proof (later_trans _ _ _ Hl Hl2) as (Hi&_&_&_&_&<-&_). apply Hone; [done|congruence]. }
    destruct (Hone1 Hlife) as [Hnone Hsome]. split.
    + cbn. rewrite Hzero; [done|]. exists g'. split_and!; [done|rewrite <-Hid; apply Hl|done].
    + intros (g0&Hg0&Hid0&Hc0). rewrite (same_id _ g0 g Hd) in Hc0 by congruence. rewrite Hnone in Hc0. by destruct Hc0.
  - split; [done|]. intros (g0&Hg0&Hid0&Hc0). apply Hzero. destruct (proj1 He g0 Hg0) as (g1&Hg1&Hl).
    exists g1. destruct Hl as (->&_&_&_&_&_&_&Hl). auto.
Qed.
End lawful.

(** ** Correctness *)

(** C11: A check allows exactly what the policy grants, and nothing else. When
    it allows, the scope of the request is well formed, the capability is
    registered, the document is valid, no active grant denies the request, and
    the decision cites the preferred of the active grants that allow it; the
    document changes only in that this grant is consumed when it is one-shot.
    When it denies, the document is unchanged and one of these conditions fails
    or the store is faulty. On a store that is not faulty, [explain] gives the
    same decision, and the cited grant is one of the listed effective grants. *)
Theorem check_exact {S : Type} `{Laws : PolicyStoreLaws S} (self : PermissionEvaluator.t S) request context :
  let '(decision, self') := PermissionEvaluator.check self request context in
  let d := document (PermissionEvaluator.store self) in
  let d' := document (PermissionEvaluator.store self') in
  let registry := PermissionEvaluator.registry self in
  (if Decision.is_allowed decision
   then CapabilityScope.validate (AccessRequest.scope request) = Ok tt
        /\ CapabilityRegistry.contains registry (AccessRequest.capability request) = true
        /\ document_ok d /\ document_ok d' /\ (forall g, ~ denying d request context g)
        /\ exists g, allowing d request context g /\ decision = Decision.allow g
           /\ d' = used d g (EvaluationContext.now context)
           /\ forall g', allowing d request context g' -> key_le (sort_key g) (sort_key g')
   else d' = d
        /\ (faulty (PermissionEvaluator.store self)
            \/ CapabilityScope.validate (AccessRequest.scope request) <> Ok tt
            \/ CapabilityRegistry.contains registry (AccessRequest.capability request) = false
            \/ ~ document_ok d \/ (exists g, denying d request context g)
            \/ forall g, ~ allowing d request context g))
  /\ (~ faulty (PermissionEvaluator.store self) ->
      PermissionEvaluator.explain self request context = decision
      /\ (Decision.is_allowed decision = true ->
          exists listed g,
            PermissionEvaluator.list_effective_grants self (AccessRequest.principal request) context = Ok listed
            /\ g ∈ listed /\ Decision.grant_id decision = Some (Grant.id g))).
Proof.
  pose proof (check_spec self request context) as Hspec.
  pose proof (explain_spec self request context) as Hex.
  destruct (PermissionEvaluator.check self request context) as [decision self']. destruct Hspec as [_ Hspec].
  split; [done|]. intros Hf. split; [by apply Hex|]. intros Ha. rewrite Ha in Hspec.
  destruct Hspec as (_&Hc&Hd&_&_&g&(Hg&(Hp&Hcap&_)&_&Hact)&->&_).
  unfold PermissionEvaluator.list_effective_grants.
  pose proof (snapshot_law (PermissionEvaluator.store self)) as Hsnap.
  apply validate_document in Hd. destruct (snapshot _) as [d|e]; [subst d|tauto]. rewrite Hd.
  eexists _, g. split; [done|]. split; [|done]. apply list_elem_of_filter. by rewrite Hcap.
Qed.

(** C13: Over any sequence of grants, denials, revocations, checks and
    explanations, the checks that a one-shot grant allows are at most one. *)
Theorem one_shot_once {S : Type} `{Laws : PolicyStoreLaws S} (self : PermissionEvaluator.t S) cs :
  document_ok (document (PermissionEvaluator.store self)) ->
  let '(os, self') := calls self cs in
  forall g, g ∈ PolicyDocument.grants (document (PermissionEvaluator.store self')) ->
    Grant.lifetime g = GrantLifetime.OneShot ->
    (length (filter (fun o => authorizes (Grant.id g) o = true) os) <= 1)%nat.
Proof.
  intros Hd. pose proof (calls_spec cs self Hd) as Hcs.
  pose proof (fun id => authorizations_bound cs id self Hd) as Hb.
  destruct (calls self cs) as [os self']. destruct Hcs as [_ [Hd' _ _ _ _ _]]. intros g Hg Hl.
  apply (Hb (Grant.id g)). intros g' Hg' Hid. by rewrite (same_id _ g' g Hd').
Qed.

(** C12: After any sequence of calls, a request that is allowed was granted:
    the grant that the decision cites was an allowing grant of the first
    document, not revoked there, or was issued by a [grant] call of the sequence, and it
    has the principal and the capability of the request and a scope that covers
    the scope of the request. No call of the sequence revoked it. *)
Theorem authority_traceable {S : Type} `{Laws : PolicyStoreLaws S} (self : PermissionEvaluator.t S) cs :
  document_ok (document (PermissionEvaluator.store self)) ->
  let '(os, self') := calls self cs in
  forall request context,
    let decision := (PermissionEvaluator.check self' request context).1 in
    Decision.is_allowed decision = true ->
    exists id, Decision.grant_id decision = Some id
      /\ ((exists g, g ∈ PolicyDocument.grants (document (PermissionEvaluator.store self)) /\ Grant.id g = id
            /\ Grant.effect g = GrantEffect.Allow /\ Grant.revoked_at g = None /\ matching request g)
          \/ exists k c o, cs !! k = Some c /\ os !! k = Some o /\ granted_by request id c o)
      /\ forall k at_, cs !! k = Some (Call.Revoke id at_) -> os !! k <> Some (Outcome.Revoked (Ok true)).
Proof.
  intros Hd. pose proof (calls_spec cs self Hd) as Hcs. destruct (calls self cs) as [os self'].
  destruct Hcs as [_ [Hd' [_ Hfrom] _ _ _ Hrev]]. intros request context decision Ha.
  pose proof (check_spec self' request context) as Hspec. unfold decision in *. clear decision.
  destruct (PermissionEvaluator.check self' request context) as [decision self2]. cbn [fst] in *.
  destruct Hspec as [_ Hspec]. rewrite Ha in Hspec.
  destruct Hspec as (_&_&_&_&_&g&(Hg&(Hp&Hcap&Hcov)&He&Hact)&->&_). apply active_inv in Hact as [Hnr _].
  exists (Grant.id g). split; [done|]. split.
  - destruct (Hfrom g Hg) as [(g0&Hg0&(Hi&Hp0&Hc0&He0&Hs0&_&Hr0&_))|(k&c&o&g0&Hc&Ho&Hcr&(Hi&Hp0&Hc0&He0&Hs0&_))].
    + left. exists g0. unfold matching. rewrite <-Hi, <-He0, <-Hp0, <-Hc0, <-Hs0. split_and!; try done.
      apply eq_None_not_Some. intros Hsome%Hr0. rewrite Hnr in Hsome. by destruct Hsome.
    + right. exists k, c, o. split_and!; [done|done|]. unfold granted_by.
      destruct c, o as [[id|]| | |]; try done; cbn in Hcr; subst g0; cbn in Hi, Hp0, Hc0, He0, Hs0; [|congruence].
      do 6 eexists. split_and!; [done|by rewrite Hi|congruence|congruence|congruence].
  - intros k at_ Hk Ho. destruct (Hrev k _ at_ Hk Ho) as (g'&Hg'&Hid&Hsome).
    rewrite (same_id _ g' g Hd') in Hsome by done. rewrite Hnr in Hsome. by destruct Hsome.
Qed.

(** C30: A grant or a denial is issued exactly if its scope is well formed, the
    capability is registered, it is no one-shot denial, an identifier is left,
    the expiry is after the grant and the reason is a short text; it is appended
    to the document under the next identifier. Otherwise the document is
    unchanged. A grant that was issued takes effect: the request it was issued
    for is then allowed at every time it is in force, unless an active grant
    denies it. *)
Theorem grant_takes_effect {S : Type} `{Laws : PolicyStoreLaws S} (self : PermissionEvaluator.t S) request parameters :
  let '(result, self') := PermissionEvaluator.insert_grant self request parameters in
  let d := document (PermissionEvaluator.store self) in
  let d' := document (PermissionEvaluator.store self') in
  let registry := PermissionEvaluator.registry self in
  match result with
  | Ok id =>
      acceptable registry d request parameters /\ id = PolicyDocument.next_grant_id d
      /\ d' = PolicyDocument.mk (PolicyDocument.schema_version d) (id + 1)
                 (PolicyDocument.grants d ++ [new_grant id request parameters])
      /\ (document_ok d -> ~ faulty (PermissionEvaluator.store self) ->
          GrantParameters.effect parameters = GrantEffect.Allow ->
          forall context, in_force parameters context -> (forall g, ~ denying d request context g) ->
          Decision.is_allowed (PermissionEvaluator.check self' request context).1 = true)
  | Err _ => d' = d /\ (faulty (PermissionEvaluator.store self) \/ ~ document_ok d
                        \/ ~ acceptable registry d request parameters)
  end.
Proof.
  pose proof (insert_grant_spec self request parameters) as Hspec.
  destruct (PermissionEvaluator.insert_grant self request parameters) as [[id|e] self'];
    destruct Hspec as (Hreg&Hfaulty&Hspec); [|done].
  destruct Hspec as (Hacc&Hid&Heq&Hok). split_and!; [done|done|done|].
  intros Hd Hf He context Hforce Hdeny.
  pose proof (check_spec self' request context) as Hc.
  destruct (PermissionEvaluator.check self' request context) as [decision self2]. cbn [fst].
  destruct (Decision.is_allowed decision); [done|]. destruct Hc as (_&_&Hwhy). exfalso.
  rewrite Hreg in Hwhy. destruct Hacc as (Hs&Hc&_). rewrite Hc, Hs in Hwhy.
  assert (Hnew : new_grant id request parameters ∈ PolicyDocument.grants (document (PermissionEvaluator.store self')))
    by (rewrite Heq; apply elem_of_app; right; by apply list_elem_of_singleton).
  destruct Hwhy as [?|[?|[?|[?|[(g&Hg&Hm&Hde&Ha)|Hno]]]]]; [by auto|done|done|by auto| |].
  - rewrite Heq in Hg. apply elem_of_app in Hg as [Hg| ->%list_elem_of_singleton]; [by apply (Hdeny g)|].
    cbn in Hde. congruence.
  - apply (Hno (new_grant id request parameters)). split; [done|]. split; [split_and!; [done|done|apply covers_refl]|].
    split; [done|by apply new_grant_active].
Qed.

(** C31: Over any sequence of calls on a valid document, the document stays
    valid, every grant is kept with its identifier, principal, capability,
    effect, scope and lifetime, one that is revoked or consumed stays so, every
    other grant was issued by a call of the sequence, and no two calls issue the
    same identifier nor one that was in use. *)
Theorem grants_kept {S : Type} `{Laws : PolicyStoreLaws S} (self : PermissionEvaluator.t S) cs :
  document_ok (document (PermissionEvaluator.store self)) ->
  let '(os, self') := calls self cs in
  let d := document (PermissionEvaluator.store self) in
  let d' := document (PermissionEvaluator.store self') in
  document_ok d' /\ evolves (issued_by cs os) d d' /\ NoDup (omap issued os)
  /\ forall g, g ∈ PolicyDocument.grants d -> Grant.id g ∉ omap issued os.
Proof.
  intros Hd. pose proof (calls_spec cs self Hd) as Hcs. destruct (calls self cs) as [os self'].
  destruct Hcs as [_ [Hd' He Hi _ Hn _]]. split_and!; [done|done|done|]. intros g Hg Hin%Hi.
  eapply Forall_forall in Hg; [|apply (document_fresh _ Hd)]. cbn in Hg. lia.
Qed.

(** ** Declarations and requests *)

Lemma validate_all_ok requested :
  CapabilityDeclaration.validate_all requested = Ok tt
  <-> Forall (fun r => DeclaredCapability.validate r = Ok tt) requested.
Proof.
  induction requested as [|r requested IH]; cbn; [by split|]. rewrite Forall_cons, <-IH.
  destruct (DeclaredCapability.validate r) as [[]|]; naive_solver.
Qed.

(** A declaration says what is asked for and not who asks: the requests it is
    bound to have the trusted principal, and scopes the evaluator accepts. *)
Lemma bind_declaration_requests declaration principal requests :
  bind_declaration declaration principal = Ok requests ->
  Forall (fun r => AccessRequest.principal r = principal
                   /\ CapabilityScope.validate (AccessRequest.scope r) = Ok tt) requests
  /\ AccessRequest.capability <$> requests
     = DeclaredCapability.capability <$> CapabilityDeclaration.requested_capabilities declaration.
Proof.
  unfold bind_declaration, CapabilityDeclaration.validate. case_decide; [done|].
  destruct (CapabilityDeclaration.validate_all _) as [[]|] eqn:Hall; [|done]. intros [= <-].
  apply validate_all_ok in Hall. split; [|by rewrite <-list_fmap_compose].
  rewrite Forall_fmap. eapply Forall_impl; [exact Hall|]. intros [capability scope purpose]. cbn.
  unfold DeclaredCapability.validate. cbn. destruct scope as [scope|]; cbn; [|done].
  by destruct (CapabilityScope.validate scope) as [[]|].
Qed.

Module CapabilityExample.
Definition files : str := text "nagi.files.read".
Definition app : str := text "app:editor".
Definition the_registry : CapabilityRegistry.t :=
  (CapabilityRegistry.register ∅ (CapabilityDefinition.mk files (text "Read files"))).2.
Definition the_evaluator : PermissionEvaluator.t InMemoryPolicyStore.t :=
  PermissionEvaluator.mk the_registry PolicyDocument.new.

Definition docs_request : AccessRequest.t :=
  AccessRequest.mk app files (CapabilityScope.Filesystem (text "/data/docs")).
Definition file_request : AccessRequest.t :=
  AccessRequest.mk app files (CapabilityScope.Filesystem (text "/data/docs/a")).
Definition at_ten : EvaluationContext.t := EvaluationContext.mk 10 None.

Definition once : GrantParameters.t :=
  GrantParameters.mk GrantEffect.Allow GrantLifetime.OneShot GrantSource.User None 5 (Some 20).
Definition session_calls : list Call.t :=
  [Call.Grant docs_request GrantLifetime.OneShot GrantSource.User None 5 (Some 20);
   Call.Explain file_request at_ten;
   Call.Check file_request at_ten;
   Call.Check file_request at_ten].
Definition lasting : list Call.t :=
  [Call.Grant docs_request GrantLifetime.Persistent GrantSource.User None 5 None;
   Call.Grant docs_request GrantLifetime.Persistent GrantSource.User None 6 None;
   Call.Revoke 1 8].

Definition granted : PermissionEvaluator.t InMemoryPolicyStore.t := (calls the_evaluator lasting).2.

Lemma the_document_ok : document_ok (document (PermissionEvaluator.store the_evaluator)).
Proof. apply validate_document. by vm_compute. Qed.

(** The check is allowed by grant 2, as [explain] says. *)
Lemma check_exact_witness :
  Decision.grant_id (PermissionEvaluator.check granted file_request at_ten).1 = Some 2
  /\ PermissionEvaluator.explain granted file_request at_ten
     = (PermissionEvaluator.check granted file_request at_ten).1.
Proof.
  split; [by vm_compute|]. pose proof (check_exact granted file_request at_ten) as H.
  destruct (PermissionEvaluator.check granted file_request at_ten) as [decision self'].
  destruct H as [_ H]. apply H. intros [].
Defined.

(** The one-shot grant 1 allows the first check and not the second. *)
Lemma one_shot_once_witness :
  (authorizes 1 <$> (calls the_evaluator session_calls).1) = [false; false; true; false]
  /\ (length (filter (fun o => authorizes 1 o = true) (calls the_evaluator session_calls).1) <= 1)%nat.
Proof.
  split; [by vm_compute|]. pose proof (one_shot_once the_evaluator session_calls the_document_ok) as H.
  assert (Hg : exists g, g ∈ PolicyDocument.grants (PermissionEvaluator.store (calls the_evaluator session_calls).2)
    /\ Grant.id g = 1 /\ Grant.lifetime g = GrantLifetime.OneShot).
  { eexists. split; [|split]; [by vm_compute; left|by vm_compute..]. }
  destruct (calls the_evaluator session_calls) as [os self']. destruct Hg as (g&Hg&Hid&Hl). rewrite <-Hid.
  by apply H.
Defined.

(** Grant 1 was revoked; grant 2 allows the request. *)
Lemma authority_traceable_witness :
  Decision.is_allowed (PermissionEvaluator.check granted file_request at_ten).1 = true
  /\ exists id, Decision.grant_id (PermissionEvaluator.check granted file_request at_ten).1 = Some id
     /\ exists k c o, lasting !! k = Some c /\ (calls the_evaluator lasting).1 !! k = Some o
        /\ granted_by file_request id c o.
Proof.
  assert (Ha : Decision.is_allowed (PermissionEvaluator.check granted file_request at_ten).1 = true)
    by by vm_compute.
  split; [done|]. pose proof (authority_traceable the_evaluator lasting the_document_ok) as H.
  unfold granted in *. destruct (calls the_evaluator lasting) as [os self']. cbn [fst snd] in *.
  destruct (H file_request at_ten Ha) as (id&Hid&[(g&Hg&_)|Hk]&_); [by apply not_elem_of_nil in Hg|]. eauto.
Defined.

Lemma grant_takes_effect_witness :
  Decision.is_allowed
    (PermissionEvaluator.check (PermissionEvaluator.insert_grant the_evaluator docs_request once).2
       docs_request at_ten).1 = true.
Proof.
  pose proof (grant_takes_effect the_evaluator docs_request once) as H.
  assert (Hr : (PermissionEvaluator.insert_grant the_evaluator docs_request once).1 = Ok 1) by by vm_compute.
  destruct (PermissionEvaluator.insert_grant the_evaluator docs_request once) as [result self'].
  cbn [fst snd] in *. subst result. destruct H as (_&_&_&H). apply H; [apply the_document_ok|intros []|done| |].
  - split_and!; [done|cbn; lia|done].
  - intros g [Hg _]. by apply not_elem_of_nil in Hg.
Defined.

Lemma grants_kept_witness :
  omap issued (calls the_evaluator lasting).1 = [1; 2]
  /\ document_ok (PermissionEvaluator.store (calls the_evaluator lasting).2).
Proof.
  split; [by vm_compute|]. pose proof (grants_kept the_evaluator lasting the_document_ok) as H.
  destruct (calls the_evaluator lasting). apply H.
Defined.
End CapabilityExample.
