(* ===== verification/SlotUpdate.v ===== *)
(** * Signed slot manifests and update bundles (crates/nagi-slot-manifest)

    The text of a manifest, its signature, and the bundle that carries a system
    update. The signature scheme and the hash are those of the libraries the
    crate calls: parameters, with what signing promises as named laws. *)

From Stdlib Require Import String.
From stdpp Require Import prelude.
From S2P Require Import Prelude Scope.

Local Open Scope N_scope.
Local Open Scope nagi_scope.

(** ** The libraries *)

Class Ed25519 := {
  VerifyingKey : Type;
  Signature : Type;
  verifying_key : list N -> option VerifyingKey;
  signature_from_slice : list N -> option Signature;
  verify_strict : VerifyingKey -> list N -> Signature -> bool;
  (** [SigningKey::from_bytes(secret).sign(message).to_bytes()] *)
  sign : list N -> list N -> list N
}.

Class Sha256 := sha256_digest : list N -> list N.

(** ** Constants *)

Definition SIGNATURE_BYTES : nat := 64.
Definition MAX_MANIFEST_TEXT : nat := 512.
Definition MAX_SLOT_MANIFEST_BYTES : nat := MAX_MANIFEST_TEXT + SIGNATURE_BYTES.
Definition MAX_VERSION_BYTES : nat := 32.
Definition SIGNATURE_DOMAIN : list N := text "nagi-slot-manifest-v1" ++ [0].
Definition HEADER : list N := text "nagi-slot-manifest 1".

(** ** Manifests *)

Module ManifestError.
Inductive t := InvalidLength | Signature | Malformed.
End ManifestError.

Module PayloadKind.
Inductive t := Kernel | Init.
End PayloadKind.

Module PayloadError.
Inductive t := Size | Digest.
End PayloadError.

Module PayloadDigest.
Record t := mk { size : N; sha256 : list N }.

Section payload.
Context `{Sha256}.

Definition of_bytes (bytes : list N) : t := mk (N.of_nat (length bytes)) (sha256_digest bytes).

Definition check (self : t) (bytes : list N) : Result unit PayloadError.t :=
  if decide (N.of_nat (length bytes) <> size self) then Err PayloadError.Size
  else if decide (sha256 (of_bytes bytes) <> sha256 self) then Err PayloadError.Digest
  else Ok tt.
End payload.
End PayloadDigest.

#[local] Instance is_byte_decision b : Decision (is_byte b).
Proof. unfold is_byte. apply _. Defined.

Definition version_byte (byte : N) : Prop := is_ascii_alphanumeric byte \/ byte = 46 \/ byte = 45 \/ byte = 43.

#[global] Instance version_byte_dec byte : Decision (version_byte byte).
Proof. unfold version_byte. apply _. Defined.

Definition valid_version (version : list N) : bool :=
  bool_decide (version <> []) && bool_decide (length version <= MAX_VERSION_BYTES)%nat
  && bool_decide (Forall version_byte version).

(** The closure of [parse_decimal], folded over the digits. *)
Fixpoint fold_decimal (value : N) (digits : list N) : option N :=
  match digits with
  | [] => Some value
  | digit :: digits =>
      if decide (is_ascii_digit digit) then
        match u64_checked_mul value 10 with
        | None => None
        | Some value => match u64_checked_add value (digit - 48) with
                        | None => None
                        | Some value => fold_decimal value digits
                        end
        end
      else None
  end.

Definition parse_decimal (digits : list N) : option N :=
  if decide (digits = [] \/ (20 < length digits)%nat \/ ((1 < length digits)%nat /\ head digits = Some 48))
  then None else fold_decimal 0 digits.

Definition nibble (digit : N) : option N :=
  if decide (48 <= digit <= 57) then Some (digit - 48)
  else if decide (97 <= digit <= 102) then Some (digit - 97 + 10)
  else None.

(** The loop of [parse_digest] over the pairs of digits. *)
Fixpoint parse_pairs (digits : list N) : option (list N) :=
  match digits with
  | high :: low :: digits =>
      match nibble high, nibble low with
      | Some high, Some low =>
          match parse_pairs digits with
          | Some bytes => Some (N.lor (N.shiftl high 4) low :: bytes)
          | None => None
          end
      | _, _ => None
      end
  | _ => Some []
  end.

Definition parse_digest (digits : list N) : option (list N) :=
  if decide (length digits <> 64%nat) then None else parse_pairs digits.

(** [text.strip_suffix(b"\n")] *)
Definition strip_newline (s : list N) : option (list N) :=
  match reverse s with
  | byte :: rest => if decide (byte = 10) then Some (reverse rest) else None
  | [] => None
  end.

(** *** Writing *)

Module Writer.
Record t := mk { output : list N; length : nat }.

Definition put (self : t) (bytes : list N) : Exec t :=
  let! output := copy_into (output self) (length self) bytes in
  Ret (mk output (length self + List.length bytes)).

Fixpoint hex (self : t) (bytes : list N) : Exec t :=
  match bytes with
  | [] => Ret self
  | byte :: bytes =>
      let! high := index (text "0123456789abcdef") (N.to_nat (N.shiftr byte 4)) in
      let! low := index (text "0123456789abcdef") (N.to_nat (N.land byte 15)) in
      let! self := put self [high; low] in
      hex self bytes
  end.

(** The loop of [decimal]; a store after the last digit panics, so that 21
    rounds are all there can be. *)
Fixpoint decimal_loop (fuel : nat) (digits : list N) (count : nat) (value : N) : Exec (list N * nat) :=
  match fuel with
  | O => Panic
  | S fuel =>
      let! digits := store digits count (48 + value mod 10) in
      let count := (count + 1)%nat in
      let value := value / 10 in
      if decide (value = 0) then Ret (digits, count) else decimal_loop fuel digits count value
  end.

Definition decimal (self : t) (value : N) : Exec t :=
  let! (digits, count) := decimal_loop 21 (replicate 20 0) 0 value in
  let! digits := slice_to digits count in
  put self (reverse digits).
End Writer.

(** *** The manifest *)

Module SlotManifest.
Record t := mk {
  version_bytes : list N;
  version_length : N;
  rollback_index : N;
  kernel : PayloadDigest.t;
  init : PayloadDigest.t
}.

Definition new (version : list N) (rollback_index : N) (kernel init : PayloadDigest.t)
  : Exec (Result t ManifestError.t) :=
  if negb (valid_version version) then Ret (Err ManifestError.Malformed)
  else
    let! stored := copy_into (replicate MAX_VERSION_BYTES 0) 0 version in
    Ret (Ok (mk stored (N.of_nat (length version) mod 256) rollback_index kernel init)).

Definition version (self : t) : Exec (list N) := slice_to (version_bytes self) (N.to_nat (version_length self)).

Definition payload (self : t) (kind : PayloadKind.t) : PayloadDigest.t :=
  match kind with PayloadKind.Kernel => kernel self | PayloadKind.Init => init self end.

(** The closure [field]: the value of the next line, and the lines after it. *)
Definition field (key : list N) (lines : list (list N)) : Result (list N * list (list N)) ManifestError.t :=
  match lines with
  | [] => Err ManifestError.Malformed
  | line :: lines =>
      match strip_prefix key line with
      | None => Err ManifestError.Malformed
      | Some rest => match strip_prefix (text "=") rest with
                     | None => Err ManifestError.Malformed
                     | Some value => Ok (value, lines)
                     end
      end
  end.

Definition parse_text (s : list N) : Exec (Result t ManifestError.t) :=
  let malformed := ManifestError.Malformed in
  let* s := Ret (ok_or (strip_newline s) malformed) in
  let lines := split 10 s in
  if decide (head lines <> Some HEADER) then Ret (Err malformed)
  else
    let lines := tail lines in
    let* (version, lines) := Ret (field (text "version") lines) in
    let* (value, lines) := Ret (field (text "rollback-index") lines) in
    let* rollback_index := Ret (ok_or (parse_decimal value) malformed) in
    let* (value, lines) := Ret (field (text "kernel-sha256") lines) in
    let* kernel_sha256 := Ret (ok_or (parse_digest value) malformed) in
    let* (value, lines) := Ret (field (text "kernel-size") lines) in
    let* kernel_size := Ret (ok_or (parse_decimal value) malformed) in
    let* (value, lines) := Ret (field (text "init-sha256") lines) in
    let* init_sha256 := Ret (ok_or (parse_digest value) malformed) in
    let* (value, lines) := Ret (field (text "init-size") lines) in
    let* init_size := Ret (ok_or (parse_decimal value) malformed) in
    if decide (is_Some (head lines) \/ kernel_size = 0 \/ init_size = 0) then Ret (Err malformed)
    else new version rollback_index (PayloadDigest.mk kernel_size kernel_sha256)
           (PayloadDigest.mk init_size init_sha256).

Definition newline (s : string) : list N := 10 :: text s.

Definition encode_text (self : t) (output : list N) : Exec (nat * list N) :=
  let! writer := Writer.put (Writer.mk output 0) HEADER in
  let! writer := Writer.put writer (newline "version=") in
  let! v := version self in
  let! writer := Writer.put writer v in
  let! writer := Writer.put writer (newline "rollback-index=") in
  let! writer := Writer.decimal writer (rollback_index self) in
  let! writer := Writer.put writer (newline "kernel-sha256=") in
  let! writer := Writer.hex writer (PayloadDigest.sha256 (kernel self)) in
  let! writer := Writer.put writer (newline "kernel-size=") in
  let! writer := Writer.decimal writer (PayloadDigest.size (kernel self)) in
  let! writer := Writer.put writer (newline "init-sha256=") in
  let! writer := Writer.hex writer (PayloadDigest.sha256 (init self)) in
  let! writer := Writer.put writer (newline "init-size=") in
  let! writer := Writer.decimal writer (PayloadDigest.size (init self)) in
  let! writer := Writer.put writer [10] in
  Ret (Writer.length writer, Writer.output writer).

Section signed.
Context `{Ed25519}.

(** [message], with the text after the domain. *)
Definition signed_message (s : list N) : Exec (list N) :=
  let domain := length SIGNATURE_DOMAIN in
  let! message := copy_into (replicate (domain + MAX_MANIFEST_TEXT) 0) 0 SIGNATURE_DOMAIN in
  let! message := copy_into message domain s in
  slice_to message (domain + length s).

Definition verify (file public_key : list N) : Exec (Result t ManifestError.t) :=
  if decide (length file <= SIGNATURE_BYTES \/ MAX_SLOT_MANIFEST_BYTES < length file)%nat
  then Ret (Err ManifestError.InvalidLength)
  else
    let split_at := (length file - SIGNATURE_BYTES)%nat in
    let text := take split_at file in
    let signature := drop split_at file in
    let* key := Ret (ok_or (verifying_key public_key) ManifestError.Signature) in
    let* signature := Ret (ok_or (signature_from_slice signature) ManifestError.Signature) in
    let! message := signed_message text in
    if verify_strict key message signature then parse_text text else Ret (Err ManifestError.Signature).

Definition encode_signed (self : t) (secret output : list N) : Exec (nat * list N) :=
  let! (length, text) := encode_text self (replicate MAX_MANIFEST_TEXT 0) in
  let! text := slice_to text length in
  let! message := signed_message text in
  let signature := sign secret message in
  let! output := copy_into output 0 text in
  let! output := copy_into output length signature in
  Ret ((length + SIGNATURE_BYTES)%nat, output).
End signed.
End SlotManifest.

Definition permits_trial (confirmed candidate : SlotManifest.t) : bool :=
  bool_decide (SlotManifest.rollback_index confirmed <= SlotManifest.rollback_index candidate).

(** ** Update bundles *)

Definition BUNDLE_MAGIC : list N := text "NAGIUPD1".
Definition BUNDLE_HEADER_BYTES : nat := 24.

Module BundleError.
Inductive t :=
| Layout
| Manifest (error : ManifestError.t)
| Payload (kind : PayloadKind.t) (error : PayloadError.t).
End BundleError.

Module UpdateBundle.
Record t := mk { manifest : SlotManifest.t; manifest_file : list N; kernel : list N; init : list N }.

Section bundle.
Context `{Ed25519, Sha256}.

(** The closure [length]: four bytes of the header. *)
Definition section_length (header : list N) (offset : nat) : Exec N :=
  let! bytes := slice header offset 4 in Ret (from_le_bytes bytes).

(** [left.split_at(n)] *)
Definition split_at (bytes : list N) (n : nat) : Exec (list N * list N) :=
  if decide (n <= length bytes)%nat then Ret (take n bytes, drop n bytes) else Panic.

(** The sum of the lengths, unless it overflows [usize]. *)
Definition total_length (manifest kernel init : N) : option N :=
  match u64_checked_add (N.of_nat BUNDLE_HEADER_BYTES) manifest with
  | None => None
  | Some total => match u64_checked_add total kernel with
                  | None => None
                  | Some total => u64_checked_add total init
                  end
  end.

Definition verify (bytes public_key : list N) : Exec (Result t BundleError.t) :=
  if decide (length bytes < BUNDLE_HEADER_BYTES)%nat then Ret (Err BundleError.Layout)
  else
    let header := take BUNDLE_HEADER_BYTES bytes in
    let! magic := slice_to header 8 in
    let! reserved := slice header 20 4 in
    if decide (magic <> BUNDLE_MAGIC \/ reserved <> replicate 4 0) then Ret (Err BundleError.Layout)
    else
      let! manifest_length := section_length header 8 in
      let! kernel_length := section_length header 12 in
      let! init_length := section_length header 16 in
      let* total := Ret (ok_or (total_length manifest_length kernel_length init_length) BundleError.Layout) in
      if decide (total <> N.of_nat (length bytes)) then Ret (Err BundleError.Layout)
      else
        let! (manifest_file, rest) := split_at (drop BUNDLE_HEADER_BYTES bytes) (N.to_nat manifest_length) in
        let! (kernel, init) := split_at rest (N.to_nat kernel_length) in
        let! verified := SlotManifest.verify manifest_file public_key in
        let* manifest := Ret (map_err BundleError.Manifest verified) in
        let* _ := Ret (map_err (BundleError.Payload PayloadKind.Kernel)
                         (PayloadDigest.check (SlotManifest.kernel manifest) kernel)) in
        let* _ := Ret (map_err (BundleError.Payload PayloadKind.Init)
                         (PayloadDigest.check (SlotManifest.init manifest) init)) in
        Ret (Ok (mk manifest manifest_file kernel init)).
End bundle.
End UpdateBundle.

Definition bundle_header (manifest_length kernel_length init_length : N) : Exec (list N) :=
  let! header := copy_into (replicate BUNDLE_HEADER_BYTES 0) 0 BUNDLE_MAGIC in
  let! header := copy_into header 8 (to_le_bytes 4 manifest_length) in
  let! header := copy_into header 12 (to_le_bytes 4 kernel_length) in
  copy_into header 16 (to_le_bytes 4 init_length).

(** ** What the text should be *)

Definition hex_digit (n : N) : N := if decide (n < 10) then 48 + n else 87 + n.

Definition hex_text (bytes : list N) : list N := bytes ≫= fun b => [hex_digit (b / 16); hex_digit (b mod 16)].

Definition digest_ok (d : PayloadDigest.t) : Prop :=
  0 < PayloadDigest.size d <= U64_MAX
  /\ length (PayloadDigest.sha256 d) = 32%nat /\ Forall is_byte (PayloadDigest.sha256 d).

Record manifest_ok (m : SlotManifest.t) (v : list N) : Prop := {
  manifest_version : valid_version v = true;
  manifest_bytes : SlotManifest.version_bytes m = v ++ replicate (MAX_VERSION_BYTES - length v) 0;
  manifest_length : SlotManifest.version_length m = N.of_nat (length v);
  manifest_rollback : SlotManifest.rollback_index m <= U64_MAX;
  manifest_kernel : digest_ok (SlotManifest.kernel m);
  manifest_init : digest_ok (SlotManifest.init m)
}.

(** The lines of the manifest with version [v]. *)
Definition entry (key : string) (value : list N) : list N := text key ++ text "=" ++ value.

Definition manifest_lines (m : SlotManifest.t) (v : list N) : list (list N) :=
  [HEADER;
   entry "version" v;
   entry "rollback-index" (to_decimal (SlotManifest.rollback_index m));
   entry "kernel-sha256" (hex_text (PayloadDigest.sha256 (SlotManifest.kernel m)));
   entry "kernel-size" (to_decimal (PayloadDigest.size (SlotManifest.kernel m)));
   entry "init-sha256" (hex_text (PayloadDigest.sha256 (SlotManifest.init m)));
   entry "init-size" (to_decimal (PayloadDigest.size (SlotManifest.init m)))].

Definition manifest_text (m : SlotManifest.t) (v : list N) : list N :=
  (manifest_lines m v) ≫= fun line => line ++ [10].

(** ** Decimal numbers *)

Definition decimal_value (value : N) (digits : list N) : N :=
  foldl (fun a d => 10 * a + (d - 48)) value digits.

Lemma decimal_value_ge digits : forall value, value <= decimal_value value digits.
Proof.
  induction digits as [|d digits IH]; intros value; cbn; [done|].
  specialize (IH (10 * value + (d - 48))). unfold decimal_value in IH. lia.
Qed.

Lemma fold_decimal_spec digits : forall value v, value <= U64_MAX ->
  fold_decimal value digits = Some v
  <-> Forall is_ascii_digit digits /\ decimal_value value digits = v /\ v <= U64_MAX.
Proof.
  induction digits as [|d digits IH]; intros value v Hv; cbn [fold_decimal].
  { cbn. split; [intros [= ->]; done|intros (_&->&_); done]. }
  rewrite Forall_cons. change (decimal_value value (d :: digits)) with (decimal_value (10 * value + (d - 48)) digits).
  pose proof (decimal_value_ge digits (10 * value + (d - 48))) as Hge.
  case_decide as Hd; [|split; [done|tauto]]. unfold u64_checked_mul, u64_checked_add.
  case_decide as H1; [|split; [done|lia]]. case_decide as H2; [|split; [done|lia]].
  replace (value * 10 + (d - 48)) with (10 * value + (d - 48)) by lia. rewrite IH by lia. tauto.
Qed.

Lemma decimal_value_snoc digits d : decimal_value 0 (digits ++ [d]) = 10 * decimal_value 0 digits + (d - 48).
Proof. unfold decimal_value. by rewrite foldl_snoc. Qed.

(** Digits without a leading zero. *)
Definition canonical (digits : list N) : Prop :=
  digits <> [] /\ Forall is_ascii_digit digits /\ ~ ((1 < length digits)%nat /\ head digits = Some 48).

Lemma canonical_to_decimal digits : canonical digits -> digits = to_decimal (decimal_value 0 digits).
Proof.
  induction digits as [|d digits IH] using rev_ind; intros (Hne&Hd&Hz); [done|].
  apply Forall_app in Hd as [Hds [Hd _]%Forall_cons]. unfold is_ascii_digit in Hd.
  rewrite decimal_value_snoc, to_decimal_digits.
  assert (Hdiv : (10 * decimal_value 0 digits + (d - 48)) / 10 = decimal_value 0 digits) by div_lia.
  assert (Hmod : 48 + (10 * decimal_value 0 digits + (d - 48)) mod 10 = d) by div_lia.
  rewrite Hdiv, Hmod. f_equal. destruct digits as [|x digits].
  { rewrite decide_True; [done|]. cbn. lia. }
  assert (Hx : x <> 48).
  { intros ->. apply Hz. rewrite length_app. cbn. split; [lia|done]. }
  apply Forall_cons in Hds as [Hx' Hds]. unfold is_ascii_digit in Hx'.
  pose proof (decimal_value_ge digits (10 * 0 + (x - 48))) as Hge.
  rewrite decide_False by (change (decimal_value 0 (x :: digits)) with (decimal_value (10 * 0 + (x - 48)) digits); lia).
  apply IH. split; [done|]. split; [by constructor|]. cbn. naive_solver.
Qed.

Lemma to_decimal_canonical v : canonical (to_decimal v) /\ decimal_value 0 (to_decimal v) = v
  /\ (v <> 0 -> head (to_decimal v) <> Some 48).
Proof.
  induction v as [v IH] using (well_founded_induction N.lt_wf_0). rewrite to_decimal_digits.
  assert (Hmod : v mod 10 < 10) by (apply N.mod_lt; lia).
  assert (Hd : is_ascii_digit (48 + v mod 10)) by (unfold is_ascii_digit; lia).
  rewrite decimal_value_snoc. case_decide as Hv.
  - rewrite N.mod_small by done. split_and!; [split_and!; [done|by constructor; [unfold is_ascii_digit; lia|]|cbn; lia]|cbn; lia|].
    intros Hne [= ?]. lia.
  - assert (Hlt : v / 10 < v) by (apply N.div_lt; lia).
    destruct (IH (v / 10) Hlt) as ((Hne&Hds&Hz)&Hval&Hhead).
    assert (Hnz : v / 10 <> 0) by div_lia. specialize (Hhead Hnz).
    assert (Hh : head (to_decimal (v / 10) ++ [48 + v mod 10]) <> Some 48) by (by destruct (to_decimal (v / 10))).
    rewrite Hval. split_and!; [split_and!|div_lia|done].
    + by destruct (to_decimal (v / 10)).
    + apply Forall_app. split; [done|by constructor].
    + tauto.
Qed.

Lemma to_decimal_length k : forall v, (1 <= k)%nat -> v < 10 ^ N.of_nat k -> (length (to_decimal v) <= k)%nat.
Proof.
  induction k as [|k IH]; intros v Hk Hv; [lia|]. rewrite to_decimal_digits, length_app. cbn [length].
  case_decide as Hlt; [cbn; lia|]. rewrite Nat2N.inj_succ, N.pow_succ_r' in Hv.
  assert (v / 10 < 10 ^ N.of_nat k) by (apply N.Div0.div_lt_upper_bound; lia).
  destruct k as [|k]; [cbn in *; div_lia|]. specialize (IH (v / 10) ltac:(lia) ltac:(done)). lia.
Qed.

Lemma to_decimal_u64 v : v <= U64_MAX -> (length (to_decimal v) <= 20)%nat.
Proof. intros Hv. apply to_decimal_length; [lia|]. unfold U64_MAX in Hv. cbn. lia. Qed.

(** The decimal numbers of a manifest are canonical. *)
Lemma parse_decimal_spec s v : parse_decimal s = Some v <-> v <= U64_MAX /\ s = to_decimal v.
Proof.
  unfold parse_decimal. split.
  - case_decide as Hs; [done|]. apply not_or_and in Hs as [Hne [_ Hz]%not_or_and].
    intros (Hd&<-&Hv)%fold_decimal_spec; [|unfold U64_MAX; lia]. split; [done|]. by apply canonical_to_decimal.
  - intros [Hv ->]. destruct (to_decimal_canonical v) as ((Hne&Hd&Hz)&Hval&_).
    pose proof (to_decimal_u64 v Hv). rewrite decide_False by (intros [?|[?|?]]; [done|lia|done]).
    apply fold_decimal_spec; [unfold U64_MAX; lia|done].
Qed.

(** ** Digests *)

Lemma nibble_spec c n : nibble c = Some n <-> n < 16 /\ c = hex_digit n.
Proof.
  unfold nibble, hex_digit. split.
  - case_decide as H1; [intros [= <-]; case_decide; lia|].
    case_decide as H2; [intros [= <-]; case_decide; lia|done].
  - intros [Hn ->]. destruct (decide (n < 10)).
    + rewrite decide_True by lia. f_equal. lia.
    + rewrite decide_False by lia. rewrite decide_True by lia. f_equal. lia.
Qed.

Lemma join_nibbles h l : h < 16 -> l < 16 -> N.lor (N.shiftl h 4) l = 16 * h + l.
Proof.
  assert (Hall : forall a b, (a < 16)%nat -> (b < 16)%nat ->
    N.lor (N.shiftl (N.of_nat a) 4) (N.of_nat b) = 16 * N.of_nat a + N.of_nat b).
  { intros a b Ha Hb. do 16 (destruct a as [|a]; [clear Ha; do 16 (destruct b as [|b]; [done|]); lia|]). lia. }
  intros Hh Hl. specialize (Hall (N.to_nat h) (N.to_nat l) ltac:(lia) ltac:(lia)). by rewrite !N2Nat.id in Hall.
Qed.

Lemma hex_text_cons b d : hex_text (b :: d) = [hex_digit (b / 16); hex_digit (b mod 16)] ++ hex_text d.
Proof. done. Qed.

Lemma parse_pairs_spec n : forall s d, length s = (2 * n)%nat ->
  parse_pairs s = Some d <-> length d = n /\ Forall is_byte d /\ s = hex_text d.
Proof.
  induction n as [|n IH]; intros s d Hs.
  { destruct s; [|done]. cbn. split; [intros [= <-]; done|]. by intros (->%nil_length_inv&_&_). }
  destruct s as [|h [|l s]]; [cbn in Hs; lia..|]. cbn [length] in Hs. cbn [parse_pairs]. split.
  - destruct (nibble h) as [h'|] eqn:Hh; [|done]. destruct (nibble l) as [l'|] eqn:Hl; [|done].
    destruct (parse_pairs s) as [bytes|] eqn:Hp; [|done]. intros [= <-].
    apply nibble_spec in Hh as [Hh ->], Hl as [Hl ->]. rewrite join_nibbles by done.
    apply IH in Hp as (Hlen&Hb&->); [|lia]. split; [cbn; lia|]. split; [constructor; [unfold is_byte; lia|done]|].
    rewrite hex_text_cons.
    replace ((16 * h' + l') / 16) with h' by div_lia. by replace ((16 * h' + l') mod 16) with l' by div_lia.
  - intros (Hlen&Hb&Heq). destruct d as [|b d]; [done|]. apply Forall_cons in Hb as [Hb Hd]. unfold is_byte in Hb.
    rewrite hex_text_cons in Heq.
    injection Heq as -> -> ->.
    rewrite (proj2 (nibble_spec _ (b / 16))) by (split; [div_lia|done]).
    rewrite (proj2 (nibble_spec _ (b mod 16))) by (split; [div_lia|done]).
    rewrite (proj2 (IH (hex_text d) d ltac:(lia))) by (cbn in Hlen; split; [lia|done]).
    rewrite join_nibbles by div_lia. do 2 f_equal. div_lia.
Qed.

Lemma hex_text_length d : length (hex_text d) = (2 * length d)%nat.
Proof. induction d as [|b d IH]; [done|]. rewrite hex_text_cons, length_app, IH. cbn. lia. Qed.

Lemma parse_digest_spec s d :
  parse_digest s = Some d <-> length d = 32%nat /\ Forall is_byte d /\ s = hex_text d.
Proof.
  unfold parse_digest. case_decide as Hs.
  - split; [done|]. intros (Hd&_&->). rewrite hex_text_length in Hs. lia.
  - apply (parse_pairs_spec 32). lia.
Qed.

(** ** Writing *)

(** The writer has written [s] into an output of [n] bytes. *)
Definition wrote (w : Writer.t) (s : list N) (n : nat) : Prop :=
  Writer.length w = length s /\ length (Writer.output w) = n /\ take (length s) (Writer.output w) = s.

Definition writes (e : Exec Writer.t) (s : list N) (n : nat) : Prop :=
  match e with Ret w => wrote w s n | Panic => False end.

Lemma put_writes w s n bytes : wrote w s n -> (length s + length bytes <= n)%nat ->
  writes (Writer.put w bytes) (s ++ bytes) n.
Proof.
  intros (Hl&Hn&Hs) Hfit. unfold Writer.put. rewrite copy_into_Ret by lia. rewrite Hl. split_and!; cbn.
  - by rewrite length_app.
  - rewrite !length_app, length_take, length_drop. lia.
  - rewrite Hs, app_assoc, length_app, take_app_le by (rewrite length_app; lia).
    by rewrite <-length_app, firstn_all.
Qed.

Lemma hex_index b : is_byte b ->
  index (text "0123456789abcdef") (N.to_nat (N.shiftr b 4)) = Ret (hex_digit (b / 16))
  /\ index (text "0123456789abcdef") (N.to_nat (N.land b 15)) = Ret (hex_digit (b mod 16)).
Proof.
  unfold is_byte. intros Hb. rewrite N.shiftr_div_pow2. change (2 ^ 4) with 16.
  change 15 with (N.ones 4). rewrite N.land_ones. change (2 ^ 4) with 16.
  assert (Hall : forall n, (n < 16)%nat -> index (text "0123456789abcdef") n = Ret (hex_digit (N.of_nat n))).
  { intros n Hn. do 16 (destruct n as [|n]; [by vm_compute|]). lia. }
  split; (rewrite Hall; [by rewrite N2Nat.id|div_lia]).
Qed.

Lemma hex_writes bytes : forall w s n, Forall is_byte bytes ->
  wrote w s n -> (length s + 2 * length bytes <= n)%nat -> writes (Writer.hex w bytes) (s ++ hex_text bytes) n.
Proof.
  induction bytes as [|b bytes IH]; intros w s n Hb Hw Hfit; cbn [Writer.hex].
  { change (hex_text []) with (@nil N). by rewrite app_nil_r. }
  apply Forall_cons in Hb as [Hb Hbs]. destruct (hex_index b Hb) as [-> ->]. cbn [length] in Hfit.
  pose proof (put_writes w s n [hex_digit (b / 16); hex_digit (b mod 16)] Hw) as Hput. cbn [length] in Hput.
  destruct (Writer.put w _) as [w'|]; [|by apply Hput; lia].
  rewrite hex_text_cons, app_assoc. apply IH; [done|apply Hput; lia|]. rewrite length_app. cbn. lia.
Qed.

Lemma decimal_loop_spec fuel : forall digits count v,
  (length (to_decimal v) <= fuel)%nat -> (count + length (to_decimal v) <= length digits)%nat ->
  exists digits', Writer.decimal_loop fuel digits count v = Ret (digits', (count + length (to_decimal v))%nat)
    /\ length digits' = length digits
    /\ take (count + length (to_decimal v)) digits' = take count digits ++ reverse (to_decimal v).
Proof.
  induction fuel as [|fuel IH]; intros digits count v; rewrite to_decimal_digits, length_app; cbn [length Writer.decimal_loop];
    [lia|].
  intros Hf Hfit. rewrite store_Ret by lia.
  assert (Hz : v / 10 = 0 <-> v < 10) by (split; intros; div_lia).
  set (d := 48 + v mod 10) in *.
  assert (Htake : take (count + 1) (<[count := d]> digits) = take count digits ++ [d]).
  { rewrite Nat.add_1_r. apply take_insert_end. lia. }
  case_decide as Hv; [rewrite decide_True in * by lia|rewrite decide_False in * by lia].
  - cbn [length]. eexists. split; [done|]. rewrite length_insert. split; [done|]. exact Htake.
  - destruct (IH (<[count := d]> digits) (count + 1)%nat (v / 10)) as (digits'&Heq&Hlen&Htk);
      [lia|rewrite length_insert; lia|].
    rewrite length_insert in Hlen. exists digits'. rewrite Heq. split; [do 2 f_equal; lia|]. split; [done|].
    replace (count + (length (to_decimal (v / 10)) + 1))%nat with (count + 1 + length (to_decimal (v / 10)))%nat by lia.
    by rewrite Htk, Htake, reverse_snoc, <-app_assoc.
Qed.

Lemma decimal_writes w s n v : wrote w s n -> v <= U64_MAX ->
  (length s + length (to_decimal v) <= n)%nat -> writes (Writer.decimal w v) (s ++ to_decimal v) n.
Proof.
  intros Hw Hv Hfit. unfold Writer.decimal. pose proof (to_decimal_u64 v Hv) as Hlen.
  destruct (decimal_loop_spec 21 (replicate 20 0) 0 v) as (digits&->&Hl&Ht); [lia|rewrite length_replicate; lia|].
  rewrite length_replicate in Hl. cbn [Nat.add] in *. rewrite slice_to_Ret by lia.
  rewrite Ht, take_0, app_nil_l, reverse_involutive. by apply put_writes.
Qed.

(** Code that writes [s] into an output of [n] bytes. *)
Definition finishes (e : Exec (nat * list N)) (s : list N) (n : nat) : Prop :=
  exists out, e = Ret (length s, out) /\ length out = n /\ take (length s) out = s.

Lemma writes_finishes e s n (k : Writer.t -> Exec (nat * list N)) s' :
  writes e s n -> (forall w, wrote w s n -> finishes (k w) s' n) -> finishes (let! w := e in k w) s' n.
Proof. destruct e as [w|]; [auto|done]. Qed.

Lemma manifest_text_eq m v :
  manifest_text m v
  = ((((((((((((([] ++ HEADER) ++ SlotManifest.newline "version=") ++ v)
      ++ SlotManifest.newline "rollback-index=") ++ to_decimal (SlotManifest.rollback_index m))
      ++ SlotManifest.newline "kernel-sha256=") ++ hex_text (PayloadDigest.sha256 (SlotManifest.kernel m)))
      ++ SlotManifest.newline "kernel-size=") ++ to_decimal (PayloadDigest.size (SlotManifest.kernel m)))
      ++ SlotManifest.newline "init-sha256=") ++ hex_text (PayloadDigest.sha256 (SlotManifest.init m)))
      ++ SlotManifest.newline "init-size=") ++ to_decimal (PayloadDigest.size (SlotManifest.init m))) ++ [10].
Proof.
  unfold manifest_text, manifest_lines, entry. cbn [mbind list_bind]. rewrite app_nil_r.
  by repeat (rewrite <-app_assoc || rewrite app_nil_l).
Qed.

Lemma valid_version_spec v : valid_version v = true <-> v <> [] /\ (length v <= 32)%nat /\ Forall version_byte v.
Proof. unfold valid_version. rewrite !andb_true_iff, !bool_decide_eq_true. unfold MAX_VERSION_BYTES. tauto. Qed.

Lemma manifest_text_length m v : manifest_ok m v -> (length (manifest_text m v) <= 318)%nat.
Proof.
  intros [(_&Hv&_)%valid_version_spec _ _ Hr [[_ Hk] [Hkl _]] [[_ Hi] [Hil _]]]. rewrite manifest_text_eq, !length_app, !hex_text_length, Hkl, Hil.
  pose proof (to_decimal_u64 _ Hr). pose proof (to_decimal_u64 _ Hk). pose proof (to_decimal_u64 _ Hi).
  repeat match goal with |- context [length (SlotManifest.newline ?s)] =>
    let n := eval vm_compute in (length (SlotManifest.newline s)) in change (length (SlotManifest.newline s)) with n end.
  change (length HEADER) with 20%nat. cbn [length]. lia.
Qed.

Lemma encode_text_spec m v output : manifest_ok m v -> length output = MAX_MANIFEST_TEXT ->
  finishes (SlotManifest.encode_text m output) (manifest_text m v) MAX_MANIFEST_TEXT.
Proof.
  intros Hok Ho. pose proof (manifest_text_length m v Hok) as Hlen. rewrite manifest_text_eq in *.
  destruct Hok as [Hv Hb Hl Hr [[_ Hk] [Hkl Hkb]] [[_ Hi] [Hil Hib]]].
  apply valid_version_spec in Hv as (_&Hv&_).
  unfold SlotManifest.encode_text, SlotManifest.version.
  assert (Hver : slice_to (SlotManifest.version_bytes m) (N.to_nat (SlotManifest.version_length m)) = Ret v).
  { rewrite Hl, Hb, Nat2N.id, slice_to_Ret by (rewrite length_app; lia). by rewrite take_app_length. }
  assert (H0 : wrote (Writer.mk output 0) [] MAX_MANIFEST_TEXT) by done.
  unfold MAX_MANIFEST_TEXT in *. rewrite !length_app, !hex_text_length, Hkl, Hil in Hlen.
  repeat (rewrite ?Hver; eapply writes_finishes;
    [first [apply put_writes | apply decimal_writes | apply hex_writes]; try eassumption;
     rewrite ?length_app, ?hex_text_length, ?Hkl, ?Hil; cbn [length]; lia|intros ? Hw; clear H0; rename Hw into H0]).
  destruct H0 as (Hlw&Hnw&Htw). eexists. by rewrite Hlw.
Qed.

(** ** Reading *)

Lemma split_nosep c s : c ∉ s -> split c s = [s].
Proof.
  induction s as [|x s IH]; [done|]. rewrite not_elem_of_cons. intros [Hx Hs]. cbn [split].
  rewrite decide_False by done. by rewrite IH.
Qed.

Lemma split_sep c s rest : c ∉ s -> split c (s ++ c :: rest) = s :: split c rest.
Proof.
  induction s as [|x s IH]; [cbn; by rewrite decide_True|]. rewrite not_elem_of_cons. intros [Hx Hs].
  cbn [split app]. rewrite decide_False by done. by rewrite IH.
Qed.

Lemma lines_join c (ls : list (list N)) :
  mjoin (cons c <$> ls) ++ [c] = c :: (ls ≫= fun l => l ++ [c]).
Proof.
  induction ls as [|l ls IH]; [done|]. rewrite fmap_cons, bind_cons.
  change (mjoin ((c :: l) :: ?r)) with (c :: l ++ mjoin r). rewrite <-app_comm_cons, <-app_assoc, IH.
  by rewrite <-app_assoc.
Qed.

Lemma lines_end c (ls : list (list N)) : ls <> [] -> exists s, (ls ≫= fun l => l ++ [c]) = s ++ [c].
Proof.
  intros Hne. destruct (exists_last Hne) as (ls'&l&->). rewrite bind_app, bind_singleton.
  eexists. by rewrite app_assoc.
Qed.

(** The pieces of a text are its lines. *)
Lemma split_lines c s (ls : list (list N)) : ls <> [] -> Forall (fun l => c ∉ l) ls ->
  split c s = ls <-> s ++ [c] = ls ≫= fun l => l ++ [c].
Proof.
  intros Hne Hls. split.
  - intros Hs. pose proof (split_join c s) as Hj. rewrite Hs in Hj.
    pose proof (lines_join c ls) as Hl. rewrite Hj in Hl. by injection Hl.
  - revert s. induction Hls as [|l ls Hl Hls IH]; intros s; [done|]. rewrite bind_cons.
    destruct (decide (ls = [])) as [->|Hne'].
    { cbn [mbind list_bind]. rewrite app_nil_r. intros [-> _]%app_inj_tail. by apply split_nosep. }
    destruct (lines_end c ls Hne') as [t Ht]. rewrite Ht, !app_assoc.
    intros [-> _]%app_inj_tail. rewrite <-app_assoc. cbn [app]. rewrite split_sep by done. f_equal.
    by apply IH.
Qed.

Lemma strip_newline_spec s s' : strip_newline s = Some s' <-> s = s' ++ [10].
Proof.
  unfold strip_newline. split.
  - destruct (reverse s) as [|x r] eqn:Hr; [done|]. case_decide as Hx; [|done]. intros [= <-].
    by rewrite <-Hx, <-reverse_cons, <-Hr, reverse_involutive.
  - intros ->. by rewrite reverse_snoc, reverse_involutive, decide_True.
Qed.

Lemma field_spec key lines v rest :
  SlotManifest.field key lines = Ok (v, rest) <-> lines = (key ++ text "=" ++ v) :: rest.
Proof.
  unfold SlotManifest.field. destruct lines as [|line lines]; [done|].
  split.
  - destruct (strip_prefix key line) as [r|] eqn:H1; [|done].
    destruct (strip_prefix (text "=") r) as [w|] eqn:H2; [|done].
    apply strip_prefix_Some in H1 as ->, H2 as ->. by intros [= -> ->].
  - intros [= -> ->]. rewrite (proj2 (strip_prefix_Some key _ (text "=" ++ v))) by done.
    by rewrite (proj2 (strip_prefix_Some (text "=") _ v)).
Qed.

Lemma new_spec v r k i m :
  SlotManifest.new v r k i = Ret (Ok m)
  <-> valid_version v = true
      /\ m = SlotManifest.mk (v ++ replicate (MAX_VERSION_BYTES - length v) 0) (N.of_nat (length v)) r k i.
Proof.
  unfold SlotManifest.new. destruct (valid_version v) eqn:Hv; cbn [negb]; [|naive_solver].
  apply valid_version_spec in Hv as (_&Hl&_).
  rewrite copy_into_Ret by (rewrite length_replicate; unfold MAX_VERSION_BYTES; lia).
  rewrite take_0, app_nil_l, drop_replicate, N.mod_small by lia. naive_solver.
Qed.

(** Code that fails with [e] only. *)
Definition fails_with {A E} (e : E) (x : Exec (Result A E)) : Prop :=
  x = Ret (Err e) \/ exists y, x = Ret (Ok y).

Lemma fails_try {A B E} (e : E) (m : Exec (Result A E)) (k : A -> Exec (Result B E)) :
  fails_with e m -> (forall x, fails_with e (k x)) -> fails_with e (try m k).
Proof. intros [-> |[x ->]] Hk; [by left|apply Hk]. Qed.

Lemma fails_ok_or {A E} (e : E) (o : option A) : fails_with e (Ret (ok_or o e)).
Proof. destruct o; [right|left]; cbn; eauto. Qed.

Lemma field_fails key lines : fails_with ManifestError.Malformed (Ret (SlotManifest.field key lines)).
Proof.
  unfold SlotManifest.field. destruct lines as [|line lines]; [by left|].
  destruct (strip_prefix key line) as [r|]; [|by left].
  destruct (strip_prefix _ r); [right; eauto|by left].
Qed.

Lemma parse_text_fails s : fails_with ManifestError.Malformed (SlotManifest.parse_text s).
Proof.
  unfold SlotManifest.parse_text. cbn zeta. apply fails_try; [apply fails_ok_or|intros s'].
  case_decide; [by left|].
  repeat (apply fails_try; [apply fails_ok_or || apply field_fails|first [intros [? ?] | intros ?]]).
  case_decide; [by left|]. match goal with |- fails_with _ (SlotManifest.new ?v _ _ _) =>
    destruct (valid_version v) eqn:Hv end; [right; eexists; by apply new_spec|left].
  unfold SlotManifest.new. by rewrite Hv.
Qed.

Lemma not_newline (P : N -> Prop) s : (forall c, P c -> c <> 10) -> Forall P s -> 10 ∉ s.
Proof. intros HP Hs Hin. eapply Forall_forall in Hs; [|exact Hin]. by apply HP in Hs. Qed.

Lemma entry_newline (key : string) s : bool_decide (10 ∉ text key ++ text "=") = true -> 10 ∉ s -> 10 ∉ entry key s.
Proof. unfold entry. rewrite bool_decide_eq_true, app_assoc, (not_elem_of_app (text key ++ _)). auto. Qed.

Lemma hex_text_newline d : Forall is_byte d -> 10 ∉ hex_text d.
Proof.
  induction d as [|b d IH]; [intros _; apply not_elem_of_nil|]. intros [Hb Hd]%Forall_cons. unfold is_byte in Hb.
  rewrite hex_text_cons, not_elem_of_app. split; [|by apply IH].
  apply (not_newline (fun c => 48 <= c)); [lia|]. repeat constructor; unfold hex_digit; case_decide; lia.
Qed.

Lemma to_decimal_newline v : 10 ∉ to_decimal v.
Proof.
  apply (not_newline is_ascii_digit); [unfold is_ascii_digit; lia|]. apply to_decimal_canonical.
Qed.

Lemma manifest_lines_clean m v : manifest_ok m v -> Forall (fun l => 10 ∉ l) (manifest_lines m v).
Proof.
  intros [(_&_&Hv)%valid_version_spec _ _ _ [_ [_ Hk]] [_ [_ Hi]]]. unfold manifest_lines.
  repeat constructor; [by apply (bool_decide_unpack _); vm_compute|..];
    (apply entry_newline; [by vm_compute|auto using hex_text_newline, to_decimal_newline]).
  apply (not_newline version_byte); [|done]. unfold version_byte, is_ascii_alphanumeric, is_ascii_lowercase, is_ascii_digit. lia.
Qed.

Lemma ok_or_Ok {A E} (o : option A) (e : E) x : ok_or o e = Ok x <-> o = Some x.
Proof. destruct o; cbn; naive_solver. Qed.

Lemma field_step {B} key v rest (k : list N * list (list N) -> Exec (Result B ManifestError.t)) :
  try (Ret (SlotManifest.field key ((key ++ text "=" ++ v) :: rest))) k = k (v, rest).
Proof. by rewrite (proj2 (field_spec key _ v rest)). Qed.

Lemma ok_or_step {A B E} (o : option A) (e : E) x (k : A -> Exec (Result B E)) :
  o = Some x -> try (Ret (ok_or o e)) k = k x.
Proof. by intros ->. Qed.

Lemma decimal_step {B E} (e : E) v (k : N -> Exec (Result B E)) :
  v <= U64_MAX -> try (Ret (ok_or (parse_decimal (to_decimal v)) e)) k = k v.
Proof. intros Hv. apply ok_or_step. by apply parse_decimal_spec. Qed.

Lemma digest_step {B E} (e : E) d (k : list N -> Exec (Result B E)) :
  length d = 32%nat /\ Forall is_byte d -> try (Ret (ok_or (parse_digest (hex_text d)) e)) k = k d.
Proof. intros [Hl Hd]. apply ok_or_step. by apply parse_digest_spec. Qed.

(** Reading the lines of a manifest gives the manifest. *)
Lemma parse_text_encoded m v : manifest_ok m v -> SlotManifest.parse_text (manifest_text m v) = Ret (Ok m).
Proof.
  intros Hok. pose proof (manifest_lines_clean m v Hok) as Hclean.
  destruct (lines_end 10 (manifest_lines m v)) as [s Hs]; [done|]. fold (manifest_text m v) in Hs.
  destruct (split_lines 10 s (manifest_lines m v) ltac:(done) Hclean) as [_ Hsplit].
  specialize (Hsplit (eq_sym Hs)). unfold SlotManifest.parse_text. cbn zeta.
  erewrite ok_or_step by (by apply strip_newline_spec). rewrite Hsplit. clear Hs Hsplit Hclean.
  destruct m as [vb vl r [ks kh] [iz ih]], Hok as [Hv Hb Hl Hr [[Hks0 Hks] Hkh] [[Hiz0 Hiz] Hih]].
  cbn [SlotManifest.version_bytes SlotManifest.version_length SlotManifest.rollback_index SlotManifest.kernel
       SlotManifest.init PayloadDigest.size PayloadDigest.sha256] in *.
  unfold manifest_lines, entry. cbn [head tail SlotManifest.rollback_index SlotManifest.kernel
    SlotManifest.init PayloadDigest.size PayloadDigest.sha256]. rewrite decide_False by auto.
  repeat first [rewrite field_step | rewrite decimal_step by done | rewrite digest_step by done].
  rewrite decide_False by (cbn; intros [[? [=]]|[?|?]]; lia). apply new_spec. by rewrite Hb, Hl.
Qed.

(** The parser accepts the texts that encoding writes, and no others. *)
Lemma parse_text_spec s m :
  SlotManifest.parse_text s = Ret (Ok m) <-> exists v, manifest_ok m v /\ s = manifest_text m v.
Proof.
  split; [|by intros (v&Hok&->); apply parse_text_encoded]. unfold SlotManifest.parse_text. cbn zeta.
  intros (s'&[= Hs%ok_or_Ok%strip_newline_spec]&H)%try_Ok. apply guard_Ok in H as [Hhead%dec_stable H].
  apply try_Ok in H as ([v l1]&[= H1%field_spec]&H).
  apply try_Ok in H as ([w2 l2]&[= H2%field_spec]&H).
  apply try_Ok in H as (r&[= Hr%ok_or_Ok%parse_decimal_spec]&H).
  apply try_Ok in H as ([w3 l3]&[= H3%field_spec]&H).
  apply try_Ok in H as (kh&[= Hkh%ok_or_Ok%parse_digest_spec]&H).
  apply try_Ok in H as ([w4 l4]&[= H4%field_spec]&H).
  apply try_Ok in H as (ks&[= Hks%ok_or_Ok%parse_decimal_spec]&H).
  apply try_Ok in H as ([w5 l5]&[= H5%field_spec]&H).
  apply try_Ok in H as (ih&[= Hih%ok_or_Ok%parse_digest_spec]&H).
  apply try_Ok in H as ([w6 l6]&[= H6%field_spec]&H).
  apply try_Ok in H as (iz&[= Hiz%ok_or_Ok%parse_decimal_spec]&H).
  apply guard_Ok in H as [[Hl6 [Hkz Hiz0]%not_or_and]%not_or_and H]. apply new_spec in H as [Hv ->].
  destruct Hr as [Hr ->], Hkh as (Hkl&Hkb&->), Hks as [Hks ->], Hih as (Hil&Hib&->), Hiz as [Hiz ->].
  destruct l6 as [|l l6]; [|by destruct Hl6]. exists v.
  assert (Hok : manifest_ok (SlotManifest.mk (v ++ replicate (MAX_VERSION_BYTES - length v) 0) (N.of_nat (length v)) r
    (PayloadDigest.mk ks kh) (PayloadDigest.mk iz ih)) v).
  { split; cbn; try done; (split; cbn; [lia|done]). }
  split; [done|]. rewrite Hs. unfold manifest_text. apply split_lines; [done|by apply manifest_lines_clean|].
  destruct (split 10 s') as [|h ls]; [done|]. cbn in Hhead, H1. injection Hhead as ->. by subst.
Qed.

(** ** Signatures *)

(** What the signature library promises: a signature has 64 bytes and verifies
    under the public key of its secret. *)
Class SigningLaws `{Ed25519} := {
  public_key : list N -> list N;
  sign_length : forall secret message, length (sign secret message) = SIGNATURE_BYTES;
  sign_verifies : forall secret message, exists key signature,
    verifying_key (public_key secret) = Some key
    /\ signature_from_slice (sign secret message) = Some signature
    /\ verify_strict key message signature = true
}.

(** A digest has 32 bytes. *)
Class HashLaws `{Sha256} := {
  digest_length : forall bytes, length (sha256_digest bytes) = 32%nat;
  digest_bytes : forall bytes, Forall is_byte (sha256_digest bytes)
}.

(** [signature] is a signature of [s] as a slot manifest, by the owner of [key]. *)
Definition signed_by `{Ed25519} (key s signature : list N) : Prop :=
  length signature = SIGNATURE_BYTES
  /\ exists k sg, verifying_key key = Some k /\ signature_from_slice signature = Some sg
     /\ verify_strict k (SIGNATURE_DOMAIN ++ s) sg = true.

Section signatures.
Context `{Ed25519}.

Lemma signed_message_spec s : (length s <= MAX_MANIFEST_TEXT)%nat ->
  SlotManifest.signed_message s = Ret (SIGNATURE_DOMAIN ++ s).
Proof.
  intros Hs. unfold SlotManifest.signed_message. rewrite copy_into_put by (rewrite length_replicate; lia).
  rewrite put_0. rewrite drop_replicate.
  replace (length SIGNATURE_DOMAIN + MAX_MANIFEST_TEXT - length SIGNATURE_DOMAIN)%nat with MAX_MANIFEST_TEXT by lia.
  rewrite copy_into_put by (rewrite length_app, length_replicate; lia).
  replace (length SIGNATURE_DOMAIN) with (length SIGNATURE_DOMAIN + 0)%nat at 1 by lia.
  rewrite put_app, put_0, app_assoc, slice_to_Ret by (rewrite !length_app; lia).
  by rewrite <-length_app, take_app_length.
Qed.

Lemma verify_fails file key :
  exists r, SlotManifest.verify file key = Ret r.
Proof.
  unfold SlotManifest.verify. case_decide as Hl; [eauto|]. cbn zeta.
  destruct (verifying_key key); cbn [ok_or try]; [|eauto].
  destruct (signature_from_slice _); cbn [ok_or try]; [|eauto].
  unfold MAX_SLOT_MANIFEST_BYTES, SIGNATURE_BYTES in *.
  rewrite signed_message_spec by (rewrite length_take; lia). destruct (verify_strict _ _ _); [|eauto].
  destruct (parse_text_fails (take (length file - 64) file)) as [-> |[m ->]]; eauto.
Qed.

Lemma verify_spec file key m :
  SlotManifest.verify file key = Ret (Ok m)
  <-> exists v signature, manifest_ok m v /\ file = manifest_text m v ++ signature
      /\ signed_by key (manifest_text m v) signature.
Proof.
  unfold SlotManifest.verify, signed_by. cbn zeta. rewrite guard_Ok. split.
  - intros [Hl (k&[= Hk%ok_or_Ok]&(sg&[= Hs%ok_or_Ok]&H1)%try_Ok)%try_Ok].
    unfold MAX_SLOT_MANIFEST_BYTES in *. set (n := (length file - SIGNATURE_BYTES)%nat) in *.
    rewrite signed_message_spec in H1 by (rewrite length_take; lia).
    destruct (verify_strict k _ sg) eqn:Hv; [|done]. apply parse_text_spec in H1 as (v&Hok&Ht).
    exists v, (drop n file). rewrite <-Ht, take_drop. split_and!; [done|done|rewrite length_drop; lia|eauto].
  - intros (v&signature&Hok&->&Hl&k&sg&Hk&Hs&Hv). pose proof (manifest_text_length m v Hok) as Hlen.
    pose proof (parse_text_encoded m v Hok) as Hp.
    assert (Hne : (1 <= length (manifest_text m v))%nat) by (rewrite manifest_text_eq, length_app; cbn; lia).
    rewrite length_app, Hl, Nat.add_sub, take_app_length, drop_app_length.
    unfold MAX_SLOT_MANIFEST_BYTES, MAX_MANIFEST_TEXT in *. split; [lia|]. rewrite Hk. cbn [ok_or try].
    rewrite Hs. cbn [ok_or try]. rewrite signed_message_spec by (unfold MAX_MANIFEST_TEXT; lia). by rewrite Hv.
Qed.

Lemma encode_signed_spec `{!SigningLaws} m v secret output :
  manifest_ok m v -> length output = MAX_SLOT_MANIFEST_BYTES ->
  let s := manifest_text m v in
  finishes (SlotManifest.encode_signed m secret output) (s ++ sign secret (SIGNATURE_DOMAIN ++ s))
    MAX_SLOT_MANIFEST_BYTES.
Proof.
  intros Hok Ho s. unfold SlotManifest.encode_signed. pose proof (manifest_text_length m v Hok) as Hlen.
  destruct (encode_text_spec m v (replicate MAX_MANIFEST_TEXT 0) Hok) as (out&->&Hl&Ht);
    [by rewrite length_replicate|].
  fold s in Hlen, Ht |- *. unfold MAX_SLOT_MANIFEST_BYTES, MAX_MANIFEST_TEXT in *.
  rewrite slice_to_Ret, Ht by lia. rewrite signed_message_spec by (unfold MAX_MANIFEST_TEXT; lia).
  set (sg := sign secret _). pose proof (sign_length secret (SIGNATURE_DOMAIN ++ s)) as Hsg. fold sg in Hsg.
  rewrite copy_into_put, put_0 by lia. rewrite copy_into_put by (rewrite length_app, length_drop; lia).
  replace (length s) with (length s + 0)%nat at 1 2 by lia. rewrite put_app, put_0.
  eexists. rewrite length_app, Hsg. split; [do 2 f_equal; lia|].
  rewrite !length_app, !length_drop. split; [lia|].
  rewrite app_assoc, take_app_le by (rewrite length_app; lia). by rewrite <-Hsg, <-length_app, firstn_all.
Qed.
End signatures.

(** ** Bundles *)

(** The header of a bundle with sections of these lengths. *)
Definition header_bytes (a b c : N) : list N :=
  BUNDLE_MAGIC ++ to_le_bytes 4 a ++ to_le_bytes 4 b ++ to_le_bytes 4 c ++ replicate 4 0.

(** [bytes] is a bundle of the three sections. *)
Definition layout (bytes file kernel init : list N) : Prop :=
  bytes = header_bytes (N.of_nat (length file)) (N.of_nat (length kernel)) (N.of_nat (length init))
          ++ file ++ kernel ++ init
  /\ N.of_nat (length file) <= U32_MAX /\ N.of_nat (length kernel) <= U32_MAX
  /\ N.of_nat (length init) <= U32_MAX.

(** The payload [bytes] is the one [d] pins. *)
Definition pins `{Sha256} (d : PayloadDigest.t) (bytes : list N) : Prop :=
  PayloadDigest.size d = N.of_nat (length bytes) /\ PayloadDigest.sha256 d = sha256_digest bytes.

Section bundles.
Context `{Ed25519, Sha256}.

(** What [UpdateBundle.verify] does with the sections it found. *)
Definition verify_sections (file kernel init key : list N) : Exec (Result UpdateBundle.t BundleError.t) :=
  let! verified := SlotManifest.verify file key in
  let* manifest := Ret (map_err BundleError.Manifest verified) in
  let* _ := Ret (map_err (BundleError.Payload PayloadKind.Kernel)
                   (PayloadDigest.check (SlotManifest.kernel manifest) kernel)) in
  let* _ := Ret (map_err (BundleError.Payload PayloadKind.Init)
                   (PayloadDigest.check (SlotManifest.init manifest) init)) in
  Ret (Ok (UpdateBundle.mk manifest file kernel init)).

Lemma bundle_header_spec a b c : bundle_header a b c = Ret (header_bytes a b c).
Proof. done. Qed.

Lemma header_bytes_length a b c : length (header_bytes a b c) = 24%nat.
Proof. done. Qed.

Lemma total_length_spec a b c : a <= U32_MAX -> b <= U32_MAX -> c <= U32_MAX ->
  UpdateBundle.total_length a b c = Some (24 + a + b + c).
Proof.
  unfold UpdateBundle.total_length, u64_checked_add, U32_MAX, U64_MAX, BUNDLE_HEADER_BYTES. intros Ha Hb Hc.
  rewrite decide_True by lia. rewrite decide_True by lia. by rewrite decide_True by lia.
Qed.

Lemma le4 n : n <= U32_MAX -> from_le_bytes (to_le_bytes 4 n) = n.
Proof. intros Hn. apply from_to_le_bytes. unfold U32_MAX in Hn. cbn. lia. Qed.

Lemma layout_sections a b c : a <= U32_MAX -> b <= U32_MAX -> c <= U32_MAX ->
  let h := header_bytes a b c in
  UpdateBundle.section_length h 8 = Ret a /\ UpdateBundle.section_length h 12 = Ret b
  /\ UpdateBundle.section_length h 16 = Ret c.
Proof.
  intros Ha Hb Hc. unfold UpdateBundle.section_length.
  change (slice (header_bytes a b c) 8 4) with (Ret (to_le_bytes 4 a)).
  change (slice (header_bytes a b c) 12 4) with (Ret (to_le_bytes 4 b)).
  change (slice (header_bytes a b c) 16 4) with (Ret (to_le_bytes 4 c)). cbn match. by rewrite !le4.
Qed.

Lemma verify_layout bytes key file kernel init : layout bytes file kernel init ->
  UpdateBundle.verify bytes key = verify_sections file kernel init key.
Proof.
  intros (->&Hf&Hk&Hi). unfold UpdateBundle.verify. cbn zeta.
  set (a := N.of_nat (length file)) in *. set (b := N.of_nat (length kernel)) in *.
  set (c := N.of_nat (length init)) in *.
  assert (Hh : take BUNDLE_HEADER_BYTES (header_bytes a b c ++ file ++ kernel ++ init) = header_bytes a b c) by done.
  assert (Hd : drop BUNDLE_HEADER_BYTES (header_bytes a b c ++ file ++ kernel ++ init) = file ++ kernel ++ init) by done.
  rewrite Hh, Hd, !length_app, header_bytes_length. unfold BUNDLE_HEADER_BYTES.
  rewrite decide_False by lia. change (slice_to (header_bytes a b c) 8) with (Ret BUNDLE_MAGIC).
  change (slice (header_bytes a b c) 20 4) with (Ret (replicate 4 0)). cbn match.
  rewrite decide_False by naive_solver.
  destruct (layout_sections a b c Hf Hk Hi) as (->&->&->). rewrite total_length_spec by done. cbn [ok_or try].
  rewrite decide_False by lia. unfold UpdateBundle.split_at, a, b. rewrite !Nat2N.id.
  rewrite decide_True by (rewrite length_app; lia). rewrite take_app_length, drop_app_length.
  rewrite decide_True by (rewrite length_app; lia). by rewrite take_app_length, drop_app_length.
Qed.

Lemma header_parts h : Forall is_byte h -> length h = 24%nat ->
  take 8 h = BUNDLE_MAGIC -> sub_bytes h 20 4 = replicate 4 0 ->
  h = header_bytes (from_le_bytes (sub_bytes h 8 4)) (from_le_bytes (sub_bytes h 12 4))
        (from_le_bytes (sub_bytes h 16 4)).
Proof.
  intros Hb Hl Hm Hz. unfold header_bytes. rewrite <-Hm, <-Hz.
  assert (Hle : forall o, (o + 4 <= 24)%nat -> to_le_bytes 4 (from_le_bytes (sub_bytes h o 4)) = sub_bytes h o 4).
  { intros o Ho. replace 4%nat with (length (sub_bytes h o 4)) at 1
      by (unfold sub_bytes; rewrite length_take, length_drop; lia).
    apply to_from_le_bytes. by apply Forall_take, Forall_drop. }
  rewrite !Hle by lia. change (take 8 h) with (sub_bytes h 0 8).
  rewrite <-(sub_bytes_app h 16 4 4 : sub_bytes h 16 8 = _ ++ sub_bytes h 20 4).
  rewrite <-(sub_bytes_app h 12 4 8 : sub_bytes h 12 12 = _ ++ sub_bytes h 16 8).
  rewrite <-(sub_bytes_app h 8 4 12 : sub_bytes h 8 16 = _ ++ sub_bytes h 12 12).
  rewrite <-(sub_bytes_app h 0 8 16 : sub_bytes h 0 24 = _ ++ sub_bytes h 8 16).
  unfold sub_bytes. by rewrite drop_0, take_ge by (cbn; lia).
Qed.

(** Bytes that are not a bundle are refused as such. *)
Lemma verify_no_layout bytes key : Forall is_byte bytes ->
  (exists file kernel init, layout bytes file kernel init) \/ UpdateBundle.verify bytes key = Ret (Err BundleError.Layout).
Proof.
  intros Hb. unfold UpdateBundle.verify. cbn zeta. case_decide as Hlen; [by right|].
  unfold BUNDLE_HEADER_BYTES in *. set (h := take 24 bytes).
  assert (Hl : length h = 24%nat) by (unfold h; rewrite length_take; lia).
  assert (Hhb : Forall is_byte h) by by apply Forall_take.
  rewrite slice_to_Ret, slice_sub by lia. case_decide as Hm; [by right|].
  apply not_or_and in Hm as [Hm%dec_stable Hz%dec_stable].
  unfold UpdateBundle.section_length. rewrite !slice_sub by lia.
  pose proof (header_parts h Hhb Hl Hm Hz) as Hh.
  assert (Hbound : forall o, from_le_bytes (sub_bytes h o 4) <= U32_MAX).
  { intros o. pose proof (from_le_bytes_bound (sub_bytes h o 4) ltac:(by apply Forall_take, Forall_drop)) as Hlt.
    assert (Hle : (length (sub_bytes h o 4) <= 4)%nat) by (unfold sub_bytes; rewrite length_take; lia).
    pose proof (N.pow_le_mono_r 256 (N.of_nat (length (sub_bytes h o 4))) 4 ltac:(lia) ltac:(lia)).
    unfold U32_MAX. cbn in *. lia. }
  pose proof (Hbound 8%nat) as Ha. pose proof (Hbound 12%nat) as Hb'. pose proof (Hbound 16%nat) as Hc. clear Hbound.
  set (a := from_le_bytes (sub_bytes h 8 4)) in *. set (b := from_le_bytes (sub_bytes h 12 4)) in *.
  set (c := from_le_bytes (sub_bytes h 16 4)) in *. rewrite total_length_spec by done. cbn [ok_or try].
  case_decide as Ht; [by right|]. left.
  set (rest := drop 24 bytes).
  assert (Hr : length rest = (N.to_nat a + N.to_nat b + N.to_nat c)%nat) by (unfold rest; rewrite length_drop; lia).
  exists (take (N.to_nat a) rest), (take (N.to_nat b) (drop (N.to_nat a) rest)), (drop (N.to_nat b) (drop (N.to_nat a) rest)).
  unfold layout. rewrite !take_drop, !length_take, !length_drop, Hr.
  rewrite !Nat.min_l, !Nat2N.inj_sub, !Nat2N.inj_add, !N2Nat.id by lia.
  replace (a + b + c - a - b) with c by lia. rewrite <-Hh. split_and!; [symmetry; apply take_drop|done..].
Qed.

Lemma check_payload d bytes : PayloadDigest.check d bytes = Ok tt <-> pins d bytes.
Proof.
  unfold PayloadDigest.check, pins. cbn [PayloadDigest.of_bytes PayloadDigest.sha256].
  case_decide; [naive_solver|]. case_decide; [naive_solver|]. split; [|done]. intros _. split; congruence.
Qed.

Lemma map_err_Ok {A E F} (f : E -> F) (r : Result A E) x : map_err f r = Ok x <-> r = Ok x.
Proof. destruct r; cbn; naive_solver. Qed.

Lemma verify_sections_spec file kernel init key b :
  verify_sections file kernel init key = Ret (Ok b)
  <-> SlotManifest.verify file key = Ret (Ok (UpdateBundle.manifest b))
      /\ pins (SlotManifest.kernel (UpdateBundle.manifest b)) kernel
      /\ pins (SlotManifest.init (UpdateBundle.manifest b)) init
      /\ b = UpdateBundle.mk (UpdateBundle.manifest b) file kernel init.
Proof.
  unfold verify_sections. destruct (verify_fails file key) as [r ->]. rewrite try_Ok. split.
  - intros (m&[= Hm%map_err_Ok]&H1). apply try_Ok in H1 as ([]&[= Hk%map_err_Ok]&H1).
    apply try_Ok in H1 as ([]&[= Hi%map_err_Ok]&H1). injection H1 as <-. cbn. subst r.
    by rewrite <-!check_payload.
  - intros ([= ->]&Hk&Hi&Hb). eexists. split; [done|].
    apply check_payload in Hk, Hi. rewrite Hk, Hi. cbn. by rewrite <-Hb.
Qed.

Lemma verify_sections_returns file kernel init key : exists r, verify_sections file kernel init key = Ret r.
Proof.
  unfold verify_sections. destruct (verify_fails file key) as [[m|e] ->]; cbn [map_err try]; [|eauto].
  destruct (PayloadDigest.check _ kernel); cbn [map_err try]; [|eauto].
  destruct (PayloadDigest.check _ init); cbn [map_err try]; eauto.
Qed.
End bundles.

(** ** Correctness *)

(** C25: The text of a manifest is canonical. The parser never panics, fails
    as malformed only, and accepts exactly the bytes that [encode_text] writes
    for the manifest it returns; every well-formed manifest is written without
    a panic. *)
Theorem manifest_text_canonical s :
  (SlotManifest.parse_text s = Ret (Err ManifestError.Malformed) \/ exists m, SlotManifest.parse_text s = Ret (Ok m))
  /\ forall m, SlotManifest.parse_text s = Ret (Ok m)
     <-> exists v n out, manifest_ok m v
         /\ SlotManifest.encode_text m (replicate MAX_MANIFEST_TEXT 0) = Ret (n, out) /\ s = take n out.
Proof.
  split; [apply parse_text_fails|]. intros m. rewrite parse_text_spec. split.
  - intros (v&Hok&->). destruct (encode_text_spec m v (replicate MAX_MANIFEST_TEXT 0) Hok) as (out&He&_&Ht);
      [by rewrite length_replicate|]. by exists v, (length (manifest_text m v)), out.
  - intros (v&n&out&Hok&He&->). exists v. split; [done|].
    destruct (encode_text_spec m v (replicate MAX_MANIFEST_TEXT 0) Hok) as (out'&He'&_&Ht);
      [by rewrite length_replicate|]. rewrite He in He'. by injection He' as -> ->.
Qed.

(** C23: Verifying an update bundle never panics, and accepts exactly the
    bundles whose header gives the lengths of the three sections that follow,
    whose manifest section is the canonical text of the manifest with a
    signature of that text, under the domain of slot manifests, by the trusted
    key, and whose payloads have the lengths and digests the manifest pins. *)
Theorem bundle_verify_exact `{Ed25519, Sha256} bytes key : Forall is_byte bytes ->
  (exists r, UpdateBundle.verify bytes key = Ret r)
  /\ forall b, UpdateBundle.verify bytes key = Ret (Ok b)
     <-> layout bytes (UpdateBundle.manifest_file b) (UpdateBundle.kernel b) (UpdateBundle.init b)
         /\ (exists v signature, manifest_ok (UpdateBundle.manifest b) v
              /\ UpdateBundle.manifest_file b = manifest_text (UpdateBundle.manifest b) v ++ signature
              /\ signed_by key (manifest_text (UpdateBundle.manifest b) v) signature)
         /\ pins (SlotManifest.kernel (UpdateBundle.manifest b)) (UpdateBundle.kernel b)
         /\ pins (SlotManifest.init (UpdateBundle.manifest b)) (UpdateBundle.init b).
Proof.
  intros Hb. split.
  - destruct (verify_no_layout bytes key Hb) as [(f&k&i&Hl)|Hr]; [|eauto].
    rewrite (verify_layout bytes key f k i Hl). apply verify_sections_returns.
  - intros b. rewrite <-verify_spec. split.
    + destruct (verify_no_layout bytes key Hb) as [(f&k&i&Hl)|Hr]; [|by rewrite Hr].
      rewrite (verify_layout bytes key f k i Hl). intros (Hm&Hk&Hi&Heq)%verify_sections_spec.
      rewrite Heq. cbn. by rewrite Hm.
    + intros (Hl&Hm&Hk&Hi). rewrite (verify_layout _ _ _ _ _ Hl). apply verify_sections_spec.
      split_and!; try done. by destruct b.
Qed.

(** C26: What the release tools sign is accepted. For a valid version and two
    payloads that are not empty and fit the header, the manifest is made,
    encoded and signed without a panic, and the bundle of its file and the
    payloads verifies under the public key of the secret. *)
Theorem signed_bundle_accepted `{SigningLaws, HashLaws} version rollback kernel init secret :
  valid_version version = true -> rollback <= U64_MAX ->
  0 < N.of_nat (length kernel) <= U32_MAX -> 0 < N.of_nat (length init) <= U32_MAX ->
  exists m n out header,
    SlotManifest.new version rollback (PayloadDigest.of_bytes kernel) (PayloadDigest.of_bytes init) = Ret (Ok m)
    /\ SlotManifest.encode_signed m secret (replicate MAX_SLOT_MANIFEST_BYTES 0) = Ret (n, out)
    /\ bundle_header (N.of_nat n) (N.of_nat (length kernel)) (N.of_nat (length init)) = Ret header
    /\ UpdateBundle.verify (header ++ take n out ++ kernel ++ init) (public_key secret)
       = Ret (Ok (UpdateBundle.mk m (take n out) kernel init)).
Proof.
  intros Hv Hr Hk Hi. set (dk := PayloadDigest.of_bytes kernel). set (di := PayloadDigest.of_bytes init).
  assert (Hd : forall bytes, 0 < N.of_nat (length bytes) <= U32_MAX -> digest_ok (PayloadDigest.of_bytes bytes)).
  { intros bytes Hl. split; [unfold U32_MAX, U64_MAX in *; cbn; lia|]. split; [apply digest_length|apply digest_bytes]. }
  set (m := SlotManifest.mk (version ++ replicate (MAX_VERSION_BYTES - length version) 0)
              (N.of_nat (length version)) rollback dk di).
  assert (Hok : manifest_ok m version) by (split; try done; by apply Hd).
  destruct (encode_signed_spec m version secret (replicate MAX_SLOT_MANIFEST_BYTES 0) Hok)
    as (out&He&_&Ht); [by rewrite length_replicate|].
  set (text := manifest_text m version) in *.
  pose proof (manifest_text_length m version Hok) as Hlen. fold text in Hlen.
  eexists m, _, out, _. split; [by apply new_spec|]. split; [exact He|]. split; [apply bundle_header_spec|].
  rewrite Ht. set (file := text ++ _) in *.
  rewrite (verify_layout _ _ file kernel init).
  - apply verify_sections_spec. cbn. split_and!; try done. apply verify_spec.
    exists version, (sign secret (SIGNATURE_DOMAIN ++ text)). split_and!; [done|done|]. split; [apply sign_length|].
    apply sign_verifies.
  - split; [done|]. unfold file. rewrite length_app, sign_length. unfold SIGNATURE_BYTES, U32_MAX in *. lia.
Qed.

Module SlotUpdateExample.
(** A toy signature, whose public key is the secret: the key and the sum of the
    message. *)
Definition toy_sign (secret message : list N) : list N :=
  take 64 ((foldr N.add 0 message mod 256) :: secret ++ replicate 64 0).

#[local] Instance toy_ed25519 : Ed25519 := {|
  VerifyingKey := list N; Signature := list N;
  verifying_key := Some; signature_from_slice := Some;
  verify_strict := fun key message signature => bool_decide (signature = toy_sign key message);
  sign := toy_sign
|}.

#[local] Instance toy_sha256 : Sha256 := fun bytes => take 32 ((foldr N.add 0 bytes mod 256) :: replicate 32 0).

#[local] Instance toy_signing : SigningLaws.
Proof.
  refine {| public_key := fun secret => secret |}.
  - intros secret message. change (length (toy_sign secret message) = 64%nat).
    unfold toy_sign. rewrite length_take. cbn [length]. rewrite length_app, length_replicate. lia.
  - intros secret message. exists secret, (toy_sign secret message). split_and!; [done|done|].
    by apply bool_decide_eq_true.
Defined.

#[local] Instance toy_hash : HashLaws.
Proof.
  split.
  - done.
  - intros bytes. apply Forall_take. constructor; [by apply N.mod_lt|]. by apply Forall_replicate.
Defined.

Definition key : list N := replicate 32 7.
Definition the_version : list N := text "0.1.0".

Lemma signed_bundle_accepted_witness : exists bytes b,
  UpdateBundle.verify bytes key = Ret (Ok b) /\ UpdateBundle.kernel b = [1; 2; 3].
Proof.
  destruct (signed_bundle_accepted the_version 1 [1; 2; 3] [4] key) as (m&n&out&header&_&_&_&Hv);
    [by vm_compute|by vm_compute|by vm_compute|by vm_compute|]. eexists _, _. split; [exact Hv|done].
Defined.

Definition the_manifest : SlotManifest.t :=
  SlotManifest.mk (the_version ++ replicate 27 0) 5 1
    (PayloadDigest.of_bytes [1; 2; 3]) (PayloadDigest.of_bytes [4]).
Definition the_file : list N :=
  match SlotManifest.encode_signed the_manifest key (replicate MAX_SLOT_MANIFEST_BYTES 0) with
  | Ret (n, out) => take n out
  | Panic => []
  end.
Definition the_bundle : list N :=
  header_bytes (N.of_nat (length the_file)) 3 1 ++ the_file ++ [1; 2; 3] ++ [4].

(** The bundle is accepted, and one with another payload is not. *)
Lemma bundle_verify_exact_witness :
  UpdateBundle.verify the_bundle key = Ret (Ok (UpdateBundle.mk the_manifest the_file [1; 2; 3] [4]))
  /\ PayloadDigest.sha256 (SlotManifest.kernel the_manifest) = sha256_digest [1; 2; 3]
  /\ UpdateBundle.verify (header_bytes (N.of_nat (length the_file)) 3 1 ++ the_file ++ [1; 2; 4] ++ [4]) key
     = Ret (Err (BundleError.Payload PayloadKind.Kernel PayloadError.Digest)).
Proof.
  assert (Hb : Forall is_byte the_bundle) by (apply (bool_decide_unpack _); by vm_compute).
  assert (Hv : UpdateBundle.verify the_bundle key = Ret (Ok (UpdateBundle.mk the_manifest the_file [1; 2; 3] [4])))
    by by vm_compute.
  split; [exact Hv|]. split; [|by vm_compute].
  apply (proj2 (bundle_verify_exact the_bundle key Hb)) in Hv. by destruct Hv as (_&_&[_ Hp]&_).
Defined.
End SlotUpdateExample.
