(* ===== verification/LoaderElf.v ===== *)
(** * The loader's reader of kernel images (loader/src/elf.rs)

    [parse] reads the ELF image of the kernel and answers with the segments to
    load at their physical addresses, or with the reason it refuses. The
    theorem says exactly which images are accepted, and that no image makes the
    parser panic. *)

From stdpp Require Import prelude.
From S2P Require Import Prelude Memory UserElf.

Local Open Scope N_scope.
Local Open Scope nagi_scope.

Module LoadSegment.
Record t := mk {
  file_offset : N;
  physical_address : N;
  file_size : N;
  memory_size : N;
  flags : N
}.

Definition default : t := mk 0 0 0 0 0.
End LoadSegment.

Module LoadPlan.
Record t := mk { entry : N; segments : list LoadSegment.t; segment_count : nat }.
End LoadPlan.

Module ElfError.
Inductive t :=
  | Truncated
  | BadMagic
  | UnsupportedClass
  | UnsupportedEncoding
  | UnsupportedMachine
  | UnsupportedHeader
  | ProgramHeadersOutOfBounds
  | TooManyLoadSegments
  | NoLoadSegments
  | SegmentOutOfBounds
  | SegmentSizeInvalid
  | SegmentAddressOverflow
  | SegmentNotIdentityMapped
  | SegmentNotPageAligned
  | SegmentAlignmentInvalid
  | SegmentOverlap
  | EntryNotLoaded.
End ElfError.

(** ** Reading words *)

Definition kernel_read (n : nat) (bytes : list N) (offset : N) : Result N ElfError.t :=
  let? stop := ok_or (u64_checked_add offset (N.of_nat n)) ElfError.Truncated in
  if decide (stop <= len bytes)
  then Ok (from_le_bytes (sub_bytes bytes (N.to_nat offset) n))
  else Err ElfError.Truncated.

Definition kernel_u16 (bytes : list N) (offset : N) : Exec (Result N ElfError.t) := Ret (kernel_read 2 bytes offset).
Definition kernel_u32 (bytes : list N) (offset : N) : Exec (Result N ElfError.t) := Ret (kernel_read 4 bytes offset).
Definition kernel_u64 (bytes : list N) (offset : N) : Exec (Result N ElfError.t) := Ret (kernel_read 8 bytes offset).

(** ** Parsing *)

(** The checks on the ELF header, in the code's order. *)
Definition check_kernel_header (bytes : list N) : Exec (Result unit ElfError.t) :=
  if decide (len bytes < ELF_HEADER_SIZE) then Ret (Err ElfError.Truncated)
  else
    let! magic := slice_to bytes 4 in
    if decide (magic <> [0x7f; 0x45; 0x4c; 0x46]) then Ret (Err ElfError.BadMagic)
    else
      let! class := index bytes 4 in
      if decide (class <> 2) then Ret (Err ElfError.UnsupportedClass)
      else
        let! encoding := index bytes 5 in
        let! version := index bytes 6 in
        if decide (encoding <> 1 \/ version <> 1) then Ret (Err ElfError.UnsupportedEncoding)
        else
          let* machine := kernel_u16 bytes 18 in
          if decide (machine <> 0x3e) then Ret (Err ElfError.UnsupportedMachine)
          else
            let* elf_version := kernel_u32 bytes 20 in
            if decide (elf_version <> 1) then Ret (Err ElfError.UnsupportedHeader)
            else
              let* header_size := kernel_u16 bytes 52 in
              if decide (header_size <> ELF_HEADER_SIZE) then Ret (Err ElfError.UnsupportedHeader)
              else
                let* entry_size := kernel_u16 bytes 54 in
                if decide (entry_size <> PROGRAM_HEADER_SIZE) then Ret (Err ElfError.UnsupportedHeader)
                else Ret (Ok tt).

(** The loop over the segments already in the plan. *)
Fixpoint check_previous_segments (physical_address memory_size : N) (previous : list LoadSegment.t)
  : Result unit ElfError.t :=
  match previous with
  | [] => Ok tt
  | previous :: rest =>
      let? previous_end := ok_or (u64_checked_add (LoadSegment.physical_address previous)
                                    (LoadSegment.memory_size previous)) ElfError.SegmentAddressOverflow in
      if decide (physical_address < previous_end) then
        let? segment_end := ok_or (u64_checked_add physical_address memory_size)
                              ElfError.SegmentAddressOverflow in
        if decide (LoadSegment.physical_address previous < segment_end) then Err ElfError.SegmentOverlap
        else check_previous_segments physical_address memory_size rest
      else check_previous_segments physical_address memory_size rest
  end.

(** The body of the loop for a loadable header. *)
Definition add_segment (bytes : list N) (offset : N) (plan : LoadPlan.t) : Exec (Result LoadPlan.t ElfError.t) :=
  if decide (LoadPlan.segment_count plan = MAX_LOAD_SEGMENTS) then Ret (Err ElfError.TooManyLoadSegments)
  else
    let* flags := kernel_u32 bytes (offset + 4) in
    let* file_offset := kernel_u64 bytes (offset + 8) in
    let* virtual_address := kernel_u64 bytes (offset + 16) in
    let* physical_address := kernel_u64 bytes (offset + 24) in
    let* file_size := kernel_u64 bytes (offset + 32) in
    let* memory_size := kernel_u64 bytes (offset + 40) in
    let* alignment := kernel_u64 bytes (offset + 48) in
    if decide (memory_size < file_size) then Ret (Err ElfError.SegmentSizeInvalid)
    else if decide (virtual_address <> physical_address) then Ret (Err ElfError.SegmentNotIdentityMapped)
    else if decide (physical_address mod PAGE_SIZE <> 0) then Ret (Err ElfError.SegmentNotPageAligned)
    else if decide (alignment <> 0 /\ (is_power_of_two alignment = false \/ alignment < PAGE_SIZE))
    then Ret (Err ElfError.SegmentAlignmentInvalid)
    else
      let* file_end := Ret (ok_or (u64_checked_add file_offset file_size) ElfError.SegmentOutOfBounds) in
      if decide (len bytes < file_end) then Ret (Err ElfError.SegmentOutOfBounds)
      else
        let* _ := Ret (ok_or (u64_checked_add physical_address memory_size) ElfError.SegmentAddressOverflow) in
        let segment := LoadSegment.mk file_offset physical_address file_size memory_size flags in
        let! previous := slice_to (LoadPlan.segments plan) (LoadPlan.segment_count plan) in
        let* _ := Ret (check_previous_segments physical_address memory_size previous) in
        let! segments := store (LoadPlan.segments plan) (LoadPlan.segment_count plan) segment in
        Ret (Ok (LoadPlan.mk (LoadPlan.entry plan) segments (LoadPlan.segment_count plan + 1))).

Fixpoint read_headers (bytes : list N) (ph_offset : N) (indices : list nat) (plan : LoadPlan.t)
  : Exec (Result LoadPlan.t ElfError.t) :=
  match indices with
  | [] => Ret (Ok plan)
  | index :: indices =>
      let! offset := u64_add ph_offset (N.of_nat index * PROGRAM_HEADER_SIZE) in
      let* kind := kernel_u32 bytes offset in
      if decide (kind <> PT_LOAD) then read_headers bytes ph_offset indices plan
      else
        let* plan := add_segment bytes offset plan in
        read_headers bytes ph_offset indices plan
  end.

(** The closure of [any] that looks for the entry point; its addition panics
    on overflow, and is evaluated last. *)
Fixpoint entry_loaded (entry : N) (segments : list LoadSegment.t) : Exec bool :=
  match segments with
  | [] => Ret false
  | segment :: segments =>
      if decide (N.land (LoadSegment.flags segment) PF_X <> 0 /\ LoadSegment.physical_address segment <= entry)
      then
        let! segment_end := u64_add (LoadSegment.physical_address segment) (LoadSegment.memory_size segment) in
        if decide (entry < segment_end) then Ret true else entry_loaded entry segments
      else entry_loaded entry segments
  end.

Definition parse_kernel (bytes : list N) : Exec (Result LoadPlan.t ElfError.t) :=
  let* _ := check_kernel_header bytes in
  let* entry := kernel_u64 bytes 24 in
  let* program_header_offset := kernel_u64 bytes 32 in
  let* program_header_count := kernel_u16 bytes 56 in
  let* program_headers_size := Ret (ok_or (u64_checked_mul program_header_count PROGRAM_HEADER_SIZE)
                                      ElfError.ProgramHeadersOutOfBounds) in
  let* program_headers_end := Ret (ok_or (u64_checked_add program_header_offset program_headers_size)
                                     ElfError.ProgramHeadersOutOfBounds) in
  if decide (len bytes < program_headers_end) then Ret (Err ElfError.ProgramHeadersOutOfBounds)
  else
    let plan := LoadPlan.mk entry (replicate MAX_LOAD_SEGMENTS LoadSegment.default) 0 in
    let* plan := read_headers bytes program_header_offset (seq 0 (N.to_nat program_header_count)) plan in
    if decide (LoadPlan.segment_count plan = 0%nat) then Ret (Err ElfError.NoLoadSegments)
    else
      let! segments := slice_to (LoadPlan.segments plan) (LoadPlan.segment_count plan) in
      let! found := entry_loaded entry segments in
      if found then Ret (Ok plan) else Ret (Err ElfError.EntryNotLoaded).

(** ** Which images are accepted *)

Definition kernel_segment (bytes : list N) (offset : N) : LoadSegment.t :=
  LoadSegment.mk (word 8 bytes (offset + 8)) (word 8 bytes (offset + 24))
    (word 8 bytes (offset + 32)) (word 8 bytes (offset + 40)) (word 4 bytes (offset + 4)).

(** The loadable segments of some headers. *)
Definition kernel_segments (bytes : list N) (offsets : list N) : list LoadSegment.t :=
  kernel_segment bytes <$> filter (fun o => word 4 bytes o = PT_LOAD) offsets.

(** A segment's bytes are in the file, and its memory starts at a page and
    does not wrap. *)
Record loadable (bytes : list N) (s : LoadSegment.t) : Prop := {
  loadable_size : LoadSegment.file_size s <= LoadSegment.memory_size s;
  loadable_aligned : (PAGE_SIZE | LoadSegment.physical_address s);
  loadable_file : LoadSegment.file_offset s + LoadSegment.file_size s <= len bytes;
  loadable_memory : LoadSegment.physical_address s + LoadSegment.memory_size s <= U64_MAX
}.

(** The header of a loadable segment: its memory is at its virtual address, and
    its alignment is none or a power of two of at least a page. *)
Definition header_fits (bytes : list N) (offset : N) : Prop :=
  loadable bytes (kernel_segment bytes offset)
  /\ word 8 bytes (offset + 16) = word 8 bytes (offset + 24)
  /\ (word 8 bytes (offset + 48) = 0
      \/ exists k, word 8 bytes (offset + 48) = 2 ^ k /\ PAGE_SIZE <= 2 ^ k).

(** The second does not start inside the first, nor the first inside it. *)
Definition separate (s1 s2 : LoadSegment.t) : Prop :=
  LoadSegment.physical_address s1 + LoadSegment.memory_size s1 <= LoadSegment.physical_address s2
  \/ LoadSegment.physical_address s2 + LoadSegment.memory_size s2 <= LoadSegment.physical_address s1.

Definition all_separate (ss : list LoadSegment.t) : Prop :=
  forall i j s1 s2, (i < j)%nat -> ss !! i = Some s1 -> ss !! j = Some s2 -> separate s1 s2.

Definition enters (entry : N) (s : LoadSegment.t) : Prop :=
  N.testbit (LoadSegment.flags s) 0 = true
  /\ LoadSegment.physical_address s <= entry < LoadSegment.physical_address s + LoadSegment.memory_size s.

(** An array of [MAX_LOAD_SEGMENTS] segments that starts with [ss]. *)
Definition kernel_plan (entry : N) (ss : list LoadSegment.t) : LoadPlan.t :=
  LoadPlan.mk entry (ss ++ replicate (MAX_LOAD_SEGMENTS - length ss) LoadSegment.default) (length ss).

Record kernel_image (bytes : list N) (entry : N) (ss : list LoadSegment.t) : Prop := {
  image_length : ELF_HEADER_SIZE <= len bytes;
  image_magic : sub_bytes bytes 0 7 = [0x7f; 0x45; 0x4c; 0x46; 2; 1; 1];
  image_machine : word 2 bytes 18 = 0x3e;
  image_version : word 4 bytes 20 = 1;
  image_sizes : word 2 bytes 52 = ELF_HEADER_SIZE /\ word 2 bytes 54 = PROGRAM_HEADER_SIZE;
  image_table : word 8 bytes 32 + word 2 bytes 56 * PROGRAM_HEADER_SIZE <= len bytes;
  image_entry : entry = word 8 bytes 24;
  image_segments : ss = kernel_segments bytes (header_offsets bytes);
  image_headers : Forall (fun o => word 4 bytes o = PT_LOAD -> header_fits bytes o) (header_offsets bytes);
  image_separate : all_separate ss;
  image_count : (0 < length ss <= MAX_LOAD_SEGMENTS)%nat;
  image_entered : Exists (enters entry) ss
}.

(** ** Reading *)

Lemma aligned_mod a : a mod PAGE_SIZE = 0 <-> (PAGE_SIZE | a).
Proof. apply N.Lcm0.mod_divide. Qed.

Lemma check_previous_segments_spec pa ms previous : pa + ms <= U64_MAX ->
  Forall (fun p => LoadSegment.physical_address p + LoadSegment.memory_size p <= U64_MAX) previous ->
  check_previous_segments pa ms previous = Ok tt
  <-> Forall (fun p => LoadSegment.physical_address p + LoadSegment.memory_size p <= pa
                       \/ pa + ms <= LoadSegment.physical_address p) previous.
Proof.
  intros Hs. induction 1 as [|p previous Hp _ IH]; [done|]. cbn [check_previous_segments].
  unfold u64_checked_add. rewrite !decide_True by done. cbn [ok_or]. rewrite Forall_cons, <-IH.
  case_decide; [case_decide|]; [split; [done|lia]|..]; (split; [intros; split; [lia|done]|by intros [_ ?]]).
Qed.

Lemma plan_slice entry ss : (length ss <= MAX_LOAD_SEGMENTS)%nat ->
  slice_to (LoadPlan.segments (kernel_plan entry ss)) (length ss) = Ret ss.
Proof.
  intros Hl. cbn [kernel_plan LoadPlan.segments]. rewrite slice_to_Ret by (rewrite length_app; lia).
  by rewrite take_app_length.
Qed.

Lemma plan_store entry ss s : (length ss < MAX_LOAD_SEGMENTS)%nat ->
  store (LoadPlan.segments (kernel_plan entry ss)) (length ss) s
  = Ret (LoadPlan.segments (kernel_plan entry (ss ++ [s]))).
Proof.
  intros Hl. cbn [kernel_plan LoadPlan.segments].
  rewrite store_Ret by (rewrite length_app, length_replicate; lia).
  f_equal. rewrite insert_app_r_alt by done. rewrite Nat.sub_diag, length_app. cbn [length].
  replace (MAX_LOAD_SEGMENTS - length ss)%nat with (S (MAX_LOAD_SEGMENTS - (length ss + 1))) by lia.
  by rewrite <-(assoc_L (++)).
Qed.

Lemma all_separate_snoc ss s :
  all_separate (ss ++ [s]) <-> all_separate ss /\ Forall (fun e => separate e s) ss.
Proof.
  unfold all_separate. split.
  - intros H. split.
    + intros i j s1 s2 Hij Hi Hj. by eapply (H i j); [| apply lookup_app_l_Some | apply lookup_app_l_Some].
    + apply Forall_forall. intros e [i Hi]%list_elem_of_lookup. apply lookup_lt_Some in Hi as Hlt.
      eapply (H i (length ss)); [done|by apply lookup_app_l_Some|]. by rewrite list_lookup_middle.
  - intros [H Hs] i j s1 s2 Hij Hi Hj. apply lookup_lt_Some in Hj as Hjl. rewrite length_app in Hjl. cbn in Hjl.
    rewrite lookup_app_l in Hi by lia. destruct (decide (j = length ss)) as [->|].
    + rewrite list_lookup_middle in Hj by done. injection Hj as <-.
      eapply Forall_forall in Hs; [exact Hs|]. by eapply list_elem_of_lookup_2.
    + rewrite lookup_app_l in Hj by lia. by eapply (H i j).
Qed.

Lemma all_separate_prefix ss ss' : all_separate (ss ++ ss') -> all_separate ss.
Proof. intros H i j s1 s2 Hij Hi Hj. by eapply (H i j); [|apply lookup_app_l_Some..]. Qed.

Section reading_kernel.
Context (bytes : list N) (Hlen : len bytes <= ISIZE_MAX).

Lemma kernel_read_spec n offset : 
  offset + N.of_nat n <= len bytes -> kernel_read n bytes offset = Ok (word n bytes offset).
Proof.
  intros Ho. unfold kernel_read, u64_checked_add, word. unfold ISIZE_MAX, U64_MAX in *.
  rewrite decide_True by lia. cbn [ok_or]. by rewrite decide_True.
Qed.

Lemma kernel_in_file n k offset :
  in_file bytes offset -> k + N.of_nat n <= PROGRAM_HEADER_SIZE ->
  kernel_read n bytes (offset + k) = Ok (word n bytes (offset + k)).
Proof. unfold in_file. intros. apply kernel_read_spec. lia. Qed.

Lemma add_segment_spec entry ss offset :
  in_file bytes offset -> (length ss <= MAX_LOAD_SEGMENTS)%nat -> Forall (loadable bytes) ss ->
  add_segment bytes offset (kernel_plan entry ss) <> Panic
  /\ forall plan, add_segment bytes offset (kernel_plan entry ss) = Ret (Ok plan) <->
       (length ss < MAX_LOAD_SEGMENTS)%nat /\ header_fits bytes offset
       /\ Forall (fun e => separate e (kernel_segment bytes offset)) ss
       /\ plan = kernel_plan entry (ss ++ [kernel_segment bytes offset]).
Proof.
  intros Hin Hl Hok. unfold add_segment, kernel_u32, kernel_u64.
  change (LoadPlan.segment_count (kernel_plan entry ss)) with (length ss).
  rewrite !kernel_in_file by (done || (unfold PROGRAM_HEADER_SIZE; lia)). rewrite !try_value.
  rewrite plan_slice by done. set (s := LoadSegment.mk _ _ _ _ _).
  assert (Hprev : Forall (fun p => LoadSegment.physical_address p + LoadSegment.memory_size p <= U64_MAX) ss)
    by (eapply Forall_impl; [exact Hok|]; by intros p []).
  destruct (decide (length ss = MAX_LOAD_SEGMENTS)) as [Hfull|Hroom].
  { split; [done|]. intros plan. split; [done|]. lia. }
  rewrite plan_store by lia. split.
  - repeat first [apply guard_returns; intros _ | apply try_returns; [done|intros ? _]]. done.
  - intros plan. rewrite !guard_Ok, try_Ok. setoid_rewrite checked_add_Ok. setoid_rewrite guard_Ok.
    setoid_rewrite try_Ok. setoid_rewrite checked_add_Ok. setoid_rewrite try_Ok.
    assert (Hplan : LoadPlan.mk entry (LoadPlan.segments (kernel_plan entry (ss ++ [s]))) (length ss + 1)
      = kernel_plan entry (ss ++ [s])) by (unfold kernel_plan; by rewrite length_app).
    cbn [LoadPlan.entry kernel_plan]. fold (kernel_plan entry (ss ++ [s])). rewrite Hplan. clear Hplan.
    unfold header_fits. split.
    + intros (H1&H2%dec_stable&H3%dec_stable&H4&fe&[H5 ->]&H6&x&[H7 ->]&[]&H8&[= <-]).
      injection H8 as H8. apply check_previous_segments_spec in H8; [|done|done].
      split_and!; [lia| |done| |exact H8|done].
      * split; cbn; [lia|by apply aligned_mod|lia|done].
      * destruct (decide (word 8 bytes (offset + 48) = 0)) as [|Hz]; [by left|right].
        apply not_and_l in H4 as [?|H4]; [done|]. apply not_or_and in H4 as [[k Hk]%power_of_two_iff Hp].
        exists k. rewrite <-Hk. split; [done|lia].
    + intros (_&([H1 H3 H5 H7]&H2&H4)&H8&->). cbn in H1, H3, H5, H7.
      split; [lia|]. split; [by intros Hx; apply Hx|]. split; [intros Hx; by apply Hx, aligned_mod|].
      split.
      { intros [Hz [Hp|Hp]]; destruct H4 as [H4|(k&Hk&Hle)]; [done| |done|rewrite Hk in Hp; lia].
        revert Hp. apply power_of_two_iff. by exists k. }
      unfold ISIZE_MAX, U64_MAX in *. eexists. split; [split; [lia|done]|]. split; [lia|]. eexists.
      split; [split; [lia|done]|]. exists tt. split; [|done]. f_equal.
      apply check_previous_segments_spec; [unfold U64_MAX; lia|done|done].
Qed.

Lemma kernel_segments_cons o os :
  kernel_segments bytes (o :: os)
  = (if decide (word 4 bytes o = PT_LOAD) then [kernel_segment bytes o] else []) ++ kernel_segments bytes os.
Proof. unfold kernel_segments. rewrite filter_cons. by case_decide. Qed.

Lemma read_headers_spec ph_offset indices : forall entry ss,
  Forall (in_file bytes) (offsets ph_offset indices) -> Forall (loadable bytes) ss ->
  all_separate ss -> (length ss <= MAX_LOAD_SEGMENTS)%nat ->
  let all := ss ++ kernel_segments bytes (offsets ph_offset indices) in
  read_headers bytes ph_offset indices (kernel_plan entry ss) <> Panic
  /\ forall plan, read_headers bytes ph_offset indices (kernel_plan entry ss) = Ret (Ok plan) <->
       Forall (fun o => word 4 bytes o = PT_LOAD -> header_fits bytes o) (offsets ph_offset indices)
       /\ all_separate all /\ (length all <= MAX_LOAD_SEGMENTS)%nat /\ plan = kernel_plan entry all.
Proof.
  induction indices as [|i indices IH]; intros entry ss Hall Hok Hsep Hl; cbn zeta.
  { cbn [read_headers]. change (offsets ph_offset []) with (@nil N). change (kernel_segments bytes []) with (@nil LoadSegment.t).
    rewrite app_nil_r. split; [done|]. intros plan. split; [intros [= <-]; by split_and!|by intros (_&_&_&->)]. }
  change (offsets ph_offset (i :: indices))
    with ((ph_offset + N.of_nat i * PROGRAM_HEADER_SIZE) :: offsets ph_offset indices) in *.
  apply Forall_cons in Hall as [Hi Hall]. cbn [read_headers].
  rewrite (in_file_offset bytes Hlen) by done. set (o := ph_offset + _) in *.
  rewrite kernel_segments_cons. setoid_rewrite Forall_cons. unfold kernel_u32.
  rewrite kernel_read_spec by (unfold in_file, PROGRAM_HEADER_SIZE in Hi; lia). rewrite try_value.
  destruct (decide (word 4 bytes o = PT_LOAD)) as [Hk|Hk].
  2: { rewrite decide_True by done. cbn [app]. destruct (IH entry ss Hall Hok Hsep Hl) as [IH1 IH2].
       split; [done|]. intros plan. rewrite IH2. naive_solver. }
  rewrite decide_False by (by intros Hx). cbn [app].
  destruct (add_segment_spec entry ss o Hi Hl Hok) as [Ha1 Ha2]. set (s := kernel_segment bytes o) in *.
  assert (Hnext : header_fits bytes o -> Forall (fun e => separate e s) ss ->
    Forall (loadable bytes) (ss ++ [s]) /\ all_separate (ss ++ [s])).
  { intros Hf Hs. split; [by apply Forall_app_2; [|apply Forall_singleton; apply Hf]|by apply all_separate_snoc]. }
  replace (ss ++ s :: kernel_segments bytes (offsets ph_offset indices))
    with ((ss ++ [s]) ++ kernel_segments bytes (offsets ph_offset indices)) by (by rewrite <-(assoc_L (++))).
  split.
  - apply try_returns; [done|]. intros plan (Hroom&Hf&Hs&->)%Ha2. destruct (Hnext Hf Hs).
    apply IH; [done..|]. rewrite length_app. cbn. lia.
  - intros plan. rewrite try_Ok. split.
    + intros (p&(Hroom&Hf&Hs&->)%Ha2&Hrun). destruct (Hnext Hf Hs).
      apply IH in Hrun as (?&?&?&->); [by split_and!|done..|rewrite length_app; cbn; lia].
    + intros ([Hf Hfs]&Hsep'&Hl'&->). specialize (Hf Hk). pose proof (all_separate_prefix _ _ Hsep') as Hs.
      apply all_separate_snoc in Hs as [_ Hs]. destruct (Hnext Hf Hs). rewrite !length_app in Hl'. cbn in Hl'.
      eexists. split; [apply Ha2; split_and!; [lia|done..]|].
      apply IH; [done..|rewrite length_app; cbn; lia|]. rewrite !length_app. cbn. by split_and!; [..|lia|].
Qed.
End reading_kernel.

Lemma entry_loaded_spec entry ss :
  Forall (fun p => LoadSegment.physical_address p + LoadSegment.memory_size p <= U64_MAX) ss ->
  exists b, entry_loaded entry ss = Ret b /\ (b = true <-> Exists (enters entry) ss).
Proof.
  induction 1 as [|p ss Hp _ (b&IH&Hb)]; [exists false; split; [done|]; split; [done|by intros ?%Exists_nil]|].
  cbn [entry_loaded]. unfold u64_add. rewrite (decide_True (P := _ + _ <= _)) by done.
  case_decide as H1; [case_decide as H2|]; [exists true|exists b|exists b]; (split; [done|]);
    rewrite Exists_cons, <-Hb; unfold enters; rewrite <-low_bit;
    (split; [auto with lia|]); try tauto; (intros [?|?]; [|done]); lia.
Qed.

Section parsing_kernel.
Context (bytes : list N) (Hlen : len bytes <= ISIZE_MAX).

Lemma check_kernel_header_spec :
  check_kernel_header bytes <> Panic
  /\ (check_kernel_header bytes = Ret (Ok tt) <->
      ELF_HEADER_SIZE <= len bytes
      /\ sub_bytes bytes 0 7 = [0x7f; 0x45; 0x4c; 0x46; 2; 1; 1]
      /\ word 2 bytes 18 = 0x3e /\ word 4 bytes 20 = 1
      /\ word 2 bytes 52 = ELF_HEADER_SIZE /\ word 2 bytes 54 = PROGRAM_HEADER_SIZE).
Proof.
  unfold check_kernel_header. destruct (decide (len bytes < ELF_HEADER_SIZE)) as [Hs|Hs].
  { split; [done|]. split; [done|]. intros [? _]. lia. }
  unfold kernel_u16, kernel_u32.
  rewrite !(kernel_read_spec bytes Hlen) by (unfold ELF_HEADER_SIZE in *; lia). rewrite !try_value.
  assert (Hb : exists b0 b1 b2 b3 b4 b5 b6 rest, bytes = b0 :: b1 :: b2 :: b3 :: b4 :: b5 :: b6 :: rest).
  { unfold len, ELF_HEADER_SIZE in Hs. clear Hlen.
    destruct bytes as [|b0 [|b1 [|b2 [|b3 [|b4 [|b5 [|b6 rest]]]]]]]; simpl in Hs; try lia. by do 8 eexists. }
  destruct Hb as (b0&b1&b2&b3&b4&b5&b6&rest&Hb).
  assert (Hi : index bytes 4 = Ret b4 /\ index bytes 5 = Ret b5 /\ index bytes 6 = Ret b6
    /\ slice_to bytes 4 = Ret [b0; b1; b2; b3]) by (by rewrite Hb).
  destruct Hi as (->&->&->&->).
  assert (H7 : sub_bytes bytes 0 7 = [b0; b1; b2; b3; b4; b5; b6]) by (by rewrite Hb).
  rewrite H7. split; [repeat (apply guard_returns; intros _); done|].
  rewrite !guard_Ok, not_or_and. split.
  - intros (?&?&[? ?]&?&?&?&?&_). undec. simplify_eq. split_and!; [lia|done..].
  - intros (?&Hm&->&->&->&->). simplify_eq. split_and!; by try (intros Hx; apply Hx).
Qed.

Lemma header_fits_loadable os :
  Forall (fun o => word 4 bytes o = PT_LOAD -> header_fits bytes o) os ->
  Forall (loadable bytes) (kernel_segments bytes os).
Proof.
  intros Hall. unfold kernel_segments. apply Forall_fmap, Forall_forall. intros o [Hk Ho]%list_elem_of_filter.
  eapply Forall_forall in Hall; [|exact Ho]. by apply Hall.
Qed.

(** The parser answers with a plan exactly for the images of the specification. *)
Lemma parse_kernel_spec :
  parse_kernel bytes <> Panic
  /\ forall plan, parse_kernel bytes = Ret (Ok plan)
     <-> exists entry ss, kernel_image bytes entry ss /\ plan = kernel_plan entry ss.
Proof.
  unfold parse_kernel. destruct check_kernel_header_spec as [Hc1 Hc2].
  destruct (check_kernel_header bytes) as [[[]|e]|] eqn:Hc; [| |done].
  2: { split; [done|]. intros plan. split; [done|]. intros (entry&ss&[]&_).
       destruct Hc2 as [_ Hc2]. discriminate Hc2. naive_solver. }
  destruct (proj1 Hc2 eq_refl) as (H1&H2&H3&H4&H5&H6). clear Hc1 Hc2. rewrite try_value.
  unfold kernel_u64, kernel_u16. unfold ELF_HEADER_SIZE in H1.
  rewrite !(kernel_read_spec bytes Hlen) by lia. rewrite !try_value.
  set (os := offsets (word 8 bytes 32) (seq 0 (N.to_nat (word 2 bytes 56)))).
  assert (Hos : header_offsets bytes = os) by done.
  destruct (decide (word 8 bytes 32 + word 2 bytes 56 * PROGRAM_HEADER_SIZE <= len bytes)) as [Hin|Hout].
  2: { assert (Hno : forall plan, ~ exists entry ss, kernel_image bytes entry ss /\ plan = kernel_plan entry ss)
         by (intros plan (entry&ss&Hi&_); apply Hout, Hi).
       split.
       - apply try_returns; [done|]. intros x [_ ->]%checked_mul_Ok. apply try_returns; [done|].
         intros y [_ ->]%checked_add_Ok. by rewrite decide_True by lia.
       - intros plan. split; [|by intros ?%Hno]. intros H. exfalso. revert H.
         rewrite try_Ok. intros (x&[_ ->]%checked_mul_Ok&H). apply try_Ok in H as (y&[_ ->]%checked_add_Ok&H).
         apply guard_Ok in H as [H _]. lia. }
  unfold u64_checked_mul, u64_checked_add. unfold ISIZE_MAX, U64_MAX in Hlen |- *.
  rewrite decide_True by lia. cbn [ok_or]. rewrite try_value, decide_True by lia. cbn [ok_or].
  rewrite try_value, decide_False by lia.
  pose proof (headers_in_file bytes Hlen Hin) as Hfile. fold os in Hfile.
  destruct (read_headers_spec bytes Hlen (word 8 bytes 32) (seq 0 (N.to_nat (word 2 bytes 56))) (word 8 bytes 24) [])
    as [Hr1 Hr2]; [done|done|by intros i j s1 s2 _ ?|cbn; lia|]. fold os in Hr2. cbn [app] in Hr2.
  change (LoadPlan.mk (word 8 bytes 24) (replicate MAX_LOAD_SEGMENTS LoadSegment.default) 0)
    with (kernel_plan (word 8 bytes 24) []).
  set (ss := kernel_segments bytes os) in *.
  assert (Hentry : Forall (fun o => word 4 bytes o = PT_LOAD -> header_fits bytes o) os ->
    exists b, entry_loaded (word 8 bytes 24) ss = Ret b /\ (b = true <-> Exists (enters (word 8 bytes 24)) ss)).
  { intros Hf. apply entry_loaded_spec. eapply Forall_impl; [by apply header_fits_loadable|]. by intros p []. }
  split.
  - apply try_returns; [done|]. intros plan (Hf&Hsep&Hl&->)%Hr2. apply guard_returns. intros _.
    cbn [LoadPlan.segment_count kernel_plan]. fold (kernel_plan (word 8 bytes 24) ss). rewrite plan_slice by done.
    destruct (Hentry Hf) as (b&->&_). by destruct b.
  - intros plan. rewrite try_Ok. split.
    + intros (p&(Hf&Hsep&Hl&->)%Hr2&H). apply guard_Ok in H as [Hne H].
      cbn [LoadPlan.segment_count kernel_plan] in Hne, H. fold (kernel_plan (word 8 bytes 24) ss) in H.
      rewrite plan_slice in H by done. destruct (Hentry Hf) as (b&Hb&He). rewrite Hb in H. destruct b; [|done].
      injection H as <-. exists (word 8 bytes 24), ss. split; [|done]. split; try done; [lia|by apply He].
    + intros (entry&ss'&[_ _ _ _ _ _ -> -> Hf Hsep Hl He]&->). rewrite Hos in Hf, Hsep, Hl, He |- *. fold ss in Hsep, Hl, He |- *.
      eexists. split; [apply Hr2; split_and!; [done|done|lia|done]|]. apply guard_Ok.
      cbn [LoadPlan.segment_count kernel_plan]. fold (kernel_plan (word 8 bytes 24) ss).
      split; [lia|]. rewrite plan_slice by lia. destruct (Hentry Hf) as (b&->&Hb). by rewrite (proj2 Hb He).
Qed.
End parsing_kernel.

(** C24: The loader accepts exactly the kernel images of the specification:
    a little-endian x86-64 header, program headers inside the file, one to
    sixteen loadable segments whose bytes are in the file, at page boundaries,
    identity mapped, not wrapping and pairwise disjoint, and an entry point in
    an executable one. On no image of at most [isize::MAX] bytes does it panic. *)
Theorem parse_kernel_exact bytes : len bytes <= ISIZE_MAX ->
  parse_kernel bytes <> Panic
  /\ forall plan, parse_kernel bytes = Ret (Ok plan)
     <-> exists entry ss, kernel_image bytes entry ss /\ plan = kernel_plan entry ss.
Proof. apply parse_kernel_spec. Qed.

Module LoaderElfExample.
(** A kernel of one executable page at 1 MiB, entered at its start. *)
Definition elf_header : list N :=
  [0x7f; 0x45; 0x4c; 0x46; 2; 1; 1] ++ replicate 9 0 ++ [2; 0; 0x3e; 0] ++ to_le_bytes 4 1
  ++ to_le_bytes 8 0x100000 ++ to_le_bytes 8 64 ++ replicate 12 0 ++ [64; 0; 56; 0; 1; 0] ++ replicate 6 0.
Definition program_header : list N :=
  to_le_bytes 4 1 ++ to_le_bytes 4 5 ++ to_le_bytes 8 120 ++ to_le_bytes 8 0x100000 ++ to_le_bytes 8 0x100000
  ++ to_le_bytes 8 2 ++ to_le_bytes 8 16 ++ to_le_bytes 8 4096.
Definition kernel : list N := elf_header ++ program_header ++ [0xeb; 0xfe].

Definition the_segment : LoadSegment.t := LoadSegment.mk 120 0x100000 2 16 5.

Lemma parse_kernel_exact_witness :
  parse_kernel kernel = Ret (Ok (kernel_plan 0x100000 [the_segment]))
  /\ exists entry ss, kernel_image kernel entry ss /\ kernel_plan 0x100000 [the_segment] = kernel_plan entry ss.
Proof.
  assert (Hp : parse_kernel kernel = Ret (Ok (kernel_plan 0x100000 [the_segment]))) by by vm_compute.
  split; [exact Hp|]. apply (proj2 (parse_kernel_exact kernel ltac:(by vm_compute))). exact Hp.
Defined.
End LoaderElfExample.
