(* ===== verification/Loader.v ===== *)
(** * The loader's main program (loader/src/main.rs)

    From the boot-control decision to the entry into the kernel, as the release
    loader is built: with slot boot control and without the acceptance fixture.
    The firmware is a parameter: its variables ([UefiRuntime]) and the boot
    services the loader calls ([BootServices]). Messages on the console are not
    modelled; the error messages are. *)

From Stdlib Require Import String.
From stdpp Require Import prelude.
From S2P Require Import Prelude Memory BootContract AbJournal UserElf LoaderElf SlotUpdate.

Local Open Scope N_scope.
Local Open Scope nagi_scope.

(** ** The firmware *)

Module VolumeError.
Inductive t := NoFileSystem | NoVolume.
End VolumeError.

Module AllocateType.
Inductive t := MaxAddress (address : N) | Address (address : N).
End AllocateType.

Module PixelFormat.
Inductive t := Rgb | Bgr | Bitmask | BltOnly.
End PixelFormat.

(** What the graphics protocol tells of the current mode. *)
Module Graphics.
Record t := mk { width : N; height : N; format : PixelFormat.t; stride : N; address : N; size : N }.
End Graphics.

Module ConfigTable.
Inductive kind := ACPI2 | ACPI | Other.
Record t := mk { guid : kind; address : N }.
End ConfigTable.

(** The memory map that leaving the boot services returns. *)
Module MemoryMap.
Record t := mk { buffer : N; len : N; desc_size : N; desc_version : N }.
End MemoryMap.

Class BootServices (F : Type) := {
  helpers_init : F -> Result unit unit;
  Volume : Type;
  FileHandle : Type;
  RegularFile : Type;
  delete_variable : F -> string -> Result unit unit * F;
  (** A key that was pressed, if it is printable. *)
  read_key : F -> option N * F;
  (** Every handle with partition information: the information may be
      unavailable, and has a GUID when it is of a GPT partition. *)
  locate_partitions : F -> option (list (Result (option (list N)) unit));
  partition_volume : F -> nat -> Result Volume VolumeError.t;
  image_volume : F -> Result Volume VolumeError.t;
  open_file : F -> Volume -> string -> Result FileHandle unit;
  (** [None] is a directory. *)
  into_type : FileHandle -> Result (option RegularFile) unit;
  (** [None] is the end of the file. *)
  set_position : F -> RegularFile -> option N -> Result unit unit * F;
  get_position : F -> RegularFile -> Result N unit;
  (** Reads into a buffer of the given length. *)
  read_file : F -> RegularFile -> nat -> Result (list N) unit * F;
  allocate_pages : F -> AllocateType.t -> N -> Result N unit * F;
  (** The address of [SetVariable] in the runtime services of the system table. *)
  system_table : F -> option (option N);
  graphics : F -> Result Graphics.t unit;
  config_tables : F -> list ConfigTable.t;
  get_time : F -> Result FirmwareDateTime.t unit;
  exit_boot_services : F -> MemoryMap.t
}.

(** ** Constants *)

Definition MAX_KERNEL_IMAGE_SIZE : N := 4 * 1024 * 1024.
Definition MAX_INIT_IMAGE_SIZE : N := 128 * 1024 * 1024.
Definition INIT_READ_CHUNK_SIZE : N := 1024 * 1024.
Definition INIT_IMAGE_MAX_ADDRESS : N := 0xffffffff.

(** The bytes of [4e414702-0001-4e41-4749-00000000000n]. *)
Definition nagi_guid (n : N) : list N :=
  [0x02; 0x47; 0x41; 0x4e; 0x01; 0x00; 0x41; 0x4e; 0x47; 0x49; 0; 0; 0; 0; 0; n].
Definition ESP_UNIQUE_GUID : list N := nagi_guid 0.
Definition SYSTEM_A_UNIQUE_GUID : list N := nagi_guid 1.
Definition SYSTEM_B_UNIQUE_GUID : list N := nagi_guid 2.
Definition RECOVERY_UNIQUE_GUID : list N := nagi_guid 4.

Definition NAGI_BOOT_READY_VARIABLE : string := "NagiBootReady".
Definition NAGI_BOOT_STAGE_VARIABLE : string := "NagiBootStage".

Definition TRUSTED_SLOT_SIGNING_PUBLIC_KEY : list N :=
  [0xd7; 0x5a; 0x98; 0x01; 0x82; 0xb1; 0x0a; 0xb7; 0xd5; 0x4b; 0xfe; 0xd3; 0xc9; 0x64; 0x07; 0x3a;
   0x0e; 0xe1; 0x72; 0xf3; 0xda; 0xa6; 0x23; 0x25; 0xaf; 0x02; 0x1a; 0x68; 0xf7; 0x07; 0x51; 0x1a].

Module BootImageSelection.
Inductive t := Default | SystemA | SystemB | Recovery.

#[global] Instance eq_dec : EqDecision t.
Proof. solve_decision. Defined.

Definition system_slot (self : t) : option SystemSlot.t :=
  match self with
  | SystemA => Some SystemSlot.A
  | SystemB => Some SystemSlot.B
  | Default | Recovery => None
  end.

Definition of_slot (slot : SystemSlot.t) : t :=
  match slot with SystemSlot.A => SystemA | SystemSlot.B => SystemB end.
End BootImageSelection.

(** ** Memory *)

(** [ptr::write_bytes] and a copy to an address. *)
Definition fill (memory : N -> N) (address count byte : N) : N -> N :=
  fun a => if decide (address <= a < address + count) then byte else memory a.

Definition blit (memory : N -> N) (address : N) (bytes : list N) : N -> N :=
  fun a => if decide (address <= a < address + N.of_nat (length bytes))
           then byte_at bytes (N.to_nat (a - address)) else memory a.

Module Machine.
Record t (F : Type) := mk { firmware : F; memory : N -> N }.
Arguments mk {_} _ _.
Arguments firmware {_} _.
Arguments memory {_} _.
End Machine.

Section loader.
Context {F : Type} `{UefiRuntime F, BootServices F, Ed25519, Sha256}.

(** Code of the loader: it fails with a message. *)
Definition Load (T : Type) : Type := Proc (Machine.t F) string T.

(** ** Calls of the firmware *)

Definition ask {T} (f : F -> T) : Load T := fun s => Ret (Ok (f (Machine.firmware s)), s).

Definition consult {T} (f : F -> Result T string) : Load T := fun s => Ret (f (Machine.firmware s), s).

Definition call_firmware {T} (f : F -> T * F) : Load T := fun s =>
  let '(x, firmware) := f (Machine.firmware s) in Ret (Ok x, Machine.mk firmware (Machine.memory s)).

(** [result.map_err(|_| message)?] *)
Definition or_fail {T E} (message : string) (r : Result T E) : Load T := Proc.lift (map_err (fun _ => message) r).

(** A call whose failure is reported with [message]. *)
Definition try_call {T E} (message : string) (f : F -> Result T E * F) : Load T :=
  do r := call_firmware f in or_fail message r.

Definition write_memory (f : (N -> N) -> (N -> N)) : Load unit := fun s =>
  Ret (Ok tt, Machine.mk (Machine.firmware s) (f (Machine.memory s))).

(** ** Volumes and files *)

(** The differences of the bytes, collected. *)
Definition guid_matches (left right : list N) : bool :=
  bool_decide (foldl N.lor 0 (zip_with N.lxor left right) = 0).

(** The loop over the partitions: the one that was found, and whether any
    belongs to Nagi. *)
Fixpoint find_partition (unique_guid : list N) (index : nat) (partitions : list (Result (option (list N)) unit))
  (matched : option nat) (found : bool) : Result (option nat * bool) string :=
  match partitions with
  | [] => Ok (matched, found)
  | partition :: partitions =>
      match partition with
      | Err _ => Err "Nagi Loader: GPT partition info unavailable"%string
      | Ok None => find_partition unique_guid (S index) partitions matched found
      | Ok (Some candidate) =>
          let found := found || (guid_matches candidate ESP_UNIQUE_GUID
                                 || guid_matches candidate SYSTEM_A_UNIQUE_GUID
                                 || guid_matches candidate SYSTEM_B_UNIQUE_GUID
                                 || guid_matches candidate RECOVERY_UNIQUE_GUID) in
          if guid_matches candidate unique_guid then
            match matched with
            | Some _ => Err "Nagi Loader: duplicate GPT partition GUID"%string
            | None => find_partition unique_guid (S index) partitions (Some index) found
            end
          else find_partition unique_guid (S index) partitions matched found
      end
  end.

Definition open_partition_root (f : F) (unique_guid : list N) : Result (option Volume) string :=
  match locate_partitions f with
  | None => Ok None
  | Some handles =>
      let? (matched, found) := find_partition unique_guid 0 handles None false in
      match matched with
      | None => if negb found then Ok None else Err "Nagi Loader: selected GPT partition is missing"%string
      | Some handle =>
          match partition_volume f handle with
          | Ok volume => Ok (Some volume)
          | Err VolumeError.NoFileSystem => Err "Nagi Loader: GPT partition filesystem unavailable"%string
          | Err VolumeError.NoVolume => Err "Nagi Loader: GPT partition volume unavailable"%string
          end
      end
  end.

Definition open_volume_root_quietly (f : F) (selection : BootImageSelection.t) : Result (Volume * bool) string :=
  let unique_guid := match selection with
                     | BootImageSelection.Default | BootImageSelection.SystemA => SYSTEM_A_UNIQUE_GUID
                     | BootImageSelection.SystemB => SYSTEM_B_UNIQUE_GUID
                     | BootImageSelection.Recovery => RECOVERY_UNIQUE_GUID
                     end in
  let? root := open_partition_root f unique_guid in
  match root with
  | Some root => Ok (root, true)
  | None =>
      match image_volume f with
      | Ok volume => Ok (volume, false)
      | Err VolumeError.NoFileSystem => Err "Nagi Loader: filesystem unavailable"%string
      | Err VolumeError.NoVolume => Err "Nagi Loader: volume unavailable"%string
      end
  end.

(** The path of a file of the selected slot. *)
Definition slot_path (selection : BootImageSelection.t) (from_partition : bool) (name : string) : string :=
  if from_partition then ("\" ++ name)%string
  else match selection with
       | BootImageSelection.SystemA => ("\EFI\NAGI\SYSTEMA\" ++ name)%string
       | BootImageSelection.SystemB => ("\EFI\NAGI\SYSTEMB\" ++ name)%string
       | BootImageSelection.Recovery => ("\EFI\NAGI\RECOVERY\" ++ name)%string
       | BootImageSelection.Default => ("\EFI\NAGI\" ++ name)%string
       end.

(** Opening a regular file, with the message of each failure. *)
Definition open_regular (f : F) (root : Volume) (path missing no_type directory : string) : Result RegularFile string :=
  let? handle := map_err (fun _ => missing) (open_file f root path) in
  let? file := map_err (fun _ => no_type) (into_type handle) in
  ok_or file directory.

(** The loop of [read_bounded_regular_file]; [bytes] is what it has read. *)
Fixpoint read_loop (fuel : nat) (file : RegularFile) (size : nat) (read_error short_read : string) (bytes : list N)
  : Load (list N) :=
  match fuel with
  | O => Proc.ret bytes
  | S fuel =>
      if decide (size <= length bytes)%nat then Proc.ret bytes
      else
        do data := try_call read_error (fun f => read_file f file (size - length bytes)) in
        if decide (data = []) then Proc.fail short_read
        else read_loop fuel file size read_error short_read (bytes ++ data)
  end.

(** The bytes that are read into the first part of a buffer of [capacity]. *)
Definition read_bounded_regular_file (file : RegularFile) (capacity : N)
  (size_error unsupported_size rewind_error read_error short_read : string) : Load (list N) :=
  do _ := try_call size_error (fun f => set_position f file None) in
  do size := ask (fun f => get_position f file) in
  do size := or_fail size_error size in
  if decide (size = 0 \/ capacity < size) then Proc.fail unsupported_size
  else
    do _ := try_call rewind_error (fun f => set_position f file (Some 0)) in
    read_loop (N.to_nat size + 1) file (N.to_nat size) read_error short_read [].

(** [m.map_err(|_| message)?] *)
Definition with_message {T} (message : string) (m : Load T) : Load T := fun s =>
  match m s with
  | Ret (Err _, s) => Ret (Err message, s)
  | r => r
  end.

(** ** Slot manifests *)

Definition manifest_message (error : ManifestError.t) : string :=
  match error with
  | ManifestError.InvalidLength => "size"
  | ManifestError.Signature => "signature"
  | ManifestError.Malformed => "malformed"
  end.

Definition read_slot_manifest (selection : BootImageSelection.t) : Load SlotManifest.t :=
  do (root, from_partition) := with_message "volume" (consult (fun f => open_volume_root_quietly f selection)) in
  do file := consult (fun f => open_regular f root (slot_path selection from_partition "SLOT.MAN")
    "missing" "missing" "missing") in
  do bytes := with_message "size"
    (read_bounded_regular_file file (N.of_nat MAX_SLOT_MANIFEST_BYTES) "size" "size" "read" "read" "read") in
  Proc.exec (let! verified := SlotManifest.verify bytes TRUSTED_SLOT_SIGNING_PUBLIC_KEY in
             Ret (map_err manifest_message verified)).

(** Every rejection is reported with one message. *)
Definition reject_slot_manifest : string := "Nagi Loader: slot manifest rejected".

(** The slot that is confirmed while [selection] is on trial. *)
Definition confirmed_image (selection : BootImageSelection.t) : BootImageSelection.t :=
  match selection with
  | BootImageSelection.SystemB => BootImageSelection.SystemA
  | _ => BootImageSelection.SystemB
  end.

Definition verify_slot_manifest (selection : BootImageSelection.t) (boot_control : BootControlInfo.t)
  : Load SlotManifest.t :=
  do manifest := with_message reject_slot_manifest (read_slot_manifest selection) in
  if decide (BootControlInfo.attempt boot_control <> 0) then
    do confirmed_manifest := with_message reject_slot_manifest (read_slot_manifest (confirmed_image selection)) in
    if negb (permits_trial confirmed_manifest manifest) then Proc.fail reject_slot_manifest
    else Proc.ret manifest
  else Proc.ret manifest.

Definition check_slot_payload (manifest : SlotManifest.t) (kind : PayloadKind.t) (bytes : list N) : Load unit :=
  or_fail reject_slot_manifest (PayloadDigest.check (SlotManifest.payload manifest kind) bytes).

(** ** The boot-control decision *)

Definition runtime_set_variable_address : Load N :=
  do table := ask system_table in
  match table with
  | None => Proc.fail "Nagi Loader: M27 runtime table unavailable"%string
  | Some None => Proc.fail "Nagi Loader: M27 runtime services unavailable"%string
  | Some (Some address) => Proc.ret address
  end.

(** A record in a variable with the required attributes, in a buffer of [size]. *)
Definition read_variable_record {R} (name : string) (size : nat) (decode : list N -> option R) (f : F) : option R :=
  match get_variable f name (replicate size 0) with
  | (Ok (length, attributes), output) =>
      if decide (attributes = UefiVariableBootControlStore.REQUIRED_ATTRIBUTES)
      then decode (take length output) else None
  | (Err _, _) => None
  end.

(** [runtime::variable_exists(name).unwrap_or(false)] *)
Definition present (name : string) (f : F) : bool :=
  match variable_exists f name with Ok present => present | Err _ => false end.

Definition journal {T} (message : string) (op : F -> Result T BootControlError.t * F) : Load T := try_call message op.

Definition matching_pending (record : BootReadyRecord.t) (state : BootControlState.t) : bool :=
  match BootControlState.pending state with
  | Some slot => bool_decide (BootReadyRecord.slot record = SystemSlot.code slot)
  | None => false
  end
  && bool_decide (BootReadyRecord.attempt record = BootControlState.attempts state)
  && bool_decide (BootReadyRecord.journal_generation record = BootControlState.generation state).

(** The readiness record of the last boot. *)
Definition consume_ready_record (state : BootControlState.t) : Load BootControlState.t :=
  do exists_ := ask (present NAGI_BOOT_READY_VARIABLE) in
  if exists_ then
    do record := ask (read_variable_record NAGI_BOOT_READY_VARIABLE BOOT_READY_RECORD_SIZE BootReadyRecord.decode) in
    do state := match record with
      | Some record =>
          if matching_pending record state then
            let slot := if decide (BootReadyRecord.slot record = SystemSlot.code SystemSlot.A)
                        then SystemSlot.A else SystemSlot.B in
            do _ := journal "Nagi Loader: M27 readiness promotion failed"
                      (fun f => BootControlJournal.mark_boot_success f slot) in
            journal "Nagi Loader: M27 promoted journal read failed" BootControlJournal.load
          else Proc.ret state
      | None => Proc.ret state
      end in
    do _ := call_firmware (fun f => delete_variable f NAGI_BOOT_READY_VARIABLE) in
    Proc.ret state
  else Proc.ret state.

Definition accept_stage_request (record : option BootStageRecord.t) (state : BootControlState.t)
  : Load SystemSlot.t :=
  match record with
  | None => Proc.fail "record"%string
  | Some record =>
      let slot := if decide (BootStageRecord.slot record = 0) then SystemSlot.A else SystemSlot.B in
      if decide (BootControlState.pending state <> None
                 \/ BootStageRecord.journal_generation record <> BootControlState.generation state
                 \/ slot = BootControlState.confirmed state)
      then Proc.fail "stale"%string
      else
        do candidate := read_slot_manifest (BootImageSelection.of_slot slot) in
        do confirmed := with_message "confirmed-manifest"
                          (read_slot_manifest (BootImageSelection.of_slot (SystemSlot.other slot))) in
        if negb (permits_trial confirmed candidate) then Proc.fail "rollback"%string
        else Proc.ret slot
  end.

(** [match m { Ok(x) => ..., Err(_) => ... }] *)
Definition attempt {T} (m : Load T) : Load (option T) := fun s =>
  match m s with
  | Panic => Panic
  | Ret (Ok x, s) => Ret (Ok (Some x), s)
  | Ret (Err _, s) => Ret (Ok None, s)
  end.

(** The update staging request of the kernel. *)
Definition consume_stage_request (state : BootControlState.t) : Load BootControlState.t :=
  do exists_ := ask (present NAGI_BOOT_STAGE_VARIABLE) in
  if exists_ then
    do record := ask (read_variable_record NAGI_BOOT_STAGE_VARIABLE BOOT_STAGE_RECORD_SIZE BootStageRecord.decode) in
    do _ := call_firmware (fun f => delete_variable f NAGI_BOOT_STAGE_VARIABLE) in
    do accepted := attempt (accept_stage_request record state) in
    match accepted with
    | Some slot =>
        do _ := journal "Nagi Loader: M27 update staging failed" (fun f => BootControlJournal.stage_update f slot) in
        journal "Nagi Loader: M27 staged journal read failed" BootControlJournal.load
    | None => Proc.ret state
    end
  else Proc.ret state.

(** [char::to_ascii_uppercase] *)
Definition to_ascii_uppercase (c : N) : N := if decide (97 <= c <= 122) then c - 32 else c.

(** The rounds of the boot menu that are left. *)
Fixpoint m27_boot_menu_loop (rounds : nat) (state : BootControlState.t) : Load BootImageSelection.t :=
  match rounds with
  | O => Proc.ret BootImageSelection.Default
  | S rounds =>
      do key := call_firmware read_key in
      let key := to_ascii_uppercase <$> key in
      if decide (key = Some 82) then Proc.ret BootImageSelection.Recovery
      else
        let requested := if decide (key = Some 65) then Some SystemSlot.A
                         else if decide (key = Some 66) then Some SystemSlot.B else None in
        match requested with
        | Some slot =>
            if decide (slot = BootControlState.confirmed state \/ BootControlState.pending state = Some slot)
            then Proc.ret (BootImageSelection.of_slot slot)
            else m27_boot_menu_loop rounds state
        | None => m27_boot_menu_loop rounds state
        end
  end.

Definition m27_boot_menu (state : BootControlState.t) : Load BootImageSelection.t := m27_boot_menu_loop 30 state.

Definition default_boot_control : BootControlInfo.t := BootControlInfo.mk 0 0 0 0 0 (replicate 5 0).

(** What the kernel is told of the journal after [decision]. *)
Definition boot_context (decision : BootDecision.t) : Load BootControlInfo.t :=
  if decide (BootDecision.trial_attempt decision = 0) then
    do state := journal "Nagi Loader: M27 confirmed context read failed" BootControlJournal.load in
    if decide (BootControlState.pending state = None) then
      do address := runtime_set_variable_address in
      Proc.ret (BootControlInfo.mk address (BootControlState.generation state)
                  (SystemSlot.code (BootControlState.confirmed state)) 0 BOOT_CONTROL_UPDATE_STAGEABLE
                  (replicate 5 0))
    else Proc.ret default_boot_control
  else
    do state := journal "Nagi Loader: M27 trial context read failed" BootControlJournal.load in
    if decide (BootControlState.pending state <> Some (BootDecision.slot decision)
               \/ BootControlState.attempts state <> BootDecision.trial_attempt decision)
    then Proc.fail "Nagi Loader: M27 trial context mismatch"%string
    else
      do address := runtime_set_variable_address in
      Proc.ret (BootControlInfo.mk address (BootControlState.generation state)
                  (SystemSlot.code (BootDecision.slot decision)) (BootDecision.trial_attempt decision) 0
                  (replicate 5 0)).

Definition m27_boot_control_decision : Load (BootImageSelection.t * BootControlInfo.t) :=
  do state := journal "Nagi Loader: M27 boot-control journal read failed" BootControlJournal.load in
  do state := consume_ready_record state in
  do state := consume_stage_request state in
  do selection := m27_boot_menu state in
  if decide (selection = BootImageSelection.Recovery)
  then Proc.ret (BootImageSelection.Recovery, default_boot_control)
  else if decide (BootImageSelection.system_slot selection = Some (BootControlState.confirmed state))
  then Proc.ret (selection, default_boot_control)
  else
    do decision := journal "Nagi Loader: M27 boot-control decision failed" BootControlJournal.begin_boot in
    do _ := (if negb (BootDecision.rolled_back decision) && bool_decide (BootDecision.trial_attempt decision = 0)
             then do _ := journal "Nagi Loader: M27 confirmed journal read failed" BootControlJournal.load in
                  Proc.ret tt
             else Proc.ret tt) in
    do context := boot_context decision in
    Proc.ret (BootImageSelection.of_slot (BootDecision.slot decision), context).

(** ** Images *)

Definition read_kernel (selection : BootImageSelection.t) : Load (list N) :=
  do (root, from_partition) := consult (fun f => open_volume_root_quietly f selection) in
  do file := consult (fun f => open_regular f root (slot_path selection from_partition "KERNEL.ELF")
    "Nagi Loader: KERNEL.ELF not found" "Nagi Loader: kernel file type failed"
    "Nagi Loader: KERNEL.ELF is a directory") in
  read_bounded_regular_file file MAX_KERNEL_IMAGE_SIZE
    "Nagi Loader: kernel size failed" "Nagi Loader: kernel size is unsupported"
    "Nagi Loader: kernel rewind failed" "Nagi Loader: kernel read failed" "Nagi Loader: short kernel read".

Definition init_image_page_count (size : N) : option N :=
  if decide (size = 0) then None
  else (fun rounded => rounded / PAGE_SIZE) <$> u64_checked_add size (PAGE_SIZE - 1).

(** The loop that reads the image to [start]. *)
Fixpoint read_init_loop (fuel : nat) (file : RegularFile) (start size offset : N) : Load unit :=
  match fuel with
  | O => Proc.ret tt
  | S fuel =>
      if decide (size <= offset) then Proc.ret tt
      else
        let chunk_end := N.min (offset + INIT_READ_CHUNK_SIZE) size in
        do data := try_call "Nagi Loader: init read failed"
          (fun f => read_file f file (N.to_nat (chunk_end - offset))) in
        do _ := write_memory (fun memory => blit memory (start + offset) data) in
        if decide (data = []) then Proc.fail "Nagi Loader: short init read"%string
        else read_init_loop fuel file start size (offset + N.of_nat (length data))
  end.

Definition read_init (selection : BootImageSelection.t) : Load InitImageInfo.t :=
  do (root, from_partition) := consult (fun f => open_volume_root_quietly f selection) in
  do file := consult (fun f => open_regular f root (slot_path selection from_partition "INIT.ELF")
    "Nagi Loader: INIT.ELF not found" "Nagi Loader: init file type failed"
    "Nagi Loader: INIT.ELF is a directory") in
  do _ := try_call "Nagi Loader: init size failed" (fun f => set_position f file None) in
  do size := ask (fun f => get_position f file) in
  do size := or_fail "Nagi Loader: init size failed" size in
  if decide (size = 0 \/ MAX_INIT_IMAGE_SIZE < size) then Proc.fail "Nagi Loader: init size is unsupported"%string
  else
    do pages := Proc.lift (ok_or (init_image_page_count size) "Nagi Loader: init page count overflow"%string) in
    do start := try_call "Nagi Loader: init allocation below 4 GiB failed"
      (fun f => allocate_pages f (AllocateType.MaxAddress INIT_IMAGE_MAX_ADDRESS) pages) in
    do bytes := Proc.lift (ok_or (u64_checked_mul pages PAGE_SIZE)
                             "Nagi Loader: init allocation size overflow"%string) in
    do stop := Proc.lift (ok_or (u64_checked_add start bytes)
                            "Nagi Loader: init allocation address overflow"%string) in
    if decide (INIT_IMAGE_MAX_ADDRESS + 1 < stop) then Proc.fail "Nagi Loader: init allocation exceeds 4 GiB"%string
    else
      do _ := write_memory (fun memory => fill memory start bytes 0) in
      do _ := try_call "Nagi Loader: init rewind failed" (fun f => set_position f file (Some 0)) in
      do _ := read_init_loop (N.to_nat size + 1) file start size 0 in
      Proc.ret (InitImageInfo.mk start size).

(** One segment of the kernel [image]. The copy reads the static buffer that
    starts with the image; a plan stays inside the image, and a range outside
    of it is a panic here. *)
Definition load_segment (image : list N) (segment : LoadSegment.t) : Load unit :=
  do rounded := Proc.lift (ok_or (u64_checked_add (LoadSegment.memory_size segment) (PAGE_SIZE - 1))
                             "Nagi Loader: segment size overflow"%string) in
  let pages := rounded / PAGE_SIZE in
  if decide (pages = 0) then Proc.fail "Nagi Loader: empty load segment"%string
  else
    do allocation := try_call "Nagi Loader: segment allocation failed"
      (fun f => allocate_pages f (AllocateType.Address (LoadSegment.physical_address segment)) pages) in
    if decide (allocation <> LoadSegment.physical_address segment)
    then Proc.fail "Nagi Loader: segment allocated at wrong address"%string
    else
      do _ := write_memory (fun memory => fill memory allocation (pages * PAGE_SIZE) 0) in
      do bytes := Proc.exec (let! bytes := slice image (N.to_nat (LoadSegment.file_offset segment))
                                             (N.to_nat (LoadSegment.file_size segment)) in Ret (Ok bytes)) in
      write_memory (fun memory => blit memory allocation bytes).

Definition load_segments (image : list N) (plan : LoadPlan.t) : Load unit :=
  do segments := Proc.exec (let! segments := slice_to (LoadPlan.segments plan) (LoadPlan.segment_count plan) in
                            Ret (Ok segments)) in
  Proc.for_each segments (load_segment image).

(** ** What else the kernel is told *)

Definition gather_framebuffer (f : F) : Result FramebufferInfo.t unit :=
  let? mode := graphics f in
  let? pixel_format := match Graphics.format mode with
                       | PixelFormat.Rgb => Ok 0
                       | PixelFormat.Bgr => Ok 1
                       | PixelFormat.Bitmask => Ok 2
                       | PixelFormat.BltOnly => Err tt
                       end in
  Ok (FramebufferInfo.mk (Graphics.address mode) (Graphics.size mode) (as_u32 (Graphics.width mode))
        (as_u32 (Graphics.height mode)) (as_u32 (Graphics.stride mode)) pixel_format).

Fixpoint find_acpi_rsdp (address : N) (entries : list ConfigTable.t) : N :=
  match entries with
  | [] => address
  | entry :: entries =>
      match ConfigTable.guid entry with
      | ConfigTable.ACPI2 => ConfigTable.address entry
      | ConfigTable.ACPI =>
          find_acpi_rsdp (if decide (address = 0) then ConfigTable.address entry else address) entries
      | ConfigTable.Other => find_acpi_rsdp address entries
      end
  end.

(** ** The main program *)

(** How the loader ends when it does not fail: in the kernel, or halted because
    there is no memory map. *)
Inductive Ending :=
| Enter (entry : N) (boot_info : BootInfo.t)
| Halt.

Definition main : Load Ending :=
  do helpers := ask helpers_init in
  do _ := or_fail "Nagi Loader: helper init failed" helpers in
  do (image_selection, boot_control) := m27_boot_control_decision in
  do slot_manifest := verify_slot_manifest image_selection boot_control in
  do kernel := read_kernel image_selection in
  do _ := check_slot_payload slot_manifest PayloadKind.Kernel kernel in
  do plan := Proc.exec (let! parsed := parse_kernel kernel in
                        Ret (map_err (fun _ => "Nagi Loader: invalid ELF"%string) parsed)) in
  do _ := load_segments kernel plan in
  do init_image := read_init image_selection in
  do _ := (fun s => check_slot_payload slot_manifest PayloadKind.Init
                      (memory_bytes (Machine.memory s) (InitImageInfo.address init_image)
                         (N.to_nat (InitImageInfo.size init_image))) s) in
  do framebuffer := ask gather_framebuffer in
  do framebuffer := or_fail "Nagi Loader: GOP unavailable" framebuffer in
  do acpi_rsdp := ask (fun f => find_acpi_rsdp 0 (config_tables f)) in
  if decide (acpi_rsdp = 0) then Proc.fail "Nagi Loader: ACPI RSDP unavailable"%string
  else
    do realtime_epoch_ns := ask (fun f => match get_time f with
                                          | Ok time => firmware_time_to_unix_ns time
                                          | Err _ => REALTIME_UNAVAILABLE_NS
                                          end) in
    do memory_map := ask exit_boot_services in
    if decide (MemoryMap.len memory_map = 0) then Proc.ret Halt
    else
      Proc.ret (Enter (LoadPlan.entry plan)
        (BootInfo.mk BOOT_INFO_MAGIC BOOT_INFO_VERSION BootInfo.SIZE
           (MemoryMapInfo.mk (MemoryMap.buffer memory_map) (MemoryMap.len memory_map)
              (MemoryMap.desc_size memory_map) (MemoryMap.desc_version memory_map))
           framebuffer acpi_rsdp init_image realtime_epoch_ns boot_control)).
End loader.
Arguments Load : clear implicits.

(** ** What the firmware promises of memory *)

(** Pages are allocated once, files are not read past the buffer, and reading
    files allocates nothing. Nothing is promised of what a file holds. *)
Class AllocationLaws (F : Type) `{BootServices F} := {
  allocated : F -> N -> Prop;
  allocate_law : forall f kind pages,
    let '(result, f') := allocate_pages f kind pages in
    match result with
    | Ok start =>
        (forall a, start <= a < start + pages * PAGE_SIZE -> ~ allocated f a)
        /\ (forall a, allocated f' a <-> allocated f a \/ start <= a < start + pages * PAGE_SIZE)
    | Err _ => forall a, allocated f' a <-> allocated f a
    end;
  position_allocated : forall f file where_ a, allocated (set_position f file where_).2 a <-> allocated f a;
  read_allocated : forall f file n a, allocated (read_file f file n).2 a <-> allocated f a;
  read_length : forall f file n data, (read_file f file n).1 = Ok data -> (length data <= n)%nat
}.

(** A partition with a GUID, and that GUIDs have sixteen bytes. *)
Definition has_guid (guid : list N) (partition : Result (option (list N)) unit) : Prop := partition = Ok (Some guid).

Definition well_sized (partition : Result (option (list N)) unit) : Prop :=
  forall guid, has_guid guid partition -> length guid = 16%nat.

(** A manifest that is signed with the trusted key. *)
Definition trusted `{Ed25519} (m : SlotManifest.t) : Prop :=
  exists v signature, manifest_ok m v /\ signed_by TRUSTED_SLOT_SIGNING_PUBLIC_KEY (manifest_text m v) signature.

(** The segment's bytes of [kernel] are in memory, followed by zeros. *)
Definition loaded (memory : N -> N) (kernel : list N) (segment : LoadSegment.t) : Prop :=
  forall i, i < LoadSegment.memory_size segment ->
  memory (LoadSegment.physical_address segment + i)
  = if decide (i < LoadSegment.file_size segment)
    then byte_at kernel (N.to_nat (LoadSegment.file_offset segment + i)) else 0.

(** Memory of the segment. *)
Definition in_segment (segment : LoadSegment.t) (a : N) : Prop :=
  LoadSegment.physical_address segment <= a < LoadSegment.physical_address segment + LoadSegment.memory_size segment.

Definition in_init (info : InitImageInfo.t) (a : N) : Prop :=
  InitImageInfo.address info <= a < InitImageInfo.address info + InitImageInfo.size info.

(** What the loader enters with the memory [memory], after it decided in [s] to
    boot [selection], is verified: the slot's manifest [m] is signed with the
    trusted key, for a trial its rollback index is not below that of the signed
    manifest of the confirmed slot, it pins the bytes of a well-formed kernel
    image whose segments are in memory, and it pins the initial program that is
    in memory below 4 GiB, apart from the kernel. *)
Record verified `{UefiRuntime F, BootServices F, Ed25519, Sha256} (s : Machine.t F)
  (selection : BootImageSelection.t) (control : BootControlInfo.t) (memory : N -> N) (entry : N)
  (init : InitImageInfo.t) (m : SlotManifest.t) (kernel : list N) (segments : list LoadSegment.t) : Prop := {
  verified_trusted : trusted m;
  verified_manifest : exists s', read_slot_manifest selection s = Ret (Ok m, s')
    /\ (BootControlInfo.attempt control <> 0 -> exists confirmed s'',
         read_slot_manifest (confirmed_image selection) s' = Ret (Ok confirmed, s'')
         /\ trusted confirmed /\ SlotManifest.rollback_index confirmed <= SlotManifest.rollback_index m);
  verified_kernel : pins (SlotManifest.kernel m) kernel;
  verified_image : kernel_image kernel entry segments;
  verified_loaded : Forall (loaded memory kernel) segments;
  verified_init : pins (SlotManifest.init m)
    (memory_bytes memory (InitImageInfo.address init) (N.to_nat (InitImageInfo.size init)));
  verified_low : InitImageInfo.address init + InitImageInfo.size init <= 2 ^ 32;
  verified_apart : forall a, in_init init a -> ~ Exists (fun x => in_segment x a) segments
}.

(** ** Calls of the firmware *)

Section firmware_calls.
Context {F : Type} `{UefiRuntime F, BootServices F, Ed25519, Sha256}.
Implicit Types (s : Machine.t F) (f : F).

Lemma total_ask {T} (g : F -> T) : total (ask g).
Proof. intros s. by eexists (Ok _), _. Qed.

Lemma total_consult {T} (g : F -> Result T string) : total (consult g).
Proof. intros s. exists (g (Machine.firmware s)), s. split; [done|]. by destruct (g _). Qed.

Lemma total_call {T} (g : F -> T * F) : total (call_firmware g).
Proof. intros s. unfold call_firmware. destruct (g (Machine.firmware s)) eqn:Hg. eexists (Ok _), _. by rewrite Hg. Qed.

Lemma total_or_fail {T E} message (r : Result T E) : total (or_fail (F := F) message r).
Proof. apply total_lift. Qed.

Lemma total_write g : total (write_memory (F := F) g).
Proof. intros s. by eexists (Ok _), _. Qed.

Lemma total_with {T} message (m : Load F T) : total m -> total (with_message message m).
Proof. intros Hm s. destruct (Hm s) as ([x|e]&s'&Hr&_); [exists (Ok x)|exists (Err message)]; exists s'; unfold with_message; by rewrite Hr. Qed.

Lemma total_attempt {T} (m : Load F T) : total m -> total (attempt m).
Proof. intros Hm s. destruct (Hm s) as ([x|e]&s'&Hr&_); [exists (Ok (Some x))|exists (Ok None)]; exists s'; unfold attempt; by rewrite Hr. Qed.

Lemma yields_ask {T} (g : F -> T) s (Q : T -> Machine.t F -> Prop) E :
  Q (g (Machine.firmware s)) s -> yields (ask g) s Q E.
Proof. intros HQ. by exists (Ok (g (Machine.firmware s))), s. Qed.

Lemma yields_call {T E} message (g : F -> Result T E * F) s (Q : T -> Machine.t F -> Prop) Ex :
  (forall x f', g (Machine.firmware s) = (Ok x, f') -> Q x (Machine.mk f' (Machine.memory s))) ->
  (forall e f', g (Machine.firmware s) = (Err e, f') -> Ex message (Machine.mk f' (Machine.memory s))) ->
  yields (try_call message g) s Q Ex.
Proof.
  intros HQ HE. unfold try_call, call_firmware, or_fail, Proc.bind, Proc.lift, yields.
  destruct (g (Machine.firmware s)) as [[x|e] f'] eqn:Hg; cbn [map_err].
  - eexists (Ok x), _. split; [done|auto].
  - eexists (Err message), _. split; [done|]. by eapply HE.
Qed.

Lemma yields_or_fail {T E} message (r : Result T E) s (Q : T -> Machine.t F -> Prop) Ex :
  (forall x, r = Ok x -> Q x s) -> (forall e, r = Err e -> Ex message s) -> yields (or_fail message r) s Q Ex.
Proof. intros HQ HE. apply yields_lift. destruct r; cbn; [auto|by eapply HE]. Qed.

Lemma yields_with {T} message (m : Load F T) s (Q : T -> Machine.t F -> Prop) (Ex : string -> Machine.t F -> Prop) :
  yields m s Q (fun _ => Ex message) -> yields (with_message message m) s Q Ex.
Proof.
  intros ([x|e]&s'&Hm&HQ); [exists (Ok x)|exists (Err message)]; exists s'; unfold with_message; by rewrite Hm.
Qed.

Lemma yields_write g s (Q : unit -> Machine.t F -> Prop) E :
  Q tt (Machine.mk (Machine.firmware s) (g (Machine.memory s))) -> yields (write_memory g) s Q E.
Proof. intros HQ. by eexists (Ok tt), _. Qed.
End firmware_calls.
#[export] Hint Resolve total_ask total_consult total_call total_or_fail total_write total_with total_attempt : total.

Section decision_total.
Context {F : Type} `{UefiRuntime F, BootServices F, Ed25519, Sha256}.

Lemma try_call_total {T E} message (g : F -> Result T E * F) : total (try_call message g).
Proof. unfold try_call. solve_total. Qed.
#[local] Hint Resolve try_call_total : total.

Lemma journal_total {T} message (op : F -> Result T BootControlError.t * F) : total (journal message op).
Proof. unfold journal. solve_total. Qed.
#[local] Hint Resolve journal_total : total.

Lemma read_bounded_total file capacity e1 e2 e3 e4 e5 :
  total (read_bounded_regular_file (F := F) file capacity e1 e2 e3 e4 e5).
Proof.
  unfold read_bounded_regular_file. solve_total. generalize (@nil N). generalize (N.to_nat x1 + 1)%nat at 1 as fuel.
  induction fuel as [|fuel IH]; intros bytes; cbn [read_loop]; solve_total.
Qed.
#[local] Hint Resolve read_bounded_total : total.

(** The manifest the code reads from [bytes]. *)
Lemma yields_verify bytes s (Q : SlotManifest.t -> Machine.t F -> Prop) (Ex : string -> Machine.t F -> Prop) :
  (forall m, SlotManifest.verify bytes TRUSTED_SLOT_SIGNING_PUBLIC_KEY = Ret (Ok m) -> Q m s) ->
  (forall e, SlotManifest.verify bytes TRUSTED_SLOT_SIGNING_PUBLIC_KEY = Ret (Err e) -> Ex (manifest_message e) s) ->
  yields (Proc.exec (let! verified := SlotManifest.verify bytes TRUSTED_SLOT_SIGNING_PUBLIC_KEY in
                     Ret (map_err manifest_message verified))) s Q Ex.
Proof.
  intros HQ HE. destruct (verify_fails bytes TRUSTED_SLOT_SIGNING_PUBLIC_KEY) as [r Hr].
  eapply yields_exec; [by rewrite Hr|]. destruct r; cbn; auto.
Qed.

Lemma read_slot_manifest_total selection : total (read_slot_manifest (F := F) selection).
Proof. unfold read_slot_manifest. solve_total. intros s. by apply yields_verify. Qed.
#[local] Hint Resolve read_slot_manifest_total : total.

Lemma read_kernel_total selection : total (read_kernel (F := F) selection).
Proof. unfold read_kernel. solve_total. Qed.

Lemma decision_total : total (m27_boot_control_decision (F := F)).
Proof.
  assert (Hready : forall state, total (consume_ready_record (F := F) state)).
  { intros state. unfold consume_ready_record. solve_total. }
  assert (Hstage : forall state, total (consume_stage_request (F := F) state)).
  { intros state. unfold consume_stage_request. solve_total. apply total_attempt. unfold accept_stage_request. solve_total. }
  assert (Hmenu : forall state, total (m27_boot_menu (F := F) state)).
  { intros state. unfold m27_boot_menu. generalize 30%nat as rounds.
    induction rounds as [|rounds IH]; cbn [m27_boot_menu_loop]; solve_total. }
  unfold m27_boot_control_decision, boot_context, runtime_set_variable_address. solve_total.
Qed.
End decision_total.

(** ** Partitions *)

(** The comparison of the bytes is equality. *)
Lemma guid_matches_eq left right : length left = length right -> guid_matches left right = true <-> left = right.
Proof.
  intros Hl. unfold guid_matches. rewrite bool_decide_eq_true.
  assert (Hfold : forall xs n, foldl N.lor n xs = 0 <-> n = 0 /\ Forall (eq 0) xs).
  { induction xs as [|x xs IH]; intros n; cbn [foldl]; [rewrite Forall_nil; tauto|].
    rewrite IH, N.lor_eq_0_iff, Forall_cons. naive_solver. }
  rewrite Hfold. revert right Hl. induction left as [|x left IH]; intros [|y right] [=]; cbn; [by split|].
  rewrite Forall_cons. specialize (IH right ltac:(done)). split.
  - intros (_&Hx&Hr). symmetry in Hx. apply N.lxor_eq in Hx as ->. f_equal. by apply IH.
  - intros [= -> ->]. split; [done|]. split; [by rewrite N.lxor_nilpotent|]. by apply IH.
Qed.

(** The search finds the partition with the GUID if it is the only one, and no
    partition if there is none. *)
Lemma find_partition_spec guid partitions : forall index matched found i found',
  length guid = 16%nat -> Forall well_sized partitions ->
  find_partition guid index partitions matched found = Ok (i, found') ->
  match matched, i with
  | Some k, _ => i = Some k /\ Forall (fun p => ~ has_guid guid p) partitions
  | None, None => Forall (fun p => ~ has_guid guid p) partitions
  | None, Some i => exists pre p post, partitions = pre ++ p :: post /\ i = (index + length pre)%nat
      /\ has_guid guid p /\ Forall (fun p => ~ has_guid guid p) (pre ++ post)
  end.
Proof.
  induction partitions as [|partition partitions IH]; intros index matched found i found' Hg Hall Hf; cbn [find_partition] in Hf.
  { injection Hf as <- <-. by destruct matched. }
  apply Forall_cons in Hall as [Hp Hall].
  assert (Hskip : forall found, ~ has_guid guid partition ->
    find_partition guid (S index) partitions matched found = Ok (i, found') ->
    match matched, i with
    | Some k, _ => i = Some k /\ Forall (fun p => ~ has_guid guid p) (partition :: partitions)
    | None, None => Forall (fun p => ~ has_guid guid p) (partition :: partitions)
    | None, Some i => exists pre p post, partition :: partitions = pre ++ p :: post /\ i = (index + length pre)%nat
        /\ has_guid guid p /\ Forall (fun p => ~ has_guid guid p) (pre ++ post)
    end).
  { clear Hf. intros b Hn Hf. specialize (IH _ _ _ _ _ Hg Hall Hf). destruct matched as [k|].
    - destruct IH. split; [done|by constructor].
    - destruct i as [i|]; [|by constructor]. destruct IH as (pre&p&post&->&->&Hh&Hr).
      exists (partition :: pre), p, post. split_and!; [done|cbn; lia|done|by constructor]. }
  destruct partition as [[candidate|]|]; [|by eapply Hskip|done].
  destruct (guid_matches candidate guid) eqn:Hm.
  - apply guid_matches_eq in Hm as ->; [|rewrite Hg; by apply Hp]. destruct matched as [k|]; [done|].
    destruct (IH _ _ _ _ _ Hg Hall Hf) as [-> Hr]. exists [], (Ok (Some guid)), partitions. split_and!; [done|cbn; lia|done|done].
  - eapply Hskip; [|exact Hf]. intros [= ->]. rewrite (proj2 (guid_matches_eq guid guid eq_refl)) in Hm; done.
Qed.

(** ** What is entered is verified *)

Lemma blit_outside memory address bytes a :
  ~ (address <= a < address + N.of_nat (length bytes)) -> blit memory address bytes a = memory a.
Proof. intros Ha. unfold blit. by rewrite decide_False. Qed.

Lemma fill_outside memory address count byte a :
  ~ (address <= a < address + count) -> fill memory address count byte a = memory a.
Proof. intros Ha. unfold fill. by rewrite decide_False. Qed.

Section safety.
Context {F : Type} `{UefiRuntime F, BootServices F, Ed25519, Sha256, !AllocationLaws F}.
Implicit Types (s : Machine.t F) (f : F).

Lemma total_then {T U} (m : Load F T) (k : T -> Load F U) s Q :
  total m -> (forall x s', yields (k x) s' Q (fun _ _ => True)) -> yields (Proc.bind m k) s Q (fun _ _ => True).
Proof. intros Hm Hk. eapply yields_bind; [apply Hm|]. intros x s' _. apply Hk. Qed.

Lemma read_slot_manifest_trusted selection s :
  yields (read_slot_manifest selection) s
    (fun m s' => read_slot_manifest selection s = Ret (Ok m, s') /\ trusted m) (fun _ _ => True).
Proof.
  destruct (read_slot_manifest_total selection s) as (r&s'&Hr&_). exists r, s'. split; [done|]. destruct r as [m|]; [|done].
  split; [done|].
  assert (Hy : yields (read_slot_manifest selection) s (fun m _ => trusted m) (fun _ _ => True)).
  { unfold read_slot_manifest. apply total_then; [apply total_with, total_consult|]. intros [root from_partition] s1.
    apply total_then; [apply total_consult|]. intros file s2.
    apply total_then; [apply total_with, read_bounded_total|]. intros bytes s3.
    apply yields_verify; [|done]. intros m' (v&signature&Hm&_&Hs)%verify_spec. by exists v, signature. }
  destruct Hy as (r'&s''&Hr'&HQ). rewrite Hr in Hr'. by simplify_eq.
Qed.

Lemma verify_slot_manifest_trusted selection control s :
  yields (verify_slot_manifest selection control) s
    (fun m _ => trusted m /\ exists s', read_slot_manifest selection s = Ret (Ok m, s')
       /\ (BootControlInfo.attempt control <> 0 -> exists confirmed s'',
            read_slot_manifest (confirmed_image selection) s' = Ret (Ok confirmed, s'')
            /\ trusted confirmed /\ SlotManifest.rollback_index confirmed <= SlotManifest.rollback_index m))
    (fun _ _ => True).
Proof.
  unfold verify_slot_manifest. eapply yields_bind; [apply yields_with, read_slot_manifest_trusted|].
  cbn beta. intros m s1 [Hm1 Hm2]. case_decide as Ha; [|apply yields_ret; split; [done|]; exists s1; by split].
  eapply yields_bind; [apply yields_with, read_slot_manifest_trusted|]. cbn beta. intros confirmed s2 [Hc1 Hc2].
  unfold permits_trial. case_bool_decide as Hr; cbn [negb]; [|by apply yields_fail].
  apply yields_ret. split; [done|]. exists s1. split; [done|]. intros _. by exists confirmed, s2.
Qed.

Lemma read_loop_length file size e1 e2 fuel : forall bytes s, (length bytes <= size)%nat ->
  yields (read_loop fuel file size e1 e2 bytes) s (fun bytes _ => (length bytes <= size)%nat) (fun _ _ => True).
Proof.
  induction fuel as [|fuel IH]; intros bytes s Hl; cbn [read_loop]; [by apply yields_ret|].
  case_decide; [by apply yields_ret|]. eapply yields_bind.
  { apply (yields_call _ _ _ (fun data _ => (length data <= size - length bytes)%nat)); [|done].
    intros data f' Hr. apply (read_length (Machine.firmware s) file). by rewrite Hr. }
  cbn beta. intros data s1 Hd. case_decide; [by apply yields_fail|]. apply IH. rewrite length_app. lia.
Qed.

Lemma read_kernel_length selection s :
  yields (read_kernel selection) s (fun kernel _ => N.of_nat (length kernel) <= MAX_KERNEL_IMAGE_SIZE) (fun _ _ => True).
Proof.
  unfold read_kernel. apply total_then; [apply total_consult|]. intros [root from_partition] s1.
  apply total_then; [apply total_consult|]. intros file s2. unfold read_bounded_regular_file.
  apply total_then; [apply try_call_total|]. intros _ s3.
  apply total_then; [apply total_ask|]. intros size s4. apply total_then; [apply total_or_fail|]. intros n s5.
  case_decide; [by apply yields_fail|]. apply total_then; [apply try_call_total|]. intros _ s6.
  eapply yields_mono; [apply read_loop_length; cbn; lia| |done]. cbn. intros bytes _ Hl. lia.
Qed.

(** A segment is loaded into fresh memory, and what is allocated is kept. *)
Lemma load_segment_spec kernel x s : loadable kernel x ->
  yields (load_segment kernel x) s
    (fun _ s' => loaded (Machine.memory s') kernel x
       /\ (forall a, in_segment x a -> allocated (Machine.firmware s') a)
       /\ forall a, allocated (Machine.firmware s) a ->
            allocated (Machine.firmware s') a /\ Machine.memory s' a = Machine.memory s a)
    (fun _ _ => True).
Proof.
  intros [Hsize _ Hfile _]. unfold UserElf.len in Hfile. unfold load_segment. eapply yields_bind.
  { apply yields_lift. unfold ok_or, u64_checked_add. destruct (decide _); [|done]. by instantiate (1 := fun r s' =>
      r = LoadSegment.memory_size x + (PAGE_SIZE - 1) /\ s' = s). }
  cbn beta. intros r ? [-> ->]. set (pages := _ / PAGE_SIZE). cbn zeta.
  assert (Hpages : LoadSegment.memory_size x <= pages * PAGE_SIZE) by (unfold pages, PAGE_SIZE; div_lia).
  case_decide as Hz; [by apply yields_fail|]. eapply yields_bind.
  { apply (yields_call _ _ _ (fun start s' =>
      (forall a, start <= a < start + pages * PAGE_SIZE -> ~ allocated (Machine.firmware s) a)
      /\ (forall a, allocated (Machine.firmware s') a
            <-> allocated (Machine.firmware s) a \/ start <= a < start + pages * PAGE_SIZE)
      /\ Machine.memory s' = Machine.memory s)); [|done].
    intros start f' Hr. pose proof (allocate_law (Machine.firmware s) (AllocateType.Address (LoadSegment.physical_address x)) pages) as Ha.
    rewrite Hr in Ha. destruct Ha. auto. }
  cbn beta. intros start s1 (Hfresh&Halloc&Hmem). case_decide as Hw; [by apply yields_fail|]. subst start.
  eapply yields_step; [reflexivity|]. unfold slice. rewrite decide_True by lia. eapply yields_step; [reflexivity|].
  apply yields_write. cbn [Machine.memory Machine.firmware].
  set (file := take _ _). assert (Hl : length file = N.to_nat (LoadSegment.file_size x))
    by (unfold file; rewrite length_take, length_drop; lia).
  split_and!.
  - intros i Hi. destruct (decide (i < LoadSegment.file_size x)) as [Hf|Hf].
    + unfold blit. rewrite decide_True by lia. unfold file.
      fold (sub_bytes kernel (N.to_nat (LoadSegment.file_offset x)) (N.to_nat (LoadSegment.file_size x))).
      rewrite byte_at_sub by lia. f_equal. lia.
    + rewrite blit_outside by lia. unfold fill. by rewrite decide_True by lia.
  - intros a Ha. apply Halloc. right. unfold in_segment in Ha. lia.
  - intros a Ha. split; [apply Halloc; by left|].
    assert (Hout : ~ (LoadSegment.physical_address x <= a < LoadSegment.physical_address x + pages * PAGE_SIZE))
      by (intros Hin; by apply (Hfresh a Hin)).
    rewrite blit_outside, fill_outside by lia. by rewrite Hmem.
Qed.

Lemma load_segments_spec kernel entry ss s :
  (length ss <= MAX_LOAD_SEGMENTS)%nat -> Forall (loadable kernel) ss ->
  yields (load_segments kernel (kernel_plan entry ss)) s
    (fun _ s' => Forall (fun x => loaded (Machine.memory s') kernel x
       /\ forall a, in_segment x a -> allocated (Machine.firmware s') a) ss)
    (fun _ _ => True).
Proof.
  intros Hl Hok. unfold load_segments. change (LoadPlan.segment_count (kernel_plan entry ss)) with (length ss).
  rewrite plan_slice by done. eapply yields_step; [reflexivity|].
  apply (yields_for_each _ (fun pre s' => Forall (fun x => loaded (Machine.memory s') kernel x
    /\ forall a, in_segment x a -> allocated (Machine.firmware s') a) pre)); [by constructor|]. clear s. intros pre x post s -> Hpre.
  apply Forall_app in Hok as [_ [Hx _]%Forall_cons].
  eapply yields_mono; [by apply load_segment_spec| |done]. cbn beta. intros _ s' (Hx1&Hx2&Hkeep).
  apply Forall_app_2; [|by constructor]. eapply Forall_impl; [exact Hpre|]. cbn beta. intros p [Hp1 Hp2].
  split; [|intros a Ha; by apply Hkeep, Hp2]. intros i Hi. rewrite <-(Hp1 i Hi). apply Hkeep, Hp2. unfold in_segment. lia.
Qed.

(** The image is read to the memory it was given. *)
Lemma read_init_loop_spec file start size fuel : forall offset s, offset <= size ->
  yields (read_init_loop fuel file start size offset) s
    (fun _ s' => forall a, ~ (start <= a < start + size) -> Machine.memory s' a = Machine.memory s a)
    (fun _ _ => True).
Proof.
  induction fuel as [|fuel IH]; intros offset s Ho; cbn [read_init_loop]; [by apply yields_ret|].
  case_decide; [by apply yields_ret|]. cbn zeta. set (n := N.to_nat _). eapply yields_bind.
  { apply (yields_call _ _ _ (fun data s' => (length data <= n)%nat /\ Machine.memory s' = Machine.memory s)); [|done].
    intros data f' Hr. split; [|done]. apply (read_length (Machine.firmware s) file). by rewrite Hr. }
  cbn beta. intros data s1 [Hd Hm]. eapply yields_step; [reflexivity|]. case_decide; [by apply yields_fail|].
  unfold n in Hd. eapply yields_mono; [apply IH; lia| |done]. cbn beta. cbn [Machine.memory].
  intros _ s2 Hs2 a Ha. rewrite (Hs2 a Ha), blit_outside by lia. by rewrite Hm.
Qed.

Lemma consult_then {T U} (g : F -> Result T string) (k : T -> Load F U) s Q :
  (forall x, g (Machine.firmware s) = Ok x -> yields (k x) s Q (fun _ _ => True)) ->
  yields (Proc.bind (consult g) k) s Q (fun _ _ => True).
Proof.
  intros Hk. apply (yields_bind _ _ _ (fun x s' => g (Machine.firmware s) = Ok x /\ s' = s));
    [exists (g (Machine.firmware s)), s; split; [done|]; by destruct (g _)|]. intros x ? [Hx ->]. auto.
Qed.

Lemma lift_then {T U} (r : Result T string) (k : T -> Load F U) s Q :
  (forall x, r = Ok x -> yields (k x) s Q (fun _ _ => True)) ->
  yields (Proc.bind (Proc.lift r) k) s Q (fun _ _ => True).
Proof. intros Hk. destruct r as [x|e]; [eapply yields_step; [reflexivity|auto]|by exists (Err e), s]. Qed.

Lemma position_then {U} message file where_ (k : unit -> Load F U) s Q :
  (forall f', (forall a, allocated f' a <-> allocated (Machine.firmware s) a) ->
     yields (k tt) (Machine.mk f' (Machine.memory s)) Q (fun _ _ => True)) ->
  yields (Proc.bind (try_call message (fun f => set_position f file where_)) k) s Q (fun _ _ => True).
Proof.
  intros Hk. eapply yields_bind; [apply (yields_call _ _ _ (fun _ s' =>
    (forall a, allocated (Machine.firmware s') a <-> allocated (Machine.firmware s) a)
    /\ Machine.memory s' = Machine.memory s)); [|done]|].
  - intros [] f' Hf. split; [|done]. intros a.
    by rewrite <-(position_allocated (Machine.firmware s) file where_), Hf.
  - intros [] [f' memory] [Hf Hm]. cbn in Hf, Hm. subst. auto.
Qed.

(** The image is read into fresh memory below 4 GiB. *)
Lemma read_init_spec selection s :
  yields (read_init selection) s
    (fun info s' => 0 < InitImageInfo.size info
       /\ InitImageInfo.address info + InitImageInfo.size info <= 2 ^ 32
       /\ (forall a, in_init info a -> ~ allocated (Machine.firmware s) a)
       /\ forall a, allocated (Machine.firmware s) a -> Machine.memory s' a = Machine.memory s a)
    (fun _ _ => True).
Proof.
  unfold read_init. apply consult_then. intros [root from_partition] _. apply consult_then. intros file _.
  apply position_then. intros f1 Hf1. eapply yields_step; [reflexivity|]. cbn beta.
  apply lift_then. intros size Hsize. cbn beta. case_decide as Hs; [by apply yields_fail|]. apply not_or_and in Hs as [Hs _].
  apply lift_then. intros pages Hp. apply ok_or_Ok in Hp.
  assert (Hpages : size <= pages * PAGE_SIZE).
  { unfold init_image_page_count, u64_checked_add in Hp. rewrite decide_False in Hp by done.
    case_decide; [|done]. injection Hp as <-. unfold PAGE_SIZE. div_lia. }
  eapply yields_bind; [apply (yields_call _ _ _ (fun start s' =>
    (forall a, start <= a < start + pages * PAGE_SIZE -> ~ allocated (Machine.firmware s) a)
    /\ Machine.memory s' = Machine.memory s)); [|done]|].
  { cbn [Machine.firmware Machine.memory]. intros start f2 Hr. split; [|done]. intros a Ha. rewrite <-Hf1.
    pose proof (allocate_law f1 (AllocateType.MaxAddress INIT_IMAGE_MAX_ADDRESS) pages) as Hl. rewrite Hr in Hl.
    by apply Hl. }
  cbn beta. intros start s2 [Hfresh Hm]. apply lift_then. intros bytes Hb.
  apply (f_equal Ret), checked_mul_Ok in Hb as [_ ->].
  apply lift_then. intros stop Hstop. apply (f_equal Ret), checked_add_Ok in Hstop as [_ ->]. case_decide as H4; [by apply yields_fail|].
  eapply yields_step; [reflexivity|]. apply position_then. cbn [Machine.firmware Machine.memory]. intros f3 _.
  eapply yields_bind; [apply read_init_loop_spec; lia|]. cbn beta. intros _ s4 Hs4. apply yields_ret.
  unfold in_init, INIT_IMAGE_MAX_ADDRESS in *. cbn [InitImageInfo.size InitImageInfo.address].
  split_and!; [lia|lia|intros a Ha; apply Hfresh; lia|]. intros a Ha.
  assert (Hout : ~ (start <= a < start + pages * PAGE_SIZE)) by (intros Hin; by apply (Hfresh a Hin)).
  rewrite Hs4 by lia. cbn [Machine.memory]. by rewrite fill_outside, Hm by lia.
Qed.

Lemma yields_check m kind bytes s (Q : unit -> Machine.t F -> Prop) :
  (pins (SlotManifest.payload m kind) bytes -> Q tt s) ->
  yields (check_slot_payload m kind bytes) s Q (fun _ _ => True).
Proof. intros HQ. apply yields_or_fail; [|done]. intros [] Hc%check_payload. auto. Qed.

Lemma main_verified s :
  yields main s (fun ending s' => match ending with
    | Halt => True
    | Enter entry info => exists selection s1 m kernel segments,
        m27_boot_control_decision s = Ret (Ok (selection, BootInfo.boot_control info), s1)
        /\ verified s1 selection (BootInfo.boot_control info) (Machine.memory s') entry (BootInfo.init_image info) m kernel segments
    end) (fun _ _ => True).
Proof.
  unfold main. eapply yields_step; [reflexivity|]. apply lift_then. intros [] _.
  eapply yields_bind; [eapply yields_mono; [apply total_run, decision_total|intros x s1 Hx; exact Hx|done]|].
  cbn beta. intros [selection control] s1 Hdecision.
  eapply yields_bind; [apply verify_slot_manifest_trusted|]. cbn beta. intros m s2 [Hm Hread].
  eapply yields_bind; [apply read_kernel_length|]. cbn beta. intros kernel s3 Hlen.
  apply lift_then. intros [] Hk%map_err_Ok%check_payload.
  assert (Hisize : len kernel <= ISIZE_MAX) by (unfold len, ISIZE_MAX, MAX_KERNEL_IMAGE_SIZE in *; lia).
  destruct (parse_kernel_spec kernel Hisize) as [Hp1 Hp2].
  destruct (parse_kernel kernel) as [parsed|] eqn:Hparsed; [|done]. apply lift_then.
  intros plan [= Hplan%map_err_Ok]. subst parsed. destruct (proj1 (Hp2 plan) eq_refl) as (entry&segments&Himage&->).
  eapply yields_bind; [apply load_segments_spec; [apply Himage|]|].
  { rewrite (image_segments _ _ _ Himage). apply header_fits_loadable, Himage. }
  cbn beta. intros [] s4 Hloaded. eapply yields_bind; [apply read_init_spec|]. cbn beta. intros init s5 (_&Hlow&Hfresh&Hkeep).
  apply lift_then. intros [] Hi%map_err_Ok%check_payload.
  eapply yields_step; [reflexivity|]. apply lift_then. intros framebuffer _. eapply yields_step; [reflexivity|].
  case_decide; [by apply yields_fail|]. eapply yields_step; [reflexivity|]. eapply yields_step; [reflexivity|].
  case_decide; [by apply yields_ret|]. apply yields_ret. exists selection, s1, m, kernel, segments.
  split; [done|]. cbn [BootInfo.boot_control BootInfo.init_image LoadPlan.entry kernel_plan].
  split; try done.
  - eapply Forall_impl; [exact Hloaded|]. cbn beta. intros x [Hx1 Hx2] i Hin. rewrite <-(Hx1 i Hin).
    apply Hkeep, Hx2. unfold in_segment. lia.
  - intros a Ha Hx. apply (Hfresh a Ha). apply Exists_exists in Hx as (x&Hin&Hx).
    eapply Forall_forall in Hloaded; [|exact Hin]. by apply Hloaded.
Qed.

(** C6: whatever the disks hold, the loader ends without a panic, and if it
    enters the kernel, then what it enters is verified: the manifest of the slot
    it decided for is signed with the trusted key, for a trial its rollback index
    is not below that of the signed manifest of the confirmed slot, it pins the
    bytes of a well-formed kernel image whose segments are in memory, followed by
    zeros, and it pins the initial program that is in memory, below 4 GiB and
    apart from the kernel. *)
Theorem loader_enters_verified s :
  exists r s', main s = Ret (r, s') /\
  forall entry info, r = Ok (Enter entry info) ->
  exists selection s1 m kernel segments,
    m27_boot_control_decision s = Ret (Ok (selection, BootInfo.boot_control info), s1)
    /\ verified s1 selection (BootInfo.boot_control info) (Machine.memory s') entry (BootInfo.init_image info) m kernel segments.
Proof.
  destruct (main_verified s) as (r&s'&Hr&HQ). exists r, s'. split; [done|]. by intros entry info ->.
Qed.
End safety.
