(* ===== verification/LoaderBoot.v ===== *)
(** * The loader on a firmware that keeps its promises (loader/src/main.rs)

    What the main program of [Loader] does when the firmware's variables, files
    and allocations behave as documented: its decision follows the boot-control
    journal, and a slot that is signed and whole is entered. *)

From Stdlib Require Import String.
From stdpp Require Import prelude.
From S2P Require Import Prelude Memory BootContract AbJournal UserElf LoaderElf Scope SlotUpdate Loader.

Local Open Scope N_scope.
Local Open Scope nagi_scope.

(** ** What the firmware promises *)

(** Pages that are not allocated. *)
Definition free `{AllocationLaws F} (f : F) (start pages : N) : Prop :=
  (PAGE_SIZE | start) /\ forall a, start <= a < start + pages * PAGE_SIZE -> ~ allocated f a.

(** Files: the end of a file is its length, a read continues at the position and
    stops only at the end. Only a [failing] firmware fails such a call, or an
    allocation of free memory. *)
Class FileLaws (F : Type) `{AllocationLaws F} := {
  content : F -> RegularFile -> list N;
  position : F -> RegularFile -> N;
  failing : F -> Prop;
  set_position_law : forall f file where_,
    let '(result, f') := set_position f file where_ in
    match result with
    | Ok _ => position f' file = default (N.of_nat (length (content f file))) where_
    | Err _ => failing f
    end;
  get_position_law : forall f file,
    match get_position f file with Ok n => n = position f file | Err _ => failing f end;
  read_file_law : forall f file n,
    let '(result, f') := read_file f file n in
    match result with
    | Ok data =>
        (exists rest, drop (N.to_nat (position f file)) (content f file) = data ++ rest)
        /\ position f' file = position f file + N.of_nat (length data)
        /\ (data = [] -> n = 0%nat \/ N.of_nat (length (content f file)) <= position f file)
    | Err _ => failing f
    end;
  allocate_at_law : forall f address pages, free f address pages ->
    (allocate_pages f (AllocateType.Address address) pages).1 = Ok address \/ failing f;
  allocate_below_law : forall f limit pages,
    match (allocate_pages f (AllocateType.MaxAddress limit) pages).1 with
    | Ok start => start + pages * PAGE_SIZE <= limit + 1
    | Err _ => failing f \/ forall start, free f start pages -> limit + 1 < start + pages * PAGE_SIZE
    end;
  exit_law : forall f, MemoryMap.len (exit_boot_services f) <> 0
}.

(** Two states of one platform: the same volumes, files and tables. *)
Record same_platform `{FileLaws F} (f f' : F) : Prop := {
  same_partitions : locate_partitions f' = locate_partitions f;
  same_volumes : forall n, partition_volume f' n = partition_volume f n;
  same_image : image_volume f' = image_volume f;
  same_files : forall v path, open_file f' v path = open_file f v path;
  same_contents : forall file, content f' file = content f file;
  same_tables : system_table f' = system_table f;
  same_graphics : graphics f' = graphics f;
  same_config : config_tables f' = config_tables f;
  same_failing : failing f' -> failing f
}.

(** A call of the keyboard or of a disk, and one that changes a variable. *)
Inductive device_call `{BootServices F} (f : F) : F -> Prop :=
| called_key : device_call f (read_key f).2
| called_position file where_ : device_call f (set_position f file where_).2
| called_read file n : device_call f (read_file f file n).2.

Inductive variable_call `{UefiRuntime F, BootServices F} (f : F) : F -> Prop :=
| called_set name attributes data : variable_call f (set_variable f name attributes data).2
| called_delete name : variable_call f (delete_variable f name).2.

(** Neither changes the platform, and each leaves alone what the other is about. *)
Class PlatformLaws (F : Type) `{UefiLaws F, FileLaws F} := {
  device_law : forall f f', device_call f f' ->
    same_platform f f' /\ (forall name, variables f' name = variables f name) /\ (refusing f' -> refusing f)
    /\ (forall a, allocated f' a <-> allocated f a);
  allocation_law : forall f kind pages, same_platform f (allocate_pages f kind pages).2;
  variable_law : forall f f', variable_call f f' ->
    same_platform f f' /\ (forall a, allocated f' a <-> allocated f a);
  delete_law : forall f name,
    let '(result, f') := delete_variable f name in
    (refusing f' -> refusing f)
    /\ (result = Ok tt \/ refusing f)
    /\ forall name', variables f' name' =
         if decide (name' = name /\ result = Ok tt) then None else variables f name'
}.

(** ** What the loader decides *)

Section decision_spec.
Context {F : Type} `{PlatformLaws F, Ed25519}.
Implicit Types (f : F) (state : BootControlState.t).

(** The file of a slot, and its manifest if it verifies. *)
Definition slot_file f (selection : BootImageSelection.t) (name : string) : option (list N) :=
  match open_volume_root_quietly f selection with
  | Ok (root, from_partition) =>
      match open_regular f root (slot_path selection from_partition name) "" "" "" with
      | Ok file => Some (content f file)
      | Err _ => None
      end
  | Err _ => None
  end.

Definition slot_manifest f (selection : BootImageSelection.t) : option SlotManifest.t :=
  match slot_file f selection "SLOT.MAN" with
  | Some bytes =>
      match SlotManifest.verify bytes TRUSTED_SLOT_SIGNING_PUBLIC_KEY with Ret (Ok m) => Some m | _ => None end
  | None => None
  end.

(** The record in a variable with exactly the attributes of the journal's. *)
Definition variable_record {R} (name : string) (decode : list N -> option R) f : option R :=
  match variables f name with
  | Some (attributes, data) =>
      if decide (attributes = UefiVariableBootControlStore.REQUIRED_ATTRIBUTES) then decode data else None
  | None => None
  end.

(** The slot on trial, if the readiness record is of its last trial. *)
Definition ready_slot f state : option SystemSlot.t :=
  match variable_record NAGI_BOOT_READY_VARIABLE BootReadyRecord.decode f, BootControlState.pending state with
  | Some record, Some pending =>
      if decide (BootReadyRecord.slot record = SystemSlot.code pending
                 /\ BootReadyRecord.attempt record = BootControlState.attempts state
                 /\ BootReadyRecord.journal_generation record = BootControlState.generation state)
      then Some pending else None
  | _, _ => None
  end.

(** The slot whose update [record] requests, if it may be staged: the other than
    the confirmed one, for this state of the journal, with nothing pending, both
    slots signed and no rollback. *)
Definition permitted_update f state (record : BootStageRecord.t) : option SystemSlot.t :=
  let slot := SystemSlot.other (BootControlState.confirmed state) in
  match BootControlState.pending state, slot_manifest f (BootImageSelection.of_slot slot),
        slot_manifest f (BootImageSelection.of_slot (BootControlState.confirmed state)) with
  | None, Some candidate, Some confirmed =>
      if decide (BootStageRecord.slot record = SystemSlot.code slot
                 /\ BootStageRecord.journal_generation record = BootControlState.generation state
                 /\ SlotManifest.rollback_index confirmed <= SlotManifest.rollback_index candidate)
      then Some slot else None
  | _, _, _ => None
  end.

Definition update_slot f state : option SystemSlot.t :=
  match variable_record NAGI_BOOT_STAGE_VARIABLE BootStageRecord.decode f with
  | Some record => permitted_update f state record
  | None => None
  end.

(** The journal after an operation, if there is one. *)
Definition step state (o : option JournalSpec.op) : Result BootControlState.t BootControlError.t :=
  match o with
  | None => Ok state
  | Some o => match JournalSpec.spec state o with Ok (state, _) => Ok state | Err e => Err e end
  end.

Definition after_promotion f state := step state (JournalSpec.Success <$> ready_slot f state).
Definition after_staging f state := step state (JournalSpec.Stage <$> update_slot f state).

(** What a key selects, and the first selection of some keys. *)
Definition key_selects state (key : option N) : option BootImageSelection.t :=
  let available slot := bool_decide (slot = BootControlState.confirmed state \/ BootControlState.pending state = Some slot) in
  if decide (key = Some 82 \/ key = Some 114) then Some BootImageSelection.Recovery
  else if decide (key = Some 65 \/ key = Some 97)
  then if available SystemSlot.A then Some BootImageSelection.SystemA else None
  else if decide (key = Some 66 \/ key = Some 98)
  then if available SystemSlot.B then Some BootImageSelection.SystemB else None
  else None.

Definition menu_choice state (keys : list (option N)) : BootImageSelection.t :=
  default BootImageSelection.Default (head (omap (key_selects state) keys)).

(** The next keys. *)
Fixpoint typed (n : nat) f : list (option N) :=
  match n with O => [] | S n => (read_key f).1 :: typed n (read_key f).2 end.

(** What the kernel is told of the decision [d], after which the journal holds [state]. *)
Definition control_of (address : N) state (d : BootDecision.t) : BootControlInfo.t :=
  BootControlInfo.mk address (BootControlState.generation state) (SystemSlot.code (BootDecision.slot d))
    (BootDecision.trial_attempt d)
    (if decide (BootDecision.trial_attempt d = 0) then BOOT_CONTROL_UPDATE_STAGEABLE else 0) (replicate 5 0).

Definition journal_holds f state : Prop := exists c, holds f state c.

(** The states a decision may leave the journal in, however it ends. *)
Definition moves f state state' : Prop :=
  exists state1 state2,
    (state1 = state \/ after_promotion f state = Ok state1)
    /\ (state2 = state1 \/ after_staging f state1 = Ok state2)
    /\ (state' = state2 \/ exists a, JournalSpec.spec state2 JournalSpec.Begin = Ok (state', a)).

(** The outcome of the decision: promote the slot that reported readiness, stage
    the update that was requested, let the user choose, and begin the boot the
    journal decides if that is not the user's choice. *)
Definition follows f state (r : Result (BootImageSelection.t * BootControlInfo.t) string) (f' : F) : Prop :=
  match after_promotion f state with
  | Err _ => exists message, r = Err message
  | Ok state1 =>
      match after_staging f state1 with
      | Err _ => exists message, r = Err message
      | Ok state2 => exists f2, journal_holds f2 state2 /\
          let choice := menu_choice state2 (typed 30 f2) in
          if decide (choice = BootImageSelection.Recovery
                     \/ BootImageSelection.system_slot choice = Some (BootControlState.confirmed state2))
          then r = Ok (choice, default_boot_control) /\ journal_holds f' state2
          else match JournalSpec.spec state2 JournalSpec.Begin, system_table f with
               | Ok (state3, JournalSpec.Decided d), Some (Some address) =>
                   r = Ok (BootImageSelection.of_slot (BootDecision.slot d), control_of address state3 d)
                   /\ journal_holds f' state3
               | _, _ => exists message, r = Err message
               end
      end
  end.
End decision_spec.

(** ** What the loader can enter *)

(** The pages of a segment. *)
Definition in_pages (x : LoadSegment.t) (a : N) : Prop :=
  LoadSegment.physical_address x <= a
  < LoadSegment.physical_address x + div_ceil (LoadSegment.memory_size x) PAGE_SIZE * PAGE_SIZE.

(** What the kernel finds in [memory] and in [info]: its segments, the initial
    program, and what the loader knows of the machine and of the decision. *)
Record entered (memory : N -> N) (kernel init : list N) (segments : list LoadSegment.t)
  (framebuffer : FramebufferInfo.t) (acpi_rsdp : N) (control : BootControlInfo.t) (info : BootInfo.t) : Prop := {
  entered_segments : Forall (loaded memory kernel) segments;
  entered_size : InitImageInfo.size (BootInfo.init_image info) = N.of_nat (length init);
  entered_init : memory_bytes memory (InitImageInfo.address (BootInfo.init_image info)) (length init) = init;
  entered_framebuffer : BootInfo.framebuffer info = framebuffer;
  entered_acpi : BootInfo.acpi_rsdp info = acpi_rsdp;
  entered_control : BootInfo.boot_control info = control
}.

Section bootable.
Context {F : Type} `{PlatformLaws F, Ed25519, Sha256}.
Implicit Types (f : F).

(** Room below 4 GiB for [size] bytes outside of [taken]. *)
Definition room f (size : N) (taken : N -> Prop) : Prop :=
  exists start, free f start (div_ceil size PAGE_SIZE) /\ start + div_ceil size PAGE_SIZE * PAGE_SIZE <= 2 ^ 32
  /\ forall a, start <= a < start + div_ceil size PAGE_SIZE * PAGE_SIZE -> ~ taken a.

(** A slot the loader can enter as it is told by [control]. *)
Record bootable f (selection : BootImageSelection.t) (control : BootControlInfo.t) (m : SlotManifest.t)
  (kernel init : list N) (entry : N) (segments : list LoadSegment.t) : Prop := {
  bootable_manifest : slot_manifest f selection = Some m;
  bootable_rollback : BootControlInfo.attempt control <> 0 -> exists confirmed,
    slot_manifest f (confirmed_image selection) = Some confirmed
    /\ SlotManifest.rollback_index confirmed <= SlotManifest.rollback_index m;
  bootable_kernel : slot_file f selection "KERNEL.ELF" = Some kernel;
  bootable_kernel_size : N.of_nat (length kernel) <= MAX_KERNEL_IMAGE_SIZE;
  bootable_kernel_pinned : pins (SlotManifest.kernel m) kernel;
  bootable_image : kernel_image kernel entry segments;
  bootable_segments : Forall (fun x => 0 < LoadSegment.memory_size x <= U64_MAX - PAGE_SIZE) segments;
  bootable_free : forall x a, x ∈ segments -> in_pages x a -> ~ allocated f a;
  bootable_init : slot_file f selection "INIT.ELF" = Some init;
  bootable_init_size : 0 < N.of_nat (length init) <= MAX_INIT_IMAGE_SIZE;
  bootable_init_pinned : pins (SlotManifest.init m) init;
  bootable_room : room f (N.of_nat (length init)) (fun a => Exists (fun x => in_pages x a) segments)
}.
End bootable.

(** ** Frames *)

Section frames.
Context {F : Type} `{PlatformLaws F, Ed25519}.
Implicit Types (f : F) (s : Machine.t F) (state : BootControlState.t).

(** What every call keeps. *)
Record kept (f f' : F) : Prop := {
  kept_platform : same_platform f f';
  kept_refusing : refusing f' -> refusing f;
  kept_faulty : uefi_faulty f' -> uefi_faulty f
}.

#[global] Instance same_platform_preorder : PreOrder (same_platform (F := F)).
Proof.
  split; [by intros f; split|]. intros f1 f2 f3 [] []. split; intros; try congruence; auto;
    (etrans; [|eauto]); eauto.
Qed.

#[global] Instance kept_preorder : PreOrder kept.
Proof. split; [by intros f; split|]. intros f1 f2 f3 [] []. split; [by etrans|auto|auto]. Qed.

(** A firmware with the same journal variables has the same faults. *)
Lemma faulty_ext f f' :
  (refusing f' -> refusing f) -> (forall c, variables f' (variable_name c) = variables f (variable_name c)) ->
  uefi_faulty f' -> uefi_faulty f.
Proof. intros Hr Hv [Hf|[c Hf]]; [left; auto|right]. exists c. unfold foreign in *. by rewrite <-Hv. Qed.

Lemma device_kept f f' : device_call f f' -> kept f f' /\ (forall name, variables f' name = variables f name)
  /\ forall a, allocated f' a <-> allocated f a.
Proof. intros (Hp&Hv&Hr&Ha)%device_law. split; [split; [done..|]|done]. apply faulty_ext; auto. Qed.

Lemma delete_kept f name : (forall c, variable_name c <> name) ->
  let '(result, f') := delete_variable f name in
  kept f f' /\ (forall name', name' <> name -> variables f' name' = variables f name')
  /\ (variables f' name = None \/ refusing f).
Proof.
  intros Hn. pose proof (delete_law f name) as Hd. pose proof (variable_law f _ (called_delete f name)) as [Hp _].
  destruct (delete_variable f name) as [result f']. destruct Hd as (Hr&Hok&Hv). cbn [snd] in Hp.
  assert (Hother : forall name', name' <> name -> variables f' name' = variables f name').
  { intros name' Hne. rewrite Hv, decide_False; [done|]. by intros [? _]. }
  split; [|split; [done|]].
  - split; [done..|]. apply faulty_ext; [done|]. intros c. by apply Hother.
  - destruct Hok as [->|Hok]; [left|by right]. by rewrite Hv, decide_True.
Qed.

(** An operation of the journal keeps every other variable. *)
Definition journal_kept f f' : Prop :=
  kept f f' /\ forall name, (forall c, variable_name c <> name) -> variables f' name = variables f name.

#[global] Instance journal_kept_preorder : PreOrder journal_kept.
Proof.
  split; [done|]. intros f1 f2 f3 [Hk12 Hv12] [Hk23 Hv23]. split; [by etrans|]. intros name Hn. by rewrite Hv23, Hv12.
Qed.

Lemma journal_access_kept :
  (forall f copy output, journal_kept f (read_record f copy output).2)
  /\ (forall f c record, length record = RECORD_SIZE -> journal_kept f (write_record f (RecordCopy.index c) record).2)
  /\ (forall f, journal_kept f (flush f).2).
Proof.
  split; [|split; [|done]].
  - intros f copy output. cbn. unfold UefiVariableBootControlStore.read_record.
    by repeat (case_match || case_decide).
  - intros f c record Hl. cbn. unfold UefiVariableBootControlStore.write_record. rewrite uefi_name.
    pose proof (uefi_set_faulty f c record Hl) as Hf.
    pose proof (set_law f (variable_name c) UefiVariableBootControlStore.REQUIRED_ATTRIBUTES record) as Hs.
    pose proof (variable_law f _ (called_set f (variable_name c) UefiVariableBootControlStore.REQUIRED_ATTRIBUTES record)) as [Hp _].
    destruct (set_variable f _ _ record) as [result f']. destruct Hs as (Hr&_&Hs). cbn [snd] in *.
    split; [by split|]. intros name Hn. rewrite Hs, decide_False; [done|]. intros [-> _]. by eapply Hn.
Qed.

Lemma load_kept f : journal_kept f (BootControlJournal.load f).2.
Proof. apply load_keeps; [apply _|apply journal_access_kept..]. Qed.

Lemma run_kept f o : journal_kept f (JournalSpec.run f o).2.
Proof.
  destruct o as [slot| |slot]; cbn [JournalSpec.run]; unfold JournalSpec.done; cbn [snd].
  - apply stage_keeps; [apply _|apply journal_access_kept..].
  - pose proof (begin_keeps journal_kept (proj1 journal_access_kept) (proj1 (proj2 journal_access_kept))
      (proj2 (proj2 journal_access_kept)) f) as Hb.
    by destruct (BootControlJournal.begin_boot f).
  - apply success_keeps; [apply _|apply journal_access_kept..].
Qed.

Lemma device_holds f f' state c : (forall name, variables f' name = variables f name) ->
  holds f state c -> holds f' state c.
Proof. intros Hv. apply holds_ext. intros c'. cbn. by rewrite Hv. Qed.

(** Reading the journal gives the state it holds, unless it fails. *)
Lemma load_spec f state c : holds f state c ->
  let '(r, f') := BootControlJournal.load f in
  journal_kept f f' /\ holds f' state c /\ (r = Ok state \/ (exists e, r = Err e) /\ uefi_faulty f).
Proof.
  intros Hh. pose proof (load_kept f) as Hk. unfold BootControlJournal.load in *.
  destruct (current_holds f state c Hh) as (f1&Hh1&_&[[Hc Hf]|Hc]); rewrite Hc in *; cbn in *; eauto 6.
Qed.

(** An operation moves the journal as the abstract one does, unless it fails. *)
Lemma run_spec f state c o : holds f state c ->
  let '(r, f') := JournalSpec.run f o in
  journal_kept f f' /\ exists state', journal_holds f' state' /\
  match r with
  | Ok a => JournalSpec.spec state o = Ok (state', a)
  | Err _ => (state' = state \/ exists a, JournalSpec.spec state o = Ok (state', a))
             /\ (uefi_faulty f \/ exists e, JournalSpec.spec state o = Err e)
  end.
Proof.
  intros Hh. pose proof (run_kept f o) as Hk.
  assert (Ha : agrees f (JournalSpec.run f o).2 (JournalSpec.run f o).1 state (JournalSpec.spec state o))
    by (destruct o; eauto using stage_agrees, begin_agrees, success_agrees).
  destruct (JournalSpec.run f o) as [r f']. split; [done|]. destruct Ha as (state'&c'&Hh'&Hr). cbn [fst snd] in *.
  exists state'. split; [by exists c'|]. destruct r as [a|[]]; naive_solver.
Qed.
End frames.

(** ** Files *)

Section files.
Context {F : Type} `{PlatformLaws F, Ed25519, Sha256}.
Implicit Types (f : F) (s : Machine.t F) (state : BootControlState.t).

(** Code that only uses devices, and not the memory. *)
Definition stays s s' : Prop :=
  kept (Machine.firmware s) (Machine.firmware s')
  /\ (forall name, variables (Machine.firmware s') name = variables (Machine.firmware s) name)
  /\ Machine.memory s' = Machine.memory s
  /\ forall a, allocated (Machine.firmware s') a <-> allocated (Machine.firmware s) a.

#[global] Instance stays_preorder : PreOrder stays.
Proof.
  split; [done|]. intros s1 s2 s3 (Hk12&Hv12&Hm12&Ha12) (Hk23&Hv23&Hm23&Ha23).
  split; [by etrans|]. split; [intros name; by rewrite Hv23|]. split; [by rewrite Hm23|]. intros a. by rewrite Ha23.
Qed.

Lemma device_stays s f' : device_call (Machine.firmware s) f' -> stays s (Machine.mk f' (Machine.memory s)).
Proof. intros (Hk&Hv&Ha)%device_kept. by split. Qed.

Lemma stays_content s s' file : stays s s' -> content (Machine.firmware s') file = content (Machine.firmware s) file.
Proof. intros [[[] _ _] _]. auto. Qed.

Lemma stays_failing s s' : stays s s' -> failing (Machine.firmware s') -> failing (Machine.firmware s).
Proof. intros [[[] _ _] _]. auto. Qed.

(** A call of a device that may fail. *)
Lemma yields_device {T E} message (g : F -> Result T E * F) s (Q : T -> Machine.t F -> Prop) Ex :
  device_call (Machine.firmware s) (g (Machine.firmware s)).2 ->
  (forall x f', g (Machine.firmware s) = (Ok x, f') -> stays s (Machine.mk f' (Machine.memory s)) ->
     Q x (Machine.mk f' (Machine.memory s))) ->
  (forall e f', g (Machine.firmware s) = (Err e, f') -> stays s (Machine.mk f' (Machine.memory s)) ->
     Ex message (Machine.mk f' (Machine.memory s))) ->
  yields (try_call message g) s Q Ex.
Proof.
  intros Hd HQ HE. apply yields_call; intros x f' Hg; rewrite Hg in Hd; cbn [snd] in Hd; apply device_stays in Hd; eauto.
Qed.

(** The loop reads the file to its end. *)
Lemma read_loop_exact file e1 e2 fuel : forall bytes s,
  let whole := content (Machine.firmware s) file in
  position (Machine.firmware s) file = N.of_nat (length bytes) -> (exists rest, whole = bytes ++ rest) ->
  (length whole - length bytes < fuel)%nat ->
  yields (read_loop fuel file (length whole) e1 e2 bytes) s
    (fun r s' => stays s s' /\ r = whole) (fun _ s' => stays s s' /\ failing (Machine.firmware s)).
Proof.
  induction fuel as [|fuel IH]; intros bytes s whole Hpos [rest Hrest] Hfuel; [lia|]. cbn [read_loop].
  assert (Hlen : length whole = (length bytes + length rest)%nat) by (by rewrite Hrest, length_app).
  case_decide as Hdone.
  { apply yields_ret. split; [done|]. destruct rest; [by rewrite app_nil_r in Hrest|cbn in Hlen; lia]. }
  pose proof (read_file_law (Machine.firmware s) file (length whole - length bytes)) as Hlaw.
  eapply yields_bind.
  { apply (yields_device _ _ _ (fun data s' => stays s s' /\ data <> [] /\ (exists rest', rest = data ++ rest')
      /\ position (Machine.firmware s') file = N.of_nat (length (bytes ++ data)))); [constructor| |].
    - intros data f' Hr Hs. rewrite Hr in Hlaw. destruct Hlaw as ([rest' Hd]&Hp&Hz). fold whole in Hd, Hz.
      rewrite Hpos, Hrest, Nat2N.id, drop_app_length in Hd. rewrite Hpos in Hz, Hp. split; [done|]. split; [|split].
      + intros Hnil. specialize (Hz Hnil). lia.
      + by exists rest'.
      + cbn [Machine.firmware]. rewrite length_app. lia.
    - intros e f' Hr Hs. rewrite Hr in Hlaw. by split. }
  cbn beta. intros data s1 (Hs1&Hne&[rest' ->]&Hp1). rewrite decide_False by done.
  pose proof (stays_content _ _ file Hs1) as Hc. fold whole in Hc.
  specialize (IH (bytes ++ data) s1). cbn zeta in IH. rewrite Hc in IH.
  eapply yields_mono; [apply IH; [done|exists rest'; by rewrite <-(assoc_L (++))|]| |].
  - destruct data; [done|]. rewrite length_app. cbn. lia.
  - cbn beta. intros r s2 [Hs2 ->]. split; [by etrans|done].
  - cbn beta. intros e s2 [Hs2 Hf]. split; [by etrans|by eapply stays_failing].
Qed.

(** A whole file is read if it fits. *)
Lemma read_bounded_exact file capacity e1 e2 e3 e4 e5 s :
  let whole := content (Machine.firmware s) file in
  yields (read_bounded_regular_file file capacity e1 e2 e3 e4 e5) s
    (fun bytes s' => stays s s' /\ bytes = whole /\ 0 < N.of_nat (length whole) <= capacity)
    (fun _ s' => stays s s'
       /\ (failing (Machine.firmware s) \/ N.of_nat (length whole) = 0 \/ capacity < N.of_nat (length whole))).
Proof.
  intros whole. unfold read_bounded_regular_file.
  pose proof (set_position_law (Machine.firmware s) file None) as Hend. eapply yields_bind.
  { apply (yields_device _ _ _ (fun _ s' => stays s s'
      /\ position (Machine.firmware s') file = N.of_nat (length whole))); [constructor| |].
    - intros [] f' Hr Hs. rewrite Hr in Hend. by split.
    - intros e f' Hr Hs. rewrite Hr in Hend. auto. }
  cbn beta. intros [] s1 [Hs1 Hp1]. eapply yields_step; [reflexivity|].
  pose proof (get_position_law (Machine.firmware s1) file) as Hget. eapply yields_bind.
  { apply (yields_or_fail _ _ _ (fun n s' => s' = s1 /\ n = N.of_nat (length whole))).
    - intros n Hn. rewrite Hn in Hget. split; [done|congruence].
    - intros e Hn. rewrite Hn in Hget. split; [done|left]. by eapply stays_failing. }
  cbn beta. intros n ? [-> ->]. case_decide as Hsize; [apply yields_fail; tauto|].
  pose proof (set_position_law (Machine.firmware s1) file (Some 0)) as Hstart. eapply yields_bind.
  { apply (yields_device _ _ _ (fun _ s' => stays s s' /\ position (Machine.firmware s') file = 0)); [constructor| |].
    - intros [] f' Hr Hs. rewrite Hr in Hstart. split; [by etrans|done].
    - intros e f' Hr Hs. rewrite Hr in Hstart. split; [by etrans|left]. by eapply stays_failing. }
  cbn beta. intros [] s2 [Hs2 Hp2]. rewrite Nat2N.id. pose proof (stays_content _ _ file Hs2) as Hc.
  pose proof (read_loop_exact file e4 e5 (length whole + 1) [] s2) as Hloop. cbn zeta in Hloop. rewrite Hc in Hloop.
  eapply yields_mono; [apply Hloop; [done|by exists whole|cbn; fold whole; lia]| |].
  - cbn beta. intros bytes s3 [Hs3 ->]. split; [by etrans|]. split; [done|lia].
  - cbn beta. intros e s3 [Hs3 Hf]. split; [by etrans|left]. by eapply stays_failing.
Qed.

Lemma verify_length file key m : SlotManifest.verify file key = Ret (Ok m) ->
  (0 < length file <= MAX_SLOT_MANIFEST_BYTES)%nat.
Proof. unfold SlotManifest.verify. cbn zeta. rewrite guard_Ok. intros [Hl _]. unfold SIGNATURE_BYTES in Hl. lia. Qed.

Lemma yields_consult {T} (g : F -> Result T string) s (Q : T -> Machine.t F -> Prop) Ex :
  (forall x, g (Machine.firmware s) = Ok x -> Q x s) -> (forall e, g (Machine.firmware s) = Err e -> Ex e s) ->
  yields (consult g) s Q Ex.
Proof.
  intros HQ HE. exists (g (Machine.firmware s)), s. split; [done|]. destruct (g (Machine.firmware s)); auto.
Qed.

(** The messages of a failure do not matter for what is opened. *)
Lemma open_regular_messages f root path m1 m2 m3 :
  match open_regular f root path m1 m2 m3, open_regular f root path "" "" "" with
  | Ok file, Ok file' => file = file'
  | Err _, Err _ => True
  | _, _ => False
  end.
Proof.
  unfold open_regular. destruct (open_file f root path) as [handle|]; cbn; [|done].
  destruct (into_type handle) as [[file|]|]; done.
Qed.

(** Opening a file of the slot. *)
Lemma slot_file_opened f selection name root from_partition m1 m2 m3 :
  open_volume_root_quietly f selection = Ok (root, from_partition) ->
  slot_file f selection name
  = match open_regular f root (slot_path selection from_partition name) m1 m2 m3 with
    | Ok file => Some (content f file)
    | Err _ => None
    end.
Proof.
  intros Hroot. unfold slot_file. rewrite Hroot.
  pose proof (open_regular_messages f root (slot_path selection from_partition name) m1 m2 m3) as Hm.
  destruct (open_regular f _ _ m1 m2 m3), (open_regular f _ _ "" "" ""); naive_solver.
Qed.

Lemma slot_file_unopened f selection name e :
  open_volume_root_quietly f selection = Err e -> slot_file f selection name = None.
Proof. intros Hroot. unfold slot_file. by rewrite Hroot. Qed.

(** The manifest of the slot is read if it verifies. *)
Lemma read_slot_manifest_exact selection s :
  yields (read_slot_manifest selection) s
    (fun m s' => stays s s' /\ slot_manifest (Machine.firmware s) selection = Some m)
    (fun _ s' => stays s s' /\ (failing (Machine.firmware s) \/ slot_manifest (Machine.firmware s) selection = None)).
Proof.
  unfold read_slot_manifest, slot_manifest. eapply yields_bind; [apply yields_with, (yields_consult _ _ (fun x s' =>
    s' = s /\ open_volume_root_quietly (Machine.firmware s) selection = Ok x)); [done|]|].
  { intros e He. split; [done|right]. by erewrite slot_file_unopened. }
  cbn beta. intros [root from_partition] ? [-> Hroot].
  rewrite (slot_file_opened _ _ _ _ _ "missing" "missing" "missing" Hroot).
  eapply yields_bind; [apply (yields_consult _ _ (fun file s' => s' = s
    /\ open_regular (Machine.firmware s) root (slot_path selection from_partition "SLOT.MAN")
         "missing" "missing" "missing" = Ok file)); [done|]|].
  { intros e He. split; [done|right]. by rewrite He. }
  cbn beta. intros file ? [-> ->]. eapply yields_bind; [apply yields_with; eapply yields_mono;
    [apply read_bounded_exact|intros bytes s1 Hs1; exact Hs1|]|].
  - cbn beta. intros _ s1 [Hs1 Hbad]. split; [done|]. destruct Hbad as [Hf|Hbad]; [by left|right].
    destruct (SlotManifest.verify _ _) as [[m|]|] eqn:Hv; [|done..]. apply verify_length in Hv. lia.
  - cbn beta. intros bytes s1 (Hs1&->&_). apply yields_verify; [by intros m ->|]. intros e ->. auto.
Qed.

Lemma same_volume f f' selection : same_platform f f' ->
  open_volume_root_quietly f' selection = open_volume_root_quietly f selection.
Proof.
  intros []. unfold open_volume_root_quietly. cbn zeta. generalize (match selection with
    | BootImageSelection.SystemB => SYSTEM_B_UNIQUE_GUID | BootImageSelection.Recovery => RECOVERY_UNIQUE_GUID
    | _ => SYSTEM_A_UNIQUE_GUID end). intros guid.
  assert (Hp : open_partition_root f' guid = open_partition_root f guid).
  { unfold open_partition_root. rewrite same_partitions0. destruct (locate_partitions f) as [handles|]; [|done].
    destruct (find_partition guid 0 handles None false) as [[[handle|] found]|]; cbn; [|done..].
    by rewrite same_volumes0. }
  by rewrite Hp, same_image0.
Qed.

Lemma same_slot_file f f' selection name : same_platform f f' -> slot_file f' selection name = slot_file f selection name.
Proof.
  intros Hp. unfold slot_file. rewrite (same_volume f f' selection Hp). destruct Hp.
  destruct (open_volume_root_quietly f selection) as [[root from_partition]|]; [|done].
  unfold open_regular. rewrite same_files0. by destruct (open_file f root _) as [handle|]; cbn;
    [destruct (into_type handle) as [[file|]|]; cbn; rewrite ?same_contents0|].
Qed.

Lemma same_slot_manifest f f' selection : same_platform f f' -> slot_manifest f' selection = slot_manifest f selection.
Proof. intros Hp. unfold slot_manifest. by rewrite (same_slot_file f f'). Qed.
End files.

(** ** The phases of the decision *)

Section decision.
Context {F : Type} `{PlatformLaws F, Ed25519, Sha256}.
Implicit Types (f : F) (s : Machine.t F) (state : BootControlState.t).

(** A firmware on which something may fail. *)
Definition sick f : Prop := uefi_faulty f \/ failing f.

(** The journal's variables changed, to [state], and no other. *)
Definition writes s s' state : Prop :=
  journal_kept (Machine.firmware s) (Machine.firmware s') /\ Machine.memory s' = Machine.memory s
  /\ journal_holds (Machine.firmware s') state.

(** Variables may have been deleted too. *)
Definition arrives s s' state : Prop :=
  kept (Machine.firmware s) (Machine.firmware s') /\ Machine.memory s' = Machine.memory s
  /\ journal_holds (Machine.firmware s') state.

Lemma writes_arrives s s' state : writes s s' state -> arrives s s' state.
Proof. intros ([Hk _]&Hm&Hh). by split. Qed.

Lemma writes_trans s1 s2 s3 state state' : writes s1 s2 state -> writes s2 s3 state' -> writes s1 s3 state'.
Proof. intros (Hk&Hm&_) (Hk'&Hm'&Hh). split; [by etrans|]. split; [by rewrite Hm'|done]. Qed.

Lemma arrives_trans s1 s2 s3 state state' : arrives s1 s2 state -> arrives s2 s3 state' -> arrives s1 s3 state'.
Proof. intros (Hk&Hm&_) (Hk'&Hm'&Hh). split; [by etrans|]. split; [by rewrite Hm'|done]. Qed.

Lemma stays_arrives s s' state : stays s s' -> journal_holds (Machine.firmware s) state -> arrives s s' state.
Proof. intros (Hk&Hv&Hm&_) [c Hh]. split; [done|]. split; [done|]. exists c. by eapply device_holds. Qed.

Lemma arrives_sick s s' state : arrives s s' state -> sick (Machine.firmware s') -> sick (Machine.firmware s).
Proof. intros ([[] Hr Hf]&_&_) [Hs|Hs]; [left|right]; auto. Qed.

Lemma yields_load message s state : journal_holds (Machine.firmware s) state ->
  yields (journal message BootControlJournal.load) s
    (fun state' s' => state' = state /\ writes s s' state)
    (fun _ s' => writes s s' state /\ uefi_faulty (Machine.firmware s)).
Proof.
  intros [c Hh]. pose proof (load_spec _ _ _ Hh) as Hl. apply yields_call; intros x f' Hr; rewrite Hr in Hl;
    destruct Hl as (Hk&Hh'&Hl); cbn in *.
  - split; [naive_solver|]. split; [done|]. split; [done|by exists c].
  - split; [|naive_solver]. split; [done|]. split; [done|by exists c].
Qed.

(** An operation of the journal, as the abstract one answers it. *)
Lemma yields_journal {T} message (op : F -> Result T BootControlError.t * F) (o : JournalSpec.op)
  (answer : T -> JournalSpec.answer) s state :
  (forall f, JournalSpec.run f o = (match (op f).1 with Ok x => Ok (answer x) | Err e => Err e end, (op f).2)) ->
  journal_holds (Machine.firmware s) state ->
  yields (journal message op) s
    (fun x s' => exists state', writes s s' state' /\ JournalSpec.spec state o = Ok (state', answer x))
    (fun _ s' => (exists state', writes s s' state' /\ (state' = state \/ exists a, JournalSpec.spec state o = Ok (state', a)))
       /\ (uefi_faulty (Machine.firmware s) \/ exists e, JournalSpec.spec state o = Err e)).
Proof.
  intros Hrun [c Hh]. pose proof (run_spec _ _ _ o Hh) as Hr. rewrite Hrun in Hr.
  apply yields_call; intros x f' Hop; rewrite Hop in Hr; cbn [fst snd] in Hr; destruct Hr as (Hk&state'&Hh'&Hr).
  - exists state'. by split.
  - destruct Hr as [Hr1 Hr2]. split; [|done]. exists state'. by split.
Qed.

(** A record is read from a variable that holds one. *)
Lemma observed_record {R} name size (decode : list N -> option R) f :
  (forall bytes record, decode bytes = Some record -> length bytes = size) ->
  let observed := if present name f then read_variable_record name size decode f else None in
  (observed = variable_record name decode f \/ observed = None /\ refusing f)
  /\ (present name f = false -> variables f name = None \/ refusing f).
Proof.
  intros Hsize. cbn zeta. unfold present. pose proof (exists_law f name) as He. unfold variable_record.
  destruct (variable_exists f name) as [[]|]; [| |by auto].
  - symmetry in He. apply bool_decide_eq_true in He as [[a data] Hv]. rewrite Hv. split; [|done].
    unfold read_variable_record. pose proof (get_law f name (replicate size 0)) as Hg.
    destruct (get_variable f name _) as [[[length_ attributes]|] output].
    + destruct Hg as (data'&Hv'&->&Hl&->). rewrite Hv in Hv'. simplify_eq. rewrite take_app_length. by left.
    + destruct Hg as [Hg|Hg]; [by right|left]. apply Hg in Hv. rewrite length_replicate in Hv.
      case_decide; [|done]. destruct (decode data) as [record|] eqn:Hd; [|done]. apply Hsize in Hd. lia.
  - symmetry in He. apply bool_decide_eq_false, eq_None_not_Some in He. rewrite He. auto.
Qed.

Lemma ready_record_size bytes record : BootReadyRecord.decode bytes = Some record -> length bytes = BOOT_READY_RECORD_SIZE.
Proof. unfold BootReadyRecord.decode. case_decide as Hd; [done|]. intros _. apply dec_stable. tauto. Qed.

Lemma stage_record_size bytes record : BootStageRecord.decode bytes = Some record ->
  length bytes = BOOT_STAGE_RECORD_SIZE /\ BootStageRecord.slot record <= 1.
Proof.
  unfold BootStageRecord.decode. case_decide as Hd; [done|]. intros Hr. split; [apply dec_stable; tauto|].
  unfold BootStageRecord.encode in Hr. case_decide as Hs; [done|]. injection Hr as <-. cbn in *. lia.
Qed.

(** The readiness record is of the slot on trial. *)
Lemma matching_ready f state record :
  variable_record NAGI_BOOT_READY_VARIABLE BootReadyRecord.decode f = Some record ->
  ready_slot f state
  = if matching_pending record state
    then Some (if decide (BootReadyRecord.slot record = SystemSlot.code SystemSlot.A) then SystemSlot.A else SystemSlot.B)
    else None.
Proof.
  intros Hr. unfold ready_slot, matching_pending. rewrite Hr.
  destruct (BootControlState.pending state) as [pending|]; [|done].
  do 3 case_bool_decide; cbn [andb]; (case_decide as Hd; [|try (by exfalso; apply Hd)]); try (by destruct Hd as (?&?&?)); try done.
  f_equal. destruct pending; cbn in *; case_decide; congruence.
Qed.

Lemma writes_refl s state : journal_holds (Machine.firmware s) state -> writes s s state.
Proof. done. Qed.

Lemma after_promotion_none f state :
  variable_record NAGI_BOOT_READY_VARIABLE BootReadyRecord.decode f = None -> after_promotion f state = Ok state.
Proof. intros Hr. unfold after_promotion, ready_slot. by rewrite Hr. Qed.

(** An operation of the journal, and reading the journal again. *)
Lemma yields_operation {T} m1 m2 (op : F -> Result T BootControlError.t * F) (o : JournalSpec.op)
  (answer : T -> JournalSpec.answer) s state :
  (forall f, JournalSpec.run f o = (match (op f).1 with Ok x => Ok (answer x) | Err e => Err e end, (op f).2)) ->
  journal_holds (Machine.firmware s) state ->
  yields (do _ := journal m1 op in journal m2 BootControlJournal.load) s
    (fun st s' => writes s s' st /\ step state (Some o) = Ok st)
    (fun _ s' => (exists st, writes s s' st /\ (st = state \/ step state (Some o) = Ok st))
       /\ (uefi_faulty (Machine.firmware s) \/ exists e, step state (Some o) = Err e)).
Proof.
  intros Hrun Hh. cbn [step]. eapply yields_bind.
  - eapply yields_mono; [by apply (yields_journal _ _ o answer)|intros x s1 Hx; exact Hx|].
    cbn beta. intros _ s1 [(st&Hw&Hst) Hbad]. split.
    + exists st. split; [done|]. destruct Hst as [->|[a ->]]; auto.
    + destruct Hbad as [?|[e ->]]; eauto.
  - cbn beta. intros x s1 (st&Hw&Hspec). rewrite Hspec. eapply yields_mono; [apply yields_load, Hw| |].
    + cbn beta. intros st' s2 [-> Hw2]. split; [by eapply writes_trans|done].
    + cbn beta. intros _ s2 [Hw2 Hf]. split; [exists st; split; [by eapply writes_trans|by right]|left].
      destruct Hw as ([[] _]&_). auto.
Qed.

(** Promoting the slot that reported readiness. *)
Lemma promote_phase s state record : journal_holds (Machine.firmware s) state ->
  variable_record NAGI_BOOT_READY_VARIABLE BootReadyRecord.decode (Machine.firmware s) = Some record ->
  yields (if matching_pending record state then
            let slot := if decide (BootReadyRecord.slot record = SystemSlot.code SystemSlot.A)
                        then SystemSlot.A else SystemSlot.B in
            do _ := journal "Nagi Loader: M27 readiness promotion failed"
                      (fun f => BootControlJournal.mark_boot_success f slot) in
            journal "Nagi Loader: M27 promoted journal read failed" BootControlJournal.load
          else Proc.ret state) s
    (fun st s' => writes s s' st /\ after_promotion (Machine.firmware s) state = Ok st)
    (fun _ s' => (exists st, writes s s' st /\ (st = state \/ after_promotion (Machine.firmware s) state = Ok st))
       /\ (uefi_faulty (Machine.firmware s) \/ exists e, after_promotion (Machine.firmware s) state = Err e)).
Proof.
  intros Hh Hr. unfold after_promotion. rewrite (matching_ready _ state _ Hr).
  destruct (matching_pending record state); [|by apply yields_ret].
  apply (yields_operation _ _ _ _ (fun _ => JournalSpec.Done)); [|done]. intros f. cbn [JournalSpec.run].
  unfold JournalSpec.done. by destruct (BootControlJournal.mark_boot_success f _).1.
Qed.

Lemma no_journal_name name : name = NAGI_BOOT_READY_VARIABLE \/ name = NAGI_BOOT_STAGE_VARIABLE ->
  forall c, variable_name c <> name.
Proof. intros [-> | ->] []; discriminate. Qed.

(** A variable of the kernel's is deleted. *)
Lemma yields_delete name s state (Q : Result unit unit -> Machine.t F -> Prop) Ex :
  name = NAGI_BOOT_READY_VARIABLE \/ name = NAGI_BOOT_STAGE_VARIABLE ->
  journal_holds (Machine.firmware s) state ->
  (forall r s', arrives s s' state ->
     (forall name', name' <> name -> variables (Machine.firmware s') name' = variables (Machine.firmware s) name') ->
     (variables (Machine.firmware s') name = None \/ refusing (Machine.firmware s)) -> Q r s') ->
  yields (call_firmware (fun f => delete_variable f name)) s Q Ex.
Proof.
  intros Hn [c Hh] HQ. pose proof (delete_kept (Machine.firmware s) name (no_journal_name name Hn)) as Hd.
  unfold call_firmware, yields. destruct (delete_variable _ name) as [r f']. destruct Hd as (Hk&Hv&Hgone).
  exists (Ok r), (Machine.mk f' (Machine.memory s)). split; [done|]. apply HQ; [|done..].
  split; [done|]. split; [done|]. exists c. eapply holds_ext; [|exact Hh]. intros c'. cbn.
  rewrite Hv; [done|]. by apply no_journal_name.
Qed.

Lemma ready_phase s state : journal_holds (Machine.firmware s) state ->
  yields (consume_ready_record state) s
    (fun st s' => arrives s s' st
       /\ (st = state \/ after_promotion (Machine.firmware s) state = Ok st)
       /\ (~ sick (Machine.firmware s) -> after_promotion (Machine.firmware s) state = Ok st
            /\ variables (Machine.firmware s') NAGI_BOOT_READY_VARIABLE = None)
       /\ variables (Machine.firmware s') NAGI_BOOT_STAGE_VARIABLE
          = variables (Machine.firmware s) NAGI_BOOT_STAGE_VARIABLE)
    (fun _ s' => (exists st, arrives s s' st /\ (st = state \/ after_promotion (Machine.firmware s) state = Ok st))
       /\ (sick (Machine.firmware s) \/ exists e, after_promotion (Machine.firmware s) state = Err e)).
Proof.
  intros Hh. unfold consume_ready_record. eapply yields_step; [reflexivity|]. cbn beta.
  destruct (observed_record NAGI_BOOT_READY_VARIABLE BOOT_READY_RECORD_SIZE BootReadyRecord.decode
    (Machine.firmware s) ready_record_size) as [Hobs Hgone]. cbn zeta in Hobs.
  assert (Hwell : forall x, refusing x -> sick x) by (intros x Hx; left; by left).
  destruct (present NAGI_BOOT_READY_VARIABLE (Machine.firmware s)).
  2: { apply yields_ret. split; [done|]. split; [by left|]. split; [|done]. intros Hs.
       destruct Hobs as [Hobs|[_ ?]]; [|by destruct Hs; auto]. split; [by apply after_promotion_none|].
       destruct (Hgone eq_refl) as [?|?]; [done|]. by destruct Hs; auto. }
  eapply yields_step; [reflexivity|]. cbn beta.
  set (record := read_variable_record _ _ _ _) in *. eapply (yields_bind _ _ _ (fun st s1 => writes s s1 st
    /\ (st = state \/ after_promotion (Machine.firmware s) state = Ok st)
    /\ (~ sick (Machine.firmware s) -> after_promotion (Machine.firmware s) state = Ok st))).
  - destruct record as [record|].
    + destruct Hobs as [Hobs|[? _]]; [|done]. eapply yields_mono; [by apply promote_phase| |].
      * cbn beta. intros st s1 [Hw Hst]. auto.
      * cbn beta. intros _ s1 [(st&Hw&Hst) Hbad]. split; [exists st; split; [by apply writes_arrives|done]|].
        destruct Hbad as [?|?]; [left; by left|by right].
    + apply yields_ret. split; [done|]. split; [by left|]. intros Hs.
      destruct Hobs as [Hobs|[_ ?]]; [by apply after_promotion_none|by destruct Hs; auto].
  - cbn beta. intros st s1 (Hw&Hst&Hok). eapply yields_bind; [apply (yields_delete _ s1 st); [by left|apply Hw|]|].
    { intros r s2 Ha Hv Hd. exact (conj Ha (conj Hv Hd)). }
    cbn beta. intros _ s2 (Ha&Hv&Hd). apply yields_ret. split; [by eapply arrives_trans; [apply writes_arrives|]|].
    split; [done|]. destruct Hw as ([[_ Hr _] Hother]&_). split.
    + intros Hs. split; [auto|]. destruct Hd as [?|Hd]; [done|]. by destruct Hs; auto.
    + rewrite Hv by done. apply Hother, no_journal_name. by right.
Qed.

Lemma yields_attempt {T} (m : Load F T) s (Q : option T -> Machine.t F -> Prop) Ex :
  yields m s (fun x => Q (Some x)) (fun _ => Q None) -> yields (attempt m) s Q Ex.
Proof.
  intros ([x|e]&s'&Hm&HQ); [exists (Ok (Some x))|exists (Ok None)]; exists s'; unfold attempt; by rewrite Hm.
Qed.

Lemma other_slot (a b : SystemSlot.t) : a <> b -> a = SystemSlot.other b.
Proof. by destruct a, b. Qed.

(** A request is accepted if it may be staged. *)
Lemma accept_exact record state s : BootStageRecord.slot record <= 1 ->
  yields (accept_stage_request (Some record) state) s
    (fun slot s' => stays s s' /\ permitted_update (Machine.firmware s) state record = Some slot)
    (fun _ s' => stays s s'
       /\ (failing (Machine.firmware s) \/ permitted_update (Machine.firmware s) state record = None)).
Proof.
  intros Hle. unfold accept_stage_request. cbn zeta.
  set (slot := if decide (BootStageRecord.slot record = 0) then _ else _).
  assert (Hcode : BootStageRecord.slot record = SystemSlot.code slot)
    by (unfold slot; case_decide; cbn; lia).
  unfold permitted_update. cbn zeta. case_decide as Hstale.
  { apply yields_fail. split; [done|right]. destruct (BootControlState.pending state) as [|]; [done|].
    do 2 (destruct (slot_manifest _ _); [|done]). rewrite decide_False; [done|]. intros (Hs&Hg&_). destruct Hstale as [?|[?|Hsame]]; [done..|].
    rewrite Hcode, <-Hsame in Hs. by destruct slot. }
  apply not_or_and in Hstale as [Hp [Hg Hne]%not_or_and]. apply dec_stable in Hp, Hg. rewrite Hp.
  pose proof (other_slot _ _ Hne) as Hother. rewrite <-Hother.
  assert (Hconf : SystemSlot.other slot = BootControlState.confirmed state)
    by (rewrite Hother; by destruct (BootControlState.confirmed state)).
  eapply yields_bind; [eapply yields_mono; [apply read_slot_manifest_exact|intros x s1 Hx; exact Hx|]|].
  { cbn beta. intros _ s1 [Hs1 Hbad]. split; [done|]. destruct Hbad as [?|Hbad]; [by left|right]. by rewrite Hbad. }
  cbn beta. intros candidate s1 [Hs1 Hcand]. rewrite Hcand. rewrite Hconf.
  pose proof (same_slot_manifest _ _ (BootImageSelection.of_slot (BootControlState.confirmed state))
    (kept_platform _ _ (proj1 Hs1))) as Hsame. eapply yields_bind.
  - apply yields_with. eapply yields_mono; [apply read_slot_manifest_exact|intros x s2 Hx; exact Hx|].
    cbn beta. rewrite Hsame. intros _ s2 [Hs2 Hbad]. split; [by etrans|].
    destruct Hbad as [Hbad|Hbad]; [left; by eapply stays_failing|right]. by rewrite Hbad.
  - cbn beta. rewrite Hsame. intros confirmed s2 [Hs2 Hconfirmed]. rewrite Hconfirmed. unfold permits_trial.
    case_bool_decide as Hr; cbn [negb].
    + apply yields_ret. split; [by etrans|]. by rewrite decide_True.
    + apply yields_fail. split; [by etrans|right]. rewrite decide_False; [done|]. by intros (_&_&?).
Qed.

Lemma same_permitted f f' state record :
  same_platform f f' -> permitted_update f' state record = permitted_update f state record.
Proof. intros Hp. unfold permitted_update. by rewrite !(same_slot_manifest f f'). Qed.

(** The answer to the request that was read from the variable of [f]. *)
Lemma answer_phase f s state record Ex :
  same_platform f (Machine.firmware s) ->
  (record = variable_record NAGI_BOOT_STAGE_VARIABLE BootStageRecord.decode f \/ record = None /\ refusing f) ->
  yields (attempt (accept_stage_request record state)) s
    (fun accepted s' => stays s s' /\
       match accepted with
       | Some slot => update_slot f state = Some slot
       | None => update_slot f state = None \/ sick f
       end) Ex.
Proof.
  intros Hp Hobs. apply yields_attempt. unfold update_slot. destruct record as [record|].
  - destruct Hobs as [Hobs|[? _]]; [|done]. rewrite <-Hobs. rewrite <-(same_permitted f _ _ _ Hp).
    symmetry in Hobs. unfold variable_record in Hobs.
    destruct (variables f NAGI_BOOT_STAGE_VARIABLE) as [[attributes data]|]; [|done].
    case_decide; [|done]. apply stage_record_size in Hobs as [_ Hle].
    eapply yields_mono; [by apply accept_exact|done|]. cbn beta. intros _ s1 [Hs1 Hbad]. split; [done|].
    destruct Hbad as [Hbad|Hbad]; [right; right|by left]. by apply Hp.
  - apply yields_fail. split; [done|]. destruct Hobs as [<-|[_ ?]]; [by left|right]. left. by left.
Qed.

Lemma stage_phase s state : journal_holds (Machine.firmware s) state ->
  yields (consume_stage_request state) s
    (fun st s' => arrives s s' st
       /\ (st = state \/ after_staging (Machine.firmware s) state = Ok st)
       /\ (~ sick (Machine.firmware s) -> after_staging (Machine.firmware s) state = Ok st
            /\ variables (Machine.firmware s') NAGI_BOOT_STAGE_VARIABLE = None)
       /\ variables (Machine.firmware s') NAGI_BOOT_READY_VARIABLE
          = variables (Machine.firmware s) NAGI_BOOT_READY_VARIABLE)
    (fun _ s' => (exists st, arrives s s' st /\ (st = state \/ after_staging (Machine.firmware s) state = Ok st))
       /\ (sick (Machine.firmware s) \/ exists e, after_staging (Machine.firmware s) state = Err e)).
Proof.
  intros Hh. unfold consume_stage_request. eapply yields_step; [reflexivity|]. cbn beta.
  destruct (observed_record NAGI_BOOT_STAGE_VARIABLE BOOT_STAGE_RECORD_SIZE BootStageRecord.decode
    (Machine.firmware s) (fun bytes r Hr => proj1 (stage_record_size bytes r Hr))) as [Hobs Hgone]. cbn zeta in Hobs.
  assert (Hwell : forall x, refusing x -> sick x) by (intros x Hx; left; by left).
  destruct (present NAGI_BOOT_STAGE_VARIABLE (Machine.firmware s)).
  2: { apply yields_ret. split; [done|]. split; [by left|]. split; [|done]. intros Hs.
       destruct Hobs as [Hobs|[_ ?]]; [|by destruct Hs; auto]. unfold after_staging, update_slot. rewrite <-Hobs. split; [done|].
       destruct (Hgone eq_refl) as [?|?]; [done|]. by destruct Hs; auto. }
  eapply yields_step; [reflexivity|]. cbn beta. set (record := read_variable_record _ _ _ _) in *.
  eapply yields_bind; [apply (yields_delete _ s state); [by right|done|]|].
  { intros r s1 Ha Hv Hd. exact (conj Ha (conj Hv Hd)). }
  cbn beta. intros _ s1 (Ha&Hv&Hd).
  assert (Hone : ~ sick (Machine.firmware s) -> variables (Machine.firmware s1) NAGI_BOOT_STAGE_VARIABLE = None)
    by (intros Hs; destruct Hd as [?|?]; [done|by destruct Hs; auto]).
  assert (Hread : variables (Machine.firmware s1) NAGI_BOOT_READY_VARIABLE
    = variables (Machine.firmware s) NAGI_BOOT_READY_VARIABLE) by (by apply Hv).
  eapply yields_bind; [apply (answer_phase (Machine.firmware s)); [apply Ha|exact Hobs]|].
  cbn beta. intros accepted s2 [Hs2 Hacc].
  assert (Ha2 : arrives s s2 state) by (eapply arrives_trans; [exact Ha|apply stays_arrives; [done|apply Ha]]).
  assert (Hv2 : forall name, variables (Machine.firmware s2) name = variables (Machine.firmware s1) name) by apply Hs2.
  unfold after_staging. destruct accepted as [slot|].
  - rewrite Hacc. cbn [fmap option_fmap option_map].
    eapply yields_mono; [apply (yields_operation _ _ _ (JournalSpec.Stage slot) (fun _ => JournalSpec.Done)); [|apply Ha2]| |].
    + intros f. cbn [JournalSpec.run]. unfold JournalSpec.done. by destruct (BootControlJournal.stage_update f slot).1.
    + cbn beta. intros st s3 [Hw Hst]. pose proof (writes_arrives _ _ _ Hw) as Ha3. destruct Hw as ([_ Hother]&_).
      split; [by eapply arrives_trans|]. split; [by right|]. split.
      * intros Hs. split; [done|]. rewrite Hother, Hv2 by (apply no_journal_name; by right). auto.
      * by rewrite Hother, Hv2 by (apply no_journal_name; by left).
    + cbn beta. intros _ s3 [(st&Hw%writes_arrives&Hst) Hbad]. split; [exists st; split; [by eapply arrives_trans|done]|].
      destruct Hbad as [Hf|?]; [left|by right]. eapply arrives_sick; [exact Ha2|by left].
  - apply yields_ret. split; [done|]. split; [by left|]. split; [|by rewrite Hv2]. intros Hs.
    destruct Hacc as [->|?]; [|done]. split; [done|]. rewrite Hv2. auto.
Qed.

Lemma uppercase_key key c : 65 <= c <= 90 -> to_ascii_uppercase <$> key = Some c <-> key = Some c \/ key = Some (c + 32).
Proof.
  intros Hc. destruct key as [k|]; [|naive_solver]. cbn. unfold to_ascii_uppercase.
  split; [|intros [[= ->]|[= ->]]; case_decide; f_equal; lia].
  case_decide; intros [= <-]; [right|by left]. f_equal. lia.
Qed.

Lemma call_run {T} (g : F -> T * F) s :
  call_firmware g s = Ret (Ok (g (Machine.firmware s)).1, Machine.mk (g (Machine.firmware s)).2 (Machine.memory s)).
Proof. unfold call_firmware. by destruct (g (Machine.firmware s)). Qed.

(** The menu takes the first key that selects something. *)
Lemma menu_phase rounds state : forall s,
  yields (m27_boot_menu_loop rounds state) s
    (fun choice s' => stays s s' /\ choice = menu_choice state (typed rounds (Machine.firmware s)))
    (fun _ _ => False).
Proof.
  induction rounds as [|rounds IH]; intros s; cbn [m27_boot_menu_loop]; [by apply yields_ret|].
  pose proof (device_stays s _ (called_key (Machine.firmware s))) as Hs1.
  eapply yields_step; [apply call_run|].
  set (s1 := Machine.mk _ _) in *. set (key := (read_key (Machine.firmware s)).1). cbn beta zeta.
  assert (Hchoice : menu_choice state (typed (S rounds) (Machine.firmware s))
    = match key_selects state key with
      | Some selection => selection
      | None => menu_choice state (typed rounds (Machine.firmware s1))
      end).
  { cbn [typed]. unfold menu_choice. cbn [omap list_omap]. fold key. by destruct (key_selects state key). }
  rewrite Hchoice. unfold key_selects. cbn zeta.
  assert (Hnext : yields (m27_boot_menu_loop rounds state) s1 (fun choice s' => stays s s'
    /\ choice = menu_choice state (typed rounds (Machine.firmware s1))) (fun _ _ => False)).
  { eapply yields_mono; [apply IH| |done]. cbn beta. intros choice s2 [Hs2 ->]. split; [by etrans|done]. }
  pose proof (uppercase_key key 82 ltac:(lia)) as HR. pose proof (uppercase_key key 65 ltac:(lia)) as HA.
  pose proof (uppercase_key key 66 ltac:(lia)) as HB. cbn [N.add Pos.add] in HR, HA, HB.
  destruct (decide (to_ascii_uppercase <$> key = Some 82)) as [Hk|Hr]; [rewrite HR in Hk|rewrite HR in Hr].
  { apply yields_ret. split; [done|]. by rewrite decide_True. }
  rewrite (decide_False (P := key = Some 82 \/ _)) by done.
  destruct (decide (to_ascii_uppercase <$> key = Some 65)) as [Hk|Ha]; [rewrite HA in Hk|rewrite HA in Ha].
  { rewrite (decide_True (P := key = Some 65 \/ _)) by done. case_decide; [apply yields_ret; split; [done|]|].
    all: by case_bool_decide. }
  rewrite (decide_False (P := key = Some 65 \/ _)) by done.
  destruct (decide (to_ascii_uppercase <$> key = Some 66)) as [Hk|Hb]; [rewrite HB in Hk|rewrite HB in Hb].
  { rewrite (decide_True (P := key = Some 66 \/ _)) by done. case_decide; [apply yields_ret; split; [done|]|].
    all: by case_bool_decide. }
  by rewrite (decide_False (P := key = Some 66 \/ _)) by done.
Qed.

(** What a boot leaves in the journal. *)
Lemma begin_facts state state' d : JournalSpec.spec state JournalSpec.Begin = Ok (state', JournalSpec.Decided d) ->
  (BootDecision.trial_attempt d = 0 /\ BootControlState.pending state' = None
   /\ BootDecision.slot d = BootControlState.confirmed state')
  \/ (BootDecision.trial_attempt d <> 0 /\ BootControlState.pending state' = Some (BootDecision.slot d)
      /\ BootControlState.attempts state' = BootDecision.trial_attempt d).
Proof.
  cbn [JournalSpec.spec]. destruct (BootControlState.pending state) as [pending|] eqn:Hp; [|intros [= <- <-]; auto].
  unfold JournalSpec.advance. case_decide; case_decide; intros [= <- <-]; [by left|right].
  cbn. split; [lia|done].
Qed.

Lemma context_phase s state d : journal_holds (Machine.firmware s) state ->
  (BootDecision.trial_attempt d = 0 /\ BootControlState.pending state = None
   /\ BootDecision.slot d = BootControlState.confirmed state)
  \/ (BootDecision.trial_attempt d <> 0 /\ BootControlState.pending state = Some (BootDecision.slot d)
      /\ BootControlState.attempts state = BootDecision.trial_attempt d) ->
  yields (boot_context d) s
    (fun control s' => writes s s' state /\ exists address,
       system_table (Machine.firmware s) = Some (Some address) /\ control = control_of address state d)
    (fun _ s' => writes s s' state
       /\ (sick (Machine.firmware s) \/ forall address, system_table (Machine.firmware s) <> Some (Some address))).
Proof.
  intros Hh Hd. unfold boot_context, control_of.
  assert (Htable : forall s1, writes s s1 state -> yields (runtime_set_variable_address) s1
    (fun address s' => s' = s1 /\ system_table (Machine.firmware s) = Some (Some address))
    (fun _ s' => writes s s' state
       /\ (sick (Machine.firmware s) \/ forall address, system_table (Machine.firmware s) <> Some (Some address)))).
  { intros s1 Hw. unfold runtime_set_variable_address. eapply yields_step; [reflexivity|]. cbn beta.
    rewrite <-(same_tables _ _ (kept_platform _ _ (proj1 (proj1 Hw)))).
    destruct (system_table (Machine.firmware s1)) as [[address|]|]; [by apply yields_ret|apply yields_fail..];
      (split; [done|by right]). }
  destruct Hd as [(Ha&Hp&Hslot)|(Ha&Hp&Hat)]; [rewrite decide_True by done|rewrite decide_False by done];
    (eapply yields_bind; [eapply yields_mono; [by apply yields_load|intros x s1 Hx; exact Hx|]|]).
  1, 3: cbn beta; intros _ s1 [Hw Hf]; split; [done|left; by left].
  - cbn beta. intros ? s1 [-> Hw]. rewrite decide_True by done. eapply yields_bind; [by apply Htable|].
    cbn beta. intros address ? [-> Haddr]. apply yields_ret. split; [done|]. exists address. split; [done|].
    by rewrite decide_True, Hslot, Ha.
  - cbn beta. intros ? s1 [-> Hw]. rewrite decide_False by (by rewrite Hp, Hat; intros [?|?]).
    eapply yields_bind; [by apply Htable|].
    cbn beta. intros address ? [-> Haddr]. apply yields_ret. split; [done|]. exists address. split; [done|].
    by rewrite decide_False.
Qed.

(** The boot the journal decides. *)
Lemma begin_phase s state : journal_holds (Machine.firmware s) state ->
  yields (do decision := journal "Nagi Loader: M27 boot-control decision failed" BootControlJournal.begin_boot in
          do _ := (if negb (BootDecision.rolled_back decision) && bool_decide (BootDecision.trial_attempt decision = 0)
                   then do _ := journal "Nagi Loader: M27 confirmed journal read failed" BootControlJournal.load in
                        Proc.ret tt
                   else Proc.ret tt) in
          do context := boot_context decision in
          Proc.ret (BootImageSelection.of_slot (BootDecision.slot decision), context)) s
    (fun r s' => exists state' d address, writes s s' state'
       /\ JournalSpec.spec state JournalSpec.Begin = Ok (state', JournalSpec.Decided d)
       /\ system_table (Machine.firmware s) = Some (Some address)
       /\ r = (BootImageSelection.of_slot (BootDecision.slot d), control_of address state' d))
    (fun _ s' => (exists state', writes s s' state'
         /\ (state' = state \/ exists a, JournalSpec.spec state JournalSpec.Begin = Ok (state', a)))
       /\ (sick (Machine.firmware s) \/ (exists e, JournalSpec.spec state JournalSpec.Begin = Err e)
           \/ forall address, system_table (Machine.firmware s) <> Some (Some address))).
Proof.
  intros Hh. eapply yields_bind.
  { eapply yields_mono; [apply (yields_journal _ _ JournalSpec.Begin JournalSpec.Decided); [|exact Hh]|intros d s1 Hd; exact Hd|].
    - intros f. cbn [JournalSpec.run]. by destruct (BootControlJournal.begin_boot f) as [[]].
    - cbn beta. intros _ s1 [Hst Hbad]. split; [done|]. destruct Hbad as [?|?]; [left; by left|by auto]. }
  cbn beta. intros d s1 (state'&Hw&Hspec).
  assert (Hsick : sick (Machine.firmware s1) -> sick (Machine.firmware s))
    by (apply (arrives_sick s s1 state'), writes_arrives, Hw).
  assert (Htab : system_table (Machine.firmware s1) = system_table (Machine.firmware s))
    by apply (same_tables _ _ (kept_platform _ _ (proj1 (proj1 Hw)))).
  eapply (yields_bind _ _ _ (fun _ s2 => writes s s2 state')).
  { destruct (negb _ && _); [|by apply yields_ret]. eapply yields_bind; [eapply yields_mono; [apply yields_load, Hw| |]|].
    - intros x s2 Hx. exact Hx.
    - cbn beta. intros _ s2 [Hw2 Hf]. split; [|left; apply Hsick; by left]. exists state'.
      split; [by eapply writes_trans|by eauto].
    - cbn beta. intros ? s2 [-> Hw2]. apply yields_ret. by eapply writes_trans. }
  cbn beta. intros _ s2 Hw2. pose proof (same_tables _ _ (kept_platform _ _ (proj1 (proj1 Hw2)))) as Htab2.
  eapply yields_bind; [eapply yields_mono; [apply (context_phase s2 state' d); [apply Hw2|by eapply begin_facts]| |]|].
  - intros x s3 Hx. exact Hx.
  - cbn beta. rewrite Htab2. intros _ s3 [Hw3 Hbad]. split.
    + exists state'. split; [by eapply writes_trans|by eauto].
    + destruct Hbad as [Hbad|?]; [left|by auto]. by eapply arrives_sick; [apply writes_arrives|].
  - cbn beta. rewrite Htab2. intros control s3 (Hw3&address&Haddr&->). apply yields_ret.
    exists state', d, address. split; [by eapply writes_trans|done].
Qed.

Lemma after_promotion_ext f f' state :
  variables f' NAGI_BOOT_READY_VARIABLE = variables f NAGI_BOOT_READY_VARIABLE ->
  after_promotion f' state = after_promotion f state.
Proof. intros Hv. unfold after_promotion, ready_slot, variable_record. by rewrite Hv. Qed.

Lemma after_staging_ext f f' state : same_platform f f' ->
  variables f' NAGI_BOOT_STAGE_VARIABLE = variables f NAGI_BOOT_STAGE_VARIABLE ->
  after_staging f' state = after_staging f state.
Proof.
  intros Hp Hv. unfold after_staging, update_slot, variable_record, permitted_update. rewrite Hv.
  by rewrite !(same_slot_manifest f f').
Qed.

(** How the decision ends. *)
Definition decided s state (r : Result (BootImageSelection.t * BootControlInfo.t) string) s' : Prop :=
  let f := Machine.firmware s in
  let f' := Machine.firmware s' in
  Machine.memory s' = Machine.memory s
  /\ (exists state', journal_holds f' state' /\ moves f state state')
  /\ (~ sick f -> follows f state r f'
      /\ match r with
         | Ok _ => variables f' NAGI_BOOT_READY_VARIABLE = None /\ variables f' NAGI_BOOT_STAGE_VARIABLE = None
         | Err _ => True
         end).

(** The choice of the user, and the boot. *)
Lemma choice_phase s0 s state state1 state2 :
  arrives s0 s state2 ->
  (state1 = state \/ after_promotion (Machine.firmware s0) state = Ok state1) ->
  (state2 = state1 \/ after_staging (Machine.firmware s0) state1 = Ok state2) ->
  (~ sick (Machine.firmware s0) -> after_promotion (Machine.firmware s0) state = Ok state1
     /\ after_staging (Machine.firmware s0) state1 = Ok state2
     /\ variables (Machine.firmware s) NAGI_BOOT_READY_VARIABLE = None
     /\ variables (Machine.firmware s) NAGI_BOOT_STAGE_VARIABLE = None) ->
  yields (do selection := m27_boot_menu state2 in
          if decide (selection = BootImageSelection.Recovery)
          then Proc.ret (BootImageSelection.Recovery, default_boot_control)
          else if decide (BootImageSelection.system_slot selection = Some (BootControlState.confirmed state2))
          then Proc.ret (selection, default_boot_control)
          else
            do decision := journal "Nagi Loader: M27 boot-control decision failed" BootControlJournal.begin_boot in
            do _ := (if negb (BootDecision.rolled_back decision) && bool_decide (BootDecision.trial_attempt decision = 0)
                     then do _ := journal "Nagi Loader: M27 confirmed journal read failed" BootControlJournal.load in
                          Proc.ret tt
                     else Proc.ret tt) in
            do context := boot_context decision in
            Proc.ret (BootImageSelection.of_slot (BootDecision.slot decision), context)) s
    (fun x => decided s0 state (Ok x)) (fun e => decided s0 state (Err e)).
Proof.
  intros Ha H12 H23 Hwell.
  eapply yields_bind; [unfold m27_boot_menu; eapply yields_mono; [apply menu_phase|intros x s1 Hx; exact Hx|done]|].
  cbn beta. intros choice s1 [Hs1 Hchoice].
  assert (Ha1 : arrives s0 s1 state2) by (eapply arrives_trans; [exact Ha|apply stays_arrives; [done|apply Ha]]).
  assert (Hmanual : BootImageSelection.system_slot choice = Some (BootControlState.confirmed state2)
      \/ choice = BootImageSelection.Recovery -> decided s0 state (Ok (choice, default_boot_control)) s1).
  { intros Hc. split; [apply Ha1|]. split; [exists state2; split; [apply Ha1|by exists state1, state2; auto]|].
    intros Hs. destruct (Hwell Hs) as (Hp&Hst&Hr&Hg). destruct Hs1 as (_&Hv&_). rewrite !Hv. split; [|done].
    unfold follows. rewrite Hp, Hst. exists (Machine.firmware s). split; [apply Ha|]. rewrite <-Hchoice.
    cbn zeta. rewrite decide_True by tauto. split; [done|apply Ha1]. }
  case_decide as Hrec; [subst choice; apply yields_ret; rewrite Hrec in Hmanual; auto|].
  case_decide as Hconf; [apply yields_ret; auto|]. clear Hmanual.
  assert (Hb := begin_phase s1 state2 (proj2 (proj2 Ha1))).
  assert (Htab : system_table (Machine.firmware s1) = system_table (Machine.firmware s0))
    by apply (same_tables _ _ (kept_platform _ _ (proj1 Ha1))). rewrite Htab in Hb.
  assert (Hfollow : forall r s2, ~ sick (Machine.firmware s0) ->
    match JournalSpec.spec state2 JournalSpec.Begin, system_table (Machine.firmware s0) with
    | Ok (state3, JournalSpec.Decided d), Some (Some address) =>
        r = Ok (BootImageSelection.of_slot (BootDecision.slot d), control_of address state3 d)
        /\ journal_holds (Machine.firmware s2) state3
    | _, _ => exists message, r = Err message
    end -> follows (Machine.firmware s0) state r (Machine.firmware s2)).
  { intros r s2 Hs Hr. destruct (Hwell Hs) as (Hp&Hst&_). unfold follows. rewrite Hp, Hst.
    exists (Machine.firmware s). split; [apply Ha|]. rewrite <-Hchoice. cbn zeta. rewrite decide_False by tauto. done. }
  eapply yields_mono; [exact Hb| |]; cbn beta.
  - intros r s2 (state3&d&address&Hw&Hspec&Haddr&->). split; [destruct Hw as (_&->&_); apply Ha1|].
    split; [exists state3; split; [apply Hw|exists state1, state2; by eauto]|]. intros Hs. split.
    + apply Hfollow; [done|]. rewrite Hspec, Haddr. split; [done|apply Hw].
    + destruct (Hwell Hs) as (_&_&Hr&Hg). destruct Hw as ([_ Hother]&_). destruct Hs1 as (_&Hv&_).
      by rewrite !Hother, !Hv by (apply no_journal_name; auto).
  - intros e s2 [(state3&Hw&Hst) Hbad]. split; [destruct Hw as (_&->&_); apply Ha1|].
    split; [exists state3; split; [apply Hw|exists state1, state2; by eauto]|]. intros Hs. split; [|done].
    apply Hfollow; [done|]. destruct Hbad as [Hbad|[[e' ->]|Hno]]; [by destruct Hs; eapply arrives_sick| |].
    + by eexists.
    + destruct (JournalSpec.spec state2 JournalSpec.Begin) as [[state4 []]|]; [by eexists| |by eexists].
      destruct (system_table (Machine.firmware s0)) as [[address|]|]; [by destruct (Hno address)|by eexists..].
Qed.

Lemma decision_decided s state : journal_holds (Machine.firmware s) state ->
  yields m27_boot_control_decision s (fun x => decided s state (Ok x)) (fun e => decided s state (Err e)).
Proof.
  intros Hh. unfold m27_boot_control_decision.
  assert (Hmoved : forall s' state1 state2 e, arrives s s' state2 ->
    (state1 = state \/ after_promotion (Machine.firmware s) state = Ok state1) ->
    (state2 = state1 \/ after_staging (Machine.firmware s) state1 = Ok state2) ->
    (~ sick (Machine.firmware s) -> follows (Machine.firmware s) state (Err e) (Machine.firmware s')) ->
    decided s state (Err e) s').
  { intros s' state1 state2 e Ha Hst1 Hst2 Hf. split; [apply Ha|].
    split; [exists state2; split; [apply Ha|by exists state1, state2; auto]|]. auto. }
  eapply yields_bind; [eapply yields_mono; [by apply yields_load|intros x s1 Hx; exact Hx|]|].
  { cbn beta. intros e s1 [Hw Hf]. eapply Hmoved; [by apply writes_arrives|by left|by left|]. intros Hs. destruct Hs. by left. }
  cbn beta. intros ? s1 [-> Hw]. pose proof (writes_arrives _ _ _ Hw) as Ha1.
  pose proof (after_promotion_ext (Machine.firmware s) (Machine.firmware s1) state
    (proj2 (proj1 Hw) _ (no_journal_name _ (or_introl eq_refl)))) as Hp.
  assert (Hstage1 : variables (Machine.firmware s1) NAGI_BOOT_STAGE_VARIABLE
    = variables (Machine.firmware s) NAGI_BOOT_STAGE_VARIABLE) by (apply Hw, no_journal_name; by right).
  assert (Hs1 : sick (Machine.firmware s1) -> sick (Machine.firmware s)) by (by eapply arrives_sick).
  eapply yields_bind; [eapply yields_mono; [apply (ready_phase s1 state), Ha1|intros x s2 Hx; exact Hx|]|].
  { cbn beta. rewrite Hp. intros e s2 [(st&Ha&Hst) Hbad]. eapply Hmoved; [by eapply arrives_trans|exact Hst|by left|].
    intros Hs. unfold follows. destruct Hbad as [?|[e' ->]]; [by destruct Hs; auto|by eexists]. }
  cbn beta. rewrite Hp, Hstage1. intros state1 s2 (Ha2&Hst1&Hok1&Hv2).
  assert (Ha02 : arrives s s2 state1) by (by eapply arrives_trans).
  pose proof (after_staging_ext (Machine.firmware s) (Machine.firmware s2) state1
    (kept_platform _ _ (proj1 Ha02)) Hv2) as Hg.
  assert (Hs2 : sick (Machine.firmware s2) -> sick (Machine.firmware s)) by (by eapply arrives_sick).
  eapply yields_bind; [eapply yields_mono; [apply (stage_phase s2 state1), Ha2|intros x s3 Hx; exact Hx|]|].
  { cbn beta. rewrite Hg. intros e s3 [(st&Ha&Hst) Hbad]. eapply Hmoved; [by eapply arrives_trans|exact Hst1|exact Hst|].
    intros Hs. unfold follows. destruct (Hok1 (fun Hx => Hs (Hs1 Hx))) as [-> _].
    destruct Hbad as [?|[e' ->]]; [by destruct Hs; auto|by eexists]. }
  cbn beta. rewrite Hg. intros state2 s3 (Ha3&Hst2&Hok2&Hv3).
  apply (choice_phase s s3 state state1 state2); [by eapply arrives_trans|done|done|].
  intros Hs. destruct (Hok1 (fun Hx => Hs (Hs1 Hx))) as [-> Hr1]. destruct (Hok2 (fun Hx => Hs (Hs2 Hx))) as [-> Hr2].
  rewrite Hv3. auto.
Qed.

End decision.

(** ** A whole slot is entered *)

Section boots.
Context {F : Type} `{PlatformLaws F, Ed25519, Sha256}.
Implicit Types (f : F) (s : Machine.t F).

Lemma pages_rounded n : (n + (PAGE_SIZE - 1)) / PAGE_SIZE = div_ceil n PAGE_SIZE.
Proof. unfold div_ceil, PAGE_SIZE. case_decide; div_lia. Qed.

Lemma pages_cover n : n <= div_ceil n PAGE_SIZE * PAGE_SIZE.
Proof. rewrite <-pages_rounded. unfold PAGE_SIZE. div_lia. Qed.

(** Pages of segments that start at pages do not overlap either. *)
Lemma pages_apart x y a :
  (PAGE_SIZE | LoadSegment.physical_address x) -> (PAGE_SIZE | LoadSegment.physical_address y) ->
  0 < LoadSegment.memory_size x -> 0 < LoadSegment.memory_size y ->
  separate x y -> in_pages x a -> ~ in_pages y a.
Proof.
  intros [p Hp] [q Hq] Hx Hy Hsep. unfold in_pages. rewrite <-!pages_rounded. unfold separate in Hsep.
  rewrite Hp, Hq in *. unfold PAGE_SIZE in *.
  set (mx := LoadSegment.memory_size x) in *. set (my := LoadSegment.memory_size y) in *.
  pose proof (N.div_mod (mx + (4096 - 1)) 4096 ltac:(lia)). pose proof (N.mod_lt (mx + (4096 - 1)) 4096 ltac:(lia)).
  pose proof (N.div_mod (my + (4096 - 1)) 4096 ltac:(lia)). pose proof (N.mod_lt (my + (4096 - 1)) 4096 ltac:(lia)).
  set (dx := (mx + (4096 - 1)) / 4096) in *. set (dy := (my + (4096 - 1)) / 4096) in *.
  intros Ha Hb. destruct Hsep; [assert (p + dx <= q) by lia|assert (q + dy <= p) by lia]; lia.
Qed.

Lemma load_segment_succeeds kernel x s : loadable kernel x ->
  0 < LoadSegment.memory_size x <= U64_MAX - PAGE_SIZE ->
  (forall a, in_pages x a -> ~ allocated (Machine.firmware s) a) -> ~ failing (Machine.firmware s) ->
  yields (load_segment kernel x) s
    (fun _ s' => same_platform (Machine.firmware s) (Machine.firmware s')
       /\ forall a, allocated (Machine.firmware s') a -> allocated (Machine.firmware s) a \/ in_pages x a)
    (fun _ _ => False).
Proof.
  intros [Hsize Halign Hfile _] Hm Hfree Hok. unfold load_segment, u64_checked_add.
  rewrite decide_True by (unfold PAGE_SIZE, U64_MAX in *; lia). eapply yields_step; [reflexivity|]. cbn zeta.
  rewrite pages_rounded. set (pages := div_ceil _ _).
  pose proof (pages_cover (LoadSegment.memory_size x)) as Hcover. fold pages in Hcover.
  rewrite decide_False by (intros Hz; rewrite Hz in Hcover; lia).
  pose proof (allocate_at_law (Machine.firmware s) (LoadSegment.physical_address x) pages (conj Halign Hfree)) as Hat.
  pose proof (allocate_law (Machine.firmware s) (AllocateType.Address (LoadSegment.physical_address x)) pages) as Hal.
  pose proof (allocation_law (Machine.firmware s) (AllocateType.Address (LoadSegment.physical_address x)) pages) as Hpl.
  destruct Hat as [Hat|?]; [|done]. eapply yields_bind.
  { apply (yields_call _ _ _ (fun start s' => start = LoadSegment.physical_address x
      /\ same_platform (Machine.firmware s) (Machine.firmware s')
      /\ forall a, allocated (Machine.firmware s') a -> allocated (Machine.firmware s) a \/ in_pages x a)).
    - intros start f' Hr. rewrite Hr in Hat, Hal, Hpl. cbn in Hat, Hpl. injection Hat as ->. split; [done|]. split; [done|].
      intros a Ha. by apply Hal in Ha.
    - intros e f' Hr. by rewrite Hr in Hat. }
  cbn beta. intros start s1 (->&Hp&Ha). rewrite decide_False by (by intros Hn).
  eapply yields_step; [reflexivity|]. unfold slice. unfold UserElf.len in Hfile. rewrite decide_True by lia.
  eapply yields_step; [reflexivity|]. by apply yields_write.
Qed.

(** Every segment is loaded. *)
Lemma load_segments_succeeds kernel entry segments s : kernel_image kernel entry segments ->
  Forall (fun x => 0 < LoadSegment.memory_size x <= U64_MAX - PAGE_SIZE) segments ->
  (forall x a, x ∈ segments -> in_pages x a -> ~ allocated (Machine.firmware s) a) -> ~ failing (Machine.firmware s) ->
  yields (load_segments kernel (kernel_plan entry segments)) s
    (fun _ s' => same_platform (Machine.firmware s) (Machine.firmware s')
       /\ forall a, allocated (Machine.firmware s') a ->
            allocated (Machine.firmware s) a \/ Exists (fun x => in_pages x a) segments)
    (fun _ _ => False).
Proof.
  intros Himage Hsizes Hfree Hok. pose proof (header_fits_loadable _ _ (image_headers _ _ _ Himage)) as Hload.
  rewrite <-(image_segments _ _ _ Himage) in Hload. unfold load_segments.
  change (LoadPlan.segment_count (kernel_plan entry segments)) with (length segments).
  rewrite plan_slice by apply Himage. eapply yields_step; [reflexivity|].
  eapply yields_mono; [apply (yields_for_each _ (fun pre s' => same_platform (Machine.firmware s) (Machine.firmware s')
    /\ forall a, allocated (Machine.firmware s') a -> allocated (Machine.firmware s) a \/ Exists (fun x => in_pages x a) pre)
    (fun _ _ => False))|done|done].
  - split; [done|by left].
  - intros pre x post s1 Hss [Hp Ha]. assert (Hx : x ∈ segments) by (rewrite Hss; set_solver).
    pose proof (proj1 (Forall_forall _ _) Hload x Hx) as Hlx. pose proof (proj1 (Forall_forall _ _) Hsizes x Hx) as Hsx.
    eapply yields_mono; [apply load_segment_succeeds; [done|done| |]| |done].
    + intros a Hina Hal. apply Ha in Hal as [Hal|Hal]; [by eapply Hfree|].
      apply Exists_exists in Hal as (y&[i Hy]%list_elem_of_lookup&Hiny). apply lookup_lt_Some in Hy as Hi.
      assert (Hyin : y ∈ segments) by (rewrite Hss; apply elem_of_app; left; by eapply list_elem_of_lookup_2).
      eapply (pages_apart y x a); [apply (proj1 (Forall_forall _ _) Hload y Hyin)|apply Hlx
        |apply (proj1 (Forall_forall _ _) Hsizes y Hyin)|apply Hsx| |done|done].
      eapply (image_separate _ _ _ Himage i (length pre)); [done|rewrite Hss; by apply lookup_app_l_Some|].
      by rewrite Hss, list_lookup_middle.
    + intros Hf. by apply Hok, Hp.
    + cbn beta. intros _ s2 [Hp2 Ha2]. split; [by etrans|]. intros a Hal. rewrite Exists_app, Exists_cons.
      apply Ha2 in Hal as [Hal|Hal]; [apply Ha in Hal as [?|?]; auto|auto].
Qed.

(** Opening a file of the slot that is there. *)
Lemma open_slot_file {T} selection name m1 m2 m3 (k : RegularFile -> Load F T) s bytes Q Ex :
  slot_file (Machine.firmware s) selection name = Some bytes ->
  (forall file, content (Machine.firmware s) file = bytes -> yields (k file) s Q Ex) ->
  yields (do (root, from_partition) := consult (fun f => open_volume_root_quietly f selection) in
          do file := consult (fun f => open_regular f root (slot_path selection from_partition name) m1 m2 m3) in
          k file) s Q Ex.
Proof.
  intros Hfile Hk.
  destruct (open_volume_root_quietly (Machine.firmware s) selection) as [[root from_partition]|e] eqn:Hroot;
    [|by erewrite slot_file_unopened in Hfile].
  eapply yields_step; [unfold consult; by rewrite Hroot|]. cbn beta.
  rewrite (slot_file_opened _ _ _ _ _ m1 m2 m3 Hroot) in Hfile.
  destruct (open_regular (Machine.firmware s) root _ m1 m2 m3) as [file|] eqn:Hopen; [|done].
  eapply yields_step; [unfold consult; by rewrite Hopen|]. apply Hk. by injection Hfile.
Qed.

(** The kernel is read whole. *)
Lemma read_kernel_exact selection kernel s :
  slot_file (Machine.firmware s) selection "KERNEL.ELF" = Some kernel ->
  0 < N.of_nat (length kernel) <= MAX_KERNEL_IMAGE_SIZE -> ~ failing (Machine.firmware s) ->
  yields (read_kernel selection) s (fun bytes s' => stays s s' /\ bytes = kernel) (fun _ _ => False).
Proof.
  intros Hfile Hl Hok. unfold read_kernel. eapply open_slot_file; [exact Hfile|]. intros file Hc.
  eapply yields_mono; [apply read_bounded_exact| |]; cbn beta; rewrite Hc.
  - intros bytes s' (Hs&->&_). by split.
  - intros e s' [_ [?|[?|?]]]; [done|lia|lia].
Qed.

(** The part of the image that was read is in memory. *)
Lemma read_init_loop_exact file start fuel : forall offset s,
  let whole := content (Machine.firmware s) file in
  position (Machine.firmware s) file = N.of_nat offset -> (offset <= length whole)%nat ->
  (forall i, (i < offset)%nat -> Machine.memory s (start + N.of_nat i) = byte_at whole i) ->
  (length whole - offset < fuel)%nat -> ~ failing (Machine.firmware s) ->
  yields (read_init_loop fuel file start (N.of_nat (length whole)) (N.of_nat offset)) s
    (fun _ s' => same_platform (Machine.firmware s) (Machine.firmware s')
       /\ forall i, (i < length whole)%nat -> Machine.memory s' (start + N.of_nat i) = byte_at whole i)
    (fun _ _ => False).
Proof.
  induction fuel as [|fuel IH]; intros offset s whole Hpos Hle Hmem Hfuel Hok; [lia|]. cbn [read_init_loop].
  case_decide as Hdone.
  { apply yields_ret. split; [done|]. intros i Hi. apply Hmem. lia. }
  cbn zeta. set (n := N.to_nat _). pose proof (read_file_law (Machine.firmware s) file n) as Hlaw.
  pose proof (read_length (Machine.firmware s) file n) as Hmax.
  assert (Hn : (0 < n <= length whole - offset)%nat) by (unfold n, INIT_READ_CHUNK_SIZE; lia).
  eapply yields_bind.
  { apply (yields_device _ _ _ (fun data s' => stays s s' /\ data <> [] /\ (length data <= n)%nat
      /\ (exists rest, drop offset whole = data ++ rest)
      /\ position (Machine.firmware s') file = N.of_nat (offset + length data))); [constructor| |].
    - intros data f' Hr Hs. rewrite Hr in Hlaw, Hmax. destruct Hlaw as ([rest Hd]&Hp&Hz). fold whole in Hd, Hz.
      rewrite Hpos in Hd, Hz, Hp. rewrite Nat2N.id in Hd. split; [done|]. split; [|split; [by apply Hmax|split]].
      + intros Hnil. specialize (Hz Hnil). lia.
      + by exists rest.
      + cbn [Machine.firmware]. lia.
    - intros e f' Hr Hs. rewrite Hr in Hlaw. by apply Hok. }
  cbn beta. intros data s1 (Hs1&Hne&Hlen&[rest Hd]&Hp1). eapply yields_step; [reflexivity|].
  rewrite decide_False by done. replace (N.of_nat offset + N.of_nat (length data)) with (N.of_nat (offset + length data)) by lia.
  set (s2 := Machine.mk _ _). pose proof (stays_content _ _ file Hs1) as Hc. fold whole in Hc.
  specialize (IH (offset + length data)%nat s2). cbn [Machine.firmware s2] in IH. rewrite Hc in IH.
  eapply yields_mono; [apply IH|by intros _ s3 [Hp3 Hm3]; split; [etrans; [apply Hs1|exact Hp3]|]|done].
  - done.
  - lia.
  - intros i Hi. cbn [Machine.memory s2]. unfold blit. case_decide as Hin.
    + replace (N.to_nat _) with (i - offset)%nat by lia. unfold byte_at.
      rewrite <-(app_nth1 data rest) by lia. rewrite <-Hd, nth_skipn. f_equal. lia.
    + destruct Hs1 as (_&_&->&_). apply Hmem. lia.
  - destruct data; [done|]. cbn. lia.
  - intros Hf. by eapply Hok, stays_failing.
Qed.

(** The initial program is read whole. *)
Lemma read_init_exact selection init s :
  slot_file (Machine.firmware s) selection "INIT.ELF" = Some init ->
  0 < N.of_nat (length init) <= MAX_INIT_IMAGE_SIZE -> ~ failing (Machine.firmware s) ->
  room (Machine.firmware s) (N.of_nat (length init)) (fun _ => False) ->
  yields (read_init selection) s
    (fun info s' => same_platform (Machine.firmware s) (Machine.firmware s')
       /\ InitImageInfo.size info = N.of_nat (length init)
       /\ memory_bytes (Machine.memory s') (InitImageInfo.address info) (length init) = init)
    (fun _ _ => False).
Proof.
  intros Hfile Hl Hok (place&[Halign Hfree]&Hroom&_). unfold read_init. eapply open_slot_file; [exact Hfile|]. intros file Hc.
  pose proof (set_position_law (Machine.firmware s) file None) as Hend. eapply yields_bind.
  { apply (yields_device _ _ _ (fun _ s' => stays s s'
      /\ position (Machine.firmware s') file = N.of_nat (length init))); [constructor| |].
    - intros [] f' Hr Hs. rewrite Hr, Hc in Hend. by split.
    - intros e f' Hr Hs. by rewrite Hr in Hend. }
  cbn beta. intros [] s1 [Hs1 Hp1]. eapply yields_step; [reflexivity|].
  pose proof (get_position_law (Machine.firmware s1) file) as Hget.
  assert (Hok1 : ~ failing (Machine.firmware s1)) by (intros Hf; by eapply Hok, stays_failing).
  destruct (get_position (Machine.firmware s1) file) as [size|]; [|done]. eapply yields_step; [reflexivity|].
  assert (Hsize : size = N.of_nat (length init)) by congruence. clear Hget. subst size.
  rewrite decide_False by lia. unfold init_image_page_count. rewrite decide_False by lia.
  unfold MAX_INIT_IMAGE_SIZE in Hl. unfold u64_checked_add at 1.
  rewrite decide_True by (unfold PAGE_SIZE, U64_MAX; lia). cbn [fmap option_fmap option_map].
  rewrite pages_rounded. eapply yields_step; [reflexivity|]. set (pages := div_ceil _ _).
  assert (Hpages : pages <= 32768) by (unfold pages; rewrite <-pages_rounded; unfold PAGE_SIZE; div_lia).
  pose proof (pages_cover (N.of_nat (length init))) as Hcover. fold pages in Hcover.
  pose proof (allocate_below_law (Machine.firmware s1) INIT_IMAGE_MAX_ADDRESS pages) as Hbelow.
  pose proof (allocation_law (Machine.firmware s1) (AllocateType.MaxAddress INIT_IMAGE_MAX_ADDRESS) pages) as Hpl.
  eapply yields_bind; [apply (yields_call _ _ _ (fun start s' =>
    same_platform (Machine.firmware s1) (Machine.firmware s') /\ start + pages * PAGE_SIZE <= INIT_IMAGE_MAX_ADDRESS + 1))|].
  { intros start f' Hr. rewrite Hr in Hbelow, Hpl. by split. }
  { intros e f' Hr. rewrite Hr in Hbelow. destruct Hbelow as [?|Hbelow]; [done|].
    assert (Hplace : free (Machine.firmware s1) place pages).
    { split; [done|]. intros a Ha. destruct Hs1 as (_&_&_&Hal). rewrite Hal. by apply Hfree. }
    apply Hbelow in Hplace. unfold INIT_IMAGE_MAX_ADDRESS in Hplace. fold pages in Hroom. lia. }
  cbn beta. intros start s2 [Hp2 Hlow]. unfold INIT_IMAGE_MAX_ADDRESS, PAGE_SIZE in Hlow.
  unfold u64_checked_mul. rewrite decide_True by (unfold U64_MAX, PAGE_SIZE; lia). eapply yields_step; [reflexivity|].
  unfold u64_checked_add. rewrite decide_True by (unfold U64_MAX, PAGE_SIZE; lia). eapply yields_step; [reflexivity|].
  rewrite decide_False by (unfold INIT_IMAGE_MAX_ADDRESS, PAGE_SIZE; lia). eapply yields_step; [reflexivity|].
  set (s3 := Machine.mk _ _). pose proof (set_position_law (Machine.firmware s3) file (Some 0)) as Hstart.
  assert (Hp3 : same_platform (Machine.firmware s) (Machine.firmware s3)) by (etrans; [apply Hs1|exact Hp2]).
  assert (Hok3 : ~ failing (Machine.firmware s3)) by (intros Hf; by apply Hok, Hp3). eapply yields_bind.
  { apply (yields_device _ _ _ (fun _ s' => stays s3 s' /\ position (Machine.firmware s') file = 0)); [constructor| |].
    - intros [] f' Hr Hs. rewrite Hr in Hstart. by split.
    - intros e f' Hr Hs. by rewrite Hr in Hstart. }
  cbn beta. intros [] s4 [Hs4 Hp4].
  assert (Hc4 : content (Machine.firmware s4) file = init)
    by (rewrite (stays_content _ _ file Hs4), (same_contents _ _ Hp3); done).
  pose proof (read_init_loop_exact file start (N.to_nat (N.of_nat (length init)) + 1) 0 s4) as Hloop. cbn zeta in Hloop.
  rewrite Hc4 in Hloop. eapply yields_bind; [apply Hloop; [done|lia|lia|lia|]|].
  { intros Hf. by eapply Hok3, stays_failing. }
  cbn beta. intros _ s5 [Hp5 Hm5]. apply yields_ret. cbn [InitImageInfo.size InitImageInfo.address].
  split; [|split; [done|by apply memory_bytes_eq]]. etrans; [exact Hp3|]. etrans; [apply Hs4|exact Hp5].
Qed.

(** The manifest is verified. *)
Lemma verify_slot_manifest_exact selection control m s :
  slot_manifest (Machine.firmware s) selection = Some m ->
  (BootControlInfo.attempt control <> 0 -> exists confirmed,
     slot_manifest (Machine.firmware s) (confirmed_image selection) = Some confirmed
     /\ SlotManifest.rollback_index confirmed <= SlotManifest.rollback_index m) ->
  ~ failing (Machine.firmware s) ->
  yields (verify_slot_manifest selection control) s (fun m' s' => stays s s' /\ m' = m) (fun _ _ => False).
Proof.
  intros Hm Hback Hok. unfold verify_slot_manifest.
  assert (Hread : forall sel x s', stays s s' -> slot_manifest (Machine.firmware s) sel = Some x ->
    yields (with_message reject_slot_manifest (read_slot_manifest sel)) s'
      (fun x' s'' => stays s s'' /\ x' = x) (fun _ _ => False)).
  { intros sel x s' Hs Hx. rewrite <-(same_slot_manifest _ _ sel (kept_platform _ _ (proj1 Hs))) in Hx.
    apply yields_with. eapply yields_mono; [apply read_slot_manifest_exact| |]; cbn beta; rewrite Hx.
    - intros x' s'' [Hs'' [= ->]]. split; [by etrans|done].
    - intros e s'' [_ [Hf|?]]; [|done]. by eapply Hok, stays_failing. }
  eapply yields_bind; [by apply Hread|]. cbn beta. intros ? s1 [Hs1 ->].
  case_decide as Ha; [|by apply yields_ret]. destruct (Hback Ha) as (confirmed&Hconf&Hle).
  eapply yields_bind; [by apply Hread|]. cbn beta. intros ? s2 [Hs2 ->]. unfold permits_trial.
  rewrite bool_decide_true by done. by apply yields_ret.
Qed.

Lemma same_framebuffer f f' : same_platform f f' -> gather_framebuffer f' = gather_framebuffer f.
Proof. intros Hp. unfold gather_framebuffer. by rewrite (same_graphics _ _ Hp). Qed.

(** C8: a slot that is signed and whole is entered: once the loader has decided
    for it, on a firmware whose disks answer and whose memory is free where the
    kernel is linked, the loader enters the kernel at the entry of its image, with
    its segments and the whole initial program in memory, and tells it the
    framebuffer, the ACPI tables and the boot-control decision. *)
Theorem loader_boots s selection control s1 m kernel init entry segments framebuffer :
  helpers_init (Machine.firmware s) = Ok tt ->
  m27_boot_control_decision s = Ret (Ok (selection, control), s1) ->
  ~ failing (Machine.firmware s1) ->
  bootable (Machine.firmware s1) selection control m kernel init entry segments ->
  gather_framebuffer (Machine.firmware s1) = Ok framebuffer ->
  find_acpi_rsdp 0 (config_tables (Machine.firmware s1)) <> 0 ->
  exists info s', main s = Ret (Ok (Enter entry info), s')
    /\ entered (Machine.memory s') kernel init segments framebuffer
         (find_acpi_rsdp 0 (config_tables (Machine.firmware s1))) control info.
Proof.
  intros Hhelp Hdecision Hok Hboot Hframe Hacpi.
  cut (yields main s (fun ending s' => exists info, ending = Enter entry info
    /\ entered (Machine.memory s') kernel init segments framebuffer
         (find_acpi_rsdp 0 (config_tables (Machine.firmware s1))) control info) (fun _ _ => False));
    [intros ([x|e]&s'&Hr&HQ); [|done]; destruct HQ as (info&->&HQ); by exists info, s'|].
  unfold main. eapply yields_step; [reflexivity|]. rewrite Hhelp. eapply yields_step; [reflexivity|].
  eapply yields_step; [exact Hdecision|]. cbn beta iota.
  destruct Hboot as [Hman Hback Hkernel Hksize Hkpin Himage Hsegs Hfree Hinit Hisize Hipin Hroom].
  eapply yields_bind; [by apply verify_slot_manifest_exact|]. cbn beta. intros ? s2 [Hs2 ->].
  assert (Hok2 : ~ failing (Machine.firmware s2)) by (intros Hf; by eapply Hok, stays_failing).
  pose proof (kept_platform _ _ (proj1 Hs2)) as Hp2.
  eapply yields_bind; [apply (read_kernel_exact _ kernel); [by rewrite (same_slot_file _ _ _ _ Hp2)| |done]|].
  { pose proof (image_length _ _ _ Himage) as Hlen. unfold UserElf.len, ELF_HEADER_SIZE in Hlen. lia. }
  cbn beta. intros ? s3 [Hs3 ->]. assert (Hs13 : stays s1 s3) by (by etrans).
  pose proof (kept_platform _ _ (proj1 Hs13)) as Hp3.
  assert (Hok3 : ~ failing (Machine.firmware s3)) by (intros Hf; by apply Hok, Hp3).
  unfold check_slot_payload at 1, or_fail at 1. cbn [SlotManifest.payload].
  rewrite (proj2 (check_payload _ _) Hkpin). eapply yields_step; [reflexivity|]. cbn beta.
  assert (Hl : UserElf.len kernel <= ISIZE_MAX) by (unfold UserElf.len, ISIZE_MAX, MAX_KERNEL_IMAGE_SIZE in *; lia).
  rewrite (proj2 (proj2 (parse_kernel_spec kernel Hl) (kernel_plan entry segments))) by eauto.
  eapply yields_step; [reflexivity|]. eapply yields_bind.
  { eapply yields_both; [apply load_segments_spec; [apply Himage|]|apply load_segments_succeeds; [done..| |done]].
    - rewrite (image_segments _ _ _ Himage). apply header_fits_loadable, Himage.
    - intros x a Hx Ha. destruct Hs13 as (_&_&_&Hal). rewrite Hal. by eapply Hfree. }
  cbn beta. intros [] s4 [Hloaded [Hp34 Hal34]]. assert (Hp4 : same_platform (Machine.firmware s1) (Machine.firmware s4)) by (by etrans).
  assert (Hok4 : ~ failing (Machine.firmware s4)) by (intros Hf; by apply Hok, Hp4). eapply yields_bind.
  { eapply yields_both; [apply read_init_spec|apply (read_init_exact _ init); [by rewrite (same_slot_file _ _ _ _ Hp4)|done|done|]].
    destruct Hroom as (place&[Halign Hplace]&Hlow&Hout). exists place. split; [|by split; [|intros a _ []]]. split; [done|].
    intros a Ha Hal. apply Hal34 in Hal as [Hal|Hal]; [|by eapply Hout]. destruct Hs13 as (_&_&_&Hal13).
    rewrite Hal13 in Hal. by eapply Hplace. }
  cbn beta. intros info s5 [(_&_&_&Hkeep) (Hp45&Hsize&Hbytes)].
  eapply (yields_step _ _ _ tt s5).
  { rewrite Hsize, Nat2N.id, Hbytes. unfold check_slot_payload, or_fail. cbn [SlotManifest.payload].
    by rewrite (proj2 (check_payload _ _) Hipin). }
  assert (Hp5 : same_platform (Machine.firmware s1) (Machine.firmware s5)) by (by etrans).
  eapply yields_step; [reflexivity|]. cbn beta. rewrite (same_framebuffer _ _ Hp5), Hframe.
  eapply yields_step; [reflexivity|]. eapply yields_step; [reflexivity|]. cbn beta. rewrite (same_config _ _ Hp5).
  rewrite decide_False by done. eapply yields_step; [reflexivity|]. eapply yields_step; [reflexivity|].
  rewrite decide_False by apply exit_law. apply yields_ret. eexists. split; [done|]. split; try done.
  eapply Forall_impl; [exact Hloaded|]. cbn beta. intros x [Hx1 Hx2] i Hi. rewrite <-(Hx1 i Hi).
  apply Hkeep, Hx2. unfold in_segment. lia.
Qed.
End boots.

(** ** A firmware *)

Module LoaderExample.
#[local] Existing Instances SlotUpdateExample.toy_ed25519 SlotUpdateExample.toy_sha256.

(** A machine of 512 pages whose loader volume holds both slots. *)
Module Toy.
Record t := mk { vars : string -> option (N * list N); pos : string -> N; ranges : list (N * N) }.
End Toy.
Implicit Types (f : Toy.t).

Definition END_OF_MEMORY : N := 512 * 4096.
Definition init : list N := [1; 2; 3; 4; 5].
Definition the_manifest (rollback : N) : SlotManifest.t :=
  SlotManifest.mk (SlotUpdateExample.the_version ++ replicate 27 0) 5 rollback
    (PayloadDigest.of_bytes LoaderElfExample.kernel) (PayloadDigest.of_bytes init).
Definition the_file (rollback : N) : list N :=
  match SlotManifest.encode_signed (the_manifest rollback) TRUSTED_SLOT_SIGNING_PUBLIC_KEY
          (replicate MAX_SLOT_MANIFEST_BYTES 0) with
  | Ret (n, out) => take n out
  | Panic => []
  end.

Definition disk (path : string) : option (list N) :=
  if decide (path = "\EFI\NAGI\SYSTEMA\SLOT.MAN"%string) then Some (the_file 2)
  else if decide (path = "\EFI\NAGI\SYSTEMB\SLOT.MAN"%string) then Some (the_file 1)
  else if decide (path = "\EFI\NAGI\SYSTEMA\KERNEL.ELF"%string) then Some LoaderElfExample.kernel
  else if decide (path = "\EFI\NAGI\SYSTEMA\INIT.ELF"%string) then Some init
  else None.

Definition set {V} (m : string -> V) (key : string) (v : V) : string -> V :=
  fun key' => if decide (key' = key) then v else m key'.

Definition apart (start pages : N) (range : N * N) : Prop :=
  range.2 = 0 \/ start + pages * PAGE_SIZE <= range.1 \/ range.1 + range.2 <= start.

Definition available f (start pages : N) : Prop :=
  pages = 0 \/ (start + pages * PAGE_SIZE <= END_OF_MEMORY /\ Forall (apart start pages) (Toy.ranges f)).

#[local] Instance apart_dec start pages range : Decision (apart start pages range).
Proof. unfold apart. apply _. Defined.

#[local] Instance available_dec f start pages : Decision (available f start pages).
Proof. unfold available. apply _. Defined.

Definition take_pages f (start pages : N) : Toy.t :=
  Toy.mk (Toy.vars f) (Toy.pos f) ((start, pages * PAGE_SIZE) :: Toy.ranges f).

Definition fits f (limit pages : N) (page : nat) : Prop :=
  available f (N.of_nat page * PAGE_SIZE) pages /\ N.of_nat page * PAGE_SIZE + pages * PAGE_SIZE <= limit + 1.

#[local] Instance fits_dec f limit pages page : Decision (fits f limit pages page).
Proof. unfold fits. apply _. Defined.

Definition allocate f (kind : AllocateType.t) (pages : N) : Result N unit * Toy.t :=
  match kind with
  | AllocateType.Address address =>
      if decide (available f address pages) then (Ok address, take_pages f address pages) else (Err tt, f)
  | AllocateType.MaxAddress limit =>
      match list_find (fits f limit pages) (seq 0 512) with
      | Some (_, page) => (Ok (N.of_nat page * PAGE_SIZE), take_pages f (N.of_nat page * PAGE_SIZE) pages)
      | None => (Err tt, f)
      end
  end.

Definition read f (file : string) (n : nat) : Result (list N) unit * Toy.t :=
  let data := take (Nat.min n 50) (drop (N.to_nat (Toy.pos f file)) (default [] (disk file))) in
  (Ok data, Toy.mk (Toy.vars f) (set (Toy.pos f) file (Toy.pos f file + N.of_nat (length data))) (Toy.ranges f)).

#[local] Instance toy_runtime : UefiRuntime Toy.t := {|
  variable_exists f name := Ok (bool_decide (is_Some (Toy.vars f name)));
  get_variable f name buffer :=
    match Toy.vars f name with
    | Some (attributes, data) =>
        if decide (length data <= length buffer)%nat
        then (Ok (length data, attributes), data ++ drop (length data) buffer) else (Err tt, buffer)
    | None => (Err tt, buffer)
    end;
  set_variable f name attributes data :=
    (Ok tt, Toy.mk (set (Toy.vars f) name (Some (attributes, data))) (Toy.pos f) (Toy.ranges f))
|}.

#[local] Instance toy_services : BootServices Toy.t := {|
  Volume := unit; FileHandle := string; RegularFile := string;
  helpers_init _ := Ok tt;
  delete_variable f name := (Ok tt, Toy.mk (set (Toy.vars f) name None) (Toy.pos f) (Toy.ranges f));
  read_key f := (None, f);
  locate_partitions _ := None;
  partition_volume _ _ := Err VolumeError.NoFileSystem;
  image_volume _ := Ok tt;
  open_file _ _ path := if decide (disk path = None) then Err tt else Ok path;
  into_type handle := Ok (Some handle);
  set_position f file where_ :=
    (Ok tt, Toy.mk (Toy.vars f) (set (Toy.pos f) file (default (N.of_nat (length (default [] (disk file)))) where_))
              (Toy.ranges f));
  get_position f file := Ok (Toy.pos f file);
  read_file := read;
  allocate_pages := allocate;
  system_table _ := Some (Some 0x5000);
  graphics _ := Ok (Graphics.mk 640 480 PixelFormat.Bgr 640 0x80000000 1228800);
  config_tables _ := [ConfigTable.mk ConfigTable.ACPI 0x6000; ConfigTable.mk ConfigTable.ACPI2 0x7000];
  get_time _ := Err tt;
  exit_boot_services _ := MemoryMap.mk 0x9000 3 48 1
|}.

Definition taken f (a : N) : Prop :=
  END_OF_MEMORY <= a \/ Exists (fun range => range.1 <= a < range.1 + range.2) (Toy.ranges f).

Lemma available_free f start pages :
  available f start pages <-> forall a, start <= a < start + pages * PAGE_SIZE -> ~ taken f a.
Proof.
  unfold available, taken. split.
  - intros [->|[Hend Hr]] a Ha [Ht|Ht]; [lia..|]. apply Exists_exists in Ht as (range&Hin&Ht).
    eapply Forall_forall in Hr; [|exact Hin]. unfold apart in Hr. lia.
  - intros Hf. destruct (decide (pages = 0)) as [|Hp]; [by left|right].
    assert (Hlen : 0 < pages * PAGE_SIZE) by (unfold PAGE_SIZE; lia). split.
    + apply N.nlt_ge. intros Hlt. apply (Hf (start + pages * PAGE_SIZE - 1)); [lia|left]. lia.
    + apply Forall_forall. intros range Hin. destruct (decide (apart start pages range)) as [|Hn]; [done|].
      unfold apart in Hn. destruct (Hf (N.max start range.1)); [lia|right]. apply Exists_exists.
      exists range. split; [done|lia].
Qed.

Lemma taken_more f start pages a :
  taken (take_pages f start pages) a <-> taken f a \/ start <= a < start + pages * PAGE_SIZE.
Proof. unfold taken, take_pages. cbn [Toy.ranges]. rewrite Exists_cons. cbn [fst snd]. tauto. Qed.

#[local] Instance toy_allocation : AllocationLaws Toy.t.
Proof.
  refine {| allocated := taken |}.
  - intros f kind pages. cbn. destruct kind as [limit|address]; cbn [allocate].
    + destruct (list_find _ _) as [[i page]|] eqn:Hl; [|done]. apply list_find_Some in Hl as (_&[Hav _]&_).
      split; [by apply available_free|]. intros a. apply taken_more.
    + case_decide as Hav; [|done]. split; [by apply available_free|]. intros a. apply taken_more.
  - done.
  - done.
  - intros f file n data. cbn. intros [= <-]. rewrite length_take. lia.
Defined.

Lemma lookup_set {V} (m : string -> V) key v key' : set m key v key' = if decide (key' = key) then v else m key'.
Proof. done. Qed.

#[local] Instance toy_variables : UefiLaws Toy.t.
Proof.
  refine {| variables := Toy.vars; refusing := fun _ => False |}.
  - done.
  - intros f name buffer. cbn. destruct (Toy.vars f name) as [[attributes data]|]; [|by right].
    case_decide; [by exists data|]. right. intros ? ? [= <- <-]. lia.
  - intros f name attributes data. cbn. split; [done|]. split; [by left|]. intros name'. unfold set.
    case_decide; [by rewrite decide_True|]. rewrite decide_False; [done|]. by intros [? _].
Defined.

#[local] Instance toy_files : FileLaws Toy.t.
Proof.
  refine {| content := fun _ file => default [] (disk file); position := Toy.pos; failing := fun _ => False |}.
  - intros f file where_. cbn. unfold set. by rewrite decide_True.
  - done.
  - intros f file n. cbn. set (rest := drop _ _). split; [exists (drop (Nat.min n 50) rest); by rewrite take_drop|].
    unfold LoaderExample.set. rewrite decide_True by done. split; [done|]. intros Hnil.
    destruct n as [|n]; [by left|right]. destruct (decide (rest = [])) as [Hr|Hr].
    + apply (f_equal length) in Hr. unfold rest in Hr. rewrite length_drop in Hr. cbn in Hr. lia.
    + by destruct rest.
  - intros f address pages [_ Hfree]. left. cbn. rewrite decide_True; [done|]. by apply available_free.
  - intros f limit pages. cbn [allocate_pages toy_services allocate]. destruct (list_find (fits f limit pages) (seq 0 512)) as [[i page]|] eqn:Hl; cbn [fst].
    + by apply list_find_Some in Hl as (_&[_ Hle]&_).
    + right. intros start [[page ->] Hfree]. apply N.nle_gt. intros Hle. apply list_find_None in Hl.
      assert (Hav : available f (page * PAGE_SIZE) pages) by (by apply available_free).
      destruct (decide (pages = 0)) as [->|Hp].
      { eapply (proj1 (Forall_forall _ _) Hl 0%nat); [apply elem_of_seq; lia|]. split; [by left|cbn; lia]. }
      assert (Hlow : page < 512) by (destruct Hav as [?|[Hend _]]; [done|]; unfold END_OF_MEMORY, PAGE_SIZE in Hend; lia).
      eapply (proj1 (Forall_forall _ _) Hl (N.to_nat page)); [apply elem_of_seq; lia|].
      unfold fits. by rewrite N2Nat.id.
  - done.
Defined.

#[local] Instance toy_platform : PlatformLaws Toy.t.
Proof.
  split.
  - intros f f' Hcall. destruct Hcall; cbn; (split; [by split|]); (split; [done|]); by split.
  - intros f kind pages. cbn. assert (Hsame : forall f', same_platform f f') by (intros f'; by split). apply Hsame.
  - intros f f' Hcall. destruct Hcall; cbn; (split; [by split|done]).
  - intros f name. cbn. split; [done|]. split; [by left|]. intros name'. unfold set.
    case_decide; [by rewrite decide_True|]. rewrite decide_False; [done|]. by intros [? _].
Defined.

(** System B is on its first trial, has reported readiness, and requested an
    update of System A. *)
Definition the_state : BootControlState.t := BootControlState.mk SystemSlot.A (Some SystemSlot.B) 1 4.

Definition the_variables (name : string) : option (N * list N) :=
  let required data := (UefiVariableBootControlStore.REQUIRED_ATTRIBUTES, data) in
  if decide (name = "NagiBootControl0"%string) then required <$> encode_record the_state
  else if decide (name = NAGI_BOOT_READY_VARIABLE) then required <$> BootReadyRecord.encode (BootReadyRecord.mk 1 1 4)
  else if decide (name = NAGI_BOOT_STAGE_VARIABLE) then required <$> BootStageRecord.encode (BootStageRecord.mk 0 5)
  else None.

Definition machine : Machine.t Toy.t := Machine.mk (Toy.mk the_variables (fun _ => 0) []) (fun _ => 0xcc).

Lemma machine_holds : journal_holds (Machine.firmware machine) the_state.
Proof. exists RecordCopy.First. vm_compute. reflexivity. Qed.

(** What a run returns. *)
Definition outcome {T} (run : Exec (Result T string * Machine.t Toy.t)) : option (Result T string) :=
  match run with Ret (r, _) => Some r | Panic => None end.

Definition trial_control : BootControlInfo.t := BootControlInfo.mk 0x5000 7 0 1 0 (replicate 5 0).


(** The machine after that decision. *)
Definition decided_machine : Machine.t Toy.t :=
  match m27_boot_control_decision machine with Ret (_, s) => s | Panic => machine end.

Lemma machine_decides :
  m27_boot_control_decision machine = Ret (Ok (BootImageSelection.SystemA, trial_control), decided_machine).
Proof.
  assert (Ho : outcome (m27_boot_control_decision machine) = Some (Ok (BootImageSelection.SystemA, trial_control)))
    by by vm_compute.
  unfold decided_machine. destruct (m27_boot_control_decision machine) as [[r s]|]; [|discriminate Ho].
  by injection Ho as ->.
Qed.

Lemma the_image : kernel_image LoaderElfExample.kernel 0x100000 [LoaderElfExample.the_segment].
Proof.
  destruct (parse_kernel_spec LoaderElfExample.kernel ltac:(by vm_compute)) as [_ Hp].
  destruct (proj1 (Hp (kernel_plan 0x100000 [LoaderElfExample.the_segment])) ltac:(by vm_compute)) as (entry&ss&Hi&He).
  injection He as <- Hss Hlen. destruct ss as [|x [|]]; [done| |done]. cbn in Hss. by injection Hss as <-.
Qed.

Lemma slot_bootable f : Toy.ranges f = [] ->
  bootable f BootImageSelection.SystemA trial_control (the_manifest 2) LoaderElfExample.kernel init 0x100000
    [LoaderElfExample.the_segment].
Proof.
  intros Hr. split.
  - by vm_compute.
  - intros _. exists (the_manifest 1). split; by vm_compute.
  - by vm_compute.
  - by vm_compute.
  - split; by vm_compute.
  - exact the_image.
  - constructor; [by vm_compute|constructor].
  - intros x a ->%list_elem_of_singleton Ha. revert a Ha. apply (available_free f 0x100000 1). right. by rewrite Hr.
  - by vm_compute.
  - by vm_compute.
  - split; by vm_compute.
  - exists 0. split; [split; [by exists 0|]|split; [by vm_compute|]].
    + apply (available_free f 0 1). right. by rewrite Hr.
    + intros a Ha [Hx|?%Exists_nil]%Exists_cons; [|done]. change (0x100000 <= a < 0x100000 + 4096) in Hx.
      change (0 <= a < 0 + 4096) in Ha. lia.
Qed.

(** The kernel of System A is entered, on trial. *)
Lemma loader_boots_witness : exists info s',
  main machine = Ret (Ok (Enter 0x100000 info), s')
  /\ entered (Machine.memory s') LoaderElfExample.kernel init [LoaderElfExample.the_segment]
       (FramebufferInfo.mk 0x80000000 1228800 640 480 640 1) 0x7000 trial_control info.
Proof.
  change 0x7000 with (find_acpi_rsdp 0 (config_tables (Machine.firmware decided_machine))).
  apply (loader_boots machine BootImageSelection.SystemA trial_control decided_machine (the_manifest 2)).
  - reflexivity.
  - exact machine_decides.
  - intros [].
  - apply slot_bootable. vm_compute. reflexivity.
  - reflexivity.
  - discriminate.
Defined.

(** What was entered was verified. *)
Lemma loader_enters_verified_witness : exists info s' selection s1 m kernel segments,
  main machine = Ret (Ok (Enter 0x100000 info), s')
  /\ verified s1 selection (BootInfo.boot_control info) (Machine.memory s') 0x100000 (BootInfo.init_image info)
       m kernel segments.
Proof.
  assert (Ho : match outcome (main machine) with Some (Ok (Enter entry _)) => entry = 0x100000 | _ => False end)
    by by vm_compute.
  destruct (loader_enters_verified machine) as (r&s'&Hr&Hv). rewrite Hr in Ho. cbn [outcome] in Ho.
  destruct r as [[entry info|]|]; [|contradiction Ho..]. subst entry.
  destruct (Hv 0x100000 info eq_refl) as (selection&s1&m&kernel&segments&_&Hver).
  exists info, s', selection, s1, m, kernel, segments. exact (conj Hr Hver).
Defined.
End LoaderExample.
